(* ===== verification/_CoqProject ===== *)
-Q . S2P
Prelude.v
Machine.v
Logic.v
Soundness.v
Preservation.v
Adequacy.v
Verified.v
Ring.v
Ownership.v
Accounts.v
Native.v
WaitGroup.v
Once.v
CallOnce.v
Channel.v
OwnedBytes.v
ThreadPool.v
ChannelRefs.v
OwnedBytesRefs.v
ThreadPoolRefs.v
Interleave.v
Platform.v
Arc.v
Atomic.v
Windows.v
Api.v
ApiOwnedBytes.v
ApiChannel.v
ApiWaitGroup.v
ApiThreadPool.v
AtomicCell.v
RwLock.v
OsMutex.v
Mutex.v
MutexInvariant.v
MutexCalls.v
MutexSafety.v
ApiLocks.v
Thread.v
ThreadInvariant.v
ThreadCalls.v
ThreadSafety.v
ApiThread.v
ThreadAlone.v
Join.v
