(* ===== verification/Prelude.v ===== *)
(** * The native concurrency primitives of Nanaloveyuki/sync, verified

    The library gives MoonBit programs atomics, a wait group, channels, a mutex
    with a condition variable, a read-write lock, a once cell, threads and a
    thread pool.  Each primitive is a C file (src/src/.../native.c) over two
    headers of helpers, and a MoonBit file that turns statuses into errors.  A
    MoonBit value of the library is a handle: a pointer to a heap-allocated
    "core" with an atomic reference count.  [share] makes another handle of the
    same core, a finalizer runs when a handle becomes unreachable and drops its
    reference, and whoever drops the last one destroys and frees the core.

    Every theorem is about all executions of one such core: any number of
    threads call the exported functions at any time, the scheduler interleaves
    them at every memory access and OS call, every OS call may fail with any
    status, a sleeping thread may wake up spuriously, and the test hooks may be
    set to anything.

    ** Parts of the program and files of the development

    Foundations
    - [Prelude] (this file): 32-bit integers with their overflow, arrays indexed
      by [int32_t], outcomes of a step, lemmas on lists and sums.
    - [Machine], [Logic], [Soundness], [Preservation], [Adequacy], [Verified]:
      the first semantics.  A function is a free monad over the calls and
      accesses the C code makes; [Machine.step] runs it, executably.  [Logic.wp]
      computes verification conditions with a lock invariant, ghost credits for
      what is stored in the core, an atomic specification with a commit in each
      operation, and wake-up accounting; [Verified] is what a component that has
      proved them gets.  It fits the files that keep their data under one mutex.
    - [Ownership], [Accounts]: what the effects that Machine only records, such as
      [moonbit_decref], may be used for.  A [ledger] is the account of one object;
      [own] computes, next to [wp], the conditions under which a program keeps it,
      and the soundness theorem reads the balance off the trace.
    - [Interleave], [Arc], [OsMutex]: the second semantics, for the files that
      hold an OS lock across calls, wait for a thread or use no lock.  A function
      is a sequence of atomic state transformers that each file defines for its
      own OS calls; the logic gives every running call a ghost value and asks
      that every step of every call keeps one invariant.  [Arc] has the reference
      count and the accounting of handles, [OsMutex] the OS mutex, [Platform] what
      differs between POSIX and Windows.
    - [Native]: src/internal/native_internal.h and native_sync.h as programs of
      Machine: OS wrappers, reference count, test hooks, allocation.
    - [Ring]: the circular buffer of both channels and the pool, and the queue it
      stands for.

    Components
    - [WaitGroup]: src/wait_group/native.c.
    - [Once], [CallOnce]: src/unsafe/once/native.c, and [call_once] of once.mbt as a
      program over it, with any number of callers.
    - [Channel]: src/unsafe/channel/native.c, messages are addresses;
      [ChannelRefs]: the references to the messages.
    - [OwnedBytes]: src/channel/native.c, messages are byte strings with limits
      on the size of one and of all; [OwnedBytesRefs]: the storage of the copies.
    - [ThreadPool]: src/unsafe/thread_pool/native.c, with the worker threads;
      [ThreadPoolRefs]: the calls and the references of the tasks.
    - [Atomic], [AtomicCell]: src/atomic/native.c and atomic.mbt: the accesses as
      functions, then cells in use by many threads for any type that satisfies
      the class [AtomicContract].
    - [RwLock]: src/unsafe/rwlock/native.c and the callbacks of rwlock.mbt.
    - [Mutex] (the functions), [MutexInvariant], [MutexCalls], [MutexSafety]:
      src/unsafe/mutex/native.c (mutex and condition variable) and the callbacks of
      mutex.mbt.
    - [Thread] (the functions), [ThreadInvariant], [ThreadCalls], [ThreadSafety],
      [ThreadAlone]: src/unsafe/thread/native.c and the life of a handle in
      thread.mbt.
    - [Api] (errors, and the class [Wrapper] of what a wrapper file owes its
      callers), [ApiWaitGroup], [ApiChannel], [ApiOwnedBytes], [ApiThreadPool],
      [ApiThread], [ApiLocks]: the MoonBit files that programs call, wait_group.mbt,
      channel.mbt, owned_bytes_channel.mbt, thread_pool.mbt, thread.mbt, rwlock.mbt
      and mutex.mbt: what they make of the results and the statuses of the native
      functions, and types/error.mbt.
    - [Join]: a spawned thread beside any component of Machine, and the example of
      README.md.
    - [Windows]: the Windows branches of src/internal and atomic/native.c, and the
      components of Machine compiled with them.  The components of Interleave are
      about any [Platform.platform], POSIX or Windows.

    A definition has the name of the C function it translates.  The plain fields
    of a core are one record; a function's out-parameters are part of its result;
    a C error path is a branch of the program.  A write or read that C leaves
    undefined is the outcome [Fault]: a field accessed without the mutex that
    protects it while others can reach the core, an index out of an array, an
    overflow of [int32_t], an object used before it is initialised or after it is
    destroyed or freed, a thread joined twice.  [Blocked] is a step that has to
    wait.

    ** What the theorems show

    - Refinement: wait group, once, both channels, the thread pool and the atomic
      cells are linearisable: the calls and returns of every execution are those
      of an atomic object ([wg_atomic], [chan_atomic], [own_atomic],
      [pool_atomic], ...), whose state is read off the core whenever the mutex is
      free ([*_linearizable]).  [windows_components] carries that over to Windows, by
      a simulation.
    - What programs see: through the MoonBit files the wait group, both channels and
      the pool are atomic objects whose answers are values or raised errors
      ([wg_api], [chan_api], [own_api], [pool_api]; [*_api]): an answer says why
      nothing was done, a value that was refused is given back (a call that raises
      gives nothing back: [channel_dropped_value]), no null pointer is taken for a
      value, messages arrive in order whatever raises, and a raised
      failure is the first one of the call, which may have taken effect
      ([wrapper_refines], [wrapper_raises], [*_api_raises]).  For the thread, a join
      returns or raises the outcome of the task, once ([thread_api]); for the locks,
      what a callback does comes back unless a lock failed ([rwlock_callbacks],
      [mutex_callbacks]).
    - Functional correctness: first in first out, nothing lost or twice
      ([channel_fifo], [owned_bytes_fifo], [thread_pool_fifo], where the tasks taken
      are the tasks called); an initializer runs
      at most once and callers agree on its outcome ([call_once_correct]); the
      result of a task is handed to one join, after the end of the thread
      ([thread_join]), and the thread is then done with everything else
      ([join_barrier]); the wait on a condition variable is refused without the
      mutex ([condvar_wait_checked]).
    - Exclusion: [mutex_exclusion], [rwlock_exclusion].
    - Invariants and bounds: [channel_invariant], [owned_bytes_limits],
      [atomic_cell_counts], [thread_lifecycle] (the state machine of a thread).
    - Equivalence with functions: [atomic_accesses], [thread_calls_alone].
    - Liveness, as far as it is a property of states: no wake-up is lost and
      critical sections end ([*_progress], [once_wakeups]), calls wait only for a
      named reason ([*_waits]), a worker leaves only when the queue is drained, and
      then all accepted tasks have been called ([thread_pool_drained]).  [owned_bytes_stalled_sender] is the exception, a
      wake-up that the byte channel does lose.
    - Resources and errors: no schedule is undefined behaviour; cores, buffers,
      OS objects and tasks live as long as somebody can reach them and are
      released once; queued values, message copies and tasks are released only by
      who has them, exactly once in the end ([channel_resources],
      [owned_bytes_resources], [thread_pool_fifo]); an operation reports the first
      failure it met and [abort] follows a failure ([*_resources],
      [*_release_errors], [*_lifetime]).

    ** Assumptions

    - The reference count of a core, an [int32_t], stays below [MAX_REFS]: an
      increment at the bound is not enabled.  No other bound or fuel is used;
      loops are back edges and executions are schedules of any length.
    - OS calls answer a status chosen by the environment, except that SRW locks do
      not fail.  Unlocking that fails leaves the mutex locked.  pthread_join, mutexes, read-write locks and
      condition variables, and their counterparts on Windows, otherwise do what their
      documentation says; misuse is [Fault].
    - Memory accesses are interleaved.  Fields that are not atomic are accessed
      under the discipline above, which makes data races faults; the checks of
      [sync_condvar_wait] are the exception and are reported.
    - MoonBit calls a finalizer once, after the last use of a handle, and passes
      live handles.  Callbacks ([with_lock], [with_read], [with_write], the task
      of a thread or of a pool) may make any calls their signature allows and
      then return.  A [platform] has the identities of threads; for [Mutex] they
      satisfy [Identities] (injective, never zero).  A Windows call that fails
      leaves GetLastError() not 0.

    ** Not modelled

    What a memory order adds for other memory.  The contents of
    boxed values and results; a value is its address or its reference count.  The
    reads of a message copy, which is the list of its bytes here: making and freeing
    a copy are accounted for, its two allocations may fail.  The references a
    MoonBit wrapper drops itself, after its native call.  That
    a failure is the only reason for a raised failure: a test hook can make a call
    raise, too.  The facades, which only re-export.  Tests, test programs, scripts, CI.

    ** What is left

    Several threads and several components in one program, beyond one thread beside
    one component ([Join]); fairness, and with it that a sleeping call returns. *)
From stdpp Require Import base gmap list.
From Stdlib Require Import ZArith Lia.

#[global] Open Scope Z_scope.

(** ** 32-bit integers as the C sources use them *)

Definition INT32_MAX : Z := 2147483647.
Definition INT32_MIN : Z := -2147483648.

(** [i32_ok z]: the mathematical result [z] is representable in [int32_t];
    signed overflow is undefined behaviour in C, so the models compute a
    partial result through [i32]. *)
Definition i32_ok (z : Z) : bool := (INT32_MIN <=? z) && (z <=? INT32_MAX).

Definition i32 (z : Z) : option Z := if i32_ok z then Some z else None.

(** Two's complement reinterpretations between [int32_t] and [uint32_t]. *)
Definition to_u32 (z : Z) : Z := z mod 2 ^ 32.
Definition to_i32 (z : Z) : Z :=
  let u := z mod 2 ^ 32 in if u <? 2 ^ 31 then u else u - 2 ^ 32.

Lemma i32_some z : INT32_MIN <= z <= INT32_MAX -> i32 z = Some z.
Proof. intros [??]. unfold i32, i32_ok. by rewrite !(proj2 (Z.leb_le _ _)). Qed.

Lemma i32_inv z z' : i32 z = Some z' -> z' = z /\ INT32_MIN <= z <= INT32_MAX.
Proof.
  unfold i32, i32_ok. destruct (Z.leb_spec INT32_MIN z), (Z.leb_spec z INT32_MAX); naive_solver.
Qed.

Lemma to_i32_range z : INT32_MIN <= to_i32 z <= INT32_MAX.
Proof.
  unfold to_i32, INT32_MIN, INT32_MAX.
  pose proof (Z.mod_pos_bound z (2 ^ 32) eq_refl).
  destruct (Z.ltb_spec (z mod 2 ^ 32) (2 ^ 31)); lia.
Qed.

Lemma to_i32_id z : INT32_MIN <= z <= INT32_MAX -> to_i32 z = z.
Proof.
  unfold to_i32, INT32_MIN, INT32_MAX. intros H.
  destruct (Z.leb_spec 0 z).
  - rewrite Z.mod_small by lia. destruct (Z.ltb_spec z (2 ^ 31)); lia.
  - rewrite <- (Z.mod_unique z (2 ^ 32) (-1) (z + 2 ^ 32)) by lia.
    destruct (Z.ltb_spec (z + 2 ^ 32) (2 ^ 31)); lia.
Qed.

Lemma to_u32_of_i32 z : to_u32 (to_i32 z) = to_u32 z.
Proof.
  unfold to_u32, to_i32. destruct (Z.ltb_spec (z mod 2 ^ 32) (2 ^ 31)).
  - apply Z.mod_mod. lia.
  - rewrite Zminus_mod, Z_mod_same_full, Z.sub_0_r, !Z.mod_mod by lia. done.
Qed.

Lemma to_i32_of_u32 z : to_i32 (to_u32 z) = to_i32 z.
Proof. unfold to_u32, to_i32. rewrite Z.mod_mod by lia. done. Qed.

(** C truth values. *)
Definition b2z (b : bool) : Z := if b then 1 else 0.

Lemma b2z_nonneg b : 0 <= b2z b.
Proof. by destruct b. Qed.

(** ** Arrays indexed by [int32_t] *)

(** Reading and writing an array slot; out of bounds is undefined behaviour
    and yields [None]. *)
Definition zget {A} (l : list A) (i : Z) : option A :=
  if i <? 0 then None else l !! Z.to_nat i.

Definition zset {A} (l : list A) (i : Z) (x : A) : option (list A) :=
  if (0 <=? i) && (i <? Z.of_nat (length l)) then Some (<[Z.to_nat i := x]> l) else None.

Lemma zset_some {A} (l : list A) i x :
  0 <= i < Z.of_nat (length l) -> zset l i x = Some (<[Z.to_nat i := x]> l).
Proof.
  intros [??]. unfold zset.
  by rewrite (proj2 (Z.leb_le _ _)), (proj2 (Z.ltb_lt _ _)).
Qed.

Lemma zset_length {A} (l l' : list A) i x : zset l i x = Some l' -> length l' = length l.
Proof. unfold zset. case_match; [|done]. intros [= <-]. apply length_insert. Qed.

Lemma zget_nat {A} (l : list A) (i : nat) : zget l (Z.of_nat i) = l !! i.
Proof. unfold zget. rewrite (proj2 (Z.ltb_ge _ _)) by lia. by rewrite Nat2Z.id. Qed.

(** ** Steps of threads *)

Abbreviation tid := nat.

(** [Fault]: undefined behaviour (a data race, use after free, an unlock
    without lock, ...).  [Blocked]: the choice is not enabled. *)
Inductive outcome (A : Type) : Type :=
| Go (x : A)
| Fault
| Blocked.
Arguments Go {A} x.
Arguments Fault {A}.
Arguments Blocked {A}.

(** What holds of each element and what comes before it. *)
(** An element of a concatenation is in one of its parts. *)
Lemma app_eq_mid {A} (l l' l1 l2 : list A) x :
  l ++ l' = l1 ++ x :: l2 ->
  (exists k, l = l1 ++ x :: k /\ l2 = k ++ l') \/ exists k, l' = k ++ x :: l2 /\ l1 = l ++ k.
Proof.
  intros (k & [[-> E]|[-> E]])%app_eq_app; [|by right; exists k].
  destruct k as [|y k]; simplify_eq/=; [|by left; exists k].
  right. exists []. by rewrite !app_nil_r.
Qed.

Lemma split_app {A} (P : list A -> A -> Prop) l l' :
  (forall l1 x l2, l = l1 ++ x :: l2 -> P l1 x) ->
  (forall l1 x l2, l' = l1 ++ x :: l2 -> P (l ++ l1) x) ->
  forall l1 x l2, l ++ l' = l1 ++ x :: l2 -> P l1 x.
Proof.
  intros Hl Hl' l1 x l2 [(k & E & _)|(k & E & ->)]%app_eq_mid; [by apply Hl in E|by apply Hl' in E].
Qed.

(** ** Sums of integers over lists and finite maps *)

Definition lsum {A} (f : A -> Z) (l : list A) : Z := foldr (fun x acc => f x + acc) 0 l.

Lemma lsum_cons {A} (f : A -> Z) x l : lsum f (x :: l) = f x + lsum f l.
Proof. done. Qed.

Lemma lsum_app {A} (f : A -> Z) l1 l2 : lsum f (l1 ++ l2) = lsum f l1 + lsum f l2.
Proof. induction l1; [done|]. simpl app. rewrite !lsum_cons. lia. Qed.

Lemma lsum_perm {A} (f : A -> Z) l l' : l ≡ₚ l' -> lsum f l = lsum f l'.
Proof. induction 1; simpl; rewrite ?lsum_cons; lia. Qed.

#[export] Instance lsum_proper {A} (f : A -> Z) : Proper ((≡ₚ) ==> (=)) (lsum f).
Proof. intros l l'. apply lsum_perm. Qed.

Lemma lsum_nonneg {A} (f : A -> Z) l : (forall x, 0 <= f x) -> 0 <= lsum f l.
Proof. intros H. induction l as [|x l IH]; [done|]. rewrite lsum_cons. specialize (H x). lia. Qed.

Lemma lsum_le_length {A} (f : A -> Z) l : (forall x, f x <= 1) -> lsum f l <= Z.of_nat (length l).
Proof.
  intros H. induction l as [|x l IH]; [done|]. rewrite lsum_cons. specialize (H x). simpl length. lia.
Qed.

Lemma lsum_const1 {A} (l : list A) : lsum (fun _ => 1) l = Z.of_nat (length l).
Proof. induction l; [done|]. rewrite lsum_cons. simpl length. lia. Qed.

Lemma lsum_two {A} (f : A -> Z) l x y :
  (forall x, 0 <= f x) -> x <> y -> x ∈ l -> y ∈ l -> f x + f y <= lsum f l.
Proof.
  intros Hf Hne (l1 & l2 & ->)%list_elem_of_split [Hy|[<-|Hy]%elem_of_cons]%elem_of_app; [|done|];
    apply list_elem_of_split in Hy as (k1 & k2 & ->);
    rewrite !lsum_app, !lsum_cons, ?lsum_app, ?lsum_cons;
    repeat match goal with
      | |- context [lsum f ?l] =>
          lazymatch goal with H : 0 <= lsum f l |- _ => fail | _ => pose proof (lsum_nonneg f l Hf) end
      end; lia.
Qed.

(** How often an element occurs. *)
Definition cnt {A} `{EqDecision A} (x : A) (l : list A) : Z := lsum (fun y => b2z (bool_decide (y = x))) l.
#[global] Arguments cnt {A _} x l : simpl never.

Section cnt.
Context {A : Type} `{EqDecision A}.
Implicit Types (x y : A) (l : list A).

Lemma cnt_cons x y l : cnt x (y :: l) = b2z (bool_decide (y = x)) + cnt x l.
Proof. done. Qed.

Lemma cnt_empty x : cnt x [] = 0.
Proof. done. Qed.

Lemma cnt_one x y : cnt x [y] = b2z (bool_decide (y = x)).
Proof. apply Z.add_0_r. Qed.

Lemma cnt_app x l l' : cnt x (l ++ l') = cnt x l + cnt x l'.
Proof. apply lsum_app. Qed.

Lemma cnt_nonneg x l : 0 <= cnt x l.
Proof. apply lsum_nonneg. intros y. by case_bool_decide. Qed.

Lemma cnt_delete x l i y : l !! i = Some y -> cnt x (delete i l) = cnt x l - b2z (bool_decide (y = x)).
Proof.
  intros Hy. apply delete_Permutation in Hy. unfold cnt.
  rewrite (lsum_perm _ _ _ Hy), lsum_cons. lia.
Qed.

Lemma cnt_pos x l : x ∈ l <-> 0 < cnt x l.
Proof.
  induction l as [|y l IH]; [by split; [intros ?%not_elem_of_nil|]|].
  rewrite elem_of_cons, cnt_cons, IH. pose proof (cnt_nonneg x l).
  case_bool_decide as Hy; simpl b2z.
  - subst. split; [lia|by left].
  - split; [intros [->|?]; [done|lia]|right; lia].
Qed.

Lemma cnt_zero x l : x ∉ l -> cnt x l = 0.
Proof. rewrite cnt_pos. pose proof (cnt_nonneg x l). lia. Qed.

Lemma cnt_nil l : (forall x, cnt x l <= 0) -> l = [].
Proof.
  destruct l as [|y l]; [done|]. intros H. specialize (H y).
  assert (y ∈ y :: l) as ?%cnt_pos by constructor. lia.
Qed.

Lemma cnt_singleton x l : x ∈ l -> (forall y, cnt y l <= cnt y [x]) -> l = [x].
Proof.
  intros (l1 & l2 & ->)%list_elem_of_split H.
  assert (l1 ++ l2 = []) as Hl.
  { apply cnt_nil. intros y. specialize (H y). rewrite cnt_app, cnt_cons, cnt_one in *. lia. }
  by apply app_eq_nil in Hl as [-> ->].
Qed.

(** Lists with the same elements equally often are permutations. *)
Lemma cnt_perm l l' : (forall x, cnt x l = cnt x l') -> l ≡ₚ l'.
Proof.
  revert l'. induction l as [|y l IH]; intros l' H.
  - rewrite (cnt_nil l'); [done|]. intros x. by rewrite <- (H x).
  - assert (y ∈ l') as (l1 & l2 & ->)%list_elem_of_split.
    { apply cnt_pos. rewrite <- H, cnt_cons, bool_decide_true by done. pose proof (cnt_nonneg y l). simpl. lia. }
    rewrite <- Permutation_middle. f_equiv. apply IH. intros x. specialize (H x).
    rewrite cnt_cons, !cnt_app, cnt_cons in *. lia.
Qed.

Lemma cnt_submseteq l l' : (forall x, cnt x l <= cnt x l') -> l ⊆+ l'.
Proof.
  revert l'. induction l as [|y l IH]; intros l' H; [apply submseteq_nil_l|].
  assert (y ∈ l') as (l1 & l2 & ->)%list_elem_of_split.
  { apply cnt_pos. specialize (H y). rewrite cnt_cons, bool_decide_true in H by done.
    pose proof (cnt_nonneg y l). simpl in H. lia. }
  rewrite <- Permutation_middle. apply submseteq_skip, IH. intros x. specialize (H x).
  rewrite cnt_cons, !cnt_app, cnt_cons in *. lia.
Qed.

Lemma perm_cnt l l' x : l ≡ₚ l' -> cnt x l = cnt x l'.
Proof. apply lsum_perm. Qed.

Lemma cnt_without x y l :
  cnt x (filter (fun z => z <> y) l) = if decide (x = y) then 0 else cnt x l.
Proof.
  induction l as [|z l IH]; [by rewrite cnt_empty; case_decide|].
  rewrite filter_cons, cnt_cons. destruct (decide (z <> y)) as [Hz|Hz].
  - rewrite cnt_cons, IH. case_decide; [subst|done]. by rewrite bool_decide_false.
  - rewrite IH. case_decide; [done|]. rewrite bool_decide_false; [done|]. by intros ->.
Qed.

Lemma length_without y l :
  Z.of_nat (length l) = Z.of_nat (length (filter (fun z => z <> y) l)) + cnt y l.
Proof.
  induction l as [|z l IH]; [done|]. rewrite filter_cons, cnt_cons.
  destruct (decide (z <> y)) as [Hz|Hz]; simpl length.
  - rewrite bool_decide_false by done. simpl. lia.
  - apply dec_stable in Hz. rewrite bool_decide_true by done. simpl. lia.
Qed.
End cnt.

Section msum.
Context {K A : Type} `{Countable K}.
Implicit Types (m : gmap K A) (f : A -> Z).

Definition msum f m : Z := map_fold (fun _ x acc => f x + acc) 0 m.

Lemma msum_empty f : msum f ∅ = 0.
Proof. done. Qed.

Lemma msum_new f m k x : m !! k = None -> msum f (<[k:=x]> m) = f x + msum f m.
Proof. intros Hk. unfold msum. rewrite map_fold_insert_L; auto; intros; lia. Qed.

Lemma msum_delete f m k x : m !! k = Some x -> msum f (delete k m) = msum f m - f x.
Proof.
  intros Hk. unfold msum. rewrite (map_fold_delete_L _ 0 k x m); [lia|intros; lia|done].
Qed.

Lemma msum_insert f m k x y :
  m !! k = Some x -> msum f (<[k:=y]> m) = msum f m - f x + f y.
Proof.
  intros Hk. rewrite <- insert_delete_eq, msum_new by apply lookup_delete_eq.
  rewrite (msum_delete f m k x Hk). lia.
Qed.

Lemma msum_zero f m : (forall k x, m !! k = Some x -> f x = 0) -> msum f m = 0.
Proof.
  induction m as [|k x m Hk IH] using map_ind; intros Hf; [done|].
  rewrite msum_new by done. rewrite IH, (Hf k x); [lia|by simplify_map_eq|].
  intros k' x' Hk'. apply (Hf k' x'). apply lookup_insert_Some. right.
  split; [intros ->; congruence|done].
Qed.

Lemma msum_nonneg f m : (forall k x, m !! k = Some x -> 0 <= f x) -> 0 <= msum f m.
Proof.
  induction m as [|k x m Hk IH] using map_ind; intros Hf; [done|].
  rewrite msum_new by done. assert (0 <= f x) by (apply (Hf k); by simplify_map_eq).
  enough (0 <= msum f m) by lia. apply IH.
  intros k' x' Hk'. apply (Hf k' x'). apply lookup_insert_Some. right.
  split; [intros ->; congruence|done].
Qed.

Lemma msum_ge f m k x :
  (forall k x, m !! k = Some x -> 0 <= f x) -> m !! k = Some x -> f x <= msum f m.
Proof.
  intros Hf Hk. enough (0 <= msum f (delete k m)).
  { rewrite (msum_delete f m k x Hk) in *. lia. }
  apply msum_nonneg. intros k' x' [_ ?]%lookup_delete_Some. eauto.
Qed.

Lemma msum_le f g m : (forall k x, m !! k = Some x -> f x <= g x) -> msum f m <= msum g m.
Proof.
  induction m as [|k x m Hk IH] using map_ind; intros Hf; [done|].
  rewrite !msum_new by done. assert (f x <= g x) by (apply (Hf k); by simplify_map_eq).
  enough (msum f m <= msum g m) by lia. apply IH.
  intros k' x' Hk'. apply (Hf k' x'). apply lookup_insert_Some. right.
  split; [intros ->; congruence|done].
Qed.

Lemma msum_ext f g m : (forall k x, m !! k = Some x -> f x = g x) -> msum f m = msum g m.
Proof.
  induction m as [|k x m Hk IH] using map_ind; intros Hf; [done|].
  rewrite !msum_new by done. rewrite (Hf k x), IH; [lia| |by simplify_map_eq].
  intros k' x' Hk'. apply (Hf k' x'). apply lookup_insert_Some. right.
  split; [intros ->; congruence|done].
Qed.
End msum.

Lemma msum_fmap {K A B} `{Countable K} (f : B -> Z) (g : A -> B) (m : gmap K A) :
  msum f (g <$> m) = msum (fun x => f (g x)) m.
Proof.
  induction m as [|k x m Hk IH] using map_ind; [by rewrite fmap_empty|].
  rewrite fmap_insert, !msum_new, IH; [done|done|]. by rewrite lookup_fmap, Hk.
Qed.

Lemma msum_list {K A} `{Countable K} (f : A -> Z) (m : gmap K A) :
  msum f m = lsum (fun x => f x.2) (map_to_list m).
Proof.
  induction m as [|k x m Hk IH] using map_ind; [by rewrite map_to_list_empty|].
  by rewrite msum_new, map_to_list_insert, lsum_cons, IH.
Qed.

(** Taking one occurrence out of a list. *)
Fixpoint take_one {A} `{EqDecision A} (x : A) (l : list A) : option (list A) :=
  match l with
  | [] => None
  | y :: l' => if decide (y = x) then Some l' else cons y <$> take_one x l'
  end.

Lemma take_one_perm {A} `{EqDecision A} (x : A) l l' : take_one x l = Some l' -> l ≡ₚ x :: l'.
Proof.
  revert l'. induction l as [|y l IH]; intros l'; simpl; [done|].
  case_decide as Hy; [intros [= <-]; by subst|].
  destruct (take_one x l) as [k|]; [|done]. intros [= <-].
  rewrite (IH k eq_refl). apply perm_swap.
Qed.

(** ** Tactics *)

(** Case analysis on integer and boolean comparisons in the goal or the
    hypotheses. *)
Ltac zcase :=
  match goal with
  | |- context [?a =? ?b] => destruct (Z.eqb_spec a b)
  | |- context [?a <? ?b] => destruct (Z.ltb_spec a b)
  | |- context [?a <=? ?b] => destruct (Z.leb_spec a b)
  | H : context [?a =? ?b] |- _ => destruct (Z.eqb_spec a b)
  | H : context [?a <? ?b] |- _ => destruct (Z.ltb_spec a b)
  | H : context [?a <=? ?b] |- _ => destruct (Z.leb_spec a b)
  end.

Ltac split_and_all := repeat match goal with |- _ /\ _ => split end.
