(* ===== verification/Machine.v ===== *)
(** Machine: the programs of the C sources and their interleaving semantics.

    A component (a channel, a wait group, a pool, ...) is one heap allocated
    "core" with an atomic reference count, one OS mutex, some OS condition
    variables and some plain fields.  Its functions are values of [prog]: a
    free monad over the operating-system calls, atomic operations and field
    accesses the C code performs, in the order it performs them.  The machine
    runs any number of threads over one core; [step] is executable, so a
    schedule (a list of [choice]s) can be evaluated. *)
From stdpp Require Import base gmap list.
From Stdlib Require Import ZArith Lia.
From S2P Require Import Prelude.

(** ** Signatures: the types a component is built from *)

Record sig := Sig {
  sP : Type;    (** plain fields of the core struct, protected by its mutex *)
  sK : Type;    (** the fields that never change after construction *)
  sH : Type;    (** the static test hooks of the file (atomics) *)
  sC : Type;    (** condition variables of the core *)
  sD : Type;    (** kinds of handle (roles) *)
  sE : Type;    (** external effects, such as [moonbit_decref] *)
  sO : Type;    (** operations with their arguments *)
  sR : Type;    (** results, out-parameters included *)
  sL : Type;    (** loop labels with the loop's locals *)
  sC_dec : EqDecision sC;
  sD_dec : EqDecision sD;
}.

#[export] Existing Instance sC_dec.
#[export] Existing Instance sD_dec.

(** Memory blocks and OS objects a core owns. *)
Inductive rsrc (C : Type) : Type :=
| RCore                 (** the core struct itself *)
| RBuf                  (** its slot array *)
| RMutex
| RCond (c : C).
Arguments RCore {C}.
Arguments RBuf {C}.
Arguments RMutex {C}.
Arguments RCond {C} c.

#[export] Instance rsrc_dec {C} `{EqDecision C} : EqDecision (rsrc C).
Proof. solve_decision. Defined.

(** ** Programs *)

Inductive prog (S : sig) : Type :=
| Ret (r : sR S)                                   (** return from the operation *)
| Abort                                            (** abort() *)
| Alloc (m : rsrc (sC S)) (k : bool -> prog S)     (** calloc, [false] is NULL *)
| Free (m : rsrc (sC S)) (k : prog S)              (** free *)
| Init (m : rsrc (sC S)) (k : Z -> prog S)         (** sync_os_*_init *)
| Destroy (m : rsrc (sC S)) (k : Z -> prog S)      (** sync_os_*_destroy *)
| RefStore (z : Z) (k : prog S)                    (** core->refs = z *)
| RefInc (k : prog S)                              (** sync_arc_inc *)
| RefDec (k : Z -> prog S)                         (** sync_arc_dec, returns the new count *)
| ReadImm (k : sK S -> prog S)                     (** read of a constant field *)
| Access (f : sP S -> option (sP S)) (k : sP S -> prog S)
    (** read and write plain fields; [k] gets the old contents, [f] the new;
        [None] is undefined behaviour *)
| Hook (f : sH S -> sH S) (k : sH S -> prog S)     (** atomic access to the test hooks *)
| Lock (k : Z -> prog S)
| Unlock (k : Z -> prog S)
| Signal (c : sC S) (k : Z -> prog S)
| Broadcast (c : sC S) (k : Z -> prog S)
| WaitWhile (g : sP S -> bool) (c : sC S) (onerr : Z -> prog S) (k : prog S)
    (** while (g) { st = cond_wait(c); if (st != 0) onerr } k *)
| CondWait (c : sC S) (k : Z -> prog S)            (** a single cond_wait *)
| Wrap (d : sD S) (k : prog S)                     (** moonbit_make_external_object *)
| Spawn (o : sO S) (k : Z -> prog S)               (** thread creation, detached *)
| OsCall (k : Z -> prog S)                          (** an OS call that does not touch the core *)
| Emit (e : sE S) (k : prog S)                     (** external effect *)
| Jump (l : sL S).                                 (** back edge of a loop *)

Arguments Ret {S} r.
Arguments Abort {S}.
Arguments Alloc {S} m k.
Arguments Free {S} m k.
Arguments Init {S} m k.
Arguments Destroy {S} m k.
Arguments RefStore {S} z k.
Arguments RefInc {S} k.
Arguments RefDec {S} k.
Arguments ReadImm {S} k.
Arguments Access {S} f k.
Arguments Hook {S} f k.
Arguments Lock {S} k.
Arguments Unlock {S} k.
Arguments Signal {S} c k.
Arguments Broadcast {S} c k.
Arguments WaitWhile {S} g c onerr k.
Arguments CondWait {S} c k.
Arguments Wrap {S} d k.
Arguments Spawn {S} o k.
Arguments OsCall {S} k.
Arguments Emit {S} e k.
Arguments Jump {S} l.

Declare Scope prog_scope.
Delimit Scope prog_scope with prog.
Bind Scope prog_scope with prog.
Notation "x <- c ;; k" := (c (fun x => k))
  (at level 100, c at next level, k at level 200, right associativity, only parsing) : prog_scope.
Notation "c ;; k" := (c k) (at level 100, k at level 200, right associativity, only parsing) : prog_scope.

Section derived.
Context {S : sig}.

(** Plain reads and writes, as instances of [Access]. *)
Definition Read (k : sP S -> prog S) : prog S := Access Some k.
Definition Write (f : sP S -> option (sP S)) (k : prog S) : prog S := Access f (fun _ => k).

(** [sync_alloc]: calloc, or abort when it returns NULL. *)
Definition sync_alloc (m : rsrc (sC S)) (k : prog S) : prog S :=
  Alloc m (fun ok => if ok then k else Abort).

(** The [*_abort_if_failed] helpers. *)
Definition abort_if_failed (st : Z) (k : prog S) : prog S :=
  if st =? 0 then k else Abort.
End derived.

(** [sync_record_error] and its copies: the first failure wins. *)
Definition record_error (error status : Z) : Z :=
  if (error =? 0) && negb (status =? 0) then status else error.

(** ** The code of a component *)

Record code (S : sig) := Code {
  body : sO S -> prog S;          (** the body of each operation *)
  block : sL S -> prog S;         (** the body of each loop *)
  zeroed : sP S;                  (** the fields as calloc leaves them *)
  imm : sP S -> sK S;             (** the constant fields *)
  on_handle : sO S -> option (sD S); (** the handle an operation is called on *)
  consumes : sO S -> bool;        (** a finalizer: the handle is gone afterwards *)
  client : sO S -> bool;          (** operations a client may call once the core exists *)
}.
Arguments body {S} _ _.
Arguments block {S} _ _.
Arguments zeroed {S} _.
Arguments imm {S} _ _.
Arguments on_handle {S} _ _.
Arguments consumes {S} _ _.
Arguments client {S} _ _.

(** ** Configurations *)

(** The reference counter is an [int32_t].  The machine follows executions in
    which it stays below its maximum: a [RefInc] at [MAX_REFS] is not enabled. *)
Definition MAX_REFS : Z := INT32_MAX - 1.

Inductive tstate (S : sig) : Type :=
| Run (p : prog S)
| Sleep (c : sC S) (k : Z -> prog S)              (** inside pthread_cond_wait *)
| Wake (c : sC S) (st : Z) (k : Z -> prog S).     (** woken, must reacquire the mutex *)
Arguments Run {S} p.
Arguments Sleep {S} c k.
Arguments Wake {S} c st k.

(** The OS mutex.  [Stuck]: an unlock failed, so it stays locked for ever. *)
Inductive lockst := Unlocked | Held (t : tid) | Stuck.

#[export] Instance lockst_dec : EqDecision lockst.
Proof. solve_decision. Defined.

Record config (S : sig) := Config {
  core : sP S;
  hooks : sH S;
  refs : Z;
  alive : list (rsrc (sC S));     (** allocated memory and initialised objects *)
  shared : bool;                  (** more than one party may reach the core *)
  holder : lockst;
  threads : gmap tid (sO S * tstate S);
  idle : list (sD S);             (** live handles no operation is running on *)
}.
Arguments Config {S} _ _ _ _ _ _ _ _.
Arguments core {S} _.
Arguments hooks {S} _.
Arguments refs {S} _.
Arguments alive {S} _.
Arguments shared {S} _.
Arguments holder {S} _.
Arguments threads {S} _.
Arguments idle {S} _.

Section updates.
Context {S : sig}.
Implicit Types c : config S.

Definition with_core f c :=
  Config (f (core c)) (hooks c) (refs c) (alive c) (shared c) (holder c) (threads c) (idle c).
Definition with_hooks f c :=
  Config (core c) (f (hooks c)) (refs c) (alive c) (shared c) (holder c) (threads c) (idle c).
Definition with_refs f c :=
  Config (core c) (hooks c) (f (refs c)) (alive c) (shared c) (holder c) (threads c) (idle c).
Definition with_alive f c :=
  Config (core c) (hooks c) (refs c) (f (alive c)) (shared c) (holder c) (threads c) (idle c).
Definition with_shared b c :=
  Config (core c) (hooks c) (refs c) (alive c) b (holder c) (threads c) (idle c).
Definition with_holder h c :=
  Config (core c) (hooks c) (refs c) (alive c) (shared c) h (threads c) (idle c).
Definition with_threads f c :=
  Config (core c) (hooks c) (refs c) (alive c) (shared c) (holder c) (f (threads c)) (idle c).
Definition with_idle f c :=
  Config (core c) (hooks c) (refs c) (alive c) (shared c) (holder c) (threads c) (f (idle c)).
End updates.

(** What went wrong in a call the operation made: an OS call returned a
    non-zero status, or an allocation failed. *)
Inductive failure := OsFail (st : Z) | OutOfMemory.

Inductive label (S : sig) : Type :=
| LInv (t : tid) (o : sO S)           (** the operation starts on thread [t] *)
| LRes (t : tid) (o : sO S) (r : sR S) (** it returns *)
| LEv (t : tid) (e : sE S)
| LFail (t : tid) (f : failure).
Arguments LInv {S} t o.
Arguments LRes {S} t o r.
Arguments LEv {S} t e.
Arguments LFail {S} t f.

(** A scheduling decision.  [CStep t a v]: thread [t] takes its next step;
    [a] is the status the environment answers (0 or 1 for NULL-returning
    calls), [v] the thread a signal wakes or a thread creation creates.
    [CWake t a]: the wait of sleeping thread [t] ends with status [a]
    without a signal. *)
Inductive choice (S : sig) : Type :=
| CInvoke (t : tid) (o : sO S)
| CStep (t : tid) (a : Z) (v : tid)
| CWake (t : tid) (a : Z).
Arguments CInvoke {S} t o.
Arguments CStep {S} t a v.
Arguments CWake {S} t a.

(** ** One step of the machine *)

Section step.
Context {S : sig} (M : code S).
Implicit Types (c : config S) (t : tid) (o : sO S) (p : prog S).

Definition put t o ts c : config S := with_threads <[t := (o, ts)]> c.

(** Continue thread [t] with program [p]. *)
Definition cont t o p (ls : list (label S)) c : outcome (config S * list (label S)) :=
  Go (put t o (Run p) c, ls).

Definition has (m : rsrc (sC S)) c : bool := bool_decide (m ∈ alive c).

Definition guard {A} (b : bool) (x : outcome A) : outcome A := if b then x else Fault.

(** Failing statuses are visible in the trace. *)
Definition failed t (a : Z) : list (label S) := if a =? 0 then [] else [LFail t (OsFail a)].

Definition remove_rsrc (m : rsrc (sC S)) (l : list (rsrc (sC S))) := filter (.≠ m) l.

Definition sleeps_on (q : sC S) (x : sO S * tstate S) : bool :=
  match x.2 with Sleep q' _ => bool_decide (q' = q) | _ => false end.

Definition nobody_sleeps (q : sC S) c : bool :=
  bool_decide (map_Forall (fun _ x => sleeps_on q x = false) (threads c)).

Definition wake_all (q : sC S) (x : sO S * tstate S) : sO S * tstate S :=
  match x.2 with
  | Sleep q' k => if bool_decide (q' = q) then (x.1, Wake q' 0 k) else x
  | _ => x
  end.

(** A plain field access is legal for the mutex holder, or while nobody
    else can reach the core: anything else is a data race. *)
Definition may_access t c : bool :=
  has RCore c && (negb (shared c) || bool_decide (holder c = Held t)).

Definition private c : bool := has RCore c && negb (shared c).

Definition step_run t (a : Z) (v : tid) o p c : outcome (config S * list (label S)) :=
  match p with
  | Ret r =>
      Go (with_threads (delete t)
            (with_idle (fun l => match on_handle M o with
                                 | Some d => if consumes M o then l else d :: l
                                 | None => l
                                 end) c), [LRes t o r])
  | Abort => Blocked
  | Alloc m k =>
      guard (negb (has m c) && negb (shared c))
        (if a =? 0
         then cont t o (k true) []
                (with_alive (cons m)
                   (if bool_decide (m = RCore) then with_core (fun _ => zeroed M) c else c))
         else cont t o (k false) [LFail t OutOfMemory] c)
  | Free m k =>
      guard (has m c && negb (shared c)) (cont t o k [] (with_alive (remove_rsrc m) c))
  | Init m k =>
      guard (private c && negb (has m c))
        (cont t o (k a) (failed t a) (if a =? 0 then with_alive (cons m) c else c))
  | Destroy m k =>
      guard (private c && has m c &&
             match m with RCond q => nobody_sleeps q c | _ => true end)
        (cont t o (k a) (failed t a) (if a =? 0 then with_alive (remove_rsrc m) c else c))
  | RefStore z k => guard (private c) (cont t o k [] (with_refs (fun _ => z) c))
  | RefInc k =>
      guard (has RCore c && (0 <? refs c))
        (if refs c <? MAX_REFS
         then cont t o k [] (with_shared true (with_refs (fun z => z + 1) c))
         else Blocked)
  | RefDec k =>
      guard (has RCore c && shared c && (0 <? refs c))
        (cont t o (k (refs c - 1)) []
           (with_shared (negb (refs c =? 1)) (with_refs (fun z => z - 1) c)))
  | ReadImm k => guard (has RCore c) (cont t o (k (imm M (core c))) [] c)
  | Access f k =>
      guard (may_access t c)
        (match f (core c) with
         | Some s => cont t o (k (core c)) [] (with_core (fun _ => s) c)
         | None => Fault
         end)
  | Hook f k => cont t o (k (hooks c)) [] (with_hooks f c)
  | Lock k =>
      guard (has RCore c && has RMutex c && negb (bool_decide (holder c = Held t)))
        (if a =? 0
         then if bool_decide (holder c = Unlocked)
              then cont t o (k 0) [] (with_holder (Held t) c) else Blocked
         else cont t o (k a) (failed t a) c)
  | Unlock k =>
      guard (has RCore c && has RMutex c && bool_decide (holder c = Held t))
        (cont t o (k a) (failed t a) (with_holder (if a =? 0 then Unlocked else Stuck) c))
  | Signal q k =>
      guard (has RCore c && has (RCond q) c)
        (if negb (a =? 0) then cont t o (k a) (failed t a) c
         else if nobody_sleeps q c then cont t o (k a) [] c
         else match threads c !! v with
              | Some (o', Sleep q' k') =>
                  if bool_decide (q' = q)
                  then cont t o (k a) [] (put v o' (Wake q 0 k') c) else Blocked
              | _ => Blocked
              end)
  | Broadcast q k =>
      guard (has RCore c && has (RCond q) c)
        (if negb (a =? 0) then cont t o (k a) (failed t a) c
         else cont t o (k a) [] (with_threads (fmap (wake_all q)) c))
  | WaitWhile g q onerr k =>
      guard (may_access t c && has RMutex c && has (RCond q) c &&
             bool_decide (holder c = Held t))
        (if g (core c)
         then if a =? 0
              then Go (put t o (Sleep q (fun st => if st =? 0 then WaitWhile g q onerr k
                                                   else onerr st))
                         (with_holder Unlocked c), [])
              else cont t o (onerr a) (failed t a) c
         else cont t o k [] c)
  | CondWait q k =>
      guard (has RCore c && has RMutex c && has (RCond q) c &&
             bool_decide (holder c = Held t))
        (if a =? 0 then Go (put t o (Sleep q k) (with_holder Unlocked c), [])
         else cont t o (k a) (failed t a) c)
  | Wrap d k => guard (has RCore c) (cont t o k [] (with_shared true (with_idle (cons d) c)))
  | Spawn o' k =>
      guard (has RCore c)
        (if a =? 0
         then if bool_decide (v ∈ dom (threads c)) then Blocked
              else Go (put v o' (Run (body M o')) (put t o (Run (k 0)) c), [LInv v o'])
         else cont t o (k a) (failed t a) c)
  | OsCall k => cont t o (k a) (failed t a) c
  | Emit e k => cont t o k [LEv t e] c
  | Jump l => cont t o (block M l) [] c
  end.

Definition step (x : choice S) c : outcome (config S * list (label S)) :=
  match x with
  | CInvoke t o =>
      if negb (client M o) || bool_decide (t ∈ dom (threads c)) then Blocked
      else
        match on_handle M o with
        | None => cont t o (body M o) [LInv t o] c
        | Some d =>
            match take_one d (idle c) with
            | Some l => cont t o (body M o) [LInv t o] (with_idle (fun _ => l) c)
            | None => Blocked
            end
        end
  | CStep t a v =>
      match threads c !! t with
      | Some (o, Run p) => step_run t a v o p c
      | Some (o, Wake q st k) =>
          if bool_decide (holder c = Unlocked)
          then cont t o (k st) [] (with_holder (Held t) c) else Blocked
      | _ => Blocked
      end
  | CWake t a =>
      match threads c !! t with
      | Some (o, Sleep q k) => Go (put t o (Wake q a k) c, failed t a)
      | _ => Blocked
      end
  end.

(** Running a schedule, collecting the trace. *)
Fixpoint run (xs : list (choice S)) (s : config S * list (label S))
    : outcome (config S * list (label S)) :=
  match xs with
  | [] => Go s
  | x :: xs =>
      match step x s.1 with
      | Go (c', ls) => run xs (c', s.2 ++ ls)
      | Fault => Fault
      | Blocked => Blocked
      end
  end.

(** The start: one thread runs the constructor, no core exists yet. *)
Definition start (o : sO S) (h : sH S) : config S :=
  Config (zeroed M) h 0 [] false Unlocked {[ 0%nat := (o, Run (body M o)) ]} [].

(** [reachable o h c tr]: some schedule leads from the call of the
    constructor [o] to [c], showing the trace [tr]. *)
Definition reachable (o : sO S) (h : sH S) (c : config S) (tr : list (label S)) : Prop :=
  exists xs, run xs (start o h, []) = Go (c, tr).

Lemma extend_run xs x s s1 c ls :
  run xs s = Go s1 -> step x s1.1 = Go (c, ls) -> run (xs ++ [x]) s = Go (c, s1.2 ++ ls).
Proof.
  revert s. induction xs as [|y xs IH]; intros s; simpl.
  - intros [= ->] Hx. by rewrite Hx.
  - destruct (step y s.1) as [[c1 ls1]| |]; [|done..]. apply IH.
Qed.

Lemma extend_reachable o h x c tr c' ls :
  reachable o h c tr -> step x c = Go (c', ls) -> reachable o h c' (tr ++ ls).
Proof. intros [xs H] Hx. exists (xs ++ [x]). by apply (extend_run _ _ _ _ _ _ H). Qed.

Local Ltac step_threads :=
  simpl; rewrite ?dom_insert, ?dom_delete, ?dom_fmap, ?elem_of_union, ?elem_of_difference, ?elem_of_singleton;
  intros; destruct_or?; destruct_and?; subst;
  repeat match goal with H : _ !! _ = Some _ |- _ => apply elem_of_dom_2 in H end;
  auto; right; eexists; by constructor.

Local Ltac step_actor :=
  simpl; rewrite ?elem_of_cons, ?elem_of_nil; intros; destruct_or?; subst; simpl; try done; auto; right;
  simpl; rewrite ?dom_insert; set_solver.

(** A thread is in a call that it was in before, or that the step starts. *)
Lemma step_threads x c c' ls t :
  step x c = Go (c', ls) -> t ∈ dom (threads c') -> t ∈ dom (threads c) \/ exists o, LInv t o ∈ ls.
Proof.
  destruct x as [t' o|t' a v|t' a]; simpl.
  - repeat case_match; intros [= <- <-]; step_threads.
  - destruct (threads c !! t') as [[o ts]|] eqn:Ht; [|done]. apply elem_of_dom_2 in Ht.
    destruct ts as [p|q k|q st k]; [|done|].
    + intros Hs. unfold step_run, cont, guard, put in Hs. destruct p; repeat case_match; simplify_eq/=; step_threads.
    + case_bool_decide; intros [= <- <-]; step_threads.
  - destruct (threads c !! t') as [[o ts]|] eqn:Ht; [|done]. apply elem_of_dom_2 in Ht.
    destruct ts; intros [= <- <-]; step_threads.
Qed.

(** The thread a label is about. *)
Definition actor (l : label S) : tid :=
  match l with LInv t _ | LRes t _ _ | LEv t _ | LFail t _ => t end.

(** A step is about a thread that is in a call before or after it. *)
Lemma step_actor x c c' ls l :
  step x c = Go (c', ls) -> l ∈ ls -> actor l ∈ dom (threads c) \/ actor l ∈ dom (threads c').
Proof.
  destruct x as [t' o|t' a v|t' a]; simpl.
  - repeat case_match; intros [= <- <-]; step_actor.
  - destruct (threads c !! t') as [[o ts]|] eqn:Ht; [|done]. apply elem_of_dom_2 in Ht.
    destruct ts as [p|q k|q st k]; [|done|].
    + intros Hs. unfold step_run, cont, guard, put, failed in Hs. destruct p; repeat case_match; simplify_eq/=; step_actor.
    + case_bool_decide; intros [= <- <-]; step_actor.
  - destruct (threads c !! t') as [[o ts]|] eqn:Ht; [|done]. apply elem_of_dom_2 in Ht.
    unfold failed. destruct ts; repeat case_match; intros [= <- <-]; step_actor.
Qed.

Definition safe (o : sO S) (h : sH S) : Prop :=
  forall xs, run xs (start o h, []) <> Fault.
End step.

(** ** Reading a trace *)

Section trace.
Context {S : sig}.

(** The first failure thread [t]'s current operation has met. *)
Definition fail_step (t : tid) (acc : option failure) (l : label S) : option failure :=
  match l with
  | LInv t' _ => if decide (t' = t) then None else acc
  | LFail t' f => if decide (t' = t) then match acc with Some _ => acc | None => Some f end
                  else acc
  | _ => acc
  end.

Definition first_failure (tr : list (label S)) (t : tid) : option failure :=
  fold_left (fail_step t) tr None.

(** No OS call of the whole execution failed. *)
Definition is_fail (l : label S) : bool := match l with LFail _ _ => true | _ => false end.
Definition clean (tr : list (label S)) : bool := negb (existsb is_fail tr).

(** The calls and returns of operations. *)
Definition visible (l : label S) : bool :=
  match l with LInv _ _ | LRes _ _ _ => true | _ => false end.
End trace.

(** ** Concrete executions *)

Section scenario.
Context {S : sig} (M : code S) (o : sO S) (h : sH S).

(** Whether a schedule can be played to its end, and where it leads. *)
Definition plays (xs : list (choice S)) : bool :=
  match run M xs (start M o h, []) with Go _ => true | _ => false end.

Definition after (xs : list (choice S)) : config S * list (label S) :=
  match run M xs (start M o h, []) with Go s => s | _ => (start M o h, []) end.

Lemma after_reachable xs : plays xs = true -> reachable M o h (after xs).1 (after xs).2.
Proof. unfold plays, after. intros H. exists xs. by destruct (run M xs _) as [[c tr]| |]. Qed.
End scenario.

(** Whether a thread sleeps on a condition variable. *)
Definition sleeps_at {S : sig} (c : config S) (t : tid) (q : sC S) : bool :=
  match threads c !! t with Some x => sleeps_on q x | None => false end.

Lemma sleeps_at_spec {S : sig} (c : config S) t q :
  sleeps_at c t q = true -> exists o k, threads c !! t = Some (o, Sleep q k).
Proof.
  unfold sleeps_at, sleeps_on. destruct (threads c !! t) as [[o [p|q' k|q' st k]]|]; try done.
  simpl. intros ->%bool_decide_eq_true. eauto.
Qed.

Lemma sleeps_in_spec {S : sig} (c : config S) t q o :
  sleeps_at c t q = true -> fst <$> threads c !! t = Some o ->
  exists k, threads c !! t = Some (o, Sleep q k).
Proof.
  intros (o' & k & H)%sleeps_at_spec Ho. rewrite H in Ho. exists k. by simplify_eq/=.
Qed.

(** [n] steps of thread [t], every OS call succeeding. *)
Definition steps {S : sig} (t : tid) (n : nat) : list (choice S) := replicate n (CStep t 0 0%nat).

(** Discharge reachability of the end of a concrete schedule. *)
Ltac scenario := apply after_reachable; vm_compute; reflexivity.
