(* ===== verification/Logic.v ===== *)
(** Logic: a program logic for the machine.

    [wp] is a weakest precondition, computed by recursion on the program, that
    treats the mutex with a lock invariant: what holds of the protected fields
    whenever nobody holds it.  A thread's assertion also says how many
    references to the core it owns, how much it contributes to the counters
    stored in the core (senders, live workers, ...), which result it has
    committed to and which failure it has met.  The soundness theorem at the
    end of the file turns the verification conditions of a component into
    facts about every execution of every number of threads. *)
From stdpp Require Import base gmap list.
From Stdlib Require Import ZArith Lia.
From S2P Require Import Prelude Machine.

(** ** Weights: contributions to the counters of the core *)

Abbreviation wt := (Z * Z)%type.
Definition w0 : wt := (0, 0).
Definition wadd (a b : wt) : wt := (a.1 + b.1, a.2 + b.2).
Definition wsub (a b : wt) : wt := (a.1 - b.1, a.2 - b.2).
Definition wle (a b : wt) : Prop := a.1 <= b.1 /\ a.2 <= b.2.

(** ** Assertions of a thread *)

Inductive view (S : sig) : Type :=
| Out                                  (** owns references, does not hold the mutex *)
| In (s0 s : sP S) (cr : sC S -> option Z)
    (** holds the mutex; [s0] are the fields when it acquired it, [s] now.
        [cr q] counts the wake-ups it has sent on [q] (one less if it was
        itself woken on [q]); [None] after a broadcast *)
| Excl (s : sP S) (rs : list (rsrc (sC S))) (c : Z) (born : bool)
    (** sole access: [s], the live resources and the reference count; [born]
        when the core has already been shared once *)
| Gone.                                (** owns nothing *)
Arguments Out {S}.
Arguments In {S} s0 s cr.
Arguments Excl {S} s rs c born.
Arguments Gone {S}.

Definition set_cr {C} `{EqDecision C} (cr : C -> option Z) (q : C) (z : option Z) : C -> option Z :=
  fun q' => if decide (q' = q) then z else cr q'.

Definition cr0 {C} : C -> option Z := fun _ => Some 0.

(** The first failure wins, as in [record_error]. *)
Definition note (e : option failure) (f : failure) : option failure :=
  match e with Some _ => e | None => Some f end.
Definition note_st (e : option failure) (st : Z) : option failure :=
  if st =? 0 then e else note e (OsFail st).

(** ** The specification of a component *)

Record spec (S : sig) := Spec {
  abst : Type;                                    (** states of the atomic object *)
  inv : sP S -> Prop;                             (** the lock invariant *)
  abs : sP S -> abst;                             (** abstraction function *)
  cnt : sP S -> wt;
    (** counters kept in the fields: the first is the sum of all contributions,
        the second at least their sum *)
  kw : sD S -> wt;                                (** what a handle contributes to them *)
  sw : sO S -> wt;                                (** what a spawned thread contributes *)
  spawnable : sO S -> bool;
  full : list (rsrc (sC S));                      (** the resources of a shared core *)
  slack : sC S -> sP S -> option Z;
    (** how many of the threads waiting on a condition variable could go on;
        [None] if nobody may be waiting *)
  atomic : sO S -> option abst -> sR S -> option abst -> Prop;
    (** the atomic transition of an operation with its result *)
  internal : sO S -> option abst -> sR S -> option abst -> Prop;
    (** transitions of the object that are not the operation's result *)
  errok : sO S -> sR S -> option failure -> Prop; (** error reporting *)
  abortok : sO S -> Prop;                         (** misuse that aborts *)
  linv : sO S -> sL S -> view S -> Z -> wt -> option (sR S) -> option failure -> Prop;
    (** loop invariants *)
}.
Arguments abst {S} _.
Arguments inv {S} _ _.
Arguments abs {S} _ _.
Arguments cnt {S} _ _.
Arguments kw {S} _ _.
Arguments sw {S} _ _.
Arguments spawnable {S} _ _.
Arguments full {S} _.
Arguments slack {S} _ _ _.
Arguments atomic {S} _ _ _ _ _.
Arguments internal {S} _ _ _ _ _.
Arguments errok {S} _ _ _ _.
Arguments abortok {S} _ _.
Arguments linv {S} _ _ _ _ _ _ _ _.

(** What a thread learns from the counters when it acquires the mutex: its own
    contribution is counted, and the first counter, to which no reference
    contributes more than one, is below the bound of [int32_t]. *)
Definition counted {S} (Σ : spec S) (w : wt) (s : sP S) : Prop :=
  wle w (cnt Σ s) /\ (cnt Σ s).1 <= MAX_REFS.

Section wp.
Context {S : sig} (M : code S) (Σ : spec S).
Implicit Types (v : view S) (l : option (sR S)) (e : option failure) (w : wt).

(** From abstract state [a] to [a'], either silently or by an internal
    transition, or by committing to the result of the operation. *)
Definition commit (o : sO S) (a a' : option (abst Σ)) l l' : Prop :=
  (l' = l /\ (a' = a \/ exists r, internal Σ o a r a')) \/
  (l = None /\ exists r, l' = Some r /\ atomic Σ o a r a').

(** Waiters left asleep when the mutex is released must be justified. *)
Definition slack_ok (s0 s : sP S) (cr : sC S -> option Z) (q : sC S) : Prop :=
  match cr q, slack Σ q s0 with
  | Some z, Some z0 => exists z1, slack Σ q s = Some z1 /\ z1 <= Z.max 0 (z0 + z)
  | _, _ => True
  end.

Definition no_lost (s0 s : sP S) (cr : sC S -> option Z) e : Prop :=
  e = None -> forall q, slack_ok s0 s cr q.

(** Going to sleep on [q]. *)
Definition may_sleep (q : sC S) (s0 s : sP S) (cr : sC S -> option Z) e : Prop :=
  inv Σ s /\ abs Σ s = abs Σ s0 /\ cnt Σ s = cnt Σ s0 /\
  (e = None ->
    (exists z, slack Σ q s = Some z /\ z <= 0) /\
    forall q', q' <> q -> slack_ok s0 s cr q').

Definition woken (q : sC S) : sC S -> option Z := set_cr cr0 q (Some (-1)).

Definition back (o : sO S) : Z :=
  match on_handle M o with Some _ => if consumes M o then 0 else 1 | None => 0 end.
Definition backw (o : sO S) : wt :=
  match on_handle M o with Some d => if consumes M o then w0 else kw Σ d | None => w0 end.

Definition lin_ok (o : sO S) (r : sR S) l : Prop :=
  l = Some r \/ (l = None /\ forall a, atomic Σ o a r a).

Definition has_core v : Prop :=
  match v with
  | Out | In _ _ _ => True
  | Excl _ rs _ _ => RCore ∈ rs
  | Gone => False
  end.

Fixpoint wp (o : sO S) (p : prog S) v (n : Z) w l e {struct p} : Prop :=
  match p with
  | Ret r =>
      match v with Out | Gone => True | Excl _ rs _ _ => rs = [] | In _ _ _ => False end /\
      n = back o /\ w = backw o /\ lin_ok o r l /\ errok Σ o r e
  | Abort => e <> None \/ abortok Σ o
  | Alloc m k =>
      match v with
      | Excl s rs c b =>
          (m ∉ rs) /\
          wp o (k true) (Excl (if bool_decide (m = RCore) then zeroed M else s) (m :: rs) c b)
             n w l e /\
          wp o (k false) v n w l (note e OutOfMemory)
      | _ => False
      end
  | Free m k =>
      match v with
      | Excl s rs c b => m ∈ rs /\ (m = RCore -> remove_rsrc m rs = []) /\
                         wp o k (Excl s (remove_rsrc m rs) c b) n w l e
      | _ => False
      end
  | Init m k =>
      match v with
      | Excl s rs c b => (RCore ∈ rs) /\ (m ∉ rs) /\
          wp o (k 0) (Excl s (m :: rs) c b) n w l e /\
          forall st, st <> 0 -> wp o (k st) v n w l (note e (OsFail st))
      | _ => False
      end
  | Destroy m k =>
      match v with
      | Excl s rs c b => RCore ∈ rs /\ m ∈ rs /\
          wp o (k 0) (Excl s (remove_rsrc m rs) c b) n w l e /\
          forall st, st <> 0 -> wp o (k st) v n w l (note e (OsFail st))
      | _ => False
      end
  | RefStore z k =>
      match v with
      | Excl s rs c b => RCore ∈ rs /\ wp o k (Excl s rs z b) n w l e
      | _ => False
      end
  | RefInc k =>
      match v with
      | Out | In _ _ _ => wp o k v (n + 1) w l e
      | Excl s rs c b =>
          b = false /\ c = 1 /\ rs = full Σ /\ inv Σ s /\ wle w0 (cnt Σ s) /\ (cnt Σ s).1 <= 2 /\
          exists l', commit o None (Some (abs Σ s)) l l' /\ wp o k Out 2 (cnt Σ s) l' e
      | Gone => False
      end
  | RefDec k =>
      match v with
      | Out =>
          if n =? 1
          then w.1 = 0 /\
               (forall r, 0 < r -> wp o (k r) Gone 0 w0 l e) /\
               (forall s, inv Σ s -> (cnt Σ s).1 = 0 -> wp o (k 0) (Excl s (full Σ) 0 true) 0 w0 l e)
          else w.1 <= n - 1 /\ forall r, 0 < r -> wp o (k r) Out (n - 1) w l e
      | _ => False
      end
  | ReadImm k =>
      match v with
      | Out => forall s, inv Σ s -> wp o (k (imm M s)) v n w l e
      | In _ s _ => wp o (k (imm M s)) v n w l e
      | Excl s rs _ _ => RCore ∈ rs /\ wp o (k (imm M s)) v n w l e
      | Gone => False
      end
  | Access f k =>
      match v with
      | In s0 s cr =>
          match f s with
          | Some s' => imm M s' = imm M s /\ wp o (k s) (In s0 s' cr) n w l e
          | None => False
          end
      | Excl s rs c b =>
          RCore ∈ rs /\
          match f s with Some s' => wp o (k s) (Excl s' rs c b) n w l e | None => False end
      | _ => False
      end
  | Hook f k => forall h, wp o (k h) v n w l e
  | Lock k =>
      match v with
      | Out =>
          (forall st, st <> 0 -> wp o (k st) Out n w l (note e (OsFail st))) /\
          (forall s, inv Σ s -> counted Σ w s -> wp o (k 0) (In s s cr0) n w l e)
      | _ => False
      end
  | Unlock k =>
      match v with
      | In s0 s cr =>
          let w' := wsub (wadd w (cnt Σ s)) (cnt Σ s0) in
          inv Σ s /\ wle w0 w' /\ w'.1 <= n /\ no_lost s0 s cr e /\
          forall st, exists l', commit o (Some (abs Σ s0)) (Some (abs Σ s)) l l' /\
                                wp o (k st) Out n w' l' (note_st e st)
      | _ => False
      end
  | Signal q k =>
      match v with
      | Out => wp o (k 0) Out n w l e /\
               forall st, st <> 0 -> wp o (k st) v n w l (note e (OsFail st))
      | In s0 s cr =>
          wp o (k 0) (In s0 s (set_cr cr q (Z.add 1 <$> cr q))) n w l e /\
          forall st, st <> 0 -> wp o (k st) v n w l (note e (OsFail st))
      | _ => False
      end
  | Broadcast q k =>
      match v with
      | Out => wp o (k 0) Out n w l e /\
               forall st, st <> 0 -> wp o (k st) v n w l (note e (OsFail st))
      | In s0 s cr =>
          wp o (k 0) (In s0 s (set_cr cr q None)) n w l e /\
          forall st, st <> 0 -> wp o (k st) v n w l (note e (OsFail st))
      | _ => False
      end
  | WaitWhile g q onerr k =>
      match v with
      | In s0 s cr =>
          if g s
          then
            may_sleep q s0 s cr e /\
            (forall st, st <> 0 -> wp o (onerr st) (In s s cr) n w l (note e (OsFail st))) /\
            (forall s', inv Σ s' -> counted Σ w s' ->
               if g s' then may_sleep q s' s' (woken q) e
               else wp o k (In s' s' (woken q)) n w l e) /\
            (forall s' st, st <> 0 -> inv Σ s' -> counted Σ w s' ->
               wp o (onerr st) (In s' s' (woken q)) n w l (note e (OsFail st)))
          else wp o k v n w l e
      | _ => False
      end
  | CondWait q k =>
      match v with
      | In s0 s cr =>
          may_sleep q s0 s cr e /\
          (forall st, st <> 0 -> wp o (k st) (In s s cr) n w l (note e (OsFail st))) /\
          (forall s' st, inv Σ s' -> counted Σ w s' ->
             wp o (k st) (In s' s' (woken q)) n w l (note_st e st))
      | _ => False
      end
  | Wrap d k =>
      match v with
      | Out => if n =? 1 then w = kw Σ d /\ wp o k Gone 0 w0 l e
               else wle (kw Σ d) w /\ w.1 - (kw Σ d).1 <= n - 1 /\
                    wp o k Out (n - 1) (wsub w (kw Σ d)) l e
      | Excl s rs c b =>
          b = false /\ c = 1 /\ rs = full Σ /\ inv Σ s /\ cnt Σ s = kw Σ d /\
          exists l', commit o None (Some (abs Σ s)) l l' /\ wp o k Gone 0 w0 l' e
      | _ => False
      end
  | Spawn o' k =>
      match v with
      | Out => 2 <= n /\ wle (sw Σ o') w /\ w.1 - (sw Σ o').1 <= n - 1 /\ spawnable Σ o' = true /\
               wp o (k 0) Out (n - 1) (wsub w (sw Σ o')) l e /\
               forall st, st <> 0 -> wp o (k st) Out n w l (note e (OsFail st))
      | _ => False
      end
  | OsCall k => wp o (k 0) v n w l e /\
                forall st, st <> 0 -> wp o (k st) v n w l (note e (OsFail st))
  | Emit _ k => wp o k v n w l e
  | Jump lb => linv Σ o lb v n w l e
  end.
End wp.
