(* ===== verification/Soundness.v ===== *)
(** Soundness of the logic: every execution of a verified component is free of
    undefined behaviour, refines its atomic specification, reports the first
    failure, loses no wake-up and releases what it allocated. *)
From stdpp Require Import base gmap list.
From Stdlib Require Import ZArith Lia.
From S2P Require Import Prelude Machine Logic.

(** ** The atomic object *)

(** One entry of the linearisation: thread, operation, result; [true] when the
    entry is the operation's own transition, [false] for an internal one. *)
Record entry (S : sig) := Entry { en_tid : tid; en_op : sO S; en_res : sR S; en_own : bool }.
Arguments Entry {S} _ _ _ _.
Arguments en_tid {S} _.
Arguments en_op {S} _.
Arguments en_res {S} _.
Arguments en_own {S} _.

Section atomic.
Context {S : sig} (Σ : spec S).

(** Pending operations, with the result once it is decided. *)
Abbreviation pending := (gmap tid (sO S * option (sR S))).

(** Executions of the atomic object: an operation takes effect in one
    transition between its call and its return. *)
Inductive aexec (o0 : sO S) :
    list (label S) -> list (entry S) -> option (abst Σ) -> pending -> Prop :=
| ax_start : aexec o0 [] [] None {[ 0%nat := (o0, None) ]}
| ax_inv tr log a P t o :
    aexec o0 tr log a P -> P !! t = None ->
    aexec o0 (tr ++ [LInv t o]) log a (<[t := (o, None)]> P)
| ax_lin tr log a a' P t o r :
    aexec o0 tr log a P -> P !! t = Some (o, None) -> atomic Σ o a r a' ->
    aexec o0 tr (log ++ [Entry t o r true]) a' (<[t := (o, Some r)]> P)
| ax_int tr log a a' P t o l r :
    aexec o0 tr log a P -> P !! t = Some (o, l) -> internal Σ o a r a' ->
    aexec o0 tr (log ++ [Entry t o r false]) a' P
| ax_ret tr log a P t o r :
    aexec o0 tr log a P -> P !! t = Some (o, Some r) ->
    aexec o0 (tr ++ [LRes t o r]) log a (delete t P).

(** A decided result, and hence a returned one, has its entry. *)
Lemma aexec_decided o0 tr log a P t o r :
  aexec o0 tr log a P -> P !! t = Some (o, Some r) -> Entry t o r true ∈ log.
Proof.
  intros H. revert t o r.
  induction H as [|tr log a P t o H IH HP|tr log a a' P t o r H IH HP Ha|
                  tr log a a' P t o l r H IH HP Hi|tr log a P t o r H IH HP]; intros t' o' r'.
  - by intros [_ ?]%lookup_singleton_Some.
  - rewrite lookup_insert_Some. intros [[_ ?]|[_ ?]]; [done|eauto].
  - rewrite lookup_insert_Some, elem_of_app, list_elem_of_singleton.
    intros [[<- [= <- <-]]|[_ ?]]; [by right|left; eauto].
  - rewrite elem_of_app. left. eauto.
  - intros [_ ?]%lookup_delete_Some. eauto.
Qed.

Lemma aexec_returned o0 tr log a P t o r :
  aexec o0 tr log a P -> LRes t o r ∈ tr -> Entry t o r true ∈ log.
Proof.
  induction 1 as [|tr log a P t' o' H IH HP|tr log a a' P t' o' r' H IH HP Ha|
                  tr log a a' P t' o' l r' H IH HP Hi|tr log a P t' o' r' H IH HP];
    rewrite ?elem_of_app, ?list_elem_of_singleton.
  - by intros ?%elem_of_nil.
  - intros [?|?]; [eauto|done].
  - intros ?. left. eauto.
  - intros ?. left. eauto.
  - intros [?|[= -> -> ->]]; [eauto|]. by eapply aexec_decided.
Qed.
End atomic.

(** ** Verification conditions of a component *)

Record verified {S} (M : code S) (Σ : spec S) (o0 : sO S) : Prop := Verified {
  v_kw : forall d, wle w0 (kw Σ d) /\ (kw Σ d).1 <= 1;
  v_handle : forall o d, client M o = true -> on_handle M o = Some d ->
    wp M Σ o (body M o) Out 1 (kw Σ d) None None;
  v_static : forall o, client M o = true -> on_handle M o = None ->
    wp M Σ o (body M o) Gone 0 w0 None None;
  v_spawn : forall o, spawnable Σ o = true ->
    wle w0 (sw Σ o) /\ (sw Σ o).1 <= 1 /\ wp M Σ o (body M o) Out 1 (sw Σ o) None None;
  v_loop : forall o lb v n w l e,
    linv Σ o lb v n w l e -> wp M Σ o (block M lb) v n w l e;
  v_ctor : forall s, wp M Σ o0 (body M o0) (Excl s [] 0 false) 0 w0 None None;
  v_full : RCore ∈ full Σ /\ RMutex ∈ full Σ /\ forall q, RCond q ∈ full Σ;
}.

(** ** The invariant of executions *)

Record ghost (S : sig) := Ghost {
  gv : view S; gn : Z; gw : wt; gl : option (sR S); ge : option failure }.
Arguments Ghost {S} _ _ _ _ _.
Arguments gv {S} _.
Arguments gn {S} _.
Arguments gw {S} _.
Arguments gl {S} _.
Arguments ge {S} _.

Section invariant.
Context {S : sig} (M : code S) (Σ : spec S) (o0 : sO S).
Implicit Types (c : config S) (g : ghost S) (G : gmap tid (ghost S)).

Abbreviation thr := (gmap tid (sO S * tstate S)).

Definition wpg o p g : Prop := wp M Σ o p (gv g) (gn g) (gw g) (gl g) (ge g).

Definition tok (x : sO S * tstate S) g : Prop :=
  match x.2 with
  | Run p => wpg x.1 p g
  | Sleep q k =>
      gv g = Out /\
      forall s st, inv Σ s -> counted Σ (gw g) s ->
        wp M Σ x.1 (k st) (In s s (woken q)) (gn g) (gw g) (gl g) (note_st (ge g) st)
  | Wake q st k =>
      gv g = Out /\
      forall s, inv Σ s -> counted Σ (gw g) s ->
        wp M Σ x.1 (k st) (In s s (woken q)) (gn g) (gw g) (gl g) (ge g)
  end.

Definition gwf g : Prop :=
  wle w0 (gw g) /\
  match gv g with
  | Out | In _ _ _ => 1 <= gn g /\ (gw g).1 <= gn g
  | Excl _ _ _ _ | Gone => gn g = 0 /\ gw g = w0
  end.

Definition wakes_on (q : sC S) (x : sO S * tstate S) : bool :=
  match x.2 with Wake q' _ _ => bool_decide (q' = q) | _ => false end.

Definition nsleep (q : sC S) (T : thr) : Z := msum (fun x => b2z (sleeps_on q x)) T.
Definition nwake (q : sC S) (T : thr) : Z := msum (fun x => b2z (wakes_on q x)) T.

(** Every sleeper that could go on has a wake-up under way. *)
Definition wake_ok (s0 : sP S) (cr : sC S -> option Z) (T : thr) : Prop :=
  forall q, 0 < nsleep q T ->
    exists z z0, cr q = Some z /\ slack Σ q s0 = Some z0 /\ z0 + z <= nwake q T.

Definition wsum1 G : Z := msum (fun g => (gw g).1) G.
Definition wsum2 G : Z := msum (fun g => (gw g).2) G.

Record shared_phase c G (a : option (abst Σ)) (cl : bool) (s0 : sP S)
    (cr : sC S -> option Z) : Prop := SharedPhase {
  sh_shared : shared c = true;
  sh_alive : alive c = full Σ;
  sh_refs : refs c = Z.of_nat (length (idle c)) + msum gn G;
  sh_pos : 0 < refs c;
  sh_max : refs c <= MAX_REFS;
  sh_noexcl : forall t g s rs z b, G !! t = Some g -> gv g <> Excl s rs z b;
  sh_inv : inv Σ s0;
  sh_imm : imm M s0 = imm M (core c);
  sh_abs : a = Some (abs Σ s0);
  sh_cnt1 : (cnt Σ s0).1 = wsum1 G + lsum (fun d => (kw Σ d).1) (idle c);
  sh_cnt2 : wsum2 G + lsum (fun d => (kw Σ d).2) (idle c) <= (cnt Σ s0).2;
  sh_lock : match holder c with
            | Held t => exists g, G !! t = Some g /\ gv g = In s0 (core c) cr
            | _ => core c = s0 /\ forall q, cr q = Some 0
            end;
  sh_wake : cl = true -> wake_ok s0 cr (threads c);
}.

Record excl_phase c G (a : option (abst Σ)) (t : tid) (b : bool) : Prop := ExclPhase {
  ex_shared : shared c = false;
  ex_idle : idle c = [];
  ex_holder : forall t', holder c <> Held t';
  ex_self : exists g, G !! t = Some g /\ gv g = Excl (core c) (alive c) (refs c) b;
  ex_others : forall t' g, t' <> t -> G !! t' = Some g -> gv g = Gone;
  ex_born : b = false -> a = None;
}.

Record end_phase c G : Prop := EndPhase {
  en_shared : shared c = false;
  en_idle : idle c = [];
  en_alive : alive c = [];
  en_holder : forall t', holder c <> Held t';
  en_all : forall t g, G !! t = Some g -> gv g = Gone;
}.

Definition phase c G a cl : Prop :=
  (exists s0 cr, shared_phase c G a cl s0 cr) \/
  (exists t b, excl_phase c G a t b) \/
  end_phase c G.

(** The pending operations of the atomic object. *)
Definition pend (T : thr) G : gmap tid (sO S * option (sR S)) :=
  merge (fun xo go => match xo, go with
                    | Some x, Some g => Some (x.1, gl g)
                    | _, _ => None
                    end) T G.

Definition errors_ok (tr : list (label S)) : Prop :=
  forall tr1 t o r tr2, tr = tr1 ++ LRes t o r :: tr2 -> errok Σ o r (first_failure tr1 t).

(** What concerns the threads, given who holds the mutex. *)
Record cloc (T : thr) (h : lockst) (tr : list (label S)) G (a : option (abst Σ))
    (log : list (entry S)) : Prop := CLoc {
  cl_tok : forall t, option_Forall2 tok (T !! t) (G !! t);
  cl_wf : forall t g, G !! t = Some g -> gwf g;
  cl_in : forall t g s0 s cr, G !! t = Some g -> gv g = In s0 s cr -> h = Held t;
  cl_fail : forall t g, G !! t = Some g -> ge g = first_failure tr t;
  cl_exec : aexec Σ o0 (filter (fun l => visible l = true) tr) log a (pend T G);
  cl_err : errors_ok tr;
}.

Record cinv c (tr : list (label S)) G (a : option (abst Σ)) (log : list (entry S)) : Prop := CInv {
  ci_loc : cloc (threads c) (holder c) tr G a log;
  ci_phase : phase c G a (clean tr);
}.

(** *** Traces *)

Lemma first_failure_app (tr ls : list (label S)) t :
  first_failure (tr ++ ls) t = fold_left (fail_step t) ls (first_failure tr t).
Proof. apply fold_left_app. Qed.

Lemma clean_app (tr ls : list (label S)) : clean (tr ++ ls) = clean tr && clean ls.
Proof. unfold clean. rewrite existsb_app. apply negb_orb. Qed.

(** Labels of an operation's own steps: neither calls nor returns, and all
    of thread [t]. *)
Definition own_labels (t : tid) (ls : list (label S)) : Prop :=
  Forall (fun l => match l with LFail t' _ | LEv t' _ => t' = t | _ => False end) ls.

Lemma own_nil t : own_labels t [].
Proof. constructor. Qed.

Lemma own_visible t ls : own_labels t ls -> filter (fun l => visible l = true) ls = [].
Proof.
  induction 1 as [|l ls Hl _ IH]; [done|]. rewrite filter_cons_False; [done|].
  by destruct l.
Qed.

Lemma own_other t t' ls f :
  own_labels t ls -> t <> t' -> fold_left (fail_step t') ls f = f.
Proof.
  intros H Ht. revert f. induction H as [|l ls Hl _ IH]; intros f; [done|]. simpl.
  rewrite IH. destruct l; simpl in *; try done. subst. by rewrite decide_False by congruence.
Qed.

Lemma own_failed t a : own_labels t (failed t a).
Proof. unfold failed. case_match; repeat constructor. Qed.

Lemma failed_note t a f : fold_left (fail_step t) (failed (S:=S) t a) f = note_st f a.
Proof.
  unfold failed, note_st, note. case_match; [done|]. simpl. rewrite decide_True by done.
  by destruct f.
Qed.

Lemma errors_ok_app tr ls :
  errors_ok tr ->
  (forall l, l ∈ ls -> match l with LRes _ _ _ => False | _ => True end) ->
  errors_ok (tr ++ ls).
Proof.
  intros Htr Hls tr1 t o r tr2 Heq.
  apply app_eq_inv in Heq as [(k & -> & Hk)|(k & -> & Hk)].
  - destruct k as [|l k]; simpl in Hk.
    + exfalso. apply (Hls (LRes t o r)). rewrite <- Hk. by left.
    + injection Hk as <- Hk. by eapply Htr.
  - exfalso. apply (Hls (LRes t o r)). rewrite Hk. apply elem_of_app. right. by left.
Qed.

Lemma own_noret t ls l :
  own_labels t ls -> l ∈ ls -> match l with LRes _ _ _ => False | _ => True end.
Proof. intros H Hl. apply (proj1 (Forall_forall _ _) H) in Hl. by destruct l. Qed.

(** *** Pending operations *)

Lemma lookup_pend T G t :
  pend T G !! t = match T !! t, G !! t with Some x, Some g => Some (x.1, gl g) | _, _ => None end.
Proof. unfold pend. rewrite lookup_merge. by destruct (T !! t), (G !! t). Qed.

Lemma pend_insert T G t o ts g :
  pend (<[t:=(o, ts)]> T) (<[t:=g]> G) = <[t:=(o, gl g)]> (pend T G).
Proof.
  apply map_eq. intros t'. rewrite lookup_pend.
  destruct (decide (t = t')) as [<-|Ht]; [by rewrite !lookup_insert_eq|].
  by rewrite !lookup_insert_ne, lookup_pend.
Qed.

Lemma pend_delete T G t : pend (delete t T) (delete t G) = delete t (pend T G).
Proof.
  apply map_eq. intros t'. rewrite lookup_pend.
  destruct (decide (t = t')) as [<-|Ht]; [by rewrite !lookup_delete_eq|].
  by rewrite !lookup_delete_ne, lookup_pend.
Qed.

Lemma pend_same (T T' : thr) G :
  (forall t, fst <$> T' !! t = fst <$> T !! t) -> pend T' G = pend T G.
Proof.
  intros H. apply map_eq. intros t. rewrite !lookup_pend. specialize (H t).
  destruct (T' !! t) as [x'|], (T !! t) as [x|]; simpl in *; try done.
  injection H as H. by rewrite H.
Qed.

(** *** Sleeping and woken threads *)

Lemma nsleep_insert q T t x y :
  T !! t = Some x ->
  nsleep q (<[t:=y]> T) = nsleep q T - b2z (sleeps_on q x) + b2z (sleeps_on q y).
Proof. intros H. unfold nsleep. by rewrite (msum_insert _ _ _ _ _ H). Qed.

Lemma nwake_insert q T t x y :
  T !! t = Some x ->
  nwake q (<[t:=y]> T) = nwake q T - b2z (wakes_on q x) + b2z (wakes_on q y).
Proof. intros H. unfold nwake. by rewrite (msum_insert _ _ _ _ _ H). Qed.

Lemma nwake_nonneg q T : 0 <= nwake q T.
Proof. apply msum_nonneg. intros ??. destruct (_ : bool); simpl; lia. Qed.

Lemma nsleep_nonneg q T : 0 <= nsleep q T.
Proof. apply msum_nonneg. intros ??. destruct (_ : bool); simpl; lia. Qed.

Lemma nobody_sleeps_spec q c : nobody_sleeps q c = true -> nsleep q (threads c) = 0.
Proof.
  unfold nobody_sleeps. rewrite bool_decide_eq_true. intros H.
  apply msum_zero. intros t x Hx. by rewrite (H t x Hx).
Qed.

Lemma wake_ok_run s0 cr T t o p o' p' :
  T !! t = Some (o, Run p) -> wake_ok s0 cr T -> wake_ok s0 cr (<[t:=(o', Run p')]> T).
Proof.
  intros Ht H q. rewrite (nsleep_insert _ _ _ _ _ Ht), (nwake_insert _ _ _ _ _ Ht).
  simpl. rewrite !Z.sub_0_r, !Z.add_0_r. apply H.
Qed.

(** *** Waking sleepers *)

Definition waked (T T' : thr) : Prop :=
  forall t, T' !! t = T !! t \/
    exists o q k, T !! t = Some (o, Sleep q k) /\ T' !! t = Some (o, Wake q 0 k).

Lemma waked_refl (T : thr) : waked T T.
Proof. by left. Qed.

Lemma waked_one (T : thr) t o q k :
  T !! t = Some (o, Sleep q k) -> waked T (<[t := (o, Wake q 0 k)]> T).
Proof.
  intros Ht t'. destruct (decide (t = t')) as [<-|]; [|by rewrite lookup_insert_ne; [left|]].
  right. rewrite lookup_insert_eq. eauto 6.
Qed.

Lemma waked_all (T : thr) q : waked T (wake_all q <$> T).
Proof.
  intros t. rewrite lookup_fmap. destruct (T !! t) as [[o [p|q' k|q' st k]]|]; simpl; auto.
  unfold wake_all. simpl. case_bool_decide; [|by left]. right. eauto 6.
Qed.

Lemma waked_tok (T T' : thr) G :
  waked T T' -> (forall t, option_Forall2 tok (T !! t) (G !! t)) ->
  forall t, option_Forall2 tok (T' !! t) (G !! t).
Proof.
  intros Hw H t. destruct (Hw t) as [->|(o & q & k & HT & ->)]; [done|].
  specialize (H t). rewrite HT in H. inversion H as [? g Htok E1 E2|]; subst.
  unfold tok in Htok. simpl in Htok. destruct Htok as [Ho Hk]. constructor. split; [done|]. intros s Hs Hle. by apply (Hk s 0).
Qed.

Lemma waked_fst (T T' : thr) : waked T T' -> forall t, fst <$> T' !! t = fst <$> T !! t.
Proof. intros Hw t. by destruct (Hw t) as [->|(o & q & k & -> & ->)]. Qed.

Lemma waked_run (T T' : thr) t o p : waked T T' -> T !! t = Some (o, Run p) -> T' !! t = Some (o, Run p).
Proof. intros Hw Ht. destruct (Hw t) as [->|(o' & q & k & H & _)]; [done|congruence]. Qed.

(** *** The thread part of the invariant *)

Lemma loc_thread (T T1 : thr) h h' tr G ab log t o ts ts' g g' ls ab' :
  cloc T h tr G ab log -> waked T T1 ->
  T !! t = Some (o, ts) -> G !! t = Some g ->
  tok (o, ts') g' -> gwf g' ->
  (forall s0 s cr, gv g' = In s0 s cr -> h' = Held t) ->
  (forall t', t' <> t -> h = Held t' -> h' = Held t') ->
  own_labels t ls -> ge g' = fold_left (fail_step t) ls (ge g) ->
  commit Σ o ab ab' (gl g) (gl g') ->
  exists log', cloc (<[t := (o, ts')]> T1) h' (tr ++ ls) (<[t := g']> G) ab' log'.
Proof.
  intros [Htok Hwf Hin Hf Hex Herr] Hw HT HG Htok' Hwf' Hin' Hhold Hls Hge Hcom.
  assert (exists log', aexec Σ o0 (filter (fun l => visible l = true) (tr ++ ls)) log' ab'
            (pend (<[t := (o, ts')]> T1) (<[t := g']> G))) as [log' Hex'].
  { rewrite filter_app, (own_visible t ls) by done. rewrite app_nil_r, pend_insert.
    rewrite (pend_same T T1) by (by apply waked_fst).
    assert (pend T G !! t = Some (o, gl g)) as Hp by (rewrite lookup_pend, HT, HG; done).
    destruct Hcom as [[-> [->|[r Hr]]]|[Hl [r [-> Hr]]]].
    - exists log. by rewrite insert_id.
    - eexists. rewrite insert_id by done. eapply ax_int; eauto.
    - eexists. rewrite Hl in Hp. eapply ax_lin; eauto. }
  exists log'. split.
  - intros t'. destruct (decide (t = t')) as [<-|Ht].
    + rewrite !lookup_insert_eq. by constructor.
    + rewrite !lookup_insert_ne by done. by eapply waked_tok.
  - intros t' g1. rewrite lookup_insert_Some. intros [[<- <-]|[Ht Hg]]; eauto.
  - intros t' g1 s0 s cr. rewrite lookup_insert_Some. intros [[<- <-]|[Ht Hg]]; eauto.
  - intros t' g1. rewrite lookup_insert_Some, first_failure_app.
    intros [[<- <-]|[Ht Hg]]; [rewrite <- (Hf t g HG); done|].
    rewrite (own_other t t') by done. eauto.
  - done.
  - apply errors_ok_app; [done|]. intros l Hl. by eapply own_noret.
Qed.

(** A new operation starts. *)
Lemma loc_add (T : thr) h tr G ab log t o ts g :
  cloc T h tr G ab log -> T !! t = None -> tok (o, ts) g -> gwf g ->
  (forall s0 s cr, gv g <> In s0 s cr) -> gl g = None -> ge g = None ->
  cloc (<[t := (o, ts)]> T) h (tr ++ [LInv t o]) (<[t := g]> G) ab log.
Proof.
  intros [Htok Hwf Hin Hf Hex Herr] HT Htok' Hwf' Hnin Hl He. split.
  - intros t'. destruct (decide (t = t')) as [<-|Ht].
    + rewrite !lookup_insert_eq. by constructor.
    + rewrite !lookup_insert_ne by done. apply Htok.
  - intros t' g1. rewrite lookup_insert_Some. intros [[<- <-]|[Ht Hg]]; eauto.
  - intros t' g1 s0 s cr. rewrite lookup_insert_Some.
    intros [[<- <-]|[Ht Hg]]; [by intros ?%Hnin|eauto].
  - intros t' g1. rewrite lookup_insert_Some, first_failure_app. simpl.
    intros [[<- <-]|[Ht Hg]]; [by rewrite decide_True|]. rewrite decide_False by done. eauto.
  - rewrite filter_app, pend_insert, Hl. simpl. rewrite filter_cons_True by done.
    apply ax_inv; [done|]. rewrite lookup_pend, HT. done.
  - apply errors_ok_app; [done|]. intros l ->%list_elem_of_singleton. done.
Qed.

(** An operation returns. *)
Lemma loc_del (T : thr) h tr G ab log t o r g :
  cloc T h tr G ab log -> T !! t = Some (o, Run (Ret r)) -> G !! t = Some g ->
  lin_ok Σ o r (gl g) -> errok Σ o r (ge g) ->
  exists log', cloc (delete t T) h (tr ++ [LRes t o r]) (delete t G) ab log'.
Proof.
  intros [Htok Hwf Hin Hf Hex Herr] HT HG Hlin Herrok.
  assert (exists log', aexec Σ o0 (filter (fun l => visible l = true) (tr ++ [LRes t o r])) log' ab
            (pend (delete t T) (delete t G))) as [log' Hex'].
  { rewrite filter_app, pend_delete. simpl. rewrite filter_cons_True by done.
    assert (pend T G !! t = Some (o, gl g)) as Hp by (rewrite lookup_pend, HT, HG; done).
    destruct Hlin as [Hl|[Hl Ha]]; rewrite Hl in Hp.
    - exists log. by eapply ax_ret.
    - exists (log ++ [Entry t o r true]). rewrite <- (delete_insert_eq _ _ (o, Some r)).
      eapply ax_ret; [by eapply ax_lin|]. by rewrite lookup_insert_eq. }
  exists log'. split.
  - intros t'. destruct (decide (t = t')) as [<-|Ht].
    + rewrite !lookup_delete_eq. constructor.
    + rewrite !lookup_delete_ne by done. apply Htok.
  - intros t' g1 [_ ?]%lookup_delete_Some. eauto.
  - intros t' g1 s0 s cr [_ ?]%lookup_delete_Some. eauto.
  - intros t' g1 [Ht ?]%lookup_delete_Some. rewrite first_failure_app. simpl. eauto.
  - done.
  - intros tr1 t1 o1 r1 tr2 Heq.
    destruct tr2 as [|l tr2 _] using rev_ind.
    + apply app_inj_tail in Heq as [-> [= -> -> ->]]. by rewrite <- (Hf _ _ HG).
    + rewrite app_comm_cons, app_assoc in Heq. apply app_inj_tail in Heq as [-> _].
      by eapply Herr.
Qed.

Lemma clean_first_failure (tr : list (label S)) t : clean tr = true -> first_failure tr t = None.
Proof.
  induction tr as [|l tr IH] using rev_ind; [done|].
  rewrite clean_app, andb_true_iff, first_failure_app. intros [Hc Hl]. rewrite (IH Hc).
  simpl. destruct l; simpl in *; try done. by case_decide.
Qed.
End invariant.
