(* ===== verification/Preservation.v ===== *)
(** Preservation: every step of the machine keeps the invariant of
    [Soundness], and no step is undefined behaviour.  One lemma per rule. *)
From stdpp Require Import base gmap list.
From Stdlib Require Import ZArith Lia.
From S2P Require Import Prelude Machine Logic Soundness.

Section preservation.
Context {S : sig} (M : code S) (Σ : spec S) (o0 : sO S).
Context (V : verified M Σ o0).
Implicit Types (c : config S) (g : ghost S) (G : gmap tid (ghost S)).
Implicit Types (T : gmap tid (sO S * tstate S)) (ab : option (abst Σ)).

Lemma tok_ghost c tr G ab log t x :
  cinv M Σ o0 c tr G ab log -> threads c !! t = Some x ->
  exists g, G !! t = Some g /\ tok M Σ x g.
Proof.
  intros Hc Hx. pose proof (cl_tok _ _ _ _ _ _ _ _ _ (ci_loc _ _ _ _ _ _ _ _ Hc) t) as H. rewrite Hx in H.
  inversion H as [? g Hg E1 E2|]; subst. eauto.
Qed.

Lemma no_ghost c tr G ab log t :
  cinv M Σ o0 c tr G ab log -> threads c !! t = None -> G !! t = None.
Proof.
  intros Hc Hx. pose proof (cl_tok _ _ _ _ _ _ _ _ _ (ci_loc _ _ _ _ _ _ _ _ Hc) t) as H. rewrite Hx in H.
  by inversion H.
Qed.

(** *** One thread moves *)

Lemma cinv_thread c tr G ab log c' T1 t o ts ts' g g' ls ab' :
  cinv M Σ o0 c tr G ab log -> waked (threads c) T1 ->
  threads c !! t = Some (o, ts) -> G !! t = Some g ->
  threads c' = <[t := (o, ts')]> T1 ->
  tok M Σ (o, ts') g' -> gwf g' ->
  (forall s0 s cr, gv g' = In s0 s cr -> holder c' = Held t) ->
  (forall t', t' <> t -> holder c = Held t' -> holder c' = Held t') ->
  phase M Σ c' (<[t := g']> G) ab' (clean (tr ++ ls)) ->
  own_labels t ls -> ge g' = fold_left (fail_step t) ls (ge g) ->
  commit Σ o ab ab' (gl g) (gl g') ->
  exists log', cinv M Σ o0 c' (tr ++ ls) (<[t := g']> G) ab' log'.
Proof.
  intros [Hl Hp] Hw HT HG Hthr Htok' Hwf' Hin' Hhold Hph Hls Hge Hcom.
  destruct (loc_thread M Σ o0 _ T1 _ (holder c') _ _ _ _ t o ts ts' g g' ls ab' Hl Hw)
    as [log' Hl']; eauto.
  exists log'. split; [by rewrite Hthr|done].
Qed.

Lemma cinv_wf c tr G ab log t g : cinv M Σ o0 c tr G ab log -> G !! t = Some g -> gwf g.
Proof. intros [Hl _]. by apply (cl_wf _ _ _ _ _ _ _ _ _ Hl). Qed.

(** *** Phases *)

Lemma phase_shared c G ab cl t g :
  phase M Σ c G ab cl -> G !! t = Some g -> gwf g ->
  match gv g with Out | In _ _ _ => True | _ => False end ->
  exists s0 cr, shared_phase M Σ c G ab cl s0 cr.
Proof.
  intros [H|[(t' & b & [_ _ _ (g' & Hg' & Hv') Hot _])|[_ _ _ _ Hall]]] HG Hwf Hv; [done| |].
  - destruct (decide (t = t')) as [->|Ht]; [by simplify_eq; rewrite Hv' in Hv|].
    by rewrite (Hot t g) in Hv.
  - by rewrite (Hall t g) in Hv.
Qed.

Lemma phase_excl c G ab cl t g s rs z b :
  phase M Σ c G ab cl -> G !! t = Some g -> gv g = Excl s rs z b ->
  excl_phase Σ c G ab t b /\ s = core c /\ rs = alive c /\ z = refs c.
Proof.
  intros [(s0 & cr & H)|[(t' & b' & [? ? ? (g' & Hg' & Hv') Hot ?])|[_ _ _ _ Hall]]] HG Hv.
  - by destruct (sh_noexcl _ _ _ _ _ _ _ _ H t g s rs z b HG).
  - destruct (decide (t = t')) as [->|Ht].
    + simplify_eq. rewrite Hv' in Hv. simplify_eq. split; [|done]. by split; eauto.
    + by rewrite (Hot t g) in Hv.
  - by rewrite (Hall t g) in Hv.
Qed.

Lemma gwf_gn g : gwf g -> 0 <= gn g.
Proof. intros [_ H]. destruct (gv g); lia. Qed.

(** No thread contributes more than its references allow. *)
Lemma gwf_le g : gwf g -> (gw g).1 <= gn g.
Proof. intros [_ H]. destruct (gv g); destruct H as [? H2]; rewrite ?H2; simpl; lia. Qed.

Lemma wsum1_ge c tr G ab log t g :
  cinv M Σ o0 c tr G ab log -> G !! t = Some g -> (gw g).1 <= wsum1 G /\ (gw g).2 <= wsum2 G.
Proof.
  intros Hc HG. split; unfold wsum1, wsum2.
  - apply (msum_ge (fun g => (gw g).1) G t g); [|done]. intros t' g' Hg'.
    apply (cinv_wf _ _ _ _ _ _ _ Hc) in Hg' as [[? _] _]. done.
  - apply (msum_ge (fun g => (gw g).2) G t g); [|done]. intros t' g' Hg'.
    apply (cinv_wf _ _ _ _ _ _ _ Hc) in Hg' as [[_ ?] _]. done.
Qed.

(** What an acquiring thread learns: its own weight is counted. *)
Lemma shared_weight c tr G ab log s0 cr t g :
  cinv M Σ o0 c tr G ab log -> shared_phase M Σ c G ab (clean tr) s0 cr ->
  G !! t = Some g -> counted Σ (gw g) s0.
Proof.
  intros Hc Hs HG. destruct (wsum1_ge _ _ _ _ _ _ _ Hc HG) as [? ?].
  pose proof (sh_cnt1 _ _ _ _ _ _ _ _ Hs). pose proof (sh_cnt2 _ _ _ _ _ _ _ _ Hs).
  assert (0 <= lsum (fun d => (kw Σ d).1) (idle c)).
  { apply lsum_nonneg. intros d. by destruct (v_kw _ _ _ V d) as [[? ?] _]. }
  assert (0 <= lsum (fun d => (kw Σ d).2) (idle c)).
  { apply lsum_nonneg. intros d. by destruct (v_kw _ _ _ V d) as [[? ?] _]. }
  assert (lsum (fun d => (kw Σ d).1) (idle c) <= Z.of_nat (length (idle c))).
  { apply lsum_le_length. intros d. apply (v_kw _ _ _ V d). }
  assert (wsum1 G <= msum gn G).
  { apply msum_le. intros t1 g1 Hg1. apply gwf_le. by eapply cinv_wf. }
  pose proof (sh_refs _ _ _ _ _ _ _ _ Hs). pose proof (sh_max _ _ _ _ _ _ _ _ Hs).
  unfold counted, wle. lia.
Qed.

(** Sums after a ghost update. *)
Lemma sums_insert G t g g' :
  G !! t = Some g ->
  msum gn (<[t:=g']> G) = msum gn G - gn g + gn g' /\
  wsum1 (<[t:=g']> G) = wsum1 G - (gw g).1 + (gw g').1 /\
  wsum2 (<[t:=g']> G) = wsum2 G - (gw g).2 + (gw g').2.
Proof.
  intros HG. unfold wsum1, wsum2.
  rewrite (msum_insert _ _ _ _ g' HG), (msum_insert (fun g => (gw g).1) _ _ _ g' HG),
    (msum_insert (fun g => (gw g).2) _ _ _ g' HG). done.
Qed.

Lemma shared_upd c G ab cl s0 cr c' t g g' ab' cl' s0' cr' :
  shared_phase M Σ c G ab cl s0 cr -> G !! t = Some g ->
  shared c' = true -> alive c' = alive c ->
  refs c' - Z.of_nat (length (idle c')) - gn g' = refs c - Z.of_nat (length (idle c)) - gn g ->
  0 < refs c' -> refs c' <= MAX_REFS ->
  (forall s rs z b, gv g' <> Excl s rs z b) ->
  inv Σ s0' -> imm M s0' = imm M (core c') -> ab' = Some (abs Σ s0') ->
  (cnt Σ s0').1 - (gw g').1 - lsum (fun d => (kw Σ d).1) (idle c') =
    (cnt Σ s0).1 - (gw g).1 - lsum (fun d => (kw Σ d).1) (idle c) ->
  (cnt Σ s0).2 - (gw g).2 - lsum (fun d => (kw Σ d).2) (idle c) <=
    (cnt Σ s0').2 - (gw g').2 - lsum (fun d => (kw Σ d).2) (idle c') ->
  match holder c' with
  | Held th => exists g'', <[t := g']> G !! th = Some g'' /\ gv g'' = In s0' (core c') cr'
  | _ => core c' = s0' /\ forall q, cr' q = Some 0
  end ->
  (cl' = true -> wake_ok Σ s0' cr' (threads c')) ->
  shared_phase M Σ c' (<[t := g']> G) ab' cl' s0' cr'.
Proof.
  intros Hs HG Hsh Hal Hrefs Hpos Hmax Hne Hinv Himm Hab H1 H2 Hl Hw.
  destruct (sums_insert G t g g' HG) as (E1 & E2 & E3).
  pose proof (sh_refs _ _ _ _ _ _ _ _ Hs). pose proof (sh_cnt1 _ _ _ _ _ _ _ _ Hs).
  pose proof (sh_cnt2 _ _ _ _ _ _ _ _ Hs).
  split; try done; try lia.
  - rewrite Hal. apply Hs.
  - intros t' g1 s rs z b. rewrite lookup_insert_Some.
    intros [[<- <-]|[Ht Hg]]; [done|]. by apply (sh_noexcl _ _ _ _ _ _ _ _ Hs t').
Qed.

(** The phase survives when only the thread's program and its recorded
    failure change. *)
Lemma phase_quiet c c' G ab cl cl' t g g' :
  phase M Σ c G ab cl -> G !! t = Some g ->
  gv g' = gv g -> gn g' = gn g -> gw g' = gw g ->
  core c' = core c -> refs c' = refs c -> alive c' = alive c -> shared c' = shared c ->
  holder c' = holder c -> idle c' = idle c ->
  (cl' = true -> cl = true) ->
  (forall s0 cr, cl' = true -> wake_ok Σ s0 cr (threads c) -> wake_ok Σ s0 cr (threads c')) ->
  phase M Σ c' (<[t := g']> G) ab cl'.
Proof.
  intros Hph HG Ev En Ew Ec Er Ea Es Eh Ei Hcl Hwk.
  assert (forall t0 g0, <[t := g']> G !! t0 = Some g0 ->
    exists g1, G !! t0 = Some g1 /\ gv g0 = gv g1) as Hlk.
  { intros t0 g0. rewrite lookup_insert_Some. intros [[<- <-]|[_ H]]; eauto. }
  destruct Hph as [(s0 & cr & H)|[(t' & b & H)|H]].
  - left. exists s0, cr. pose proof H as [].
    destruct (sums_insert G t g g' HG) as (E1 & E2 & E3).
    eapply (shared_upd c G ab cl s0 cr c' t g g' ab cl' s0 cr);
      rewrite ?Er, ?Ei, ?Ec; eauto; try congruence; try lia; try (rewrite ?Ew; lia).
    + intros s rs z b Hx. rewrite Ev in Hx. by eapply sh_noexcl.
    + rewrite Eh. destruct (holder c) as [|th|]; [done| |done].
      destruct sh_lock as (g1 & Hg1 & Hv1). destruct (decide (t = th)) as [<-|Ht].
      * exists g'. rewrite lookup_insert_eq. split; [done|]. simplify_eq. congruence.
      * exists g1. by rewrite lookup_insert_ne.
  - right. left. exists t', b. destruct H as [? ? ? (g1 & Hg1 & Hv1) Hot Hb].
    split; rewrite ?Es, ?Ei, ?Eh, ?Ec, ?Ea, ?Er; auto.
    + destruct (decide (t = t')) as [<-|Ht].
      * exists g'. rewrite lookup_insert_eq. split; [done|]. simplify_eq. congruence.
      * exists g1. by rewrite lookup_insert_ne.
    + intros t0 g0 Ht0 Hg0. destruct (Hlk _ _ Hg0) as (g2 & Hg2 & ->). eauto.
  - right. right. destruct H as [? ? ? ? Hall].
    split; rewrite ?Es, ?Ei, ?Eh, ?Ea; auto.
    intros t0 g0 Hg0. destruct (Hlk _ _ Hg0) as (g2 & Hg2 & ->). eauto.
Qed.

(** *** Rules *)

Definition good tr (x : outcome (config S * list (label S))) : Prop :=
  match x with
  | Go (c', ls) => exists G' ab' log', cinv M Σ o0 c' (tr ++ ls) G' ab' log'
  | Fault => False
  | Blocked => True
  end.

Lemma good_guard {b} {tr} {x} : b = true -> good tr x -> good tr (guard b x).
Proof. by intros ->. Qed.

Lemma clean_mono (tr ls : list (label S)) : clean (tr ++ ls) = true -> clean tr = true.
Proof. rewrite clean_app, andb_true_iff. by intros [? _]. Qed.

(** The threads' common hypotheses. *)
Section rule.
Context (c : config S) (tr : list (label S)) (G : gmap tid (ghost S)) (ab : option (abst Σ))
        (log : list (entry S)) (t : tid) (o : sO S) (p : prog S) (g : ghost S).
Context (Hc : cinv M Σ o0 c tr G ab log).
Context (HT : threads c !! t = Some (o, Run p)) (HG : G !! t = Some g).

Lemma rule_wf : gwf g.
Proof using Hc HG. by eapply cinv_wf. Qed.

Lemma rule_in s0 s cr : gv g = In s0 s cr -> holder c = Held t.
Proof using Hc HG. eapply cl_in; eauto using ci_loc. Qed.

Lemma rule_notin : (forall s0 s cr, gv g <> In s0 s cr) -> holder c <> Held t.
Proof using Hc HG.
  intros Hn Hh. destruct (ci_phase _ _ _ _ _ _ _ _ Hc) as [(s0 & cr & [])|[(t' & b & [])|[]]].
  - rewrite Hh in sh_lock. destruct sh_lock as (g' & Hg' & Hv). simplify_eq. by eapply Hn.
  - by eapply ex_holder.
  - by eapply en_holder.
Qed.

(** Moves that change neither the core nor what the thread owns. *)
Lemma good_quiet p' f ls :
  own_labels t ls ->
  wp M Σ o p' (gv g) (gn g) (gw g) (gl g) (fold_left (fail_step t) ls (ge g)) ->
  good tr (cont t o p' ls (with_hooks f c)).
Proof using Hc HT HG.
  intros Hls Hwp. unfold good, cont.
  set (g' := Ghost (gv g) (gn g) (gw g) (gl g) (fold_left (fail_step t) ls (ge g))).
  destruct (cinv_thread c tr G ab log (put t o (Run p') (with_hooks f c)) (threads c) t o (Run p) (Run p')
              g g' ls ab) as [log' ?]; eauto using waked_refl; try done.
  - apply rule_wf.
  - intros s0 s cr. apply rule_in.
  - eapply phase_quiet; eauto using ci_phase, clean_mono; try done.
    intros s0 cr _. by eapply wake_ok_run.
  - left. auto.
Qed.

Lemma good_quiet0 p' ls :
  own_labels t ls ->
  wp M Σ o p' (gv g) (gn g) (gw g) (gl g) (fold_left (fail_step t) ls (ge g)) ->
  good tr (cont t o p' ls c).
Proof using Hc HT HG.
  intros H1 H2. replace c with (with_hooks (fun h => h) c) by (by destruct c).
  by apply good_quiet.
Qed.

Lemma good_failed p' a :
  wp M Σ o p' (gv g) (gn g) (gw g) (gl g) (note_st (ge g) a) ->
  good tr (cont t o p' (failed t a) c).
Proof using Hc HT HG.
  intros Hwp. apply good_quiet0; [apply own_failed|]. by rewrite failed_note.
Qed.

(** Moves of the sole owner. *)
Lemma good_excl p' ls c' b s rs z s' rs' z' :
  gv g = Excl s rs z b -> own_labels t ls ->
  threads c' = threads c -> shared c' = shared c -> holder c' = holder c ->
  idle c' = idle c -> core c' = s' -> alive c' = rs' -> refs c' = z' ->
  wp M Σ o p' (Excl s' rs' z' b) (gn g) (gw g) (gl g) (fold_left (fail_step t) ls (ge g)) ->
  good tr (cont t o p' ls c').
Proof using Hc HT HG.
  intros Hv Hls Et Es Eh Ei <- <- <- Hwp. unfold good, cont.
  destruct (phase_excl _ _ _ _ _ _ _ _ _ _ (ci_phase _ _ _ _ _ _ _ _ Hc) HG Hv)
    as ([? ? ? ? Hot ?] & -> & -> & ->).
  set (g' := Ghost (Excl (core c') (alive c') (refs c') b) (gn g) (gw g) (gl g)
               (fold_left (fail_step t) ls (ge g))).
  destruct (cinv_thread c tr G ab log (put t o (Run p') c') (threads c) t o (Run p) (Run p')
              g g' ls ab) as [log' ?]; eauto using waked_refl; try done.
  - simpl. by rewrite Et.
  - pose proof rule_wf as Hw. unfold gwf in *. by rewrite Hv in Hw.
  - intros t' _. simpl. by rewrite Eh.
  - right. left. exists t, b. split; simpl; rewrite ?Es, ?Ei, ?Eh; auto.
    + exists g'. by rewrite lookup_insert_eq.
    + intros t' g1 Ht. rewrite lookup_insert_ne by done. by apply Hot.
  - left. auto.
Qed.

Lemma excl_facts s rs z b :
  gv g = Excl s rs z b ->
  shared c = false /\ core c = s /\ alive c = rs /\ refs c = z /\
  (forall m, has m c = bool_decide (m ∈ rs)) /\
  (forall q, nobody_sleeps q c = true).
Proof using Hc HG HT.
  intros Hv.
  destruct (phase_excl _ _ _ _ _ _ _ _ _ _ (ci_phase _ _ _ _ _ _ _ _ Hc) HG Hv)
    as ([Hs ? ? ? Hot ?] & -> & -> & ->).
  split_and_all; try done.
  intros q. unfold nobody_sleeps. rewrite bool_decide_eq_true. intros t' x Hx.
  destruct (tok_ghost _ _ _ _ _ _ _ Hc Hx) as (g' & Hg' & Hx').
  destruct (decide (t' = t)) as [->|Ht].
  - by simplify_eq.
  - specialize (Hot t' g' Ht Hg'). unfold tok, sleeps_on in *.
    destruct (x.2); try done. destruct Hx' as [Hx' _]. congruence.
Qed.

(** Facts while the core is shared. *)
Lemma shared_facts :
  match gv g with Out | In _ _ _ => True | _ => False end ->
  exists s0 cr, shared_phase M Σ c G ab (clean tr) s0 cr /\ shared c = true /\ 1 <= refs c /\
    (forall m, has m c = bool_decide (m ∈ full Σ)) /\ has RCore c = true /\ has RMutex c = true /\
    (forall q, has (RCond q) c = true).
Proof using Hc HG V.
  intros Hv.
  destruct (phase_shared _ _ _ _ _ _ (ci_phase _ _ _ _ _ _ _ _ Hc) HG rule_wf Hv)
    as (s0 & cr & Hs).
  exists s0, cr. split; [done|]. pose proof Hs as []. destruct (v_full _ _ _ V) as (F1 & F2 & F3).
  unfold has. rewrite sh_alive, !bool_decide_eq_true. split_and_all; try done; try lia.
  intros q. by apply bool_decide_eq_true.
Qed.

Lemma in_facts s0 s cr :
  gv g = In s0 s cr ->
  shared_phase M Σ c G ab (clean tr) s0 cr /\ core c = s /\ holder c = Held t /\
  ab = Some (abs Σ s0).
Proof using Hc HG V.
  intros Hv. destruct shared_facts as (s1 & cr1 & Hs & _); [by rewrite Hv|].
  pose proof (rule_in _ _ _ Hv) as Hh. pose proof Hs as [].
  rewrite Hh in sh_lock. destruct sh_lock as (g' & Hg' & Hv'). simplify_eq.
  rewrite Hv in Hv'. by simplify_eq.
Qed.

Lemma good_access f k :
  wpg M Σ o (Access f k) g -> forall a v, good tr (step_run M t a v o (Access f k) c).
Proof using Hc HT HG V.
  intros Hwp a v. unfold wpg in Hwp. simpl in *. destruct (gv g) as [|s0 s cr|s rs z b|] eqn:Hv; try done.
  - destruct (in_facts _ _ _ Hv) as (Hs & Hs' & Hh & Hab). destruct shared_facts as
      (? & ? & _ & Hsh & Hr & _ & Hcore & _); [by rewrite Hv|].
    apply good_guard. { unfold may_access. by rewrite Hcore, Hsh, Hh, bool_decide_true. }
    rewrite Hs'. destruct (f s) as [s'|]; [|done]. destruct Hwp as [Himm Hwp].
    unfold good, cont.
    set (g' := Ghost (In s0 s' cr) (gn g) (gw g) (gl g) (ge g)).
    destruct (cinv_thread c tr G ab log (put t o (Run (k s)) (with_core (fun _ => s') c))
      (threads c) t o (Run p) (Run (k s)) g g' [] ab) as [log' ?]; eauto using waked_refl; try done.
    + pose proof rule_wf as Hw. unfold gwf in *. by rewrite Hv in Hw.
    + left. exists s0, cr. pose proof Hs as [].
      eapply (shared_upd c G ab (clean tr) s0 cr _ t g g' ab _ s0 cr); simpl; eauto; try done.
      * rewrite sh_imm, Hs'. done.
      * rewrite Hh. exists g'. by rewrite lookup_insert_eq.
      * intros Hcl. apply clean_mono in Hcl. eapply wake_ok_run; eauto.
    + by constructor.
    + left. auto.
  - destruct (excl_facts _ _ _ _ Hv) as (Hsh & Hs' & Ha & Hz & Hm & _).
    destruct Hwp as [Hin Hwp].
    apply good_guard. { unfold may_access. rewrite Hm, Hsh. by rewrite bool_decide_true. }
    rewrite Hs'. destruct (f s) as [s'|]; [|done].
    eapply good_excl; eauto; try done. by constructor.
Qed.

Lemma good_alloc m k :
  wpg M Σ o (Alloc m k) g -> forall a v, good tr (step_run M t a v o (Alloc m k) c).
Proof using Hc HT HG.
  intros Hwp a v. unfold wpg in Hwp. simpl in *. destruct (gv g) as [| |s rs z b|] eqn:Hv; try done.
  destruct (excl_facts _ _ _ _ Hv) as (Hsh & Hs & Ha & Hz & Hm & _).
  destruct Hwp as (Hin & Hok & Hko).
  apply good_guard. { rewrite Hm, Hsh, bool_decide_false by done. done. }
  destruct (a =? 0).
  - eapply good_excl; eauto; try constructor; try by case_bool_decide.
    case_bool_decide; simpl; rewrite ?Hs, ?Ha, ?Hz; done.
  - apply good_quiet0; [by repeat constructor|].
    simpl. rewrite decide_True by done. rewrite Hv. by unfold note in Hko.
Qed.

Lemma good_free m k :
  wpg M Σ o (Free m k) g -> forall a v, good tr (step_run M t a v o (Free m k) c).
Proof using Hc HT HG.
  intros Hwp a v. unfold wpg in Hwp. simpl in *. destruct (gv g) as [| |s rs z b|] eqn:Hv; try done.
  destruct (excl_facts _ _ _ _ Hv) as (Hsh & Hs & Ha & Hz & Hm & _).
  destruct Hwp as (Hin & _ & Hok).
  apply good_guard. { rewrite Hm, Hsh, bool_decide_true by done. done. }
  eapply good_excl; eauto; try constructor; simpl. by rewrite ?Hs, ?Ha, ?Hz.
Qed.

Lemma good_init m k :
  wpg M Σ o (Init m k) g -> forall a v, good tr (step_run M t a v o (Init m k) c).
Proof using Hc HT HG.
  intros Hwp a v. unfold wpg in Hwp. simpl in *. destruct (gv g) as [| |s rs z b|] eqn:Hv; try done.
  destruct (excl_facts _ _ _ _ Hv) as (Hsh & Hs & Ha & Hz & Hm & _).
  destruct Hwp as (Hcore & Hin & Hok & Hko).
  apply good_guard.
  { unfold private. rewrite !Hm, Hsh, bool_decide_true, bool_decide_false by done. done. }
  destruct (Z.eqb_spec a 0) as [->|Hne].
  - eapply good_excl; eauto; try done; [constructor|]. simpl. by rewrite ?Hs, ?Ha, ?Hz.
  - apply good_failed. unfold note_st. rewrite (proj2 (Z.eqb_neq _ _) Hne), Hv. auto.
Qed.

Lemma good_destroy m k :
  wpg M Σ o (Destroy m k) g -> forall a v, good tr (step_run M t a v o (Destroy m k) c).
Proof using Hc HT HG.
  intros Hwp a v. unfold wpg in Hwp. simpl in *. destruct (gv g) as [| |s rs z b|] eqn:Hv; try done.
  destruct (excl_facts _ _ _ _ Hv) as (Hsh & Hs & Ha & Hz & Hm & Hno).
  destruct Hwp as (Hcore & Hin & Hok & Hko).
  apply good_guard.
  { unfold private. rewrite !Hm, Hsh, !bool_decide_true by done. by destruct m; rewrite ?Hno. }
  destruct (Z.eqb_spec a 0) as [->|Hne].
  - eapply good_excl; eauto; try done; [constructor|]. simpl. by rewrite ?Hs, ?Ha, ?Hz.
  - apply good_failed. unfold note_st. rewrite (proj2 (Z.eqb_neq _ _) Hne), Hv. auto.
Qed.

Lemma good_refstore z' k :
  wpg M Σ o (RefStore z' k) g -> forall a v, good tr (step_run M t a v o (RefStore z' k) c).
Proof using Hc HT HG.
  intros Hwp a v. unfold wpg in Hwp. simpl in *. destruct (gv g) as [| |s rs z b|] eqn:Hv; try done.
  destruct (excl_facts _ _ _ _ Hv) as (Hsh & Hs & Ha & Hz & Hm & Hno).
  destruct Hwp as (Hcore & Hok).
  apply good_guard. { unfold private. by rewrite Hm, Hsh, bool_decide_true. }
  eapply good_excl; eauto; constructor.
Qed.

(** The core becomes reachable by others. *)
Lemma publish_phase c' g' s rs z ab' :
  gv g = Excl s rs z false -> rs = full Σ -> inv Σ s -> ab' = Some (abs Σ s) ->
  shared c' = true -> alive c' = alive c -> core c' = core c -> holder c' = holder c ->
  (gv g' = Out \/ gv g' = Gone) ->
  (exists p', threads c' = <[t := (o, Run p')]> (threads c)) ->
  0 < refs c' <= MAX_REFS -> refs c' = Z.of_nat (length (idle c')) + gn g' ->
  (cnt Σ s).1 = (gw g').1 + lsum (fun d => (kw Σ d).1) (idle c') ->
  (cnt Σ s).2 = (gw g').2 + lsum (fun d => (kw Σ d).2) (idle c') ->
  phase M Σ c' (<[t := g']> G) ab' (clean (tr ++ [])).
Proof using Hc HT HG.
  intros Hv -> Hinv Hab Hs Ha Hco Hho Hv' [p' Hth] Hpos Hrefs H1 H2.
  destruct (phase_excl _ _ _ _ _ _ _ _ _ _ (ci_phase _ _ _ _ _ _ _ _ Hc) HG Hv)
    as ([? ? Hh ? Hot ?] & -> & Hal & ->).
  destruct (sums_insert G t g g' HG) as (E1 & E2 & E3).
  assert (forall t' g1, t' <> t -> G !! t' = Some g1 -> gn g1 = 0 /\ gw g1 = w0) as Hz.
  { intros t' g1 Ht Hg1. pose proof (cinv_wf _ _ _ _ _ _ _ Hc Hg1) as [_ Hw].
    by rewrite (Hot t' g1) in Hw. }
  assert (forall f : ghost S -> Z, (forall g1, gn g1 = 0 /\ gw g1 = w0 -> f g1 = 0) ->
            msum f G = f g) as Hsum.
  { intros f Hf. rewrite <- (insert_id G t g HG), <- insert_delete_eq, msum_new by
      apply lookup_delete_eq.
    rewrite msum_zero; [lia|]. intros t' g1 [Ht Hg1]%lookup_delete_Some. eauto. }
  pose proof (Hsum gn (fun _ H => proj1 H)) as S1.
  pose proof (Hsum (fun g => (gw g).1) ltac:(by intros ? [_ ->])) as S2.
  pose proof (Hsum (fun g => (gw g).2) ltac:(by intros ? [_ ->])) as S3.
  fold (wsum1 G) in S2. fold (wsum2 G) in S3. rewrite S2 in E2. rewrite S3 in E3.
  left. exists (core c), cr0. split; try done; try congruence; try lia.
  - intros t' g1 s rs z' b. rewrite lookup_insert_Some.
    intros [[<- <-]|[Ht Hg]]; [by destruct Hv' as [-> | ->]|].
    by rewrite (Hot t' g1).
  - rewrite Hho, Hco. destruct (holder c) eqn:E; try done. by destruct (Hh t0).
  - intros _ q Hq. exfalso.
    assert (nsleep q (threads c') = 0); [|lia]. apply msum_zero. intros t' x Hx.
    rewrite Hth, lookup_insert_Some in Hx. destruct Hx as [[<- <-]|[Ht Hx']]; [done|].
    destruct (tok_ghost _ _ _ _ _ _ _ Hc Hx') as (g1 & Hg1 & Htok).
    specialize (Hot t' g1 (not_eq_sym Ht) Hg1). unfold tok, sleeps_on in *.
    destruct (x.2); try done. destruct Htok as [Htok _]. congruence.
Qed.

Lemma lock_frame s0 cr g' :
  match holder c with
  | Held th => exists g1, G !! th = Some g1 /\ gv g1 = In s0 (core c) cr
  | _ => core c = s0 /\ forall q, cr q = Some 0
  end ->
  gv g' = gv g \/ holder c <> Held t ->
  match holder c with
  | Held th => exists g1, <[t := g']> G !! th = Some g1 /\ gv g1 = In s0 (core c) cr
  | _ => core c = s0 /\ forall q, cr q = Some 0
  end.
Proof using HG.
  destruct (holder c) as [|th|]; try done. intros (g1 & Hg1 & Hv1) Hd.
  destruct (decide (t = th)) as [<-|Ht].
  - exists g'. rewrite lookup_insert_eq. split; [done|]. simplify_eq. destruct Hd; congruence.
  - exists g1. by rewrite lookup_insert_ne.
Qed.

(** Moves of a thread that owns references, outside or inside the critical
    section, that keep the protected fields. *)
Lemma good_shared p' ls c' g' s0 cr :
  shared_phase M Σ c G ab (clean tr) s0 cr -> own_labels t ls ->
  threads c' = threads c -> shared c' = shared c -> holder c' = holder c ->
  alive c' = alive c -> core c' = core c -> 0 < refs c' <= MAX_REFS ->
  refs c' - Z.of_nat (length (idle c')) - gn g' = refs c - Z.of_nat (length (idle c)) - gn g ->
  (gw g').1 + lsum (fun d => (kw Σ d).1) (idle c') =
    (gw g).1 + lsum (fun d => (kw Σ d).1) (idle c) ->
  (gw g').2 + lsum (fun d => (kw Σ d).2) (idle c') <=
    (gw g).2 + lsum (fun d => (kw Σ d).2) (idle c) ->
  gv g' = gv g \/ (gv g = Out /\ gv g' = Gone) ->
  gwf g' -> gl g' = gl g -> ge g' = fold_left (fail_step t) ls (ge g) -> wpg M Σ o p' g' ->
  good tr (cont t o p' ls c').
Proof using Hc HT HG.
  intros Hs Hls Et Esh Eh Ea Eco Hpos Hrefs H1 H2 Hv' Hwf Hl He Hwp. unfold good, cont.
  destruct (cinv_thread c tr G ab log (put t o (Run p') c') (threads c) t o (Run p) (Run p')
              g g' ls ab) as [log' ?]; eauto using waked_refl; try done.
  - simpl. by rewrite Et.
  - simpl. rewrite Eh. intros s1 s cr1 Hx. apply (rule_in s1 s cr1).
    destruct Hv' as [<-|[? ?]]; congruence.
  - simpl. intros t'. by rewrite Eh.
  - left. exists s0, cr. pose proof Hs as [].
    eapply (shared_upd c G ab (clean tr) s0 cr _ t g g' ab _ s0 cr); simpl;
      rewrite ?Eco, ?Eh; eauto; try done; try lia; try congruence.
    + intros s rs z b Hx. destruct Hv' as [Hv'|[? Hv']]; [|congruence].
      rewrite Hv' in Hx. by eapply sh_noexcl.
    + apply lock_frame; [done|]. destruct Hv' as [Hv'|[Hv' _]]; [by left|right].
      apply rule_notin. intros ???. congruence.
    + intros Hcl. rewrite Et. eapply wake_ok_run; eauto using clean_mono.
  - left. rewrite Hl. auto.
Qed.

Lemma good_refinc k :
  wpg M Σ o (RefInc k) g -> forall a v, good tr (step_run M t a v o (RefInc k) c).
Proof using Hc HT HG V.
  intros Hwp a v. unfold wpg in Hwp. pose proof rule_wf as [Hw0 Hw].
  assert (match gv g with Out | In _ _ _ => True | _ => False end ->
          wp M Σ o k (gv g) (gn g + 1) (gw g) (gl g) (ge g) ->
          good tr (step_run M t a v o (RefInc k) c)) as Hsh.
  { intros Hv Hk. destruct (shared_facts Hv) as (s0 & cr & Hs & Hsh & Hr & _ & Hcore & _ & _).
    simpl. apply good_guard. { rewrite Hcore. apply andb_true_iff. split; [done|]. by apply Z.ltb_lt; lia. }
    destruct (Z.ltb_spec (refs c) MAX_REFS); [|done].
    eapply (good_shared _ _ _ (Ghost (gv g) (gn g + 1) (gw g) (gl g) (ge g))); eauto;
      simpl; try done; try lia; try by constructor.
    - split; [done|]. simpl. destruct (gv g); lia. }
  simpl in Hwp. destruct (gv g) as [|s0 s cr|s rs z b|] eqn:Hv; try done; [by apply Hsh|by apply Hsh|].
  clear Hsh. destruct Hwp as (-> & -> & -> & Hinv & Hcnt & Hc2 & l' & Hcom & Hk).
  destruct (excl_facts _ _ _ _ Hv) as (Hsh & Hs & Ha & Hz & Hm & _).
  destruct (phase_excl _ _ _ _ _ _ _ _ _ _ (ci_phase _ _ _ _ _ _ _ _ Hc) HG Hv) as ([] & _).
  simpl. apply good_guard.
  { rewrite Hm, Hz, bool_decide_true by apply (v_full _ _ _ V). done. }
  rewrite Hz. simpl. unfold good, cont.
  set (g' := Ghost Out 2 (cnt Σ s) l' (ge g)).
  edestruct (cinv_thread c tr G ab log
    (put t o (Run k) (with_shared true (with_refs (fun z => z + 1) c))) (threads c) t o (Run p) (Run k)
              g g' [] (Some (abs Σ s))) as [log' ?]; eauto using waked_refl; try done.
  - eapply (publish_phase _ _ s _ 1); eauto; simpl; rewrite ?ex_idle, ?Hz; simpl; try done; try lia; eauto.
  - constructor.
  - by rewrite ex_born.
Qed.

Lemma last_ref_phase s0 cr c' g' :
  shared_phase M Σ c G ab (clean tr) s0 cr -> refs c = 1 -> gv g = Out -> (gw g).1 = 0 ->
  shared c' = false -> idle c' = idle c -> holder c' = holder c -> core c' = core c ->
  alive c' = alive c -> refs c' = 0 -> gv g' = Excl (core c) (full Σ) 0 true ->
  excl_phase Σ c' (<[t := g']> G) ab t true /\ core c = s0 /\ (cnt Σ s0).1 = 0.
Proof using Hc HT HG.
  intros [] Hr Hv Hw Hsh Hid Hho Hco Hal Hre Hv'.
  pose proof rule_wf as Hwf. assert (1 <= gn g) as Hn by (destruct Hwf as [_ H]; rewrite Hv in H; lia).
  assert (forall t1 g1, G !! t1 = Some g1 -> 0 <= gn g1) as Hnn.
  { intros t1 g1 Hg1. by eapply gwf_gn, cinv_wf. }
  pose proof (msum_ge gn G t g Hnn HG).
  assert (idle c = []) as Hnil by (destruct (idle c); simpl in *; [done|lia]).
  rewrite Hnil in *. simpl in *.
  assert (forall t1 g1, t1 <> t -> G !! t1 = Some g1 -> gv g1 = Gone) as Hot.
  { intros t1 g1 Ht Hg1. pose proof (cinv_wf _ _ _ _ _ _ _ Hc Hg1) as [_ Hw1].
    assert (gn g1 <= msum gn (delete t G)).
    { apply (msum_ge gn _ t1); [intros t2 g2 [_ ?]%lookup_delete_Some; eauto|].
      by rewrite lookup_delete_ne. }
    rewrite (msum_delete gn _ _ _ HG) in *. destruct (gv g1) eqn:E; try done; try lia.
    by destruct (sh_noexcl _ _ _ _ _ _ Hg1 E). }
  assert (forall t1 g1, G !! t1 = Some g1 -> (gw g1).1 = 0) as Hwz.
  { intros t1 g1 Hg1. destruct (decide (t1 = t)) as [->|Ht]; [by simplify_eq|].
    pose proof (cinv_wf _ _ _ _ _ _ _ Hc Hg1) as [_ Hw1]. rewrite (Hot t1 g1 Ht Hg1) in Hw1.
    by destruct Hw1 as [_ ->]. }
  assert (holder c <> Held t) as Hnh by (apply rule_notin; intros ???; congruence).
  assert (core c = s0) as Hs0.
  { destruct (holder c) as [|th|]; try tauto. destruct sh_lock as (g1 & Hg1 & Hv1).
    rewrite (Hot th g1) in Hv1; [done|congruence|done]. }
  split; [|split; [done|]].
  - split; rewrite ?Hid, ?Hho; try done.
    + intros t1 Ht1. rewrite Ht1 in *. destruct sh_lock as (g1 & Hg1 & Hv1).
      rewrite (Hot t1 g1) in Hv1; [done|congruence|done].
    + exists g'. rewrite lookup_insert_eq, Hco, Hal, Hre, sh_alive. done.
    + intros t1 g1 Ht. rewrite lookup_insert_ne by done. by apply Hot.
  - unfold wsum1 in *. rewrite msum_zero in sh_cnt1 by eauto. lia.
Qed.

Lemma good_refdec k :
  wpg M Σ o (RefDec k) g -> forall a v, good tr (step_run M t a v o (RefDec k) c).
Proof using Hc HT HG V.
  intros Hwp a v. unfold wpg in Hwp. pose proof rule_wf as [Hw0 Hw].
  simpl in Hwp. destruct (gv g) as [|s0 s cr|s rs z b|] eqn:Hv; try done.
  destruct shared_facts as (s0 & cr & Hs & Hsh & Hr & _ & Hcore & _); [by rewrite Hv|].
  simpl. apply good_guard.
  { rewrite Hcore, Hsh. simpl. by apply Z.ltb_lt; lia. }
  pose proof (sh_max _ _ _ _ _ _ _ _ Hs) as Hmax.
  assert (gn g <= refs c) as Hle.
  { rewrite (sh_refs _ _ _ _ _ _ _ _ Hs).
    assert (gn g <= msum gn G); [|lia]. apply (msum_ge gn G t g); [|done].
    intros t1 g1 Hg1. by eapply gwf_gn, cinv_wf. }
  destruct (Z.eqb_spec (refs c) 1) as [H1|H1].
  - (* the last reference *)
    assert (gn g = 1) as Hn by lia. rewrite Hn in Hwp. simpl in Hwp.
    destruct Hwp as (Hw1 & _ & Hk). unfold good, cont.
    set (g' := Ghost (Excl (core c) (full Σ) 0 true) 0 w0 (gl g) (ge g)).
    destruct (last_ref_phase s0 cr (put t o (Run (k (refs c - 1)))
            (with_shared (negb true) (with_refs (fun z => z - 1) c))) g') as (Hex & Hs0 & Hcnt);
      simpl; try done; [lia|].
    destruct (cinv_thread c tr G ab log (put t o (Run (k (refs c - 1)))
            (with_shared (negb true) (with_refs (fun z => z - 1) c))) (threads c) t o (Run p)
            (Run (k (refs c - 1))) g g' [] ab) as [log' ?];
      eauto using waked_refl; try done.
    + unfold tok, wpg. simpl. rewrite H1. simpl. rewrite Hs0. apply Hk; [|done].
      apply Hs.
    + right. left. eauto.
    + constructor.
    + left. auto.
  - destruct (Z.eqb_spec (gn g) 1) as [Hn|Hn].
    + destruct Hwp as (Hw1 & Hk & _).
      eapply (good_shared _ _ _ (Ghost Gone 0 w0 (gl g) (ge g))); eauto;
        simpl; rewrite ?Hw1; try done; [apply own_nil|lia..|destruct Hw0; simpl in *; lia|].
      apply Hk. lia.
    + destruct Hwp as [Hwn Hwp].
      eapply (good_shared _ _ _ (Ghost Out (gn g - 1) (gw g) (gl g) (ge g))); eauto;
        simpl; try done; try lia; [apply own_nil| |].
      * split; simpl; [done|lia].
      * apply Hwp. lia.
Qed.

Lemma clean_ge ls : clean (tr ++ ls) = true -> ge g = None.
Proof using Hc HG.
  intros Hcl%clean_mono. rewrite (cl_fail _ _ _ _ _ _ _ _ _ (ci_loc _ _ _ _ _ _ _ _ Hc) _ _ HG).
  by apply clean_first_failure.
Qed.

Lemma wake_ok_ext s0 cr cr' T :
  (forall q, cr' q = cr q) -> wake_ok Σ s0 cr T -> wake_ok Σ s0 cr' T.
Proof using Type. intros He H q Hq. rewrite He. by apply H. Qed.

Lemma good_lock k :
  wpg M Σ o (Lock k) g -> forall a v, good tr (step_run M t a v o (Lock k) c).
Proof using Hc HT HG V.
  intros Hwp a v. unfold wpg in Hwp.
  simpl in Hwp. destruct (gv g) as [|s0 s cr|s rs z b|] eqn:Hv; try done.
  destruct Hwp as [Hko Hok].
  destruct shared_facts as (s0 & cr & Hs & Hsh & Hr & _ & Hcore & Hmx & _); [by rewrite Hv|].
  assert (holder c <> Held t) as Hnh by (apply rule_notin; intros ???; congruence).
  simpl. apply good_guard. { by rewrite Hcore, Hmx, bool_decide_false. }
  destruct (Z.eqb_spec a 0) as [->|Ha].
  2:{ apply good_failed. rewrite Hv. unfold note_st. rewrite (proj2 (Z.eqb_neq _ _) Ha). auto. }
  case_bool_decide as Hu; [|done]. unfold good, cont.
  pose proof Hs as []. rewrite Hu in sh_lock. destruct sh_lock as [Hc0 Hcr].
  set (g' := Ghost (In s0 s0 cr0) (gn g) (gw g) (gl g) (ge g)).
  destruct (cinv_thread c tr G ab log (put t o (Run (k 0)) (with_holder (Held t) c))
    (threads c) t o (Run p) (Run (k 0)) g g' [] ab) as [log' ?]; eauto using waked_refl; try done.
  - unfold tok, wpg. simpl. apply Hok; [done|]. by eapply shared_weight.
  - pose proof rule_wf as Hw. unfold gwf in *. by rewrite Hv in Hw.
  - intros t' _ Hx. congruence.
  - left. exists s0, cr0.
    eapply (shared_upd c G ab (clean tr) s0 cr _ t g g' ab _ s0 cr0); simpl; eauto; try done.
    + exists g'. by rewrite lookup_insert_eq, Hc0.
    + intros Hcl. eapply wake_ok_run; [done|].
      eapply (wake_ok_ext s0 cr); [by intros q; rewrite Hcr|]. eauto using clean_mono.
  - constructor.
  - left. auto.
Qed.

(** Giving the mutex up, by unlocking or by going to sleep. *)
Lemma release_wake s0 s cr ls T' :
  shared_phase M Σ c G ab (clean tr) s0 cr -> clean (tr ++ ls) = true ->
  (forall q, nwake q T' = nwake q (threads c)) ->
  (ge g = None -> forall q, 0 < nsleep q T' ->
     (exists z, slack Σ q s = Some z /\ z <= 0) \/
     (nsleep q T' = nsleep q (threads c) /\ slack_ok Σ s0 s cr q)) ->
  wake_ok Σ s cr0 T'.
Proof using Hc HG.
  intros Hs Hcl Hnw H q Hq.
  pose proof (sh_wake _ _ _ _ _ _ _ _ Hs (clean_mono _ _ Hcl)) as Hwk.
  specialize (H (clean_ge _ Hcl) q Hq) as [(z & Hz & Hle)|[Hns Hok]].
  - exists 0, z. split_and_all; [done|done|]. pose proof (nwake_nonneg q T'). lia.
  - destruct (Hwk q) as (z & z0 & Hcr & Hz0 & Hle); [lia|].
    unfold slack_ok in Hok. rewrite Hcr, Hz0 in Hok. destruct Hok as (z1 & Hz1 & Hle1).
    exists 0, z1. split_and_all; [done|done|]. rewrite Hnw.
    pose proof (nwake_nonneg q (threads c)). lia.
Qed.

Lemma good_unlock k :
  wpg M Σ o (Unlock k) g -> forall a v, good tr (step_run M t a v o (Unlock k) c).
Proof using Hc HT HG V.
  intros Hwp a v. unfold wpg in Hwp.
  simpl in Hwp. destruct (gv g) as [|s0 s cr|s rs z b|] eqn:Hv; try done.
  destruct Hwp as (Hinv & Hw & Hwn & Hnl & Hk).
  destruct (in_facts _ _ _ Hv) as (Hs & Hco & Hh & Hab).
  destruct shared_facts as (_ & _ & _ & Hsh & Hr & _ & Hcore & Hmx & _); [by rewrite Hv|].
  simpl. apply good_guard. { by rewrite Hcore, Hmx, bool_decide_true. }
  unfold good, cont. destruct (Hk a) as (l' & Hcom & Hk').
  set (g' := Ghost Out (gn g) (wsub (wadd (gw g) (cnt Σ s)) (cnt Σ s0)) l' (note_st (ge g) a)).
  destruct (cinv_thread c tr G ab log
    (put t o (Run (k a)) (with_holder (if a =? 0 then Unlocked else Stuck) c))
    (threads c) t o (Run p) (Run (k a)) g g' (failed t a) (Some (abs Σ s)))
    as [log' ?]; eauto using waked_refl, own_failed; try done.
  - pose proof rule_wf as [_ Hw']. rewrite Hv in Hw'. split; [done|]. simpl. split; [tauto|done].
  - intros t' Ht Hx. congruence.
  - left. exists s, cr0.
    eapply (shared_upd c G ab (clean tr) s0 cr _ t g g' _ _ s cr0); simpl; eauto; try done;
      try (by destruct Hs); try lia.
    + by rewrite Hco.
    + by destruct (a =? 0).
    + intros Hcl. eapply (release_wake s0 s cr (failed t a)); eauto.
      * intros q. rewrite (nwake_insert _ _ _ _ _ HT). simpl. lia.
      * intros He q. rewrite (nsleep_insert _ _ _ _ _ HT). simpl. right. split; [lia|].
        by apply Hnl.
  - by rewrite failed_note.
  - simpl. by rewrite Hab.
Qed.

Lemma good_sleep q c' (k' : Z -> prog S) s0 s cr :
  gv g = In s0 s cr -> may_sleep Σ q s0 s cr (ge g) ->
  (forall s1 st, inv Σ s1 -> counted Σ (gw g) s1 ->
     wp M Σ o (k' st) (In s1 s1 (woken q)) (gn g) (gw g) (gl g) (note_st (ge g) st)) ->
  c' = put t o (Sleep q k') (with_holder Unlocked c) ->
  good tr (Go (c', [])).
Proof using Hc HT HG V.
  intros Hv (Hinv & Habs & Hcnt & Hsl) Hk ->. unfold good.
  destruct (in_facts _ _ _ Hv) as (Hs & Hco & Hh & Hab).
  set (g' := Ghost Out (gn g) (gw g) (gl g) (ge g)).
  destruct (cinv_thread c tr G ab log (put t o (Sleep q k') (with_holder Unlocked c))
    (threads c) t o (Run p) (Sleep q k') g g' [] ab) as [log' ?]; eauto using waked_refl; try done.
  - pose proof rule_wf as [Hw Hw']. by rewrite Hv in Hw'.
  - intros t' Ht Hx. congruence.
  - left. exists s, cr0.
    eapply (shared_upd c G ab (clean tr) s0 cr _ t g g' _ _ s cr0); simpl; eauto; try done;
      try (by destruct Hs); try (rewrite Hcnt; lia).
    + by rewrite Hco.
    + by rewrite Habs.
    + intros Hcl. eapply (release_wake s0 s cr []); eauto.
      * intros q'. rewrite (nwake_insert _ _ _ _ _ HT). simpl. lia.
      * intros He q'. destruct (Hsl He) as [Hq Hoth].
        destruct (decide (q' = q)) as [->|Hne]; [by left|].
        assert (sleeps_on q' (o, Sleep q k') = false) as Hf.
        { unfold sleeps_on. simpl. by apply bool_decide_eq_false. }
        rewrite (nsleep_insert _ _ _ _ _ HT), Hf. simpl. right. split; [lia|]. by apply Hoth.
  - constructor.
  - left. auto.
Qed.

Lemma clean_failed a : a <> 0 -> clean (tr ++ failed t a) = false.
Proof using Type.
  intros Ha. rewrite clean_app. unfold failed. rewrite (proj2 (Z.eqb_neq _ _) Ha).
  apply andb_false_r.
Qed.

(** A wait that fails keeps the mutex. *)
Lemma good_wait_failed q p' a s0 s cr :
  gv g = In s0 s cr -> may_sleep Σ q s0 s cr (ge g) -> a <> 0 ->
  wp M Σ o p' (In s s cr) (gn g) (gw g) (gl g) (note (ge g) (OsFail a)) ->
  good tr (cont t o p' (failed t a) c).
Proof using Hc HT HG V.
  intros Hv (Hinv & Habs & Hcnt & Hsl) Ha Hk. unfold good, cont.
  destruct (in_facts _ _ _ Hv) as (Hs & Hco & Hh & Hab).
  set (g' := Ghost (In s s cr) (gn g) (gw g) (gl g) (note (ge g) (OsFail a))).
  destruct (cinv_thread c tr G ab log (put t o (Run p') c)
    (threads c) t o (Run p) (Run p') g g' (failed t a) ab)
    as [log' ?]; eauto using waked_refl, own_failed; try done.
  - pose proof rule_wf as Hw. unfold gwf in *. by rewrite Hv in Hw.
  - left. exists s, cr.
    eapply (shared_upd c G ab (clean tr) s0 cr _ t g g' _ _ s cr); simpl; eauto; try done;
      try (by destruct Hs); try (rewrite Hcnt; lia).
    + by rewrite Hco.
    + by rewrite Habs.
    + rewrite Hh. exists g'. by rewrite lookup_insert_eq, Hco.
    + by rewrite clean_failed.
  - rewrite failed_note. unfold note_st. by rewrite (proj2 (Z.eqb_neq _ _) Ha).
  - left. auto.
Qed.

Lemma wait_guard :
  match gv g with In _ _ _ => True | _ => False end ->
  forall q, (has RCore c && has RMutex c && has (RCond q) c && bool_decide (holder c = Held t)) = true.
Proof using Hc HG V.
  intros Hv q. destruct (gv g) as [|s0 s cr| |] eqn:E; try done.
  destruct (in_facts _ _ _ E) as (_ & _ & Hh & _).
  destruct shared_facts as (_ & _ & _ & _ & _ & _ & -> & -> & Hq); [by rewrite E|].
  by rewrite Hq, bool_decide_true.
Qed.

Lemma good_condwait q k :
  wpg M Σ o (CondWait q k) g -> forall a v, good tr (step_run M t a v o (CondWait q k) c).
Proof using Hc HT HG V.
  intros Hwp a v. unfold wpg in Hwp.
  simpl in Hwp. destruct (gv g) as [|s0 s cr|s rs z b|] eqn:Hv; try done.
  destruct Hwp as (Hms & Herr & Hk).
  simpl. apply good_guard; [apply wait_guard; by rewrite Hv|].
  destruct (Z.eqb_spec a 0) as [->|Ha].
  - eapply good_sleep; eauto.
  - eapply good_wait_failed; eauto.
Qed.

Lemma good_waitwhile f q onerr k :
  wpg M Σ o (WaitWhile f q onerr k) g ->
  forall a v, good tr (step_run M t a v o (WaitWhile f q onerr k) c).
Proof using Hc HT HG V.
  intros Hwp a v. unfold wpg in Hwp.
  simpl in Hwp. destruct (gv g) as [|s0 s cr|s rs z b|] eqn:Hv; try done.
  destruct (in_facts _ _ _ Hv) as (_ & Hco & Hh & _).
  simpl. apply good_guard.
  { pose proof (wait_guard ltac:(by rewrite Hv) q) as Hg.
    destruct (has RCore c) eqn:E1, (has RMutex c) eqn:E2, (has (RCond q) c) eqn:E3; try done.
    unfold may_access. rewrite E1, bool_decide_true by done. by rewrite orb_true_r. }
  rewrite Hco. destruct (f s) eqn:Hf.
  2:{ apply good_quiet0; [apply own_nil|]. by rewrite Hv. }
  destruct Hwp as (Hms & Herr & Hloop & Herr').
  destruct (Z.eqb_spec a 0) as [->|Ha]; [|by eapply good_wait_failed; eauto].
  eapply good_sleep; eauto. intros s1 st Hs1 Hw1. unfold note_st.
  destruct (Z.eqb_spec st 0) as [->|Hst]; [|by apply Herr'].
  pose proof (Hloop s1 Hs1 Hw1) as Hs1'. simpl. destruct (f s1); [|done]. auto 6.
Qed.
End rule.
End preservation.
