(* ===== verification/Adequacy.v ===== *)
(** Adequacy: the remaining rules (notification, handles, thread creation,
    calls and returns), preservation over whole schedules, and what it means
    for a verified component. *)
From stdpp Require Import base gmap list.
From Stdlib Require Import ZArith Lia.
From S2P Require Import Prelude Machine Logic Soundness Preservation.

Section adequacy.
Context {S : sig} (M : code S) (Σ : spec S) (o0 : sO S).
Context (V : verified M Σ o0).
Implicit Types (c : config S) (g : ghost S) (G : gmap tid (ghost S)).
Implicit Types (T : gmap tid (sO S * tstate S)) (ab : option (abst Σ)).

Abbreviation Good := (good M Σ o0).

(** *** Counting wake-ups *)

Lemma wake_one_keep s0 cr T v o' q k :
  T !! v = Some (o', Sleep q k) -> wake_ok Σ s0 cr T ->
  wake_ok Σ s0 cr (<[v := (o', Wake q 0 k)]> T).
Proof.
  intros Hv Hw q'. rewrite (nsleep_insert _ _ _ _ _ Hv), (nwake_insert _ _ _ _ _ Hv).
  unfold sleeps_on, wakes_on. simpl. intros Hq.
  destruct (Hw q') as (z & z0 & ? & ? & ?).
  { destruct (bool_decide (q = q')); simpl in *; lia. }
  exists z, z0. split_and_all; try done. destruct (bool_decide (q = q')); simpl in *; lia.
Qed.

Lemma wake_one_credit s0 cr T v o' q k :
  T !! v = Some (o', Sleep q k) -> wake_ok Σ s0 cr T ->
  wake_ok Σ s0 (set_cr cr q (Z.add 1 <$> cr q)) (<[v := (o', Wake q 0 k)]> T).
Proof.
  intros Hv Hw q'. rewrite (nsleep_insert _ _ _ _ _ Hv), (nwake_insert _ _ _ _ _ Hv).
  unfold sleeps_on, wakes_on, set_cr. simpl. intros Hq.
  destruct (Hw q') as (z & z0 & Hz & ? & ?).
  { destruct (bool_decide (q = q')); simpl in *; lia. }
  destruct (decide (q' = q)) as [Hqq|Hqq].
  - subst. rewrite Hz, bool_decide_true by done. simpl. exists (1 + z), z0. split_and_all; try done. lia.
  - rewrite bool_decide_false by congruence. simpl. exists z, z0. split_and_all; try done. lia.
Qed.

Lemma wake_none s0 cr T q x :
  nsleep q T = 0 -> wake_ok Σ s0 cr T -> wake_ok Σ s0 (set_cr cr q x) T.
Proof.
  intros Hn Hw q' Hq. unfold set_cr. case_decide as Hqq; [subst; lia|]. by apply Hw.
Qed.

Lemma nsleep_wake_all q q' T :
  nsleep q' (wake_all q <$> T) = if bool_decide (q' = q) then 0 else nsleep q' T.
Proof.
  unfold nsleep. rewrite msum_fmap. case_bool_decide as Hq.
  - subst. apply msum_zero. intros t [o [p|q1 k|q1 st k]] _; try done.
    unfold wake_all, sleeps_on. simpl. case_bool_decide; simpl; [done|].
    by rewrite bool_decide_false.
  - apply msum_ext. intros t [o [p|q1 k|q1 st k]] _; try done.
    unfold wake_all, sleeps_on. simpl. case_bool_decide; simpl; [|done].
    by rewrite bool_decide_false by congruence.
Qed.

Lemma nwake_wake_all q q' T : q' <> q -> nwake q' (wake_all q <$> T) = nwake q' T.
Proof.
  intros Hq. unfold nwake. rewrite msum_fmap. apply msum_ext.
  intros t [o [p|q1 k|q1 st k]] _; try done.
  unfold wake_all, wakes_on. simpl. case_bool_decide; simpl; [|done].
  by rewrite bool_decide_false by congruence.
Qed.

Lemma wake_all_ok s0 cr T q x :
  wake_ok Σ s0 cr T -> wake_ok Σ s0 (set_cr cr q x) (wake_all q <$> T).
Proof.
  intros Hw q'. rewrite nsleep_wake_all. case_bool_decide as Hq; [lia|].
  rewrite nwake_wake_all by done. unfold set_cr. rewrite decide_False by done. apply Hw.
Qed.

Lemma wake_all_keep s0 cr T q : wake_ok Σ s0 cr T -> wake_ok Σ s0 cr (wake_all q <$> T).
Proof.
  intros Hw q'. rewrite nsleep_wake_all. case_bool_decide as Hq; [lia|].
  rewrite nwake_wake_all by done. apply Hw.
Qed.

Section rule.
Context (c : config S) (tr : list (label S)) (G : gmap tid (ghost S)) (ab : option (abst Σ))
        (log : list (entry S)) (t : tid) (o : sO S) (p : prog S) (g : ghost S).
Context (Hc : cinv M Σ o0 c tr G ab log).
Context (HT : threads c !! t = Some (o, Run p)) (HG : G !! t = Some g).

(** A successful notification. *)
Lemma good_notify p' T1 f :
  waked (threads c) T1 ->
  match gv g with
  | Out => wp M Σ o p' Out (gn g) (gw g) (gl g) (ge g)
  | In s0 s cr => wp M Σ o p' (In s0 s (f cr)) (gn g) (gw g) (gl g) (ge g)
  | _ => False
  end ->
  (forall s0 cr, wake_ok Σ s0 cr (threads c) -> wake_ok Σ s0 cr T1 /\ wake_ok Σ s0 (f cr) T1) ->
  Good tr (cont t o p' [] (with_threads (fun _ => T1) c)).
Proof using Hc HT HG V.
  intros Hwk Hwp Hok. unfold good, cont.
  set (v' := match gv g with In s0 s cr => In s0 s (f cr) | v => v end).
  set (g' := Ghost v' (gn g) (gw g) (gl g) (ge g)).
  pose proof (waked_run _ _ _ _ _ Hwk HT) as HT1.
  pose proof (cinv_wf _ _ _ _ _ _ _ _ _ _ Hc HG) as Hwf.
  assert (match gv g with Out | In _ _ _ => True | _ => False end) as Hv by (by destruct (gv g)).
  destruct (phase_shared _ _ _ _ _ _ _ _ (ci_phase _ _ _ _ _ _ _ _ Hc) HG Hwf Hv)
    as (s0 & cr & Hs).
  pose proof (rule_in _ _ _ c tr G ab log t g Hc HG) as Hin.
  destruct (cinv_thread M Σ o0 c tr G ab log
    (put t o (Run p') (with_threads (fun _ => T1) c)) T1 t o (Run p) (Run p')
    g g' [] ab) as [log' ?]; eauto; try done.
  - unfold tok, wpg. simpl. subst v'. by destruct (gv g).
  - unfold gwf, g', v'. simpl. unfold gwf in Hwf. by destruct (gv g).
  - subst g' v'. simpl. intros s1 s2 cr1 Hx. destruct (gv g) as [|s3 s4 cr3| |]; try done. eauto.
  - left. pose proof Hs as [].
    exists s0, (match gv g with In _ _ _ => f cr | _ => cr end).
    eapply (shared_upd M Σ c G ab (clean tr) s0 cr _ t g g' _ _ s0 _); simpl; eauto; try done.
    + subst v'. intros s1 rs z b. by destruct (gv g).
    + destruct (holder c) as [|th|] eqn:Hh.
      * destruct (gv g) as [|s3 s4 cr3| |]; try done. by specialize (Hin s3 s4 cr3 eq_refl).
      * destruct sh_lock as (g1 & Hg1 & Hv1). destruct (decide (t = th)) as [<-|Ht].
        -- exists g'. rewrite lookup_insert_eq. simplify_eq. split; [done|].
           subst g' v'. simpl. rewrite Hv1. done.
        -- exists g1. rewrite lookup_insert_ne by done. split; [done|].
           destruct (gv g) as [|s3 s4 cr3| |]; try done. specialize (Hin s3 s4 cr3 eq_refl).
           congruence.
      * destruct (gv g) as [|s3 s4 cr3| |]; try done. by specialize (Hin s3 s4 cr3 eq_refl).
    + intros Hcl%clean_mono. eapply wake_ok_run; [exact HT1|].
      destruct (Hok s0 cr (sh_wake Hcl)). by destruct (gv g).
  - constructor.
  - left. auto.
Qed.

Lemma notify_facts :
  match gv g with Out | In _ _ _ => True | _ => False end ->
  forall q, (has RCore c && has (RCond q) c) = true.
Proof using Hc HG V.
  intros Hv q.
  destruct (shared_facts M Σ o0 V c tr G ab log t g Hc HG Hv) as (_ & _ & _ & _ & _ & _ & -> & _ & Hq).
  by rewrite Hq.
Qed.

Lemma good_signal q k :
  wpg M Σ o (Signal q k) g -> forall a v, Good tr (step_run M t a v o (Signal q k) c).
Proof using Hc HT HG V.
  intros Hwp a v. unfold wpg in Hwp. cbn [step_run].
  assert (match gv g with Out | In _ _ _ => True | _ => False end) as Hv
    by (simpl in Hwp; by destruct (gv g)).
  apply good_guard; [by apply notify_facts|].
  destruct (Z.eqb_spec a 0) as [->|Ha]; simpl negb; cbv iota.
  2:{ eapply good_failed; eauto. unfold note_st. rewrite (proj2 (Z.eqb_neq _ _) Ha).
      simpl in Hwp. destruct (gv g); try done; by apply Hwp. }
  assert (match gv g with
          | Out => wp M Σ o (k 0) Out (gn g) (gw g) (gl g) (ge g)
          | In s0 s cr => wp M Σ o (k 0) (In s0 s (set_cr cr q (Z.add 1 <$> cr q)))
                            (gn g) (gw g) (gl g) (ge g)
          | _ => False
          end) as Hk by (simpl in Hwp; destruct (gv g); by try apply Hwp).
  destruct (nobody_sleeps q c) eqn:Hno.
  - replace c with (with_threads (fun _ => threads c) c) at 2 by (by destruct c).
    eapply (good_notify _ _ (fun cr => set_cr cr q (Z.add 1 <$> cr q))); [apply waked_refl|done|].
    intros s0 cr Hw. split; [done|]. apply wake_none; [|done]. by apply nobody_sleeps_spec.
  - destruct (threads c !! v) as [[o' [|q' k'|]]|] eqn:Hv'; try done.
    case_bool_decide as Hq; [|done]. subst q'.
    replace (put v o' (Wake q 0 k') c) with
      (with_threads (fun _ => <[v := (o', Wake q 0 k')]> (threads c)) c) by done.
    eapply (good_notify _ _ (fun cr => set_cr cr q (Z.add 1 <$> cr q))); [by apply waked_one|done|].
    intros s0 cr Hw. split; [by apply wake_one_keep|by apply wake_one_credit].
Qed.

Lemma good_broadcast q k :
  wpg M Σ o (Broadcast q k) g -> forall a v, Good tr (step_run M t a v o (Broadcast q k) c).
Proof using Hc HT HG V.
  intros Hwp a v. unfold wpg in Hwp. cbn [step_run].
  assert (match gv g with Out | In _ _ _ => True | _ => False end) as Hv
    by (simpl in Hwp; by destruct (gv g)).
  apply good_guard; [by apply notify_facts|].
  destruct (Z.eqb_spec a 0) as [->|Ha]; simpl negb; cbv iota.
  2:{ eapply good_failed; eauto. unfold note_st. rewrite (proj2 (Z.eqb_neq _ _) Ha).
      simpl in Hwp. destruct (gv g); try done; by apply Hwp. }
  replace (with_threads (fmap (wake_all q)) c) with
    (with_threads (fun _ => wake_all q <$> threads c) c) by done.
  eapply (good_notify _ _ (fun cr => set_cr cr q None)); [by apply waked_all| |].
  - simpl in Hwp. destruct (gv g); by try apply Hwp.
  - intros s0 cr Hw. split; [by apply wake_all_keep|by apply wake_all_ok].
Qed.

Lemma good_wrap d k :
  wpg M Σ o (Wrap d k) g -> forall a v, Good tr (step_run M t a v o (Wrap d k) c).
Proof using Hc HT HG V.
  intros Hwp a v. unfold wpg in Hwp. cbn [step_run].
  simpl in Hwp. destruct (gv g) as [|s0 s cr|s rs z b|] eqn:Hv; try done.
  - destruct (shared_facts M Σ o0 V c tr G ab log t g Hc HG) as
      (s0 & cr & Hs & Hsh & Hr & _ & Hcore & _); [by rewrite Hv|].
    pose proof (sh_max _ _ _ _ _ _ _ _ Hs) as Hmax.
    apply good_guard; [done|].
    destruct (Z.eqb_spec (gn g) 1) as [Hn|Hn].
    + destruct Hwp as [Hw Hk].
      eapply (good_shared M Σ o0 c tr G ab log t o p g Hc HT HG k [] _
                (Ghost Gone 0 w0 (gl g) (ge g))); eauto;
        simpl; rewrite ?Hw; try done; try lia; apply own_nil.
    + destruct Hwp as (Hw & Hwn & Hk).
      pose proof (cinv_wf _ _ _ _ _ _ _ _ _ _ Hc HG) as [_ Hwf]. rewrite Hv in Hwf.
      destruct Hw as [Hw1 Hw2].
      eapply (good_shared M Σ o0 c tr G ab log t o p g Hc HT HG k [] _
                (Ghost Out (gn g - 1) (wsub (gw g) (kw Σ d)) (gl g) (ge g))); eauto;
        simpl; try done; try lia; try apply own_nil.
      split; simpl; [|lia]. split; simpl; lia.
  - destruct Hwp as (-> & -> & -> & Hinv & Hcnt & l' & Hcom & Hk).
    destruct (excl_facts M Σ o0 c tr G ab log t o p g Hc HT HG _ _ _ _ Hv)
      as (Hsh & Hs & Ha & Hz & Hm & _).
    destruct (phase_excl M Σ _ _ _ _ _ _ _ _ _ _ (ci_phase _ _ _ _ _ _ _ _ Hc) HG Hv) as ([] & _).
    apply good_guard. { rewrite Hm, bool_decide_true by apply (v_full _ _ _ V). done. }
    unfold good, cont.
    set (g' := Ghost Gone 0 w0 l' (ge g)).
    edestruct (cinv_thread M Σ o0 c tr G ab log
      (put t o (Run k) (with_shared true (with_idle (cons d) c))) (threads c) t o (Run p) (Run k)
                g g' [] (Some (abs Σ s))) as [log' ?]; eauto using waked_refl; try done.
    + eapply (publish_phase M Σ o0 c tr G ab log t o p g Hc HT HG _ _ s _ 1); eauto; simpl;
        rewrite ?ex_idle, ?Hz, ?Hcnt; simpl; try done; try lia; eauto.
    + constructor.
    + by rewrite ex_born.
Qed.

Lemma good_spawn o' k :
  wpg M Σ o (Spawn o' k) g -> forall a v, Good tr (step_run M t a v o (Spawn o' k) c).
Proof using Hc HT HG V.
  intros Hwp a v. unfold wpg in Hwp. cbn [step_run].
  simpl in Hwp. destruct (gv g) as [|s0 s cr|s rs z b|] eqn:Hv; try done.
  destruct Hwp as (Hn & Hw & Hwn & Hsp & Hk & Hko).
  destruct (shared_facts M Σ o0 V c tr G ab log t g Hc HG) as
    (s0 & cr & Hs & Hsh & Hr & _ & Hcore & _); [by rewrite Hv|].
  apply good_guard; [done|].
  destruct (Z.eqb_spec a 0) as [->|Ha].
  2:{ eapply good_failed; eauto. unfold note_st. rewrite (proj2 (Z.eqb_neq _ _) Ha), Hv. auto. }
  case_bool_decide as Hdom; [done|]. apply not_elem_of_dom in Hdom.
  assert (v <> t) as Hvt by (intros ->; congruence).
  destruct (v_spawn _ _ _ V o' Hsp) as (Hsw & Hsw1 & Hwp').
  set (g1 := Ghost Out (gn g - 1) (wsub (gw g) (sw Σ o')) (gl g) (ge g)).
  set (g2 := Ghost (Out (S:=S)) 1 (sw Σ o') None None).
  destruct (loc_thread M Σ o0 _ (threads c) _ (holder c) tr G ab log t o (Run p) (Run (k 0))
    g g1 [] ab (ci_loc _ _ _ _ _ _ _ _ Hc) (waked_refl _)) as [log' Hl]; eauto; try done.
  { destruct Hw. split; simpl; [split; simpl; lia|lia]. }
  { constructor. }
  { left. auto. }
  rewrite app_nil_r in Hl.
  eapply (loc_add M Σ o0 _ _ _ _ _ _ v o' (Run (body M o')) g2) in Hl; try done;
    [|by rewrite lookup_insert_ne].
  unfold good. exists (<[v := g2]> (<[t := g1]> G)), ab, log'. split; [done|].
  assert (G !! v = None) as HGv by (by eapply no_ghost).
  assert (<[t := g1]> G !! v = None) as HGv' by (by rewrite lookup_insert_ne).
  destruct (sums_insert G t g g1 HG) as (E1 & E2 & E3).
  left. pose proof Hs as []. exists s0, cr. split; try done; simpl.
  - rewrite msum_new, E1 by done. simpl. lia.
  - intros t' g' s' rs z b. rewrite !lookup_insert_Some.
    intros [[_ <-]|[_ [[_ <-]|[_ Hg]]]]; try done. by eapply sh_noexcl.
  - unfold wsum1 in *. rewrite msum_new, E2 by done. simpl. lia.
  - unfold wsum2 in *. rewrite msum_new, E3 by done. simpl. lia.
  - destruct (holder c) as [|th|] eqn:Hh; try done. destruct sh_lock as (g3 & Hg3 & Hv3).
    exists g3. split; [|done].
    rewrite !lookup_insert_ne; [done| |]; intros ->; congruence.
  - intros Hcl%clean_mono q. unfold nsleep, nwake.
    rewrite (msum_new (fun x => b2z (sleeps_on q x))) by (by rewrite lookup_insert_ne).
    rewrite (msum_new (fun x => b2z (wakes_on q x))) by (by rewrite lookup_insert_ne).
    simpl b2z. rewrite !Z.add_0_l.
    apply (wake_ok_run Σ s0 cr _ t o p o (k 0) HT). by apply sh_wake.
Qed.

Lemma good_ret r :
  p = Ret r -> wpg M Σ o (Ret r) g -> forall a v, Good tr (step_run M t a v o (Ret r) c).
Proof using Hc HT HG V.
  intros Hp Hwp a v. unfold wpg in Hwp. cbn [step_run wp] in *.
  destruct Hwp as (Hv & Hn & Hw & Hlin & Herr). rewrite Hp in HT.
  destruct (loc_del M Σ o0 _ _ _ _ _ _ t o r g (ci_loc _ _ _ _ _ _ _ _ Hc) HT HG Hlin Herr)
    as [log' Hl].
  unfold good. exists (delete t G), ab, log'. split; [exact Hl|].
  pose proof (cinv_wf _ _ _ _ _ _ _ _ _ _ Hc HG) as [_ Hwf].
  unfold back, backw in Hn, Hw.
  assert (clean (tr ++ [LRes t o r]) = true -> clean tr = true) as Hcl by apply clean_mono.
  assert (forall s0 cr, wake_ok Σ s0 cr (threads c) -> wake_ok Σ s0 cr (delete t (threads c))) as Hwk.
  { intros s0 cr H q. unfold nsleep, nwake.
    rewrite (msum_delete (fun x => b2z (sleeps_on q x)) _ _ _ HT).
    rewrite (msum_delete (fun x => b2z (wakes_on q x)) _ _ _ HT). simpl b2z.
    rewrite !Z.sub_0_r. apply H. }
  destruct (gv g) as [|s0 s cr|s rs z b|] eqn:Hvg; try done.
  - destruct (phase_shared M Σ _ _ _ _ _ _ (ci_phase _ _ _ _ _ _ _ _ Hc) HG)
      as (s0 & cr & Hs); [by eapply cinv_wf|by rewrite Hvg|].
    left. exists s0, cr. pose proof Hs as [].
    destruct (on_handle M o) as [d|]; [|lia]. destruct (consumes M o); [lia|].
    split; simpl; try done; try lia; eauto.
    + rewrite (msum_delete _ _ _ _ HG). lia.
    + intros t' g' s' rs z b [_ Hg]%lookup_delete_Some. by eapply sh_noexcl.
    + unfold wsum1 in *. rewrite (msum_delete _ _ _ _ HG), Hw. lia.
    + unfold wsum2 in *. rewrite (msum_delete _ _ _ _ HG), Hw. lia.
    + destruct (holder c) as [|th|]; try done. destruct sh_lock as (g3 & Hg3 & Hv3).
      exists g3. rewrite lookup_delete_ne; [done|]. intros ->. congruence.
  - destruct (phase_excl M Σ _ _ _ _ _ _ _ _ _ _ (ci_phase _ _ _ _ _ _ _ _ Hc) HG Hvg)
      as ([] & -> & Hal & ->).
    assert (match on_handle M o with
            | Some d => if consumes M o then idle c else d :: idle c
            | None => idle c end = []) as Hid.
    { rewrite ex_idle. destruct (on_handle M o); [|done]. destruct (consumes M o); [done|lia]. }
    right. right. split; simpl; try done; try congruence.
    intros t' g' [Ht Hg]%lookup_delete_Some. eauto.
  - assert (match on_handle M o with
            | Some d => if consumes M o then idle c else d :: idle c
            | None => idle c end = idle c) as Hid.
    { destruct (on_handle M o); [|done]. destruct (consumes M o); [done|lia]. }
    destruct Hwf as [Hn0 Hw0].
    destruct (ci_phase _ _ _ _ _ _ _ _ Hc) as [(s0 & cr & Hs)|[(t' & b & [])|[]]].
    + left. exists s0, cr. pose proof Hs as [].
      split; simpl; rewrite ?Hid; try done; try lia; eauto.
      * rewrite (msum_delete _ _ _ _ HG). lia.
      * intros t' g' s' rs z b [_ Hg]%lookup_delete_Some. by eapply sh_noexcl.
      * unfold wsum1 in *. rewrite (msum_delete _ _ _ _ HG), Hw0. simpl. lia.
      * unfold wsum2 in *. rewrite (msum_delete _ _ _ _ HG), Hw0. simpl. lia.
      * destruct (holder c) as [|th|]; try done. destruct sh_lock as (g3 & Hg3 & Hv3).
        exists g3. rewrite lookup_delete_ne; [done|]. intros ->. congruence.
    + right. left. exists t', b. destruct ex_self as (g1 & Hg1 & Hv1).
      split; simpl; rewrite ?Hid; try done.
      * exists g1. rewrite lookup_delete_ne; [done|]. intros ->. congruence.
      * intros t1 g2 Ht [_ Hg]%lookup_delete_Some. eauto.
    + right. right. split; simpl; rewrite ?Hid; try done.
      intros t1 g2 [_ Hg]%lookup_delete_Some. eauto.
Qed.

Lemma good_oscall k :
  wpg M Σ o (OsCall k) g -> forall a v, Good tr (step_run M t a v o (OsCall k) c).
Proof using Hc HT HG V.
  intros [Hk Hko] a v. cbn [step_run]. destruct (Z.eqb_spec a 0) as [->|Ha].
  - eapply good_quiet0; eauto using own_nil.
  - eapply good_failed; eauto. unfold note_st. rewrite (proj2 (Z.eqb_neq _ _) Ha). auto.
Qed.

Lemma good_run (a : Z) (v : tid) :
  wpg M Σ o p g -> Good tr (step_run M t a v o p c).
Proof using Hc HT HG V.
  enough (forall p0, p = p0 -> wpg M Σ o p0 g -> Good tr (step_run M t a v o p0 c)) by auto.
  intros p0 Hp Hwp.
  destruct p0 as [r| |m k|m k|m k|m k|z k|k|k|k|f k|f k|k|k|q k|q k|f q oe k|q k|d k|o' k|k|e k|l].
  - by eapply good_ret.
  - done.
  - eapply good_alloc; eauto.
  - eapply good_free; eauto.
  - eapply good_init; eauto.
  - eapply good_destroy; eauto.
  - eapply good_refstore; eauto.
  - eapply good_refinc; eauto.
  - eapply good_refdec; eauto.
  - unfold wpg in Hwp. cbn [step_run wp] in *.
    destruct (gv g) as [|s0 s cr|s rs z b|] eqn:Hv; try done.
    + destruct (shared_facts M Σ o0 V c tr G ab log t g Hc HG) as
        (s0 & cr & [] & _ & _ & _ & Hcore & _); [by rewrite Hv|].
      apply good_guard; [done|]. eapply good_quiet0; eauto using own_nil.
      simpl. rewrite Hv, <- sh_imm. by apply Hwp.
    + destruct (shared_facts M Σ o0 V c tr G ab log t g Hc HG) as
        (_ & _ & _ & _ & _ & _ & Hcore & _); [by rewrite Hv|].
      destruct (in_facts M Σ o0 V c tr G ab log t g Hc HG _ _ _ Hv) as (_ & Hs & _).
      apply good_guard; [done|]. eapply good_quiet0; eauto using own_nil.
      simpl. by rewrite Hv, Hs.
    + destruct (excl_facts M Σ o0 c tr G ab log t o p g Hc HT HG _ _ _ _ Hv)
        as (Hsh & Hs & Ha & Hz & Hm & _). destruct Hwp as [Hin Hk].
      apply good_guard. { by rewrite Hm, bool_decide_true. }
      eapply good_quiet0; eauto using own_nil. simpl. by rewrite Hv, Hs.
  - eapply good_access; eauto.
  - eapply good_quiet; eauto using own_nil.
  - eapply good_lock; eauto.
  - eapply good_unlock; eauto.
  - eapply good_signal; eauto.
  - eapply good_broadcast; eauto.
  - eapply good_waitwhile; eauto.
  - eapply good_condwait; eauto.
  - eapply good_wrap; eauto.
  - eapply good_spawn; eauto.
  - eapply good_oscall; eauto.
  - eapply good_quiet0; eauto. by repeat constructor.
  - eapply good_quiet0; eauto using own_nil. simpl. by apply (v_loop _ _ _ V).
Qed.
End rule.

(** *** The other scheduling decisions *)

(** A woken thread reacquires the mutex. *)
Lemma good_reacquire c tr G ab log t o q st k :
  cinv M Σ o0 c tr G ab log -> threads c !! t = Some (o, Wake q st k) ->
  holder c = Unlocked -> Good tr (cont t o (k st) [] (with_holder (Held t) c)).
Proof using V.
  intros Hc HT Hu. destruct (tok_ghost M Σ o0 _ _ _ _ _ _ _ Hc HT) as (g & HG & Htok).
  unfold tok in Htok. simpl in Htok. destruct Htok as [Hv Hk].
  pose proof (cinv_wf _ _ _ _ _ _ _ _ _ _ Hc HG) as Hwf.
  destruct (phase_shared M Σ _ _ _ _ _ _ (ci_phase _ _ _ _ _ _ _ _ Hc) HG Hwf)
    as (s0 & cr & Hs); [by rewrite Hv|].
  pose proof Hs as []. rewrite Hu in sh_lock. destruct sh_lock as [Hc0 Hcr].
  unfold good, cont.
  set (g' := Ghost (In s0 s0 (woken q)) (gn g) (gw g) (gl g) (ge g)).
  destruct (cinv_thread M Σ o0 c tr G ab log (put t o (Run (k st)) (with_holder (Held t) c))
    (threads c) t o (Wake q st k) (Run (k st)) g g' [] ab) as [log' ?]; eauto using waked_refl; try done.
  - unfold tok, wpg. simpl. apply Hk; [done|]. by eapply shared_weight.
  - unfold gwf in *. by rewrite Hv in Hwf.
  - intros t' _ Hx. congruence.
  - left. exists s0, (woken q).
    eapply (shared_upd M Σ c G ab (clean tr) s0 cr _ t g g' ab _ s0 _); simpl; eauto; try done.
    + exists g'. by rewrite lookup_insert_eq, Hc0.
    + intros Hcl%clean_mono q'. specialize (sh_wake Hcl q').
      rewrite (nsleep_insert _ _ _ _ _ HT), (nwake_insert _ _ _ _ _ HT).
      unfold sleeps_on, wakes_on. simpl. rewrite !Z.sub_0_r, !Z.add_0_r. intros Hq.
      destruct (sh_wake Hq) as (z & z0 & Hz & Hz0 & Hle). rewrite Hcr in Hz. injection Hz as <-.
      unfold woken, set_cr. destruct (decide (q' = q)) as [->|Hne].
      * exists (-1), z0. rewrite bool_decide_true by done. simpl. split_and_all; [done|done|lia].
      * exists 0, z0. rewrite bool_decide_false by congruence. simpl. split_and_all; [done|done|lia].
  - constructor.
  - left. auto.
Qed.

(** A wait ends without a signal. *)
Lemma good_spurious c tr G ab log t o q k a :
  cinv M Σ o0 c tr G ab log -> threads c !! t = Some (o, Sleep q k) ->
  Good tr (Go (put t o (Wake q a k) c, failed t a)).
Proof using V.
  intros Hc HT. destruct (tok_ghost M Σ o0 _ _ _ _ _ _ _ Hc HT) as (g & HG & Htok).
  unfold tok in Htok. simpl in Htok. destruct Htok as [Hv Hk].
  pose proof (cinv_wf _ _ _ _ _ _ _ _ _ _ Hc HG) as Hwf.
  unfold good.
  set (g' := Ghost (gv g) (gn g) (gw g) (gl g) (note_st (ge g) a)).
  destruct (cinv_thread M Σ o0 c tr G ab log (put t o (Wake q a k) c)
    (threads c) t o (Sleep q k) (Wake q a k) g g' (failed t a) ab)
    as [log' ?]; eauto using waked_refl, own_failed; try done.
  - unfold tok. simpl. split; [done|]. intros s Hs Hle. by apply Hk.
  - simpl. intros s0 s cr. congruence.
  - eapply (phase_quiet M Σ c); eauto using ci_phase, clean_mono; try done.
    intros s0 cr _ Hw q'. simpl threads.
    rewrite (nsleep_insert _ _ _ _ _ HT), (nwake_insert _ _ _ _ _ HT).
    unfold sleeps_on, wakes_on. simpl. intros Hq.
    destruct (Hw q') as (z & z0 & ? & ? & ?); [destruct (bool_decide (q = q')); simpl in *; lia|].
    exists z, z0. split_and_all; try done. destruct (bool_decide (q = q')); simpl; lia.
  - by rewrite failed_note.
  - left. auto.
Qed.

Lemma good_invoke c tr G ab log t o :
  cinv M Σ o0 c tr G ab log -> Good tr (step M (CInvoke t o) c).
Proof using V.
  intros Hc. cbn [step]. destruct (client M o) eqn:Hcl; [|done]. simpl.
  case_bool_decide as Hdom; [done|]. apply not_elem_of_dom in Hdom.
  assert (G !! t = None) as HGt by (by eapply no_ghost).
  assert (forall s0 cr, wake_ok Σ s0 cr (threads c) ->
            wake_ok Σ s0 cr (<[t := (o, Run (body M o))]> (threads c))) as Hwk.
  { intros s0 cr H q. unfold nsleep, nwake.
    rewrite (msum_new (fun x => b2z (sleeps_on q x))) by done.
    rewrite (msum_new (fun x => b2z (wakes_on q x))) by done.
    simpl b2z. rewrite !Z.add_0_l. apply H. }
  destruct (on_handle M o) as [d|] eqn:Ho.
  - destruct (take_one d (idle c)) as [l|] eqn:Htk; [|done]. apply take_one_perm in Htk.
    set (g := Ghost (Out (S:=S)) 1 (kw Σ d) None None).
    unfold good, cont. exists (<[t := g]> G), ab, log. split.
    { apply (loc_add M Σ o0 _ _ _ _ _ _ t o (Run (body M o)) g (ci_loc _ _ _ _ _ _ _ _ Hc)); try done.
      - by apply (v_handle _ _ _ V).
      - split; [apply (v_kw _ _ _ V)|split; [done|apply (v_kw _ _ _ V)]]. }
    destruct (ci_phase _ _ _ _ _ _ _ _ Hc) as [(s0 & cr & Hs)|[(t' & b & [])|[]]].
    2,3: by (rewrite ex_idle in Htk || rewrite en_idle in Htk); apply Permutation_nil_cons in Htk.
    left. exists s0, cr. pose proof Hs as [].
    rewrite Htk in sh_refs, sh_cnt1, sh_cnt2. simpl in sh_refs, sh_cnt1, sh_cnt2.
    split; simpl; try done.
    + rewrite msum_new by done. simpl. lia.
    + intros t' g' s' rs z b. rewrite lookup_insert_Some.
      intros [[_ <-]|[_ Hg]]; [done|]. by eapply sh_noexcl.
    + unfold wsum1 in *. rewrite msum_new by done. simpl. lia.
    + unfold wsum2 in *. rewrite msum_new by done. simpl. lia.
    + destruct (holder c) as [|th|] eqn:Hh; try done. destruct sh_lock as (g3 & Hg3 & Hv3).
      exists g3. split; [|done]. rewrite lookup_insert_ne; [done|]. intros ->. congruence.
    + intros Hcl'%clean_mono. auto.
  - set (g := Ghost (Gone (S:=S)) 0 w0 None None).
    unfold good, cont. exists (<[t := g]> G), ab, log. split.
    { apply (loc_add M Σ o0 _ _ _ _ _ _ t o (Run (body M o)) g (ci_loc _ _ _ _ _ _ _ _ Hc)); try done.
      by apply (v_static _ _ _ V). }
    destruct (ci_phase _ _ _ _ _ _ _ _ Hc) as [(s0 & cr & Hs)|[(t' & b & [])|[]]].
    + left. exists s0, cr. pose proof Hs as [].
      split; simpl; try done.
      * rewrite msum_new by done. simpl. lia.
      * intros t' g' s' rs z b. rewrite lookup_insert_Some.
        intros [[_ <-]|[_ Hg]]; [done|]. by eapply sh_noexcl.
      * unfold wsum1 in *. rewrite msum_new by done. simpl. lia.
      * unfold wsum2 in *. rewrite msum_new by done. simpl. lia.
      * destruct (holder c) as [|th|] eqn:Hh; try done. destruct sh_lock as (g3 & Hg3 & Hv3).
        exists g3. split; [|done]. rewrite lookup_insert_ne; [done|]. intros ->. congruence.
      * intros Hcl'%clean_mono. auto.
    + right. left. exists t', b. destruct ex_self as (g1 & Hg1 & Hv1). split; simpl; try done.
      * exists g1. rewrite lookup_insert_ne; [done|]. intros ->. congruence.
      * intros t1 g2 Ht. rewrite lookup_insert_Some. intros [[_ <-]|[_ Hg]]; eauto.
    + right. right. split; simpl; try done.
      intros t1 g2. rewrite lookup_insert_Some. intros [[_ <-]|[_ Hg]]; eauto.
Qed.

Lemma good_step c tr G ab log x :
  cinv M Σ o0 c tr G ab log -> Good tr (step M x c).
Proof using V.
  intros Hc. destruct x as [t o|t a v|t a]; [by eapply good_invoke| |]; cbn [step].
  - destruct (threads c !! t) as [[o [p|q k|q st k]]|] eqn:HT; try done.
    + destruct (tok_ghost M Σ o0 _ _ _ _ _ _ _ Hc HT) as (g & HG & Htok).
      by eapply good_run.
    + case_bool_decide; [|done]. by eapply good_reacquire.
  - destruct (threads c !! t) as [[o [p|q k|q st k]]|] eqn:HT; try done.
    by eapply good_spurious.
Qed.

Lemma start_cinv h :
  cinv M Σ o0 (start M o0 h) [] {[ 0%nat := Ghost (Excl (zeroed M) [] 0 false) 0 w0 None None ]} None [].
Proof using V.
  split.
  - split; simpl.
    + intros t. destruct (decide (t = 0%nat)) as [->|Ht].
      * rewrite !lookup_singleton_eq. constructor. apply (v_ctor _ _ _ V).
      * rewrite !lookup_singleton_ne by done. constructor.
    + intros t g [<- <-]%lookup_singleton_Some. done.
    + intros t g s0 s cr [<- <-]%lookup_singleton_Some. done.
    + intros t g [<- <-]%lookup_singleton_Some. done.
    + replace (pend _ _) with ({[0%nat := (o0, None)]} : gmap tid (sO S * option (sR S)));
        [constructor|]. apply map_eq. intros t. rewrite lookup_pend.
      destruct (decide (t = 0%nat)) as [->|Ht]; [by rewrite !lookup_singleton_eq|].
      by rewrite !lookup_singleton_ne.
    + intros tr1 t o r tr2. by destruct tr1.
  - right. left. exists 0%nat, false. split; simpl; try done.
    + eexists. by rewrite lookup_singleton_eq.
    + intros t' g Ht [<- _]%lookup_singleton_Some. done.
Qed.

Theorem run_good h xs : Good [] (run M xs (start M o0 h, [])).
Proof using V.
  assert (forall xs c tr G ab log, cinv M Σ o0 c tr G ab log -> Good [] (run M xs (c, tr))) as H.
  { clear xs. induction xs as [|x xs IH]; intros c tr G ab log Hc; [simpl; eauto|].
    simpl. pose proof (good_step _ _ _ _ _ x Hc) as Hs.
    destruct (step M x c) as [[c' ls]| |]; [|done|done].
    simpl in *. destruct Hs as (G' & ab' & log' & Hc'). by eapply IH. }
  eapply H, start_cinv.
Qed.
End adequacy.
