(* ===== verification/Verified.v ===== *)
(** Verified: what the soundness theorem says about a verified component, in
    terms of reachable configurations only. *)
From stdpp Require Import base gmap list.
From Stdlib Require Import ZArith Lia.
From S2P Require Import Prelude Machine Logic Soundness Preservation Adequacy.

Section consequences.
Context {S : sig} {M : code S} {Σ : spec S} {o0 : sO S}.
Context (V : verified M Σ o0).
Implicit Types (c : config S) (tr : list (label S)).

(** No schedule, whatever the OS answers, leads to undefined behaviour. *)
Theorem verified_safe h : safe M o0 h.
Proof using V. intros xs Hf. pose proof (run_good M Σ o0 V h xs) as H. by rewrite Hf in H. Qed.

Lemma verified_cinv h c tr :
  reachable M o0 h c tr -> exists G ab log, cinv M Σ o0 c tr G ab log.
Proof using V.
  intros [xs Hxs]. pose proof (run_good M Σ o0 V h xs) as H. rewrite Hxs in H. exact H.
Qed.

(** The core as others see it: the snapshot taken when the mutex was
    acquired, or the fields themselves when it is free. *)
Definition free (c : config S) : Prop := shared c = true /\ forall t, holder c <> Held t.

Lemma free_phase c tr G ab log :
  cinv M Σ o0 c tr G ab log -> free c ->
  exists cr, shared_phase M Σ c G ab (clean tr) (core c) cr /\ forall q, cr q = Some 0.
Proof using V.
  intros Hc [Hsh Hh].
  destruct (ci_phase _ _ _ _ _ _ _ _ Hc) as [(s0 & cr & Hs)|[(t & b & [])|[]]]; [|congruence..].
  pose proof (sh_lock _ _ _ _ _ _ _ _ Hs) as Hl.
  destruct (holder c) as [|th|] eqn:E; [|by destruct (Hh th)|]; destruct Hl as [<- Hcr]; eauto.
Qed.

(** Linearisability: calls and returns are those of the atomic object, whose
    state is read off the core whenever the mutex is free. *)
Theorem verified_atomic h c tr :
  reachable M o0 h c tr ->
  exists log a P, aexec Σ o0 (filter (fun l => visible l = true) tr) log a P /\
    (free c -> a = Some (abs Σ (core c))).
Proof using V.
  intros (G & ab & log & Hc)%verified_cinv. exists log, ab, (pend (threads c) G).
  split; [apply Hc|]. intros Hf. destruct (free_phase _ _ _ _ _ Hc Hf) as (cr & Hs & _).
  apply Hs.
Qed.

(** The lock invariant and the counters. *)
Theorem verified_inv h c tr : reachable M o0 h c tr -> free c -> inv Σ (core c).
Proof using V.
  intros (G & ab & log & Hc)%verified_cinv Hf.
  destruct (free_phase _ _ _ _ _ Hc Hf) as (cr & Hs & _). apply Hs.
Qed.

Theorem verified_quiescent h c tr :
  reachable M o0 h c tr -> shared c = true -> threads c = ∅ ->
  inv Σ (core c) /\ alive c = full Σ /\ refs c = Z.of_nat (length (idle c)) /\ 0 < refs c /\
  (cnt Σ (core c)).1 = lsum (fun d => (kw Σ d).1) (idle c) /\
  lsum (fun d => (kw Σ d).2) (idle c) <= (cnt Σ (core c)).2.
Proof using V.
  intros (G & ab & log & Hc)%verified_cinv Hsh HT.
  assert (G = ∅) as ->.
  { apply map_empty. intros t. eapply no_ghost; eauto. by rewrite HT. }
  assert (free c) as Hf.
  { split; [done|]. intros t Ht.
    destruct (ci_phase _ _ _ _ _ _ _ _ Hc) as [(s0 & cr & [])|[(t' & b & [])|[]]]; try congruence.
    rewrite Ht in sh_lock. by destruct sh_lock as (? & ? & _). }
  destruct (free_phase _ _ _ _ _ Hc Hf) as (cr & [] & _).
  unfold wsum1, wsum2 in *. rewrite msum_empty in *. split_and_all; try done; lia.
Qed.

(** Nothing leaks: without handles and running operations, everything the
    core owned has been released; and while a handle is left, nothing has. *)
Theorem verified_released h c tr :
  reachable M o0 h c tr -> threads c = ∅ -> idle c = [] -> alive c = [].
Proof using V.
  intros Hr HT Hi. destruct (shared c) eqn:Hsh.
  - destruct (verified_quiescent h c tr Hr Hsh HT) as (_ & _ & H1 & H2 & _).
    rewrite Hi in H1. simpl in H1. lia.
  - apply verified_cinv in Hr as (G & ab & log & Hc).
    destruct (ci_phase _ _ _ _ _ _ _ _ Hc) as [(s0 & cr & [])|[(t & b & [])|[]]]; try congruence.
    destruct ex_self as (g & Hg & _). rewrite (no_ghost M Σ o0 c tr G ab log t Hc) in Hg; [done|].
    by rewrite HT.
Qed.

Theorem verified_alive h c tr :
  reachable M o0 h c tr -> idle c <> [] -> shared c = true /\ alive c = full Σ.
Proof using V.
  intros (G & ab & log & Hc)%verified_cinv Hi.
  destruct (ci_phase _ _ _ _ _ _ _ _ Hc) as [(s0 & cr & [])|[(t & b & [])|[]]]; try done.
Qed.

(** Results report the first failure of the operation, and only failures abort. *)
Theorem verified_errors h c tr tr1 t o r tr2 :
  reachable M o0 h c tr -> tr = tr1 ++ LRes t o r :: tr2 -> errok Σ o r (first_failure tr1 t).
Proof using V.
  intros (G & ab & log & Hc)%verified_cinv Htr.
  by eapply (cl_err _ _ _ _ _ _ _ _ _ (ci_loc _ _ _ _ _ _ _ _ Hc)).
Qed.

Theorem verified_abort h c tr t o :
  reachable M o0 h c tr -> threads c !! t = Some (o, Run Abort) ->
  first_failure tr t <> None \/ abortok Σ o.
Proof using V.
  intros (G & ab & log & Hc)%verified_cinv HT.
  destruct (tok_ghost M Σ o0 _ _ _ _ _ _ _ Hc HT) as (g & HG & Htok).
  unfold tok, wpg in Htok. simpl in Htok.
  by rewrite (cl_fail _ _ _ _ _ _ _ _ _ (ci_loc _ _ _ _ _ _ _ _ Hc) _ _ HG) in Htok.
Qed.

(** No wake-up is lost: as long as no OS call fails, a thread sleeps on a
    condition variable only if every thread that could go on is being woken. *)
Theorem verified_wakeups h c tr t o q k :
  reachable M o0 h c tr -> clean tr = true -> (forall t, holder c <> Held t) ->
  threads c !! t = Some (o, Sleep q k) ->
  exists z, slack Σ q (core c) = Some z /\ z <= nwake q (threads c).
Proof using V.
  intros (G & ab & log & Hc)%verified_cinv Hcl Hh HT.
  destruct (tok_ghost M Σ o0 _ _ _ _ _ _ _ Hc HT) as (g & HG & Htok).
  unfold tok in Htok. simpl in Htok. destruct Htok as [Hv _].
  destruct (phase_shared M Σ _ _ _ _ _ _ (ci_phase _ _ _ _ _ _ _ _ Hc) HG)
    as (s0 & cr & Hs); [by eapply cinv_wf|by rewrite Hv|].
  destruct (free_phase _ _ _ _ _ Hc) as (cr' & Hs' & Hcr); [split; [apply Hs|done]|].
  destruct (sh_wake _ _ _ _ _ _ _ _ Hs' Hcl q) as (z & z0 & Hz & Hz0 & Hle).
  - assert (1 <= nsleep q (threads c)); [|lia].
    transitivity (b2z (sleeps_on (S:=S) q (o, Sleep q k))).
    + unfold sleeps_on. simpl. by rewrite bool_decide_true.
    + apply (msum_ge (fun x => b2z (sleeps_on q x)) _ t); [|done].
      intros ? x _. destruct (sleeps_on q x); simpl; lia.
  - rewrite Hcr in Hz. injection Hz as <-. exists z0. split; [done|lia].
Qed.

(** The mutex is held by a running thread only. *)
Lemma holder_runs c tr G ab log t :
  cinv M Σ o0 c tr G ab log -> holder c = Held t ->
  exists o p g s0 s cr, threads c !! t = Some (o, Run p) /\ G !! t = Some g /\
    gv g = In s0 s cr /\ wpg M Σ o p g.
Proof using V.
  intros Hc Hh.
  destruct (ci_phase _ _ _ _ _ _ _ _ Hc) as [(s0 & cr & [])|[(t' & b & [])|[]]];
    [|by destruct (ex_holder t)|by destruct (en_holder t)].
  rewrite Hh in sh_lock. destruct sh_lock as (g & HG & Hv).
  destruct (threads c !! t) as [[o ts]|] eqn:HT;
    [|by rewrite (no_ghost M Σ o0 c tr G ab log t Hc HT) in HG].
  destruct (tok_ghost M Σ o0 _ _ _ _ _ _ _ Hc HT) as (g' & HG' & Htok). simplify_eq.
  unfold tok in Htok. destruct ts as [p|q k|q st k]; simpl in Htok.
  - eauto 10.
  - destruct Htok. congruence.
  - destruct Htok. congruence.
Qed.

(** Critical sections end: the holder can always run, on its own and with
    every OS call succeeding, until it has given the mutex up (or aborted,
    or the reference count is at its bound). *)
Context (Hloops : forall o lb v n w l e s0 s cr, linv Σ o lb v n w l e -> v <> In s0 s cr).

Definition ends_section (t : tid) (c : config S) : Prop :=
  holder c <> Held t \/ (exists o, threads c !! t = Some (o, Run Abort)) \/ MAX_REFS <= refs c.

Definition releases (t : tid) (c : config S) (tr : list (label S)) : Prop :=
  exists vs c' tr', run M (map (CStep t 0) vs) (c, tr) = Go (c', tr') /\ ends_section t c'.

Lemma nobody_sleeps_false q c :
  nobody_sleeps q c = false -> exists v o k, threads c !! v = Some (o, Sleep q k).
Proof using Type.
  unfold nobody_sleeps. rewrite bool_decide_eq_false. intros H.
  apply map_not_Forall in H as (v & [o ts] & Hv & Hs); [|intros; apply _].
  unfold sleeps_on in Hs. destruct ts as [p|q' k|q' st k]; simpl in Hs; try done.
  case_bool_decide; [|done]. subst. eauto.
Qed.

Lemma releases_step c tr t v c' ls :
  step M (CStep t 0 v) c = Go (c', ls) -> releases t c' (tr ++ ls) -> releases t c tr.
Proof using Type.
  intros Hs (vs & c2 & tr2 & Hr & He). exists (v :: vs), c2, tr2. split; [|done].
  cbn [map run]. cbn [fst snd]. rewrite Hs. done.
Qed.

(** The holder's next step, taken with status 0. *)
Lemma releases_cont c tr G ab log t o p v c' p' ls :
  cinv M Σ o0 c tr G ab log -> threads c !! t = Some (o, Run p) -> holder c = Held t ->
  step_run M t 0 v o p c = cont t o p' ls c' -> holder c' = Held t ->
  (forall c tr G ab log t o, cinv M Σ o0 c tr G ab log -> threads c !! t = Some (o, Run p') ->
     holder c = Held t -> releases t c tr) ->
  releases t c tr.
Proof using V.
  intros Hc HT Hh Hs Hh' IH.
  pose proof (good_step M Σ o0 V c tr G ab log (CStep t 0 v) Hc) as Hg.
  assert (step M (CStep t 0 v) c = Go (put t o (Run p') c', ls)) as Hst.
  { cbn [step]. by rewrite HT, Hs. }
  rewrite Hst in Hg. destruct Hg as (G' & ab' & log' & Hc').
  eapply releases_step; [exact Hst|]. eapply IH; [exact Hc'| |done].
  simpl. apply lookup_insert_eq.
Qed.

(** A step of the holder is never undefined behaviour. *)
Lemma holder_nofault c tr G ab log t o p v :
  cinv M Σ o0 c tr G ab log -> threads c !! t = Some (o, Run p) ->
  step_run M t 0 v o p c <> Fault.
Proof using V.
  intros Hc HT Hf. pose proof (good_step M Σ o0 V c tr G ab log (CStep t 0 v) Hc) as Hg.
  cbn [step] in Hg. rewrite HT, Hf in Hg. done.
Qed.

Lemma guard_true {A} b (x : outcome A) : guard b x <> Fault -> b = true.
Proof using Type. by destruct b. Qed.

Ltac holder_step v Hgd :=
  match goal with
  | Hc : cinv _ _ _ ?c _ _ _ _, HT : threads ?c !! _ = Some (_, Run _), Hh : holder ?c = _ |- _ =>
      eapply (releases_cont _ _ _ _ _ _ _ _ v); [exact Hc|exact HT|exact Hh| | |];
      [ cbn [step_run];
        try match type of Hgd with _ = _ => rewrite Hgd; cbn [guard negb Z.eqb] end;
        repeat match goal with
               | H : ?x = _ |- context [match ?x with _ => _ end] =>
                   rewrite H; cbv beta iota
               end;
        reflexivity
      | exact Hh
      | eauto ]
  end.

Lemma holder_releases p : forall c tr G ab log t o,
  cinv M Σ o0 c tr G ab log -> threads c !! t = Some (o, Run p) -> holder c = Held t ->
  releases t c tr.
Proof using V Hloops.
  assert (forall c tr t, ends_section t c -> releases t c tr) as Hdone.
  { intros c tr t H. by exists [], c, tr. }
  induction p as [r| |m k IH|m k IH|m k IH|m k IH|z k IH|k IH|k IH|k IH|f k IH|f k IH|k IH|k IH|
                  q k IH|q k IH|f q oe IHe k IH|q k IH|d k IH|o' k IH|k IH|e k IH|l];
    intros c tr G ab log t o Hc HT Hh;
    destruct (holder_runs _ _ _ _ _ _ Hc Hh) as (o1 & p1 & g & s0 & s & cr & HT' & HG & Hv & Hwp);
    rewrite HT in HT'; injection HT' as <- <-;
    unfold wpg in Hwp; cbn [wp] in Hwp; try rewrite Hv in Hwp; try done;
    try (by destruct Hwp);
    pose proof (fun v => holder_nofault c tr G ab log t o _ v Hc HT) as Hnf;
    cbn [step_run] in Hnf;
    try (pose proof (guard_true _ _ (Hnf 0%nat)) as Hgd; clear Hnf).
  - (* Abort *) apply Hdone. right. left. eauto.
  - (* RefInc *)
    destruct (refs c <? MAX_REFS) eqn:Hlt.
    + holder_step 0%nat Hgd.
    + apply Hdone. right. right. by apply Z.ltb_ge.
  - (* ReadImm *) holder_step 0%nat Hgd.
  - (* Access *)
    destruct (f (core c)) as [s'|] eqn:Hf.
    2:{ destruct (holder_nofault _ _ _ _ _ _ _ _ 0%nat Hc HT). cbn [step_run]. rewrite Hf.
        by destruct (may_access t c). }
    holder_step 0%nat Hgd.
  - (* Hook *) holder_step 0%nat I.
  - (* Unlock *)
    eapply (releases_step _ _ _ 0%nat).
    + cbn [step]. rewrite HT. cbn [step_run]. rewrite Hgd. reflexivity.
    + apply Hdone. left. simpl. congruence.
  - (* Signal *)
    destruct (nobody_sleeps q c) eqn:Hno.
    + holder_step 0%nat Hgd.
    + destruct (nobody_sleeps_false _ _ Hno) as (v & o' & k' & Hv').
      assert (bool_decide (q = q) = true) as Hqq by (by apply bool_decide_true).
      holder_step v Hgd.
  - (* Broadcast *) holder_step 0%nat Hgd.
  - (* WaitWhile *)
    destruct (f (core c)) eqn:Hf.
    + eapply (releases_step _ _ _ 0%nat).
      * cbn [step]. rewrite HT. cbn [step_run]. rewrite Hgd, Hf. reflexivity.
      * apply Hdone. left. simpl. congruence.
    + holder_step 0%nat Hgd.
  - (* CondWait *)
    eapply (releases_step _ _ _ 0%nat).
    + cbn [step]. rewrite HT. cbn [step_run]. rewrite Hgd. reflexivity.
    + apply Hdone. left. simpl. congruence.
  - (* OsCall *) holder_step 0%nat I.
  - (* Emit *) holder_step 0%nat I.
  - (* Jump *)
    by destruct (Hloops _ _ _ _ _ _ _ s0 s cr Hwp).
Qed.

Theorem verified_releases h c tr t :
  reachable M o0 h c tr -> holder c = Held t -> releases t c tr.
Proof using V Hloops.
  intros (G & ab & log & Hc)%verified_cinv Hh.
  destruct (holder_runs _ _ _ _ _ _ Hc Hh) as (o & p & g & s0 & s & cr & HT & _).
  by eapply holder_releases.
Qed.
End consequences.
