(* ===== verification/Ring.v ===== *)
(** Ring: the circular buffer both channels and the thread pool keep in their
    core: [slots] (an array of pointers, [None] is NULL), [head], [tail],
    [count] and [capacity], and the queue it represents. *)
From stdpp Require Import base list.
From Stdlib Require Import ZArith Lia.
From S2P Require Import Prelude.

(** The successor of an index, [(index + 1) % capacity] in [int32_t]. *)
Definition ring_next (capacity index : Z) : option Z :=
  next ← i32 (index + 1);
  if capacity =? 0 then None else Some (Z.rem next capacity).

Section ring.
Context {A : Type}.
Implicit Types (slots : list (option A)).

(** The array index of the [i]-th queued element. *)
Definition ring_at (capacity head : Z) (i : nat) : nat :=
  Z.to_nat ((head + Z.of_nat i) mod capacity).

(** The queue the buffer represents, oldest element first. *)
Definition contents slots (capacity head count : Z) : list A :=
  omap (fun i => mjoin (slots !! ring_at capacity head i)) (seq 0 (Z.to_nat count)).

(** Exactly the [count] slots from [head] on are occupied. *)
Record ring_ok slots (capacity head tail count : Z) : Prop := RingOk {
  ro_cap : 0 < capacity <= INT32_MAX;
  ro_len : Z.of_nat (length slots) = capacity;
  ro_head : 0 <= head < capacity;
  ro_count : 0 <= count <= capacity;
  ro_tail : tail = (head + count) mod capacity;
  ro_full : forall i, Z.of_nat i < count -> exists x, slots !! ring_at capacity head i = Some (Some x);
  ro_free : forall i, count <= Z.of_nat i < capacity -> slots !! ring_at capacity head i = Some None;
}.

Lemma ring_next_ok capacity index :
  0 < capacity <= INT32_MAX -> 0 <= index < capacity ->
  ring_next capacity index = Some ((index + 1) mod capacity).
Proof.
  intros Hc Hi. unfold ring_next. rewrite i32_some by (unfold INT32_MIN; lia). simpl.
  rewrite (proj2 (Z.eqb_neq _ _)) by lia. by rewrite Z.rem_mod_nonneg by lia.
Qed.

Lemma ring_at_lt capacity head i : 0 < capacity -> (ring_at capacity head i < Z.to_nat capacity)%nat.
Proof. intros H. unfold ring_at. pose proof (Z.mod_pos_bound (head + Z.of_nat i) capacity H). lia. Qed.

Lemma ring_at_inj capacity head i j :
  0 < capacity -> Z.of_nat i < capacity -> Z.of_nat j < capacity ->
  ring_at capacity head i = ring_at capacity head j -> i = j.
Proof.
  unfold ring_at. intros Hc Hi Hj H.
  pose proof (Z.mod_pos_bound (head + Z.of_nat i) capacity Hc).
  pose proof (Z.mod_pos_bound (head + Z.of_nat j) capacity Hc).
  pose proof (Z.div_mod (head + Z.of_nat i) capacity ltac:(lia)).
  pose proof (Z.div_mod (head + Z.of_nat j) capacity ltac:(lia)).
  assert ((head + Z.of_nat i) / capacity = (head + Z.of_nat j) / capacity); nia.
Qed.

(** Moving [head] forward by one shifts the positions. *)
Lemma ring_at_next capacity head i :
  0 < capacity -> ring_at capacity ((head + 1) mod capacity) i = ring_at capacity head (S i).
Proof.
  intros Hc. unfold ring_at. f_equal. rewrite Z.add_mod_idemp_l by lia. f_equal. lia.
Qed.

Lemma ring_at_tail capacity head tail count :
  0 <= count -> tail = (head + count) mod capacity ->
  Z.to_nat tail = ring_at capacity head (Z.to_nat count).
Proof. intros Hc ->. unfold ring_at. by rewrite Z2Nat.id. Qed.

Lemma ring_at_head capacity head : 0 <= head < capacity -> ring_at capacity head 0 = Z.to_nat head.
Proof. intros H. unfold ring_at. rewrite Z.add_0_r, Z.mod_small by lia. done. Qed.

(** The empty buffer. *)
Lemma ring_empty capacity :
  0 < capacity <= INT32_MAX ->
  ring_ok (replicate (Z.to_nat capacity) None) capacity 0 0 0.
Proof.
  intros Hc. split; try lia.
  - rewrite length_replicate. lia.
  - by rewrite Z.mod_0_l by lia.
  - intros i _. rewrite lookup_replicate. split; [done|]. apply ring_at_lt. lia.
Qed.

Lemma contents_empty slots capacity head : contents slots capacity head 0 = [].
Proof. done. Qed.

Lemma omap_ext_seq {B} (f g : nat -> option B) a n :
  (forall i, (a <= i < a + n)%nat -> f i = g i) -> omap f (seq a n) = omap g (seq a n).
Proof.
  revert a. induction n as [|n IH]; intros a H; [done|]. csimpl.
  rewrite (H a) by lia. rewrite (IH (S a)) by (intros; apply H; lia). done.
Qed.

Lemma omap_seq_shift {B} (f : nat -> option B) a n :
  omap f (seq (S a) n) = omap (fun i => f (S i)) (seq a n).
Proof. revert a. induction n as [|n IH]; intros a; [done|]. csimpl. by rewrite IH. Qed.

Lemma contents_length slots capacity head tail count :
  ring_ok slots capacity head tail count ->
  Z.of_nat (length (contents slots capacity head count)) = count.
Proof.
  intros [Hc _ _ Hn _ Hf _].
  assert (forall a n, (Z.of_nat (a + n) <= count) ->
    length (omap (fun i => mjoin (slots !! ring_at capacity head i)) (seq a n)) = n) as H.
  { intros a n. revert a. induction n as [|n IH]; intros a Ha; [done|]. simpl.
    destruct (Hf a) as [x Hx]; [lia|]. rewrite Hx. simpl. rewrite IH by lia. done. }
  unfold contents. rewrite H by lia. lia.
Qed.

Lemma omap_seq_lookup {B} (f : nat -> option B) a n i :
  (forall j, (a <= j < a + n)%nat -> is_Some (f j)) -> (i < n)%nat -> omap f (seq a n) !! i = f (a + i)%nat.
Proof.
  revert a i. induction n as [|n IH]; intros a i Hf Hi; [lia|]. simpl.
  destruct (Hf a) as [y Hy]; [lia|]. rewrite Hy. destruct i as [|i]; simpl.
  - by rewrite Nat.add_0_r, Hy.
  - rewrite IH by (intros; try apply Hf; lia). f_equal. lia.
Qed.

(** The [i]-th element of the queue is in its slot. *)
Lemma contents_lookup slots capacity head tail count i :
  ring_ok slots capacity head tail count -> Z.of_nat i < count ->
  contents slots capacity head count !! i = mjoin (slots !! ring_at capacity head i).
Proof.
  intros [Hc _ _ Hn _ Hf _] Hi. unfold contents. rewrite omap_seq_lookup; [done| |lia].
  intros j Hj. destruct (Hf j) as [x Hx]; [lia|]. rewrite Hx. by eexists.
Qed.

(** Enqueuing at [tail]. *)
Lemma ring_push slots capacity head tail count x :
  ring_ok slots capacity head tail count -> count < capacity ->
  0 <= tail < capacity /\
  ring_ok (<[Z.to_nat tail := Some x]> slots) capacity head ((tail + 1) mod capacity) (count + 1) /\
  contents (<[Z.to_nat tail := Some x]> slots) capacity head (count + 1) =
    contents slots capacity head count ++ [x].
Proof.
  intros [Hc Hl Hh Hn Ht Hf He] Hlt.
  assert (Z.to_nat tail = ring_at capacity head (Z.to_nat count)) as Hat by (apply ring_at_tail; [lia|done]).
  assert (ring_at capacity head (Z.to_nat count) < length slots)%nat as Hin.
  { pose proof (ring_at_lt capacity head (Z.to_nat count)). lia. }
  assert (forall i, Z.of_nat i < capacity -> i <> Z.to_nat count ->
    <[Z.to_nat tail := Some x]> slots !! ring_at capacity head i = slots !! ring_at capacity head i)
    as Hne.
  { intros i Hi Hni. rewrite Hat. apply list_lookup_insert_ne. intros E.
    apply ring_at_inj in E; lia. }
  assert (<[Z.to_nat tail := Some x]> slots !! ring_at capacity head (Z.to_nat count) = Some (Some x))
    as Heq by (rewrite Hat; by apply list_lookup_insert_eq).
  split; [rewrite Ht; apply Z.mod_pos_bound; lia|]. split.
  - split; try done; try lia.
    + by rewrite length_insert.
    + rewrite Ht, Z.add_mod_idemp_l by lia. f_equal. lia.
    + intros i Hi. destruct (decide (i = Z.to_nat count)) as [->|Hi']; [eauto|].
      rewrite Hne by lia. apply Hf. lia.
    + intros i Hi. rewrite Hne by lia. apply He. lia.
  - unfold contents. replace (Z.to_nat (count + 1)) with (Z.to_nat count + 1)%nat by lia.
    rewrite seq_app, omap_app. simpl. rewrite Heq. simpl. f_equal.
    apply omap_ext_seq. intros i Hi. rewrite Hne by lia. done.
Qed.

(** Dequeuing at [head]. *)
Lemma ring_pop slots capacity head tail count :
  ring_ok slots capacity head tail count -> 0 < count ->
  exists x, zget slots head = Some (Some x) /\
  ring_ok (<[Z.to_nat head := None]> slots) capacity ((head + 1) mod capacity) tail (count - 1) /\
  contents slots capacity head count =
    x :: contents (<[Z.to_nat head := None]> slots) capacity ((head + 1) mod capacity) (count - 1).
Proof.
  intros [Hc Hl Hh Hn Ht Hf He] Hlt.
  destruct (Hf 0%nat) as [x Hx]; [lia|].
  assert (Z.to_nat head = ring_at capacity head 0) as Hat by (by rewrite ring_at_head).
  assert (forall i, Z.of_nat i < capacity -> i <> 0%nat ->
    <[Z.to_nat head := None]> slots !! ring_at capacity head i = slots !! ring_at capacity head i)
    as Hne.
  { intros i Hi Hni. rewrite Hat. apply list_lookup_insert_ne. intros E.
    apply ring_at_inj in E; lia. }
  exists x. split_and!.
  - unfold zget. rewrite (proj2 (Z.ltb_ge _ _)) by lia. by rewrite Hat.
  - split; try done; try lia.
    + by rewrite length_insert.
    + apply Z.mod_pos_bound. lia.
    + rewrite Ht, Z.add_mod_idemp_l by lia. f_equal. lia.
    + intros i Hi. rewrite ring_at_next, Hne by lia. apply Hf. lia.
    + intros i Hi. rewrite ring_at_next by lia.
      destruct (decide (Z.of_nat i = capacity - 1)) as [Hlast|Hi'].
      * replace (ring_at capacity head (S i)) with (Z.to_nat head).
        { apply list_lookup_insert_eq. lia. }
        unfold ring_at. replace (head + Z.of_nat (S i)) with (head + 1 * capacity) by lia.
        rewrite Z.mod_add, Z.mod_small by lia. done.
      * rewrite Hne by lia. apply He. lia.
  - unfold contents. replace (Z.to_nat count) with (S (Z.to_nat (count - 1))) by lia.
    simpl. rewrite Hx. simpl. f_equal. rewrite omap_seq_shift.
    apply omap_ext_seq. intros i Hi. rewrite ring_at_next, Hne by lia. done.
Qed.

Lemma contents_nil slots capacity head tail count :
  ring_ok slots capacity head tail count ->
  contents slots capacity head count = [] <-> count = 0.
Proof.
  intros H. pose proof (contents_length _ _ _ _ _ H). split; intros E.
  - rewrite E in *. simpl in *. lia.
  - by subst.
Qed.
End ring.

(** Counting the occurrences of a pointer in an array of slots. *)
Section count.
Context {A : Type} `{EqDecision A}.
Implicit Types (slots : list (option A)) (x y : A).

(** Whether [y] is [x]; how often [x] is in the slots. *)
Definition is_it x y : Z := b2z (bool_decide (y = x)).
Definition held x slots : Z := cnt (Some x) slots.

Lemma is_it_bounds x y : 0 <= is_it x y <= 1.
Proof. unfold is_it. case_bool_decide; simpl; lia. Qed.

Definition is_in x (y : option A) : Z := match y with Some y => is_it x y | None => 0 end.

Lemma is_in_spec x (y : option A) : b2z (bool_decide (y = Some x)) = is_in x y.
Proof.
  destruct y as [y|]; simpl; [|done]. unfold is_it. f_equal. apply bool_decide_ext.
  by split; [intros [= ->]|intros ->].
Qed.

Lemma held_cons x (y : option A) slots : held x (y :: slots) = is_in x y + held x slots.
Proof. unfold held. by rewrite cnt_cons, is_in_spec. Qed.

Lemma held_nonneg x slots : 0 <= held x slots.
Proof. apply cnt_nonneg. Qed.

Lemma held_insert x slots i (y z : option A) :
  slots !! i = Some y -> held x (<[i := z]> slots) = held x slots - is_in x y + is_in x z.
Proof.
  revert i. induction slots as [|v l IH]; intros [|i]; try done; simpl; rewrite ?held_cons.
  - intros [= ->]. lia.
  - intros H. rewrite (IH i H). lia.
Qed.

Lemma held_zset x slots slots' i (y z : option A) :
  zset slots i z = Some slots' -> zget slots i = Some y ->
  held x slots' = held x slots - is_in x y + is_in x z.
Proof.
  unfold zset, zget. destruct (Z.leb_spec 0 i); [|done].
  destruct (_ <? _) eqn:E; simpl; [|done]. rewrite (proj2 (Z.ltb_ge _ _)) by lia.
  intros [= <-]. apply held_insert.
Qed.

Lemma held_empty x n : held x (replicate n None) = 0.
Proof. induction n as [|n IH]; [done|]. simpl replicate. by rewrite held_cons, IH. Qed.

(** The slots contain what is queued, and nothing else. *)
Lemma held_contents slots capacity head tail count x :
  ring_ok slots capacity head tail count ->
  held x slots = cnt x (contents slots capacity head count).
Proof.
  intros Hr. pose proof (ro_count _ _ _ _ _ Hr) as [Hn _].
  revert slots head tail Hr. pattern count. apply natlike_ind; [| |exact Hn]; clear count Hn.
  - intros slots head tail [Hc Hl Hh _ _ _ He]. rewrite contents_empty. apply cnt_zero.
    intros (i & Hi)%list_elem_of_lookup. pose proof (lookup_lt_Some _ _ _ Hi) as Hlt.
    specialize (He (Z.to_nat ((Z.of_nat i - head) mod capacity))).
    pose proof (Z.mod_pos_bound (Z.of_nat i - head) capacity ltac:(lia)).
    unfold ring_at in He. rewrite Z2Nat.id, Zplus_mod_idemp_r in He by lia.
    replace (head + (Z.of_nat i - head)) with (Z.of_nat i) in He by lia.
    rewrite (Z.mod_small (Z.of_nat i)) in He by lia. rewrite Nat2Z.id in He.
    rewrite He in Hi by done. done.
  - intros count Hn IH slots head tail Hr.
    destruct (ring_pop _ _ _ _ _ Hr ltac:(lia)) as (y & Hy & Hr' & ->).
    replace (Z.succ count - 1) with count in * by lia. rewrite cnt_cons, <- (IH _ _ _ Hr').
    assert (slots !! Z.to_nat head = Some (Some y)) as Hi.
    { unfold zget in Hy. by destruct (head <? 0). }
    rewrite (held_insert _ _ _ _ _ Hi). unfold is_in, is_it. lia.
Qed.

(** The slot the next element goes to is free. *)
Lemma ring_tail_free slots capacity head tail count :
  ring_ok slots capacity head tail count -> count < capacity -> zget slots tail = Some None.
Proof.
  intros [Hc Hl Hh Hn Ht _ He] Hlt. unfold zget.
  assert (0 <= tail) by (rewrite Ht; apply Z.mod_pos_bound; lia).
  rewrite (proj2 (Z.ltb_ge _ _)) by lia. rewrite (ring_at_tail capacity head tail count) by (lia || done).
  apply He. lia.
Qed.
End count.
