(* ===== verification/Ownership.v ===== *)
(** Ownership: an account of the references a component passes around.

    The machine shows the effects [moonbit_decref], [free] of a message copy or
    the call of a task as events.  This file says which of them are legal: a
    ledger fixes one object and counts the references to it.  A reference comes
    in with an operation's arguments or with a copy that is made, lies in a
    field of the core or in the hands of one thread, and leaves with a result
    or by being released.  [own] is a verification condition on programs, next
    to [wp], that does the book-keeping of one thread; the soundness theorem
    says that in every execution the balance read off the trace is what the
    threads hold and the core stores, and that every effect was covered. *)
From stdpp Require Import base gmap list.
From Stdlib Require Import ZArith Lia.
From S2P Require Import Prelude Ring Machine Logic.

(** ** What a thread may do with the core, and what it has in hand *)

Inductive mode (S : sig) : Type :=
| Outside                          (** it may use the core, without the mutex *)
| Inside (s : sP S)                (** it holds the mutex; the fields are [s] *)
| Alone (fresh : bool) (s : sP S)
    (** nobody else reaches the core: before it is shared ([fresh]), or after
        the last reference was dropped *)
| Apart.                           (** it has nothing to do with a core *)
Arguments Outside {S}.
Arguments Inside {S} s.
Arguments Alone {S} fresh s.
Arguments Apart {S}.

(** The account of one object. *)
Record ledger (S : sig) := Ledger {
  brought : sO S -> Z;             (** references an operation is called with *)
  returned : sO S -> sR S -> Z;    (** and those it returns with its result *)
  gained : sE S -> Z;              (** references an effect creates, or releases *)
  needed : sE S -> Z;              (** references the thread must have for it *)
  kept : sP S -> Z;                (** references the fields contain *)
  salvaged : sP S -> Z;            (** those the last owner takes over with the fields *)
  parked : sO S -> Z * Z;          (** bounds on what a sleeping thread has in hand *)
  at_head : sO S -> sL S -> mode S -> Z -> Prop;  (** loop invariants *)
}.
Arguments brought {S} _ _.
Arguments returned {S} _ _ _.
Arguments gained {S} _ _.
Arguments needed {S} _ _.
Arguments kept {S} _ _.
Arguments salvaged {S} _ _.
Arguments parked {S} _ _.
Arguments at_head {S} _ _ _ _ _.

Section own.
Context {S : sig} (M : code S) (Σ : spec S) (L : ledger S).

(** The balance of a trace. *)
Definition booking (l : label S) : Z :=
  match l with
  | LInv _ o => brought L o
  | LRes _ o r => - returned L o r
  | LEv _ e => gained L e
  | LFail _ _ => 0
  end.

Definition balance (tr : list (label S)) : Z := lsum booking tr.

(** Thread [o] may run [p] with [n] references in hand.  Data races, indices
    and counters are the business of [wp]: an access that is undefined
    behaviour puts no condition here. *)
Fixpoint own (o : sO S) (p : prog S) (m : mode S) (n : Z) {struct p} : Prop :=
  match p with
  | Ret r => n = returned L o r
  | Abort => True
  | Alloc x k =>
      match m with
      | Alone b s =>
          own o (k true) (Alone b (if bool_decide (x = RCore) then zeroed M else s)) n /\
          own o (k false) m n
      | _ => False
      end
  | Free x k =>
      match m with
      | Alone b s => own o k (if b || negb (bool_decide (x = RCore)) then m else Outside) n
      | _ => False
      end
  | Init _ k | Destroy _ k => forall st, own o (k st) m n
  | RefStore _ k => match m with Alone true _ => own o k m n | _ => False end
  | RefInc k =>
      match m with
      | Outside | Inside _ => own o k m n
      | Alone true s => 0 <= n - kept L s /\ own o k Outside (n - kept L s)
      | _ => False
      end
  | RefDec k =>
      match m with
      | Outside =>
          (forall r, r <> 0 -> own o (k r) Outside n) /\
          (forall s, inv Σ s -> own o (k 0) (Alone false s) (n + salvaged L s))
      | _ => False
      end
  | ReadImm k => forall z, own o (k z) m n
  | Access f k =>
      match m with
      | Inside s =>
          forall s', f s = Some s' ->
            0 <= n + kept L s - kept L s' /\ own o (k s) (Inside s') (n + kept L s - kept L s')
      | Alone b s => forall s', f s = Some s' -> own o (k s) (Alone b s') n
      | _ => False
      end
  | Hook _ k => forall h, own o (k h) m n
  | Lock k =>
      match m with
      | Outside =>
          (forall st, st <> 0 -> own o (k st) Outside n) /\
          (forall s, inv Σ s -> own o (k 0) (Inside s) n)
      | _ => False
      end
  | Unlock k => match m with Inside _ => forall st, own o (k st) Outside n | _ => False end
  | Signal _ k | Broadcast _ k => forall st, own o (k st) m n
  | WaitWhile g q onerr k =>
      match m with
      | Inside s =>
          if g s then
            (parked L o).1 <= n <= (parked L o).2 /\
            (forall st, st <> 0 -> own o (onerr st) m n) /\
            (forall s', inv Σ s' -> g s' = false -> own o k (Inside s') n) /\
            (forall s' st, st <> 0 -> inv Σ s' -> own o (onerr st) (Inside s') n)
          else own o k m n
      | _ => False
      end
  | CondWait q k =>
      match m with
      | Inside s =>
          (parked L o).1 <= n <= (parked L o).2 /\ (forall st, st <> 0 -> own o (k st) m n) /\
          (forall s' st, inv Σ s' -> own o (k st) (Inside s') n)
      | _ => False
      end
  | Wrap _ k =>
      match m with
      | Outside => own o k m n
      | Alone true s => 0 <= n - kept L s /\ own o k Outside (n - kept L s)
      | _ => False
      end
  | Spawn o' k =>
      match m with
      | Outside => spawnable Σ o' = true /\ forall st, own o (k st) m n
      | _ => False
      end
  | OsCall k => forall st, own o (k st) m n
  | Emit e k => needed L e <= n /\ 0 <= n + gained L e /\ own o k m (n + gained L e)
  | Jump l => at_head L o l m n
  end.

(** The verification conditions of a component. *)
Record accounted (o0 : sO S) : Prop := Accounted {
  ac_brought : forall o, 0 <= brought L o;
  ac_kept : forall s, 0 <= salvaged L s <= kept L s;
  ac_handle : forall o d, client M o = true -> on_handle M o = Some d ->
    own o (body M o) Outside (brought L o);
  ac_static : forall o, client M o = true -> on_handle M o = None ->
    own o (body M o) Apart (brought L o);
  ac_spawn : forall o, spawnable Σ o = true -> own o (body M o) Outside (brought L o);
  ac_loop : forall o l m n, at_head L o l m n -> own o (block M l) m n;
  ac_ctor : forall s, own o0 (body M o0) (Alone true s) 0;
}.
End own.

(** ** Proofs of [own] *)

(** The new fields after an access. *)
Ltac own_fields :=
  repeat match goal with
  | H : _ ≫= _ = Some _ |- _ => apply bind_Some in H as (? & ? & H)
  | H : Some _ = Some _ |- _ => injection H as <-
  end.

(** One symbolic step; states that are compared are left to the component. *)
Ltac own_step :=
  lazymatch goal with
  | |- own _ _ _ _ (let _ := _ in _) _ _ => cbv zeta
  | |- own _ _ _ _ (if ?b then _ else _) _ _ =>
      let E := fresh "Htest" in
      case_eq b; intros E; [|]; try discriminate E
  | |- own _ _ _ _ (match ?x with _ => _ end) _ _ => destruct x eqn:?
  | |- own _ _ _ _ _ _ _ => progress cbn [own]
  | |- if ?b then own _ _ _ _ _ _ _ else _ => destruct b
  | |- if ?b then _ /\ _ else _ => let E := fresh "Htest" in case_eq b; intros E
  | |- _ /\ _ => split
  | |- True => exact I
  | |- forall _, _ => intro; own_fields; cbv beta; rewrite ?Z.add_simpl_r
  end.

Ltac learn_bounds x y :=
  lazymatch goal with
  | _ : 0 <= is_it x y <= 1 |- _ => fail
  | _ => pose proof (is_it_bounds x y)
  end.

(** The arithmetic of an account: what a write to a slot changes. *)
Ltac own_count :=
  cbn in *;
  repeat match goal with
  | H1 : zget ?l ?i = Some _, H2 : zget ?l ?i = Some ?y |- _ =>
      is_var y; rewrite H1 in H2; injection H2 as <-
  end;
  repeat match goal with
  | H : zset ?l ?i _ = Some _, Hg : zget ?l ?i = Some _ |- context [held ?x ?l] =>
      lazymatch goal with
      | _ : held x _ = held x l - _ + _ |- _ => fail
      | _ => pose proof (held_zset x _ _ _ _ _ H Hg)
      end
  end;
  cbn in *;
  repeat match goal with
  | |- context [is_it ?x ?y] => learn_bounds x y
  | _ : context [is_it ?x ?y] |- _ => learn_bounds x y
  end;
  lia.
