(* ===== verification/Accounts.v ===== *)
(** Accounts: soundness of [Ownership]: in every execution of an accounted
    component the balance of the trace is what the threads have in hand and
    what the core stores, and every effect was covered by a reference. *)
From stdpp Require Import base gmap list.
From Stdlib Require Import ZArith Lia.
From S2P Require Import Prelude Ring Machine Logic Soundness Preservation Adequacy Verified Ownership.

(** ** Facts about verified components the account relies on *)

Section facts.
Context {S : sig} {M : code S} {Σ : spec S} {o0 : sO S}.
Context (V : verified M Σ o0).
Implicit Types (c : config S) (tr : list (label S)).

(** The mutex is held only while the core is shared. *)
Lemma held_shared h c tr t : reachable M o0 h c tr -> holder c = Held t -> shared c = true.
Proof using V.
  intros (G & ab & log & Hc)%(verified_cinv V) Hh.
  destruct (ci_phase _ _ _ _ _ _ _ _ Hc) as [(s0 & cr & [])|[(t' & b & [])|[]]]; [done| |].
  - by destruct (ex_holder t).
  - by destruct (en_holder t).
Qed.

(** Who takes another reference, or makes a handle of one, has one: the core
    is shared, or new and its count 1. *)
Definition joins (p : prog S) : Prop :=
  match p with RefInc _ | Wrap _ _ => True | _ => False end.

Lemma joins_counted h c tr t o p :
  reachable M o0 h c tr -> threads c !! t = Some (o, Run p) -> joins p ->
  shared c = true \/ refs c = 1.
Proof using V.
  intros (G & ab & log & Hc)%(verified_cinv V) HT Hp.
  destruct (tok_ghost M Σ o0 _ _ _ _ _ _ _ Hc HT) as (g & HG & Htok).
  pose proof (cinv_wf M Σ o0 _ _ _ _ _ _ _ Hc HG) as Hwf.
  pose proof (phase_shared M Σ _ _ _ _ _ _ (ci_phase _ _ _ _ _ _ _ _ Hc) HG Hwf) as Hsh.
  unfold tok, wpg in Htok. simpl in Htok.
  destruct p; try done; simpl in Htok; destruct (gv g) eqn:Hv; try done;
    try (left; destruct (Hsh I) as (? & ? & []); done);
    destruct (phase_excl M Σ _ _ _ _ _ _ _ _ _ _ (ci_phase _ _ _ _ _ _ _ _ Hc) HG Hv)
      as (_ & _ & _ & <-); right; tauto.
Qed.

(** The atomic execution, with the operations that are under way. *)
Lemma verified_pending h c tr :
  reachable M o0 h c tr ->
  exists log a P, aexec Σ o0 (filter (fun l => visible l = true) tr) log a P /\
    (free c -> a = Some (abs Σ (core c))) /\ fst <$> P = fst <$> threads c.
Proof using V.
  intros (G & ab & log & Hc)%(verified_cinv V). exists log, ab, (pend (threads c) G).
  split; [apply Hc|]. split.
  - intros Hf. destruct (free_phase V _ _ _ _ _ Hc Hf) as (cr & Hs & _). apply Hs.
  - apply map_eq. intros t. rewrite !lookup_fmap, lookup_pend.
    pose proof (cl_tok _ _ _ _ _ _ _ _ _ (ci_loc _ _ _ _ _ _ _ _ Hc) t) as [? ? _|]; done.
Qed.

(** A step that is taken is not undefined behaviour. *)
Lemma reachable_free h c tr : reachable M o0 h c tr -> holder c = Unlocked -> shared c = true ->
  inv Σ (core c).
Proof using V. intros Hr Hh Hs. eapply (verified_inv V); [done|]. split; [done|]. by rewrite Hh. Qed.
End facts.

(** ** The invariant *)

(** A thread's account: its mode and what it has in hand. *)
Record acct (S : sig) := Acct { am : mode S; an : Z }.
Arguments Acct {S} _ _.
Arguments am {S} _.
Arguments an {S} _.

Section accounts.
Context {S : sig} (M : code S) (Σ : spec S) (L : ledger S) (o0 : sO S).
Implicit Types (c : config S) (tr ls : list (label S)) (A : gmap tid (acct S)) (a : acct S).

Abbreviation thr := (gmap tid (sO S * tstate S)).

Definition otok (x : sO S * tstate S) a : Prop :=
  match x.2 with
  | Run p => own M Σ L x.1 p (am a) (an a)
  | Sleep q k =>
      am a = Outside /\ (parked L x.1).1 <= an a <= (parked L x.1).2 /\
      forall s st, inv Σ s -> own M Σ L x.1 (k st) (Inside s) (an a)
  | Wake q st k =>
      am a = Outside /\ forall s, inv Σ s -> own M Σ L x.1 (k st) (Inside s) (an a)
  end.

(** What the mode of thread [t] says of the configuration. *)
Definition standing c A (t : tid) (m : mode S) : Prop :=
  match m with
  | Outside => shared c = true \/ refs c = 0
  | Inside s => holder c = Held t /\ core c = s /\ shared c = true
  | Alone true s =>
      shared c = false /\ core c = s /\ forall t' a', t' <> t -> A !! t' = Some a' -> am a' = Apart
  | Alone false s =>
      shared c = false /\ refs c = 0 /\ core c = s /\
      forall t' a' b s', t' <> t -> A !! t' = Some a' -> am a' <> Alone b s'
  | Apart => True
  end.

Definition hands A : Z := msum an A.
Definition stored c : Z := if shared c then kept L (core c) else 0.

(** After the last reference was dropped. *)
Definition dead c A : Prop :=
  shared c = false /\ refs c = 0 /\ forall t a s, A !! t = Some a -> am a <> Alone true s.

(** [lost]: references the last owner did not take over. *)
Definition exact : Prop := forall s, salvaged L s = kept L s.

Definition books c tr A (lost : Z) : Prop :=
  balance L tr = hands A + stored c + lost /\ 0 <= lost /\ (exact -> lost = 0) /\
  (lost = 0 \/ dead c A).

(** Every effect was covered when it happened. *)
Definition covered tr : Prop :=
  forall tr1 t e tr2, tr = tr1 ++ LEv t e :: tr2 -> needed L e <= balance L tr1.

Record ledger_ok c tr A : Prop := LedgerOk {
  lo_tok : forall t, option_Forall2 otok (threads c !! t) (A !! t);
  lo_pos : forall t a, A !! t = Some a -> 0 <= an a;
  lo_mode : forall t a, A !! t = Some a -> standing c A t (am a);
  lo_books : exists lost, books c tr A lost;
  lo_covered : covered tr;
}.

Context (HA : accounted M Σ L o0).

Lemma balance_app tr ls : balance L (tr ++ ls) = balance L tr + balance L ls.
Proof. apply lsum_app. Qed.

Lemma stored_nonneg c : 0 <= stored c.
Proof using HA. unfold stored. pose proof (ac_kept _ _ _ _ HA (core c)). destruct (shared c); lia. Qed.

Lemma hands_ge A t a :
  (forall t a, A !! t = Some a -> 0 <= an a) -> A !! t = Some a -> an a <= hands A.
Proof. intros Hp Ht. by apply (msum_ge an A t a). Qed.

(** What a thread has in hand is in the books. *)
Lemma hand_booked c tr A t a : ledger_ok c tr A -> A !! t = Some a -> an a <= balance L tr.
Proof using HA.
  intros [_ Hp _ (lost & -> & Hl & _) _] Ht. pose proof (hands_ge A t a Hp Ht).
  pose proof (stored_nonneg c). lia.
Qed.

Lemma balance_nonneg c tr A : ledger_ok c tr A -> 0 <= balance L tr.
Proof using HA.
  intros [_ Hp _ (lost & -> & Hl & _) _]. pose proof (stored_nonneg c).
  assert (0 <= hands A); [|lia]. by apply msum_nonneg.
Qed.

Lemma covered_app tr ls (n : Z) :
  covered tr -> n <= balance L tr ->
  (forall l, l ∈ ls -> match l with LEv _ e => ls = [l] /\ needed L e <= n | _ => True end) ->
  covered (tr ++ ls).
Proof.
  intros Htr Hn Hls tr1 t e tr2 [(k & E & _)|(k & E & ->)]%app_eq_mid; [by eapply Htr|].
  destruct (Hls (LEv t e)) as [El He]; [rewrite E; set_solver|].
  rewrite E in El. destruct k as [|l k]; [|by destruct k; simplify_eq/=].
  rewrite app_nil_r. lia.
Qed.

(** *** One thread moves *)

Lemma waked_otok (T T' : thr) A :
  waked T T' -> (forall t, option_Forall2 otok (T !! t) (A !! t)) ->
  forall t, option_Forall2 otok (T' !! t) (A !! t).
Proof.
  intros Hw H t. destruct (Hw t) as [->|(o & q & k & HT & ->)]; [done|].
  specialize (H t). rewrite HT in H. inversion H as [? a Ht E1 E2|]; subst.
  destruct Ht as (Ho & Hn & Hk). constructor. split; [done|]. intros s. apply Hk.
Qed.

Lemma ledger_move c tr A c' ls t o ts ts' a a' T1 (extra : Z) :
  ledger_ok c tr A -> waked (threads c) T1 ->
  threads c !! t = Some (o, ts) -> A !! t = Some a ->
  threads c' = <[t := (o, ts')]> T1 ->
  otok (o, ts') a' -> 0 <= an a' ->
  standing c' (<[t := a']> A) t (am a') ->
  (forall t1 a1, t1 <> t -> A !! t1 = Some a1 -> standing c A t1 (am a1) ->
     standing c' (<[t := a']> A) t1 (am a1)) ->
  (dead c A -> dead c' (<[t := a']> A)) ->
  balance L ls = an a' - an a + stored c' - stored c + extra ->
  0 <= extra -> (exact -> extra = 0) -> (extra = 0 \/ dead c' (<[t := a']> A)) ->
  (forall l, l ∈ ls -> match l with LEv _ e => ls = [l] /\ needed L e <= an a | _ => True end) ->
  ledger_ok c' (tr ++ ls) (<[t := a']> A).
Proof using HA.
  intros Hok Hw HT Ha Hthr Htok Hpos Hst Hoth Hdead Hbal Hx He Hxd Hev.
  pose proof (hand_booked _ _ _ _ _ Hok Ha) as Hbook.
  destruct Hok as [Hok1 Hok2 Hok3 (lost & Hb & Hl & Hle & Hld) Hok5]. split.
  - intros t1. rewrite Hthr. destruct (decide (t = t1)) as [<-|Hne].
    + rewrite !lookup_insert_eq. by constructor.
    + rewrite !lookup_insert_ne by done. by eapply waked_otok.
  - intros t1 a1. rewrite lookup_insert_Some. intros [[<- <-]|[_ ?]]; eauto.
  - intros t1 a1. rewrite lookup_insert_Some. intros [[<- <-]|[? ?]]; eauto.
  - exists (lost + extra). unfold books. rewrite balance_app, Hb, Hbal.
    unfold hands. rewrite (msum_insert _ _ _ _ _ Ha). split_and!; [lia|lia| |].
    + intros E. specialize (He E). specialize (Hle E). lia.
    + destruct Hxd as [->|?]; [|by right]. rewrite Z.add_0_r.
      destruct Hld as [?|?]; [by left|right; auto].
  - by eapply covered_app.
Qed.

(** The usual move: [shared] and [refs] stay as they are. *)
Definition mode_step (m m' : mode S) : Prop :=
  (m = Apart -> m' = Apart) /\
  forall b s, m' = Alone b s -> exists s', m = Alone b s'.

Lemma mode_step_refl m : mode_step m m.
Proof. split; eauto. Qed.

Lemma mode_step_out m : m <> Apart -> mode_step m Outside.
Proof. by split. Qed.

Lemma mode_step_in m s : m <> Apart -> mode_step m (Inside s).
Proof. by split. Qed.

Lemma mode_step_alone b s s' : mode_step (Alone b s) (Alone b s').
Proof. split; [done|]. intros ? ? [= <- <-]. eauto. Qed.

Lemma dead_move c c' A t a a' :
  A !! t = Some a -> shared c' = shared c -> refs c' = refs c -> mode_step (am a) (am a') ->
  dead c A -> dead c' (<[t := a']> A).
Proof.
  intros Ha Hs Hr [_ Hm] (H1 & H2 & H3). split_and!; [congruence|congruence|].
  intros t1 a1 s. rewrite lookup_insert_Some. intros [[<- <-]|[_ ?]]; [|eauto].
  intros E. destruct (Hm _ _ E) as [s' E']. by eapply H3.
Qed.

(** The other threads stand as before if the mutex and the fields do, or if
    the fields were changed by their owner. *)
Lemma others_move c c' A t a a' :
  A !! t = Some a -> standing c A t (am a) ->
  shared c' = shared c -> refs c' = refs c -> mode_step (am a) (am a') ->
  (forall t1, t1 <> t -> holder c = Held t1 -> holder c' = Held t1) ->
  (core c' = core c \/ match am a with Inside _ | Alone _ _ => True | _ => False end) ->
  forall t1 a1, t1 <> t -> A !! t1 = Some a1 -> standing c A t1 (am a1) ->
  standing c' (<[t := a']> A) t1 (am a1).
Proof.
  intros Ha Hst Hs Hr [Hm1 Hm2] Hh Hc t1 a1 Hne Ha1 H1.
  destruct (am a1) as [|s|[] s|]; simpl in *; rewrite ?Hs, ?Hr; try done.
  - destruct H1 as (H1 & H2 & H3). split; [auto|]. split; [|done].
    destruct Hc as [->|Hc]; [done|]. destruct (am a) as [|s'|[] s'|]; try done; simpl in *.
    + destruct Hst as (Hst & _). rewrite H1 in Hst. congruence.
    + destruct Hst as (Hst & _). congruence.
    + destruct Hst as (Hst & _). congruence.
  - destruct H1 as (H1 & H2 & H3). pose proof (H3 t a (not_eq_sym Hne) Ha) as E.
    split; [done|]. split; [destruct Hc as [->|Hc]; [done|by rewrite E in Hc]|].
    intros t2 a2 Hne2. rewrite lookup_insert_Some. intros [[<- <-]|[_ ?]]; eauto.
  - destruct H1 as (H1 & H2 & H3 & H4). split; [done|]. split; [done|]. split.
    + destruct Hc as [->|Hc]; [done|]. destruct (am a) as [|s'|b s'|] eqn:E; try done; simpl in *.
      * destruct Hst as (_ & _ & Hst). congruence.
      * by destruct (H4 t a b s' (not_eq_sym Hne) Ha).
    + intros t2 a2 b s' Hne2. rewrite lookup_insert_Some. intros [[<- <-]|[_ ?]]; [|eauto].
      intros E. destruct (Hm2 _ _ E) as [s2 E2]. by destruct (H4 t a b s2 (not_eq_sym Hne) Ha).
Qed.

Lemma ledger_step c tr A c' ls t o ts ts' a a' T1 :
  ledger_ok c tr A -> waked (threads c) T1 ->
  threads c !! t = Some (o, ts) -> A !! t = Some a ->
  threads c' = <[t := (o, ts')]> T1 ->
  shared c' = shared c -> refs c' = refs c -> mode_step (am a) (am a') ->
  (forall t1, t1 <> t -> holder c = Held t1 -> holder c' = Held t1) ->
  (core c' = core c \/ match am a with Inside _ | Alone _ _ => True | _ => False end) ->
  otok (o, ts') a' -> 0 <= an a' ->
  standing c' (<[t := a']> A) t (am a') ->
  balance L ls = an a' - an a + stored c' - stored c ->
  (forall l, l ∈ ls -> match l with LEv _ e => ls = [l] /\ needed L e <= an a | _ => True end) ->
  ledger_ok c' (tr ++ ls) (<[t := a']> A).
Proof using HA.
  intros Hok Hw HT Ha Hthr Hs Hr Hm Hh Hc Htok Hpos Hst Hbal Hev.
  pose proof (lo_mode _ _ _ Hok _ _ Ha) as Hst0.
  eapply (ledger_move c tr A c' ls t o ts ts' a a' T1 0); eauto; try lia.
  - by eapply others_move.
  - by eapply dead_move.
Qed.

(** *** Operations begin and end *)

Lemma balance_one l : balance L [l] = booking L l.
Proof. apply Z.add_0_r. Qed.

Lemma ledger_add c tr A c' t o m :
  ledger_ok c tr A -> threads c !! t = None ->
  threads c' = <[t := (o, Run (body M o))]> (threads c) ->
  core c' = core c -> shared c' = shared c -> refs c' = refs c -> holder c' = holder c ->
  own M Σ L o (body M o) m (brought L o) ->
  (m = Apart \/ m = Outside /\ (shared c = true \/ refs c = 0) /\
     forall t1 a1 s, A !! t1 = Some a1 -> am a1 <> Alone true s) ->
  ledger_ok c' (tr ++ [LInv t o]) (<[t := Acct m (brought L o)]> A).
Proof using HA.
  intros Hok HT Hthr Hc Hs Hr Hh Hown Hm.
  assert (A !! t = None) as HN.
  { pose proof (lo_tok _ _ _ Hok t) as H. rewrite HT in H. by inversion H. }
  pose proof (balance_nonneg _ _ _ Hok) as Hbal.
  destruct Hok as [Hok1 Hok2 Hok3 (lost & Hb & Hl & Hle & Hld) Hok5]. split.
  - intros t1. rewrite Hthr. destruct (decide (t = t1)) as [<-|Hne].
    + rewrite !lookup_insert_eq. by constructor.
    + by rewrite !lookup_insert_ne.
  - intros t1 a1. rewrite lookup_insert_Some. intros [[<- <-]|[_ ?]]; [apply HA|eauto].
  - intros t1 a1. rewrite lookup_insert_Some. intros [[<- <-]|[Hne Ha1]].
    { destruct Hm as [->|(-> & H & _)]; simpl; [done|by rewrite Hs, Hr]. }
    specialize (Hok3 _ _ Ha1). destruct (am a1) as [|s|[] s|] eqn:E1; simpl in *; rewrite ?Hs, ?Hr, ?Hh, ?Hc; try done.
    + destruct Hok3 as (? & ? & H3). split_and!; try done.
      intros t2 a2 Hne2. rewrite lookup_insert_Some. intros [[<- <-]|[_ ?]]; [|eauto].
      destruct Hm as [->|(_ & _ & Hm)]; [done|]. by destruct (Hm t1 a1 s).
    + destruct Hok3 as (? & ? & ? & H3). split_and!; try done.
      intros t2 a2 b s' Hne2. rewrite lookup_insert_Some. intros [[<- <-]|[_ ?]]; [|eauto].
      by destruct Hm as [->|(-> & _)].
  - exists lost. unfold books. rewrite balance_app, balance_one, Hb. unfold hands, stored.
    rewrite msum_new by done. rewrite Hs, Hc. split_and!; [simpl; lia|lia|done|].
    destruct Hld as [?|(? & ? & Hd)]; [by left|right]. split_and!; [congruence|congruence|].
    intros t1 a1 s. rewrite lookup_insert_Some. intros [[<- <-]|[_ ?]]; [|eauto].
    by destruct Hm as [->|(-> & _)].
  - apply (covered_app _ _ 0); [done|done|]. intros l ->%list_elem_of_singleton. done.
Qed.

Lemma ledger_del c tr A c' t o r a :
  ledger_ok c tr A -> threads c !! t = Some (o, Run (Ret r)) -> A !! t = Some a ->
  threads c' = delete t (threads c) ->
  core c' = core c -> shared c' = shared c -> refs c' = refs c -> holder c' = holder c ->
  ledger_ok c' (tr ++ [LRes t o r]) (delete t A).
Proof using HA.
  intros Hok HT Ha Hthr Hc Hs Hr Hh.
  pose proof (balance_nonneg _ _ _ Hok) as Hbal.
  assert (an a = returned L o r) as Hn.
  { pose proof (lo_tok _ _ _ Hok t) as H. rewrite HT, Ha in H. inversion H as [? ? Htok|]; subst. exact Htok. }
  destruct Hok as [Hok1 Hok2 Hok3 (lost & Hb & Hl & Hle & Hld) Hok5]. split.
  - intros t1. rewrite Hthr. destruct (decide (t = t1)) as [<-|Hne].
    + rewrite !lookup_delete_eq. constructor.
    + by rewrite !lookup_delete_ne.
  - intros t1 a1 [_ ?]%lookup_delete_Some. eauto.
  - intros t1 a1 [Hne Ha1]%lookup_delete_Some.
    specialize (Hok3 _ _ Ha1). destruct (am a1) as [|s|[] s|]; simpl in *; rewrite ?Hs, ?Hr, ?Hh, ?Hc; try done.
    + destruct Hok3 as (? & ? & H3). split_and!; try done.
      intros t2 a2 Hne2 [_ ?]%lookup_delete_Some. eauto.
    + destruct Hok3 as (? & ? & ? & H3). split_and!; try done.
      intros t2 a2 b s' Hne2 [_ ?]%lookup_delete_Some. eauto.
  - exists lost. unfold books. rewrite balance_app, balance_one, Hb. unfold hands, stored.
    rewrite (msum_delete _ _ _ _ Ha), Hs, Hc. split_and!; [simpl; lia|lia|done|].
    destruct Hld as [?|(? & ? & Hd)]; [by left|right]. split_and!; [congruence|congruence|].
    intros t1 a1 s [_ ?]%lookup_delete_Some. eauto.
  - apply (covered_app _ _ 0); [done|done|]. intros l ->%list_elem_of_singleton. done.
Qed.

(** *** Rules *)

Context (V : verified M Σ o0) (h : sH S).

Lemma balance_failed t st : balance L (failed (S:=S) t st) = 0.
Proof. unfold failed. by destruct (st =? 0). Qed.

Lemma failed_noev t st l :
  l ∈ failed (S:=S) t st ->
  match l with LEv _ e => failed (S:=S) t st = [l] /\ needed L e <= 0 | _ => True end.
Proof. unfold failed. destruct (st =? 0); [by intros ?%elem_of_nil|by intros ->%list_elem_of_singleton]. Qed.

Section rule.
Context (c : config S) (tr : list (label S)) (A : gmap tid (acct S)).
Context (t : tid) (o : sO S) (p : prog S) (a : acct S).
Context (Hr : reachable M o0 h c tr) (Hok : ledger_ok c tr A).
Context (HT : threads c !! t = Some (o, Run p)) (Ha : A !! t = Some a).

Definition kept_up (x : outcome (config S * list (label S))) : Prop :=
  forall c' ls, x = Go (c', ls) -> reachable M o0 h c' (tr ++ ls) ->
  exists A', ledger_ok c' (tr ++ ls) A'.

Lemma kept_up_guard b x : kept_up x -> kept_up (guard b x).
Proof using Type. by destruct b. Qed.

Lemma kept_up_blocked : kept_up Blocked.
Proof using Type. done. Qed.

(** Moves that touch neither the fields nor the mutex. *)
Lemma keep_quiet p' c1 ls n' :
  threads c1 = threads c -> core c1 = core c -> shared c1 = shared c -> refs c1 = refs c ->
  holder c1 = holder c -> own M Σ L o p' (am a) n' -> 0 <= n' -> balance L ls = n' - an a ->
  (forall l, l ∈ ls -> match l with LEv _ e => ls = [l] /\ needed L e <= an a | _ => True end) ->
  kept_up (cont t o p' ls c1).
Proof using HA Hok HT Ha.
  intros Et Ec Es Er Eh Hown Hn Hbal Hev c' ls' [= <- <-] _.
  pose proof (lo_mode _ _ _ Hok _ _ Ha) as Hst.
  exists (<[t := Acct (am a) n']> A).
  eapply (ledger_step c tr A _ ls t o (Run p) (Run p') a (Acct (am a) n') (threads c));
    eauto using waked_refl, mode_step_refl; simpl.
  - by rewrite Et.
  - intros ??. by rewrite Eh.
  - destruct (am a) as [|s|[] s|]; simpl in *; rewrite ?Es, ?Er, ?Eh, ?Ec; try done.
    + destruct Hst as (? & ? & Hst). split_and!; try done. intros t' a' Hne.
      rewrite lookup_insert_ne by done. eauto.
    + destruct Hst as (? & ? & ? & Hst). split_and!; try done. intros t' a' b s' Hne.
      rewrite lookup_insert_ne by done. eauto.
  - unfold stored. simpl. rewrite Es, Ec. lia.
Qed.

Lemma keep_status p' c1 st :
  threads c1 = threads c -> core c1 = core c -> shared c1 = shared c -> refs c1 = refs c ->
  holder c1 = holder c -> own M Σ L o p' (am a) (an a) ->
  kept_up (cont t o p' (failed t st) c1).
Proof using HA Hok HT Ha.
  intros Et Ec Es Er Eh Hown. apply (keep_quiet _ _ _ (an a)); eauto using lo_pos.
  - rewrite balance_failed. lia.
  - pose proof (lo_pos _ _ _ Hok _ _ Ha). intros l Hl%failed_noev.
    destruct l; try done. destruct Hl. split; [done|lia].
Qed.

Lemma keep_silent p' c1 :
  threads c1 = threads c -> core c1 = core c -> shared c1 = shared c -> refs c1 = refs c ->
  holder c1 = holder c -> own M Σ L o p' (am a) (an a) ->
  kept_up (cont t o p' [] c1).
Proof using HA Hok HT Ha.
  intros. apply (keep_quiet _ _ _ (an a)); eauto using lo_pos.
  - change (balance L []) with 0. lia.
  - by intros l ?%elem_of_nil.
Qed.

(** Moves of the sole owner. *)
Lemma keep_alone p' c1 b s s' m' :
  am a = Alone b s -> (m' = Alone b s' \/ m' = Outside /\ b = false) ->
  threads c1 = threads c -> core c1 = s' -> shared c1 = shared c ->
  (refs c1 = refs c \/ b = true) ->
  holder c1 = holder c -> own M Σ L o p' m' (an a) ->
  kept_up (cont t o p' [] c1).
Proof using HA Hok HT Ha.
  intros Em Hm Et Ec Es Er Eh Hown c' ls [= <- <-] _.
  pose proof (lo_mode _ _ _ Hok _ _ Ha) as Hst. rewrite Em in Hst.
  assert (shared c = false) as Hsh by (destruct b; apply Hst).
  exists (<[t := Acct m' (an a)]> A).
  apply (ledger_move c tr A _ [] t o (Run p) (Run p') a (Acct m' (an a)) (threads c) 0);
    eauto using waked_refl, lo_pos; simpl.
  - by rewrite Et.
  - apply (lo_pos _ _ _ Hok _ _ Ha).
  - destruct b; simpl in Hst; [destruct Hm as [->|[_ ?]]; [|done]|destruct Hm as [->|[-> _]]]; simpl.
    + destruct Hst as (_ & _ & Hst). split_and!; [congruence|done|]. intros t' a' Hne.
      rewrite lookup_insert_ne by done. eauto.
    + destruct Hst as (_ & Hst0 & _ & Hst). destruct Er as [Er|?]; [|done].
      split_and!; [congruence|congruence|done|]. intros t' a' b' s1 Hne.
      rewrite lookup_insert_ne by done. eauto.
    + destruct Hst as (_ & Hst0 & _ & Hst). destruct Er as [Er|?]; [|done]. right. congruence.
  - intros t1 a1 Hne Ha1 H1. destruct b; simpl in Hst.
    { destruct Hst as (_ & _ & Hst). by rewrite (Hst _ _ Hne Ha1). }
    destruct Hst as (_ & Hst0 & _ & Hst). destruct Er as [Er|?]; [|done].
    specialize (Hst t1 a1). destruct (am a1) as [|s1|b1 s1|]; simpl in *; try done.
    + right. congruence.
    + destruct H1 as (_ & _ & ?). congruence.
    + by destruct (Hst b1 s1).
  - intros (H1 & H2 & H3). destruct b; [by destruct (H3 t a s Ha)|].
    destruct Er as [Er|?]; [|done]. split_and!; simpl; [congruence|congruence|].
    intros t1 a1 s1. rewrite lookup_insert_Some. intros [[<- <-]|[_ ?]]; [|eauto].
    by destruct Hm as [->|[-> _]].
  - unfold stored. simpl. rewrite Es, Hsh. change (balance L []) with 0. lia.
  - lia.
  - by intros l ?%elem_of_nil.
Qed.

(** A field is read or written under the mutex. *)
Lemma keep_access f k x v :
  own M Σ L o (Access f k) (am a) (an a) -> kept_up (step_run M t x v o (Access f k) c).
Proof using HA Hok HT Ha.
  intros Hown. simpl in *. apply kept_up_guard.
  destruct (f (core c)) as [s'|] eqn:Hf; [|done].
  pose proof (lo_mode _ _ _ Hok _ _ Ha) as Hst.
  destruct (am a) as [|s|b s|] eqn:Em; try done.
  2:{ assert (core c = s) as Hc by (destruct b; apply Hst). rewrite Hc in *.
      apply (keep_alone (k s) _ b s s' (Alone b s')); simpl; auto. }
  destruct Hst as (Hh & Hc & Hsh). rewrite Hc in *. destruct (Hown _ Hf) as [Hpos Hk].
  intros c' ls [= <- <-] _. exists (<[t := Acct (Inside s') (an a + kept L s - kept L s')]> A).
  eapply (ledger_step c tr A _ [] t o (Run p) (Run (k s)) a _ (threads c)); eauto using waked_refl; simpl; try done.
  - rewrite Em. by apply mode_step_in.
  - rewrite Em. by right.
  - unfold stored. simpl. rewrite Hsh, Hc. change (balance L []) with 0. lia.
  - by intros l ?%elem_of_nil.
Qed.

(** Taking a reference, or making a handle of one: the core is, or becomes,
    shared. *)
Lemma keep_join p' c1 n' :
  joins p ->
  match am a with
  | Outside | Inside _ => own M Σ L o p' (am a) (an a) /\ n' = an a
  | Alone true s => 0 <= n' /\ n' = an a - kept L s /\ own M Σ L o p' Outside n'
  | _ => False
  end ->
  threads c1 = threads c -> core c1 = core c -> shared c1 = true -> holder c1 = holder c ->
  kept_up (cont t o p' [] c1).
Proof using HA Hok HT Ha V Hr.
  intros Hp Hown Et Ec Es Eh c' ls [= <- <-] _.
  pose proof (joins_counted V _ _ _ _ _ _ Hr HT Hp) as Hj.
  pose proof (lo_mode _ _ _ Hok _ _ Ha) as Hst.
  set (m' := match am a with Alone _ _ => Outside | m => m end).
  assert (own M Σ L o p' m' n' /\ 0 <= n' /\
    (shared c = true /\ n' = an a \/ exists s, am a = Alone true s /\ n' = an a - kept L s)) as (Hk & Hn & Hm).
  { pose proof (lo_pos _ _ _ Hok _ _ Ha). unfold m'. destruct (am a) as [|s|[] s|]; try done; simpl in Hst.
    - destruct Hown as [? ->]. split_and!; try done. left. split; [|done].
      destruct Hst, Hj; try done. lia.
    - destruct Hown as [? ->]. split_and!; try done. left. split; [|done]. apply Hst.
    - destruct Hown as (? & ? & ?). split_and!; try done. right. eauto. }
  exists (<[t := Acct m' n']> A).
  apply (ledger_move c tr A _ [] t o (Run p) (Run p') a (Acct m' n') (threads c) 0);
    eauto using waked_refl; simpl; try done.
  - by rewrite Et.
  - unfold m'. destruct (am a) as [|s|[] s|]; try done; simpl in *; auto.
    rewrite Eh, Ec, Es. tauto.
  - intros t1 a1 Hne Ha1 H1. destruct Hm as [[Hsh _]|(s & Em & _)].
    + destruct (am a1) as [|s1|[] s1|]; simpl in *; rewrite ?Eh, ?Ec; auto; try tauto.
      * destruct H1. congruence.
      * destruct H1. congruence.
    + rewrite Em in Hst. destruct Hst as (_ & _ & Hst). by rewrite (Hst _ _ Hne Ha1).
  - intros (H1 & H2 & H3). destruct Hm as [[Hsh _]|(s & Em & _)]; [congruence|].
    by destruct (H3 _ _ s Ha).
  - unfold stored. simpl. rewrite Es, Ec. change (balance L []) with 0.
    destruct Hm as [[-> ->]|(s & Em & ->)]; [lia|].
    rewrite Em in Hst. destruct Hst as (-> & -> & _). lia.
  - by intros l ?%elem_of_nil.
Qed.

(** A reference is dropped; the last one leaves its owner alone with the core. *)
Lemma keep_drop k x v :
  own M Σ L o (RefDec k) (am a) (an a) -> kept_up (step_run M t x v o (RefDec k) c).
Proof using HA Hok HT Ha V Hr.
  intros Hown. simpl in *. destruct (am a) as [|s|b s|] eqn:Em; try done.
  destruct (has RCore c && shared c && (0 <? refs c)) eqn:Hg; [|done]. simpl.
  apply andb_true_iff in Hg as [[_ Hsh]%andb_true_iff Hpos%Z.ltb_lt].
  intros c' ls [= <- <-] Hr'. destruct Hown as [Hmore Hlast].
  pose proof (lo_pos _ _ _ Hok _ _ Ha) as Hn.
  assert (forall t1 s1, t1 <> t -> refs c = 1 -> standing c A t1 (Inside s1) -> False) as Hin.
  { intros t1 s1 Hne E (Hh & _ & _). pose proof (held_shared V _ _ _ t1 Hr' Hh) as Hs. simpl in Hs. rewrite E in Hs. done. }
  destruct (Z.eqb_spec (refs c) 1) as [E|E].
  - rewrite E. assert (inv Σ (core c)) as Hi.
    { apply (verified_inv V _ _ _ Hr). split; [done|]. intros t1 Hh.
      pose proof (held_shared V _ _ _ t1 Hr' Hh) as Hs. by rewrite E in Hs. }
    pose proof (ac_kept _ _ _ _ HA (core c)) as Hk.
    assert (exists A', A' = <[t := Acct (Alone false (core c)) (an a + salvaged L (core c))]> A) as [A' EA] by eauto.
    assert (dead (put t o (Run (k (1 - 1))) (with_shared (negb true) (with_refs (fun z => z - 1) c))) A') as Hd.
    { split_and!; [done|simpl; lia|]. intros t1 a1 s1. rewrite EA, lookup_insert_Some.
      intros [[<- <-]|[Hne H1]] E1; [done|]. pose proof (lo_mode _ _ _ Hok _ _ H1) as Hst.
      rewrite E1 in Hst. destruct Hst. congruence. }
    exists A'. rewrite EA in *. change (1 =? 1) with true.
    apply (ledger_move c tr A _ [] t o (Run p) (Run (k (1 - 1))) a _ (threads c)
      (kept L (core c) - salvaged L (core c))); eauto using waked_refl; simpl; try lia.
    + by apply Hlast.
    + split_and!; [done|lia|done|]. intros t1 a1 b s1 Hne. rewrite lookup_insert_ne by done.
      intros H1 E1. pose proof (lo_mode _ _ _ Hok _ _ H1) as Hst. rewrite E1 in Hst.
      destruct b, Hst; congruence.
    + intros t1 a1 Hne H1 Hst. destruct (am a1) as [|s1|b s1|]; simpl in *; try done.
      * right. lia.
      * by destruct (Hin t1 s1).
      * destruct b, Hst; congruence.
    + unfold stored. simpl. rewrite Hsh. change (balance L []) with 0. lia.
    + intros He. rewrite (He (core c)). lia.
    + by intros l ?%elem_of_nil.
  - exists (<[t := Acct Outside (an a)]> A).
    apply (ledger_move c tr A _ [] t o (Run p) (Run (k (refs c - 1))) a _ (threads c) 0);
      eauto using waked_refl; simpl; try lia.
    + apply Hmore. lia.
    + intros t1 a1 Hne H1 Hst. destruct (am a1) as [|s1|b s1|]; simpl in *; try done.
      * by left.
      * tauto.
      * destruct b, Hst; congruence.
    + intros [? _]. congruence.
    + unfold stored. simpl. rewrite Hsh. change (balance L []) with 0. lia.
    + by intros l ?%elem_of_nil.
Qed.

(** The mutex is taken, by locking it or after a wait. *)
Lemma keep_enter ts p' c1 :
  threads c !! t = Some (o, ts) -> am a = Outside ->
  (forall s, inv Σ s -> own M Σ L o p' (Inside s) (an a)) ->
  holder c = Unlocked -> c1 = with_holder (Held t) c ->
  kept_up (cont t o p' [] c1).
Proof using HA Hok Ha V Hr.
  intros Hts Em Hown Hu -> c' ls [= <- <-] Hr'.
  assert (shared c = true) as Hsh by (by apply (held_shared V _ _ _ t Hr')).
  pose proof (reachable_free V _ _ _ Hr Hu Hsh) as Hi.
  exists (<[t := Acct (Inside (core c)) (an a)]> A).
  eapply (ledger_step c tr A _ [] t o ts (Run p') a _ (threads c));
    eauto using waked_refl; simpl; try done.
  - rewrite Em. by apply mode_step_in.
  - intros t1 _ ?. congruence.
  - by apply Hown.
  - apply (lo_pos _ _ _ Hok _ _ Ha).
  - change (balance L []) with 0. unfold stored. simpl. lia.
  - by intros l ?%elem_of_nil.
Qed.

(** The mutex is given up. *)
Lemma keep_leave ts' c1 s ls hd :
  am a = Inside s -> otok (o, ts') (Acct Outside (an a)) ->
  c1 = put t o ts' (with_holder hd c) -> balance L ls = 0 ->
  (forall l, l ∈ ls -> match l with LEv _ e => ls = [l] /\ needed L e <= an a | _ => True end) ->
  kept_up (Go (c1, ls)).
Proof using HA Hok HT Ha.
  intros Em Htok -> Hb Hev c' ls' [= <- <-] _.
  pose proof (lo_mode _ _ _ Hok _ _ Ha) as Hst. rewrite Em in Hst. destruct Hst as (Hh & Hc & Hsh).
  exists (<[t := Acct Outside (an a)]> A).
  eapply (ledger_step c tr A _ ls t o (Run p) ts' a _ (threads c));
    eauto using waked_refl; simpl; try done.
  - rewrite Em. by apply mode_step_out.
  - intros t1 Hne ?. congruence.
  - apply (lo_pos _ _ _ Hok _ _ Ha).
  - by left.
  - unfold stored. simpl. lia.
Qed.

(** Waking others. *)
Lemma keep_wake p' c1 :
  waked (threads c) (threads c1) ->
  core c1 = core c -> shared c1 = shared c -> refs c1 = refs c ->
  holder c1 = holder c -> own M Σ L o p' (am a) (an a) ->
  kept_up (cont t o p' [] c1).
Proof using HA Hok HT Ha.
  intros Hw Ec Es Er Eh Hown c' ls [= <- <-] _.
  exists (<[t := Acct (am a) (an a)]> A).
  eapply (ledger_step c tr A _ [] t o (Run p) (Run p') a _ (threads c1));
    eauto using mode_step_refl; simpl; try done.
  - intros ??. by rewrite Eh.
  - apply (lo_pos _ _ _ Hok _ _ Ha).
  - pose proof (lo_mode _ _ _ Hok _ _ Ha) as Hst.
    replace (Acct (am a) (an a)) with a by (by destruct a).
    rewrite insert_id by done. destruct (am a) as [|s|[] s|]; simpl in *; by rewrite ?Es, ?Er, ?Eh, ?Ec.
  - change (balance L []) with 0. unfold stored. simpl. rewrite Es, Ec. lia.
  - by intros l ?%elem_of_nil.
Qed.

Lemma keep_signal q k x v :
  own M Σ L o (Signal q k) (am a) (an a) -> kept_up (step_run M t x v o (Signal q k) c).
Proof using HA Hok HT Ha.
  intros Hown. simpl in *. apply kept_up_guard.
  destruct (negb (x =? 0)); [by apply keep_status|].
  destruct (nobody_sleeps q c); [by apply keep_silent|].
  destruct (threads c !! v) as [[o' [|q' k'|]]|] eqn:Hv; try apply kept_up_blocked.
  case_bool_decide as Hq; [|apply kept_up_blocked]. subst.
  apply keep_wake; try done. by apply waked_one.
Qed.

(** Going to sleep. *)
Lemma keep_sleep q k s c1 :
  am a = Inside s -> (parked L o).1 <= an a <= (parked L o).2 ->
  (forall s' st, inv Σ s' -> own M Σ L o (k st) (Inside s') (an a)) ->
  c1 = put t o (Sleep q k) (with_holder Unlocked c) -> kept_up (Go (c1, [])).
Proof using HA Hok HT Ha.
  intros Em Hp Hk ->. eapply (keep_leave (Sleep q k)); [exact Em|exact (conj eq_refl (conj Hp Hk))|done|done|].
  by intros l ?%elem_of_nil.
Qed.

Lemma keep_wait g q onerr k x v :
  own M Σ L o (WaitWhile g q onerr k) (am a) (an a) ->
  kept_up (step_run M t x v o (WaitWhile g q onerr k) c).
Proof using HA Hok HT Ha.
  intros Hown. cbn [step_run own] in *. apply kept_up_guard.
  pose proof (lo_mode _ _ _ Hok _ _ Ha) as Hst.
  destruct (am a) as [|s|b s|] eqn:Em; try done. destruct Hst as (_ & Hc & _). rewrite Hc.
  destruct (g s) eqn:Hg; [|apply keep_silent; rewrite ?Em; done].
  destruct Hown as (Hp & He & Hk & He').
  destruct (Z.eqb_spec x 0) as [->|Hx]; [|apply keep_status; rewrite ?Em; auto].
  eapply keep_sleep; [exact Em|exact Hp| |done]. intros s' st Hi. cbv beta.
  destruct (Z.eqb_spec st 0) as [->|Hst]; [|by apply He'].
  cbn [own]. destruct (g s') eqn:Hg'; [|by apply Hk]. auto.
Qed.

Lemma keep_condwait q k x v :
  own M Σ L o (CondWait q k) (am a) (an a) -> kept_up (step_run M t x v o (CondWait q k) c).
Proof using HA Hok HT Ha.
  intros Hown. cbn [step_run own] in *. apply kept_up_guard.
  destruct (am a) as [|s|b s|] eqn:Em; try done. destruct Hown as (Hp & He & Hk).
  destruct (Z.eqb_spec x 0) as [->|Hx]; [|apply keep_status; rewrite ?Em; auto].
  eapply keep_sleep; eauto.
Qed.

Lemma keep_unlock k x v :
  own M Σ L o (Unlock k) (am a) (an a) -> kept_up (step_run M t x v o (Unlock k) c).
Proof using HA Hok HT Ha.
  intros Hown. cbn [step_run own] in *. apply kept_up_guard.
  destruct (am a) as [|s|b s|] eqn:Em; try done.
  eapply keep_leave; [exact Em| |reflexivity|apply balance_failed|].
  - apply Hown.
  - pose proof (lo_pos _ _ _ Hok _ _ Ha). intros l Hl%failed_noev.
    destruct l; try done. destruct Hl. split; [done|lia].
Qed.

Lemma keep_lock k x v :
  own M Σ L o (Lock k) (am a) (an a) -> kept_up (step_run M t x v o (Lock k) c).
Proof using HA Hok HT Ha V Hr.
  intros Hown. cbn [step_run own] in *. apply kept_up_guard.
  destruct (am a) as [|s|b s|] eqn:Em; try done. destruct Hown as [He Hk].
  destruct (Z.eqb_spec x 0) as [->|Hx]; [|apply keep_status; rewrite ?Em; auto].
  case_bool_decide as Hu; [|apply kept_up_blocked]. by eapply keep_enter.
Qed.

(** A new thread. *)
Lemma keep_spawn o' k x v :
  own M Σ L o (Spawn o' k) (am a) (an a) -> kept_up (step_run M t x v o (Spawn o' k) c).
Proof using HA Hok HT Ha.
  intros Hown. cbn [step_run own] in *. apply kept_up_guard.
  destruct (am a) as [|s|b s|] eqn:Em; try done. destruct Hown as [Hsp Hk].
  destruct (Z.eqb_spec x 0) as [->|Hx]; [|apply keep_status; rewrite ?Em; auto].
  case_bool_decide as Hv; [apply kept_up_blocked|]. intros c' ls [= <- <-] _.
  pose proof (lo_mode _ _ _ Hok _ _ Ha) as Hst. rewrite Em in Hst.
  assert (v <> t) as Hne by (intros ->; apply Hv; by eapply elem_of_dom_2).
  set (c1 := put t o (Run (k 0)) c).
  assert (ledger_ok c1 (tr ++ []) (<[t := Acct (am a) (an a)]> A)) as Hok1.
  { eapply (ledger_step c tr A _ [] t o (Run p) (Run (k 0)) a _ (threads c));
      eauto using waked_refl, mode_step_refl; simpl; try done.
    - unfold otok. simpl. rewrite Em. apply Hk.
    - apply (lo_pos _ _ _ Hok _ _ Ha).
    - by rewrite Em.
    - change (balance L []) with 0. unfold stored, c1. simpl. lia.
    - by intros l ?%elem_of_nil. }
  rewrite app_nil_r in Hok1.
  eexists. eapply (ledger_add c1 tr _ _ v o' Outside); eauto; try done.
  - simpl. rewrite lookup_insert_ne by done. by apply not_elem_of_dom.
  - by apply HA.
  - right. split; [done|]. split; [done|]. intros t1 a1 s. rewrite lookup_insert_Some.
    intros [[<- <-]|[Hn H1]]; [by rewrite Em|]. intros E1.
    pose proof (lo_mode _ _ _ Hok _ _ H1) as H2. rewrite E1 in H2. destruct H2 as (_ & _ & H2).
    rewrite (H2 t a) in Em; [done|congruence|done].
Qed.

End rule.

(** A step of a running thread. *)
Lemma keep_run c tr A t o p a x v :
  reachable M o0 h c tr -> ledger_ok c tr A -> threads c !! t = Some (o, Run p) -> A !! t = Some a ->
  own M Σ L o p (am a) (an a) -> kept_up tr (step_run M t x v o p c).
Proof using HA V.
  intros Hr Hok HT Ha Hown. pose proof (lo_mode _ _ _ Hok _ _ Ha) as Hst.
  destruct p as [r| |m k|m k|m k|m k|z k|k|k|k|f k|f k|k|k|q k|q k|g q oe k|q k|d k|o' k|k|e k|l].
  - (* Ret *) intros c' ls [= <- <-] _. eexists. by eapply ledger_del.
  - (* Abort *) apply kept_up_blocked.
  - (* Alloc *) cbn [step_run own] in *. apply kept_up_guard. destruct (am a) as [|s|b s|] eqn:Em; try done.
    destruct Hown as [Hk1 Hk0]. destruct (x =? 0).
    + assert (core c = s) as Hc by (destruct b; apply Hst).
      eapply (keep_alone c tr A t o _ a Hok HT Ha _ _ b s
        (if bool_decide (m = RCore) then zeroed M else s));
        [exact Em|by left| | | |left| |exact Hk1]; case_bool_decide; done.
    + apply (keep_quiet c tr A t o _ a Hok HT Ha _ _ _ (an a)); rewrite ?Em; try done.
      * apply (lo_pos _ _ _ Hok _ _ Ha).
      * change (balance L [LFail t OutOfMemory]) with 0. lia.
      * by intros l ->%list_elem_of_singleton.
  - (* Free *) cbn [step_run own] in *. apply kept_up_guard. destruct (am a) as [|s|b s|] eqn:Em; try done.
    eapply (keep_alone c tr A t o _ a Hok HT Ha _ _ b s s); [exact Em| |done|by destruct b; apply Hst|done|by left|done|exact Hown].
    destruct b; simpl; [by left|]. destruct (negb _); auto.
  - (* Init *) cbn [step_run own] in *. apply kept_up_guard. apply (keep_status c tr A t o _ a Hok HT Ha); by destruct (x =? 0).
  - (* Destroy *) cbn [step_run own] in *. apply kept_up_guard. apply (keep_status c tr A t o _ a Hok HT Ha); by destruct (x =? 0).
  - (* RefStore *) cbn [step_run own] in *. apply kept_up_guard. destruct (am a) as [|s|[] s|] eqn:Em; try done.
    eapply (keep_alone c tr A t o _ a Hok HT Ha _ _ true s s (Alone true s)); auto. apply Hst.
  - (* RefInc *) cbn [step_run own] in *. apply kept_up_guard. destruct (refs c <? MAX_REFS); [|apply kept_up_blocked].
    eapply (keep_join c tr A t o _ a Hr Hok HT Ha k _ (match am a with Alone _ s => an a - kept L s | _ => an a end)); try done.
    destruct (am a) as [|s|[] s|]; try done. destruct Hown. by split_and!.
  - by eapply keep_drop.
  - (* ReadImm *) cbn [step_run own] in *. apply kept_up_guard. apply (keep_silent c tr A t o _ a Hok HT Ha); try done.
  - by eapply keep_access.
  - (* Hook *) by apply (keep_silent c tr A t o _ a Hok HT Ha).
  - by eapply keep_lock.
  - by eapply keep_unlock.
  - by eapply keep_signal.
  - (* Broadcast *) cbn [step_run own] in *. apply kept_up_guard.
    destruct (negb (x =? 0)); [by apply (keep_status c tr A t o _ a Hok HT Ha)|]. apply (keep_wake c tr A t o _ a Hok HT Ha); try done. apply waked_all.
  - by eapply keep_wait.
  - by eapply keep_condwait.
  - (* Wrap *) cbn [step_run own] in *. apply kept_up_guard.
    eapply (keep_join c tr A t o _ a Hr Hok HT Ha k _ (match am a with Alone _ s => an a - kept L s | _ => an a end)); try done.
    destruct (am a) as [|s|[] s|]; try done. destruct Hown. by split_and!.
  - by eapply keep_spawn.
  - (* OsCall *) by apply (keep_status c tr A t o _ a Hok HT Ha).
  - (* Emit *) cbn [step_run own] in *. destruct Hown as (Hn & Hp & Hk).
    apply (keep_quiet c tr A t o _ a Hok HT Ha _ _ _ (an a + gained L e)); try done.
    + rewrite balance_one. simpl. lia.
    + by intros l ->%list_elem_of_singleton.
  - (* Jump *) apply (keep_silent c tr A t o _ a Hok HT Ha); try done. by apply HA.
Qed.

Lemma keep_step c tr A x :
  reachable M o0 h c tr -> ledger_ok c tr A -> kept_up tr (step M x c).
Proof using HA V.
  intros Hr Hok. destruct x as [t o|t x v|t x]; simpl.
  - (* a call *)
    destruct (client M o) eqn:Hcl; [|done]. simpl. case_bool_decide as Hd; [done|].
    apply not_elem_of_dom in Hd. destruct (on_handle M o) as [d|] eqn:Ho.
    + destruct (take_one d (idle c)) as [l|] eqn:Hl; [|done]. intros c' ls [= <- <-] _.
      assert (shared c = true) as Hsh.
      { apply (verified_alive V h c tr Hr). intros E. by rewrite E in Hl. }
      eexists. eapply (ledger_add c tr A _ t o Outside); eauto; try done.
      * by eapply HA.
      * right. split; [done|]. split; [by left|]. intros t1 a1 s H1 E.
        pose proof (lo_mode _ _ _ Hok _ _ H1) as H2. rewrite E in H2. destruct H2. congruence.
    + intros c' ls [= <- <-] _. eexists. eapply (ledger_add c tr A _ t o Apart); eauto; try done.
      by apply HA.
  - (* a step of a thread *)
    destruct (threads c !! t) as [[o ts]|] eqn:HT; [|done].
    pose proof (lo_tok _ _ _ Hok t) as Htok. rewrite HT in Htok.
    inversion Htok as [? a Hown E1 E2|]; subst. symmetry in E2.
    destruct ts as [p|q k|q st k]; [|done|].
    + by eapply keep_run.
    + case_bool_decide as Hu; [|done]. destruct Hown as [Em Hk].
      by eapply (keep_enter c tr A t o a).
  - (* a wait ends without a signal *)
    destruct (threads c !! t) as [[o ts]|] eqn:HT; [|done]. destruct ts as [p|q k|q st k]; try done.
    pose proof (lo_tok _ _ _ Hok t) as Htok. rewrite HT in Htok.
    inversion Htok as [? a Hown E1 E2|]; subst. symmetry in E2.
    destruct Hown as (Em & Hp & Hk). intros c' ls [= <- <-] _.
    exists (<[t := a]> A). pose proof (lo_mode _ _ _ Hok _ _ E2) as Hst. pose proof (lo_pos _ _ _ Hok _ _ E2).
    eapply (ledger_step c tr A _ _ t o _ (Wake q x k) a a (threads c));
      eauto using waked_refl, mode_step_refl; simpl; try done.
    + split; [done|]. intros s Hi. by apply Hk.
    + rewrite insert_id by done. rewrite Em in *. exact Hst.
    + rewrite balance_failed. unfold stored. simpl. lia.
    + intros l Hl%failed_noev. destruct l; try done. destruct Hl. split; [done|lia].
Qed.

Lemma start_ok : ledger_ok (start M o0 h) [] {[ 0%nat := Acct (Alone true (zeroed M)) 0 ]}.
Proof using HA.
  split; simpl.
  - intros t. destruct (decide (t = 0%nat)) as [->|Hne].
    + rewrite !lookup_singleton_eq. constructor. apply HA.
    + rewrite !lookup_singleton_ne by done. constructor.
  - intros t a [<- <-]%lookup_singleton_Some. done.
  - intros t a [<- <-]%lookup_singleton_Some. simpl. split_and!; try done.
    intros t' a' Hne [<- _]%lookup_singleton_Some. done.
  - exists 0. unfold books, hands, stored. simpl.
    unfold singletonM, map_singleton. rewrite msum_new by done. rewrite msum_empty. simpl.
    split_and!; try done. by left.
  - intros tr1 t e tr2 E. by destruct tr1.
Qed.

Lemma run_accounted xs : forall c tr A c' tr',
  reachable M o0 h c tr -> ledger_ok c tr A -> run M xs (c, tr) = Go (c', tr') ->
  exists A', ledger_ok c' tr' A'.
Proof using HA V.
  induction xs as [|x xs IH]; intros c tr A c' tr' Hr Hok; simpl; [intros [= <- <-]; eauto|].
  destruct (step M x c) as [[c1 ls]| |] eqn:Hs; try done.
  pose proof (extend_reachable _ _ _ _ _ _ _ _ Hr Hs) as Hr1.
  destruct (keep_step c tr A x Hr Hok c1 ls Hs Hr1) as [A1 Hok1]. by eapply IH.
Qed.

Lemma reachable_accounted c tr : reachable M o0 h c tr -> exists A, ledger_ok c tr A.
Proof using HA V.
  intros [xs Hxs]. eapply run_accounted; [by exists []|apply start_ok|exact Hxs].
Qed.
End accounts.

(** ** What an accounted component guarantees *)

Section consequences.
Context {S : sig} {M : code S} {Σ : spec S} {L : ledger S} {o0 : sO S}.
Context (V : verified M Σ o0) (HA : accounted M Σ L o0).
Implicit Types (c : config S) (tr : list (label S)).

(** Every effect is covered by references the component has at that point. *)
Theorem accounted_covered h c tr tr1 t e tr2 :
  reachable M o0 h c tr -> tr = tr1 ++ LEv t e :: tr2 -> needed L e <= balance L tr1.
Proof using V HA.
  intros (A & Hok)%(reachable_accounted M Σ L o0 HA V). apply (lo_covered _ _ _ _ _ _ Hok).
Qed.

Theorem accounted_nonneg h c tr : reachable M o0 h c tr -> 0 <= balance L tr.
Proof using V HA.
  intros (A & Hok)%(reachable_accounted M Σ L o0 HA V). by eapply balance_nonneg.
Qed.

(** At rest: every thread that is in an operation sleeps. *)
Definition asleep (x : sO S * tstate S) : bool :=
  match x.2 with Sleep _ _ => true | _ => false end.

Definition at_rest (c : config S) : Prop :=
  forall t x, threads c !! t = Some x -> asleep x = true.

Lemma at_rest_compute c :
  bool_decide (map_Forall (fun _ x => asleep x = true) (threads c)) = true -> at_rest c.
Proof using Type. rewrite bool_decide_eq_true. intros H t x. apply H. Qed.

Lemma rest_free h c tr : reachable M o0 h c tr -> at_rest c -> shared c = true -> free c.
Proof using V.
  intros (G & ab & log & Hc)%(verified_cinv V) Hrest Hsh. split; [done|]. intros t Hh.
  destruct (holder_runs V _ _ _ _ _ _ Hc Hh) as (o & p & g & s0 & s & cr & HT & _).
  by pose proof (Hrest _ _ HT).
Qed.

(** Then the balance is what the fields contain and the sleepers hold. *)
Theorem accounted_rest h c tr :
  reachable M o0 h c tr -> at_rest c -> shared c = true ->
  msum (fun x => (parked L x.1).1) (threads c) <= balance L tr - kept L (core c) <=
  msum (fun x => (parked L x.1).2) (threads c).
Proof using V HA.
  intros (A & Hok)%(reachable_accounted M Σ L o0 HA V) Hrest Hsh.
  destruct (lo_books _ _ _ _ _ _ Hok) as (lost & Hb & _ & _ & Hl).
  assert (lost = 0) as -> by (destruct Hl as [?|[? _]]; [done|congruence]).
  unfold stored in Hb. rewrite Hsh in Hb. rewrite Hb.
  replace (_ - _) with (hands A) by lia.
  pose proof (lo_tok _ _ _ _ _ _ Hok) as Htok. unfold hands. clear Hok Hb Hl.
  unfold at_rest in Hrest. revert A Htok Hrest. generalize (threads c).
  intros T. induction T as [|t x T Hx IH] using map_ind; intros A Htok HT.
  - assert (A = ∅) as ->; [|done]. apply map_empty. intros t. specialize (Htok t).
    rewrite lookup_empty in Htok. by inversion Htok.
  - assert (exists a, A !! t = Some a /\ (parked L x.1).1 <= an a <= (parked L x.1).2) as (a & Ha & Hp).
    { specialize (Htok t). rewrite lookup_insert_eq in Htok. inversion Htok as [? a Ho E1 E2|]; subst.
      exists a. split; [done|]. pose proof (HT t x (lookup_insert_eq _ _ _)) as E.
      unfold otok, asleep in *. destruct (x.2); try done. tauto. }
    pose proof (msum_delete an A t a Ha). rewrite !msum_new by done.
    enough (msum (fun x => (parked L x.1).1) T <= msum an (delete t A) <=
      msum (fun x => (parked L x.1).2) T) by (cbv beta in *; lia). apply IH.
    + intros t1. specialize (Htok t1). destruct (decide (t = t1)) as [<-|Hne].
      * rewrite Hx, lookup_delete_eq. constructor.
      * rewrite lookup_insert_ne in Htok by done. by rewrite lookup_delete_ne.
    + intros t1 x1 H1. apply (HT t1). rewrite lookup_insert_ne; [done|]. intros ->. congruence.
Qed.

(** When everything has been released nothing is owed. *)
Theorem accounted_gone h c tr :
  reachable M o0 h c tr -> threads c = ∅ -> idle c = [] -> exact L -> balance L tr = 0.
Proof using V HA.
  intros Hr HT Hi He.
  assert (shared c = false) as Hsh.
  { destruct (shared c) eqn:Hsh; [|done].
    destruct (verified_quiescent V h c tr Hr Hsh HT) as (_ & _ & H1 & H2 & _).
    rewrite Hi in H1. simpl in H1. lia. }
  apply (reachable_accounted M Σ L o0 HA V) in Hr as (A & Hok).
  destruct (lo_books _ _ _ _ _ _ Hok) as (lost & -> & _ & Hl & _). rewrite (Hl He).
  unfold stored, hands. rewrite Hsh.
  assert (A = ∅) as ->; [|done]. apply map_empty. intros t. pose proof (lo_tok _ _ _ _ _ _ Hok t) as H.
  rewrite HT, lookup_empty in H. by inversion H.
Qed.
End consequences.

(** ** Accounts as lists read off the trace

    For every object [x] the ledger [L x] counts what [came], [left] with a
    result and was [spent] by an effect. *)
Section flows.
Context {S : sig} {M : code S} {Σ : spec S} {o0 : sO S} {X : Type} `{EqDecision X}.
Context (V : verified M Σ o0) (L : X -> ledger S) (HA : forall x, accounted M Σ (L x) o0).
Context (came left spent : label S -> option X) (waits : sO S -> option X).
Context (Hflow : forall x l,
  booking (L x) l = is_in x (came l) - is_in x (left l) - is_in x (spent l)).

Lemma cnt_omap_cons (f : label S -> option X) x l tr :
  Prelude.cnt x (omap f (l :: tr)) = is_in x (f l) + Prelude.cnt x (omap f tr).
Proof using Type. simpl. destruct (f l); simpl; rewrite ?cnt_cons; done. Qed.

Lemma balance_flow x tr :
  balance (L x) tr =
    Prelude.cnt x (omap came tr) - Prelude.cnt x (omap left tr) - Prelude.cnt x (omap spent tr).
Proof using Hflow.
  induction tr as [|l tr IH]; [done|]. unfold balance in *. rewrite lsum_cons, IH, Hflow.
  rewrite !cnt_omap_cons. lia.
Qed.

(** What is spent had come, and neither left nor been spent before. *)
Theorem flow_covered h c tr tr1 t e tr2 x :
  reachable M o0 h c tr -> tr = tr1 ++ LEv t e :: tr2 -> needed (L x) e = 1 ->
  Prelude.cnt x (omap left tr1) + Prelude.cnt x (omap spent tr1) < Prelude.cnt x (omap came tr1).
Proof using V HA Hflow.
  intros Hr Htr He. pose proof (accounted_covered V (HA x) _ _ _ _ _ _ _ Hr Htr) as H.
  rewrite He, balance_flow in H. lia.
Qed.

Theorem flow_nonneg h c tr x :
  reachable M o0 h c tr ->
  Prelude.cnt x (omap left tr) + Prelude.cnt x (omap spent tr) <= Prelude.cnt x (omap came tr).
Proof using V HA Hflow.
  intros Hr. pose proof (accounted_nonneg V (HA x) _ _ _ Hr) as H. rewrite balance_flow in H. lia.
Qed.

(** What the operations that sleep hold. *)
Definition waiting (c : config S) : list X := omap (fun x => waits x.2.1) (map_to_list (threads c)).

Lemma cnt_waiting f x c :
  (forall o, f o = is_in x (waits o)) ->
  msum (fun y => f y.1) (threads c) = Prelude.cnt x (waiting c).
Proof using Type.
  intros Hp. rewrite msum_list. unfold waiting. generalize (map_to_list (threads c)).
  intros l. induction l as [|[t y] l IH]; [done|]. rewrite lsum_cons, IH, Hp. simpl.
  destruct (waits y.1); simpl; rewrite ?cnt_cons; done.
Qed.

Theorem flow_rest h c tr q :
  reachable M o0 h c tr -> at_rest c -> shared c = true ->
  (forall x o, parked (L x) o = (is_in x (waits o), is_in x (waits o))) ->
  (forall x, kept (L x) (core c) = Prelude.cnt x q) ->
  omap came tr ≡ₚ omap left tr ++ omap spent tr ++ q ++ waiting c.
Proof using V HA Hflow.
  intros Hr Hrest Hsh Hp Hq. apply cnt_perm. intros x.
  pose proof (accounted_rest V (HA x) _ _ _ Hr Hrest Hsh) as H.
  rewrite balance_flow, Hq in H.
  rewrite (cnt_waiting (fun o => (parked (L x) o).1) x), (cnt_waiting (fun o => (parked (L x) o).2) x) in H
    by (intros o; by rewrite Hp).
  rewrite !cnt_app. lia.
Qed.

(** The same when a sleeper may hold its object or not. *)
Theorem flow_rest_upto h c tr q :
  reachable M o0 h c tr -> at_rest c -> shared c = true ->
  (forall x o, parked (L x) o = (0, is_in x (waits o))) ->
  (forall x, kept (L x) (core c) = Prelude.cnt x q) ->
  omap left tr ++ omap spent tr ++ q ⊆+ omap came tr /\
  omap came tr ⊆+ omap left tr ++ omap spent tr ++ q ++ waiting c.
Proof using V HA Hflow.
  intros Hr Hrest Hsh Hp Hq. split; apply cnt_submseteq; intros x;
    pose proof (accounted_rest V (HA x) _ _ _ Hr Hrest Hsh) as H;
    rewrite balance_flow, Hq, (cnt_waiting (fun o => (parked (L x) o).2) x) in H
      by (intros o; by rewrite Hp);
    rewrite (msum_zero (fun y => (parked (L x) y.1).1)) in H by (intros; by rewrite Hp);
    rewrite !cnt_app; lia.
Qed.

Theorem flow_gone h c tr :
  reachable M o0 h c tr -> threads c = ∅ -> idle c = [] -> (forall x, exact (L x)) ->
  omap came tr ≡ₚ omap left tr ++ omap spent tr.
Proof using V HA Hflow.
  intros Hr HT Hi He. apply cnt_perm. intros x.
  pose proof (accounted_gone V (HA x) _ _ _ Hr HT Hi (He x)) as H.
  rewrite balance_flow in H. rewrite cnt_app. lia.
Qed.
End flows.
