(* ===== verification/Native.v ===== *)
(** Native: the helpers of src/internal that every component uses, as programs
    of the machine: the OS wrappers of native_sync.h, the atomic reference
    count and test hooks of native_internal.h and the allocation helpers. *)
From stdpp Require Import base gmap list.
From Stdlib Require Import ZArith Lia.
From S2P Require Import Prelude Machine Logic.

(** Lemmas that discharge side conditions of verification conditions. *)
Create HintDb wpdb.

(** ** Results of exported functions *)

(** [status] is the [int32_t *status] (or [*error]) out-parameter. *)
Inductive res :=
| RHandle (ok : bool) (status : Z)   (** a handle, or NULL when [ok] is false *)
| RInt (v : Z) (status : Z)
| RVoid (status : Z)
| RUnit.

Definition status_of (r : res) : option Z :=
  match r with RHandle _ st | RInt _ st | RVoid st => Some st | RUnit => None end.

(** The reporting rule of every exported function: the first failing status
    becomes the out-parameter; a failed allocation never returns. *)
Definition reported (out : option Z) (e : option failure) : Prop :=
  match e with
  | None => True
  | Some (OsFail st) => out = Some st
  | Some OutOfMemory => False
  end.

Definition reports (r : res) (e : option failure) : Prop := reported (status_of r) e.

Lemma record_error_zero a b : record_error a b = 0 -> a = 0 /\ b = 0.
Proof. unfold record_error. repeat zcase; simpl; lia. Qed.

Lemma record_error_0 st : record_error 0 st = st.
Proof. unfold record_error. simpl. by destruct (Z.eqb_spec st 0). Qed.

Lemma record_error_r0 st : record_error st 0 = st.
Proof. unfold record_error. simpl. by rewrite andb_false_r. Qed.

Lemma note_st_fail st : st <> 0 -> note_st None st = Some (OsFail st).
Proof. intros H. unfold note_st. by rewrite (proj2 (Z.eqb_neq _ _) H). Qed.

(** Recording two statuses is noting two failures. *)
Lemma note_st_note_st e a b : note_st (note_st e a) b = note_st e (record_error a b).
Proof. unfold note_st, note, record_error. repeat zcase; simpl; repeat zcase; by destruct e. Qed.

Lemma note_of_st e st : st <> 0 -> note e (OsFail st) = note_st e st.
Proof. intros H. unfold note_st. by rewrite (proj2 (Z.eqb_neq _ _) H). Qed.

Lemma wadd_sub w c : wsub (wadd w c) c = w.
Proof. destruct w. unfold wsub, wadd. simpl. f_equal; lia. Qed.

Lemma record_error_left a b : a <> 0 -> record_error a b <> 0.
Proof. unfold record_error. repeat zcase; simpl; lia. Qed.

Lemma record_error_right a b : b <> 0 -> record_error a b <> 0.
Proof. unfold record_error. repeat zcase; simpl; lia. Qed.

#[export] Hint Resolve record_error_left record_error_right : wpdb.

(** ** Test hooks: static atomics of each file *)

Record hook (H : Type) := MkHook { hget : H -> Z; hset : Z -> H -> H }.
Arguments MkHook {H} _ _.
Arguments hget {H} _ _.
Arguments hset {H} _ _ _.

Section native.
Context {S : sig}.
Local Open Scope prog_scope.

Definition sync_os_mutex_init (k : Z -> prog S) : prog S := Init RMutex k.
Definition sync_os_mutex_destroy (k : Z -> prog S) : prog S := Destroy RMutex k.
Definition sync_os_mutex_lock (k : Z -> prog S) : prog S := Lock k.
Definition sync_os_mutex_unlock (k : Z -> prog S) : prog S := Unlock k.
Definition sync_os_cond_init (c : sC S) (k : Z -> prog S) : prog S := Init (RCond c) k.
Definition sync_os_cond_destroy (c : sC S) (k : Z -> prog S) : prog S := Destroy (RCond c) k.
Definition sync_os_cond_signal (c : sC S) (k : Z -> prog S) : prog S := Signal c k.
Definition sync_os_cond_broadcast (c : sC S) (k : Z -> prog S) : prog S := Broadcast c k.

Definition sync_arc_inc (k : prog S) : prog S := RefInc k.
Definition sync_arc_dec (k : Z -> prog S) : prog S := RefDec k.

Definition sync_test_atomic_load (x : hook (sH S)) (k : Z -> prog S) : prog S :=
  Hook (fun h => h) (fun h => k (hget x h)).
Definition sync_test_atomic_store (x : hook (sH S)) (next : Z) (k : prog S) : prog S :=
  Hook (hset x next) (fun _ => k).
Definition sync_test_atomic_take (x : hook (sH S)) (k : Z -> prog S) : prog S :=
  Hook (hset x 0) (fun h => k (hget x h)).
(** Returns whether the exchange took place, and [*expected] afterwards. *)
Definition sync_test_atomic_compare_exchange (x : hook (sH S)) (expected desired : Z)
    (k : bool -> Z -> prog S) : prog S :=
  Hook (fun h => if hget x h =? expected then hset x desired h else h)
       (fun h => if hget x h =? expected then k true expected else k false (hget x h)).

(** [sync_array_size_or_abort] aborts on a non-positive length or when the
    byte size overflows [size_t] (64 bits). *)
Definition SIZE_MAX : Z := 2 ^ 64 - 1.
Definition sync_array_size_or_abort (length element_size : Z) (k : Z -> prog S) : prog S :=
  if (length <=? 0) || (SIZE_MAX / element_size <? length) then Abort
  else k (length * element_size).

(** The copies of [sync_*_abort_if_failed] and lock-or-abort helpers. *)
Definition lock_or_abort (k : prog S) : prog S :=
  st <- sync_os_mutex_lock;; abort_if_failed st k.
Definition unlock_or_abort (k : prog S) : prog S :=
  st <- sync_os_mutex_unlock;; abort_if_failed st k.
End native.

(** ** Automation for verification conditions *)


(** Unfold the helpers of this file. *)
Ltac unfold_native :=
  unfold sync_os_mutex_init, sync_os_mutex_destroy, sync_os_mutex_lock, sync_os_mutex_unlock,
    sync_os_cond_init, sync_os_cond_destroy, sync_os_cond_signal, sync_os_cond_broadcast,
    sync_arc_inc, sync_arc_dec, sync_test_atomic_load, sync_test_atomic_store,
    sync_test_atomic_take, sync_test_atomic_compare_exchange, lock_or_abort, unlock_or_abort,
    sync_alloc, abort_if_failed, Read, Write in *.

(** Solve side conditions about resource lists and decided equalities. *)
Ltac rsrc_solve :=
  match goal with
  | |- ?x ∈ ?l => apply (bool_decide_eq_true_1 (x ∈ l)); vm_compute; reflexivity
  | |- ?x ∉ ?l => apply (bool_decide_eq_true_1 (x ∉ l)); vm_compute; reflexivity
  | |- _ = _ -> remove_rsrc _ _ = [] => intros; first [discriminate | vm_compute; reflexivity]
  | |- remove_rsrc _ _ = _ => vm_compute; reflexivity
  end.

(** Releasing the mutex with or without committing to a result. *)
Section unlock.
Context {S : sig} {M : code S} {Σ : spec S}.

Lemma unlock_commit o a a' p v n w e r :
  wp M Σ o p v n w (Some r) e -> atomic Σ o a r a' ->
  exists l', commit Σ o a a' None l' /\ wp M Σ o p v n w l' e.
Proof. intros H Ha. exists (Some r). split; [|done]. right. eauto. Qed.

Lemma unlock_keep o a a' p v n w l e :
  a' = a -> wp M Σ o p v n w l e ->
  exists l', commit Σ o a a' l l' /\ wp M Σ o p v n w l' e.
Proof. intros Ha H. exists l. split; [|done]. left. auto. Qed.

Lemma unlock_internal o a a' p v n w l e r :
  internal Σ o a r a' -> wp M Σ o p v n w l e ->
  exists l', commit Σ o a a' l l' /\ wp M Σ o p v n w l' e.
Proof. intros Ha H. exists l. split; [|done]. left. eauto. Qed.
End unlock.

(** ** Proof rules, one per construct

    Each unfolds [wp] by one construct only, so that the condition of the
    continuation stays folded. *)
Section rules.
Context {S : sig} {M : code S} {Σ : spec S}.
Implicit Types (o : sO S) (s : sP S) (w : wt) (l : option (sR S)) (e : option failure).

Lemma wp_alloc_core o k s c b n w l e :
  wp M Σ o (k true) (Excl (zeroed M) [RCore] c b) n w l e ->
  wp M Σ o (k false) (Excl s [] c b) n w l (note e OutOfMemory) ->
  wp M Σ o (Alloc RCore k) (Excl s [] c b) n w l e.
Proof. intros H1 H2. split; [apply not_elem_of_nil|]. split; [|done]. by rewrite bool_decide_true. Qed.

Lemma wp_alloc_buf o k s rs c b n w l e :
  RBuf ∉ rs ->
  wp M Σ o (k true) (Excl s (RBuf :: rs) c b) n w l e ->
  wp M Σ o (k false) (Excl s rs c b) n w l (note e OutOfMemory) ->
  wp M Σ o (Alloc RBuf k) (Excl s rs c b) n w l e.
Proof. intros H0 H1 H2. split; [done|]. split; [|done]. by rewrite bool_decide_false. Qed.

Lemma wp_free o m k s rs c b n w l e :
  m ∈ rs -> (m = RCore -> remove_rsrc m rs = []) ->
  wp M Σ o k (Excl s (remove_rsrc m rs) c b) n w l e ->
  wp M Σ o (Free m k) (Excl s rs c b) n w l e.
Proof. by repeat split. Qed.

Lemma wp_init o m k s rs c b n w l e :
  RCore ∈ rs -> m ∉ rs ->
  wp M Σ o (k 0) (Excl s (m :: rs) c b) n w l e ->
  (forall st, st <> 0 -> wp M Σ o (k st) (Excl s rs c b) n w l (note e (OsFail st))) ->
  wp M Σ o (Init m k) (Excl s rs c b) n w l e.
Proof. by repeat split. Qed.

Lemma wp_destroy o m k s rs c b n w l e :
  RCore ∈ rs -> m ∈ rs ->
  wp M Σ o (k 0) (Excl s (remove_rsrc m rs) c b) n w l e ->
  (forall st, st <> 0 -> wp M Σ o (k st) (Excl s rs c b) n w l (note e (OsFail st))) ->
  wp M Σ o (Destroy m k) (Excl s rs c b) n w l e.
Proof. by repeat split. Qed.

Lemma wp_refstore o z k s rs c b n w l e :
  RCore ∈ rs -> wp M Σ o k (Excl s rs z b) n w l e ->
  wp M Σ o (RefStore z k) (Excl s rs c b) n w l e.
Proof. by repeat split. Qed.

Lemma wp_refinc_out o k n w l e :
  wp M Σ o k Out (n + 1) w l e -> wp M Σ o (RefInc k) Out n w l e.
Proof. done. Qed.

Lemma wp_refinc_in o k s0 s cr n w l e :
  wp M Σ o k (In s0 s cr) (n + 1) w l e -> wp M Σ o (RefInc k) (In s0 s cr) n w l e.
Proof. done. Qed.

Lemma wp_refdec_last o k w l e :
  w.1 = 0 -> (forall r, 0 < r -> wp M Σ o (k r) Gone 0 w0 l e) ->
  (forall s, inv Σ s -> (cnt Σ s).1 = 0 -> wp M Σ o (k 0) (Excl s (full Σ) 0 true) 0 w0 l e) ->
  wp M Σ o (RefDec k) Out 1 w l e.
Proof. by repeat split. Qed.

Lemma wp_refdec_more o k n w l e :
  n <> 1 -> w.1 <= n - 1 -> (forall r, 0 < r -> wp M Σ o (k r) Out (n - 1) w l e) ->
  wp M Σ o (RefDec k) Out n w l e.
Proof. intros Hn Hw H. cbn [wp]. by rewrite (proj2 (Z.eqb_neq _ _) Hn). Qed.

Lemma wp_readimm_out o k n w l e :
  (forall s, inv Σ s -> wp M Σ o (k (imm M s)) Out n w l e) ->
  wp M Σ o (ReadImm k) Out n w l e.
Proof. done. Qed.

Lemma wp_readimm_in o k s0 s cr n w l e :
  wp M Σ o (k (imm M s)) (In s0 s cr) n w l e ->
  wp M Σ o (ReadImm k) (In s0 s cr) n w l e.
Proof. done. Qed.

Lemma wp_readimm_excl o k s rs c b n w l e :
  RCore ∈ rs -> wp M Σ o (k (imm M s)) (Excl s rs c b) n w l e ->
  wp M Σ o (ReadImm k) (Excl s rs c b) n w l e.
Proof. by repeat split. Qed.

Lemma wp_access_in o f k s0 s s' cr n w l e :
  f s = Some s' -> imm M s' = imm M s -> wp M Σ o (k s) (In s0 s' cr) n w l e ->
  wp M Σ o (Access f k) (In s0 s cr) n w l e.
Proof. intros Hf Hi H. cbn [wp]. by rewrite Hf. Qed.

Lemma wp_access_excl o f k s s' rs c b n w l e :
  RCore ∈ rs -> f s = Some s' -> wp M Σ o (k s) (Excl s' rs c b) n w l e ->
  wp M Σ o (Access f k) (Excl s rs c b) n w l e.
Proof. intros Hr Hf H. cbn [wp]. by rewrite Hf. Qed.

Lemma wp_read_in o k s0 s cr n w l e :
  wp M Σ o (k s) (In s0 s cr) n w l e -> wp M Σ o (Access Some k) (In s0 s cr) n w l e.
Proof. done. Qed.

Lemma wp_read_excl o k s rs c b n w l e :
  RCore ∈ rs -> wp M Σ o (k s) (Excl s rs c b) n w l e ->
  wp M Σ o (Access Some k) (Excl s rs c b) n w l e.
Proof. done. Qed.

Lemma wp_hook o f k v n w l e :
  (forall h, wp M Σ o (k h) v n w l e) -> wp M Σ o (Hook f k) v n w l e.
Proof. done. Qed.

Lemma wp_lock o k n w l e :
  (forall st, st <> 0 -> wp M Σ o (k st) Out n w l (note e (OsFail st))) ->
  (forall s, inv Σ s -> counted Σ w s -> wp M Σ o (k 0) (In s s cr0) n w l e) ->
  wp M Σ o (Lock k) Out n w l e.
Proof. by repeat split. Qed.

Lemma wp_unlock o k s0 s cr n w l e :
  inv Σ s -> wle w0 (wsub (wadd w (cnt Σ s)) (cnt Σ s0)) ->
  (wsub (wadd w (cnt Σ s)) (cnt Σ s0)).1 <= n -> no_lost Σ s0 s cr e ->
  (forall st, exists l', commit Σ o (Some (abs Σ s0)) (Some (abs Σ s)) l l' /\
     wp M Σ o (k st) Out n (wsub (wadd w (cnt Σ s)) (cnt Σ s0)) l' (note_st e st)) ->
  wp M Σ o (Unlock k) (In s0 s cr) n w l e.
Proof. intros H1 H2 H3 H4 H5. exact (conj H1 (conj H2 (conj H3 (conj H4 H5)))). Qed.

Lemma wp_signal_out o q k n w l e :
  wp M Σ o (k 0) Out n w l e ->
  (forall st, st <> 0 -> wp M Σ o (k st) Out n w l (note e (OsFail st))) ->
  wp M Σ o (Signal q k) Out n w l e.
Proof. by repeat split. Qed.

Lemma wp_signal_in o q k s0 s cr n w l e :
  wp M Σ o (k 0) (In s0 s (set_cr cr q (Z.add 1 <$> cr q))) n w l e ->
  (forall st, st <> 0 -> wp M Σ o (k st) (In s0 s cr) n w l (note e (OsFail st))) ->
  wp M Σ o (Signal q k) (In s0 s cr) n w l e.
Proof. by repeat split. Qed.

Lemma wp_broadcast_out o q k n w l e :
  wp M Σ o (k 0) Out n w l e ->
  (forall st, st <> 0 -> wp M Σ o (k st) Out n w l (note e (OsFail st))) ->
  wp M Σ o (Broadcast q k) Out n w l e.
Proof. by repeat split. Qed.

Lemma wp_broadcast_in o q k s0 s cr n w l e :
  wp M Σ o (k 0) (In s0 s (set_cr cr q None)) n w l e ->
  (forall st, st <> 0 -> wp M Σ o (k st) (In s0 s cr) n w l (note e (OsFail st))) ->
  wp M Σ o (Broadcast q k) (In s0 s cr) n w l e.
Proof. by repeat split. Qed.

Lemma wp_waitwhile o g q onerr k s0 s cr n w l e :
  (g s = true -> may_sleep Σ q s0 s cr e) ->
  (g s = true -> forall st, st <> 0 ->
     wp M Σ o (onerr st) (In s s cr) n w l (note e (OsFail st))) ->
  (forall s', inv Σ s' -> g s' = true -> may_sleep Σ q s' s' (woken q) e) ->
  (forall s', inv Σ s' -> counted Σ w s' -> g s' = false ->
     wp M Σ o k (In s' s' (woken q)) n w l e) ->
  (forall s' st, st <> 0 -> inv Σ s' -> counted Σ w s' ->
     wp M Σ o (onerr st) (In s' s' (woken q)) n w l (note e (OsFail st))) ->
  (g s = false -> wp M Σ o k (In s0 s cr) n w l e) ->
  wp M Σ o (WaitWhile g q onerr k) (In s0 s cr) n w l e.
Proof.
  intros H1 H2 H3 H4 H5 H6. cbn [wp]. destruct (g s) eqn:Hg; [|auto].
  split; [auto|]. split; [auto|]. split; [|auto].
  intros s' ??. destruct (g s') eqn:?; auto.
Qed.

Lemma wp_wrap_last o d k e w l :
  w = kw Σ d -> wp M Σ o k Gone 0 w0 l e -> wp M Σ o (Wrap d k) Out 1 w l e.
Proof. by repeat split. Qed.

Lemma wp_wrap_more o d k n w l e :
  n <> 1 -> wle (kw Σ d) w -> w.1 - (kw Σ d).1 <= n - 1 ->
  wp M Σ o k Out (n - 1) (wsub w (kw Σ d)) l e ->
  wp M Σ o (Wrap d k) Out n w l e.
Proof. intros Hn Hw Hw1 H. cbn [wp]. by rewrite (proj2 (Z.eqb_neq _ _) Hn). Qed.

Lemma wp_wrap_new o d k s rs n w l r e :
  rs = full Σ -> inv Σ s -> cnt Σ s = kw Σ d -> atomic Σ o None r (Some (abs Σ s)) -> l = None ->
  wp M Σ o k Gone 0 w0 (Some r) e ->
  wp M Σ o (Wrap d k) (Excl s rs 1 false) n w l e.
Proof. intros -> Hi Hc Ha -> H. repeat split; auto. exists (Some r). split; [right; eauto|done]. Qed.

Lemma wp_refinc_new o k s rs n w l r e :
  rs = full Σ -> inv Σ s -> wle w0 (cnt Σ s) -> (cnt Σ s).1 <= 2 -> atomic Σ o None r (Some (abs Σ s)) -> l = None ->
  wp M Σ o k Out 2 (cnt Σ s) (Some r) e ->
  wp M Σ o (RefInc k) (Excl s rs 1 false) n w l e.
Proof.
  intros -> Hi [? ?] Hc Ha -> Hk. repeat split; auto. exists (Some r). split; [right; eauto|done].
Qed.

Lemma wp_refinc_internal o k s rs n w r e :
  rs = full Σ -> inv Σ s -> wle w0 (cnt Σ s) -> (cnt Σ s).1 <= 2 ->
  internal Σ o None r (Some (abs Σ s)) -> wp M Σ o k Out 2 (cnt Σ s) None e ->
  wp M Σ o (RefInc k) (Excl s rs 1 false) n w None e.
Proof.
  intros -> Hi [? ?] Hc Ha Hk. repeat split; auto. exists None. split; [left; eauto|done].
Qed.

Lemma wp_spawn o o' k n w l e :
  2 <= n -> wle (sw Σ o') w -> w.1 - (sw Σ o').1 <= n - 1 -> spawnable Σ o' = true ->
  wp M Σ o (k 0) Out (n - 1) (wsub w (sw Σ o')) l e ->
  (forall st, st <> 0 -> wp M Σ o (k st) Out n w l (note e (OsFail st))) ->
  wp M Σ o (Spawn o' k) Out n w l e.
Proof. intros H1 H2 H3 H4 H5 H6.
  exact (conj H1 (conj H2 (conj H3 (conj H4 (conj H5 H6))))). Qed.

Lemma wp_oscall o k v n w l e :
  wp M Σ o (k 0) v n w l e ->
  (forall st, st <> 0 -> wp M Σ o (k st) v n w l (note e (OsFail st))) ->
  wp M Σ o (OsCall k) v n w l e.
Proof. by repeat split. Qed.

Lemma wp_emit o ev k v n w l e : wp M Σ o k v n w l e -> wp M Σ o (Emit ev k) v n w l e.
Proof. done. Qed.

Lemma wp_abort o v n w l e :
  e <> None \/ abortok Σ o -> wp M Σ o Abort v n w l e.
Proof. done. Qed.

Lemma wp_ret_gone o r n w l e :
  n = back M o -> w = backw M Σ o -> lin_ok Σ o r l -> errok Σ o r e ->
  wp M Σ o (Ret r) Gone n w l e.
Proof. by repeat split. Qed.

Lemma wp_ret_out o r n w l e :
  n = back M o -> w = backw M Σ o -> lin_ok Σ o r l -> errok Σ o r e ->
  wp M Σ o (Ret r) Out n w l e.
Proof. by repeat split. Qed.

Lemma wp_ret_excl o r s c b n w l e :
  n = back M o -> w = backw M Σ o -> lin_ok Σ o r l -> errok Σ o r e ->
  wp M Σ o (Ret r) (Excl s [] c b) n w l e.
Proof. by repeat split. Qed.
End rules.

(** Sleeping and releasing the mutex without a change. *)
Section unchanged.
Context {S : sig} (Σ : spec S).

Lemma slack_ok_refl s q : slack_ok Σ s s cr0 q.
Proof.
  unfold slack_ok, cr0. destruct (slack Σ q s) as [z|]; [|done].
  exists z. split; [done|lia].
Qed.

Lemma no_lost_refl s e : no_lost Σ s s cr0 e.
Proof. intros _ q. apply slack_ok_refl. Qed.

Lemma no_lost_note s0 s cr e f : no_lost Σ s0 s cr (note e f).
Proof. intros H. by destruct e. Qed.

Lemma no_lost_note_st s0 s cr e st : st <> 0 -> no_lost Σ s0 s cr (note_st e st).
Proof. intros H. rewrite <- note_of_st by done. apply no_lost_note. Qed.

(** An update the waiters cannot tell. *)
Lemma slack_ext s s' e :
  (forall q, slack Σ q s' = slack Σ q s) -> no_lost Σ s s' cr0 e.
Proof.
  intros H _ q. unfold slack_ok, cr0. rewrite H. destruct (slack Σ q s) as [z|]; [|done].
  exists z. split; [done|lia].
Qed.

Lemma may_sleep_first q s e :
  inv Σ s -> slack Σ q s = Some 0 -> may_sleep Σ q s s cr0 e.
Proof.
  intros Hi Hs. repeat split; try done. { exists 0. split; [done|lia]. }
  intros q' _. apply slack_ok_refl.
Qed.

Lemma may_sleep_again q s e :
  inv Σ s -> slack Σ q s = Some 0 -> may_sleep Σ q s s (woken q) e.
Proof.
  intros Hi Hs. repeat split; try done. { exists 0. split; [done|lia]. }
  intros q' Hq. unfold slack_ok, woken, set_cr, cr0. rewrite decide_False by done.
  destruct (slack Σ q' s) as [z|]; [|done]. exists z. split; [done|lia].
Qed.

(** A waiter that was woken leaves the count of justified sleepers as it is
    when no slack is left. *)
Lemma no_lost_woken q s e :
  match slack Σ q s with Some z => z <= 0 | None => True end ->
  no_lost Σ s s (woken q) e.
Proof.
  intros Hs _ q'. unfold slack_ok, woken, set_cr.
  destruct (decide (q' = q)) as [->|]; [|apply slack_ok_refl].
  destruct (slack Σ q s) as [z|]; [|done]. exists z. split; [done|lia].
Qed.
End unchanged.

(** The reporting obligation of a return. *)
Ltac err_solve :=
  unfold note_st, note, reports, reported, status_of, record_error in *; simpl in *;
  repeat match goal with
    | |- context [?x =? ?y] => destruct (Z.eqb_spec x y); simpl in *; subst; try lia
    | H : context [?x =? ?y] |- _ => destruct (Z.eqb_spec x y); simpl in *; subst; try lia
    end; simpl in *; try done; try congruence; try lia.

(** Equalities of weights. *)
Ltac wt_solve :=
  unfold wsub, wadd, w0, wle, backw, back in *; simpl in *;
  repeat split; try reflexivity; repeat (apply f_equal2 || f_equal); lia.

(** Case analysis on the condition of the program's next test. *)
Ltac wp_test b :=
  lazymatch b with
  | negb (?x =? ?y) =>
      let E := fresh "Htest" in
      case_eq (x =? y); intros E; [apply Z.eqb_eq in E|apply Z.eqb_neq in E]; cbn [negb]
  | (?x =? ?y) =>
      let E := fresh "Htest" in
      case_eq (x =? y); intros E; [apply Z.eqb_eq in E|apply Z.eqb_neq in E]
  | _ => let E := fresh "Htest" in case_eq b; intros E
  end.

(** The resources left in an exclusive view, computed. *)
Ltac wp_rsrcs :=
  match goal with
  | |- context [remove_rsrc ?m ?rs] =>
      let x := eval vm_compute in (remove_rsrc m rs) in change (remove_rsrc m rs) with x
  | _ => idtac
  end.

(** How a partial field update [f s = Some ?s'] is shown to be defined;
    components extend it. *)
Ltac z32 := unfold INT32_MIN, INT32_MAX in *; lia.
Ltac wp_access :=
  repeat match goal with H : counted _ _ _ |- _ => destruct H as [[? ?] ?]; simpl in * end;
  unfold MAX_REFS in *; cbn; rewrite ?i32_some by z32; reflexivity.

(** One symbolic step. *)
Ltac wp_step :=
  lazymatch goal with
  | |- wp _ _ _ (if ?b then _ else _) _ _ _ _ _ =>
      wp_test b; try (exfalso; lia); try (exfalso; congruence)
  | |- wp _ _ _ (let _ := _ in _) _ _ _ _ _ => cbv zeta
  | |- wp _ _ _ (Ret _) Gone _ _ _ _ => apply wp_ret_gone
  | |- wp _ _ _ (Ret _) Out _ _ _ _ => apply wp_ret_out
  | |- wp _ _ _ (Ret _) (Excl _ _ _ _) _ _ _ _ => apply wp_ret_excl
  | |- wp _ _ _ Abort _ _ _ _ _ => apply wp_abort
  | |- wp _ _ _ (Alloc RCore _) _ _ _ _ _ => apply wp_alloc_core
  | |- wp _ _ _ (Alloc RBuf _) _ _ _ _ _ => apply wp_alloc_buf
  | |- wp _ _ _ (Free _ _) _ _ _ _ _ => apply wp_free; [..|wp_rsrcs]
  | |- wp _ _ _ (Init _ _) _ _ _ _ _ => apply wp_init
  | |- wp _ _ _ (Destroy _ _) _ _ _ _ _ => apply wp_destroy; [| |wp_rsrcs|intro; intro]
  | |- wp _ _ _ (RefStore _ _) _ _ _ _ _ => apply wp_refstore
  | |- wp _ _ _ (RefInc _) Out _ _ _ _ => apply wp_refinc_out
  | |- wp _ _ _ (RefInc _) (In _ _ _) _ _ _ _ => apply wp_refinc_in
  | |- wp _ _ _ (RefInc _) (Excl _ _ _ _) _ _ _ _ => eapply wp_refinc_new; [reflexivity|..]
  | |- wp _ _ _ (RefDec _) Out 1 _ _ _ => apply wp_refdec_last
  | |- wp _ _ _ (RefDec _) Out _ _ _ _ => apply wp_refdec_more
  | |- wp _ _ _ (ReadImm _) Out _ _ _ _ => apply wp_readimm_out
  | |- wp _ _ _ (ReadImm _) (In _ _ _) _ _ _ _ => apply wp_readimm_in
  | |- wp _ _ _ (ReadImm _) (Excl _ _ _ _) _ _ _ _ => apply wp_readimm_excl
  | |- wp _ _ _ (Access Some _) (In _ _ _) _ _ _ _ => apply wp_read_in
  | |- wp _ _ _ (Access Some _) (Excl _ _ _ _) _ _ _ _ => apply wp_read_excl
  | |- wp _ _ _ (Access _ _) (In _ _ _) _ _ _ _ =>
      eapply wp_access_in; [solve [wp_access]|reflexivity|]
  | |- wp _ _ _ (Access _ _) (Excl _ _ _ _) _ _ _ _ =>
      eapply wp_access_excl; [rsrc_solve|solve [wp_access]|]
  | |- wp _ _ _ (Hook _ _) _ _ _ _ _ => apply wp_hook; intro
  | |- wp _ _ _ (Lock _) _ _ _ _ _ => apply wp_lock
  | |- wp _ _ _ (Unlock _) _ _ _ _ _ => apply wp_unlock
  | |- wp _ _ _ (Signal _ _) Out _ _ _ _ => apply wp_signal_out
  | |- wp _ _ _ (Signal _ _) (In _ _ _) _ _ _ _ => apply wp_signal_in
  | |- wp _ _ _ (Broadcast _ _) Out _ _ _ _ => apply wp_broadcast_out
  | |- wp _ _ _ (Broadcast _ _) (In _ _ _) _ _ _ _ => apply wp_broadcast_in
  | |- wp _ _ _ (WaitWhile _ _ _ _) _ _ _ _ _ => apply wp_waitwhile
  | |- wp _ _ _ (Wrap _ _) Out 1 _ _ _ => apply wp_wrap_last
  | |- wp _ _ _ (Wrap _ _) Out _ _ _ _ => apply wp_wrap_more
  | |- wp _ _ _ (Wrap _ _) (Excl _ _ _ _) _ _ _ _ => eapply wp_wrap_new; [reflexivity|..]
  | |- wp _ _ _ (Spawn _ _) _ _ _ _ _ => apply wp_spawn
  | |- wp _ _ _ (OsCall _) _ _ _ _ _ => apply wp_oscall
  | |- wp _ _ _ (Emit _ _) _ _ _ _ _ => apply wp_emit
  | |- wp _ _ _ (match ?x with _ => _ end) _ _ _ _ _ => destruct x eqn:?
  | |- forall _, wp _ _ _ _ _ _ _ _ _ => intro
  | |- _ -> wp _ _ _ _ _ _ _ _ _ => intro
  | |- _ -> _ -> wp _ _ _ _ _ _ _ _ _ => intro; intro
  | |- forall _, _ -> wp _ _ _ _ _ _ _ _ _ => intro; intro
  | |- _ -> forall _, _ -> wp _ _ _ _ _ _ _ _ _ => intro; intro; intro
  | |- forall _, _ -> _ -> wp _ _ _ _ _ _ _ _ _ => intro; intro; intro
  | |- forall _, _ -> _ -> _ -> wp _ _ _ _ _ _ _ _ _ => intro; intro; intro; intro
  | |- forall _ _, _ -> _ -> _ -> wp _ _ _ _ _ _ _ _ _ => intro; intro; intro; intro; intro
  end; cbv beta.

(** Routine side conditions. *)
Ltac wp_side :=
  lazymatch goal with
  | |- _ ∈ _ => rsrc_solve
  | |- _ ∉ _ => rsrc_solve
  | |- _ = RCore -> remove_rsrc _ _ = [] => rsrc_solve
  | |- _ = back _ _ => reflexivity
  | |- _ = backw _ _ _ => first [reflexivity | solve [wt_solve]]
  | |- lin_ok _ _ _ (Some _) => left; reflexivity
  | |- lin_ok _ _ _ None => right; split; [reflexivity|intros ?; cbn]
  | |- errok _ _ _ _ => solve [cbn; err_solve]
  | |- note _ _ <> None \/ _ => left; unfold note; cbn; solve [discriminate | congruence | destruct_or!; congruence]
  | |- note_st _ _ <> None \/ _ => left; unfold note_st, note; err_solve
  | |- @eq (option _) None None => reflexivity
  | |- inv _ _ => assumption
  | |- no_lost _ _ _ _ (note _ _) => intros [=]
  | |- no_lost _ _ _ _ (Some _) => intros [=]
  | |- no_lost _ ?s ?s cr0 _ => apply no_lost_refl
  | |- @eq wt _ _ => solve [wt_solve]
  | |- _.1 = 0 => solve [unfold wsub, wadd, w0; simpl; lia]
  | |- wle _ _ => solve [wt_solve]
  | |- _ <> 1 => lia
  | |- _.1 <= _ => solve [unfold wsub, wadd, w0; simpl; lia]
  | |- _.1 - _.1 <= _ => solve [unfold wsub, wadd, w0; simpl; lia]
  end.

Ltac wp_run := repeat (wp_step || wp_side).

(** The same, up to the releases of the mutex. *)
Ltac wp_to_unlock :=
  repeat lazymatch goal with
    | |- wp _ _ _ (Unlock _) _ _ _ _ _ => fail
    | _ => first [wp_step | wp_side]
    end.

(** Release the mutex, committing to the result the program then returns. *)
Ltac wp_commit :=
  lazymatch goal with
  | |- forall _, exists _, commit _ _ _ _ None _ /\ _ => intro; eapply unlock_commit; [wp_run|cbn]
  | |- forall _, exists _, commit _ _ _ _ _ _ /\ _ => intro; apply unlock_keep; [reflexivity|wp_run]
  end.
