(* ===== verification/WaitGroup.v ===== *)
(** WaitGroup: src/wait_group/native.c. *)
From stdpp Require Import base gmap list.
From Stdlib Require Import ZArith Lia.
From S2P Require Import Prelude Machine Logic Soundness Verified Native.

Local Open Scope prog_scope.

(** ** State *)

(** The plain field of [sync_wait_group_core_t]. *)
Record wg_core := WgCore { count : Z }.

Record wg_hooks := WgHooks {
  next_init_error : Z;
  next_add_error : Z;
  next_wait_error : Z;
}.

Definition hook_init : hook wg_hooks :=
  MkHook next_init_error (fun z h => WgHooks z (next_add_error h) (next_wait_error h)).
Definition hook_add : hook wg_hooks :=
  MkHook next_add_error (fun z h => WgHooks (next_init_error h) z (next_wait_error h)).
Definition hook_wait : hook wg_hooks :=
  MkHook next_wait_error (fun z h => WgHooks (next_init_error h) (next_add_error h) z).

Inductive wg_op :=
| OpNew
| OpShare
| OpAdd (delta : Z)
| OpWait
| OpFinalize
| OpTestFailNextInit (status : Z)
| OpTestFailNextAdd (status : Z)
| OpTestFailNextWait (status : Z).

(** One condition variable [cond], one kind of handle, no loop labels. *)
Canonical Structure wg : sig :=
  Sig wg_core unit wg_hooks unit unit Empty_set wg_op res Empty_set _ _.

(** ** Operations *)

Definition sync_wait_group_take_test_error (next_error : hook wg_hooks) (k : Z -> prog wg) : prog wg :=
  sync_test_atomic_take next_error k.

Definition sync_wait_group_finalize : prog wg :=
  refs <- sync_arc_dec;;
  if refs =? 0 then
    st <- sync_os_cond_destroy tt;;
    abort_if_failed st;;
    st <- sync_os_mutex_destroy;;
    abort_if_failed st;;
    Free RCore;;
    Ret RUnit
  else Ret RUnit.

Definition sync_wait_group_wrap (k : prog wg) : prog wg := Wrap tt k.

Definition sync_wait_group_new : prog wg :=
  sync_alloc RCore;;
  RefStore 1;;
  status <- sync_os_mutex_init;;
  if negb (status =? 0) then
    Free RCore;;
    Ret (RHandle false status)
  else
  injected <- sync_wait_group_take_test_error hook_init;;
  if negb (injected =? 0) then
    st <- sync_os_mutex_destroy;;
    abort_if_failed st;;
    Free RCore;;
    Ret (RHandle false injected)
  else
  status <- sync_os_cond_init tt;;
  if negb (status =? 0) then
    st <- sync_os_mutex_destroy;;
    abort_if_failed st;;
    Free RCore;;
    Ret (RHandle false status)
  else
  sync_wait_group_wrap;;
  Ret (RHandle true status).

Definition sync_wait_group_share : prog wg :=
  sync_arc_inc;;
  sync_wait_group_wrap;;
  Ret (RHandle true 0).

(** The sum is computed in [int64_t], where it cannot overflow. *)
Definition sync_wait_group_add (delta : Z) : prog wg :=
  injected <- sync_wait_group_take_test_error hook_add;;
  if negb (injected =? 0) then Ret (RInt 0 injected) else
  status <- sync_os_mutex_lock;;
  if negb (status =? 0) then Ret (RInt 0 status) else
  core <- Read;;
  let next := count core + delta in
  if (next <? 0) || (INT32_MAX <? next) then
    st <- sync_os_mutex_unlock;;
    Ret (RInt 0 (record_error status st))
  else
  Write (fun _ => WgCore <$> i32 next);;
  let finish status :=
    st <- sync_os_mutex_unlock;;
    let status := record_error status st in
    Ret (RInt (b2z (status =? 0)) status) in
  core <- Read;;
  if count core =? 0 then
    st <- sync_os_cond_broadcast tt;;
    finish (record_error status st)
  else finish status.

Definition sync_wait_group_wait : prog wg :=
  injected <- sync_wait_group_take_test_error hook_wait;;
  if negb (injected =? 0) then Ret (RVoid injected) else
  status <- sync_os_mutex_lock;;
  if negb (status =? 0) then Ret (RVoid status) else
  let finish status :=
    st <- sync_os_mutex_unlock;;
    Ret (RVoid (record_error status st)) in
  WaitWhile (fun core => negb (count core =? 0)) tt
    (fun wait_status => finish (record_error status wait_status))
    (finish status).

Definition sync_wait_group_test_fail_next_init (status : Z) : prog wg :=
  sync_test_atomic_store hook_init status;; Ret RUnit.
Definition sync_wait_group_test_fail_next_add (status : Z) : prog wg :=
  sync_test_atomic_store hook_add status;; Ret RUnit.
Definition sync_wait_group_test_fail_next_wait (status : Z) : prog wg :=
  sync_test_atomic_store hook_wait status;; Ret RUnit.

Definition wg_body (o : wg_op) : prog wg :=
  match o with
  | OpNew => sync_wait_group_new
  | OpShare => sync_wait_group_share
  | OpAdd delta => sync_wait_group_add delta
  | OpWait => sync_wait_group_wait
  | OpFinalize => sync_wait_group_finalize
  | OpTestFailNextInit st => sync_wait_group_test_fail_next_init st
  | OpTestFailNextAdd st => sync_wait_group_test_fail_next_add st
  | OpTestFailNextWait st => sync_wait_group_test_fail_next_wait st
  end.

Definition wg_on_handle (o : wg_op) : option unit :=
  match o with OpShare | OpAdd _ | OpWait | OpFinalize => Some tt | _ => None end.

Definition wg_code : code wg :=
  Code wg
    (* body *) wg_body
    (* block *) (fun l => match l with end)
    (* zeroed *) (WgCore 0)
    (* imm *) (fun _ => tt)
    (* on_handle *) wg_on_handle
    (* consumes *) (fun o => match o with OpFinalize => true | _ => false end)
    (* client *) (fun o => match o with OpNew => false | _ => true end).

(** ** Specification *)

(** The atomic counter: [None] before construction. *)
Definition wg_valid (n : Z) : Prop := 0 <= n <= INT32_MAX.

Definition wg_atomic (o : wg_op) (a : option Z) (r : res) (a' : option Z) : Prop :=
  match o, r with
  | OpNew, RHandle true st => st = 0 /\ a = None /\ a' = Some 0
  | OpNew, RHandle false st => st <> 0 /\ a' = a
  | OpShare, RHandle true st => st = 0 /\ a' = a
  | OpAdd delta, RInt v st =>
      (st <> 0 /\ v = 0 /\ a' = a) \/
      (exists n, a = Some n /\
         ((wg_valid (n + delta) /\ v = b2z (st =? 0) /\ a' = Some (n + delta)) \/
          (~ wg_valid (n + delta) /\ v = 0 /\ a' = a)))
  | OpWait, RVoid st => a' = a /\ (st = 0 -> a = Some 0)
  | (OpFinalize | OpTestFailNextInit _ | OpTestFailNextAdd _ | OpTestFailNextWait _), RUnit => a' = a
  | _, _ => False
  end.

Definition wg_spec : spec wg :=
  Spec wg
    (* abst *) Z
    (* inv *) (fun s => wg_valid (count s))
    (* abs *) count
    (* cnt *) (fun _ => w0)
    (* kw *) (fun _ => w0)
    (* sw *) (fun _ => w0)
    (* spawnable *) (fun _ => false)
    (* full *) [RCond tt; RMutex; RCore]
    (* slack *) (fun _ s => if count s =? 0 then None else Some 0)
    (* atomic *) wg_atomic
    (* internal *) (fun _ _ _ _ => False)
    (* errok *) (fun _ => reports)
    (* abortok *) (fun _ => False)
    (* linv *) (fun _ _ _ _ _ _ _ => False).


(** ** Verification conditions *)

#[local] Ltac wg_unfold :=
  unfold wg_body, sync_wait_group_finalize, sync_wait_group_new, sync_wait_group_share,
    sync_wait_group_add, sync_wait_group_wait, sync_wait_group_wrap,
    sync_wait_group_test_fail_next_init, sync_wait_group_test_fail_next_add,
    sync_wait_group_test_fail_next_wait, sync_wait_group_take_test_error; unfold_native.

Lemma wg_slack_nonzero q s : count s <> 0 -> slack wg_spec q s = Some 0.
Proof. intros H. cbn. by rewrite (proj2 (Z.eqb_neq _ _) H). Qed.

Lemma wg_slack_nonpos q s :
  match slack wg_spec q s with Some z => z <= 0 | None => True end.
Proof. cbn. by destruct (count s =? 0). Qed.

(** Lowering the counter to a non-zero value wakes nobody and need not. *)
Lemma wg_no_lost s n e : n <> 0 -> no_lost wg_spec s (WgCore n) cr0 e.
Proof.
  intros H _ []. unfold slack_ok. cbn. rewrite (proj2 (Z.eqb_neq _ _) H).
  destruct (count s =? 0); [done|]. by exists 0.
Qed.

(** Reaching zero wakes everybody. *)
Lemma wg_no_lost_broadcast s s' e : no_lost wg_spec s s' (set_cr cr0 () None) e.
Proof. by intros _ []. Qed.

#[local] Ltac wg_done :=
  repeat match goal with
    | |- forall s, _ -> negb (count s =? 0) = true -> _ => intros ???
    | |- negb (count _ =? 0) = true -> _ => intros ?
    | H : negb (_ =? 0) = true |- _ => apply negb_true_iff, Z.eqb_neq in H
    | H : negb (_ =? 0) = false |- _ => apply negb_false_iff, Z.eqb_eq in H
    | |- may_sleep _ _ _ _ (woken _) _ => apply may_sleep_again; [done|by apply wg_slack_nonzero]
    | |- may_sleep _ _ _ _ cr0 _ => apply may_sleep_first; [done|by apply wg_slack_nonzero]
    | |- no_lost _ _ _ (woken _) _ => apply no_lost_woken, wg_slack_nonpos
    | |- no_lost _ _ _ (set_cr _ _ None) _ => apply wg_no_lost_broadcast
    | |- no_lost _ _ _ _ _ => apply wg_no_lost
    | H : record_error _ _ = 0 |- _ => apply record_error_zero in H as [??]
    | |- _ /\ _ => split
    | |- (record_error _ _ <> 0 /\ _) \/ _ => right
    | |- (exists n, Some ?x = Some n /\ _) => exists x; split; [done|]
    | |- (wg_valid _ /\ _) \/ _ =>
        solve [left; unfold wg_valid; repeat split; z32 | right; unfold wg_valid; repeat split; z32]
    | |- _ => solve [done | by left | cbn; unfold wg_valid; z32]
    | |- _ -> _ => intro
    | H : inv _ _ |- _ => cbn in H
    | |- Some _ = Some _ => f_equal
    end.

Lemma wg_wp_new s : wp wg_code wg_spec OpNew (wg_body OpNew) (Excl s [] 0 false) 0 w0 None None.
Proof. wg_unfold. wp_run; wg_done. Qed.

Lemma wg_wp_add d : wp wg_code wg_spec (OpAdd d) (wg_body (OpAdd d)) Out 1 w0 None None.
Proof. wg_unfold. wp_run; try wp_commit; wg_done. Qed.

Lemma wg_wp_wait : wp wg_code wg_spec OpWait (wg_body OpWait) Out 1 w0 None None.
Proof. wg_unfold. wp_run; try wp_commit; wg_done. Qed.

Lemma wg_wp_finalize : wp wg_code wg_spec OpFinalize (wg_body OpFinalize) Out 1 w0 None None.
Proof. wg_unfold. wp_run; wg_done. Qed.

Lemma wg_wp_share : wp wg_code wg_spec OpShare (wg_body OpShare) Out 1 w0 None None.
Proof. wg_unfold. wp_run; wg_done. Qed.

Lemma wg_wp_hook o : wg_on_handle o = None -> client wg_code o = true ->
  wp wg_code wg_spec o (wg_body o) Gone 0 w0 None None.
Proof. destruct o; try done; intros _ _; wg_unfold; wp_run; wg_done. Qed.

Lemma wg_verified : verified wg_code wg_spec OpNew.
Proof.
  split; cbn -[wp].
  - done.
  - intros [] [] ? ?; simplify_eq; auto using wg_wp_share, wg_wp_add, wg_wp_wait, wg_wp_finalize.
  - intros o ??. by apply wg_wp_hook.
  - done.
  - by intros ? [].
  - apply wg_wp_new.
  - split_and!; [set_solver..|]. intros []. set_solver.
Qed.

(** ** Properties *)

(** No schedule of calls on a wait group, whatever statuses the operating
    system answers, reaches undefined behaviour: no data race on [count], no
    use of the core or its OS objects before initialisation or after release,
    no unlock of a mutex that is not held, no signed overflow, no double free. *)
Lemma wait_group_safe h xs : run wg_code xs (start wg_code OpNew h, []) <> Fault.
Proof. apply (verified_safe wg_verified). Qed.

(** The wait group is linearisable with respect to the atomic counter
    [wg_atomic]: every call takes effect once between its invocation and its
    return, an [add] whose sum leaves 0..INT32_MAX changes nothing and returns 0,
    a [wait] that reports success saw the counter at zero; and whenever the mutex
    is free, the counter of the atomic object is the field [count], in bounds. *)
Theorem wait_group_linearizable h c tr :
  reachable wg_code OpNew h c tr ->
  exists log a P, aexec wg_spec OpNew (filter (fun l => visible l = true) tr) log a P /\
    (free c -> a = Some (count (core c)) /\ 0 <= count (core c) <= INT32_MAX).
Proof.
  intros H. destruct (verified_atomic wg_verified h c tr H) as (log & a & P & Ha & Hf).
  exists log, a, P. split; [done|]. intros Hc. split; [auto|].
  apply (verified_inv wg_verified h c tr H Hc).
Qed.

(** No wake-up is lost: while no OS call has failed and nobody holds the
    mutex, a thread sleeps in [sync_wait_group_wait] only if the counter is not
    zero. *)
Lemma wait_group_no_lost_wakeup h c tr t o q k :
  reachable wg_code OpNew h c tr -> clean tr = true -> (forall t, holder c <> Held t) ->
  threads c !! t = Some (o, Sleep q k) -> count (core c) <> 0.
Proof.
  intros H1 H2 H3 H4 H0. destruct (verified_wakeups wg_verified h c tr t o q k H1 H2 H3 H4) as (z & Hz & _).
  cbn in Hz. by rewrite H0 in Hz.
Qed.

(** The reference count releases everything exactly when the last handle
    is gone: with a live handle the core, its mutex and its condition variable
    are all there, and when no handle and no operation is left, nothing is. *)
Lemma wait_group_release h c tr :
  reachable wg_code OpNew h c tr ->
  (idle c <> [] -> alive c = [RCond tt; RMutex; RCore]) /\
  (idle c = [] -> threads c = ∅ -> alive c = []).
Proof.
  intros H. split; intros H1.
  - by apply (verified_alive wg_verified h c tr H).
  - intros H2. by apply (verified_released wg_verified h c tr H).
Qed.

(** Error reporting: an operation that returns after an OS call failed
    reports the first failing status of that call's operation, and the program
    only calls [abort] after a failure. *)
Lemma wait_group_errors h c tr :
  reachable wg_code OpNew h c tr ->
  (forall tr1 t o r tr2, tr = tr1 ++ LRes t o r :: tr2 -> reports r (first_failure tr1 t)) /\
  (forall t o, threads c !! t = Some (o, Run Abort) -> first_failure tr t <> None).
Proof.
  intros H. split.
  - intros tr1 t o r tr2 Ht. apply (verified_errors wg_verified h c tr tr1 t o r tr2 H Ht).
  - intros t o Ht. by destruct (verified_abort wg_verified h c tr t o H Ht).
Qed.

(** Critical sections end: a thread that holds the mutex can run on its
    own until it has released it (or hits [abort], or the reference count is at
    the bound of [int32_t]). *)
Lemma wait_group_releases_mutex h c tr t :
  reachable wg_code OpNew h c tr -> holder c = Held t ->
  exists vs c' tr', run wg_code (map (CStep t 0) vs) (c, tr) = Go (c', tr') /\ ends_section t c'.
Proof. apply (verified_releases wg_verified). by intros ? []. Qed.

(** C28: progress: while no OS call has failed and nobody holds the mutex, a
    thread sleeps in [sync_wait_group_wait] only if the counter is not zero; and a
    thread that holds the mutex can run on its own until it has released it (or
    hits [abort], or the reference count is at the bound of [int32_t]). *)
Theorem wait_group_progress h c tr :
  reachable wg_code OpNew h c tr ->
  (clean tr = true -> (forall t, holder c <> Held t) ->
   forall t o q k, threads c !! t = Some (o, Sleep q k) -> count (core c) <> 0) /\
  (forall t, holder c = Held t ->
   exists vs c' tr', run wg_code (map (CStep t 0) vs) (c, tr) = Go (c', tr') /\ ends_section t c').
Proof.
  intros H. split.
  - intros H1 H2 t o q k. by apply (wait_group_no_lost_wakeup h c tr).
  - intros t. by apply (wait_group_releases_mutex h c tr).
Qed.

(** Resources and errors: no schedule of calls, whatever statuses the
    operating system answers, reaches undefined behaviour (no data race on
    [count], no use of the core or its OS objects before initialisation or after
    release, no signed overflow, no double free); the core, its mutex and its
    condition variable are all there with a live handle, and none is when no
    handle and no operation is left; an operation reports the first failing
    status of its OS calls, and [abort] is called only after a failure. *)
Theorem wait_group_resources h :
  (forall xs, run wg_code xs (start wg_code OpNew h, []) <> Fault) /\
  forall c tr, reachable wg_code OpNew h c tr ->
    ((idle c <> [] -> alive c = [RCond tt; RMutex; RCore]) /\
     (idle c = [] -> threads c = ∅ -> alive c = [])) /\
    (forall tr1 t o r tr2, tr = tr1 ++ LRes t o r :: tr2 -> reports r (first_failure tr1 t)) /\
    (forall t o, threads c !! t = Some (o, Run Abort) -> first_failure tr t <> None).
Proof.
  split; [apply wait_group_safe|]. intros c tr H.
  split; [by apply (wait_group_release h c tr)|by apply (wait_group_errors h c tr)].
Qed.

(** ** Witnesses *)

(** Thread 0 creates the group, thread 1 adds one and goes to sleep in [wait]. *)
Definition call (t : nat) (o : wg_op) : choice wg := CInvoke t o.
Definition wg_h0 : wg_hooks := WgHooks 0 0 0.
Definition wg_waiting : list (choice wg) :=
  steps 0 7 ++ [call 1 (OpAdd 1)] ++ steps 1 7 ++ [call 1 OpWait] ++ steps 1 3.

(** The last handle is finalized. *)
Definition wg_gone : list (choice wg) :=
  steps 0 7 ++ [call 1 OpFinalize] ++ steps 1 5.

(** The mutex fails to lock. *)
Definition wg_failing : list (choice wg) :=
  steps 0 7 ++ [call 1 (OpAdd 1)] ++ steps 1 1 ++ [CStep 1%nat 22 0%nat] ++ steps 1 1.

(** Thread 1 is inside the critical section of [add]. *)
Definition wg_locked : list (choice wg) :=
  steps 0 7 ++ [call 1 (OpAdd 1)] ++ steps 1 2.

Lemma wait_group_linearizable_witness :
  exists (c : config wg) tr, count (core c) = 1 /\ free c /\
    exists log a P, aexec wg_spec OpNew (filter (fun l => visible l = true) tr) log a P /\
      (free c -> a = Some (count (core c)) /\ 0 <= count (core c) <= INT32_MAX).
Proof.
  exists (after wg_code OpNew wg_h0 wg_waiting).1, (after wg_code OpNew wg_h0 wg_waiting).2.
  split; [vm_compute; reflexivity|]. split; [vm_compute; split; [reflexivity|discriminate]|].
  apply (wait_group_linearizable wg_h0). apply after_reachable. vm_compute. reflexivity.
Defined.

Lemma wait_group_progress_witness :
  exists (c : config wg) t, (exists o q k, threads c !! t = Some (o, Sleep q k)) /\ count (core c) <> 0 /\
  exists (c' : config wg) tr, holder c' = Held t /\
    exists vs c'' tr', run wg_code (map (CStep t 0) vs) (c', tr) = Go (c'', tr') /\ ends_section t c''.
Proof.
  exists (after wg_code OpNew wg_h0 wg_waiting).1, 1%nat.
  split; [eexists _, _, _; vm_compute; reflexivity|]. split.
  - eapply (proj1 (wait_group_progress wg_h0 _ (after wg_code OpNew wg_h0 wg_waiting).2
      ltac:(apply after_reachable; vm_compute; reflexivity))) with (t := 1%nat);
      vm_compute; first [reflexivity | discriminate].
  - exists (after wg_code OpNew wg_h0 wg_locked).1, (after wg_code OpNew wg_h0 wg_locked).2.
    split; [vm_compute; reflexivity|].
    apply (wait_group_progress wg_h0); [apply after_reachable|]; vm_compute; reflexivity.
Defined.

Lemma wait_group_resources_witness :
  exists (c : config wg) (tr tr1 : list (label wg)),
    idle c = [] /\ threads c = ∅ /\ (idle c = [] -> threads c = ∅ -> alive c = []) /\
    tr = tr1 ++ [LRes 1%nat (OpAdd 1) (RInt 0 22)] /\
    first_failure tr1 1%nat = Some (OsFail 22) /\ reports (RInt 0 22) (first_failure tr1 1%nat).
Proof.
  exists (after wg_code OpNew wg_h0 wg_gone).1, (after wg_code OpNew wg_h0 wg_failing).2.
  exists (removelast (after wg_code OpNew wg_h0 wg_failing).2).
  split; [vm_compute; reflexivity|]. split; [vm_compute; reflexivity|]. split.
  { apply (proj2 (wait_group_resources wg_h0) _ (after wg_code OpNew wg_h0 wg_gone).2).
    apply after_reachable. vm_compute. reflexivity. }
  split; [vm_compute; reflexivity|]. split; [vm_compute; reflexivity|].
  refine (proj1 (proj2 (proj2 (wait_group_resources wg_h0) (after wg_code OpNew wg_h0 wg_failing).1
    (after wg_code OpNew wg_h0 wg_failing).2 _)) _ 1%nat (OpAdd 1) _ [] _).
  - apply after_reachable. vm_compute. reflexivity.
  - vm_compute. reflexivity.
Defined.
