(* ===== verification/Once.v ===== *)
(** Once: src/unsafe/once/native.c, the state machine behind [Once::call_once].

    [state] is 0 (new), 1 (an initializer runs), 2 (done) or 3 (poisoned).
    [sync_once_begin] waits while an initializer runs and tells its caller
    whether to run it (1), that it is done (0) or that it failed (-1). *)
From stdpp Require Import base gmap list.
From Stdlib Require Import ZArith Lia.
From S2P Require Import Prelude Machine Logic Soundness Verified Native.

Local Open Scope prog_scope.

(** ** State *)

(** The plain field of [sync_once_core_t]. *)
Record once_core := OnceCore { state : Z }.

Record once_hooks := OnceHooks { next_init_error : Z; next_begin_error : Z }.

Definition hook_init : hook once_hooks :=
  MkHook next_init_error (fun z h => OnceHooks z (next_begin_error h)).
Definition hook_begin : hook once_hooks :=
  MkHook next_begin_error (fun z h => OnceHooks (next_init_error h) z).

Inductive once_op :=
| OpNew
| OpShare
| OpBegin
| OpComplete
| OpPoison
| OpFinalize
| OpTestFailNextInit (status : Z)
| OpTestFailNextBegin (status : Z).

Canonical Structure once : sig :=
  Sig once_core unit once_hooks unit unit Empty_set once_op res Empty_set _ _.

(** ** Operations *)

Definition sync_once_take_test_error (next_error : hook once_hooks) (k : Z -> prog once)
    : prog once :=
  sync_test_atomic_take next_error k.

Definition sync_once_finalize : prog once :=
  refs <- sync_arc_dec;;
  if refs =? 0 then
    st <- sync_os_cond_destroy tt;;
    abort_if_failed st;;
    st <- sync_os_mutex_destroy;;
    abort_if_failed st;;
    Free RCore;;
    Ret RUnit
  else Ret RUnit.

Definition sync_once_wrap (k : prog once) : prog once := Wrap tt k.

Definition sync_once_new : prog once :=
  sync_alloc RCore;;
  RefStore 1;;
  status <- sync_os_mutex_init;;
  if negb (status =? 0) then
    Free RCore;;
    Ret (RHandle false status)
  else
  injected <- sync_once_take_test_error hook_init;;
  if negb (injected =? 0) then
    st <- sync_os_mutex_destroy;;
    abort_if_failed st;;
    Free RCore;;
    Ret (RHandle false injected)
  else
  status <- sync_os_cond_init tt;;
  if negb (status =? 0) then
    st <- sync_os_mutex_destroy;;
    abort_if_failed st;;
    Free RCore;;
    Ret (RHandle false status)
  else
  sync_once_wrap;;
  Ret (RHandle true status).

Definition sync_once_share : prog once :=
  sync_arc_inc;;
  sync_once_wrap;;
  Ret (RHandle true 0).

Definition sync_once_begin : prog once :=
  injected <- sync_once_take_test_error hook_begin;;
  if negb (injected =? 0) then Ret (RInt 0 injected) else
  status <- sync_os_mutex_lock;;
  if negb (status =? 0) then Ret (RInt 0 status) else
  let finish result :=
    st <- sync_os_mutex_unlock;;
    Ret (RInt result (record_error status st)) in
  WaitWhile (fun core => state core =? 1) tt
    (fun wait_status =>
       st <- sync_os_mutex_unlock;;
       Ret (RInt 0 (record_error wait_status st)))
    (core <- Read;;
     if state core =? 0 then
       Write (fun _ => Some (OnceCore 1));;
       finish 1
     else
       core <- Read;;
       finish (if state core =? 2 then 0 else -1)).

(** [sync_once_complete] and [sync_once_poison] differ in the state they set. *)
Definition sync_once_settle (next : Z) : prog once :=
  status <- sync_os_mutex_lock;;
  if negb (status =? 0) then Ret (RVoid status) else
  Write (fun _ => Some (OnceCore next));;
  st <- sync_os_cond_broadcast tt;;
  let status := record_error status st in
  st <- sync_os_mutex_unlock;;
  Ret (RVoid (record_error status st)).

Definition sync_once_complete : prog once := sync_once_settle 2.
Definition sync_once_poison : prog once := sync_once_settle 3.

Definition sync_once_test_fail_next_init (status : Z) : prog once :=
  sync_test_atomic_store hook_init status;; Ret RUnit.
Definition sync_once_test_fail_next_begin (status : Z) : prog once :=
  sync_test_atomic_store hook_begin status;; Ret RUnit.

Definition once_body (o : once_op) : prog once :=
  match o with
  | OpNew => sync_once_new
  | OpShare => sync_once_share
  | OpBegin => sync_once_begin
  | OpComplete => sync_once_complete
  | OpPoison => sync_once_poison
  | OpFinalize => sync_once_finalize
  | OpTestFailNextInit st => sync_once_test_fail_next_init st
  | OpTestFailNextBegin st => sync_once_test_fail_next_begin st
  end.

Definition once_on_handle (o : once_op) : option unit :=
  match o with OpShare | OpBegin | OpComplete | OpPoison | OpFinalize => Some tt | _ => None end.

Definition once_code : code once :=
  Code once
    (* body *) once_body
    (* block *) (fun l => match l with end)
    (* zeroed *) (OnceCore 0)
    (* imm *) (fun _ => tt)
    (* on_handle *) once_on_handle
    (* consumes *) (fun o => match o with OpFinalize => true | _ => false end)
    (* client *) (fun o => match o with OpNew => false | _ => true end).

(** ** Specification *)

(** The atomic once cell. *)
Definition once_atomic (o : once_op) (a : option Z) (r : res) (a' : option Z) : Prop :=
  match o, r with
  | OpNew, RHandle true st => st = 0 /\ a = None /\ a' = Some 0
  | OpNew, RHandle false st => st <> 0 /\ a' = a
  | OpShare, RHandle true st => st = 0 /\ a' = a
  | OpBegin, RInt v st =>
      (v = 1 /\ a = Some 0 /\ a' = Some 1) \/
      (v = 0 /\ a' = a /\ (st = 0 -> a = Some 2)) \/
      (v = -1 /\ a' = a /\ a = Some 3)
  | OpComplete, RVoid st => (exists n, a = Some n /\ a' = Some 2) \/ (st <> 0 /\ a' = a)
  | OpPoison, RVoid st => (exists n, a = Some n /\ a' = Some 3) \/ (st <> 0 /\ a' = a)
  | (OpFinalize | OpTestFailNextInit _ | OpTestFailNextBegin _), RUnit => a' = a
  | _, _ => False
  end.

Definition once_spec : spec once :=
  Spec once
    (* abst *) Z
    (* inv *) (fun s => 0 <= state s <= 3)
    (* abs *) state
    (* cnt *) (fun _ => w0)
    (* kw *) (fun _ => w0)
    (* sw *) (fun _ => w0)
    (* spawnable *) (fun _ => false)
    (* full *) [RCond tt; RMutex; RCore]
    (* slack *) (fun _ s => if state s =? 1 then Some 0 else None)
    (* atomic *) once_atomic
    (* internal *) (fun _ _ _ _ => False)
    (* errok *) (fun _ => reports)
    (* abortok *) (fun _ => False)
    (* linv *) (fun _ _ _ _ _ _ _ => False).

(** ** Verification conditions *)

#[local] Ltac once_unfold :=
  unfold once_body, sync_once_finalize, sync_once_new, sync_once_share, sync_once_begin,
    sync_once_complete, sync_once_poison, sync_once_settle, sync_once_wrap,
    sync_once_test_fail_next_init, sync_once_test_fail_next_begin, sync_once_take_test_error;
  unfold_native.

Lemma once_slack_running q s : state s = 1 -> slack once_spec q s = Some 0.
Proof. intros H. cbn. by rewrite H. Qed.

Lemma once_slack_nonpos q s :
  match slack once_spec q s with Some z => z <= 0 | None => True end.
Proof. cbn. by destruct (state s =? 1). Qed.

(** Starting the initializer from a state where nobody may wait. *)
Lemma once_no_lost_begin q s e : state s = 0 -> no_lost once_spec s (OnceCore 1) (set_cr cr0 q (Some (-1))) e.
Proof. intros H _ []. unfold slack_ok. cbn. rewrite H. by destruct (set_cr _ _ _ _). Qed.

Lemma once_no_lost_begin0 s e : state s = 0 -> no_lost once_spec s (OnceCore 1) cr0 e.
Proof. intros H _ []. unfold slack_ok. cbn. by rewrite H. Qed.

#[local] Ltac once_done :=
  repeat match goal with
    | |- forall s, _ -> (state s =? 1) = true -> _ => intros ???
    | |- (state _ =? 1) = true -> _ => intros ?
    | H : (_ =? _) = true |- _ => apply Z.eqb_eq in H
    | H : (_ =? _) = false |- _ => apply Z.eqb_neq in H
    | |- may_sleep _ _ _ _ (woken _) _ => apply may_sleep_again; [done|by apply once_slack_running]
    | |- may_sleep _ _ _ _ cr0 _ => apply may_sleep_first; [done|by apply once_slack_running]
    | |- no_lost _ ?s ?s (woken _) _ => apply no_lost_woken, once_slack_nonpos
    | |- no_lost _ _ _ (woken _) _ => by apply once_no_lost_begin
    | |- no_lost _ _ _ (set_cr _ _ None) _ => by intros _ []
    | |- no_lost _ _ _ _ _ => by apply once_no_lost_begin0
    | H : record_error _ _ = 0 |- _ => apply record_error_zero in H as [??]
    | |- _ /\ _ => split
    | |- context [if ?x =? 2 then _ else _] => destruct (Z.eqb_spec x 2)
    | |- (1 = 1 /\ _) \/ _ => left
    | |- (0 = 1 /\ _) \/ _ => right; left
    | |- (-1 = 1 /\ _) \/ _ => right; right
    | H : inv _ _ |- Some _ = Some _ => cbn in H; f_equal; lia
    | |- _ => solve [done | by left; eauto | by right | cbn; z32]
    | |- _ -> _ => intro; subst
    end.

Lemma once_wp_new s :
  wp once_code once_spec OpNew (once_body OpNew) (Excl s [] 0 false) 0 w0 None None.
Proof. once_unfold. wp_run; once_done. Qed.

Lemma once_wp_begin : wp once_code once_spec OpBegin (once_body OpBegin) Out 1 w0 None None.
Proof. once_unfold. wp_run; try wp_commit; once_done. Qed.

Lemma once_wp_settle o n : (o = OpComplete /\ n = 2) \/ (o = OpPoison /\ n = 3) ->
  wp once_code once_spec o (once_body o) Out 1 w0 None None.
Proof.
  intros [[-> ->]|[-> ->]]; once_unfold; wp_run; try wp_commit; once_done.
Qed.

Lemma once_wp_finalize : wp once_code once_spec OpFinalize (once_body OpFinalize) Out 1 w0 None None.
Proof. once_unfold. wp_run; once_done. Qed.

Lemma once_wp_share : wp once_code once_spec OpShare (once_body OpShare) Out 1 w0 None None.
Proof. once_unfold. wp_run; once_done. Qed.

Lemma once_wp_hook o : once_on_handle o = None -> client once_code o = true ->
  wp once_code once_spec o (once_body o) Gone 0 w0 None None.
Proof. destruct o; try done; intros _ _; once_unfold; wp_run; once_done. Qed.

Lemma once_verified : verified once_code once_spec OpNew.
Proof.
  split; cbn -[wp].
  - done.
  - intros [] [] ? ?; simplify_eq;
      eauto using once_wp_share, once_wp_begin, once_wp_settle, once_wp_finalize.
  - intros o ??. by apply once_wp_hook.
  - done.
  - by intros ? [].
  - apply once_wp_new.
  - split_and!; [set_solver..|]. intros []. set_solver.
Qed.

(** ** At most one initializer *)

(** The return of a [begin] that sends its caller into the initializer. *)
Definition begins (o : once_op) (r : res) : bool :=
  match o, r with OpBegin, RInt 1 _ => true | _, _ => false end.

Definition starts (l : label once) : bool :=
  match l with LRes _ o r => begins o r | _ => false end.

Definition starting (x : once_op * option res) : Z :=
  match x with (o, Some r) => b2z (begins o r) | _ => 0 end.

(** A transition that lets an initializer start leaves state 0 for good. *)
Lemma once_atomic_begins o a r a' :
  once_atomic o a r a' ->
  b2z (begins o r) + (match a with Some n => b2z (negb (n =? 0)) | None => 0 end) <=
  match a' with Some n => b2z (negb (n =? 0)) | None => 0 end.
Proof.
  destruct o, r; simpl; try done; intros H; destruct_and?; subst; try lia.
  - destruct ok; destruct_and?; subst; simpl; try done; lia.
  - destruct ok; destruct_and?; subst; simpl; try done; lia.
  - destruct_or! H; destruct_and!; subst; simpl; try lia; by destruct (n =? 0).
  - destruct H as [(n & -> & ->)|[_ ->]]; [|lia]. by destruct (n =? 0).
  - destruct H as [(n & -> & ->)|[_ ->]]; [|lia]. by destruct (n =? 0).
Qed.

Lemma once_starts_bound tr log a P :
  aexec once_spec OpNew tr log a P ->
  lsum (fun l => b2z (starts l)) tr + msum starting P <=
  match a with Some n => b2z (negb (n =? 0)) | None => 0 end.
Proof.
  induction 1 as [|tr log a P t o H IH HP|tr log a a' P t o r H IH HP Ha|
                  tr log a a' P t o l r H IH HP []|tr log a P t o r H IH HP].
  - done.
  - rewrite lsum_app, msum_new by done. simpl in *. lia.
  - apply once_atomic_begins in Ha. rewrite (msum_insert starting _ _ _ _ HP). simpl in *. lia.
  - rewrite lsum_app. pose proof (msum_delete (A:=once_op * option res) starting _ _ _ HP) as Hd.
    simpl in *. lia.
Qed.

Lemma once_starts_at_most tr log a P :
  aexec once_spec OpNew tr log a P -> lsum (fun l => b2z (starts l)) tr <= 1.
Proof.
  intros Ha%once_starts_bound. assert (0 <= msum starting P).
  { apply msum_nonneg. intros ? [o [r|]] _; simpl; [by destruct (begins o r)|done]. }
  destruct a as [n|]; [destruct (n =? 0)|]; simpl in Ha; lia.
Qed.

(** Counting in a trace and in its calls and returns is the same. *)
Lemma once_starts_visible tr :
  lsum (fun l => b2z (starts l)) (filter (fun l => visible l = true) tr) =
  lsum (fun l => b2z (starts l)) tr.
Proof.
  induction tr as [|l tr IH]; [done|]. rewrite filter_cons, lsum_cons.
  destruct (decide _) as [Hv|Hv]; [by rewrite lsum_cons, IH|].
  rewrite IH. by destruct l.
Qed.

(** ** Properties *)

(** No schedule of calls on a once cell, whatever the operating system
    answers, reaches undefined behaviour (data race on [state], use after free,
    misuse of the mutex or the condition variable). *)
Lemma once_safe h xs : run once_code xs (start once_code OpNew h, []) <> Fault.
Proof. apply (verified_safe once_verified). Qed.

(** Linearisability with respect to the four-state cell [once_atomic]:
    [begin] returns 1 only by taking the cell from new to running, 0 with status
    0 only when it is done, -1 only when it is poisoned; [complete] and [poison]
    set it; whenever the mutex is free the atomic state is the field [state],
    which is 0, 1, 2 or 3. *)
Theorem once_linearizable h c tr :
  reachable once_code OpNew h c tr ->
  exists log a P, aexec once_spec OpNew (filter (fun l => visible l = true) tr) log a P /\
    (free c -> a = Some (state (core c)) /\ 0 <= state (core c) <= 3).
Proof.
  intros H. destruct (verified_atomic once_verified h c tr H) as (log & a & P & Ha & Hf).
  exists log, a, P. split; [done|]. intros Hc. split; [auto|].
  apply (verified_inv once_verified h c tr H Hc).
Qed.

(** The initializer runs at most once: in every execution, with any number
    of threads racing, at most one call of [sync_once_begin] returns 1. *)
Theorem once_at_most_one h c tr :
  reachable once_code OpNew h c tr -> lsum (fun l => b2z (starts l)) tr <= 1.
Proof.
  intros H. destruct (verified_atomic once_verified h c tr H) as (log & a & P & Ha & _).
  rewrite <- once_starts_visible. by eapply once_starts_at_most.
Qed.

(** C30: waiting ends: while no OS call has failed and nobody holds the mutex, a
    thread sleeps in [sync_once_begin] only while an initializer is running; and
    a thread that holds the mutex can run on its own until it has released it. *)
Theorem once_wakeups h c tr :
  reachable once_code OpNew h c tr ->
  (clean tr = true -> (forall t, holder c <> Held t) ->
   forall t o q k, threads c !! t = Some (o, Sleep q k) -> state (core c) = 1) /\
  (forall t, holder c = Held t ->
   exists vs c' tr', run once_code (map (CStep t 0) vs) (c, tr) = Go (c', tr') /\
     ends_section t c').
Proof.
  intros H. split.
  - intros H2 H3 t o q k H4.
    destruct (verified_wakeups once_verified h c tr t o q k H H2 H3 H4) as (z & Hz & _).
    cbn in Hz. by destruct (Z.eqb_spec (state (core c)) 1).
  - intros t Ht. apply (verified_releases once_verified) with h; [by intros ? []|done..].
Qed.

(** With a live handle the core, its mutex and its condition variable are
    all there; when no handle and no operation is left, all are released. *)
Lemma once_release h c tr :
  reachable once_code OpNew h c tr ->
  (idle c <> [] -> alive c = [RCond tt; RMutex; RCore]) /\
  (idle c = [] -> threads c = ∅ -> alive c = []).
Proof.
  intros H. split; intros H1.
  - by apply (verified_alive once_verified h c tr H).
  - intros H2. by apply (verified_released once_verified h c tr H).
Qed.

(** An operation that returns after an OS call failed reports its first
    failing status, and the program calls [abort] only after a failure. *)
Lemma once_errors h c tr :
  reachable once_code OpNew h c tr ->
  (forall tr1 t o r tr2, tr = tr1 ++ LRes t o r :: tr2 -> reports r (first_failure tr1 t)) /\
  (forall t o, threads c !! t = Some (o, Run Abort) -> first_failure tr t <> None).
Proof.
  intros H. split.
  - intros tr1 t o r tr2 Ht. apply (verified_errors once_verified h c tr tr1 t o r tr2 H Ht).
  - intros t o Ht. by destruct (verified_abort once_verified h c tr t o H Ht).
Qed.

(** Resources and errors: no schedule of calls, whatever the operating system
    answers, reaches undefined behaviour (data race on [state], use after free,
    misuse of the mutex or the condition variable); with a live handle the core,
    its mutex and its condition variable are all there, and when no handle and no
    operation is left, all are released; an operation reports the first failing
    status of its OS calls, and [abort] is called only after a failure. *)
Theorem once_resources h :
  (forall xs, run once_code xs (start once_code OpNew h, []) <> Fault) /\
  forall c tr, reachable once_code OpNew h c tr ->
    ((idle c <> [] -> alive c = [RCond tt; RMutex; RCore]) /\
     (idle c = [] -> threads c = ∅ -> alive c = [])) /\
    (forall tr1 t o r tr2, tr = tr1 ++ LRes t o r :: tr2 -> reports r (first_failure tr1 t)) /\
    (forall t o, threads c !! t = Some (o, Run Abort) -> first_failure tr t <> None).
Proof.
  split; [apply once_safe|]. intros c tr H.
  split; [by apply (once_release h c tr)|by apply (once_errors h c tr)].
Qed.

(** ** Witnesses *)

Definition once_h0 : once_hooks := OnceHooks 0 0.
Definition call (t : nat) (o : once_op) : choice once := CInvoke t o.

(** Thread 1 wins, thread 2 waits for it. *)
Definition once_racing : list (choice once) :=
  steps 0 7 ++ [call 1 OpShare] ++ steps 1 3 ++ [call 1 OpBegin] ++ steps 1 7 ++
  [call 2 OpBegin] ++ steps 2 3.

(** The only handle is finalized. *)
Definition once_gone : list (choice once) := steps 0 7 ++ [call 1 OpFinalize] ++ steps 1 5.

(** The mutex of [complete] fails to lock. *)
Definition once_failing : list (choice once) :=
  steps 0 7 ++ [call 1 OpComplete] ++ [CStep 1%nat 22 0%nat] ++ steps 1 1.

Lemma once_linearizable_witness :
  exists c : config once, state (core c) = 1 /\ free c /\
    exists tr log a P, aexec once_spec OpNew (filter (fun l => visible l = true) tr) log a P /\
      (free c -> a = Some (state (core c)) /\ 0 <= state (core c) <= 3).
Proof.
  exists (after once_code OpNew once_h0 once_racing).1.
  split; [vm_compute; reflexivity|]. split; [vm_compute; split; [reflexivity|discriminate]|].
  exists (after once_code OpNew once_h0 once_racing).2.
  apply (once_linearizable once_h0). scenario.
Defined.

Lemma once_at_most_one_witness :
  exists tr : list (label once),
    lsum (fun l => b2z (starts l)) tr = 1 /\ lsum (fun l => b2z (starts l)) tr <= 1.
Proof.
  exists (after once_code OpNew once_h0 once_racing).2. split; [vm_compute; reflexivity|].
  apply (once_at_most_one once_h0 (after once_code OpNew once_h0 once_racing).1). scenario.
Defined.

Lemma once_wakeups_witness :
  exists c : config once,
    (exists o q k, threads c !! 2%nat = Some (o, Sleep q k)) /\ state (core c) = 1.
Proof.
  exists (after once_code OpNew once_h0 once_racing).1.
  split; [eexists _, _, _; vm_compute; reflexivity|].
  eapply (proj1 (once_wakeups once_h0 _ (after once_code OpNew once_h0 once_racing).2
                   ltac:(scenario))) with (t := 2%nat); vm_compute; first [reflexivity | discriminate].
Defined.

Lemma once_resources_witness :
  exists (c : config once) (tr tr1 : list (label once)),
    idle c = [] /\ threads c = ∅ /\ (idle c = [] -> threads c = ∅ -> alive c = []) /\
    tr = tr1 ++ [LRes 1%nat OpComplete (RVoid 22)] /\
    first_failure tr1 1%nat = Some (OsFail 22) /\ reports (RVoid 22) (first_failure tr1 1%nat).
Proof.
  exists (after once_code OpNew once_h0 once_gone).1, (after once_code OpNew once_h0 once_failing).2.
  exists (removelast (after once_code OpNew once_h0 once_failing).2).
  split; [vm_compute; reflexivity|]. split; [vm_compute; reflexivity|]. split.
  { apply (proj2 (once_resources once_h0) _ (after once_code OpNew once_h0 once_gone).2). scenario. }
  split; [vm_compute; reflexivity|]. split; [vm_compute; reflexivity|].
  refine (proj1 (proj2 (proj2 (once_resources once_h0) (after once_code OpNew once_h0 once_failing).1
    (after once_code OpNew once_h0 once_failing).2 _)) _ 1%nat OpComplete _ [] _).
  - scenario.
  - vm_compute. reflexivity.
Defined.
