(* ===== verification/CallOnce.v ===== *)
(** CallOnce: [Once::call_once] of src/unsafe/once/once.mbt, over the cell of Once.

    The function as a program of native calls and of one call of its callback, any
    number of threads running it on one cell, and what they can rely on. *)
From stdpp Require Import base gmap list.
From Stdlib Require Import ZArith Lia.
From S2P Require Import Prelude Machine Logic Soundness Verified Native Once.

(** ** The function *)

Inductive call_error := OnceOperationFailed (st : Z) | OncePoisoned | CallbackError.

Inductive call_result := Returned | Raised (e : call_error).

(** A function of once.mbt: native calls, with the value they return and
    [status.val] after them, and calls of [f], which return or raise. *)
Inductive client :=
| Invoke (o : once_op) (k : Z -> Z -> client)
| Callback (k : bool -> client)
| Done (r : call_result).

Definition after_complete (_ complete_status : Z) : client :=
  if negb (complete_status =? 0) then Done (Raised (OnceOperationFailed complete_status))
  else Done Returned.

(** The [errdefer] block, and then the error of the callback. *)
Definition after_poison (_ poison_status : Z) : client :=
  if negb (poison_status =? 0) then Done (Raised (OnceOperationFailed poison_status))
  else Done (Raised CallbackError).

Definition after_callback (returns : bool) : client :=
  if returns then Invoke OpComplete after_complete else Invoke OpPoison after_poison.

Definition after_begin (v begin_status : Z) : client :=
  if negb (begin_status =? 0) then Done (Raised (OnceOperationFailed begin_status)) else
  if v =? 0 then Done Returned else
  if v =? 1 then Callback after_callback else
  Done (Raised OncePoisoned).

Definition call_once : client := Invoke OpBegin after_begin.

(** What a native function returns, and the status it leaves. *)
Definition value_of (r : res) : Z := match r with RInt v _ => v | _ => 0 end.
Definition status_val (r : res) : Z := default 0 (status_of r).

(** ** Any number of threads calling it *)

(** A call of [call_once] is about to do [p], in a native call, or in its callback,
    which may itself call [call_once]. *)
Inductive frame :=
| At (p : client)
| Within (o : once_op) (k : Z -> Z -> client)
| InCallback (k : bool -> client).

Inductive event :=
| Began (t : tid)                      (** a callback starts *)
| Ended (t : tid) (returns : bool)     (** it returns or raises *)
| Left (t : tid) (r : call_result).    (** a [call_once] returns or raises *)

Record callers := Callers {
  shown : list (label once);           (** the trace of the cell *)
  history : list event;
  stacks : gmap tid (list frame);
}.

Inductive move :=
| Calls (t : tid) | Shows (l : label once) | Starts (t : tid) | Ends (t : tid) (returns : bool) | Leaves (t : tid).

#[export] Instance once_op_eq : EqDecision once_op.
Proof. solve_decision. Defined.

(** The calls of the cell that only [call_once] makes. *)
Definition protected (o : once_op) : bool :=
  match o with OpBegin | OpComplete | OpPoison => true | _ => false end.

(** The stack of [t] becomes [s], [ls] is shown and [es] happens. *)
Definition update (t : tid) (s : list frame) (ls : list (label once)) (es : list event) (c : callers) : callers :=
  Callers (shown c ++ ls) (history c ++ es) (<[t := s]> (stacks c)).

Definition show (l : label once) (c : callers) : callers :=
  Callers (shown c ++ [l]) (history c) (stacks c).

Definition client_step (x : move) (c : callers) : option callers :=
  match x with
  | Calls t =>
      match stacks c !!! t with
      | [] | InCallback _ :: _ => Some (update t (At call_once :: stacks c !!! t) [] [] c)
      | _ => None
      end
  | Starts t =>
      match stacks c !!! t with
      | At (Callback k) :: s => Some (update t (InCallback k :: s) [] [Began t] c)
      | _ => None
      end
  | Ends t returns =>
      match stacks c !!! t with
      | InCallback k :: s => Some (update t (At (k returns) :: s) [] [Ended t returns] c)
      | _ => None
      end
  | Leaves t =>
      match stacks c !!! t with
      | At (Done r) :: s => Some (update t s [] [Left t r] c)
      | _ => None
      end
  | Shows l =>
      match l with
      | LInv t o =>
          if protected o then
            match stacks c !!! t with
            | At (Invoke o' k) :: s =>
                if bool_decide (o' = o) then Some (update t (Within o k :: s) [l] [] c) else None
            | _ => None
            end
          else Some (show l c)
      | LRes t o r =>
          if protected o then
            match stacks c !!! t with
            | Within o' k :: s =>
                if bool_decide (o' = o)
                then Some (update t (At (k (value_of r) (status_val r)) :: s) [l] [] c) else None
            | _ => None
            end
          else Some (show l c)
      | _ => Some (show l c)
      end
  end.

Definition no_callers : callers := Callers [] [] ∅.

Fixpoint play (xs : list move) (c : callers) : option callers :=
  match xs with
  | [] => Some c
  | x :: xs => c' ← client_step x c; play xs c'
  end.

(** [follows c]: calls of [call_once], by any threads and one inside the other's
    callback, make the calls on the cell that [shown c] shows. *)
Definition follows (c : callers) : Prop := exists xs, play xs no_callers = Some c.

(** ** What the cell answers *)

Abbreviation said o tr := (exists t, LInv t o ∈ tr).

(** A result of [begin] that is backed by what has been said: that the
    initialization is done, or has failed. *)
Definition backed (tr : list (label once)) (r : res) : Prop :=
  exists v st, r = RInt v st /\
    (st = 0 -> v = 0 -> said OpComplete tr) /\ (st = 0 -> v <> 0 -> v <> 1 -> said OpPoison tr).

(** What a trace of a cell is like, whatever its callers do: at most one [begin]
    is told to run the initializer, and all their results are backed. *)
Record honest (tr : list (label once)) : Prop := Honest {
  honest_once : lsum (fun l => b2z (starts l)) tr <= 1;
  honest_begin t r : LRes t OpBegin r ∈ tr -> backed tr r;
}.

Lemma said_app o (tr ls : list (label once)) : said o tr -> said o (tr ++ ls).
Proof. intros [t ?]. exists t. set_solver. Qed.

Lemma backed_app tr ls r : backed tr r -> backed (tr ++ ls) r.
Proof. intros (v & st & -> & H1 & H2). exists v, st. split_and!; intros; [done|apply said_app; auto..]. Qed.

Record settled (tr : list (label once)) (a : option Z) (P : gmap tid (once_op * option res)) : Prop := Settled {
  settled_done : a = Some 2 -> said OpComplete tr;
  settled_failed : a = Some 3 -> said OpPoison tr;
  settled_called t o r : P !! t = Some (o, r) -> o = OpNew \/ LInv t o ∈ tr;
  settled_decided t r : P !! t = Some (OpBegin, Some r) -> backed tr r;
  settled_returned t r : LRes t OpBegin r ∈ tr -> backed tr r;
}.

Lemma once_atomic_settles tr a P t o r a' :
  settled tr a P -> P !! t = Some (o, None) -> once_atomic o a r a' ->
  (o = OpBegin -> backed tr r) /\ (a' = Some 2 -> said OpComplete tr) /\ (a' = Some 3 -> said OpPoison tr).
Proof.
  intros [I1 I2 I3 _ _] Ho%I3 Ha. unfold backed.
  destruct o, r; simpl in Ha; try done; try case_match; naive_solver (simplify_eq; eauto; lia).
Qed.

Lemma once_settled tr log a P : aexec once_spec OpNew tr log a P -> settled tr a P.
Proof.
  induction 1 as [|tr log a P t o H IH HP|tr log a a' P t o r H IH HP Ha|
                  tr log a a' P t o l r H IH HP []|tr log a P t o r H IH HP].
  - split; [done..| | |by intros ?? ?%not_elem_of_nil].
    + intros t o r [_ [= <- _]]%lookup_singleton_Some. by left.
    + by intros t r [_ ?]%lookup_singleton_Some.
  - destruct IH as [I1 I2 I3 I4 I5]. split; [auto using said_app..| | |].
    + intros t' o' r [[<- [= -> _]]|[_ ?%I3]]%lookup_insert_Some; set_solver.
    + intros t' r [[_ ?]|[_ ?]]%lookup_insert_Some; [done|by eapply backed_app, I4].
    + intros t' r [?|?%list_elem_of_singleton]%elem_of_app; [by eapply backed_app, I5|done].
  - destruct (once_atomic_settles _ _ _ _ _ _ _ IH HP Ha) as (Hb & H1 & H2).
    destruct IH as [I1 I2 I3 I4 I5]. split; [done..| | |done].
    + intros t' o' r' [[<- [= -> _]]|[_ ?]]%lookup_insert_Some; by eapply I3.
    + intros t' r' [[_ [= -> ->]]|[_ ?]]%lookup_insert_Some; [auto|by eapply I4].
  - destruct IH as [I1 I2 I3 I4 I5]. split; [auto using said_app..| | |].
    + intros t' o' r' [_ ?%I3]%lookup_delete_Some. set_solver.
    + intros t' r' [_ ?]%lookup_delete_Some. by eapply backed_app, I4.
    + intros t' r' [?|[= -> <- ->]%list_elem_of_singleton]%elem_of_app; eapply backed_app; [by eapply I5|by eapply I4].
Qed.

(** Prefixes of an execution of the atomic cell are executions. *)
Lemma aexec_prefix tr ls log a P :
  aexec once_spec OpNew (tr ++ ls) log a P -> exists log' a' P', aexec once_spec OpNew tr log' a' P'.
Proof.
  intros H. remember (tr ++ ls) as tr0 eqn:E. revert ls E.
  induction H as [|tr0 log a P t o H IH HP|tr0 log a a' P t o r H IH HP Ha|
                  tr0 log a a' P t o l r H IH HP []|tr0 log a P t o r H IH HP]; intros ls E; [|..|eauto|].
  - symmetry in E. apply app_eq_nil in E as [-> ->]. eauto using ax_start.
  - destruct ls as [|l ls _] using rev_ind; [rewrite app_nil_r in E; subst; eauto using ax_inv|].
    rewrite app_assoc in E. apply app_inj_tail in E as [-> _]. eauto.
  - destruct ls as [|l ls _] using rev_ind; [rewrite app_nil_r in E; subst; eauto using ax_ret|].
    rewrite app_assoc in E. apply app_inj_tail in E as [-> _]. eauto.
Qed.

Lemma elem_of_visible (tr : list (label once)) l :
  visible l = true -> l ∈ filter (fun l => visible l = true) tr <-> l ∈ tr.
Proof. intros H. rewrite list_elem_of_filter. naive_solver. Qed.

Lemma said_visible o (tr : list (label once)) : said o (filter (fun l => visible l = true) tr) -> said o tr.
Proof. intros [t Ht]. exists t. by apply (elem_of_visible tr) in Ht. Qed.

Lemma once_honest h c tr ls : reachable once_code OpNew h c (tr ++ ls) -> honest tr.
Proof.
  intros H. destruct (verified_atomic once_verified h c _ H) as (log & a & P & Ha & _).
  rewrite filter_app in Ha. apply aexec_prefix in Ha as (log' & a' & P' & Ha). split.
  - rewrite <- once_starts_visible. by eapply once_starts_at_most.
  - intros t r Ht. destruct (settled_returned _ _ _ (once_settled _ _ _ _ Ha) t r) as (v & st & -> & H1 & H2).
    { by apply elem_of_visible. }
    exists v, st. split_and!; [done|auto using said_visible..].
Qed.

(** ** What the callers keep *)

Definition ended_with (b : bool) (h : list event) : Prop := exists t, Ended t b ∈ h.

(** Why a [call_once] may end with [r]. *)
Definition justified (h : list event) (r : call_result) : Prop :=
  match r with
  | Returned => ended_with true h
  | Raised OncePoisoned | Raised CallbackError => ended_with false h
  | Raised (OnceOperationFailed st) => st <> 0
  end.

Definition event_ok (h : list event) (e : event) : Prop :=
  match e with Left _ r => justified h r | _ => True end.

Definition call_ok (h : list event) (o : once_op) (k : Z -> Z -> client) : Prop :=
  match o with
  | OpBegin => k = after_begin
  | OpComplete => k = after_complete /\ ended_with true h
  | OpPoison => k = after_poison /\ ended_with false h
  | _ => False
  end.

Definition client_ok (h : list event) (p : client) : Prop :=
  match p with
  | Invoke o k => call_ok h o k
  | Callback k => k = after_callback
  | Done r => justified h r
  end.

Definition frame_ok (h : list event) (f : frame) : Prop :=
  match f with
  | At p => client_ok h p
  | Within o k => call_ok h o k
  | InCallback k => k = after_callback
  end.

Definition to_begin (f : frame) : Z := match f with At (Callback _) => 1 | _ => 0 end.
Definition in_callback (f : frame) : Z := match f with InCallback _ => 1 | _ => 0 end.
Definition begun (e : event) : Z := match e with Began _ => 1 | _ => 0 end.
Definition ended (e : event) : Z := match e with Ended _ _ => 1 | _ => 0 end.

Record orderly (c : callers) : Prop := Orderly {
  or_frames t : Forall (frame_ok (history c)) (stacks c !!! t);
  or_complete : said OpComplete (shown c) -> ended_with true (history c);
  or_poison : said OpPoison (shown c) -> ended_with false (history c);
  or_events : forall h1 e h2, history c = h1 ++ e :: h2 -> event_ok h1 e;
  or_begun : lsum begun (history c) + msum (lsum to_begin) (stacks c) <= lsum (fun l => b2z (starts l)) (shown c);
  or_ended : lsum begun (history c) = lsum ended (history c) + msum (lsum in_callback) (stacks c);
}.

Lemma ended_with_app b h es : ended_with b h -> ended_with b (h ++ es).
Proof. intros [t ?]. exists t. set_solver. Qed.

Lemma justified_app h es r : justified h r -> justified (h ++ es) r.
Proof. destruct r as [|[]]; simpl; eauto using ended_with_app. Qed.

Lemma frame_ok_app h es f : frame_ok h f -> frame_ok (h ++ es) f.
Proof.
  destruct f as [[o k|k|r]|o k|k]; simpl; auto using justified_app;
    destruct o; simpl; intros; destruct_and?; auto using ended_with_app.
Qed.

Lemma msum_set (f : list frame -> Z) (m : gmap tid (list frame)) t s :
  f [] = 0 -> msum f (<[t := s]> m) = msum f m - f (m !!! t) + f s.
Proof.
  intros Hf. rewrite lookup_total_alt. destruct (m !! t) as [s0|] eqn:E; simpl.
  - by rewrite (msum_insert f m t s0).
  - rewrite msum_new by done. rewrite Hf. lia.
Qed.

(** The top of one stack changes. *)
Lemma orderly_update c t fs s fs' ls es :
  orderly c -> stacks c !!! t = fs ++ s ->
  Forall (frame_ok (history c ++ es)) fs' ->
  (said OpComplete ls -> ended_with true (history c ++ es)) ->
  (said OpPoison ls -> ended_with false (history c ++ es)) ->
  (forall h1 e h2, es = h1 ++ e :: h2 -> event_ok (history c ++ h1) e) ->
  lsum begun es + lsum to_begin fs' - lsum to_begin fs <= lsum (fun l => b2z (starts l)) ls ->
  lsum begun es = lsum ended es + lsum in_callback fs' - lsum in_callback fs ->
  orderly (update t (fs' ++ s) ls es c).
Proof.
  intros [I1 I2 I3 I4 I5 I6] Hs Hf Hc Hp Hl H1 H2. split; simpl.
  - intros t'. destruct (decide (t' = t)) as [->|Hne].
    + rewrite lookup_total_insert_eq. apply Forall_app. split; [done|].
      specialize (I1 t). rewrite Hs in I1. apply Forall_app in I1 as [_ I1].
      eapply Forall_impl; eauto using frame_ok_app.
    + rewrite lookup_total_insert_ne by done. eapply Forall_impl; eauto using frame_ok_app.
  - intros [t' [?|?]%elem_of_app]; [apply ended_with_app; eauto|eauto].
  - intros [t' [?|?]%elem_of_app]; [apply ended_with_app; eauto|eauto].
  - by apply split_app.
  - rewrite !lsum_app, (msum_set _ _ _ _ eq_refl), Hs, !lsum_app. lia.
  - rewrite !lsum_app, (msum_set _ _ _ _ eq_refl), Hs, !lsum_app. lia.
Qed.

(** A label of a call that is not [call_once]'s. *)
Lemma orderly_show c l :
  orderly c -> (forall t, l <> LInv t OpComplete /\ l <> LInv t OpPoison) -> orderly (show l c).
Proof.
  intros [I1 I2 I3 I4 I5 I6] Hl. split; simpl; [done| | |done| |done].
  - intros [t [?|<-%list_elem_of_singleton]%elem_of_app]; [eauto|]. by destruct (Hl t).
  - intros [t [?|<-%list_elem_of_singleton]%elem_of_app]; [eauto|]. by destruct (Hl t).
  - rewrite lsum_app. assert (0 <= lsum (fun l => b2z (starts l)) [l]); [|lia].
    apply lsum_nonneg. intros. apply b2z_nonneg.
Qed.

(** What a native call returns is what its continuation expects. *)
Lemma after_return c t o k r :
  orderly c -> honest (shown c ++ [LRes t o r]) -> call_ok (history c) o k ->
  let p := k (value_of r) (status_val r) in
  client_ok (history c) p /\ to_begin (At p) <= b2z (starts (LRes t o r)).
Proof.
  intros I [_ Hb] Hk. destruct o; simpl in Hk; try done.
  - subst k. destruct (Hb t r) as (v & st & -> & H1 & H2); [set_solver|].
    unfold after_begin, value_of, status_val. simpl.
    destruct (Z.eqb_spec st 0) as [->|Hn]; simpl; [|split; [exact Hn|apply b2z_nonneg]].
    destruct (Z.eqb_spec v 0) as [->|]; simpl.
    { split; [|done]. apply (or_complete _ I). destruct H1 as [t' Ht']; [done..|]. exists t'. set_solver. }
    destruct (Z.eqb_spec v 1) as [->|]; simpl; [done|].
    split; [|apply b2z_nonneg]. apply (or_poison _ I). destruct H2 as [t' Ht']; [done..|]. exists t'. set_solver.
  - destruct Hk as [-> Hk]. unfold after_complete. by destruct (Z.eqb_spec (status_val r) 0).
  - destruct Hk as [-> Hk]. unfold after_poison. by destruct (Z.eqb_spec (status_val r) 0).
Qed.

Lemma single_ok h e : event_ok h e -> forall h1 e' h2, [e] = h1 ++ e' :: h2 -> event_ok (h ++ h1) e'.
Proof. intros He [|e1 [|??]] e' h2 [=]; simplify_eq. by rewrite app_nil_r. Qed.

Lemma none_ok h : forall h1 e' h2, @nil event = h1 ++ e' :: h2 -> event_ok (h ++ h1) e'.
Proof. by intros []. Qed.

Lemma orderly_step x c c' :
  orderly c -> honest (shown c') -> client_step x c = Some c' -> orderly c'.
Proof.
  intros I Hh Hx. pose proof (or_frames c I) as HI.
  destruct x as [t|[t o|t o r|t e|t f]|t|t b|t]; simpl in Hx.
  all: try (destruct (protected o) eqn:Ho; [|injection Hx as <-; apply orderly_show; [done|by destruct o]]).
  all: try (injection Hx as <-; by apply orderly_show).
  all: specialize (HI t); destruct (stacks c !!! t) as [|[[o' k|k|r']|o' k|k] s] eqn:Hs; try done.
  all: try case_bool_decide; simplify_eq; try apply Forall_cons in HI as [Hf HI].
  all: match goal with
    | |- orderly (update _ [At call_once] _ _ _) => apply (orderly_update c t [] [] [At call_once])
    | |- orderly (update _ (At call_once :: ?f :: ?s) _ _ _) => apply (orderly_update c t [] (f :: s) [At call_once])
    | H : stacks _ !!! _ = ?f :: ?s |- orderly (update _ (?f' :: ?s) _ _ _) => apply (orderly_update c t [f] s [f'])
    | H : stacks _ !!! _ = ?f :: ?s |- orderly (update _ ?s _ _ _) => apply (orderly_update c t [f] s [])
    end.
  all: try done; try apply none_ok; try (apply single_ok; done).
  all: try (intros [t' Ht'%list_elem_of_singleton]; simplify_eq; simpl in Hf; destruct_and?; by apply ended_with_app).
  all: try (intros [t' []%not_elem_of_nil]).
  all: rewrite ?app_nil_r.
  all: try (by repeat constructor).
  all: try (pose proof (after_return c t o k r I Hh Hf) as [Hp Hb]).
  - by repeat constructor.
  - simpl in *. lia.
  - simpl in Hf. subst k. apply Forall_singleton. destruct b; (split; [done|exists t; set_solver]).
  - simpl in Hf. subst k. by destruct b.
Qed.

Lemma client_step_shown x c c' : client_step x c = Some c' -> exists ls, shown c' = shown c ++ ls.
Proof.
  intros H. destruct x as [t|[t o|t o r|t e|t f]|t|t b|t]; simpl in H; repeat case_match; simplify_eq; simpl; eauto.
Qed.

Lemma play_shown xs c c' : play xs c = Some c' -> exists ls, shown c' = shown c ++ ls.
Proof.
  revert c. induction xs as [|x xs IH]; intros c; simpl.
  - intros [= <-]. exists []. by rewrite app_nil_r.
  - intros (c1 & Hx & [ls Hl]%IH)%bind_Some. apply client_step_shown in Hx as [ls' Hx].
    exists (ls' ++ ls). by rewrite Hl, Hx, app_assoc.
Qed.

Lemma play_orderly xs c m :
  orderly c -> (forall tr ls, shown m = tr ++ ls -> honest tr) -> play xs c = Some m -> orderly m.
Proof.
  intros I Hh. revert c I. induction xs as [|x xs IH]; intros c I; simpl; [by intros [= <-]|].
  intros (c1 & Hx & Hp)%bind_Some. destruct (play_shown _ _ _ Hp) as [ls Hls].
  by eapply IH, Hp; eapply orderly_step, Hx; [|eapply Hh].
Qed.

Lemma orderly_none : orderly no_callers.
Proof.
  split; simpl.
  - intros t. by rewrite lookup_total_empty.
  - by intros [t ?%not_elem_of_nil].
  - by intros [t ?%not_elem_of_nil].
  - by intros [].
  - by rewrite msum_empty.
  - by rewrite msum_empty.
Qed.

Lemma follows_orderly h c m : reachable once_code OpNew h c (shown m) -> follows m -> orderly m.
Proof.
  intros Hr [xs Hp]. apply (play_orderly xs no_callers); [apply orderly_none| |done].
  intros tr ls E. rewrite E in Hr. by eapply once_honest.
Qed.

Lemma orderly_at_most_one m :
  orderly m -> honest (shown m) -> lsum ended (history m) <= lsum begun (history m) <= 1.
Proof.
  intros I [H _]. pose proof (or_begun m I). pose proof (or_ended m I).
  assert (0 <= msum (lsum to_begin) (stacks m)).
  { apply msum_nonneg. intros t s _. apply lsum_nonneg. intros [[]| |]; done. }
  assert (0 <= msum (lsum in_callback) (stacks m)); [|lia].
  apply msum_nonneg. intros t s _. apply lsum_nonneg. intros []; done.
Qed.

(** ** The theorem *)

(** C21: [call_once] keeps its promise, for any number of threads that call it on one
    cell, also from within its callback, whatever the operating system answers: the
    callback is called at most once; a [call_once] returns only after it has
    returned, raises [OncePoisoned] (or the error of the callback) only after it has
    raised, and otherwise reports a status that is not 0; so no two callers are told
    different outcomes. *)
Theorem call_once_correct h c m :
  reachable once_code OpNew h c (shown m) -> follows m ->
  lsum begun (history m) <= 1 /\
  (forall h1 t r h2, history m = h1 ++ Left t r :: h2 ->
     match r with
     | Returned => exists t', Ended t' true ∈ h1
     | Raised OncePoisoned | Raised CallbackError => exists t', Ended t' false ∈ h1
     | Raised (OnceOperationFailed st) => st <> 0
     end) /\
  (forall t t', Left t Returned ∈ history m -> Left t' (Raised OncePoisoned) ∉ history m).
Proof.
  intros Hr Hm. pose proof (follows_orderly h c m Hr Hm) as I.
  assert (honest (shown m)) as Hh by (apply (once_honest h c _ []); by rewrite app_nil_r).
  destruct (orderly_at_most_one m I Hh). split; [lia|].
  assert (forall h1 t r h2, history m = h1 ++ Left t r :: h2 -> justified h1 r) as Hj.
  { intros h1 t r h2 E. apply (or_events m I _ _ _ E). }
  split; [intros h1 t [|[]] h2 E; apply (Hj _ _ _ _ E)|].
  intros t t' (h1 & h2 & E)%list_elem_of_split (h1' & h2' & E')%list_elem_of_split.
  destruct (Hj _ _ _ _ E) as [u Hu], (Hj _ _ _ _ E') as [u' Hu'].
  assert (ended (Ended u true) + ended (Ended u' false) <= lsum ended (history m)); [|simpl in *; lia].
  apply lsum_two; [by intros []|done|rewrite E|rewrite E']; apply elem_of_app; by left.
Qed.

(** ** Witness *)

(** Threads 1 and 2 call it; the callback runs on thread 1 while thread 2 waits. *)
Definition called_twice : list (choice once) :=
  once_racing ++ [call 1 OpComplete] ++ steps 1 5 ++ steps 2 6.

Definition two_callers : list move :=
  [Shows (LRes 0%nat OpNew (RHandle true 0)); Shows (LInv 1%nat OpShare);
   Shows (LRes 1%nat OpShare (RHandle true 0));
   Calls 1%nat; Shows (LInv 1%nat OpBegin); Shows (LRes 1%nat OpBegin (RInt 1 0)); Starts 1%nat;
   Calls 2%nat; Shows (LInv 2%nat OpBegin); Ends 1%nat true;
   Shows (LInv 1%nat OpComplete); Shows (LRes 1%nat OpComplete (RVoid 0)); Leaves 1%nat;
   Shows (LRes 2%nat OpBegin (RInt 0 0)); Leaves 2%nat].

Lemma call_once_correct_witness :
  exists m, follows m /\
    history m = [Began 1%nat; Ended 1%nat true; Left 1%nat Returned; Left 2%nat Returned] /\
    lsum begun (history m) <= 1 /\ Left 1%nat (Raised OncePoisoned) ∉ history m.
Proof.
  exists (default no_callers (play two_callers no_callers)).
  assert (follows (default no_callers (play two_callers no_callers))) as Hf.
  { exists two_callers. vm_compute. reflexivity. }
  split; [exact Hf|]. split; [vm_compute; reflexivity|].
  destruct (call_once_correct once_h0 (after once_code OpNew once_h0 called_twice).1
    (default no_callers (play two_callers no_callers))) as (H1 & _ & H3); [|exact Hf|].
  - replace (shown (default no_callers (play two_callers no_callers)))
      with (after once_code OpNew once_h0 called_twice).2 by (vm_compute; reflexivity).
    scenario.
  - split; [exact H1|]. apply (H3 2%nat). vm_compute. set_solver.
Defined.
