(* ===== verification/Channel.v ===== *)
(** Channel: src/unsafe/channel/native.c, the bounded channel of MoonBit
    values.  Messages are pointers; the slots hold [None] for NULL.  What becomes
    of the references to the messages is the subject of [ChannelRefs]. *)
From stdpp Require Import base gmap list.
From Stdlib Require Import ZArith Lia.
From S2P Require Import Prelude Ring Machine Logic Soundness Verified Native.

Local Open Scope prog_scope.

(** ** State *)

(** A message: the address of a MoonBit object. *)
Abbreviation ptr := Z (only parsing).

(** The plain fields of [sync_channel_core_t]. *)
Record chan_core := ChanCore {
  slots : list (option ptr);
  capacity : Z;
  head : Z;
  tail : Z;
  count : Z;
  senders : Z;
  receiver_alive : Z;
  closed : Z;
}.

Section fields.
Implicit Types s : chan_core.
Definition set_slots x s :=
  ChanCore x (capacity s) (head s) (tail s) (count s) (senders s) (receiver_alive s) (closed s).
Definition set_capacity x s :=
  ChanCore (slots s) x (head s) (tail s) (count s) (senders s) (receiver_alive s) (closed s).
Definition set_head x s :=
  ChanCore (slots s) (capacity s) x (tail s) (count s) (senders s) (receiver_alive s) (closed s).
Definition set_tail x s :=
  ChanCore (slots s) (capacity s) (head s) x (count s) (senders s) (receiver_alive s) (closed s).
Definition set_count x s :=
  ChanCore (slots s) (capacity s) (head s) (tail s) x (senders s) (receiver_alive s) (closed s).
Definition set_senders x s :=
  ChanCore (slots s) (capacity s) (head s) (tail s) (count s) x (receiver_alive s) (closed s).
Definition set_receiver_alive x s :=
  ChanCore (slots s) (capacity s) (head s) (tail s) (count s) (senders s) x (closed s).
Definition set_closed x s :=
  ChanCore (slots s) (capacity s) (head s) (tail s) (count s) (senders s) (receiver_alive s) x.
End fields.

Record chan_hooks := ChanHooks { next_init_error : Z; next_operation_error : Z }.

Definition hook_init : hook chan_hooks :=
  MkHook next_init_error (fun z h => ChanHooks z (next_operation_error h)).
Definition hook_operation : hook chan_hooks :=
  MkHook next_operation_error (fun z h => ChanHooks (next_init_error h) z).

Inductive chan_cond := Readable | Writable.
#[export] Instance chan_cond_dec : EqDecision chan_cond.
Proof. solve_decision. Defined.

(** The [role] of a handle: 1 is a sender, 2 the receiver. *)
Inductive role := Sender | Receiver.
#[export] Instance role_dec : EqDecision role.
Proof. solve_decision. Defined.

(** [moonbit_decref] of a message. *)
Inductive chan_event := Decref (m : ptr).

Inductive chan_op :=
| OpNew (capacity : Z)
| OpReceiver
| OpSenderShare
| OpTrySend (message : ptr)
| OpSend (message : ptr)
| OpSenderClose
| OpTryRecv
| OpRecv
| OpReceiverClose
| OpLen
| OpCapacity
| OpFinalize (r : role)
| OpTestFailNextInit (status : Z)
| OpTestFailNextOperation (status : Z).

Inductive chan_res :=
| RHandle (ok : bool) (status : Z)
| RSend (returned : option ptr) (result error : Z)
| RRecv (message : option ptr) (status error : Z)
| RInt (v error : Z)
| RVoid (error : Z)
| RCapacity (v : Z)
| RUnit.

Definition error_of (r : chan_res) : option Z :=
  match r with
  | RHandle _ e | RSend _ _ e | RRecv _ _ e | RInt _ e | RVoid e => Some e
  | RCapacity _ | RUnit => None
  end.

Canonical Structure chan : sig :=
  Sig chan_core Z chan_hooks chan_cond role chan_event chan_op chan_res Empty_set _ _.

(** ** Operations *)

(** The loop of [sync_channel_core_release] from slot [index] on, [n] slots
    being left. *)
Fixpoint release_slots (n : nat) (index : Z) (k : prog chan) : prog chan :=
  match n with
  | O => k
  | S n =>
      core <- Access (fun core => _ ← zget (slots core) index; Some core);;
      match mjoin (zget (slots core) index) with
      | Some m => Emit (Decref m);; release_slots n (index + 1) k
      | None => release_slots n (index + 1) k
      end
  end.

Definition sync_channel_core_release (k : prog chan) : prog chan :=
  refs <- sync_arc_dec;;
  if negb (refs =? 0) then k else
  core <- Read;;
  release_slots (Z.to_nat (capacity core)) 0;;
  Free RBuf;;
  st <- sync_os_cond_destroy Writable;;
  abort_if_failed st;;
  st <- sync_os_cond_destroy Readable;;
  abort_if_failed st;;
  st <- sync_os_mutex_destroy;;
  abort_if_failed st;;
  Free RCore;;
  k.

Definition broadcast_or_abort (q : chan_cond) (k : prog chan) : prog chan :=
  st <- sync_os_cond_broadcast q;;
  abort_if_failed st;;
  k.

Definition sync_channel_finalize (r : role) : prog chan :=
  lock_or_abort;;
  let finish :=
    unlock_or_abort;;
    sync_channel_core_release;;
    Ret RUnit in
  match r with
  | Sender =>
      Write (fun core => n ← i32 (senders core - 1); Some (set_senders n core));;
      core <- Read;;
      if senders core =? 0 then
        Write (fun core => Some (set_closed 1 core));;
        broadcast_or_abort Readable;;
        broadcast_or_abort Writable;;
        finish
      else finish
  | Receiver =>
      core <- Read;;
      if negb (receiver_alive core =? 0) then
        Write (fun core => Some (set_receiver_alive 0 core));;
        Write (fun core => Some (set_closed 1 core));;
        broadcast_or_abort Readable;;
        broadcast_or_abort Writable;;
        finish
      else finish
  end.

Definition sync_channel_wrap (r : role) (k : prog chan) : prog chan := Wrap r k.

Definition sync_channel_new (cap : Z) : prog chan :=
  sync_alloc RCore;;
  RefStore 1;;
  Write (fun core => Some (set_capacity cap core));;
  Write (fun core => Some (set_senders 1 core));;
  sync_array_size_or_abort cap 8 (fun _ =>
  sync_alloc RBuf;;
  Write (fun core => Some (set_slots (replicate (Z.to_nat cap) None) core));;
  let fail_with status :=
    Free RBuf;;
    Free RCore;;
    Ret (RHandle false status) in
  status <- sync_test_atomic_take hook_init;;
  if negb (status =? 0) then fail_with status else
  status <- sync_os_mutex_init;;
  if negb (status =? 0) then fail_with status else
  status <- sync_os_cond_init Readable;;
  if negb (status =? 0) then
    st <- sync_os_mutex_destroy;;
    abort_if_failed st;;
    fail_with status
  else
  status <- sync_os_cond_init Writable;;
  if negb (status =? 0) then
    st <- sync_os_cond_destroy Readable;;
    abort_if_failed st;;
    st <- sync_os_mutex_destroy;;
    abort_if_failed st;;
    fail_with status
  else
  sync_channel_wrap Sender;;
  Ret (RHandle true status)).

Definition sync_channel_receiver : prog chan :=
  status <- sync_os_mutex_lock;;
  if negb (status =? 0) then Ret (RHandle false status) else
  Write (fun core => Some (set_receiver_alive 1 core));;
  sync_arc_inc;;
  st <- sync_os_mutex_unlock;;
  sync_channel_wrap Receiver;;
  Ret (RHandle true (record_error status st)).

Definition sync_sender_share : prog chan :=
  status <- sync_os_mutex_lock;;
  if negb (status =? 0) then Ret (RHandle false status) else
  Write (fun core => n ← i32 (senders core + 1); Some (set_senders n core));;
  sync_arc_inc;;
  st <- sync_os_mutex_unlock;;
  sync_channel_wrap Sender;;
  Ret (RHandle true (record_error status st)).

(** Store a message in the slot at [tail] and advance: the common tail of
    [sync_sender_try_send] and [sync_sender_send]. *)
Definition enqueue (message : ptr) (error : Z) : prog chan :=
  Write (fun core =>
    xs ← zset (slots core) (tail core) (Some message); Some (set_slots xs core));;
  Write (fun core =>
    i ← ring_next (capacity core) (tail core); Some (set_tail i core));;
  Write (fun core => n ← i32 (count core + 1); Some (set_count n core));;
  st <- sync_os_cond_signal Readable;;
  let error := record_error error st in
  st <- sync_os_mutex_unlock;;
  Ret (RSend None 0 (record_error error st)).

(** Release the mutex and give the message back. *)
Definition give_back (message : ptr) (result error : Z) : prog chan :=
  st <- sync_os_mutex_unlock;;
  Ret (RSend (Some message) result (record_error error st)).

Definition is_closed (core : chan_core) : bool :=
  negb (closed core =? 0) || (receiver_alive core =? 0).

Definition sync_sender_try_send (message : ptr) : prog chan :=
  error <- sync_test_atomic_take hook_operation;;
  if negb (error =? 0) then Ret (RSend (Some message) 2 error) else
  error <- sync_os_mutex_lock;;
  if negb (error =? 0) then Ret (RSend (Some message) 2 error) else
  core <- Read;;
  if is_closed core then give_back message 2 error else
  if count core =? capacity core then give_back message 1 error else
  enqueue message error.

Definition sync_sender_send (message : ptr) : prog chan :=
  error <- sync_os_mutex_lock;;
  if negb (error =? 0) then Ret (RSend (Some message) 2 error) else
  WaitWhile
    (fun core => (count core =? capacity core) && (closed core =? 0) &&
                 negb (receiver_alive core =? 0))
    Writable
    (fun wait_status => give_back message 2 (record_error error wait_status))
    (core <- Read;;
     if is_closed core then give_back message 2 error else
     enqueue message error).

Definition sync_sender_close : prog chan :=
  error <- sync_os_mutex_lock;;
  if negb (error =? 0) then Ret (RVoid error) else
  Write (fun core => Some (set_closed 1 core));;
  st <- sync_os_cond_broadcast Readable;;
  let error := record_error error st in
  st <- sync_os_cond_broadcast Writable;;
  let error := record_error error st in
  st <- sync_os_mutex_unlock;;
  Ret (RVoid (record_error error st)).

(** Take the message in the slot at [head] and advance: the last part of
    [sync_channel_receive]. *)
Definition dequeue (error : Z) : prog chan :=
  core <- Access (fun core => _ ← zget (slots core) (head core); Some core);;
  let message := mjoin (zget (slots core) (head core)) in
  Write (fun core => xs ← zset (slots core) (head core) None; Some (set_slots xs core));;
  Write (fun core => i ← ring_next (capacity core) (head core); Some (set_head i core));;
  Write (fun core => n ← i32 (count core - 1); Some (set_count n core));;
  st <- sync_os_cond_signal Writable;;
  let error := record_error error st in
  st <- sync_os_mutex_unlock;;
  Ret (RRecv message 0 (record_error error st)).

Definition sync_channel_receive (blocking : bool) : prog chan :=
  error <- sync_os_mutex_lock;;
  if negb (error =? 0) then Ret (RRecv None 2 error) else
  WaitWhile (fun core => blocking && (count core =? 0) && (closed core =? 0)) Readable
    (fun wait_status =>
       let error := record_error error wait_status in
       st <- sync_os_mutex_unlock;;
       Ret (RRecv None 2 (record_error error st)))
    (core <- Read;;
     if count core =? 0 then
       let status := if negb (closed core =? 0) then 2 else 1 in
       st <- sync_os_mutex_unlock;;
       Ret (RRecv None status (record_error error st))
     else dequeue error).

Definition sync_receiver_try_recv : prog chan := sync_channel_receive false.
Definition sync_receiver_recv : prog chan := sync_channel_receive true.

Definition sync_receiver_close : prog chan :=
  error <- sync_os_mutex_lock;;
  if negb (error =? 0) then Ret (RVoid error) else
  Write (fun core => Some (set_closed 1 core));;
  Write (fun core => Some (set_receiver_alive 0 core));;
  st <- sync_os_cond_broadcast Readable;;
  let error := record_error error st in
  st <- sync_os_cond_broadcast Writable;;
  let error := record_error error st in
  st <- sync_os_mutex_unlock;;
  Ret (RVoid (record_error error st)).

Definition sync_receiver_len : prog chan :=
  error <- sync_os_mutex_lock;;
  if negb (error =? 0) then Ret (RInt 0 error) else
  core <- Read;;
  st <- sync_os_mutex_unlock;;
  Ret (RInt (count core) (record_error error st)).

(** [capacity] never changes once the channel exists and is read without the
    mutex. *)
Definition sync_receiver_capacity : prog chan :=
  cap <- ReadImm;;
  Ret (RCapacity cap).

Definition sync_channel_test_fail_next_init (status : Z) : prog chan :=
  sync_test_atomic_store hook_init status;; Ret RUnit.
Definition sync_channel_test_fail_next_operation (status : Z) : prog chan :=
  sync_test_atomic_store hook_operation status;; Ret RUnit.

Definition chan_body (o : chan_op) : prog chan :=
  match o with
  | OpNew cap => sync_channel_new cap
  | OpReceiver => sync_channel_receiver
  | OpSenderShare => sync_sender_share
  | OpTrySend m => sync_sender_try_send m
  | OpSend m => sync_sender_send m
  | OpSenderClose => sync_sender_close
  | OpTryRecv => sync_receiver_try_recv
  | OpRecv => sync_receiver_recv
  | OpReceiverClose => sync_receiver_close
  | OpLen => sync_receiver_len
  | OpCapacity => sync_receiver_capacity
  | OpFinalize r => sync_channel_finalize r
  | OpTestFailNextInit st => sync_channel_test_fail_next_init st
  | OpTestFailNextOperation st => sync_channel_test_fail_next_operation st
  end.

Definition chan_on_handle (o : chan_op) : option role :=
  match o with
  | OpReceiver | OpSenderShare | OpTrySend _ | OpSend _ | OpSenderClose => Some Sender
  | OpTryRecv | OpRecv | OpReceiverClose | OpLen | OpCapacity => Some Receiver
  | OpFinalize r => Some r
  | _ => None
  end.

Definition chan_code : code chan :=
  Code chan
    (* body *) chan_body
    (* block *) (fun l => match l with end)
    (* zeroed *) (ChanCore [] 0 0 0 0 0 0 0)
    (* imm *) capacity
    (* on_handle *) chan_on_handle
    (* consumes *) (fun o => match o with OpFinalize _ => true | _ => false end)
    (* client *) (fun o => match o with OpNew _ => false | _ => true end).

(** ** Specification *)

(** The atomic channel: a queue, whether it is open at either end, and the
    number of senders. *)
Record chan_state := ChanState {
  queue : list ptr;
  shut : bool;              (** closed *)
  receiving : bool;         (** a receiver exists *)
  producers : Z;
}.

Definition with_queue q a := ChanState q (shut a) (receiving a) (producers a).
Definition open (a : chan_state) : bool := negb (shut a) && receiving a.

Section spec.
Context (cap : Z).

(** A send of [m] on a channel in state [a]. *)
Definition send_step (m : ptr) (a a' : option chan_state) (ret : option ptr) (result error : Z)
    : Prop :=
  exists s, a = Some s /\
    ((ret = None /\ result = 0 /\ open s = true /\ Z.of_nat (length (queue s)) < cap /\
      a' = Some (with_queue (queue s ++ [m]) s)) \/
     (ret = Some m /\ result = 2 /\ open s = false /\ a' = a)).

(** A receive on a channel in state [a]. *)
Definition recv_step (a a' : option chan_state) (msg : option ptr) (status error : Z) : Prop :=
  exists s, a = Some s /\
    ((exists m q, msg = Some m /\ status = 0 /\ queue s = m :: q /\ a' = Some (with_queue q s)) \/
     (msg = None /\ status = 2 /\ queue s = [] /\ shut s = true /\ a' = a)).

Definition chan_atomic (o : chan_op) (a : option chan_state) (r : chan_res)
    (a' : option chan_state) : Prop :=
  match o, r with
  | OpNew _, RHandle true st => st = 0 /\ a = None /\ a' = Some (ChanState [] false false 1)
  | OpNew _, RHandle false st => st <> 0 /\ a' = a
  | OpReceiver, RHandle true _ =>
      exists s, a = Some s /\ a' = Some (ChanState (queue s) (shut s) true (producers s))
  | OpSenderShare, RHandle true _ =>
      exists s, a = Some s /\
                a' = Some (ChanState (queue s) (shut s) (receiving s) (producers s + 1))
  | (OpReceiver | OpSenderShare), RHandle false st => st <> 0 /\ a' = a
  | OpTrySend m, RSend ret result error =>
      (error <> 0 /\ ret = Some m /\ result = 2 /\ a' = a) \/
      send_step m a a' ret result error \/
      (exists s, a = Some s /\ open s = true /\ Z.of_nat (length (queue s)) = cap /\
                 ret = Some m /\ result = 1 /\ a' = a)
  | OpSend m, RSend ret result error =>
      (error <> 0 /\ ret = Some m /\ result = 2 /\ a' = a) \/
      send_step m a a' ret result error
  | OpTryRecv, RRecv msg status error =>
      (error <> 0 /\ msg = None /\ status = 2 /\ a' = a) \/
      recv_step a a' msg status error \/
      (exists s, a = Some s /\ queue s = [] /\ shut s = false /\
                 msg = None /\ status = 1 /\ a' = a)
  | OpRecv, RRecv msg status error =>
      (error <> 0 /\ msg = None /\ status = 2 /\ a' = a) \/
      recv_step a a' msg status error
  | OpSenderClose, RVoid error =>
      (error <> 0 /\ a' = a) \/
      (exists s, a = Some s /\ a' = Some (ChanState (queue s) true (receiving s) (producers s)))
  | OpReceiverClose, RVoid error =>
      (error <> 0 /\ a' = a) \/
      (exists s, a = Some s /\ a' = Some (ChanState (queue s) true false (producers s)))
  | OpLen, RInt v error =>
      (error <> 0 /\ v = 0 /\ a' = a) \/
      (exists s, a = Some s /\ v = Z.of_nat (length (queue s)) /\ a' = a)
  | OpCapacity, RCapacity v => v = cap /\ a' = a
  | OpFinalize Sender, RUnit =>
      exists s, a = Some s /\
        a' = Some (ChanState (queue s) (shut s || (producers s =? 1)) (receiving s)
                     (producers s - 1))
  | OpFinalize Receiver, RUnit =>
      exists s, a = Some s /\
        a' = Some (ChanState (queue s) (shut s || receiving s) false (producers s))
  | (OpTestFailNextInit _ | OpTestFailNextOperation _), RUnit => a' = a
  | _, _ => False
  end.

Definition chan_queue (s : chan_core) : list ptr :=
  contents (slots s) (capacity s) (head s) (count s).

Definition chan_abs (s : chan_core) : chan_state :=
  ChanState (chan_queue s) (negb (closed s =? 0)) (negb (receiver_alive s =? 0)) (senders s).

(** The lock invariant. *)
Record chan_inv (s : chan_core) : Prop := ChanInv {
  ci_capacity : capacity s = cap;
  ci_ring : ring_ok (slots s) cap (head s) (tail s) (count s);
  ci_senders : 0 <= senders s;
  ci_last : senders s = 0 -> closed s <> 0;
}.

Definition chan_slack (q : chan_cond) (s : chan_core) : option Z :=
  match q with
  | Readable => if closed s =? 0 then Some (count s) else None
  | Writable => if is_closed s then None else Some (cap - count s)
  end.

Definition chan_spec : spec chan :=
  Spec chan
    (* abst *) chan_state
    (* inv *) chan_inv
    (* abs *) chan_abs
    (* cnt *) (fun s => (senders s, 0))
    (* kw *) (fun r => match r with Sender => (1, 0) | Receiver => w0 end)
    (* sw *) (fun _ => w0)
    (* spawnable *) (fun _ => false)
    (* full *) [RCond Writable; RCond Readable; RMutex; RBuf; RCore]
    (* slack *) chan_slack
    (* atomic *) chan_atomic
    (* internal *) (fun _ _ _ _ => False)
    (* errok *) (fun _ r => reported (error_of r))
    (* abortok *) (fun o => match o with OpNew _ => cap <= 0 | _ => False end)
    (* linv *) (fun _ _ _ _ _ _ _ => False).
End spec.

(** ** Verification conditions *)

Section verification.
Context (cap : Z) (Hcap : cap <= INT32_MAX).

Abbreviation cwp := (wp chan_code (chan_spec cap)).

Lemma chan_inv_count s : chan_inv cap s -> 0 <= count s <= cap.
Proof. intros [_ [] _ _]. done. Qed.

Lemma chan_queue_length s : chan_inv cap s -> Z.of_nat (length (chan_queue s)) = count s.
Proof. intros [<- ? _ _]. by eapply contents_length. Qed.

(** Storing a message: the slot at [tail], the index and the count. *)
Definition pushed (m : ptr) (s : chan_core) : chan_core :=
  set_count (count s + 1) (set_tail ((tail s + 1) mod cap)
    (set_slots (<[Z.to_nat (tail s) := Some m]> (slots s)) s)).

Lemma pushed_ok m s :
  chan_inv cap s -> count s < cap ->
  chan_inv cap (pushed m s) /\
  chan_abs (pushed m s) = with_queue (chan_queue s ++ [m]) (chan_abs s) /\
  0 <= tail s < Z.of_nat (length (slots s)) /\ 0 <= tail s < cap.
Proof.
  intros [Hc Hr Hs Hl] Hlt. destruct (ring_push _ _ _ _ _ m Hr Hlt) as (Ht & Hr' & Hq).
  pose proof (ro_len _ _ _ _ _ Hr). split_and!; try lia.
  - by split.
  - unfold chan_abs, chan_queue, with_queue, pushed. simpl. by rewrite Hc, Hq.
Qed.

(** An enqueued message with one signal to the readers loses no wake-up. *)
Lemma chan_no_lost_push m s (cr : sC chan -> option Z) e :
  is_closed s = false -> count s < cap -> cr = cr0 \/ cr = woken (Writable : sC chan) ->
  no_lost (chan_spec cap) s (pushed m s) (set_cr cr Readable (Z.add 1 <$> cr Readable)) e.
Proof.
  intros Hop Hlt Hcr _ q. unfold slack_ok. destruct q, Hcr as [-> | ->]; cbn.
  all: unfold is_closed in *; cbn in *; rewrite ?Hop.
  all: try (destruct (closed s =? 0); [|done]).
  all: eexists; split; [reflexivity|lia].
Qed.

Lemma wp_enqueue (o : chan_op) m s (cr : sC chan -> option Z) :
  chan_inv cap s -> is_closed s = false -> count s < cap -> cr = cr0 \/ cr = woken (Writable : sC chan) ->
  back chan_code o = 1 -> backw chan_code (chan_spec cap) o = (1, 0) ->
  (forall st, chan_atomic cap o (Some (chan_abs s)) (RSend None 0 st)
                (Some (with_queue (chan_queue s ++ [m]) (chan_abs s)))) ->
  cwp o (enqueue m 0) (In s s cr) 1 (1, 0) None None.
Proof.
  intros Hinv Hop Hlt Hcr Hb Hbw Hat. destruct (pushed_ok m s Hinv Hlt) as (Hinv' & Habs & Ht & Ht').
  pose proof (chan_inv_count s Hinv) as Hct. pose proof Hinv as [Hc Hr Hs Hl].
  unfold enqueue. unfold_native.
  eapply wp_access_in; [by rewrite zset_some by done|done|].
  eapply wp_access_in; [cbn; by rewrite Hc, ring_next_ok by lia|done|].
  eapply wp_access_in; [cbn; by rewrite i32_some by z32|done|].
  change (set_count _ _) with (pushed m s).
  wp_run; try wp_commit; rewrite ?Habs; eauto.
  2-3: rewrite Hbw; wt_solve.
  apply chan_no_lost_push; auto.
Qed.
(** Taking a message: the slot at [head], the index and the count. *)
Definition popped (s : chan_core) : chan_core :=
  set_count (count s - 1) (set_head ((head s + 1) mod cap)
    (set_slots (<[Z.to_nat (head s) := None]> (slots s)) s)).

Lemma popped_ok s :
  chan_inv cap s -> 0 < count s ->
  chan_inv cap (popped s) /\
  (exists m, zget (slots s) (head s) = Some (Some m) /\
    chan_queue s = m :: chan_queue (popped s) /\
    chan_abs (popped s) = with_queue (chan_queue (popped s)) (chan_abs s)) /\
  0 <= head s < Z.of_nat (length (slots s)) /\ 0 <= head s < cap.
Proof.
  intros [Hc Hr Hs Hl] Hlt. destruct (ring_pop _ _ _ _ _ Hr Hlt) as (m & Hm & Hr' & Hq).
  pose proof (ro_len _ _ _ _ _ Hr). pose proof (ro_head _ _ _ _ _ Hr). split_and!; try lia.
  - by split.
  - exists m. split; [done|]. split; [|done]. unfold chan_queue, popped. simpl. by rewrite Hc.
Qed.

Lemma chan_no_lost_pop s (cr : sC chan -> option Z) e :
  0 < count s -> cr = cr0 \/ cr = woken (Readable : sC chan) ->
  no_lost (chan_spec cap) s (popped s) (set_cr cr Writable (Z.add 1 <$> cr Writable)) e.
Proof.
  intros Hlt Hcr _ q. unfold slack_ok. destruct q, Hcr as [-> | ->]; cbn.
  all: unfold is_closed in *; cbn in *.
  all: try (destruct (closed s =? 0); [|done]).
  all: try (destruct (_ || _); [done|]).
  all: eexists; split; [reflexivity|lia].
Qed.

Lemma wp_dequeue (o : chan_op) s (cr : sC chan -> option Z) :
  chan_inv cap s -> 0 < count s -> cr = cr0 \/ cr = woken (Readable : sC chan) ->
  back chan_code o = 1 -> backw chan_code (chan_spec cap) o = w0 ->
  (forall m q st, chan_queue s = m :: q ->
     chan_atomic cap o (Some (chan_abs s)) (RRecv (Some m) 0 st)
                (Some (with_queue q (chan_abs s)))) ->
  cwp o (dequeue 0) (In s s cr) 1 w0 None None.
Proof.
  intros Hinv Hlt Hcr Hb Hbw Hat.
  destruct (popped_ok s Hinv Hlt) as (Hinv' & (m & Hm & Hq & Habs) & Ht & Ht').
  pose proof (chan_inv_count s Hinv) as Hct. pose proof Hinv as [Hc Hr Hs Hl].
  unfold dequeue. unfold_native.
  eapply wp_access_in; [by rewrite Hm|done|]. rewrite Hm. cbn [mjoin option_join mret].
  eapply wp_access_in; [by rewrite zset_some by done|done|].
  eapply wp_access_in; [cbn; by rewrite Hc, ring_next_ok by lia|done|].
  eapply wp_access_in; [cbn; by rewrite i32_some by z32|done|].
  change (set_count _ _) with (popped s).
  wp_run; try wp_commit; rewrite ?Habs; eauto.
  2-3: rewrite Hbw; wt_solve.
  by apply chan_no_lost_pop.
Qed.
Lemma open_abs s : open (chan_abs s) = negb (is_closed s).
Proof.
  unfold open, chan_abs, is_closed. simpl. rewrite negb_orb, negb_involutive.
  by destruct (closed s =? 0).
Qed.

Lemma chan_inv_closed s : chan_inv cap s -> chan_inv cap (set_closed 1 s).
Proof. by intros []. Qed.

Lemma chan_inv_receiver z s : chan_inv cap s -> chan_inv cap (set_receiver_alive z s).
Proof. by intros []. Qed.

Lemma chan_inv_senders n s :
  chan_inv cap s -> 0 <= n -> (n = 0 -> closed s <> 0) -> chan_inv cap (set_senders n s).
Proof. by intros []. Qed.

Lemma chan_sleep_writable s :
  chan_inv cap s ->
  (count s =? capacity s) && (closed s =? 0) && negb (receiver_alive s =? 0) = true ->
  chan_slack cap Writable s = Some 0.
Proof.
  intros [Hc _ _ _] H. unfold chan_slack, is_closed. rewrite Hc in H.
  destruct (Z.eqb_spec (count s) cap), (closed s =? 0), (receiver_alive s =? 0); try done.
  simpl. f_equal. lia.
Qed.

Lemma chan_sleep_readable b s :
  b && (count s =? 0) && (closed s =? 0) = true -> chan_slack cap Readable s = Some 0.
Proof.
  unfold chan_slack. destruct b, (Z.eqb_spec (count s) 0), (closed s =? 0); try done.
  simpl. intros _. f_equal. lia.
Qed.

Lemma chan_no_lost_closed s e : is_closed s = true -> no_lost (chan_spec cap) s s (woken (Writable : sC chan)) e.
Proof. intros H. apply no_lost_woken. simpl. by rewrite H. Qed.

Lemma chan_no_lost_empty s e : count s = 0 -> no_lost (chan_spec cap) s s (woken (Readable : sC chan)) e.
Proof. intros H. apply no_lost_woken. simpl. destruct (closed s =? 0); [lia|done]. Qed.

Lemma chan_no_lost_receiver s e : no_lost (chan_spec cap) s (set_receiver_alive 1 s) cr0 e.
Proof.
  intros _ q. unfold slack_ok, cr0. destruct q; cbn.
  - destruct (closed s =? 0); [|done]. eexists. split; [done|lia].
  - unfold is_closed. simpl. rewrite orb_false_r.
    destruct (closed s =? 0); simpl; [|done]. destruct (receiver_alive s =? 0); [done|].
    eexists. split; [done|lia].
Qed.

Lemma chan_no_lost_senders n s e : no_lost (chan_spec cap) s (set_senders n s) cr0 e.
Proof. apply (slack_ext (chan_spec cap)). intros []; done. Qed.

Lemma chan_no_lost_broadcast s s' cr e :
  no_lost (chan_spec cap) s s' (set_cr (set_cr cr Readable None) (Writable : sC chan) None) e.
Proof. by intros _ []. Qed.

(** A send that was given back, and a receive that found nothing. *)
Lemma send_refused m s st :
  is_closed s = true -> send_step cap m (Some (chan_abs s)) (Some (chan_abs s)) (Some m) 2 st.
Proof. intros H. exists (chan_abs s). split; [done|]. right. by rewrite open_abs, H. Qed.

Lemma recv_closed s st :
  chan_inv cap s -> count s = 0 -> closed s <> 0 ->
  recv_step (Some (chan_abs s)) (Some (chan_abs s)) None 2 st.
Proof.
  intros Hi Hc Hcl. exists (chan_abs s). split; [done|]. right. simpl.
  rewrite (proj2 (Z.eqb_neq _ _) Hcl). repeat split; try done.
  apply length_zero_iff_nil. pose proof (chan_queue_length s Hi). lia.
Qed.

Lemma try_send_full (m : ptr) s :
  chan_inv cap s -> is_closed s = false -> count s = capacity s ->
  exists a, Some (chan_abs s) = Some a /\ open a = true /\ Z.of_nat (length (queue a)) = cap /\
    Some m = Some m /\ 1 = 1 /\ Some (chan_abs s) = Some (chan_abs s).
Proof.
  intros Hi Hop Hc. eexists. split; [done|]. rewrite open_abs, Hop. simpl.
  rewrite chan_queue_length by done. by rewrite Hc, (ci_capacity _ _ Hi).
Qed.

(** What a receive reports when it finds the queue empty. *)
Lemma recv_empty s st :
  chan_inv cap s -> count s = 0 ->
  let status := if negb (closed s =? 0) then 2 else 1 in
  recv_step (Some (chan_abs s)) (Some (chan_abs s)) None status st \/
  exists a, Some (chan_abs s) = Some a /\ queue a = [] /\ shut a = false /\
    @None ptr = None /\ status = 1 /\ Some (chan_abs s) = Some (chan_abs s).
Proof.
  intros Hi Hc. destruct (Z.eqb_spec (closed s) 0) as [Hcl|Hcl]; simpl.
  - right. eexists. split; [done|]. simpl. rewrite Hcl. repeat split; try done.
    apply length_zero_iff_nil. pose proof (chan_queue_length s Hi). lia.
  - left. by apply recv_closed.
Qed.

(** The blocking receive leaves its loop on an empty queue only when the
    channel is closed. *)
Lemma recv_loop_exit s st :
  chan_inv cap s -> count s = 0 -> true && (count s =? 0) && (closed s =? 0) = false ->
  recv_step (Some (chan_abs s)) (Some (chan_abs s)) None
    (if negb (closed s =? 0) then 2 else 1) st.
Proof.
  intros Hi Hc H. rewrite Hc in H. simpl in H. rewrite H. simpl. apply recv_closed; [done..|].
  by apply Z.eqb_neq.
Qed.

Lemma send_loop_exit s :
  chan_inv cap s -> is_closed s = false ->
  (count s =? capacity s) && (closed s =? 0) && negb (receiver_alive s =? 0) = false ->
  count s < cap.
Proof.
  intros Hi Hop H. unfold is_closed in Hop. rewrite (ci_capacity _ _ Hi) in H.
  pose proof (chan_inv_count s Hi).
  destruct (Z.eqb_spec (count s) cap); [|lia].
  by destruct (closed s =? 0), (receiver_alive s =? 0).
Qed.

Lemma sent_step m s st :
  chan_inv cap s -> is_closed s = false -> count s < cap ->
  send_step cap m (Some (chan_abs s)) (Some (with_queue (chan_queue s ++ [m]) (chan_abs s))) None 0 st.
Proof.
  intros Hi Hop Hlt. exists (chan_abs s). split; [done|]. left.
  rewrite open_abs, Hop. simpl. rewrite chan_queue_length by done. auto.
Qed.

Lemma received_step m q s st :
  chan_queue s = m :: q ->
  recv_step (Some (chan_abs s)) (Some (with_queue q (chan_abs s))) (Some m) 0 st.
Proof. intros H. exists (chan_abs s). split; [done|]. left. eauto 10. Qed.

(** Releasing the core: the loop over the slots reads inside the array. *)
Lemma wp_release_slots (o : chan_op) s rs c b n w l e k : forall m index,
  RCore ∈ rs -> 0 <= index -> index + Z.of_nat m = Z.of_nat (length (slots s)) ->
  cwp o k (Excl s rs c b) n w l e ->
  cwp o (release_slots m index k) (Excl s rs c b) n w l e.
Proof.
  induction m as [|m IH]; intros index Hrs Hi Hm Hk; [done|]. cbn [release_slots].
  assert (exists x, zget (slots s) index = Some x) as [x Hx].
  { unfold zget. rewrite (proj2 (Z.ltb_ge _ _)) by lia. apply lookup_lt_is_Some. lia. }
  eapply wp_access_excl; [done|by rewrite Hx|]. rewrite Hx.
  destruct x as [m'|]; cbn [mjoin option_join]; [apply wp_emit|]; apply IH; try done; lia.
Qed.

Lemma wp_release (o : chan_op) :
  back chan_code o = 0 -> backw chan_code (chan_spec cap) o = w0 ->
  cwp o (sync_channel_core_release (Ret RUnit)) Out 1 w0 (Some RUnit) None.
Proof.
  intros Hb Hbw. unfold sync_channel_core_release. unfold_native.
  wp_run; try done; try (subst; done).
  apply wp_release_slots; [rsrc_solve|lia| |].
  - match goal with H : inv _ _ |- _ => destruct H as [-> Hr _ _] end.
    pose proof (ro_len _ _ _ _ _ Hr). pose proof (ro_cap _ _ _ _ _ Hr). lia.
  - wp_run; try done.
Qed.

#[local] Hint Resolve try_send_full recv_empty recv_loop_exit sent_step received_step : wpdb.
#[local] Hint Resolve chan_inv_closed chan_inv_receiver chan_no_lost_closed chan_no_lost_empty
  chan_no_lost_receiver chan_no_lost_senders chan_no_lost_broadcast send_refused recv_closed : wpdb.
#[local] Hint Extern 1 (_ <> _) => congruence : wpdb.

Ltac chan_unfold :=
  unfold chan_body, sync_channel_finalize, sync_channel_new, sync_channel_receiver,
    sync_sender_share, sync_sender_try_send, sync_sender_send, sync_sender_close,
    sync_receiver_try_recv, sync_receiver_recv, sync_channel_receive, sync_receiver_close,
    sync_receiver_len, sync_receiver_capacity, sync_channel_test_fail_next_init,
    sync_channel_test_fail_next_operation, sync_channel_wrap,
    broadcast_or_abort, give_back; unfold_native; unfold_native.

Ltac chan_done :=
  repeat match goal with
  | |- forall s, _ -> _ = true -> may_sleep _ _ _ _ _ _ => intros ???
  | |- _ = true -> may_sleep _ _ _ _ _ _ => intros ?
  | |- may_sleep _ _ _ _ (woken _) _ =>
      apply may_sleep_again; [done|eauto using chan_sleep_writable, chan_sleep_readable]
  | |- may_sleep _ _ _ _ cr0 _ =>
      apply may_sleep_first; [done|eauto using chan_sleep_writable, chan_sleep_readable]
  | |- inv _ _ => solve [cbn; auto with wpdb]
  | |- no_lost _ _ _ _ _ => solve [auto with wpdb]
  | |- (_ <> 0 /\ _) \/ _ => left; solve [repeat split; eauto with wpdb]
  | |- (_ <> 0 /\ _) \/ (exists _, _) => right; eexists; split; [reflexivity|]
  | |- (_ <> 0 /\ _) \/ _ \/ _ => right; left; solve [eauto with wpdb]
  | |- (_ <> 0 /\ _) \/ _ => right; solve [eauto with wpdb]
  | |- _ /\ _ => split
  | |- wp _ _ _ (enqueue _ 0) (In ?s _ _) _ _ _ _ =>
      let H := fresh in
      assert (count s < cap) as H;
        [|apply wp_enqueue; [done|done|done|auto|done|done|intros ?; cbn; eauto 6 with wpdb]]
  | |- wp _ _ _ (dequeue 0) _ _ _ _ _ =>
      apply wp_dequeue; [done| |auto|done|done|intros ????; cbn; eauto 6 with wpdb]
  | H : chan_inv _ ?s |- count ?s < cap =>
      first [by apply send_loop_exit | pose proof (chan_inv_count s H); rewrite (ci_capacity _ _ H) in *; lia]
  | H : inv _ _ |- count _ < _ => cbn in H
  | H : inv _ _ |- 0 < count _ => cbn in H; apply chan_inv_count in H; lia
  | |- count _ = Z.of_nat _ => symmetry; by apply chan_queue_length
  | H : inv _ ?s |- capacity ?s = cap => apply H
  | |- _ => solve [done | eauto with wpdb]
  end.

Ltac chan_solve := chan_unfold; wp_run; try wp_commit; chan_done.

Lemma chan_wp_receiver : cwp OpReceiver (chan_body OpReceiver) Out 1 (1, 0) None None.
Proof. chan_solve. Qed.

Lemma chan_wp_share : cwp OpSenderShare (chan_body OpSenderShare) Out 1 (1, 0) None None.
Proof.
  chan_solve. match goal with H : inv _ _ |- _ => rename H into Hi end.
  pose proof (ci_senders _ _ Hi). apply chan_inv_senders; [done|lia..].
Qed.

Lemma chan_wp_try_send m : cwp (OpTrySend m) (chan_body (OpTrySend m)) Out 1 (1, 0) None None.
Proof. chan_solve. Qed.

Lemma chan_wp_send m : cwp (OpSend m) (chan_body (OpSend m)) Out 1 (1, 0) None None.
Proof. chan_solve. Qed.

Lemma chan_wp_sender_close : cwp OpSenderClose (chan_body OpSenderClose) Out 1 (1, 0) None None.
Proof. chan_solve. Qed.

Lemma chan_wp_receiver_close : cwp OpReceiverClose (chan_body OpReceiverClose) Out 1 w0 None None.
Proof. chan_solve. Qed.

Lemma chan_wp_try_recv : cwp OpTryRecv (chan_body OpTryRecv) Out 1 w0 None None.
Proof. chan_solve. Qed.

Lemma chan_wp_recv : cwp OpRecv (chan_body OpRecv) Out 1 w0 None None.
Proof. chan_solve. Qed.

Lemma chan_wp_len : cwp OpLen (chan_body OpLen) Out 1 w0 None None.
Proof. chan_solve. Qed.

Lemma chan_wp_capacity : cwp OpCapacity (chan_body OpCapacity) Out 1 w0 None None.
Proof. chan_solve. Qed.

(** The last steps of a finalizer, once its transition is known. *)
Lemma wp_finish (o : chan_op) a a' w st :
  back chan_code o = 0 -> backw chan_code (chan_spec cap) o = w0 -> w = w0 ->
  chan_atomic cap o a RUnit a' ->
  exists l', commit (chan_spec cap) o a a' None l' /\
    cwp o (if st =? 0 then sync_channel_core_release (Ret RUnit) else Abort) Out 1 w l'
      (note_st None st).
Proof.
  intros Hb Hbw -> Ha. apply (unlock_commit (Σ:=chan_spec cap) _ _ _ _ _ _ _ _ RUnit); [|done].
  unfold note_st. destruct (Z.eqb_spec st 0) as [->|Hst]; [by apply wp_release|].
  apply wp_abort. by left.
Qed.

Lemma chan_inv_drop s :
  chan_inv cap s -> counted (chan_spec cap) (1, 0) s -> senders s - 1 <> 0 ->
  chan_inv cap (set_senders (senders s - 1) s).
Proof. intros Hi [[H _] _] Hs. simpl in H. apply chan_inv_senders; [done|lia|lia]. Qed.

Lemma chan_inv_drop_last s :
  chan_inv cap s -> counted (chan_spec cap) (1, 0) s ->
  chan_inv cap (set_closed 1 (set_senders (senders s - 1) s)).
Proof. intros [? ? ? ?] [[H _] _]. simpl in H. split; simpl; try done; lia. Qed.

#[local] Hint Resolve chan_inv_drop chan_inv_drop_last : wpdb.

Lemma chan_wp_finalize_sender :
  cwp (OpFinalize Sender) (chan_body (OpFinalize Sender)) Out 1 (1,0) None None.
Proof.
  chan_unfold. wp_run; chan_done.
  all: try (intros st; apply wp_finish; [done|done|wt_solve|]; eexists; split; [done|]).
  - unfold chan_abs. simpl in *. replace (senders s) with 1 by lia. simpl. by rewrite orb_true_r.
  - unfold chan_abs. simpl in *. destruct (Z.eqb_spec (senders s) 1); [lia|]. rewrite orb_false_r. done.
Qed.

Lemma chan_wp_finalize_receiver :
  cwp (OpFinalize Receiver) (chan_body (OpFinalize Receiver)) Out 1 w0 None None.
Proof.
  chan_unfold. wp_run; chan_done.
  all: try (intros st; apply wp_finish; [done|done|wt_solve|]; eexists; split; [done|]).
  all: simpl in *; unfold chan_abs.
  - match goal with H : receiver_alive _ = 0 |- _ => rewrite H end. simpl. by rewrite orb_false_r.
  - match goal with H : receiver_alive _ <> 0 |- _ => apply Z.eqb_neq in H as -> end.
    simpl. by rewrite orb_true_r.
Qed.

Lemma chan_wp_new s : cwp (OpNew cap) (chan_body (OpNew cap)) (Excl s [] 0 false) 0 w0 None None.
Proof.
  chan_unfold. unfold sync_array_size_or_abort. wp_run; try wp_commit; chan_done.
  - right. cbn. apply orb_true_iff in Htest as [H|H]; [lia|].
    apply Z.ltb_lt in H. unfold INT32_MAX in *. change (SIZE_MAX / 8) with (2 ^ 61 - 1) in H. lia.
  - apply orb_false_iff in Htest as [H _]. split; simpl; try done. apply ring_empty. lia.
Qed.

Lemma chan_wp_hook o : chan_on_handle o = None -> client chan_code o = true ->
  cwp o (chan_body o) Gone 0 w0 None None.
Proof. destruct o; try done; intros _ _; chan_solve. Qed.

Lemma chan_verified : verified chan_code (chan_spec cap) (OpNew cap).
Proof.
  split; cbn -[wp].
  - by intros [].
  - intros o d _ Hd. destruct o as [| | | | | | | | | | |[]| |]; cbn in Hd; simplify_eq;
      auto using chan_wp_receiver, chan_wp_share, chan_wp_try_send, chan_wp_send,
        chan_wp_sender_close, chan_wp_receiver_close, chan_wp_try_recv, chan_wp_recv,
        chan_wp_len, chan_wp_capacity, chan_wp_finalize_sender, chan_wp_finalize_receiver.
  - intros o ??. by apply chan_wp_hook.
  - done.
  - by intros ? [].
  - apply chan_wp_new.
  - split_and!; [set_solver..|]. intros []; set_solver.
Qed.
End verification.

(** ** Order of messages *)

(** The message an entry of the linearisation puts into the channel, and the
    message it takes out. *)
Definition sent_by (e : entry chan) : list ptr :=
  match en_op e, en_res e with
  | (OpSend m | OpTrySend m), RSend None _ _ => [m]
  | _, _ => []
  end.

Definition received_by (e : entry chan) : list ptr :=
  match en_op e, en_res e with
  | (OpRecv | OpTryRecv), RRecv (Some m) _ _ => [m]
  | _, _ => []
  end.

Definition sent (log : list (entry chan)) : list ptr := log ≫= sent_by.
Definition received (log : list (entry chan)) : list ptr := log ≫= received_by.

Definition queue_of (a : option chan_state) : list ptr :=
  match a with Some s => queue s | None => [] end.

(** A transition appends what it sends and removes what it receives. *)
Lemma chan_atomic_queue cap t o a r a' b :
  chan_atomic cap o a r a' ->
  queue_of a ++ sent_by (Entry t o r b) = received_by (Entry t o r b) ++ queue_of a'.
Proof.
  unfold sent_by, received_by. simpl. intros H.
  destruct o as [| | | | | | | | | | |[]| |], r as [[]| | | | | |]; simpl in H; try done;
    unfold send_step, recv_step in H;
    repeat match goal with
      | H : _ /\ _ |- _ => destruct H
      | H : exists _, _ |- _ => destruct H
      | H : _ \/ _ |- _ => destruct H
      end; simplify_eq; simpl; rewrite ?app_nil_r; try done; try congruence.
  all: try match goal with H : queue _ = _ |- _ => by rewrite H end.
Qed.

Lemma chan_fifo_log cap tr log a P :
  aexec (chan_spec cap) (OpNew cap) tr log a P -> sent log = received log ++ queue_of a.
Proof.
  induction 1 as [|tr log a P t o H IH HP|tr log a a' P t o r H IH HP Ha|
                  tr log a a' P t o l r H IH HP []|tr log a P t o r H IH HP]; try done.
  unfold sent, received in *. rewrite !bind_app. simpl. rewrite !app_nil_r, IH, <- !app_assoc.
  f_equal. exact (chan_atomic_queue cap t o a r a' true Ha).
Qed.

(** ** Properties *)

Section properties.
Context (cap : Z) (Hcap : cap <= INT32_MAX) (h : chan_hooks).

Abbreviation V := (chan_verified cap Hcap).

(** No schedule of calls on a channel, whatever the operating system
    answers, reaches undefined behaviour: no data race on the fields, no slot
    index out of bounds, no signed overflow of an index or counter, no use of
    the core, its slots or OS objects after release, no double free. *)
Lemma channel_safe xs : run chan_code xs (start chan_code (OpNew cap) h, []) <> Fault.
Proof. apply (verified_safe V). Qed.

(** C2: the channel is linearisable with respect to the bounded queue
    [chan_atomic]: a send appends to an open channel with room and is given
    back otherwise, a receive takes the oldest message, reports empty or
    closed-and-drained, [len] is the queue's length, the last sender's or the
    receiver's finalizer closes the channel; and whenever the mutex is free
    the atomic state is read off the circular buffer. *)
Theorem channel_linearizable c tr :
  reachable chan_code (OpNew cap) h c tr ->
  exists log a P, aexec (chan_spec cap) (OpNew cap) (filter (fun l => visible l = true) tr) log a P /\
    (free c -> a = Some (chan_abs (core c))).
Proof. apply (verified_atomic V). Qed.

(** C1: messages come out in the order they went in, none lost, none twice:
    the messages received so far are a prefix of the messages sent, and when
    the mutex is free the rest is the content of the buffer, at most
    [capacity] messages. *)
Theorem channel_fifo c tr :
  reachable chan_code (OpNew cap) h c tr ->
  exists log a P, aexec (chan_spec cap) (OpNew cap) (filter (fun l => visible l = true) tr) log a P /\
    received log `prefix_of` sent log /\
    (free c -> sent log = received log ++ chan_queue (core c) /\
               Z.of_nat (length (chan_queue (core c))) <= cap).
Proof.
  intros H. destruct (verified_atomic V h c tr H) as (log & a & P & Ha & Hf).
  exists log, a, P. pose proof (chan_fifo_log _ _ _ _ _ Ha) as Hq. split; [done|].
  split; [by eexists|]. intros Hc. rewrite (Hf Hc) in Hq. split; [done|].
  pose proof (verified_inv V h c tr H Hc) as Hi.
  rewrite (chan_queue_length cap) by done. by apply (chan_inv_count cap).
Qed.

(** C29: the circular buffer is well formed whenever the mutex is free: indices
    and count in range, exactly the queued slots occupied (so the release loop
    drops each pending message once and no other), the number of senders not
    negative, and a channel without senders closed. *)
Theorem channel_invariant c tr :
  reachable chan_code (OpNew cap) h c tr -> free c ->
  ring_ok (slots (core c)) cap (head (core c)) (tail (core c)) (count (core c)) /\
  capacity (core c) = cap /\ 0 <= senders (core c) /\
  (senders (core c) = 0 -> closed (core c) <> 0).
Proof. intros H Hf. by destruct (verified_inv V h c tr H Hf). Qed.

(** No wake-up is lost: while no OS call has failed and nobody holds the
    mutex, a receiver sleeps only on an open channel all of whose messages have
    a woken receiver on its way, and a sender sleeps only on an open channel
    all of whose free slots have a woken sender on its way. *)
Lemma channel_no_lost_wakeup c tr t o q k :
  reachable chan_code (OpNew cap) h c tr -> clean tr = true -> (forall t, holder c <> Held t) ->
  threads c !! t = Some (o, Sleep q k) ->
  closed (core c) = 0 /\
  match q with
  | Readable => count (core c) <= nwake Readable (threads c)
  | Writable => receiver_alive (core c) <> 0 /\
                cap - count (core c) <= nwake Writable (threads c)
  end.
Proof.
  intros H1 H2 H3 H4. destruct (verified_wakeups V h c tr t o q k H1 H2 H3 H4) as (z & Hz & Hle).
  destruct q; cbn in Hz; unfold is_closed in Hz;
    destruct (Z.eqb_spec (closed (core c)) 0); simplify_eq/=; [done|].
  destruct (Z.eqb_spec (receiver_alive (core c)) 0); simplify_eq. done.
Qed.

(** Everything a channel owns is there while a handle is left, and is
    released once no handle and no operation is. *)
Lemma channel_release c tr :
  reachable chan_code (OpNew cap) h c tr ->
  (idle c <> [] -> alive c = [RCond Writable; RCond Readable; RMutex; RBuf; RCore]) /\
  (idle c = [] -> threads c = ∅ -> alive c = []).
Proof.
  intros H. split; intros H1.
  - by apply (verified_alive V h c tr H).
  - intros H2. by apply (verified_released V h c tr H).
Qed.

(** An operation that returns after an OS call failed reports its first
    failing status, and [abort] is called only after a failure or for a
    capacity that is not positive. *)
Lemma channel_errors c tr :
  reachable chan_code (OpNew cap) h c tr ->
  (forall tr1 t o r tr2, tr = tr1 ++ LRes t o r :: tr2 ->
     reported (error_of r) (first_failure tr1 t)) /\
  (forall t o, threads c !! t = Some (o, Run Abort) ->
     first_failure tr t <> None \/ (exists n, o = OpNew n) /\ cap <= 0).
Proof.
  intros H. split.
  - intros tr1 t o r tr2 Ht. apply (verified_errors V h c tr tr1 t o r tr2 H Ht).
  - intros t o Ht. destruct (verified_abort V h c tr t o H Ht) as [?|Hab]; [by left|right].
    destruct o; try done. eauto.
Qed.

(** Critical sections end: the thread that holds the mutex can run on its
    own until it has released it (or aborts, or the reference count is at its
    bound). *)
Lemma channel_releases_mutex c tr t :
  reachable chan_code (OpNew cap) h c tr -> holder c = Held t ->
  exists vs c' tr', run chan_code (map (CStep t 0) vs) (c, tr) = Go (c', tr') /\ ends_section t c'.
Proof. apply (verified_releases V). by intros ? []. Qed.
(** C20: progress: while no OS call has failed and nobody holds the mutex, a
    receiver sleeps only on an open channel all of whose messages have a woken
    receiver on its way, and a sender sleeps only on an open channel all of whose
    free slots have a woken sender on its way; and the thread that holds the mutex
    can run on its own until it has released it (or aborts, or the reference count
    is at its bound). *)
Theorem channel_progress c tr :
  reachable chan_code (OpNew cap) h c tr ->
  (clean tr = true -> (forall t, holder c <> Held t) ->
   forall t o q k, threads c !! t = Some (o, Sleep q k) ->
   closed (core c) = 0 /\
   match q with
   | Readable => count (core c) <= nwake Readable (threads c)
   | Writable => receiver_alive (core c) <> 0 /\
                 cap - count (core c) <= nwake Writable (threads c)
   end) /\
  (forall t, holder c = Held t ->
   exists vs c' tr', run chan_code (map (CStep t 0) vs) (c, tr) = Go (c', tr') /\ ends_section t c').
Proof.
  intros H. split.
  - intros H1 H2 t o q k. by apply channel_no_lost_wakeup with tr.
  - intros t. by apply channel_releases_mutex.
Qed.
End properties.

(** ** Witnesses *)

Definition chan_h0 : chan_hooks := ChanHooks 0 0.
Definition call (t : nat) (o : chan_op) : choice chan := CInvoke (S:=chan) t o.

Lemma one_ok : 1 <= INT32_MAX.
Proof. done. Qed.

(** A channel for one message with a receiver and two senders: 5 is sent, 6
    has to wait. *)
Definition chan_full : list (choice chan) :=
  steps 0 12 ++ [call 1 OpReceiver] ++ steps 1 6 ++ [call 1 OpSenderShare] ++ steps 1 6 ++
  [call 1 (OpSend 5)] ++ steps 1 9 ++ [call 2 (OpSend 6)] ++ steps 2 2.

(** The receiver takes 5 and wakes the waiting sender. *)
Definition chan_taken : list (choice chan) :=
  chan_full ++ [call 3 OpRecv] ++ steps 3 7 ++ [CStep (S:=chan) 3%nat 0 2%nat] ++ steps 3 2.

(** The only handle goes away. *)
Definition chan_gone : list (choice chan) := steps 0 12 ++ [call 1 (OpFinalize Sender)] ++ steps 1 16.

(** [send] cannot lock the mutex. *)
Definition chan_failing : list (choice chan) :=
  steps 0 12 ++ [call 1 (OpSend 5)] ++ [CStep (S:=chan) 1%nat 22 0%nat] ++ steps 1 1.

(** Thread 1 is inside [send]. *)
Definition chan_locked : list (choice chan) := steps 0 12 ++ [call 1 (OpSend 5)] ++ steps 1 1.

Abbreviation chan_after := (after chan_code (OpNew 1) chan_h0).

Lemma channel_linearizable_witness :
  exists c : config chan, free c /\ chan_queue (core c) = [5] /\
    exists tr log a P,
      aexec (chan_spec 1) (OpNew 1) (filter (fun l => visible l = true) tr) log a P /\
      (free c -> a = Some (chan_abs (core c))).
Proof.
  exists (chan_after chan_full).1.
  split; [vm_compute; split; [reflexivity|discriminate]|]. split; [vm_compute; reflexivity|].
  exists (chan_after chan_full).2. apply (channel_linearizable 1 one_ok chan_h0). scenario.
Defined.

Lemma channel_fifo_witness :
  exists c : config chan, free c /\ chan_queue (core c) = [5] /\
    exists tr log a P,
      aexec (chan_spec 1) (OpNew 1) (filter (fun l => visible l = true) tr) log a P /\
      received log `prefix_of` sent log /\
      (free c -> sent log = received log ++ chan_queue (core c) /\
                 Z.of_nat (length (chan_queue (core c))) <= 1).
Proof.
  exists (chan_after chan_full).1.
  split; [vm_compute; split; [reflexivity|discriminate]|]. split; [vm_compute; reflexivity|].
  exists (chan_after chan_full).2. apply (channel_fifo 1 one_ok chan_h0). scenario.
Defined.

Lemma channel_invariant_witness :
  exists c : config chan, free c /\
    ring_ok (slots (core c)) 1 (head (core c)) (tail (core c)) (count (core c)) /\
    capacity (core c) = 1 /\ 0 <= senders (core c) /\ (senders (core c) = 0 -> closed (core c) <> 0).
Proof.
  assert (free (chan_after chan_full).1) as Hf by (vm_compute; split; [reflexivity|discriminate]).
  exists (chan_after chan_full).1. split; [exact Hf|].
  apply (channel_invariant 1 one_ok chan_h0 _ (chan_after chan_full).2); [scenario|exact Hf].
Defined.

Lemma channel_progress_witness :
  exists c : config chan, (exists o k, threads c !! 2%nat = Some (o, Sleep Writable k)) /\
    (closed (core c) = 0 /\ receiver_alive (core c) <> 0 /\
     1 - count (core c) <= nwake Writable (threads c)) /\
    exists c' tr, holder c' = Held 1%nat /\
      exists vs c'' tr', run chan_code (map (CStep 1%nat 0) vs) (c', tr) = Go (c'', tr') /\
        ends_section 1%nat c''.
Proof.
  assert (sleeps_at (chan_after chan_full).1 2%nat (Writable : sC chan) = true) as Hs
    by (vm_compute; reflexivity).
  apply sleeps_at_spec in Hs as (o & k & Hs).
  exists (chan_after chan_full).1. split; [by exists o, k|]. split.
  - apply (proj1 (channel_progress 1 one_ok chan_h0 _ (chan_after chan_full).2 ltac:(scenario)))
      with (t := 2%nat) (o := o) (q := Writable) (k := k).
    + vm_compute. reflexivity.
    + vm_compute. discriminate.
    + exact Hs.
  - exists (chan_after chan_locked).1, (chan_after chan_locked).2.
    split; [vm_compute; reflexivity|].
    apply (channel_progress 1 one_ok chan_h0); [scenario|vm_compute; reflexivity].
Defined.
