(* ===== verification/OwnedBytes.v ===== *)
(** OwnedBytes: src/channel/native.c, the bounded channel of byte strings.

    A message is copied into storage of its own by the sender, outside the
    critical section, and copied out by the receiver.  Here a message is the
    list of its bytes; that every copy is freed exactly once is the subject of
    [OwnedBytesRefs]. *)
From stdpp Require Import base gmap list.
From Stdlib Require Import ZArith Lia.
From S2P Require Import Prelude Ring Machine Logic Soundness Verified Native.

Local Open Scope prog_scope.

(** ** State *)

(** The bytes of a message; its [length] field is the length of the list. *)
Definition bytes : Type := list Z.
Definition len (m : bytes) : Z := Z.of_nat (length m).

(** The plain fields of [sync_owned_bytes_channel_core_t]. *)
Record own_core := OwnCore {
  slots : list (option bytes);
  capacity : Z;
  max_message_bytes : Z;
  max_queued_bytes : Z;
  queued_bytes : Z;
  head : Z;
  tail : Z;
  count : Z;
  senders : Z;
  receiver_alive : Z;
  closed : Z;
}.

Section fields.
Implicit Types s : own_core.
Definition set_slots x s :=
  OwnCore x (capacity s) (max_message_bytes s) (max_queued_bytes s) (queued_bytes s)
    (head s) (tail s) (count s) (senders s) (receiver_alive s) (closed s).
Definition set_limits cap mm mq s :=
  OwnCore (slots s) cap mm mq (queued_bytes s)
    (head s) (tail s) (count s) (senders s) (receiver_alive s) (closed s).
Definition set_queued_bytes x s :=
  OwnCore (slots s) (capacity s) (max_message_bytes s) (max_queued_bytes s) x
    (head s) (tail s) (count s) (senders s) (receiver_alive s) (closed s).
Definition set_head x s :=
  OwnCore (slots s) (capacity s) (max_message_bytes s) (max_queued_bytes s) (queued_bytes s)
    x (tail s) (count s) (senders s) (receiver_alive s) (closed s).
Definition set_tail x s :=
  OwnCore (slots s) (capacity s) (max_message_bytes s) (max_queued_bytes s) (queued_bytes s)
    (head s) x (count s) (senders s) (receiver_alive s) (closed s).
Definition set_count x s :=
  OwnCore (slots s) (capacity s) (max_message_bytes s) (max_queued_bytes s) (queued_bytes s)
    (head s) (tail s) x (senders s) (receiver_alive s) (closed s).
Definition set_senders x s :=
  OwnCore (slots s) (capacity s) (max_message_bytes s) (max_queued_bytes s) (queued_bytes s)
    (head s) (tail s) (count s) x (receiver_alive s) (closed s).
Definition set_receiver_alive x s :=
  OwnCore (slots s) (capacity s) (max_message_bytes s) (max_queued_bytes s) (queued_bytes s)
    (head s) (tail s) (count s) (senders s) x (closed s).
Definition set_closed x s :=
  OwnCore (slots s) (capacity s) (max_message_bytes s) (max_queued_bytes s) (queued_bytes s)
    (head s) (tail s) (count s) (senders s) (receiver_alive s) x.
End fields.

Record own_hooks := OwnHooks { next_init_error : Z; next_operation_error : Z }.

Definition hook_init : hook own_hooks :=
  MkHook next_init_error (fun z h => OwnHooks z (next_operation_error h)).
Definition hook_operation : hook own_hooks :=
  MkHook next_operation_error (fun z h => OwnHooks (next_init_error h) z).

Inductive own_cond := Readable | Writable.
#[export] Instance own_cond_dec : EqDecision own_cond.
Proof. solve_decision. Defined.

(** The [role] of a handle: 1 is a sender, 2 the receiver. *)
Inductive role := Sender | Receiver.
#[export] Instance role_dec : EqDecision role.
Proof. solve_decision. Defined.

(** A copy is made, a copy is freed. *)
Inductive own_event := MessageCopy (m : bytes) | MessageRelease (m : bytes).

Inductive own_op :=
| OpNew (capacity max_message_bytes max_queued_bytes : Z)
| OpReceiver
| OpSenderShare
| OpTrySend (message : bytes)
| OpSend (message : bytes)
| OpSenderClose
| OpTryRecv
| OpRecv
| OpReceiverClose
| OpLen
| OpCapacity
| OpFinalize (r : role)
| OpTestFailNextInit (status : Z)
| OpTestFailNextOperation (status : Z).

Inductive own_res :=
| RHandle (ok : bool) (status : Z)
| RSubmit (result error : Z)
| RRecv (message : option bytes) (status error : Z)
| RInt (v error : Z)
| RVoid (error : Z)
| RCapacity (v : Z)
| RUnit.

Definition error_of (r : own_res) : option Z :=
  match r with
  | RHandle _ e | RSubmit _ e | RRecv _ _ e | RInt _ e | RVoid e => Some e
  | RCapacity _ | RUnit => None
  end.

Canonical Structure own : sig :=
  Sig own_core Z own_hooks own_cond role own_event own_op own_res Empty_set _ _.

(** ** Operations *)

Definition sync_owned_bytes_message_release (message : option bytes) (k : prog own) : prog own :=
  match message with
  | None => k
  | Some m => Emit (MessageRelease m) k
  end.

(** [sync_alloc] of storage that is not part of the core: the environment
    answers 0 for a block, and anything else for NULL, upon which it aborts. *)
Definition alloc_message (k : prog own) : prog own :=
  st <- OsCall;;
  abort_if_failed st;;
  k.

(** The copy has the bytes of the original; an empty one has no [data]. *)
Definition sync_owned_bytes_message_copy (m : bytes) (k : bytes -> prog own) : prog own :=
  alloc_message;;
  let copied := Emit (MessageCopy m) (k m) in
  if 0 <? len m then alloc_message copied else copied.

Definition sync_owned_bytes_has_byte_capacity (core : own_core) (message_length : Z) : bool :=
  message_length <=? max_queued_bytes core - queued_bytes core.

Definition sync_owned_bytes_into_moonbit (message : option bytes) (k : option bytes -> prog own)
    : prog own :=
  sync_owned_bytes_message_release message (k message).

(** The loop of [sync_owned_bytes_core_release] from slot [index] on, [n]
    slots being left. *)
Fixpoint release_slots (n : nat) (index : Z) (k : prog own) : prog own :=
  match n with
  | O => k
  | S n =>
      core <- Access (fun core => _ ← zget (slots core) index; Some core);;
      sync_owned_bytes_message_release (mjoin (zget (slots core) index));;
      release_slots n (index + 1) k
  end.

Definition sync_owned_bytes_core_release (k : prog own) : prog own :=
  refs <- sync_arc_dec;;
  if negb (refs =? 0) then k else
  core <- Read;;
  release_slots (Z.to_nat (capacity core)) 0;;
  Free RBuf;;
  st <- sync_os_cond_destroy Writable;;
  abort_if_failed st;;
  st <- sync_os_cond_destroy Readable;;
  abort_if_failed st;;
  st <- sync_os_mutex_destroy;;
  abort_if_failed st;;
  Free RCore;;
  k.

Definition broadcast_or_abort (q : own_cond) (k : prog own) : prog own :=
  st <- sync_os_cond_broadcast q;;
  abort_if_failed st;;
  k.

Definition sync_owned_bytes_finalize (r : role) : prog own :=
  lock_or_abort;;
  let finish :=
    unlock_or_abort;;
    sync_owned_bytes_core_release;;
    Ret RUnit in
  match r with
  | Sender =>
      Write (fun core => n ← i32 (senders core - 1); Some (set_senders n core));;
      core <- Read;;
      if senders core =? 0 then
        Write (fun core => Some (set_closed 1 core));;
        broadcast_or_abort Readable;;
        broadcast_or_abort Writable;;
        finish
      else finish
  | Receiver =>
      core <- Read;;
      if negb (receiver_alive core =? 0) then
        Write (fun core => Some (set_receiver_alive 0 core));;
        Write (fun core => Some (set_closed 1 core));;
        broadcast_or_abort Readable;;
        broadcast_or_abort Writable;;
        finish
      else finish
  end.

Definition sync_owned_bytes_wrap (r : role) (k : prog own) : prog own := Wrap r k.

Definition sync_owned_bytes_channel_new (cap mm mq : Z) : prog own :=
  sync_alloc RCore;;
  RefStore 1;;
  Write (fun core => Some (set_limits cap mm mq core));;
  Write (fun core => Some (set_senders 1 core));;
  sync_array_size_or_abort cap 8 (fun _ =>
  sync_alloc RBuf;;
  Write (fun core => Some (set_slots (replicate (Z.to_nat cap) None) core));;
  let fail_with status :=
    Free RBuf;;
    Free RCore;;
    Ret (RHandle false status) in
  status <- sync_test_atomic_take hook_init;;
  if negb (status =? 0) then fail_with status else
  status <- sync_os_mutex_init;;
  if negb (status =? 0) then fail_with status else
  status <- sync_os_cond_init Readable;;
  if negb (status =? 0) then
    st <- sync_os_mutex_destroy;;
    abort_if_failed st;;
    fail_with status
  else
  status <- sync_os_cond_init Writable;;
  if negb (status =? 0) then
    st <- sync_os_cond_destroy Readable;;
    abort_if_failed st;;
    st <- sync_os_mutex_destroy;;
    abort_if_failed st;;
    fail_with status
  else
  sync_owned_bytes_wrap Sender;;
  Ret (RHandle true status)).

Definition sync_owned_bytes_channel_receiver : prog own :=
  status <- sync_os_mutex_lock;;
  if negb (status =? 0) then Ret (RHandle false status) else
  Write (fun core => Some (set_receiver_alive 1 core));;
  sync_arc_inc;;
  st <- sync_os_mutex_unlock;;
  sync_owned_bytes_wrap Receiver;;
  Ret (RHandle true (record_error status st)).

Definition sync_owned_bytes_sender_share : prog own :=
  status <- sync_os_mutex_lock;;
  if negb (status =? 0) then Ret (RHandle false status) else
  Write (fun core => n ← i32 (senders core + 1); Some (set_senders n core));;
  sync_arc_inc;;
  st <- sync_os_mutex_unlock;;
  sync_owned_bytes_wrap Sender;;
  Ret (RHandle true (record_error status st)).

Definition is_closed (core : own_core) : bool :=
  negb (closed core =? 0) || (receiver_alive core =? 0).

Definition enqueue (m : bytes) (error : Z) : prog own :=
  Write (fun core => xs ← zset (slots core) (tail core) (Some m); Some (set_slots xs core));;
  Write (fun core => i ← ring_next (capacity core) (tail core); Some (set_tail i core));;
  Write (fun core => n ← i32 (count core + 1); Some (set_count n core));;
  Write (fun core => n ← i32 (queued_bytes core + len m); Some (set_queued_bytes n core));;
  st <- sync_os_cond_signal Readable;;
  let error := record_error error st in
  st <- sync_os_mutex_unlock;;
  Ret (RSubmit 0 (record_error error st)).

(** Release the mutex and the copy, and return. *)
Definition reject (message : option bytes) (result error : Z) : prog own :=
  st <- sync_os_mutex_unlock;;
  let error := record_error error st in
  sync_owned_bytes_message_release message;;
  Ret (RSubmit result error).

(** One pass of the loop of [sync_owned_bytes_submit] over the byte string
    [m]; [message] is the copy, [None] before it has been made; [again] is the
    next pass, entered with the copy made. *)
Definition submit_pass (m : bytes) (blocking : bool) (message : option bytes)
    (again : bytes -> prog own) : prog own :=
  let message_length := len m in
  error <- sync_os_mutex_lock;;
  if negb (error =? 0) then
    sync_owned_bytes_message_release message;;
    Ret (RSubmit 2 error)
  else
  core <- Read;;
  if max_message_bytes core <? message_length then reject message 3 error else
  WaitWhile
    (fun core => blocking && (closed core =? 0) && negb (receiver_alive core =? 0) &&
                 ((count core =? capacity core) ||
                  negb (sync_owned_bytes_has_byte_capacity core message_length)))
    Writable
    (fun wait_status => reject message 2 (record_error error wait_status))
    (core <- Read;;
     if is_closed core then reject message 2 error else
     if count core =? capacity core then reject message 1 error else
     if negb (sync_owned_bytes_has_byte_capacity core message_length) then reject message 4 error else
     match message with
     | None =>
         st <- sync_os_mutex_unlock;;
         let error := record_error error st in
         if negb (error =? 0) then Ret (RSubmit 2 error) else
         sync_owned_bytes_message_copy m again
     | Some copy => enqueue copy error
     end).

(** The loop makes at most two passes: the second one has a copy and does not
    continue. *)
Definition sync_owned_bytes_submit (m : bytes) (blocking : bool) : prog own :=
  error <- sync_test_atomic_take hook_operation;;
  if negb (error =? 0) then Ret (RSubmit 2 error) else
  submit_pass m blocking None (fun copy => submit_pass m blocking (Some copy) (fun _ => Abort)).

Definition sync_owned_bytes_sender_try_send (m : bytes) : prog own := sync_owned_bytes_submit m false.
Definition sync_owned_bytes_sender_send (m : bytes) : prog own := sync_owned_bytes_submit m true.

Definition sync_owned_bytes_sender_close : prog own :=
  error <- sync_os_mutex_lock;;
  if negb (error =? 0) then Ret (RVoid error) else
  Write (fun core => Some (set_closed 1 core));;
  st <- sync_os_cond_broadcast Readable;;
  let error := record_error error st in
  st <- sync_os_cond_broadcast Writable;;
  let error := record_error error st in
  st <- sync_os_mutex_unlock;;
  Ret (RVoid (record_error error st)).

(** Take the message in the slot at [head]: the last part of
    [sync_owned_bytes_receive]. *)
Definition dequeue (error : Z) : prog own :=
  core <- Access (fun core => _ ← zget (slots core) (head core); Some core);;
  let message := mjoin (zget (slots core) (head core)) in
  Write (fun core => xs ← zset (slots core) (head core) None; Some (set_slots xs core));;
  Write (fun core => i ← ring_next (capacity core) (head core); Some (set_head i core));;
  Write (fun core => n ← i32 (count core - 1); Some (set_count n core));;
  Write (fun core =>
    m ← message; n ← i32 (queued_bytes core - len m); Some (set_queued_bytes n core));;
  st <- sync_os_cond_signal Writable;;
  let error := record_error error st in
  st <- sync_os_mutex_unlock;;
  let error := record_error error st in
  sync_owned_bytes_into_moonbit message (fun m =>
  Ret (RRecv m 0 error)).

Definition sync_owned_bytes_receive (blocking : bool) : prog own :=
  error <- sync_os_mutex_lock;;
  if negb (error =? 0) then Ret (RRecv None 2 error) else
  WaitWhile (fun core => blocking && (count core =? 0) && (closed core =? 0)) Readable
    (fun wait_status =>
       let error := record_error error wait_status in
       st <- sync_os_mutex_unlock;;
       Ret (RRecv None 2 (record_error error st)))
    (core <- Read;;
     if count core =? 0 then
       let status := if negb (closed core =? 0) then 2 else 1 in
       st <- sync_os_mutex_unlock;;
       Ret (RRecv None status (record_error error st))
     else dequeue error).

Definition sync_owned_bytes_receiver_try_recv : prog own := sync_owned_bytes_receive false.
Definition sync_owned_bytes_receiver_recv : prog own := sync_owned_bytes_receive true.

Definition sync_owned_bytes_receiver_close : prog own :=
  error <- sync_os_mutex_lock;;
  if negb (error =? 0) then Ret (RVoid error) else
  Write (fun core => Some (set_closed 1 core));;
  Write (fun core => Some (set_receiver_alive 0 core));;
  st <- sync_os_cond_broadcast Readable;;
  let error := record_error error st in
  st <- sync_os_cond_broadcast Writable;;
  let error := record_error error st in
  st <- sync_os_mutex_unlock;;
  Ret (RVoid (record_error error st)).

Definition sync_owned_bytes_receiver_len : prog own :=
  error <- sync_os_mutex_lock;;
  if negb (error =? 0) then Ret (RInt 0 error) else
  core <- Read;;
  st <- sync_os_mutex_unlock;;
  Ret (RInt (count core) (record_error error st)).

(** [capacity] never changes once the channel exists and is read without the
    mutex. *)
Definition sync_owned_bytes_receiver_capacity : prog own :=
  cap <- ReadImm;;
  Ret (RCapacity cap).

Definition sync_owned_bytes_channel_test_fail_next_init (status : Z) : prog own :=
  sync_test_atomic_store hook_init status;; Ret RUnit.
Definition sync_owned_bytes_channel_test_fail_next_operation (status : Z) : prog own :=
  sync_test_atomic_store hook_operation status;; Ret RUnit.

Definition own_body (o : own_op) : prog own :=
  match o with
  | OpNew cap mm mq => sync_owned_bytes_channel_new cap mm mq
  | OpReceiver => sync_owned_bytes_channel_receiver
  | OpSenderShare => sync_owned_bytes_sender_share
  | OpTrySend m => sync_owned_bytes_sender_try_send m
  | OpSend m => sync_owned_bytes_sender_send m
  | OpSenderClose => sync_owned_bytes_sender_close
  | OpTryRecv => sync_owned_bytes_receiver_try_recv
  | OpRecv => sync_owned_bytes_receiver_recv
  | OpReceiverClose => sync_owned_bytes_receiver_close
  | OpLen => sync_owned_bytes_receiver_len
  | OpCapacity => sync_owned_bytes_receiver_capacity
  | OpFinalize r => sync_owned_bytes_finalize r
  | OpTestFailNextInit st => sync_owned_bytes_channel_test_fail_next_init st
  | OpTestFailNextOperation st => sync_owned_bytes_channel_test_fail_next_operation st
  end.

Definition own_on_handle (o : own_op) : option role :=
  match o with
  | OpReceiver | OpSenderShare | OpTrySend _ | OpSend _ | OpSenderClose => Some Sender
  | OpTryRecv | OpRecv | OpReceiverClose | OpLen | OpCapacity => Some Receiver
  | OpFinalize r => Some r
  | _ => None
  end.

(** The length of a MoonBit byte string is an [int32_t]. *)
Definition own_code : code own :=
  Code own
    (* body *) own_body
    (* block *) (fun l => match l with end)
    (* zeroed *) (OwnCore [] 0 0 0 0 0 0 0 0 0 0)
    (* imm *) capacity
    (* on_handle *) own_on_handle
    (* consumes *) (fun o => match o with OpFinalize _ => true | _ => false end)
    (* client *) (fun o => match o with
                           | OpNew _ _ _ => false
                           | OpTrySend m | OpSend m => len m <=? INT32_MAX
                           | _ => true
                           end).

(** ** Specification *)

(** The atomic channel: a queue of byte strings, whether it is open at either
    end, and the number of senders. *)
Record own_state := OwnState {
  queue : list bytes;
  shut : bool;
  receiving : bool;
  producers : Z;
}.

Definition with_queue q a := OwnState q (shut a) (receiving a) (producers a).
Definition open (a : own_state) : bool := negb (shut a) && receiving a.

(** The total size of a queue. *)
Definition size (q : list bytes) : Z := lsum len q.

(** The limits of a channel, as the MoonBit constructor checks them. *)
Record limits := Limits { max_count : Z; max_message : Z; max_queued : Z }.

Definition limits_ok (L : limits) : Prop :=
  max_count L <= INT32_MAX /\ max_message L <= INT32_MAX /\ 0 <= max_queued L <= INT32_MAX.

Section spec.
Context (L : limits).

(** A submission of [m] to a channel in state [a], by the return code: 0 it is
  queued, 1 no slot is free, 2 closed (or an error), 3 longer than the message
  limit, 4 beyond the limit on queued bytes. *)
Definition submit_step (m : bytes) (blocking : bool) (a a' : option own_state) (result error : Z)
  : Prop :=
(result = 0 /\ exists s, a = Some s /\ open s = true /\
   Z.of_nat (length (queue s)) < max_count L /\ len m <= max_message L /\
   size (queue s) + len m <= max_queued L /\ a' = Some (with_queue (queue s ++ [m]) s)) \/
(result = 1 /\ blocking = false /\ a' = a /\ exists s, a = Some s /\ open s = true /\
   Z.of_nat (length (queue s)) = max_count L) \/
(result = 2 /\ a' = a /\ (error <> 0 \/ exists s, a = Some s /\ open s = false)) \/
(result = 3 /\ a' = a /\ max_message L < len m) \/
(result = 4 /\ blocking = false /\ a' = a /\ exists s, a = Some s /\ open s = true /\
   max_queued L < size (queue s) + len m).

Definition recv_step (a a' : option own_state) (msg : option bytes) (status error : Z) : Prop :=
exists s, a = Some s /\
  ((exists m q, msg = Some m /\ status = 0 /\ queue s = m :: q /\ a' = Some (with_queue q s)) \/
   (msg = None /\ status = 2 /\ queue s = [] /\ shut s = true /\ a' = a)).

Definition own_atomic (o : own_op) (a : option own_state) (r : own_res)
  (a' : option own_state) : Prop :=
match o, r with
| OpNew _ _ _, RHandle true st => st = 0 /\ a = None /\ a' = Some (OwnState [] false false 1)
| OpNew _ _ _, RHandle false st => st <> 0 /\ a' = a
| OpReceiver, RHandle true _ =>
    exists s, a = Some s /\ a' = Some (OwnState (queue s) (shut s) true (producers s))
| OpSenderShare, RHandle true _ =>
    exists s, a = Some s /\
              a' = Some (OwnState (queue s) (shut s) (receiving s) (producers s + 1))
| (OpReceiver | OpSenderShare), RHandle false st => st <> 0 /\ a' = a
| OpTrySend m, RSubmit result error => submit_step m false a a' result error
| OpSend m, RSubmit result error => submit_step m true a a' result error
| OpTryRecv, RRecv msg status error =>
    (error <> 0 /\ msg = None /\ status = 2 /\ a' = a) \/
    recv_step a a' msg status error \/
    (exists s, a = Some s /\ queue s = [] /\ shut s = false /\
               msg = None /\ status = 1 /\ a' = a)
| OpRecv, RRecv msg status error =>
    (error <> 0 /\ msg = None /\ status = 2 /\ a' = a) \/
    recv_step a a' msg status error
| OpSenderClose, RVoid error =>
    (error <> 0 /\ a' = a) \/
    (exists s, a = Some s /\ a' = Some (OwnState (queue s) true (receiving s) (producers s)))
| OpReceiverClose, RVoid error =>
    (error <> 0 /\ a' = a) \/
    (exists s, a = Some s /\ a' = Some (OwnState (queue s) true false (producers s)))
| OpLen, RInt v error =>
    (error <> 0 /\ v = 0 /\ a' = a) \/
    (exists s, a = Some s /\ v = Z.of_nat (length (queue s)) /\ a' = a)
| OpCapacity, RCapacity v => v = max_count L /\ a' = a
| OpFinalize Sender, RUnit =>
    exists s, a = Some s /\
      a' = Some (OwnState (queue s) (shut s || (producers s =? 1)) (receiving s)
                   (producers s - 1))
| OpFinalize Receiver, RUnit =>
    exists s, a = Some s /\
      a' = Some (OwnState (queue s) (shut s || receiving s) false (producers s))
| (OpTestFailNextInit _ | OpTestFailNextOperation _), RUnit => a' = a
| _, _ => False
end.

Definition own_queue (s : own_core) : list bytes :=
contents (slots s) (capacity s) (head s) (count s).

Definition own_abs (s : own_core) : own_state :=
OwnState (own_queue s) (negb (closed s =? 0)) (negb (receiver_alive s =? 0)) (senders s).

(** The lock invariant. *)
Record own_inv (s : own_core) : Prop := OwnInv {
oi_capacity : capacity s = max_count L;
oi_message : max_message_bytes s = max_message L;
oi_queued : max_queued_bytes s = max_queued L;
oi_ring : ring_ok (slots s) (max_count L) (head s) (tail s) (count s);
oi_bytes : queued_bytes s = size (own_queue s);
oi_limit : size (own_queue s) <= max_queued L;
oi_each : Forall (fun m => len m <= max_message L) (own_queue s);
oi_senders : 0 <= senders s;
oi_last : senders s = 0 -> closed s <> 0;
}.

(** A receiver has work while the queue is not empty.  Senders wait for
  different amounts of room, so nothing is claimed of them beyond that closing
  the channel wakes them all. *)
Definition own_slack (q : own_cond) (s : own_core) : option Z :=
match q with
| Readable => if closed s =? 0 then Some (count s) else None
| Writable => if is_closed s then None else Some 0
end.

Definition own_spec : spec own :=
Spec own
  (* abst *) own_state
  (* inv *) own_inv
  (* abs *) own_abs
  (* cnt *) (fun s => (senders s, 0))
  (* kw *) (fun r => match r with Sender => (1, 0) | Receiver => w0 end)
  (* sw *) (fun _ => w0)
  (* spawnable *) (fun _ => false)
  (* full *) [RCond Writable; RCond Readable; RMutex; RBuf; RCore]
  (* slack *) own_slack
  (* atomic *) own_atomic
  (* internal *) (fun _ _ _ _ => False)
  (* errok *) (fun _ r => reported (error_of r))
  (* abortok *) (fun o => match o with OpNew _ _ _ => max_count L <= 0 | _ => False end)
  (* linv *) (fun _ _ _ _ _ _ _ => False).
End spec.

(** ** Verification conditions *)

Section verification.
Context (L : limits) (HL : limits_ok L).

Abbreviation owp := (wp own_code (own_spec L)).

Lemma len_nonneg m : 0 <= len m.
Proof. unfold len. lia. Qed.

Lemma size_nonneg q : 0 <= size q.
Proof. apply lsum_nonneg, len_nonneg. Qed.

Lemma own_inv_count s : own_inv L s -> 0 <= count s <= max_count L.
Proof. intros Hi. apply (ro_count _ _ _ _ _ (oi_ring _ _ Hi)). Qed.

Lemma own_queue_length s : own_inv L s -> Z.of_nat (length (own_queue s)) = count s.
Proof.
intros Hi. unfold own_queue. rewrite (oi_capacity _ _ Hi).
eapply contents_length, (oi_ring _ _ Hi).
Qed.

(** The room left is computed without overflow, and is what it says. *)
Lemma has_byte_capacity_spec s n :
own_inv L s ->
INT32_MIN <= max_queued_bytes s - queued_bytes s <= INT32_MAX /\
sync_owned_bytes_has_byte_capacity s n = (size (own_queue s) + n <=? max_queued L).
Proof.
intros Hi. destruct HL as (_ & _ & Hq). pose proof (size_nonneg (own_queue s)).
unfold sync_owned_bytes_has_byte_capacity. rewrite (oi_queued _ _ Hi), (oi_bytes _ _ Hi).
pose proof (oi_limit _ _ Hi). split; [z32|].
destruct (Z.leb_spec n (max_queued L - size (own_queue s))),
  (Z.leb_spec (size (own_queue s) + n) (max_queued L)); lia.
Qed.

Definition pushed (m : bytes) (s : own_core) : own_core :=
set_queued_bytes (queued_bytes s + len m) (set_count (count s + 1)
  (set_tail ((tail s + 1) mod max_count L)
    (set_slots (<[Z.to_nat (tail s) := Some m]> (slots s)) s))).

Lemma own_pushed_ok m s :
own_inv L s -> count s < max_count L -> len m <= max_message L ->
size (own_queue s) + len m <= max_queued L ->
own_inv L (pushed m s) /\
own_abs (pushed m s) = with_queue (own_queue s ++ [m]) (own_abs s) /\
0 <= tail s < Z.of_nat (length (slots s)) /\ 0 <= tail s < max_count L.
Proof.
intros Hi Hlt Hm Hsz. destruct (ring_push _ _ _ _ _ m (oi_ring _ _ Hi) Hlt) as (Ht & Hr' & Hq).
pose proof (ro_len _ _ _ _ _ (oi_ring _ _ Hi)). destruct Hi as [Hc ? ? Hr Hb Hl He Hs Hla].
assert (own_queue (pushed m s) = own_queue s ++ [m]) as Hpq.
{ unfold own_queue, pushed. simpl. by rewrite Hc, Hq. }
assert (size (own_queue s ++ [m]) = size (own_queue s) + len m) as Hps.
{ unfold size. rewrite lsum_app. simpl. lia. }
split_and!; try lia.
- split; try done.
  + rewrite Hpq, Hps. simpl. lia.
  + rewrite Hpq, Hps. lia.
  + rewrite Hpq. apply Forall_app. auto.
- unfold own_abs, with_queue. by rewrite Hpq.
Qed.

Definition popped (m : bytes) (s : own_core) : own_core :=
set_queued_bytes (queued_bytes s - len m) (set_count (count s - 1)
  (set_head ((head s + 1) mod max_count L)
    (set_slots (<[Z.to_nat (head s) := None]> (slots s)) s))).

Lemma own_popped_ok s :
own_inv L s -> 0 < count s ->
exists m, zget (slots s) (head s) = Some (Some m) /\
  own_queue s = m :: own_queue (popped m s) /\ own_inv L (popped m s) /\
  own_abs (popped m s) = with_queue (own_queue (popped m s)) (own_abs s) /\
  0 <= head s < Z.of_nat (length (slots s)) /\ 0 <= head s < max_count L /\
  0 <= queued_bytes s - len m <= max_queued L.
Proof.
intros Hi Hlt. destruct (ring_pop _ _ _ _ _ (oi_ring _ _ Hi) Hlt) as (m & Hm & Hr' & Hq).
pose proof (ro_len _ _ _ _ _ (oi_ring _ _ Hi)). pose proof (ro_head _ _ _ _ _ (oi_ring _ _ Hi)).
exists m. destruct Hi as [Hc ? ? Hr Hb Hl He Hs Hla].
assert (own_queue s = m :: own_queue (popped m s)) as Hpq.
{ unfold own_queue, popped. simpl. by rewrite Hc. }
assert (size (own_queue s) = len m + size (own_queue (popped m s))) as Hps by (by rewrite Hpq).
pose proof (len_nonneg m). pose proof (size_nonneg (own_queue (popped m s))).
split_and!; try done; try lia.
assert (queued_bytes s - len m = size (own_queue (popped m s))) by lia.
rewrite Hpq in He. inversion He. split; try done. lia.
Qed.

Lemma own_open_abs s : open (own_abs s) = negb (is_closed s).
Proof.
  unfold open, own_abs, is_closed. simpl. rewrite negb_orb, negb_involutive.
  by destruct (closed s =? 0).
Qed.

(** An enqueued message with one signal to the readers loses no wake-up. *)
Lemma own_no_lost_push m s (cr : sC own -> option Z) e :
  is_closed s = false -> cr = cr0 \/ cr = woken (Writable : sC own) ->
  no_lost (own_spec L) s (pushed m s) (set_cr cr Readable (Z.add 1 <$> cr Readable)) e.
Proof.
  intros Hop Hcr _ q. unfold slack_ok. destruct q, Hcr as [-> | ->]; cbn.
  all: unfold is_closed in *; cbn in *; rewrite ?Hop.
  all: try (destruct (closed s =? 0); [|done]).
  all: eexists; split; [reflexivity|lia].
Qed.

Lemma own_no_lost_pop m s (cr : sC own -> option Z) e :
  0 < count s -> cr = cr0 \/ cr = woken (Readable : sC own) ->
  no_lost (own_spec L) s (popped m s) (set_cr cr Writable (Z.add 1 <$> cr Writable)) e.
Proof.
  intros Hlt Hcr _ q. unfold slack_ok. destruct q, Hcr as [-> | ->]; cbn.
  all: unfold is_closed in *; cbn in *.
  all: try (destruct (closed s =? 0); [|done]).
  all: try (destruct (_ || _); [done|]).
  all: eexists; split; [reflexivity|lia].
Qed.

Lemma own_wp_enqueue (o : own_op) m s (cr : sC own -> option Z) :
  own_inv L s -> is_closed s = false -> count s < max_count L -> len m <= max_message L ->
  size (own_queue s) + len m <= max_queued L -> cr = cr0 \/ cr = woken (Writable : sC own) ->
  back own_code o = 1 -> backw own_code (own_spec L) o = (1, 0) ->
  (forall st, own_atomic L o (Some (own_abs s)) (RSubmit 0 st)
                (Some (with_queue (own_queue s ++ [m]) (own_abs s)))) ->
  owp o (enqueue m 0) (In s s cr) 1 (1, 0) None None.
Proof.
  intros Hinv Hop Hlt Hm Hsz Hcr Hb Hbw Hat.
  destruct (own_pushed_ok m s Hinv Hlt Hm Hsz) as (Hinv' & Habs & Ht & Ht').
  pose proof (own_inv_count s Hinv) as Hct. destruct HL as (? & ? & ?).
  pose proof (len_nonneg m). pose proof (size_nonneg (own_queue s)).
  pose proof (oi_bytes _ _ Hinv). pose proof (oi_capacity _ _ Hinv) as Hc.
  unfold enqueue. unfold_native.
  eapply wp_access_in; [by rewrite zset_some by done|done|].
  eapply wp_access_in; [cbn; by rewrite Hc, ring_next_ok by lia|done|].
  eapply wp_access_in; [cbn; by rewrite i32_some by z32|done|].
  eapply wp_access_in; [cbn; by rewrite i32_some by z32|done|].
  change (set_queued_bytes _ _) with (pushed m s).
  wp_run; try wp_commit; rewrite ?Habs; eauto.
  2-3: rewrite Hbw; wt_solve.
  by apply own_no_lost_push.
Qed.

Lemma own_wp_dequeue (o : own_op) s (cr : sC own -> option Z) :
  own_inv L s -> 0 < count s -> cr = cr0 \/ cr = woken (Readable : sC own) ->
  back own_code o = 1 -> backw own_code (own_spec L) o = w0 ->
  (forall m q st, own_queue s = m :: q ->
     own_atomic L o (Some (own_abs s)) (RRecv (Some m) 0 st)
                (Some (with_queue q (own_abs s)))) ->
  owp o (dequeue 0) (In s s cr) 1 w0 None None.
Proof.
  intros Hinv Hlt Hcr Hb Hbw Hat.
  destruct (own_popped_ok s Hinv Hlt) as (m & Hm & Hq & Hinv' & Habs & Ht & Ht' & Hsz).
  pose proof (own_inv_count s Hinv) as Hct. destruct HL as (? & ? & ?).
  pose proof (oi_capacity _ _ Hinv) as Hc.
  unfold dequeue. unfold_native.
  eapply wp_access_in; [by rewrite Hm|done|]. rewrite Hm. cbn [mjoin option_join mret].
  eapply wp_access_in; [by rewrite zset_some by done|done|].
  eapply wp_access_in; [cbn; by rewrite Hc, ring_next_ok by lia|done|].
  eapply wp_access_in; [cbn; by rewrite i32_some by z32|done|].
  eapply wp_access_in; [cbn; by rewrite i32_some by z32|done|].
  change (set_queued_bytes _ _) with (popped m s).
  unfold sync_owned_bytes_into_moonbit, sync_owned_bytes_message_release.
  wp_run; try wp_commit; rewrite ?Habs; eauto.
  2-3: rewrite Hbw; wt_solve.
  by apply own_no_lost_pop.
Qed.

Lemma own_inv_closed s : own_inv L s -> own_inv L (set_closed 1 s).
Proof. by intros []. Qed.

Lemma own_inv_receiver z s : own_inv L s -> own_inv L (set_receiver_alive z s).
Proof. by intros []. Qed.

Lemma own_inv_senders n s :
  own_inv L s -> 0 <= n -> (n = 0 -> closed s <> 0) -> own_inv L (set_senders n s).
Proof. by intros []. Qed.

Lemma own_sleep_readable b s :
  b && (count s =? 0) && (closed s =? 0) = true -> own_slack Readable s = Some 0.
Proof.
  unfold own_slack. destruct b, (Z.eqb_spec (count s) 0), (closed s =? 0); try done.
  simpl. intros _. f_equal. lia.
Qed.

Lemma own_no_lost_closed s e : is_closed s = true -> no_lost (own_spec L) s s (woken (Writable : sC own)) e.
Proof. intros H. apply no_lost_woken. simpl. by rewrite H. Qed.

Lemma own_no_lost_empty s e : count s = 0 -> no_lost (own_spec L) s s (woken (Readable : sC own)) e.
Proof. intros H. apply no_lost_woken. simpl. destruct (closed s =? 0); [lia|done]. Qed.

Lemma own_no_lost_receiver s e : no_lost (own_spec L) s (set_receiver_alive 1 s) cr0 e.
Proof.
  intros _ q. unfold slack_ok, cr0. destruct q; cbn.
  - destruct (closed s =? 0); [|done]. eexists. split; [done|lia].
  - unfold is_closed. simpl. rewrite orb_false_r.
    destruct (closed s =? 0); simpl; [|done]. destruct (receiver_alive s =? 0); [done|].
    eexists. split; [done|lia].
Qed.

Lemma own_no_lost_senders n s e : no_lost (own_spec L) s (set_senders n s) cr0 e.
Proof. apply (slack_ext (own_spec L)). intros []; done. Qed.

Lemma own_no_lost_broadcast s s' cr e :
  no_lost (own_spec L) s s' (set_cr (set_cr cr Readable None) (Writable : sC own) None) e.
Proof. by intros _ []. Qed.

Lemma own_recv_closed s st :
  own_inv L s -> count s = 0 -> closed s <> 0 ->
  recv_step (Some (own_abs s)) (Some (own_abs s)) None 2 st.
Proof.
  intros Hi Hc Hcl. exists (own_abs s). split; [done|]. right. simpl.
  rewrite (proj2 (Z.eqb_neq _ _) Hcl). repeat split; try done.
  apply length_zero_iff_nil. pose proof (own_queue_length s Hi). lia.
Qed.

(** What a receive reports when it finds the queue empty. *)
Lemma own_recv_empty s st :
  own_inv L s -> count s = 0 ->
  let status := if negb (closed s =? 0) then 2 else 1 in
  recv_step (Some (own_abs s)) (Some (own_abs s)) None status st \/
  exists a, Some (own_abs s) = Some a /\ queue a = [] /\ shut a = false /\
    @None bytes = None /\ status = 1 /\ Some (own_abs s) = Some (own_abs s).
Proof.
  intros Hi Hc. destruct (Z.eqb_spec (closed s) 0) as [Hcl|Hcl]; simpl.
  - right. eexists. split; [done|]. simpl. rewrite Hcl. repeat split; try done.
    apply length_zero_iff_nil. pose proof (own_queue_length s Hi). lia.
  - left. by apply own_recv_closed.
Qed.

(** The blocking receive leaves its loop on an empty queue only when the
    channel is closed. *)
Lemma own_recv_loop_exit s st :
  own_inv L s -> count s = 0 -> true && (count s =? 0) && (closed s =? 0) = false ->
  recv_step (Some (own_abs s)) (Some (own_abs s)) None
    (if negb (closed s =? 0) then 2 else 1) st.
Proof.
  intros Hi Hc H. rewrite Hc in H. simpl in H. rewrite H. simpl. apply own_recv_closed; [done..|].
  by apply Z.eqb_neq.
Qed.

Lemma own_received_step m q s st :
  own_queue s = m :: q ->
  recv_step (Some (own_abs s)) (Some (with_queue q (own_abs s))) (Some m) 0 st.
Proof. intros H. exists (own_abs s). split; [done|]. left. eauto 10. Qed.

(** Releasing the core: the loop over the slots reads inside the array. *)
Lemma own_wp_release_slots (o : own_op) s rs c b n w l e k : forall m index,
  RCore ∈ rs -> 0 <= index -> index + Z.of_nat m = Z.of_nat (length (slots s)) ->
  owp o k (Excl s rs c b) n w l e ->
  owp o (release_slots m index k) (Excl s rs c b) n w l e.
Proof.
  induction m as [|m IH]; intros index Hrs Hi Hm Hk; [done|]. cbn [release_slots].
  assert (exists x, zget (slots s) index = Some x) as [x Hx].
  { unfold zget. rewrite (proj2 (Z.ltb_ge _ _)) by lia. apply lookup_lt_is_Some. lia. }
  eapply wp_access_excl; [done|by rewrite Hx|]. rewrite Hx.
  destruct x as [m'|]; cbn [mjoin option_join]; [apply wp_emit|]; apply IH; try done; lia.
Qed.

Lemma own_wp_release (o : own_op) :
  back own_code o = 0 -> backw own_code (own_spec L) o = w0 ->
  owp o (sync_owned_bytes_core_release (Ret RUnit)) Out 1 w0 (Some RUnit) None.
Proof.
  intros Hb Hbw. unfold sync_owned_bytes_core_release. unfold_native.
  wp_run; try done; try (subst; done).
  match goal with H : inv _ _ |- _ => rename H into Hi end.
  apply own_wp_release_slots; [rsrc_solve|lia| |].
  - rewrite (oi_capacity _ _ Hi). pose proof (ro_len _ _ _ _ _ (oi_ring _ _ Hi)).
    pose proof (ro_cap _ _ _ _ _ (oi_ring _ _ Hi)). lia.
  - wp_run; try done.
Qed.

(** The last steps of a finalizer, once its transition is known. *)
Lemma own_wp_finish (o : own_op) a a' w st :
  back own_code o = 0 -> backw own_code (own_spec L) o = w0 -> w = w0 ->
  own_atomic L o a RUnit a' ->
  exists l', commit (own_spec L) o a a' None l' /\
    owp o (if st =? 0 then sync_owned_bytes_core_release (Ret RUnit) else Abort) Out 1 w l'
      (note_st None st).
Proof.
  intros Hb Hbw -> Ha. apply (unlock_commit (Σ:=own_spec L) _ _ _ _ _ _ _ _ RUnit); [|done].
  unfold note_st. destruct (Z.eqb_spec st 0) as [->|Hst]; [by apply own_wp_release|].
  apply wp_abort. by left.
Qed.

Lemma own_inv_drop s :
  own_inv L s -> counted (own_spec L) (1, 0) s -> senders s - 1 <> 0 ->
  own_inv L (set_senders (senders s - 1) s).
Proof. intros Hi [[H _] _] Hs. simpl in H. apply own_inv_senders; [done|lia|lia]. Qed.

Lemma own_inv_drop_last s :
  own_inv L s -> counted (own_spec L) (1, 0) s ->
  own_inv L (set_closed 1 (set_senders (senders s - 1) s)).
Proof. intros [] [[H _] _]. simpl in H. split; simpl; try done; lia. Qed.

Lemma own_no_lost_writable s e : no_lost (own_spec L) s s (woken (Writable : sC own)) e.
Proof. apply no_lost_woken. simpl. by destruct (is_closed s). Qed.

#[local] Hint Resolve own_recv_empty own_recv_loop_exit own_received_step own_inv_closed own_inv_receiver
  own_no_lost_writable own_no_lost_empty own_no_lost_receiver own_no_lost_senders
  own_no_lost_broadcast own_inv_drop own_inv_drop_last own_recv_closed : wpdb.
#[local] Hint Extern 1 (_ <> _) => congruence : wpdb.

Ltac own_unfold :=
  unfold own_body, sync_owned_bytes_finalize, sync_owned_bytes_channel_new,
    sync_owned_bytes_channel_receiver, sync_owned_bytes_sender_share,
    sync_owned_bytes_sender_close, sync_owned_bytes_receiver_try_recv,
    sync_owned_bytes_receiver_recv, sync_owned_bytes_receive, sync_owned_bytes_receiver_close,
    sync_owned_bytes_receiver_len, sync_owned_bytes_receiver_capacity,
    sync_owned_bytes_channel_test_fail_next_init,
    sync_owned_bytes_channel_test_fail_next_operation, sync_owned_bytes_wrap,
    broadcast_or_abort, reject; unfold_native; unfold_native.

Ltac own_done :=
  repeat match goal with
  | |- forall s, _ -> _ = true -> may_sleep _ _ _ _ _ _ => intros ???
  | |- _ = true -> may_sleep _ _ _ _ _ _ => intros ?
  | |- may_sleep _ Readable _ _ (woken _) _ =>
      apply may_sleep_again; [done|eauto using own_sleep_readable]
  | |- may_sleep _ Readable _ _ cr0 _ =>
      apply may_sleep_first; [done|eauto using own_sleep_readable]
  | |- inv _ _ => solve [cbn; auto with wpdb]
  | |- no_lost _ _ _ _ _ => solve [auto with wpdb]
  | |- (_ <> 0 /\ _) \/ _ => left; solve [repeat split; eauto with wpdb]
  | |- (_ <> 0 /\ _) \/ (exists _, _) => right; eexists; split; [reflexivity|]
  | |- (_ <> 0 /\ _) \/ _ \/ _ => right; left; solve [eauto with wpdb]
  | |- (_ <> 0 /\ _) \/ _ => right; solve [eauto with wpdb]
  | |- _ /\ _ => split
  | |- wp _ _ _ (dequeue 0) _ _ _ _ _ =>
      apply own_wp_dequeue; [done| |auto|done|done|intros ????; cbn; eauto 6 with wpdb]
  | H : inv _ _ |- 0 < count _ => cbn in H; apply own_inv_count in H; lia
  | |- count _ = Z.of_nat _ => symmetry; by apply own_queue_length
  | H : inv _ ?s |- capacity ?s = max_count _ => apply H
  | |- _ => solve [done | eauto with wpdb]
  end.

Ltac own_solve := own_unfold; wp_run; try wp_commit; own_done.

Lemma own_wp_receiver : owp OpReceiver (own_body OpReceiver) Out 1 (1, 0) None None.
Proof. own_solve. Qed.

Lemma own_wp_share : owp OpSenderShare (own_body OpSenderShare) Out 1 (1, 0) None None.
Proof.
  own_solve. match goal with H : inv _ _ |- _ => rename H into Hi end.
  pose proof (oi_senders _ _ Hi). apply own_inv_senders; [done|lia..].
Qed.

Lemma own_wp_sender_close : owp OpSenderClose (own_body OpSenderClose) Out 1 (1, 0) None None.
Proof. own_solve. Qed.

Lemma own_wp_receiver_close : owp OpReceiverClose (own_body OpReceiverClose) Out 1 w0 None None.
Proof. own_solve. Qed.

Lemma own_wp_try_recv : owp OpTryRecv (own_body OpTryRecv) Out 1 w0 None None.
Proof. own_solve. Qed.

Lemma own_wp_recv : owp OpRecv (own_body OpRecv) Out 1 w0 None None.
Proof. own_solve. Qed.

Lemma own_wp_len : owp OpLen (own_body OpLen) Out 1 w0 None None.
Proof. own_solve. Qed.

Lemma own_wp_capacity : owp OpCapacity (own_body OpCapacity) Out 1 w0 None None.
Proof. own_solve. Qed.

Lemma own_wp_finalize_sender :
  owp (OpFinalize Sender) (own_body (OpFinalize Sender)) Out 1 (1,0) None None.
Proof.
  own_unfold. wp_run; own_done.
  all: try (intros st; apply own_wp_finish; [done|done|wt_solve|]; eexists; split; [done|]).
  - unfold own_abs. simpl in *. replace (senders s) with 1 by lia. simpl. by rewrite orb_true_r.
  - unfold own_abs. simpl in *. destruct (Z.eqb_spec (senders s) 1); [lia|]. by rewrite orb_false_r.
Qed.

Lemma own_wp_finalize_receiver :
  owp (OpFinalize Receiver) (own_body (OpFinalize Receiver)) Out 1 w0 None None.
Proof.
  own_unfold. wp_run; own_done.
  all: try (intros st; apply own_wp_finish; [done|done|wt_solve|]; eexists; split; [done|]).
  all: simpl in *; unfold own_abs.
  - match goal with H : receiver_alive _ = 0 |- _ => rewrite H end. simpl. by rewrite orb_false_r.
  - match goal with H : receiver_alive _ <> 0 |- _ => apply Z.eqb_neq in H as -> end.
    simpl. by rewrite orb_true_r.
Qed.

Definition submit_op (m : bytes) (blocking : bool) : own_op :=
if blocking then OpSend m else OpTrySend m.

Lemma submit_atomic m b a result error a' :
submit_step L m b a a' result error -> own_atomic L (submit_op m b) a (RSubmit result error) a'.
Proof. by destruct b. Qed.

Lemma submit_back m b : 1 = back own_code (submit_op m b).
Proof. by destruct b. Qed.

Lemma submit_backw m b : (1, 0) = backw own_code (own_spec L) (submit_op m b).
Proof. by destruct b. Qed.

(** The condition of the wait loop, and what its exit means. *)
Definition must_wait (b : bool) (m : bytes) (s : own_core) : bool :=
b && (closed s =? 0) && negb (receiver_alive s =? 0) &&
((count s =? capacity s) || negb (sync_owned_bytes_has_byte_capacity s (len m))).

Lemma must_wait_slack b m s : must_wait b m s = true -> own_slack Writable s = Some 0.
Proof.
unfold must_wait, own_slack, is_closed.
by destruct b, (closed s =? 0), (receiver_alive s =? 0).
Qed.

Lemma must_wait_exit b m s :
is_closed s = false -> must_wait b m s = false ->
b = false \/ (count s <> capacity s /\ sync_owned_bytes_has_byte_capacity s (len m) = true).
Proof.
unfold must_wait, is_closed.
destruct b, (closed s =? 0), (receiver_alive s =? 0), (Z.eqb_spec (count s) (capacity s)),
  (sync_owned_bytes_has_byte_capacity s (len m)); naive_solver.
Qed.

Lemma submit_error m b a st : st <> 0 -> submit_step L m b a a 2 st.
Proof. intros H. do 2 right. left. auto. Qed.

Lemma submit_closed m b s st :
is_closed s = true -> submit_step L m b (Some (own_abs s)) (Some (own_abs s)) 2 st.
Proof.
intros H. do 2 right. left. repeat split; [done..|]. right. eexists. split; [done|].
by rewrite own_open_abs, H.
Qed.

Lemma submit_large m b s st :
own_inv L s -> (max_message_bytes s <? len m) = true ->
submit_step L m b (Some (own_abs s)) (Some (own_abs s)) 3 st.
Proof.
intros Hi H%Z.ltb_lt. rewrite (oi_message _ _ Hi) in H. do 3 right. left. auto.
Qed.

Lemma submit_full m b s st :
own_inv L s -> is_closed s = false -> must_wait b m s = false -> count s = capacity s ->
submit_step L m b (Some (own_abs s)) (Some (own_abs s)) 1 st.
Proof.
intros Hi Hop Hw Hc. right. left. destruct (must_wait_exit b m s Hop Hw) as [->|[? _]]; [|done].
repeat split; try done. eexists. split; [done|]. rewrite own_open_abs, Hop. split; [done|].
simpl. rewrite own_queue_length by done. by rewrite Hc, (oi_capacity _ _ Hi).
Qed.

Lemma submit_bytes m b s st :
own_inv L s -> is_closed s = false -> must_wait b m s = false ->
negb (sync_owned_bytes_has_byte_capacity s (len m)) = true ->
submit_step L m b (Some (own_abs s)) (Some (own_abs s)) 4 st.
Proof.
intros Hi Hop Hw Hc%negb_true_iff. do 4 right. destruct (must_wait_exit b m s Hop Hw) as [->|[_ ?]]; [|congruence].
repeat split; try done. eexists. split; [done|]. rewrite own_open_abs, Hop. split; [done|].
rewrite (proj2 (has_byte_capacity_spec s (len m) Hi)) in Hc. by apply Z.leb_gt.
Qed.

Lemma submit_push m b s st :
own_inv L s -> is_closed s = false -> count s < max_count L -> len m <= max_message L ->
size (own_queue s) + len m <= max_queued L ->
submit_step L m b (Some (own_abs s)) (Some (with_queue (own_queue s ++ [m]) (own_abs s))) 0 st.
Proof.
intros Hi Hop Hc Hm Hs. left. split; [done|]. eexists. split; [done|].
rewrite own_open_abs, Hop. simpl. rewrite own_queue_length by done. auto.
Qed.

(** The last part of a pass that has the copy. *)
Lemma wp_submit_enqueue m b s (cr : sC own -> option Z) :
own_inv L s -> is_closed s = false -> count s <> capacity s ->
len m <= max_message L ->
negb (sync_owned_bytes_has_byte_capacity s (len m)) = false ->
cr = cr0 \/ cr = woken (Writable : sC own) ->
owp (submit_op m b) (enqueue m 0) (In s s cr) 1 (1, 0) None None.
Proof.
intros Hi Hop Hc Hm Hb%negb_false_iff Hcr. rewrite (proj2 (has_byte_capacity_spec s (len m) Hi)) in Hb.
apply Z.leb_le in Hb.
rewrite (oi_capacity _ _ Hi) in Hc. pose proof (own_inv_count s Hi).
apply own_wp_enqueue; try done; try lia; [symmetry; apply submit_back|symmetry; apply submit_backw|].
intros st. apply submit_atomic, submit_push; try done; lia.
Qed.

#[local] Hint Resolve submit_error submit_closed submit_large submit_full submit_bytes : wpdb.

Ltac submit_done :=
repeat match goal with
| |- 1 = back _ _ => apply submit_back
| |- _ = backw _ _ _ =>
    rewrite <- submit_backw; first [reflexivity | unfold wsub, wadd; simpl; f_equal; lia]
| |- own_atomic _ _ _ _ _ => apply submit_atomic
| |- forall s, _ -> _ = true -> may_sleep _ _ _ _ _ _ => intros ???
| |- _ = true -> may_sleep _ _ _ _ _ _ => intros ?
| |- may_sleep _ _ _ _ (woken _) _ => apply may_sleep_again; [done|by eapply must_wait_slack]
| |- may_sleep _ _ _ _ cr0 _ => apply may_sleep_first; [done|by eapply must_wait_slack]
| |- no_lost _ _ _ _ _ => solve [auto with wpdb]
| |- wp _ _ _ (enqueue _ 0) _ _ _ _ _ => apply wp_submit_enqueue; auto
| H : inv _ ?s, Ht : (max_message_bytes ?s <? _) = false |- len _ <= max_message _ =>
    apply Z.ltb_ge in Ht; by rewrite (oi_message _ _ H) in Ht
| |- submit_step _ _ _ _ _ _ _ => solve [eauto 6 with wpdb]
end.
(** The second pass. *)
Lemma wp_submit_copy m b again :
owp (submit_op m b) (submit_pass m b (Some m) again) Out 1 (1, 0) None None.
Proof.
unfold submit_pass. own_unfold. unfold sync_owned_bytes_message_release.
wp_run; try wp_commit. all: submit_done.
Qed.

(** The copy is made, or the process aborts. *)
Lemma wp_message_copy (o : own_op) m again :
owp o (again m) Out 1 (1, 0) None None ->
owp o (sync_owned_bytes_message_copy m again) Out 1 (1, 0) None None.
Proof.
intros Hag. unfold sync_owned_bytes_message_copy, alloc_message. unfold_native. wp_run; done.
Qed.

(** The first pass releases the mutex to make the copy. *)
Lemma wp_submit_unlock m b again s w st :
w = (1, 0) -> owp (submit_op m b) (again m) Out 1 (1, 0) None None ->
exists l', commit (own_spec L) (submit_op m b) (Some (own_abs s)) (Some (own_abs s)) None l' /\
  owp (submit_op m b)
    (if negb (record_error 0 st =? 0) then Ret (RSubmit 2 (record_error 0 st))
     else sync_owned_bytes_message_copy m again) Out 1 w l' (note_st None st).
Proof.
intros -> Hag. destruct (Z.eqb_spec st 0) as [->|Hst].
- apply unlock_keep; [done|]. by apply wp_message_copy.
- rewrite record_error_0, note_st_fail, (proj2 (Z.eqb_neq _ _) Hst) by done. cbn [negb].
  apply (unlock_commit (Σ:=own_spec L) _ _ _ _ _ _ _ _ (RSubmit 2 st)).
  + by apply wp_ret_out; [apply submit_back|apply submit_backw|left|].
  + apply submit_atomic, submit_error. done.
Qed.

Lemma wp_submit_first m b again :
owp (submit_op m b) (again m) Out 1 (1, 0) None None ->
owp (submit_op m b) (submit_pass m b None again) Out 1 (1, 0) None None.
Proof.
intros Hag. unfold submit_pass. own_unfold.
unfold sync_owned_bytes_message_release. wp_run.
all: match goal with
     | |- forall _, exists _, _ /\ wp _ _ _ (Ret _) _ _ _ _ _ => wp_commit
     | |- forall _, exists _, _ => intros st; apply wp_submit_unlock; [wt_solve|done]
     | |- _ => idtac
     end.
all: submit_done.
Qed.

Lemma wp_submit m b :
owp (submit_op m b) (sync_owned_bytes_submit m b) Out 1 (1, 0) None None.
Proof.
unfold sync_owned_bytes_submit. unfold_native. wp_run.
all: submit_done. apply wp_submit_first, wp_submit_copy.
Qed.

Lemma own_wp_new s :
owp (OpNew (max_count L) (max_message L) (max_queued L))
  (own_body (OpNew (max_count L) (max_message L) (max_queued L)))
  (Excl s [] 0 false) 0 w0 None None.
Proof.
own_unfold. unfold sync_array_size_or_abort. destruct HL as (H1 & H2 & H3).
wp_run; try wp_commit; own_done.
- right. cbn. apply orb_true_iff in Htest as [H|H]; [lia|].
  apply Z.ltb_lt in H. unfold INT32_MAX in *. change (SIZE_MAX / 8) with (2 ^ 61 - 1) in H. lia.
- apply orb_false_iff in Htest as [H _]. split; simpl; try done.
  + apply ring_empty. lia.
  + apply H3.
Qed.

Lemma own_wp_hook o : own_on_handle o = None -> client own_code o = true ->
owp o (own_body o) Gone 0 w0 None None.
Proof. destruct o; try done; intros _ _; own_solve. Qed.

Lemma own_verified :
verified own_code (own_spec L) (OpNew (max_count L) (max_message L) (max_queued L)).
Proof.
split; cbn -[wp].
- by intros [].
- intros o d Hc Hd. destruct o as [| | |m|m| | | | | | |[]| |]; cbn in Hd; simplify_eq;
    auto using own_wp_receiver, own_wp_share, own_wp_sender_close, own_wp_receiver_close,
      own_wp_try_recv, own_wp_recv, own_wp_len, own_wp_capacity, own_wp_finalize_sender,
      own_wp_finalize_receiver.
  + apply (wp_submit m false).
  + apply (wp_submit m true).
- intros o ??. by apply own_wp_hook.
- done.
- by intros ? [].
- apply own_wp_new.
- split_and!; [set_solver..|]. intros []; set_solver.
Qed.
End verification.

(** ** Order of messages *)

(** The message an entry of the linearisation puts into the channel, and the
    message it takes out. *)
Definition sent_by (e : entry own) : list bytes :=
  match en_op e, en_res e with
  | (OpSend m | OpTrySend m), RSubmit 0 _ => [m]
  | _, _ => []
  end.

Definition received_by (e : entry own) : list bytes :=
  match en_op e, en_res e with
  | (OpRecv | OpTryRecv), RRecv (Some m) _ _ => [m]
  | _, _ => []
  end.

Definition sent (log : list (entry own)) : list bytes := log ≫= sent_by.
Definition received (log : list (entry own)) : list bytes := log ≫= received_by.

Definition queue_of (a : option own_state) : list bytes :=
  match a with Some s => queue s | None => [] end.

(** A transition appends what it sends and removes what it receives. *)
Lemma own_atomic_queue L t o a r a' b :
  own_atomic L o a r a' ->
  queue_of a ++ sent_by (Entry t o r b) = received_by (Entry t o r b) ++ queue_of a'.
Proof.
  unfold sent_by, received_by. simpl. intros H.
  destruct o as [| | | | | | | | | | |[]| |], r as [[]| | | | | |]; simpl in H; try done;
    unfold submit_step, recv_step in H;
    repeat match goal with
      | H : _ /\ _ |- _ => destruct H
      | H : exists _, _ |- _ => destruct H
      | H : _ \/ _ |- _ => destruct H
      end; simplify_eq; simpl; rewrite ?app_nil_r; try done; try congruence.
  all: try match goal with H : queue _ = _ |- _ => by rewrite H end.
Qed.

Lemma own_fifo_log L o0 tr log a P :
  aexec (own_spec L) o0 tr log a P -> sent log = received log ++ queue_of a.
Proof.
  induction 1 as [|tr log a P t o H IH HP|tr log a a' P t o r H IH HP Ha|
                  tr log a a' P t o l r H IH HP []|tr log a P t o r H IH HP]; try done.
  unfold sent, received in *. rewrite !bind_app. simpl. rewrite !app_nil_r, IH, <- !app_assoc.
  f_equal. exact (own_atomic_queue L t o a r a' true Ha).
Qed.

(** ** Properties *)

Section properties.
Context (L : limits) (HL : limits_ok L) (h : own_hooks).

Abbreviation V := (own_verified L HL).
Abbreviation ctor := (OpNew (max_count L) (max_message L) (max_queued L)).

(** No schedule of calls on an owned-bytes channel, whatever the operating
  system answers, reaches undefined behaviour: no data race on the fields, no
  slot index out of bounds, no signed overflow of an index, a counter or the
  byte total, no use of the core, its slots or OS objects after release. *)
Lemma owned_bytes_safe xs : run own_code xs (start own_code ctor h, []) <> Fault.
Proof. apply (verified_safe V). Qed.

(** C9: the channel is linearisable with respect to the queue [own_atomic] with
  its three limits: a submission of the byte string [m] is queued (0) only on
  an open channel with a free slot and room for [len m] bytes, and otherwise
  changes nothing and says why: full (1), closed (2), longer than a message
  may be (3), beyond the queued-bytes limit (4), the answers 1 and 4 only when
  it was not to block; a receive takes the oldest message. *)
Theorem owned_bytes_linearizable c tr :
reachable own_code ctor h c tr ->
exists log a P, aexec (own_spec L) ctor (filter (fun l => visible l = true) tr) log a P /\
  (free c -> a = Some (own_abs (core c))).
Proof. apply (verified_atomic V). Qed.

(** C10: the byte strings received are a prefix of those queued, byte for byte
  and in order; when the mutex is free the rest is the content of the buffer. *)
Theorem owned_bytes_fifo c tr :
reachable own_code ctor h c tr ->
exists log a P, aexec (own_spec L) ctor (filter (fun l => visible l = true) tr) log a P /\
  received log `prefix_of` sent log /\
  (free c -> sent log = received log ++ own_queue (core c)).
Proof.
intros H. destruct (verified_atomic V h c tr H) as (log & a & P & Ha & Hf).
exists log, a, P. pose proof (own_fifo_log _ _ _ _ _ _ Ha) as Hq. split; [done|].
split; [by eexists|]. intros Hc. by rewrite (Hf Hc) in Hq.
Qed.

(** C8: the byte accounting is exact and the limits hold: whenever the mutex is
  free, [queued_bytes] is the total size of the queued messages and at most
  the limit, no queued message is longer than a message may be, and the number
  of messages is [count], at most the capacity. *)
Theorem owned_bytes_limits c tr :
reachable own_code ctor h c tr -> free c ->
queued_bytes (core c) = size (own_queue (core c)) /\
0 <= queued_bytes (core c) <= max_queued L /\
Forall (fun m => len m <= max_message L) (own_queue (core c)) /\
Z.of_nat (length (own_queue (core c))) = count (core c) /\ count (core c) <= max_count L.
Proof.
intros H Hf. pose proof (verified_inv V h c tr H Hf) as Hi.
pose proof (size_nonneg (own_queue (core c))). pose proof (own_inv_count L _ Hi).
rewrite (oi_bytes _ _ Hi). pose proof (oi_limit _ _ Hi).
split_and!; try done; try lia; [apply Hi|by apply (own_queue_length L)].
Qed.

(** Wake-ups: while no OS call has failed and nobody holds the mutex, a
  receiver sleeps only on an open channel all of whose messages have a woken
  receiver on its way, and a sender sleeps only on an open channel: closing it,
  or losing the receiver, wakes every sender. *)
Lemma owned_bytes_wakeups c tr t o q k :
reachable own_code ctor h c tr -> clean tr = true -> (forall t, holder c <> Held t) ->
threads c !! t = Some (o, Sleep q k) ->
closed (core c) = 0 /\
match q with
| Readable => count (core c) <= nwake Readable (threads c)
| Writable => receiver_alive (core c) <> 0
end.
Proof.
intros H1 H2 H3 H4. destruct (verified_wakeups V h c tr t o q k H1 H2 H3 H4) as (z & Hz & Hle).
destruct q; cbn in Hz; unfold is_closed in Hz;
  destruct (Z.eqb_spec (closed (core c)) 0); simplify_eq/=; [done|].
by destruct (Z.eqb_spec (receiver_alive (core c)) 0).
Qed.

(** Everything a channel owns is there while a handle is left, and is
  released once no handle and no operation is; the first failing status of an
  operation is the one it reports; [abort] is called only after a failure or
  for a capacity that is not positive (in particular the submission loop never
  needs a third pass). *)
Lemma owned_bytes_release_errors c tr :
reachable own_code ctor h c tr ->
(idle c <> [] -> alive c = [RCond Writable; RCond Readable; RMutex; RBuf; RCore]) /\
(idle c = [] -> threads c = ∅ -> alive c = []) /\
(forall tr1 t o r tr2, tr = tr1 ++ LRes t o r :: tr2 ->
   reported (error_of r) (first_failure tr1 t)) /\
(forall t o, threads c !! t = Some (o, Run Abort) ->
   first_failure tr t <> None \/ max_count L <= 0).
Proof.
intros H. split_and!.
- intros H1. by apply (verified_alive V h c tr H).
- intros H1 H2. by apply (verified_released V h c tr H).
- intros tr1 t o r tr2 Ht. apply (verified_errors V h c tr tr1 t o r tr2 H Ht).
- intros t o Ht. destruct (verified_abort V h c tr t o H Ht) as [?|Hab]; [by left|right].
  by destruct o.
Qed.

(** Critical sections end: the thread that holds the mutex can run on its
  own until it has released it (or aborts, or the reference count is at its
  bound). *)
Lemma owned_bytes_releases_mutex c tr t :
reachable own_code ctor h c tr -> holder c = Held t ->
exists vs c' tr', run own_code (map (CStep t 0) vs) (c, tr) = Go (c', tr') /\ ends_section t c'.
Proof. apply (verified_releases V). by intros ? []. Qed.
(** C32: progress: while no OS call has failed and nobody holds the mutex, a
    receiver sleeps only on an open channel all of whose messages have a woken
    receiver on its way, and a sender sleeps only on an open channel: closing it,
    or losing the receiver, wakes every sender; and the thread that holds the
    mutex can run on its own until it has released it (or aborts, or the reference
    count is at its bound). *)
Theorem owned_bytes_progress c tr :
  reachable own_code ctor h c tr ->
  (clean tr = true -> (forall t, holder c <> Held t) ->
   forall t o q k, threads c !! t = Some (o, Sleep q k) ->
   closed (core c) = 0 /\
   match q with
   | Readable => count (core c) <= nwake Readable (threads c)
   | Writable => receiver_alive (core c) <> 0
   end) /\
  (forall t, holder c = Held t ->
   exists vs c' tr', run own_code (map (CStep t 0) vs) (c, tr) = Go (c', tr') /\ ends_section t c').
Proof.
  intros H. split.
  - intros H1 H2 t o q k. by apply owned_bytes_wakeups with tr.
  - intros t. by apply owned_bytes_releases_mutex.
Qed.
End properties.

(** ** Concrete executions *)

Definition own_h0 : own_hooks := OwnHooks 0 0.
Definition call (t : nat) (o : own_op) : choice own := CInvoke (S:=own) t o.

(** Three slots, messages and queue of at most 4 bytes. *)
Definition small : limits := Limits 3 4 4.

Lemma small_ok : limits_ok small.
Proof. by repeat split. Qed.

Abbreviation small_new := (OpNew 3 4 4).
Abbreviation own_after := (after own_code small_new own_h0).

(** A receiver, three senders; messages of 3 bytes and of 1 byte are queued. *)
Definition own_filled : list (choice own) :=
  steps 0 12 ++ [call 1 OpReceiver] ++ steps 1 6 ++
  [call 1 OpSenderShare] ++ steps 1 6 ++ [call 1 OpSenderShare] ++ steps 1 6 ++
  [call 1 (OpSend [1; 2; 3])] ++ steps 1 20 ++ [call 1 (OpSend [4])] ++ steps 1 20.

(** Two senders wait: one with 4 bytes, one with a single byte. *)
Definition own_waiting : list (choice own) :=
  own_filled ++ [call 2 (OpSend [5; 6; 7; 8])] ++ steps 2 4 ++ [call 3 (OpSend [9])] ++ steps 3 4.

(** The receiver takes 3 bytes; its signal goes to the sender of 4 bytes, which
    still does not fit and sleeps again. *)
Definition own_stalled : list (choice own) :=
  own_waiting ++ [call 4 OpRecv] ++ steps 4 8 ++ [CStep (S:=own) 4%nat 0 2%nat] ++ steps 4 3 ++
  steps 2 2.

(** All handles released. *)
Definition own_gone : list (choice own) :=
  steps 0 12 ++ [call 1 OpReceiver] ++ steps 1 6 ++
  [call 1 (OpSend [1; 2])] ++ steps 1 20 ++
  [call 2 (OpFinalize Receiver)] ++ steps 2 9 ++ [call 3 (OpFinalize Sender)] ++ steps 3 19.

(** The signal of a send fails. *)
Definition own_failing : list (choice own) :=
  steps 0 12 ++ [call 1 OpReceiver] ++ steps 1 6 ++
  [call 1 (OpSend [1; 2])] ++ steps 1 17 ++ [CStep (S:=own) 1%nat 22 0%nat] ++ steps 1 2.

(** A sender holds the mutex. *)
Definition own_locked : list (choice own) :=
  steps 0 12 ++ [call 1 OpReceiver] ++ steps 1 6 ++ [call 1 (OpSend [1; 2])] ++ steps 1 3.

(** ** A sender that is not woken *)

(** C39: a wake-up can be missed: a receive signals [writable] once, and the
    sender that takes the signal may not fit and sleep again while another
    waiting sender does fit.  Without any OS failure the channel reaches a state
    where the mutex is free, a sender of a single byte sleeps although there is
    a free slot and room for its byte, and no sender is on its way to wake. *)
Theorem owned_bytes_stalled_sender :
  exists c tr, reachable own_code small_new own_h0 c tr /\ clean tr = true /\
    holder c = Unlocked /\ closed (core c) = 0 /\ receiver_alive (core c) = 1 /\
    (exists k, threads c !! 3%nat = Some (OpSend [9], Sleep Writable k)) /\
    count (core c) < capacity (core c) /\
    sync_owned_bytes_has_byte_capacity (core c) (len [9]) = true /\
    nwake Writable (threads c) = 0.
Proof.
  exists (own_after own_stalled).1, (own_after own_stalled).2.
  split; [scenario|]. do 4 (split; [vm_compute; reflexivity|]).
  split; [|split; [|split]]; [|vm_compute; reflexivity..].
  apply sleeps_in_spec; vm_compute; reflexivity.
Qed.

(** ** Witnesses *)

Lemma owned_bytes_linearizable_witness :
  exists c : config own, free c /\ own_queue (core c) = [[1; 2; 3]; [4]] /\
    exists tr log a P,
      aexec (own_spec small) small_new (filter (fun l => visible l = true) tr) log a P /\
      (free c -> a = Some (own_abs (core c))).
Proof.
  exists (own_after own_waiting).1.
  split; [vm_compute; split; [reflexivity|discriminate]|]. split; [vm_compute; reflexivity|].
  exists (own_after own_waiting).2. apply (owned_bytes_linearizable small small_ok own_h0). scenario.
Defined.

Lemma owned_bytes_fifo_witness :
  exists c : config own, free c /\ own_queue (core c) = [[4]] /\
    exists tr log a P,
      aexec (own_spec small) small_new (filter (fun l => visible l = true) tr) log a P /\
      received log `prefix_of` sent log /\
      (free c -> sent log = received log ++ own_queue (core c)).
Proof.
  exists (own_after own_stalled).1.
  split; [vm_compute; split; [reflexivity|discriminate]|]. split; [vm_compute; reflexivity|].
  exists (own_after own_stalled).2. apply (owned_bytes_fifo small small_ok own_h0). scenario.
Defined.

Lemma owned_bytes_limits_witness :
  exists c : config own, free c /\ own_queue (core c) = [[1; 2; 3]; [4]] /\
    queued_bytes (core c) = size (own_queue (core c)) /\
    0 <= queued_bytes (core c) <= 4 /\
    Forall (fun m => len m <= 4) (own_queue (core c)) /\
    Z.of_nat (length (own_queue (core c))) = count (core c) /\ count (core c) <= 3.
Proof.
  assert (free (own_after own_waiting).1) as Hf by (vm_compute; split; [reflexivity|discriminate]).
  exists (own_after own_waiting).1. split; [exact Hf|]. split; [vm_compute; reflexivity|].
  apply (owned_bytes_limits small small_ok own_h0 _ (own_after own_waiting).2); [scenario|exact Hf].
Defined.

Lemma owned_bytes_failing_reported :
  exists tr : list (label own), last tr = Some (LRes (S:=own) 1%nat (OpSend [1; 2]) (RSubmit 0 22)) /\
    first_failure tr 1%nat = Some (OsFail 22).
Proof. exists (own_after own_failing).2. split; vm_compute; reflexivity. Qed.

Lemma owned_bytes_progress_witness :
  exists c : config own, (exists o k, threads c !! 2%nat = Some (o, Sleep Writable k)) /\
    (closed (core c) = 0 /\ receiver_alive (core c) <> 0) /\
    exists c' tr, holder c' = Held 1%nat /\
      exists vs c'' tr', run own_code (map (CStep 1%nat 0) vs) (c', tr) = Go (c'', tr') /\
        ends_section 1%nat c''.
Proof.
  assert (sleeps_at (own_after own_waiting).1 2%nat (Writable : sC own) = true) as Hs
    by (vm_compute; reflexivity).
  apply sleeps_at_spec in Hs as (o & k & Hs).
  exists (own_after own_waiting).1. split; [by exists o, k|]. split.
  - apply (proj1 (owned_bytes_progress small small_ok own_h0 _ (own_after own_waiting).2 ltac:(scenario)))
      with (t := 2%nat) (o := o) (q := Writable) (k := k).
    + vm_compute. reflexivity.
    + vm_compute. discriminate.
    + exact Hs.
  - exists (own_after own_locked).1, (own_after own_locked).2.
    split; [vm_compute; reflexivity|].
    apply (owned_bytes_progress small small_ok own_h0); [scenario|vm_compute; reflexivity].
Defined.
