(* ===== verification/ThreadPool.v ===== *)
(** ThreadPool: src/unsafe/thread_pool/native.c, a fixed number of worker
    threads that run tasks from a bounded queue.

    A task is an address; running it is the external call [Call], so the
    closure may do anything, in particular call the pool again.  The calls it
    makes are operations like any others; the operations that look at the
    thread-local [sync_current_thread_pool] have the outcome of its comparison
    with the core as the argument [here].  That a worker calls the task it took
    and that every task is released once is the subject of [ThreadPoolRefs]. *)
From stdpp Require Import base gmap list.
From Stdlib Require Import ZArith Lia.
From S2P Require Import Prelude Ring Machine Logic Soundness Verified Native.

Local Open Scope prog_scope.

(** ** State *)

Definition SYNC_THREAD_POOL_MAX_WORKER_COUNT : Z := 64.
Definition SYNC_THREAD_POOL_MAX_CAPACITY : Z := 16384.
Definition SYNC_THREAD_POOL_ALLOCATION_FAILED : Z := -2.

Definition task : Type := Z.

(** The plain fields of [sync_thread_pool_core_t]; [call] is the environment's. *)
Record pool_core := PoolCore {
  tasks : list (option task);
  capacity : Z;
  head : Z;
  tail : Z;
  length_ : Z;
  worker_count : Z;
  live_workers : Z;
  handles : Z;
  accepting : Z;
}.

Section fields.
Implicit Types s : pool_core.
Definition set_tasks x s :=
PoolCore x (capacity s) (head s) (tail s) (length_ s) (worker_count s) (live_workers s)
  (handles s) (accepting s).
Definition set_capacity x s :=
PoolCore (tasks s) x (head s) (tail s) (length_ s) (worker_count s) (live_workers s)
  (handles s) (accepting s).
Definition set_head x s :=
PoolCore (tasks s) (capacity s) x (tail s) (length_ s) (worker_count s) (live_workers s)
  (handles s) (accepting s).
Definition set_tail x s :=
PoolCore (tasks s) (capacity s) (head s) x (length_ s) (worker_count s) (live_workers s)
  (handles s) (accepting s).
Definition set_length x s :=
PoolCore (tasks s) (capacity s) (head s) (tail s) x (worker_count s) (live_workers s)
  (handles s) (accepting s).
Definition set_worker_count x s :=
PoolCore (tasks s) (capacity s) (head s) (tail s) (length_ s) x (live_workers s)
  (handles s) (accepting s).
Definition set_live_workers x s :=
PoolCore (tasks s) (capacity s) (head s) (tail s) (length_ s) (worker_count s) x
  (handles s) (accepting s).
Definition set_handles x s :=
PoolCore (tasks s) (capacity s) (head s) (tail s) (length_ s) (worker_count s) (live_workers s)
  x (accepting s).
Definition set_accepting x s :=
PoolCore (tasks s) (capacity s) (head s) (tail s) (length_ s) (worker_count s) (live_workers s)
  (handles s) x.
End fields.

Record pool_hooks := PoolHooks {
  alloc_fail_after : Z; next_submit_error : Z; next_shutdown_error : Z }.

Definition hook_alloc : hook pool_hooks :=
  MkHook alloc_fail_after (fun z h => PoolHooks z (next_submit_error h) (next_shutdown_error h)).
Definition hook_submit : hook pool_hooks :=
  MkHook next_submit_error (fun z h => PoolHooks (alloc_fail_after h) z (next_shutdown_error h)).
Definition hook_shutdown : hook pool_hooks :=
  MkHook next_shutdown_error (fun z h => PoolHooks (alloc_fail_after h) (next_submit_error h) z).

Inductive pool_cond := NotEmpty | NotFull | Stopped.
#[export] Instance pool_cond_dec : EqDecision pool_cond.
Proof. solve_decision. Defined.

(** [core->call(task)] and [moonbit_decref(task)]. *)
Inductive pool_event := Call (t : option task) | Decref (t : option task).

(** [OpWorker] is the body of a worker thread, which no client calls. *)
Inductive pool_op :=
| OpNew (worker_count capacity : Z)
| OpShare
| OpTryExecute (t : task) (here : bool)
| OpExecute (t : task) (here : bool)
| OpClose
| OpShutdown (here : bool)
| OpIsClosed
| OpWorkerCount
| OpPendingCount
| OpFinalize
| OpTestFailAllocAfter (successful_allocations : Z)
| OpTestFailNextSubmit (status : Z)
| OpTestFailNextShutdown (status : Z)
| OpWorker.

(** Results; the last five are not results but name the silent transitions of
    the specification. *)
Inductive pool_res :=
| RHandle (ok : bool) (status : Z)
| RInt (v : Z) (status : Z)
| RVoid (status : Z)
| RCount (v : Z)
| RUnit
| RTaken (t : task)
| RCreated
| RStarted
| RNotStarted
| RClosed.

Definition error_of (r : pool_res) : option Z :=
  match r with
  | RHandle _ e | RInt _ e | RVoid e => Some e
  | _ => None
  end.

(** The two allocations of [sync_thread_pool_new]. *)
Inductive alloc_site := NewCore (wc cap : Z) | NewTasks (wc cap : Z).

(** Loop heads: the retry loop of [sync_thread_pool_test_should_fail_alloc]
    with its local [current], and the loop of a worker. *)
Inductive pool_loop := LAlloc (x : alloc_site) (current : Z) | LWorker.

Canonical Structure pool : sig :=
  Sig pool_core Z pool_hooks pool_cond unit pool_event pool_op pool_res pool_loop _ _.

(** ** Operations *)

(** [moonbit_decref(core->tasks[slot])] for the [n] slots from [index] on; a
    NULL there is undefined behaviour. *)
Definition task_slot (core : pool_core) (index : Z) : option Z :=
  i ← i32 (head core + index);
  if capacity core =? 0 then None else Some (Z.rem i (capacity core)).

Definition task_at (core : pool_core) (slot : Z) : option task := mjoin (zget (tasks core) slot).

Fixpoint release_tasks (n : nat) (index : Z) (k : prog pool) : prog pool :=
  match n with
  | O => k
  | S n =>
      core <- Access (fun core => slot ← task_slot core index; _ ← task_at core slot; Some core);;
      Emit (Decref (slot ← task_slot core index; task_at core slot))
        (release_tasks n (index + 1) k)
  end.

Definition sync_thread_pool_core_release (k : prog pool) : prog pool :=
  refs <- sync_arc_dec;;
  if negb (refs =? 0) then k else
  core <- Read;;
  release_tasks (Z.to_nat (length_ core)) 0;;
  Free RBuf;;
  st <- sync_os_cond_destroy Stopped;;
  abort_if_failed st;;
  st <- sync_os_cond_destroy NotFull;;
  abort_if_failed st;;
  st <- sync_os_cond_destroy NotEmpty;;
  abort_if_failed st;;
  st <- sync_os_mutex_destroy;;
  abort_if_failed st;;
  Free RCore;;
  k.

(** [k] gets the status it returns. *)
Definition sync_thread_pool_close_core (k : Z -> prog pool) : prog pool :=
  status <- sync_os_mutex_lock;;
  if negb (status =? 0) then k status else
  Write (fun core => Some (set_accepting 0 core));;
  st <- sync_os_cond_broadcast NotEmpty;;
  let status := record_error status st in
  st <- sync_os_cond_broadcast NotFull;;
  let status := record_error status st in
  st <- sync_os_mutex_unlock;;
  k (record_error status st).

Definition sync_thread_pool_close_core_or_abort (k : prog pool) : prog pool :=
  st <- sync_thread_pool_close_core;;
  abort_if_failed st;;
  k.

Definition sync_thread_pool_wait_workers_or_abort (k : prog pool) : prog pool :=
  lock_or_abort;;
  WaitWhile (fun core => negb (live_workers core =? 0)) Stopped
    (fun _ => Abort)
    (unlock_or_abort;; k).

Definition broadcast_or_abort (q : pool_cond) (k : prog pool) : prog pool :=
  st <- sync_os_cond_broadcast q;;
  abort_if_failed st;;
  k.

Definition sync_thread_pool_finalize : prog pool :=
  lock_or_abort;;
  core <- Read;;
  if handles core <=? 0 then unlock_or_abort;; Abort else
  Write (fun core => n ← i32 (handles core - 1); Some (set_handles n core));;
  let finish :=
    unlock_or_abort;;
    sync_thread_pool_core_release;;
    Ret RUnit in
  core <- Read;;
  if handles core =? 0 then
    Write (fun core => Some (set_accepting 0 core));;
    broadcast_or_abort NotEmpty;;
    broadcast_or_abort NotFull;;
    finish
  else finish.

Definition sync_thread_pool_wrap (k : prog pool) : prog pool := Wrap tt k.

(** The part of a worker's round that takes a task and runs it. *)
Definition worker_take : prog pool :=
  core <- Access (fun core => _ ← task_at core (head core); Some core);;
  let task := task_at core (head core) in
  Write (fun core => xs ← zset (tasks core) (head core) None; Some (set_tasks xs core));;
  Write (fun core => i ← ring_next (capacity core) (head core); Some (set_head i core));;
  Write (fun core => n ← i32 (length_ core - 1); Some (set_length n core));;
  st <- sync_os_cond_signal NotFull;;
  abort_if_failed st;;
  unlock_or_abort;;
  Emit (Call task)
  (Emit (Decref task)
  (Jump (S:=pool) LWorker)).

(** The part that leaves the loop and ends the thread. *)
Definition worker_exit : prog pool :=
  Write (fun core => n ← i32 (live_workers core - 1); Some (set_live_workers n core));;
  broadcast_or_abort Stopped;;
  unlock_or_abort;;
  sync_thread_pool_core_release;;
  Ret RUnit.

(** One round of the loop of [sync_thread_pool_worker]. *)
Definition worker_round : prog pool :=
  lock_or_abort;;
  WaitWhile (fun core => (length_ core =? 0) && negb (accepting core =? 0)) NotEmpty
    (fun _ => Abort)
    (core <- Read;;
     if length_ core =? 0 then worker_exit else worker_take).

Definition sync_thread_pool_worker : prog pool := worker_round.

(** One round of the loop of [sync_thread_pool_test_should_fail_alloc]; [k]
    gets what the function returns. *)
Definition should_fail_round (x : alloc_site) (current : Z) (k : bool -> prog pool) : prog pool :=
  if 0 <=? current then
    let next := if current =? 0 then -1 else current - 1 in
    sync_test_atomic_compare_exchange hook_alloc current next (fun ok current =>
    if ok then k (current =? 0) else Jump (S:=pool) (LAlloc x current))
  else k false.

Definition sync_thread_pool_test_should_fail_alloc (x : alloc_site) : prog pool :=
  current <- sync_test_atomic_load hook_alloc;;
  Jump (S:=pool) (LAlloc x current).

(** What [sync_thread_pool_new] does when a worker could not be created. *)
Definition not_started (create_status : Z) : prog pool :=
  lock_or_abort;;
  Write (fun core => n ← i32 (live_workers core - 1); Some (set_live_workers n core));;
  unlock_or_abort;;
  sync_thread_pool_core_release;;
  sync_thread_pool_close_core_or_abort;;
  sync_thread_pool_wait_workers_or_abort;;
  sync_thread_pool_core_release;;
  Ret (RHandle false create_status).

(** The [for] loop of [sync_thread_pool_new], [n] workers being left. *)
Fixpoint start_workers (n : nat) (k : prog pool) : prog pool :=
  match n with
  | O => k
  | S n =>
      sync_arc_inc;;
      lock_or_abort;;
      Write (fun core => n ← i32 (live_workers core + 1); Some (set_live_workers n core));;
      unlock_or_abort;;
      create_status <- Spawn OpWorker;;
      if negb (create_status =? 0) then not_started create_status
      else
        st <- OsCall;;
        abort_if_failed st;;
        start_workers n k
  end.

(** [sync_thread_pool_new] after the second allocation. *)
Definition new_core (wc cap : Z) : prog pool :=
  Write (fun core => Some (set_tasks (replicate (Z.to_nat cap) None) core));;
  Write (fun core => Some (set_capacity cap core));;
  Write (fun core => Some (set_worker_count wc core));;
  Write (fun core => Some (set_handles 1 core));;
  Write (fun core => Some (set_accepting 1 core));;
  let fail_with status := Free RBuf;; Free RCore;; Ret (RHandle false status) in
  status <- sync_os_mutex_init;;
  if negb (status =? 0) then fail_with status else
  status <- sync_os_cond_init NotEmpty;;
  if negb (status =? 0) then
    st <- sync_os_mutex_destroy;;
    abort_if_failed st;;
    fail_with status
  else
  status <- sync_os_cond_init NotFull;;
  if negb (status =? 0) then
    st <- sync_os_cond_destroy NotEmpty;;
    abort_if_failed st;;
    st <- sync_os_mutex_destroy;;
    abort_if_failed st;;
    fail_with status
  else
  status <- sync_os_cond_init Stopped;;
  if negb (status =? 0) then
    st <- sync_os_cond_destroy NotFull;;
    abort_if_failed st;;
    st <- sync_os_cond_destroy NotEmpty;;
    abort_if_failed st;;
    st <- sync_os_mutex_destroy;;
    abort_if_failed st;;
    fail_with status
  else
  start_workers (Z.to_nat wc);;
  sync_thread_pool_wrap;;
  Ret (RHandle true 0).

(** [sync_thread_pool_try_alloc] and what [sync_thread_pool_new] does with its
    result, once the hook has said whether to fail. *)
Definition after_hook (x : alloc_site) (should_fail : bool) : prog pool :=
  match x with
  | NewCore wc cap =>
      if should_fail then Ret (RHandle false SYNC_THREAD_POOL_ALLOCATION_FAILED) else
      Alloc RCore (fun ok =>
      if ok then
        RefStore 1;;
        sync_thread_pool_test_should_fail_alloc (NewTasks wc cap)
      else Ret (RHandle false SYNC_THREAD_POOL_ALLOCATION_FAILED))
  | NewTasks wc cap =>
      let fail := Free RCore;; Ret (RHandle false SYNC_THREAD_POOL_ALLOCATION_FAILED) in
      if should_fail then fail else
      Alloc RBuf (fun ok => if ok then new_core wc cap else fail)
  end.

Definition sync_thread_pool_new (wc cap : Z) : prog pool :=
  if (wc <=? 0) || (SYNC_THREAD_POOL_MAX_WORKER_COUNT <? wc) ||
     (cap <=? 0) || (SYNC_THREAD_POOL_MAX_CAPACITY <? cap) || (SIZE_MAX / 8 <? cap)
  then Ret (RHandle false (-1))
  else sync_thread_pool_test_should_fail_alloc (NewCore wc cap).

Definition sync_thread_pool_share : prog pool :=
  status <- sync_os_mutex_lock;;
  if negb (status =? 0) then Ret (RHandle false status) else
  core <- Read;;
  if handles core =? INT32_MAX then
    st <- sync_os_mutex_unlock;;
    let status := record_error status st in
    Ret (RHandle false (if status =? 0 then -1 else status))
  else
  Write (fun core => n ← i32 (handles core + 1); Some (set_handles n core));;
  sync_arc_inc;;
  unlock_or_abort;;
  sync_thread_pool_wrap;;
  Ret (RHandle true status).

(** Release the mutex and the task, and return. *)
Definition reject (t : task) (result error : Z) : prog pool :=
  st <- sync_os_mutex_unlock;;
  let error := record_error error st in
  Emit (Decref (Some t))
  (Ret (RInt result error)).

Definition enqueue (t : task) (error : Z) : prog pool :=
  Write (fun core => xs ← zset (tasks core) (tail core) (Some t); Some (set_tasks xs core));;
  Write (fun core => i ← ring_next (capacity core) (tail core); Some (set_tail i core));;
  Write (fun core => n ← i32 (length_ core + 1); Some (set_length n core));;
  st <- sync_os_cond_signal NotEmpty;;
  let error := record_error error st in
  st <- sync_os_mutex_unlock;;
  Ret (RInt 0 (record_error error st)).

Definition sync_thread_pool_submit_task (t : task) (block here : bool) : prog pool :=
  error <- sync_test_atomic_take hook_submit;;
  if negb (error =? 0) then Emit (Decref (Some t)) (Ret (RInt 2 error)) else
  error <- sync_os_mutex_lock;;
  if negb (error =? 0) then Emit (Decref (Some t)) (Ret (RInt 2 error)) else
  core <- Read;;
  if block && negb (accepting core =? 0) && here && (length_ core =? capacity core)
  then reject t 3 error else
  WaitWhile
    (fun core => block && negb (accepting core =? 0) && (length_ core =? capacity core)) NotFull
    (fun wait_status => reject t 2 (record_error error wait_status))
    (core <- Read;;
     if accepting core =? 0 then reject t 2 error else
     if length_ core =? capacity core then reject t 1 error else
     enqueue t error).

Definition sync_thread_pool_try_execute (t : task) (here : bool) : prog pool :=
  sync_thread_pool_submit_task t false here.
Definition sync_thread_pool_execute (t : task) (here : bool) : prog pool :=
  sync_thread_pool_submit_task t true here.

Definition sync_thread_pool_close : prog pool :=
  status <- sync_thread_pool_close_core;;
  Ret (RVoid status).

Definition sync_thread_pool_shutdown (here : bool) : prog pool :=
  status <- sync_test_atomic_take hook_shutdown;;
  if negb (status =? 0) then Ret (RInt 0 status) else
  if here then Ret (RInt (-1) status) else
  status <- sync_thread_pool_close_core;;
  if negb (status =? 0) then Ret (RInt 0 status) else
  status <- sync_os_mutex_lock;;
  if negb (status =? 0) then Ret (RInt 0 status) else
  let finish status :=
    st <- sync_os_mutex_unlock;;
    Ret (RInt 0 (record_error status st)) in
  WaitWhile (fun core => negb (live_workers core =? 0)) Stopped
    (fun wait_status => finish (record_error status wait_status))
    (finish status).

Definition sync_thread_pool_is_closed : prog pool :=
  status <- sync_os_mutex_lock;;
  if negb (status =? 0) then Ret (RInt 0 status) else
  core <- Read;;
  let result := b2z (accepting core =? 0) in
  st <- sync_os_mutex_unlock;;
  Ret (RInt result (record_error status st)).

(** [worker_count] never changes once the pool exists and is read without the
    mutex. *)
Definition sync_thread_pool_worker_count : prog pool :=
  n <- ReadImm;;
  Ret (RCount n).

Definition sync_thread_pool_pending_count : prog pool :=
  status <- sync_os_mutex_lock;;
  if negb (status =? 0) then Ret (RInt 0 status) else
  core <- Read;;
  let count := length_ core in
  st <- sync_os_mutex_unlock;;
  Ret (RInt count (record_error status st)).

Definition sync_thread_pool_test_fail_alloc_after (successful_allocations : Z) : prog pool :=
  sync_test_atomic_store hook_alloc successful_allocations;; Ret RUnit.
Definition sync_thread_pool_test_fail_next_submit (status : Z) : prog pool :=
  sync_test_atomic_store hook_submit status;; Ret RUnit.
Definition sync_thread_pool_test_fail_next_shutdown (status : Z) : prog pool :=
  sync_test_atomic_store hook_shutdown status;; Ret RUnit.

Definition pool_body (o : pool_op) : prog pool :=
  match o with
  | OpNew wc cap => sync_thread_pool_new wc cap
  | OpShare => sync_thread_pool_share
  | OpTryExecute t here => sync_thread_pool_try_execute t here
  | OpExecute t here => sync_thread_pool_execute t here
  | OpClose => sync_thread_pool_close
  | OpShutdown here => sync_thread_pool_shutdown here
  | OpIsClosed => sync_thread_pool_is_closed
  | OpWorkerCount => sync_thread_pool_worker_count
  | OpPendingCount => sync_thread_pool_pending_count
  | OpFinalize => sync_thread_pool_finalize
  | OpTestFailAllocAfter n => sync_thread_pool_test_fail_alloc_after n
  | OpTestFailNextSubmit st => sync_thread_pool_test_fail_next_submit st
  | OpTestFailNextShutdown st => sync_thread_pool_test_fail_next_shutdown st
  | OpWorker => sync_thread_pool_worker
  end.

Definition pool_block (l : pool_loop) : prog pool :=
  match l with
  | LAlloc x current => should_fail_round x current (after_hook x)
  | LWorker => worker_round
  end.

Definition pool_on_handle (o : pool_op) : option unit :=
  match o with
  | OpNew _ _ | OpTestFailAllocAfter _ | OpTestFailNextSubmit _ | OpTestFailNextShutdown _
  | OpWorker => None
  | _ => Some tt
  end.

Definition pool_code : code pool :=
  Code pool
    (* body *) pool_body
    (* block *) pool_block
    (* zeroed *) (PoolCore [] 0 0 0 0 0 0 0 0)
    (* imm *) worker_count
    (* on_handle *) pool_on_handle
    (* consumes *) (fun o => match o with OpFinalize => true | _ => false end)
    (* client *) (fun o => match o with OpNew _ _ | OpWorker => false | _ => true end).

(** ** Specification: a bounded queue of tasks, a number of workers *)

Record pool_state := PoolState {
  queue : list task; shut : bool; workers : Z; owners : Z }.

Definition with_queue q a := PoolState q (shut a) (workers a) (owners a).
Definition shut_down a := PoolState (queue a) true (workers a) (owners a).
Definition with_workers n a := PoolState (queue a) (shut a) n (owners a).
Definition with_owners n a := PoolState (queue a) (shut a) (workers a) n.

Section spec.
Context (wc cap : Z).

(** A submission: queued (0), full (1), rejected (2) or, for a worker that
  would wait for itself, refused (3). *)
Definition submit_step (t : task) (block here : bool) (a a' : option pool_state)
  (result error : Z) : Prop :=
(result = 0 /\ exists s, a = Some s /\ shut s = false /\ Z.of_nat (length (queue s)) < cap /\
   a' = Some (with_queue (queue s ++ [t]) s)) \/
(result = 1 /\ block = false /\ a' = a /\
   exists s, a = Some s /\ shut s = false /\ Z.of_nat (length (queue s)) = cap) \/
(result = 2 /\ a' = a /\ (error <> 0 \/ exists s, a = Some s /\ shut s = true)) \/
(result = 3 /\ block = true /\ here = true /\ a' = a /\
   exists s, a = Some s /\ shut s = false /\ Z.of_nat (length (queue s)) = cap).

Definition pool_atomic (o : pool_op) (a : option pool_state) (r : pool_res)
  (a' : option pool_state) : Prop :=
match o, r with
| OpNew _ _, RHandle ok st => ok = (st =? 0) /\ a' = a
| OpShare, RHandle true st =>
    st = 0 /\ exists s, a = Some s /\ a' = Some (with_owners (owners s + 1) s)
| OpShare, RHandle false st => st <> 0 /\ a' = a
| OpTryExecute t here, RInt v e => submit_step t false here a a' v e
| OpExecute t here, RInt v e => submit_step t true here a a' v e
| OpClose, RVoid st =>
    (st <> 0 /\ a' = a) \/ (exists s, a = Some s /\ a' = Some (shut_down s))
| OpShutdown here, RInt v st =>
    a' = a /\
    ((v = -1 /\ st = 0 /\ here = true) \/
     (v = 0 /\ (st <> 0 \/ exists s, a = Some s /\ workers s = 0)))
| OpIsClosed, RInt v st =>
    a' = a /\ ((st <> 0 /\ v = 0) \/ (exists s, a = Some s /\ v = b2z (shut s)))
| OpWorkerCount, RCount v => v = wc /\ a' = a
| OpPendingCount, RInt v st =>
    a' = a /\ ((st <> 0 /\ v = 0) \/ (exists s, a = Some s /\ v = Z.of_nat (length (queue s))))
| OpFinalize, RUnit =>
    exists s, a = Some s /\
      let s' := with_owners (owners s - 1) s in
      a' = Some (if owners s =? 1 then shut_down s' else s')
| OpWorker, RUnit =>
    exists s, a = Some s /\ shut s = true /\ queue s = [] /\
      a' = Some (with_workers (workers s - 1) s)
| (OpTestFailAllocAfter _ | OpTestFailNextSubmit _ | OpTestFailNextShutdown _), RUnit => a' = a
| _, _ => False
end.

(** The constructor creates the pool and counts its workers, a worker takes the
  oldest task, [shutdown] closes the pool before it waits. *)
Definition pool_internal (o : pool_op) (a : option pool_state) (r : pool_res)
  (a' : option pool_state) : Prop :=
match o, r with
| OpNew _ _, RCreated => a = None /\ a' = Some (PoolState [] false 0 1)
| OpNew _ _, RStarted => exists s, a = Some s /\ a' = Some (with_workers (workers s + 1) s)
| OpNew _ _, RNotStarted => exists s, a = Some s /\ a' = Some (with_workers (workers s - 1) s)
| (OpNew _ _ | OpShutdown _), RClosed => exists s, a = Some s /\ a' = Some (shut_down s)
| OpWorker, RTaken t =>
    exists s q, a = Some s /\ queue s = t :: q /\ a' = Some (with_queue q s)
| _, _ => False
end.

(** [sync_thread_pool_new] reports a failed allocation, everything else the
  first failing status. *)
Definition pool_errok (o : pool_op) (r : pool_res) (e : option failure) : Prop :=
match o, e with
| OpNew _ _, Some OutOfMemory => r = RHandle false SYNC_THREAD_POOL_ALLOCATION_FAILED
| _, _ => reported (error_of r) e
end.

Definition pool_queue (s : pool_core) : list task :=
contents (tasks s) (capacity s) (head s) (length_ s).

Definition pool_abs (s : pool_core) : pool_state :=
PoolState (pool_queue s) (accepting s =? 0) (live_workers s) (handles s).

(** The lock invariant. *)
Record pool_inv (s : pool_core) : Prop := PoolInv {
pi_capacity : capacity s = cap;
pi_bound : cap <= SYNC_THREAD_POOL_MAX_CAPACITY;
pi_worker_count : worker_count s = wc;
pi_ring : ring_ok (tasks s) cap (head s) (tail s) (length_ s);
pi_live : 0 <= live_workers s;
pi_handles : 0 <= handles s <= INT32_MAX;
pi_last : handles s = 0 -> accepting s = 0;
}.

Definition pool_slack (q : pool_cond) (s : pool_core) : option Z :=
match q with
| NotEmpty => if accepting s =? 0 then None else Some (length_ s)
| NotFull => if accepting s =? 0 then None else Some (cap - length_ s)
| Stopped => if live_workers s =? 0 then None else Some 0
end.

(** What the constructor holds while it allocates. *)
Definition pool_linv (o : pool_op) (l : pool_loop) (v : view pool) (n : Z) (w : wt)
  (r : option pool_res) (e : option failure) : Prop :=
n = match l with LWorker => 1 | _ => 0 end /\ r = None /\ e = None /\
match l with
| LWorker => o = OpWorker /\ v = Out /\ w = (1, 0)
| LAlloc x _ =>
    o = OpNew wc cap /\ w = w0 /\ 0 < wc <= SYNC_THREAD_POOL_MAX_WORKER_COUNT /\
    0 < cap <= SYNC_THREAD_POOL_MAX_CAPACITY /\
    match x with
    | NewCore wc' cap' => wc' = wc /\ cap' = cap /\ exists s, v = Excl s [] 0 false
    | NewTasks wc' cap' =>
        wc' = wc /\ cap' = cap /\ v = Excl (zeroed pool_code) [RCore] 1 false
    end
end.

Definition pool_spec : spec pool :=
Spec pool
  (* abst *) pool_state
  (* inv *) pool_inv
  (* abs *) pool_abs
  (* cnt *) (fun s => (live_workers s, handles s))
  (* kw *) (fun _ => (0, 1))
  (* sw *) (fun _ => (1, 0))
  (* spawnable *) (fun o => match o with OpWorker => true | _ => false end)
  (* full *) [RCond Stopped; RCond NotFull; RCond NotEmpty; RMutex; RBuf; RCore]
  (* slack *) pool_slack
  (* atomic *) pool_atomic
  (* internal *) pool_internal
  (* errok *) pool_errok
  (* abortok *) (fun _ => False)
  (* linv *) pool_linv.
End spec.

(** ** Verification conditions *)

Section verification.
Context (wc cap : Z).

Abbreviation pwp := (wp pool_code (pool_spec wc cap)).
Abbreviation Inv := (pool_inv wc cap).

Lemma pool_inv_length s : Inv s -> 0 <= length_ s <= cap.
Proof. intros []. by destruct pi_ring0. Qed.

Lemma pool_queue_length s : Inv s -> Z.of_nat (length (pool_queue s)) = length_ s.
Proof. intros []. unfold pool_queue. rewrite pi_capacity0. by eapply contents_length. Qed.

Lemma pool_queue_nil s : Inv s -> length_ s = 0 -> pool_queue s = [].
Proof. intros Hi Hl. apply length_zero_iff_nil. pose proof (pool_queue_length s Hi). lia. Qed.

(** *** Changes of the fields that keep the invariant *)

Lemma pool_inv_closed s : Inv s -> Inv (set_accepting 0 s).
Proof. by intros []. Qed.

Lemma pool_inv_live n s : Inv s -> 0 <= n -> Inv (set_live_workers n s).
Proof. by intros []. Qed.

Lemma pool_inv_handles n s :
Inv s -> 0 <= n <= INT32_MAX -> (n = 0 -> accepting s = 0) -> Inv (set_handles n s).
Proof. by intros []. Qed.

Definition pushed (t : task) (s : pool_core) : pool_core :=
set_length (length_ s + 1) (set_tail ((tail s + 1) mod cap)
  (set_tasks (<[Z.to_nat (tail s) := Some t]> (tasks s)) s)).

Lemma pool_pushed_ok t s :
Inv s -> length_ s < cap ->
Inv (pushed t s) /\
pool_abs (pushed t s) = with_queue (pool_queue s ++ [t]) (pool_abs s) /\
0 <= tail s < Z.of_nat (length (tasks s)) /\ 0 <= tail s < cap.
Proof.
intros [Hc Hb Hw Hr Hl Hh Hz] Hlt. destruct (ring_push _ _ _ _ _ t Hr Hlt) as (Ht & Hr' & Hq).
pose proof (ro_len _ _ _ _ _ Hr). split_and!; try lia.
- by split.
- unfold pool_abs, pool_queue, with_queue, pushed. simpl. by rewrite Hc, Hq.
Qed.

Definition popped (s : pool_core) : pool_core :=
set_length (length_ s - 1) (set_head ((head s + 1) mod cap)
  (set_tasks (<[Z.to_nat (head s) := None]> (tasks s)) s)).

Lemma pool_popped_ok s :
Inv s -> 0 < length_ s ->
Inv (popped s) /\
(exists t, task_at s (head s) = Some t /\
  pool_queue s = t :: pool_queue (popped s) /\
  pool_abs (popped s) = with_queue (pool_queue (popped s)) (pool_abs s)) /\
0 <= head s < Z.of_nat (length (tasks s)) /\ 0 <= head s < cap.
Proof.
intros [Hc Hb Hw Hr Hl Hh Hz] Hlt. destruct (ring_pop _ _ _ _ _ Hr Hlt) as (t & Ht & Hr' & Hq).
pose proof (ro_len _ _ _ _ _ Hr). pose proof (ro_head _ _ _ _ _ Hr). split_and!; try lia.
- by split.
- exists t. unfold task_at. rewrite Ht. split; [done|]. split; [|done].
  unfold pool_queue, popped. simpl. by rewrite Hc.
Qed.

(** *** Wake-ups *)

Ltac slack_cases :=
repeat match goal with |- context [?x =? 0] => destruct (Z.eqb_spec x 0); simpl end.

Lemma pool_no_lost_push t s (cr : sC pool -> option Z) e :
length_ s < cap -> cr = cr0 \/ cr = woken (NotFull : sC pool) ->
no_lost (pool_spec wc cap) s (pushed t s) (set_cr cr NotEmpty (Z.add 1 <$> cr NotEmpty)) e.
Proof.
intros Hlt Hcr _ q. unfold slack_ok. destruct q, Hcr as [-> | ->]; cbn; slack_cases; try done.
all: eexists; split; [reflexivity|lia].
Qed.

Lemma pool_no_lost_pop s (cr : sC pool -> option Z) e :
0 < length_ s -> cr = cr0 \/ cr = woken (NotEmpty : sC pool) ->
no_lost (pool_spec wc cap) s (popped s) (set_cr cr NotFull (Z.add 1 <$> cr NotFull)) e.
Proof.
intros Hlt Hcr _ q. unfold slack_ok. destruct q, Hcr as [-> | ->]; cbn; slack_cases; try done.
all: eexists; split; [reflexivity|lia].
Qed.

(** Closing wakes the threads that wait for the queue. *)
Lemma pool_no_lost_close s s' e :
live_workers s' = live_workers s ->
no_lost (pool_spec wc cap) s s'
  (set_cr (set_cr cr0 NotEmpty None) (NotFull : sC pool) None) e.
Proof.
intros Hl _ q. unfold slack_ok. destruct q; cbn; try done. rewrite Hl. slack_cases; try done.
eexists; split; [reflexivity|lia].
Qed.

Lemma pool_no_lost_handles n s e : no_lost (pool_spec wc cap) s (set_handles n s) cr0 e.
Proof. apply (slack_ext (pool_spec wc cap)). by intros []. Qed.

Lemma pool_no_lost_started s e :
0 <= live_workers s ->
no_lost (pool_spec wc cap) s (set_live_workers (live_workers s + 1) s) cr0 e.
Proof.
intros Hl _ q. unfold slack_ok, cr0. destruct q; cbn; slack_cases; try done; try lia.
all: eexists; split; [reflexivity|lia].
Qed.

(** A worker leaves only a closed pool. *)
Lemma pool_no_lost_exit s n (cr : sC pool -> option Z) e :
accepting s = 0 ->
no_lost (pool_spec wc cap) s (set_live_workers n s) (set_cr cr Stopped None) e.
Proof. intros Ha _ q. unfold slack_ok, set_cr. destruct q; cbn; rewrite ?Ha; by case_match. Qed.

(** A woken thread that changes nothing, where nobody could wait any more. *)
Lemma pool_no_lost_keep q s e :
match pool_slack cap q s with Some z => z <= 0 | None => True end ->
no_lost (pool_spec wc cap) s s (woken (q : sC pool)) e.
Proof. by apply (no_lost_woken (pool_spec wc cap)). Qed.

(** *** Releasing the core *)

Lemma task_slot_ok s i :
Inv s -> Z.of_nat i < length_ s ->
exists slot t, task_slot s (Z.of_nat i) = Some slot /\ task_at s slot = Some t.
Proof.
intros [Hc Hb _ [Hp _ Hh Hn _ Hf _] _ _ _] Hi. destruct (Hf i Hi) as [t Ht].
exists (Z.of_nat (ring_at cap (head s) i)), t. unfold SYNC_THREAD_POOL_MAX_CAPACITY in *.
unfold task_slot, task_at. rewrite zget_nat, Ht, Hc, i32_some by z32. split; [|done]. simpl.
rewrite (proj2 (Z.eqb_neq _ _)), Z.rem_mod_nonneg by lia. unfold ring_at.
rewrite Z2Nat.id by (apply Z.mod_pos_bound; lia). done.
Qed.

Lemma wp_release_tasks (o : pool_op) s rs c b n w l e k : forall m i,
RCore ∈ rs -> Inv s -> Z.of_nat (i + m) <= length_ s ->
pwp o k (Excl s rs c b) n w l e ->
pwp o (release_tasks m (Z.of_nat i) k) (Excl s rs c b) n w l e.
Proof.
induction m as [|m IH]; intros i Hrs Hi Hm Hk; [done|]. cbn [release_tasks].
destruct (task_slot_ok s i Hi ltac:(lia)) as (slot & t & Hs & Ht).
eapply wp_access_excl; [done|by rewrite Hs; simpl; rewrite Ht|]. apply wp_emit.
replace (Z.of_nat i + 1) with (Z.of_nat (S i)) by lia. apply IH; [done|done|lia|done].
Qed.

(** Dropping the last reference a thread owns releases the core if no other
  thread owns one. *)
Lemma pool_wp_release (o : pool_op) k w l e :
w.1 = 0 -> pwp o k Gone 0 w0 l e ->
(forall s, pwp o k (Excl s [] 0 true) 0 w0 l e) ->
pwp o (sync_thread_pool_core_release k) Out 1 w l e.
Proof.
intros Hw Hk Hk'. unfold sync_thread_pool_core_release. unfold_native.
wp_run; try done. subst.
apply (wp_release_tasks o s _ _ _ _ _ _ _ _ _ 0%nat); [rsrc_solve|done| |].
- pose proof (pool_inv_length s ltac:(done)). lia.
- wp_run; try done; left; by destruct e.
Qed.

Lemma wp_release_more (o : pool_op) k n w l e :
n <> 1 -> w.1 <= n - 1 -> pwp o k Out (n - 1) w l e ->
pwp o (sync_thread_pool_core_release k) Out n w l e.
Proof. intros Hn Hw Hk. unfold sync_thread_pool_core_release. unfold_native. wp_run; done. Qed.

(** *** The operations *)

Ltac wp_access ::=
repeat match goal with
  | H : inv (pool_spec _ _) ?s |- _ =>
      lazymatch goal with
      | _ : 0 <= handles s <= INT32_MAX |- _ => fail
      | _ => pose proof (pi_handles _ _ _ H); pose proof (pi_live _ _ _ H)
      end
  | H : counted _ _ _ |- _ => destruct H as [[? ?] ?]; simpl in *
  end;
unfold MAX_REFS in *; cbn; rewrite ?i32_some by z32; reflexivity.

Ltac pool_unfold :=
unfold pool_body, sync_thread_pool_share, sync_thread_pool_try_execute,
  sync_thread_pool_execute, sync_thread_pool_close, sync_thread_pool_shutdown,
  sync_thread_pool_is_closed, sync_thread_pool_worker_count,
  sync_thread_pool_pending_count, sync_thread_pool_finalize,
  sync_thread_pool_test_fail_alloc_after, sync_thread_pool_test_fail_next_submit,
  sync_thread_pool_test_fail_next_shutdown, sync_thread_pool_wrap, broadcast_or_abort;
unfold_native; unfold_native.

Lemma pool_sleep_full b s :
Inv s -> b && negb (accepting s =? 0) && (length_ s =? capacity s) = true ->
pool_slack cap NotFull s = Some 0.
Proof.
intros Hi H. unfold pool_slack. rewrite (pi_capacity _ _ _ Hi) in H.
destruct b, (accepting s =? 0), (Z.eqb_spec (length_ s) cap); try done. simpl. f_equal. lia.
Qed.

Lemma pool_sleep_stopped s :
negb (live_workers s =? 0) = true -> pool_slack cap Stopped s = Some 0.
Proof. unfold pool_slack. by destruct (live_workers s =? 0). Qed.

Lemma pool_lost_closed s e :
accepting s = 0 -> no_lost (pool_spec wc cap) s s (woken (NotFull : sC pool)) e.
Proof. intros H. apply pool_no_lost_keep. simpl. by rewrite H. Qed.

Lemma pool_lost_stopped s e : no_lost (pool_spec wc cap) s s (woken (Stopped : sC pool)) e.
Proof. apply pool_no_lost_keep. simpl. by destruct (live_workers s =? 0). Qed.

Lemma pool_queue_some s n :
Inv s -> length_ s = n -> exists a, Some (pool_abs s) = Some a /\ n = Z.of_nat (length (queue a)).
Proof. intros Hi <-. eexists. split; [done|]. simpl. by rewrite pool_queue_length. Qed.

#[local] Hint Resolve pool_inv_closed pool_no_lost_handles pool_no_lost_close
pool_sleep_full pool_sleep_stopped pool_lost_closed pool_lost_stopped pool_queue_some : wpdb.

Ltac pool_done :=
repeat match goal with
| |- forall s, _ -> _ = true -> may_sleep _ _ _ _ _ _ => intros ???
| |- _ = true -> may_sleep _ _ _ _ _ _ => intros ?
| |- may_sleep _ _ _ _ (woken _) _ => apply may_sleep_again; [done|eauto with wpdb]
| |- may_sleep _ _ _ _ cr0 _ => apply may_sleep_first; [done|eauto with wpdb]
| |- inv _ _ => solve [cbn; auto with wpdb]
| |- no_lost _ _ _ _ _ => solve [auto with wpdb]
| |- ?a = ?a /\ _ => split; [reflexivity|]
| |- (_ <> 0 /\ _) \/ _ => left; solve [repeat split; eauto with wpdb]
| |- (_ <> 0 /\ _) \/ _ => right; solve [eauto with wpdb]
| |- ?G =>
    lazymatch G with
    | wp _ _ _ _ _ _ _ _ _ => fail
    | forall x : Z, @ex _ (@?P x) => fail
    | _ => solve [done | eauto with wpdb]
    end
end.

Ltac pool_solve := pool_unfold; wp_run; try wp_commit; pool_done.

Lemma pool_wp_share : pwp OpShare (pool_body OpShare) Out 1 (0, 1) None None.
Proof.
pool_solve.
- split; [|done]. destruct (Z.eqb_spec (record_error 0 st) 0); [done|lia].
- pose proof (pi_handles _ _ _ H). apply pool_inv_handles; [done|z32|z32].
Qed.

Lemma pool_wp_is_closed : pwp OpIsClosed (pool_body OpIsClosed) Out 1 (0, 1) None None.
Proof. pool_solve. Qed.

Lemma pool_wp_pending : pwp OpPendingCount (pool_body OpPendingCount) Out 1 (0, 1) None None.
Proof. pool_solve. Qed.

Lemma pool_wp_count : pwp OpWorkerCount (pool_body OpWorkerCount) Out 1 (0, 1) None None.
Proof. pool_solve. split; [|done]. by destruct H. Qed.

(** Closing the pool. *)
Lemma wp_close_core (o : pool_op) k n w l e :
wle w0 w -> w.1 <= n ->
(forall st, st <> 0 -> pwp o (k st) Out n w l (note_st e st)) ->
(forall a st, exists l', commit (pool_spec wc cap) o (Some a) (Some (shut_down a)) l l' /\
   pwp o (k st) Out n w l' (note_st e st)) ->
pwp o (sync_thread_pool_close_core k) Out n w l e.
Proof.
intros Hw Hn Hko Hk. unfold sync_thread_pool_close_core. unfold_native.
assert (forall s cr st1, Inv s ->
  (st1 = 0 -> no_lost (pool_spec wc cap) s (set_accepting 0 s) cr e) ->
  pwp o (Unlock (fun st => k (record_error st1 st))) (In s (set_accepting 0 s) cr) n w l
    (note_st e st1)) as Hunlock.
{ intros s cr st1 Hi Hlost.
  assert (wsub (wadd w (cnt (pool_spec wc cap) (set_accepting 0 s))) (cnt (pool_spec wc cap) s) = w)
    as Hwt by apply wadd_sub.
  apply wp_unlock; rewrite ?Hwt; try done.
  - by apply pool_inv_closed.
  - destruct (Z.eqb_spec st1 0) as [->|]; [by apply Hlost|by apply no_lost_note_st].
  - intros st. rewrite note_st_note_st. apply (Hk (pool_abs s)). }
apply wp_lock.
{ intros st Hst. rewrite note_of_st, (proj2 (Z.eqb_neq _ _) Hst) by done. cbn [negb]. auto. }
intros s Hi Hc. eapply wp_access_in; [reflexivity|reflexivity|].
apply wp_broadcast_in; [|intros st Hst; rewrite note_of_st by done];
  apply wp_broadcast_in; try (intros st' Hst'; rewrite note_of_st by done);
  rewrite ?note_st_note_st, ?record_error_0, ?record_error_r0; apply Hunlock; try done; try (by intros ->).
- intros _. by apply pool_no_lost_close.
- by intros [-> _]%record_error_zero.
Qed.

Lemma pool_wp_close : pwp OpClose (pool_body OpClose) Out 1 (0, 1) None None.
Proof.
pool_unfold. apply wp_close_core; [wt_solve|simpl; lia| |].
- intros st Hst. wp_run. by left.
- intros a st. apply (unlock_commit (Σ:=pool_spec wc cap) _ _ _ _ _ _ _ _ (RVoid st)); [by wp_run|].
  right. eauto.
Qed.

(** [shutdown] commits to its result when it releases the mutex for the last time. *)
Lemma wp_shutdown_finish here s (cr : sC pool -> option Z) st0 e :
Inv s -> e = note_st None st0 -> (st0 = 0 -> live_workers s = 0) ->
(st0 = 0 -> no_lost (pool_spec wc cap) s s cr None) ->
pwp (OpShutdown here) (Unlock (fun st => Ret (RInt 0 (record_error st0 st)))) (In s s cr)
  1 (0, 1) None e.
Proof.
intros Hi -> Hl Hlost. assert (wsub (wadd (0, 1) (cnt (pool_spec wc cap) s))
  (cnt (pool_spec wc cap) s) = (0, 1)) as Hw by apply wadd_sub.
apply wp_unlock; rewrite ?Hw; try done.
- destruct (Z.eqb_spec st0 0) as [->|]; [by apply Hlost|by apply no_lost_note_st].
- intros st. apply (unlock_commit (Σ:=pool_spec wc cap) _ _ _ _ _ _ _ _
    (RInt 0 (record_error st0 st))).
  + rewrite note_st_note_st. apply wp_ret_out; [done|done|by left|cbn].
    unfold note_st. destruct (Z.eqb_spec (record_error st0 st) 0); done.
  + split; [done|]. right. split; [done|].
    destruct (Z.eqb_spec (record_error st0 st) 0) as [[Hz _]%record_error_zero|]; [right|by left].
    eexists. split; [done|]. simpl. auto.
Qed.

Lemma pool_wp_shutdown here :
pwp (OpShutdown here) (pool_body (OpShutdown here)) Out 1 (0, 1) None None.
Proof.
pool_unfold. wp_run; pool_done.
apply wp_close_core; [wt_solve|simpl; lia| |].
- intros st Hst. wp_run. all: split; [done|]; right; auto.
- intros a st. apply (unlock_internal (Σ:=pool_spec wc cap) _ _ _ _ _ _ _ _ _ RClosed).
  { cbn. eauto. }
  unfold note_st. wp_to_unlock; pool_done.
  all: rewrite ?record_error_0; apply wp_shutdown_finish; try done.
  all: try (by rewrite note_of_st).
  all: intros _; first [apply no_lost_refl | apply pool_lost_stopped |
    match goal with H : negb (_ =? 0) = false |- _ => by apply negb_false_iff, Z.eqb_eq in H end].
Qed.

(** *** The finalizer *)

Lemma wp_finalize_finish a a' w st :
w.1 = 0 -> pool_atomic wc cap OpFinalize a RUnit a' ->
exists l', commit (pool_spec wc cap) OpFinalize a a' None l' /\
  pwp OpFinalize (if st =? 0 then sync_thread_pool_core_release (Ret RUnit) else Abort) Out 1 w l'
    (note_st None st).
Proof.
intros Hw Ha. apply (unlock_commit (Σ:=pool_spec wc cap) _ _ _ _ _ _ _ _ RUnit); [|done].
unfold note_st. destruct (Z.eqb_spec st 0) as [->|Hst]; [|by apply wp_abort; left].
apply pool_wp_release; [done| |]; intros; wp_run.
Qed.

Lemma pool_wp_finalize : pwp OpFinalize (pool_body OpFinalize) Out 1 (0, 1) None None.
Proof.
pool_unfold. wp_run; pool_done.
all: match goal with H : counted _ _ _ |- _ => destruct H as [[_ Hh] _]; simpl in Hh end.
- lia.
- destruct H. split; simpl; try done; lia.
- intros st. apply wp_finalize_finish; [simpl; lia|]. eexists. split; [done|].
  simpl in *. replace (handles s) with 1 by lia. done.
- apply pool_inv_handles; [done|destruct H; lia|done].
- intros st. apply wp_finalize_finish; [simpl; lia|]. eexists. split; [done|].
  simpl in *. by rewrite (proj2 (Z.eqb_neq (handles s) 1)) by lia.
Qed.

(** *** Submitting a task *)

Definition execute_op (t : task) (block here : bool) : pool_op :=
if block then OpExecute t here else OpTryExecute t here.

Lemma pool_submit_atomic t block here a r e a' :
submit_step cap t block here a a' r e ->
pool_atomic wc cap (execute_op t block here) a (RInt r e) a'.
Proof. by destruct block. Qed.

Lemma pool_submit_back t block here :
1 = back pool_code (execute_op t block here) /\
(0, 1) = backw pool_code (pool_spec wc cap) (execute_op t block here).
Proof. by destruct block. Qed.

Lemma pool_submit_reported t block here v st e :
e = note_st None st -> errok (pool_spec wc cap) (execute_op t block here) (RInt v st) e.
Proof. intros ->. unfold note_st. by destruct block, (Z.eqb_spec st 0). Qed.

(** The end of a submission that has failed with [st0] or not. *)
Lemma pool_wp_reject t block here s (cr : sC pool -> option Z) r st0 e :
Inv s -> e = note_st None st0 -> (st0 = 0 -> no_lost (pool_spec wc cap) s s cr None) ->
(forall st, (st0 <> 0 -> st <> 0) ->
   submit_step cap t block here (Some (pool_abs s)) (Some (pool_abs s)) r st) ->
pwp (execute_op t block here) (reject t r st0) (In s s cr) 1 (0, 1) None e.
Proof.
intros Hi -> Hlost Ha. unfold reject. unfold_native.
assert (wsub (wadd (0, 1) (cnt (pool_spec wc cap) s))
  (cnt (pool_spec wc cap) s) = (0, 1)) as Hw by apply wadd_sub.
apply wp_unlock; rewrite ?Hw; try done.
- destruct (Z.eqb_spec st0 0) as [->|]; [by apply Hlost|by apply no_lost_note_st].
- intros st. apply (unlock_commit (Σ:=pool_spec wc cap) _ _ _ _ _ _ _ _
    (RInt r (record_error st0 st))).
  + rewrite note_st_note_st. apply wp_emit, wp_ret_out; [apply pool_submit_back..|by left|].
    by apply pool_submit_reported.
  + apply pool_submit_atomic, Ha. auto with wpdb.
Qed.

Lemma wp_enqueue_task t block here s (cr : sC pool -> option Z) :
Inv s -> accepting s <> 0 -> length_ s < cap -> cr = cr0 \/ cr = woken (NotFull : sC pool) ->
pwp (execute_op t block here) (enqueue t 0) (In s s cr) 1 (0, 1) None None.
Proof.
intros Hi Hop Hlt Hcr. destruct (pool_pushed_ok t s Hi Hlt) as (Hi' & Habs & Ht & Ht').
pose proof (pool_inv_length s Hi). pose proof (pi_capacity _ _ _ Hi) as Hc.
pose proof (ro_cap _ _ _ _ _ (pi_ring _ _ _ Hi)).
unfold enqueue. unfold_native.
eapply wp_access_in; [by rewrite zset_some by done|done|].
eapply wp_access_in; [cbn; by rewrite Hc, ring_next_ok by lia|done|].
eapply wp_access_in; [cbn; by rewrite i32_some by z32|done|].
change (set_length _ _) with (pushed t s).
assert (forall cr st0,
  (st0 = 0 -> no_lost (pool_spec wc cap) s (pushed t s) cr None) ->
  pwp (execute_op t block here) (Unlock (fun st => Ret (RInt 0 (record_error st0 st))))
    (In s (pushed t s) cr) 1 (0, 1) None (note_st None st0)) as Hunlock.
{ intros cr' st0 Hlost.
  assert (wsub (wadd (0, 1) (cnt (pool_spec wc cap) (pushed t s)))
    (cnt (pool_spec wc cap) s) = (0, 1)) as Hw by apply wadd_sub.
  apply wp_unlock; rewrite ?Hw; try done.
  - destruct (Z.eqb_spec st0 0) as [->|]; [by apply Hlost|by apply no_lost_note_st].
  - intros st. apply (unlock_commit (Σ:=pool_spec wc cap) _ _ _ _ _ _ _ _
      (RInt 0 (record_error st0 st))).
    + rewrite note_st_note_st. apply wp_ret_out; [apply pool_submit_back..|by left|].
      by apply pool_submit_reported.
    + apply pool_submit_atomic. left. split; [done|]. exists (pool_abs s). cbn [abs pool_spec].
      rewrite Habs. split_and!; try done; simpl; [by apply Z.eqb_neq|].
      by rewrite pool_queue_length. }
wp_to_unlock; rewrite ?record_error_0, ?note_of_st by done; apply Hunlock; try done.
intros _. by apply pool_no_lost_push.
Qed.

Lemma pool_submit_failed t block here a st : st <> 0 -> submit_step cap t block here a a 2 st.
Proof. intros H. right. right. left. auto. Qed.

Lemma pool_submit_closed t block here s st :
accepting s = 0 -> submit_step cap t block here (Some (pool_abs s)) (Some (pool_abs s)) 2 st.
Proof.
intros H. right. right. left. repeat split; try done. right. eexists. split; [done|].
by apply Z.eqb_eq.
Qed.

Lemma pool_full s :
Inv s -> accepting s <> 0 -> length_ s = capacity s ->
exists a, Some (pool_abs s) = Some a /\ shut a = false /\ Z.of_nat (length (queue a)) = cap.
Proof.
intros Hi Ha Hl. eexists. split; [done|]. split; [by apply Z.eqb_neq|]. simpl.
by rewrite pool_queue_length, Hl, (pi_capacity _ _ _ Hi).
Qed.

Lemma pool_submit_full t block here s st :
Inv s -> accepting s <> 0 -> length_ s = capacity s ->
block && negb (accepting s =? 0) && (length_ s =? capacity s) = false ->
submit_step cap t block here (Some (pool_abs s)) (Some (pool_abs s)) 1 st.
Proof.
intros Hi Ha Hl Hb. right. left. split; [done|]. split; [|split; [done|by apply pool_full]].
rewrite (proj2 (Z.eqb_neq _ _) Ha), (proj2 (Z.eqb_eq _ _) Hl) in Hb. by destruct block.
Qed.

Lemma pool_submit_self t block here s st :
Inv s -> block && negb (accepting s =? 0) && here && (length_ s =? capacity s) = true ->
submit_step cap t block here (Some (pool_abs s)) (Some (pool_abs s)) 3 st.
Proof.
intros Hi. rewrite !andb_true_iff, negb_true_iff, Z.eqb_eq, Z.eqb_neq.
intros [[[-> Ha] ->] Hl]. do 3 right. repeat split; try done. by apply pool_full.
Qed.

Lemma pool_room s : Inv s -> length_ s <> capacity s -> length_ s < cap.
Proof. intros Hi. rewrite (pi_capacity _ _ _ Hi). pose proof (pool_inv_length s Hi). lia. Qed.

Lemma pool_lost_full s e :
Inv s -> length_ s = capacity s ->
no_lost (pool_spec wc cap) s s (woken (NotFull : sC pool)) e.
Proof.
intros Hi Hl. apply pool_no_lost_keep. simpl. rewrite (pi_capacity _ _ _ Hi) in Hl.
destruct (accepting s =? 0); [done|lia].
Qed.

#[local] Hint Resolve pool_submit_failed pool_submit_closed pool_submit_full pool_submit_self
pool_room pool_lost_full no_lost_refl : wpdb.

Lemma pool_wp_submit t block here :
pwp (execute_op t block here) (sync_thread_pool_submit_task t block here) Out 1 (0, 1) None None.
Proof.
unfold sync_thread_pool_submit_task. unfold_native.
repeat lazymatch goal with
  | |- wp _ _ _ (reject _ _ _) _ _ _ _ _ =>
      rewrite ?record_error_0; apply pool_wp_reject;
        [done|by rewrite ?note_of_st|intros; try done; eauto with wpdb..]
  | |- wp _ _ _ (enqueue _ _) _ _ _ _ _ => apply wp_enqueue_task; eauto with wpdb
  | |- _ = back _ _ => apply pool_submit_back
  | |- _ = backw _ _ _ => apply pool_submit_back
  | |- pool_atomic _ _ _ _ _ _ => apply pool_submit_atomic; eauto with wpdb
  | |- errok _ _ _ _ =>
      first [apply pool_submit_reported; by rewrite note_of_st | by destruct block]
  | _ => first [wp_step | wp_side]
  end; pool_done.
Qed.

(** *** Workers *)

(** A worker takes the oldest task, runs it and goes round again. *)
Lemma wp_take_task s (cr : sC pool -> option Z) :
Inv s -> length_ s <> 0 -> cr = cr0 \/ cr = woken (NotEmpty : sC pool) ->
pwp OpWorker (worker_take) (In s s cr) 1 (1, 0) None None.
Proof.
intros Hi Hl Hcr. pose proof (pool_inv_length s Hi). pose proof (pi_capacity _ _ _ Hi) as Hc.
pose proof (ro_cap _ _ _ _ _ (pi_ring _ _ _ Hi)).
destruct (pool_popped_ok s Hi ltac:(lia)) as (Hi' & (t & Ht & Hq & Habs) & Hh & Hh').
unfold worker_take. unfold_native. unfold_native.
eapply wp_access_in; [by rewrite Ht|done|]. rewrite Ht.
eapply wp_access_in; [by rewrite zset_some by done|done|].
eapply wp_access_in; [cbn; by rewrite Hc, ring_next_ok by lia|done|].
eapply wp_access_in; [cbn; by rewrite i32_some by z32|done|].
change (set_length _ _) with (popped s).
wp_run; try done.
- apply pool_no_lost_pop; [lia|done].
- intros st. apply (unlock_internal (Σ:=pool_spec wc cap) _ _ _ _ _ _ _ _ _ (RTaken t)).
  { exists (pool_abs s), (pool_queue (popped s)). split; [done|]. split; [done|].
    cbn [abs pool_spec]. by rewrite Habs. }
  assert (wsub (wadd (1, 0) (cnt (pool_spec wc cap) (popped s)))
    (cnt (pool_spec wc cap) s) = (1, 0)) as -> by apply wadd_sub.
  unfold note_st. destruct (Z.eqb_spec st 0) as [->|]; [|by apply wp_abort; left].
  by do 2 apply wp_emit.
Qed.

(** A worker leaves a closed pool once the queue is empty. *)
Lemma wp_worker_exit s (cr : sC pool -> option Z) :
Inv s -> counted (pool_spec wc cap) (1, 0) s -> length_ s = 0 -> accepting s = 0 ->
pwp OpWorker worker_exit (In s s cr) 1 (1, 0) None None.
Proof.
intros Hi Hcnt Hl Ha. pose proof Hcnt as [[Hlive _] _]. simpl in Hlive.
unfold worker_exit, broadcast_or_abort. unfold_native. unfold_native. wp_run.
- apply pool_inv_live; [done|lia].
- by apply pool_no_lost_exit.
- intros st. apply (unlock_commit (Σ:=pool_spec wc cap) _ _ _ _ _ _ _ _ RUnit).
  + unfold note_st. destruct (Z.eqb_spec st 0); [|by apply wp_abort; left].
    apply pool_wp_release; [simpl; lia| |]; intros; wp_run.
  + eexists. split; [done|]. simpl. rewrite Ha, pool_queue_nil by done. done.
Qed.

Lemma pool_sleep_empty s :
(length_ s =? 0) && negb (accepting s =? 0) = true -> pool_slack cap NotEmpty s = Some 0.
Proof.
unfold pool_slack. destruct (Z.eqb_spec (length_ s) 0) as [E|]; [|done].
destruct (accepting s =? 0); [done|]. by rewrite E.
Qed.

Lemma pool_drained s :
(length_ s =? 0) && negb (accepting s =? 0) = false -> length_ s = 0 -> accepting s = 0.
Proof. intros H Hl. rewrite Hl in H. simpl in H. by apply negb_false_iff, Z.eqb_eq in H. Qed.

#[local] Hint Resolve pool_sleep_empty pool_drained : wpdb.

Lemma pool_wp_worker : pwp OpWorker worker_round Out 1 (1, 0) None None.
Proof.
unfold worker_round. unfold_native. unfold_native.
repeat lazymatch goal with
  | |- wp _ _ _ worker_take _ _ _ _ _ => apply wp_take_task; auto
  | |- wp _ _ _ worker_exit _ _ _ _ _ => apply wp_worker_exit; auto with wpdb
  | _ => first [wp_step | wp_side]
  end; pool_done.
Qed.

(** *** The constructor *)

(** Releasing the mutex without having changed anything. *)
Lemma wp_unlock_same (o : pool_op) k s n w l e :
(e = None -> pwp o k Out n w l None) -> (e <> None -> pwp o k Out n w l e) ->
forall st, exists l', commit (pool_spec wc cap) o (Some (pool_abs s)) (Some (pool_abs s)) l l' /\
  pwp o (if st =? 0 then k else Abort) Out n
    (wsub (wadd w (cnt (pool_spec wc cap) s)) (cnt (pool_spec wc cap) s)) l' (note_st e st).
Proof.
intros Hk Hk' st. apply unlock_keep; [done|]. rewrite wadd_sub. unfold note_st.
destruct (Z.eqb_spec st 0); [destruct e; auto; by apply Hk'|].
apply wp_abort. left. by destruct e.
Qed.

Lemma wp_wait_workers (o : pool_op) k n w l e :
wle w0 w -> w.1 <= n -> e <> None -> pwp o k Out n w l e ->
pwp o (sync_thread_pool_wait_workers_or_abort k) Out n w l e.
Proof.
intros Hw Hn He Hk. unfold sync_thread_pool_wait_workers_or_abort. unfold_native. unfold_native.
wp_run; pool_done.
all: try (left; by destruct e).
all: apply wp_unlock_same; [done|auto].
Qed.

Abbreviation ctor := (OpNew wc cap).

(** The constructor returns a pool exactly when its status is 0. *)
#[local] Ltac new_done :=
  first [done | split; [symmetry; by apply Z.eqb_neq|done] | idtac].

Lemma wp_not_started st :
st <> 0 -> pwp ctor (not_started st) Out 2 (1, 1) None (Some (OsFail st)).
Proof.
intros Hst. unfold not_started. unfold_native. unfold_native. wp_run.
{ destruct H0 as [[? _] _]. simpl in *. apply pool_inv_live; [done|lia]. }
intros st1. apply (unlock_internal (Σ:=pool_spec wc cap) _ _ _ _ _ _ _ _ _ RNotStarted); [cbn; eauto|].
unfold note_st at 1. destruct (Z.eqb_spec st1 0); [|by apply wp_abort; left].
apply wp_release_more; [done|simpl; lia|].
assert (forall st', pwp ctor (abort_if_failed st'
  (sync_thread_pool_wait_workers_or_abort
     (sync_thread_pool_core_release (Ret (RHandle false st))))) Out 1 (0, 1) None
  (note_st (Some (OsFail st)) st')) as Hk.
{ intros st'. unfold abort_if_failed, note_st. destruct (Z.eqb_spec st' 0); [|by apply wp_abort; left].
  apply wp_wait_workers; [wt_solve|simpl; lia|done|].
  apply pool_wp_release; [done| |]; intros; wp_run; new_done. }
unfold sync_thread_pool_close_core_or_abort. apply wp_close_core; [wt_solve|simpl; lia| |].
- intros st' _. replace (wsub _ _) with (0, 1) by wt_solve. apply Hk.
- intros a st'. apply (unlock_internal (Σ:=pool_spec wc cap) _ _ _ _ _ _ _ _ _ RClosed); [cbn; eauto|].
  replace (wsub _ _) with (0, 1) by wt_solve. apply Hk.
Qed.

(** A worker is counted, then started. *)
Lemma wp_start_one k :
pwp ctor k Out 1 (0, 1) None None ->
pwp ctor
  (lock_or_abort
     (Write (fun core => n ← i32 (live_workers core + 1); Some (set_live_workers n core))
     (unlock_or_abort
     (Spawn OpWorker (fun create_status =>
      if negb (create_status =? 0) then not_started create_status
      else OsCall (fun st => abort_if_failed st k)))))) Out 2 (0, 1) None None.
Proof.
intros Hk. unfold_native. unfold_native. wp_run.
- pose proof (pi_live _ _ _ H). apply pool_inv_live; [done|lia].
- apply pool_no_lost_started. apply (pi_live _ _ _ H).
- intros st. apply (unlock_internal (Σ:=pool_spec wc cap) _ _ _ _ _ _ _ _ _ RStarted); [cbn; eauto|].
  replace (wsub _ _) with (1, 1) by wt_solve.
  unfold note_st. destruct (Z.eqb_spec st 0); [|by apply wp_abort; left].
  wp_run; try done. by apply wp_not_started.
Qed.

Lemma wp_start_workers n k :
pwp ctor k Out 1 (0, 1) None None -> pwp ctor (start_workers n k) Out 1 (0, 1) None None.
Proof.
intros Hk. induction n as [|n IH]; [done|]. cbn [start_workers].
apply wp_refinc_out. by apply wp_start_one.
Qed.

(** The pool as it is first shared. *)
Definition new_pool : pool_core :=
PoolCore (replicate (Z.to_nat cap) None) cap 0 0 0 wc 0 1 1.

Lemma new_pool_inv : 0 < cap <= SYNC_THREAD_POOL_MAX_CAPACITY -> Inv new_pool.
Proof.
intros H. split; simpl; try done; try z32; try lia.
apply ring_empty. unfold SYNC_THREAD_POOL_MAX_CAPACITY in *. z32.
Qed.

Lemma wp_first_worker n k :
0 < cap <= SYNC_THREAD_POOL_MAX_CAPACITY -> pwp ctor k Out 1 (0, 1) None None ->
pwp ctor (start_workers (S n) k)
  (Excl new_pool [RCond Stopped; RCond NotFull; RCond NotEmpty; RMutex; RBuf; RCore] 1 false)
  0 w0 None None.
Proof.
intros Hc Hk. cbn [start_workers]. apply (wp_refinc_internal (Σ:=pool_spec wc cap) _ _ _ _ _ _ RCreated);
  try done.
- by apply new_pool_inv.
- apply wp_start_one. by apply wp_start_workers.
Qed.

Lemma wp_new_core :
0 < wc -> 0 < cap <= SYNC_THREAD_POOL_MAX_CAPACITY ->
pwp ctor (new_core wc cap) (Excl (zeroed pool_code) [RBuf; RCore] 1 false) 0 w0 None None.
Proof.
intros Hw Hc. unfold new_core, sync_thread_pool_wrap. unfold_native. unfold_native.
destruct (Z.to_nat wc) as [|n] eqn:Hn; [lia|].
repeat lazymatch goal with
  | |- wp _ _ _ (start_workers _ _) _ _ _ _ _ =>
      apply wp_first_worker; [done|]
  | _ => first [wp_step | wp_side]
  end; new_done.
Qed.

(** Each allocation, once the hook has decided whether it fails. *)
Lemma wp_after_hook x current v b :
pool_linv wc cap ctor (LAlloc x current) v 0 w0 None None ->
pwp ctor (after_hook x b) v 0 w0 None None.
Proof.
intros (_ & _ & _ & _ & _ & Hw & Hc & Hx).
destruct x as [wc' cap'|wc' cap']; [destruct Hx as (-> & -> & s & ->)|destruct Hx as (-> & -> & ->)];
  unfold after_hook, sync_thread_pool_test_should_fail_alloc; unfold_native.
all: repeat lazymatch goal with
  | |- wp _ _ _ (new_core _ _) _ _ _ _ _ => apply wp_new_core; [lia|done]
  | |- wp _ _ _ (Jump _) _ _ _ _ _ => by repeat split
  | _ => first [wp_step | wp_side]
  end; try done.
Qed.

Lemma wp_should_fail x current v :
pool_linv wc cap ctor (LAlloc x current) v 0 w0 None None ->
pwp ctor (should_fail_round x current (after_hook x)) v 0 w0 None None.
Proof.
intros Hl. assert (forall b, pwp ctor (after_hook x b) v 0 w0 None None) as Hk
  by (intros; by eapply wp_after_hook).
unfold should_fail_round. unfold_native.
repeat lazymatch goal with
  | |- wp _ _ _ (after_hook _ _) _ _ _ _ _ => apply Hk
  | |- wp _ _ _ (Jump _) _ _ _ _ _ => exact Hl
  | _ => wp_step
  end.
Qed.

Lemma pool_wp_new s : pwp ctor (pool_body ctor) (Excl s [] 0 false) 0 w0 None None.
Proof.
cbn [pool_body]. unfold sync_thread_pool_new, sync_thread_pool_test_should_fail_alloc. unfold_native.
wp_test ((wc <=? 0) || (SYNC_THREAD_POOL_MAX_WORKER_COUNT <? wc) ||
   (cap <=? 0) || (SYNC_THREAD_POOL_MAX_CAPACITY <? cap) || (SIZE_MAX / 8 <? cap)).
- wp_run. done.
- rewrite !orb_false_iff in Htest. wp_step. intros. repeat split; try lia. eauto.
Qed.

Lemma pool_wp_hook o : pool_on_handle o = None -> client pool_code o = true ->
pwp o (pool_body o) Gone 0 w0 None None.
Proof. destruct o; try done; intros _ _; pool_unfold; wp_run; done. Qed.

Lemma pool_verified : verified pool_code (pool_spec wc cap) ctor.
Proof.
split; cbn -[wp].
- by intros [].
- intros o d _ Hd. destruct o; cbn in Hd; simplify_eq;
    auto using pool_wp_share, pool_wp_close, pool_wp_shutdown, pool_wp_is_closed,
      pool_wp_count, pool_wp_pending, pool_wp_finalize.
  + apply (pool_wp_submit t false here).
  + apply (pool_wp_submit t true here).
- intros o ??. by apply pool_wp_hook.
- intros o Ho. destruct o; try done. split; [done|]. split; [done|]. apply pool_wp_worker.
- intros o lb v n w l e (-> & -> & -> & H). destruct lb as [x current|].
  + destruct H as (-> & -> & H). apply wp_should_fail. by repeat split; try apply H.
  + destruct H as (-> & -> & ->). apply pool_wp_worker.
- apply pool_wp_new.
- split_and!; [set_solver..|]. intros []; set_solver.
Qed.
End verification.

(** ** Order of tasks *)

(** The task an entry of the linearisation puts into the queue, and the task a
    worker takes out. *)
Definition accepted_by (e : entry pool) : list task :=
  match en_op e, en_res e with
  | (OpExecute t _ | OpTryExecute t _), RInt 0 _ => [t]
  | _, _ => []
  end.

Definition taken_by (e : entry pool) : list task :=
  match en_res e with RTaken t => [t] | _ => [] end.

Definition accepted (log : list (entry pool)) : list task := log ≫= accepted_by.
Definition taken (log : list (entry pool)) : list task := log ≫= taken_by.

Definition queue_of (a : option pool_state) : list task :=
  match a with Some s => queue s | None => [] end.

Ltac pool_trans :=
  repeat match goal with
    | H : _ /\ _ |- _ => destruct H
    | H : exists _, _ |- _ => destruct H
    | H : _ \/ _ |- _ => destruct H
    end; simplify_eq/=.

Lemma pool_atomic_queue wc cap t o a r a' b :
  pool_atomic wc cap o a r a' ->
  queue_of a ++ accepted_by (Entry t o r b) = taken_by (Entry t o r b) ++ queue_of a'.
Proof.
  intros H. unfold accepted_by, taken_by. simpl.
  destruct o, r; simpl in H; try done; unfold submit_step in H; try (destruct ok);
    pool_trans; rewrite ?app_nil_r; try done; repeat case_match; try done; congruence.
Qed.

Lemma pool_internal_queue t o a r a' b :
  pool_internal o a r a' ->
  queue_of a ++ accepted_by (Entry t o r b) = taken_by (Entry t o r b) ++ queue_of a'.
Proof.
  intros H. unfold accepted_by, taken_by. simpl.
  destruct o, r; simpl in H; try done; pool_trans; by rewrite ?app_nil_r.
Qed.

Lemma pool_fifo_log wc cap o0 tr log a P :
  aexec (pool_spec wc cap) o0 tr log a P -> accepted log = taken log ++ queue_of a.
Proof.
  induction 1 as [|tr log a P t o H IH HP|tr log a a' P t o r H IH HP Ha|
                  tr log a a' P t o l r H IH HP Hi|tr log a P t o r H IH HP]; try done.
  all: unfold accepted, taken in *; rewrite !bind_app; simpl; rewrite !app_nil_r, IH, <- !app_assoc;
    f_equal.
  - exact (pool_atomic_queue wc cap t o a r a' true Ha).
  - exact (pool_internal_queue t o a r a' false Hi).
Qed.

(** *** Once a worker has left, the pool is closed and drained for good *)

Definition drained (a : option pool_state) : Prop :=
  exists s, a = Some s /\ shut s = true /\ queue s = [].

Lemma pool_atomic_drained wc cap o a r a' :
  pool_atomic wc cap o a r a' -> drained a \/ o = OpWorker -> drained a'.
Proof.
  unfold drained. intros H Hd.
  destruct o, r; simpl in H; try done; unfold submit_step in H; try (destruct ok);
    pool_trans; eauto 6; try congruence; try by (case_match; eauto 6).
Qed.

Lemma pool_internal_drained o a r a' : pool_internal o a r a' -> drained a -> drained a'.
Proof.
  unfold drained. intros H Hd. destruct o, r; simpl in H; try done; pool_trans; eauto 6; congruence.
Qed.

Lemma pool_drained_log wc cap o0 tr log a P :
  aexec (pool_spec wc cap) o0 tr log a P ->
  (exists t r, Entry t OpWorker r true ∈ log) -> drained a.
Proof.
  induction 1 as [|tr log a P t o H IH HP|tr log a a' P t o r H IH HP Ha|
                  tr log a a' P t o l r H IH HP Hi|tr log a P t o r H IH HP]; auto.
  - by intros (t & r & ?%elem_of_nil).
  - intros (t' & r' & Hin). eapply pool_atomic_drained; [exact Ha|].
    apply elem_of_app in Hin as [?|Hin]; [left; eauto|right].
    apply list_elem_of_singleton in Hin. congruence.
  - intros (t' & r' & Hin). eapply pool_internal_drained; [exact Hi|].
    apply elem_of_app in Hin as [?|Hin]; [eauto|]. by apply list_elem_of_singleton in Hin.
Qed.

(** ** Properties *)

Section properties.
Context (wc cap : Z) (h : pool_hooks).

Abbreviation V := (pool_verified wc cap).
Abbreviation ctor := (OpNew wc cap).

(** C7: no schedule of calls on a thread pool, its workers included, reaches
  undefined behaviour, whatever arguments it was created with and whatever the
  operating system answers: no data race on the fields, no index out of
  bounds, no overflow of an index or a counter, no NULL task called or
  released, no use of the core after its release. *)
Theorem thread_pool_safe xs : run pool_code xs (start pool_code ctor h, []) <> Fault.
Proof. apply (verified_safe V). Qed.

(** C5: the pool is linearisable with respect to [pool_atomic] and
  [pool_internal]: submissions are queued, rejected when the pool is closed,
  answered "full" or, for a worker that would wait for itself, refused;
  workers take the oldest task and leave only a closed pool with an empty
  queue; [shutdown] succeeds only when no worker is left; the last finalizer
  closes the pool; the constructor gives a pool exactly when its status is 0; whenever the mutex is free the atomic state is read off
  the core. *)
Theorem thread_pool_linearizable c tr :
reachable pool_code ctor h c tr ->
exists log a P, aexec (pool_spec wc cap) ctor (filter (fun l => visible l = true) tr) log a P /\
  (free c -> a = Some (pool_abs (core c))).
Proof. apply (verified_atomic V). Qed.

(** No wake-up is lost: while no OS call has failed and nobody holds the
  mutex, a worker sleeps only in an open pool all of whose queued tasks have a
  woken worker on its way, a submitter only in an open pool all of whose free
  slots have a woken submitter on its way, and a caller of [shutdown] only
  while a worker is left. *)
Lemma thread_pool_no_lost_wakeup c tr t o q k :
reachable pool_code ctor h c tr -> clean tr = true -> (forall t, holder c <> Held t) ->
threads c !! t = Some (o, Sleep q k) ->
match q with
| NotEmpty => accepting (core c) <> 0 /\ length_ (core c) <= nwake NotEmpty (threads c)
| NotFull => accepting (core c) <> 0 /\ cap - length_ (core c) <= nwake NotFull (threads c)
| Stopped => live_workers (core c) <> 0
end.
Proof.
intros H1 H2 H3 H4. destruct (verified_wakeups V h c tr t o q k H1 H2 H3 H4) as (z & Hz & Hle).
destruct q; cbn in Hz; repeat case_match; simplify_eq; try split; try done; by apply Z.eqb_neq.
Qed.

(** Everything a pool owns is there while a handle is left, and is released
  once no handle and no thread is; a failed allocation is reported as -2 and
  otherwise the first failing status of an operation is the one it reports;
  [abort] is called only after a failure. *)
Theorem thread_pool_release_errors c tr :
reachable pool_code ctor h c tr ->
(idle c <> [] ->
   alive c = [RCond Stopped; RCond NotFull; RCond NotEmpty; RMutex; RBuf; RCore]) /\
(idle c = [] -> threads c = ∅ -> alive c = []) /\
(forall tr1 t o r tr2, tr = tr1 ++ LRes t o r :: tr2 ->
   match first_failure tr1 t with
   | Some OutOfMemory => r = RHandle false (-2)
   | Some (OsFail st) => error_of r = Some st
   | None => True
   end) /\
(forall t o, threads c !! t = Some (o, Run Abort) -> first_failure tr t <> None).
Proof.
intros H. split_and!.
- intros H1. by apply (verified_alive V h c tr H).
- intros H1 H2. by apply (verified_released V h c tr H).
- intros tr1 t o r tr2 Ht. pose proof (verified_errors V h c tr tr1 t o r tr2 H Ht) as He.
  cbn in He. unfold pool_errok in He. destruct o, (first_failure tr1 t) as [[]|]; done.
- intros t o Ht. by destruct (verified_abort V h c tr t o H Ht).
Qed.

(** Critical sections end: the thread that holds the mutex can run on its
  own until it has released it (or aborts, or the reference count is at its
  bound). *)
Lemma thread_pool_releases_mutex c tr t :
reachable pool_code ctor h c tr -> holder c = Held t ->
exists vs c' tr', run pool_code (map (CStep t 0) vs) (c, tr) = Go (c', tr') /\ ends_section t c'.
Proof.
apply (verified_releases V). intros o [x current|] v n w l e s0 s cr (_ & _ & _ & H) ->.
- destruct H as (_ & _ & _ & _ & H). destruct x; [by destruct H as (_ & _ & ? & ?)|].
  by destruct H as (_ & _ & ?).
- by destruct H as (_ & ? & _).
Qed.
(** C25: progress: while no OS call has failed and nobody holds the mutex, a worker
    sleeps only in an open pool all of whose queued tasks have a woken worker on
    its way, a submitter only in an open pool all of whose free slots have a woken
    submitter on its way, and a caller of [shutdown] only while a worker is left;
    and the thread that holds the mutex can run on its own until it has released
    it (or aborts, or the reference count is at its bound). *)
Theorem thread_pool_progress c tr :
  reachable pool_code ctor h c tr ->
  (clean tr = true -> (forall t, holder c <> Held t) ->
   forall t o q k, threads c !! t = Some (o, Sleep q k) ->
   match q with
   | NotEmpty => accepting (core c) <> 0 /\ length_ (core c) <= nwake NotEmpty (threads c)
   | NotFull => accepting (core c) <> 0 /\ cap - length_ (core c) <= nwake NotFull (threads c)
   | Stopped => live_workers (core c) <> 0
   end) /\
  (forall t, holder c = Held t ->
   exists vs c' tr', run pool_code (map (CStep t 0) vs) (c, tr) = Go (c', tr') /\ ends_section t c').
Proof.
  intros H. split.
  - intros H1 H2 t o q k. by apply thread_pool_no_lost_wakeup with tr.
  - intros t. by apply thread_pool_releases_mutex.
Qed.
End properties.

(** ** Concrete executions: a pool of one worker, thread 10, and one slot *)

Definition pool_h0 : pool_hooks := PoolHooks (-1) 0 0.
Definition call (t : nat) (o : pool_op) : choice pool := CInvoke (S:=pool) t o.

Abbreviation pool_after := (after pool_code (OpNew 1 1) pool_h0).

Definition pool_new : list (choice pool) :=
  steps 0 20 ++ [CStep (S:=pool) 0%nat 0 10%nat] ++ steps 0 3.

(** Task 7 is queued and the submitter of task 8 waits. *)
Definition pool_full_run : list (choice pool) :=
  pool_new ++ [call 1 (OpExecute 7 false)] ++ steps 1 11 ++ [call 1 (OpExecute 8 false)] ++ steps 1 4.

(** The worker runs task 7, task 8 is accepted, the pool is closed and the
    worker runs task 8. *)
Definition pool_closed : list (choice pool) :=
  pool_full_run ++ steps 10 7 ++ [CStep (S:=pool) 10%nat 0 1%nat] ++ steps 10 4 ++ steps 1 9 ++
  [call 2 OpClose] ++ steps 2 6 ++ steps 10 12.

Definition pool_worker_left : list (choice pool) := pool_closed ++ steps 10 8.
Definition pool_gone : list (choice pool) := pool_worker_left ++ [call 2 OpFinalize] ++ steps 2 17.

(** The signal of a submission fails. *)
Definition pool_failing : list (choice pool) :=
  pool_new ++ [call 1 (OpExecute 7 false)] ++ steps 1 8 ++ [CStep (S:=pool) 1%nat 22 0%nat] ++ steps 1 2.

Definition pool_locked : list (choice pool) :=
  pool_new ++ [call 1 (OpExecute 7 false)] ++ steps 1 5.

(** ** Witnesses *)

Lemma thread_pool_linearizable_witness :
  exists c : config pool, free c /\ pool_queue (core c) = [7] /\
    exists tr log a P,
      aexec (pool_spec 1 1) (OpNew 1 1) (filter (fun l => visible l = true) tr) log a P /\
      (free c -> a = Some (pool_abs (core c))).
Proof.
  exists (pool_after pool_full_run).1.
  split; [vm_compute; split; [reflexivity|discriminate]|]. split; [vm_compute; reflexivity|].
  exists (pool_after pool_full_run).2. apply (thread_pool_linearizable 1 1 pool_h0). scenario.
Defined.

Lemma thread_pool_release_errors_witness :
  exists c tr, reachable pool_code (OpNew 1 1) pool_h0 c tr /\ idle c = [] /\ threads c = ∅ /\
    (idle c = [] -> threads c = ∅ -> alive c = []).
Proof.
  exists (pool_after pool_gone).1, (pool_after pool_gone).2.
  split; [scenario|]. split; [vm_compute; reflexivity|]. split; [vm_compute; reflexivity|].
  refine (proj1 (proj2 (thread_pool_release_errors 1 1 pool_h0 _ (pool_after pool_gone).2 _))).
  scenario.
Defined.

Lemma thread_pool_failing_reported :
  exists tr : list (label pool), last tr = Some (LRes (S:=pool) 1%nat (OpExecute 7 false) (RInt 0 22)) /\
    first_failure tr 1%nat = Some (OsFail 22).
Proof. exists (pool_after pool_failing).2. split; vm_compute; reflexivity. Qed.

Lemma thread_pool_progress_witness :
  exists c : config pool, (exists o k, threads c !! 1%nat = Some (o, Sleep NotFull k)) /\
    (accepting (core c) <> 0 /\ 1 - length_ (core c) <= nwake NotFull (threads c)) /\
    exists c' tr, holder c' = Held 1%nat /\
      exists vs c'' tr', run pool_code (map (CStep 1%nat 0) vs) (c', tr) = Go (c'', tr') /\
        ends_section 1%nat c''.
Proof.
  assert (sleeps_at (pool_after pool_full_run).1 1%nat (NotFull : sC pool) = true) as Hs
    by (vm_compute; reflexivity).
  apply sleeps_at_spec in Hs as (o & k & Hs).
  exists (pool_after pool_full_run).1. split; [by exists o, k|]. split.
  - apply (proj1 (thread_pool_progress 1 1 pool_h0 _ (pool_after pool_full_run).2 ltac:(scenario)))
      with (t := 1%nat) (o := o) (q := NotFull) (k := k).
    + vm_compute. reflexivity.
    + vm_compute. discriminate.
    + exact Hs.
  - exists (pool_after pool_locked).1, (pool_after pool_locked).2.
    split; [vm_compute; reflexivity|].
    apply (thread_pool_progress 1 1 pool_h0); [scenario|vm_compute; reflexivity].
Defined.
