(* ===== verification/ChannelRefs.v ===== *)
(** ChannelRefs: the references to the messages of a channel
    (src/unsafe/channel/native.c).  A message comes in with a send, lies in the
    buffer, and leaves with a receive or a send that gives it back, or is
    released with the buffer by [moonbit_decref]. *)
From stdpp Require Import base gmap list.
From Stdlib Require Import ZArith Lia.
From S2P Require Import Prelude Ring Machine Logic Soundness Verified Ownership Accounts Native Channel.

Local Open Scope prog_scope.

(** The message an operation was called with. *)
Definition offered (o : chan_op) : option ptr :=
  match o with OpSend m | OpTrySend m => Some m | _ => None end.

(** The account of message [x]. *)
Definition chan_ledger (x : ptr) : ledger chan :=
  Ledger chan
    (* brought *) (fun o => is_in x (offered o))
    (* returned *) (fun _ r => match r with
                               | RSend (Some m) _ _ | RRecv (Some m) _ _ => is_it x m
                               | _ => 0
                               end)
    (* gained *) (fun e => match e with Decref m => - is_it x m end)
    (* needed *) (fun e => match e with Decref m => is_it x m end)
    (* kept *) (fun s => held x (slots s))
    (* salvaged *) (fun s => held x (slots s))
    (* parked *) (fun o => (is_in x (offered o), is_in x (offered o)))
    (* at_head *) (fun _ _ _ _ => False).

Section accounts.
Context (cap : Z) (x : ptr).

Abbreviation cown := (own chan_code (chan_spec cap) (chan_ledger x)).

(** The slots from [index] on are what is left to be released. *)
Lemma chan_own_release_slots (o : chan_op) b s k : forall n index,
  0 <= index -> index + Z.of_nat n = Z.of_nat (length (slots s)) ->
  cown o k (Alone b s) 0 ->
  cown o (release_slots n index k) (Alone b s) (held x (drop (Z.to_nat index) (slots s))).
Proof.
  induction n as [|n IH]; intros index Hi Hn Hk; cbn [release_slots].
  - rewrite drop_ge by lia. exact Hk.
  - cbn [own]. intros s' H. apply bind_Some in H as (y & Hy & [= <-]). rewrite Hy.
    assert (slots s !! Z.to_nat index = Some y) as Hy'.
    { unfold zget in Hy. by destruct (index <? 0). }
    rewrite (drop_S _ y) by done. rewrite held_cons.
    replace (S (Z.to_nat index)) with (Z.to_nat (index + 1)) by lia.
    pose proof (held_nonneg x (drop (Z.to_nat (index + 1)) (slots s))).
    destruct y as [m|]; cbn [mjoin option_join is_in].
    + cbn [own]. simpl gained. simpl needed. split; [lia|]. split; [lia|].
      replace (_ + - _) with (held x (drop (Z.to_nat (index + 1)) (slots s))) by lia.
      apply IH; [lia..|done].
    + rewrite Z.add_0_l. apply IH; [lia..|done].
Qed.

Lemma chan_own_release (o : chan_op) :
  cown o (sync_channel_core_release (Ret RUnit)) Outside 0.
Proof.
  unfold sync_channel_core_release. unfold_native. cbn [own]. split.
  - intros r Hr. rewrite (proj2 (Z.eqb_neq _ _) Hr). done.
  - intros s [Hc Hr _ _]. cbn [Z.eqb negb own]. intros s' [= <-].
    simpl salvaged. rewrite Z.add_0_l, <- (drop_0 (slots s)) at 1.
    pose proof (ro_len _ _ _ _ _ Hr). pose proof (ro_cap _ _ _ _ _ Hr).
    apply (chan_own_release_slots o false s _ (Z.to_nat (capacity s)) 0); [lia|rewrite Hc; lia|].
    repeat own_step; done.
Qed.

(** Storing a message puts it into a free slot; taking one empties its slot. *)
Lemma chan_own_enqueue (o : chan_op) m error s :
  chan_inv cap s -> count s < cap -> cown o (enqueue m error) (Inside s) (is_it x m).
Proof.
  intros [Hc Hr _ _] Hlt. pose proof (ring_tail_free _ _ _ _ _ Hr Hlt) as Hfree.
  unfold enqueue. unfold_native. repeat own_step; own_count.
Qed.

Lemma chan_own_dequeue (o : chan_op) error s :
  chan_inv cap s -> 0 < count s -> cown o (dequeue error) (Inside s) 0.
Proof.
  intros [Hc Hr _ _] Hlt. destruct (ring_pop _ _ _ _ _ Hr Hlt) as (m & Hm & _).
  unfold dequeue. unfold_native. repeat own_step; rewrite ?Hm; own_count.
Qed.

Lemma chan_not_full s : chan_inv cap s -> (count s =? capacity s) = false -> count s < cap.
Proof.
  intros Hi H. rewrite (ci_capacity _ _ Hi) in H. pose proof (chan_inv_count cap s Hi). lia.
Qed.

Lemma chan_not_empty s : chan_inv cap s -> (count s =? 0) = false -> 0 < count s.
Proof. intros Hi H. pose proof (chan_inv_count cap s Hi). lia. Qed.

Ltac refs_step :=
  lazymatch goal with
  | |- own _ _ _ _ (sync_channel_core_release _) _ _ => apply chan_own_release
  | |- own _ _ _ _ (enqueue ?m _) _ _ =>
      apply chan_own_enqueue; [done|first [by apply chan_not_full|by apply (send_loop_exit cap)]]
  | |- own _ _ _ _ (dequeue _) _ _ => apply chan_own_dequeue; [done|by apply chan_not_empty]
  | _ => own_step
  end.

Ltac refs_solve :=
  unfold sync_channel_finalize, sync_channel_new, sync_channel_receiver,
    sync_sender_share, sync_sender_try_send, sync_sender_send, sync_sender_close,
    sync_receiver_try_recv, sync_receiver_recv, sync_channel_receive, sync_receiver_close,
    sync_receiver_len, sync_receiver_capacity, sync_channel_test_fail_next_init,
    sync_channel_test_fail_next_operation, sync_channel_wrap, sync_array_size_or_abort,
    broadcast_or_abort, give_back; unfold_native; unfold_native;
  repeat refs_step; try solve [own_count].

Lemma chan_own_handle o d :
  client chan_code o = true -> chan_on_handle o = Some d ->
  cown o (chan_body o) Outside (brought (chan_ledger x) o).
Proof.
  intros _ Hd. destruct o as [| | |m|m| | | | | | |[]| |]; cbn in Hd; simplify_eq; cbn [chan_body brought chan_ledger].
  all: refs_solve.
Qed.

Lemma chan_own_static o :
  client chan_code o = true -> chan_on_handle o = None ->
  cown o (chan_body o) Apart (brought (chan_ledger x) o).
Proof. destruct o; try done; intros _ _; cbn [chan_body brought chan_ledger]; refs_solve. Qed.

Lemma chan_own_new s : cown (OpNew cap) (chan_body (OpNew cap)) (Alone true s) 0.
Proof. cbn [chan_body]. refs_solve; cbn; rewrite held_empty; lia. Qed.

Lemma chan_accounted : accounted chan_code (chan_spec cap) (chan_ledger x) (OpNew cap).
Proof.
  split; try done.
  - intros []; cbn; try done; apply is_it_bounds.
  - intros s. cbn. pose proof (held_nonneg x (slots s)). lia.
  - apply chan_own_handle.
  - apply chan_own_static.
  - apply chan_own_new.
Qed.
End accounts.

(** ** Properties *)

(** The messages the operations of a trace were called with, those they gave
    back or received, and those released with the buffer. *)
Definition handed_in (l : label chan) : option ptr :=
  match l with LInv _ o => offered o | _ => None end.

Definition handed_out (l : label chan) : option ptr :=
  match l with LRes _ _ (RSend (Some m) _ _ | RRecv (Some m) _ _) => Some m | _ => None end.

Definition released (l : label chan) : option ptr :=
  match l with LEv _ (Decref m) => Some m | _ => None end.

Lemma chan_flow x l :
  booking (chan_ledger x) l = is_in x (handed_in l) - is_in x (handed_out l) - is_in x (released l).
Proof.
  destruct l as [t []|t o []|t []|]; simpl; repeat case_match; simpl; lia.
Qed.

Section properties.
Context (cap : Z) (Hcap : cap <= INT32_MAX) (h : chan_hooks).

Abbreviation V := (chan_verified cap Hcap).

(** References: a message is released only while the channel has it; at rest
    (every thread asleep) each message handed in has been handed out, has been
    released, is in the buffer or is offered by a waiting sender, and only one
    of these; when all is over each has been handed out or released. *)
Lemma channel_references c tr :
  reachable chan_code (OpNew cap) h c tr ->
  (forall tr1 t m tr2, tr = tr1 ++ LEv t (Decref m) :: tr2 ->
     Prelude.cnt m (omap handed_out tr1) + Prelude.cnt m (omap released tr1) <
     Prelude.cnt m (omap handed_in tr1)) /\
  (at_rest c -> shared c = true ->
     omap handed_in tr ≡ₚ
       omap handed_out tr ++ omap released tr ++ chan_queue (core c) ++ waiting offered c) /\
  (idle c = [] -> threads c = ∅ -> omap handed_in tr ≡ₚ omap handed_out tr ++ omap released tr).
Proof.
  intros H. pose proof (chan_accounted cap) as HA. split_and!.
  - intros tr1 t m tr2 Htr.
    eapply (flow_covered V chan_ledger HA _ _ _ chan_flow); [exact H|exact Htr|].
    cbn. unfold is_it. by rewrite bool_decide_true.
  - intros Hrest Hsh. apply (flow_rest V chan_ledger HA _ _ _ _ chan_flow h c tr); try done.
    + intros x. pose proof (verified_inv V h c tr H (rest_free V h c tr H Hrest Hsh)) as [Hc Hr _ _].
      cbn. unfold chan_queue. rewrite Hc. by eapply held_contents.
  - intros Hi HT. by apply (flow_gone V chan_ledger HA _ _ _ chan_flow h c tr).
Qed.

(** C19: resources and errors: no schedule of calls, whatever the operating system
    answers, reaches undefined behaviour: no data race on the fields, no slot
    index out of bounds, no signed overflow of an index or counter, no use of the
    core, its slots or OS objects after release, no double free; everything a
    channel owns is there while a handle is left, and is released once no handle
    and no operation is; a message is released only while the channel has it,
    at rest every message handed in has been handed out, released, is in the
    buffer or is offered by a waiting sender (each exactly once), and in the end
    every message has been handed out or released; an operation reports the first
    failing status of its OS calls, and [abort] is called only after a failure or
    for a capacity that is not positive. *)
Theorem channel_resources :
  (forall xs, run chan_code xs (start chan_code (OpNew cap) h, []) <> Fault) /\
  forall c tr, reachable chan_code (OpNew cap) h c tr ->
    ((idle c <> [] -> alive c = [RCond Writable; RCond Readable; RMutex; RBuf; RCore]) /\
     (idle c = [] -> threads c = ∅ -> alive c = [])) /\
    (forall tr1 t o r tr2, tr = tr1 ++ LRes t o r :: tr2 ->
       reported (error_of r) (first_failure tr1 t)) /\
    (forall t o, threads c !! t = Some (o, Run Abort) ->
       first_failure tr t <> None \/ (exists n, o = OpNew n) /\ cap <= 0) /\
    (forall tr1 t m tr2, tr = tr1 ++ LEv t (Decref m) :: tr2 ->
       Prelude.cnt m (omap handed_out tr1) + Prelude.cnt m (omap released tr1) <
       Prelude.cnt m (omap handed_in tr1)) /\
    (at_rest c -> shared c = true ->
       omap handed_in tr ≡ₚ
         omap handed_out tr ++ omap released tr ++ chan_queue (core c) ++ waiting offered c) /\
    (idle c = [] -> threads c = ∅ -> omap handed_in tr ≡ₚ omap handed_out tr ++ omap released tr).
Proof using Hcap.
  split; [by apply channel_safe|]. intros c tr H.
  split; [by apply (channel_release cap Hcap h c tr)|].
  destruct (channel_errors cap Hcap h c tr H). split; [done|]. split; [done|].
  by apply channel_references.
Qed.
End properties.

(** ** Witnesses *)

(** Message 5 is queued and the handles go away. *)
Definition chan_abandoned : list (choice chan) :=
  steps 0 12 ++ [call 1 OpReceiver] ++ steps 1 6 ++ [call 1 (OpSend 5)] ++ steps 1 9 ++
  [call 2 (OpFinalize Receiver)] ++ steps 2 9 ++ [call 3 (OpFinalize Sender)] ++ steps 3 17.

Lemma channel_resources_witness :
  exists (c : config chan) (tr tr1 : list (label chan)), 1 <= INT32_MAX /\
    idle c = [] /\ threads c = ∅ /\ omap handed_in tr = [5] /\ omap released tr = [5] /\
    (idle c = [] -> threads c = ∅ -> omap handed_in tr ≡ₚ omap handed_out tr ++ omap released tr) /\
    exists tr', tr' = tr1 ++ [LRes (S:=chan) 1%nat (OpSend 5) (RSend (Some 5) 2 22)] /\
      first_failure tr1 1%nat = Some (OsFail 22) /\
      reported (error_of (RSend (Some 5) 2 22)) (first_failure tr1 1%nat) /\
    exists c'' tr'', at_rest c'' /\ shared c'' = true /\ waiting offered c'' = [6] /\
      chan_queue (core c'') = [5] /\
      omap handed_in tr'' ≡ₚ
        omap handed_out tr'' ++ omap released tr'' ++ chan_queue (core c'') ++ waiting offered c''.
Proof.
  exists (chan_after chan_abandoned).1, (chan_after chan_abandoned).2,
    (removelast (chan_after chan_failing).2).
  split; [exact one_ok|]. do 4 (split; [vm_compute; reflexivity|]). split.
  { apply (proj2 (channel_resources 1 one_ok chan_h0) _ (chan_after chan_abandoned).2). scenario. }
  exists (chan_after chan_failing).2.
  split; [vm_compute; reflexivity|]. split; [vm_compute; reflexivity|]. split.
  { refine (proj1 (proj2 (proj2 (channel_resources 1 one_ok chan_h0) (chan_after chan_failing).1
      (chan_after chan_failing).2 _)) _ 1%nat (OpSend 5) _ [] _); [scenario|vm_compute; reflexivity]. }
  assert (at_rest (chan_after chan_full).1) as Hrest by (apply at_rest_compute; vm_compute; reflexivity).
  exists (chan_after chan_full).1, (chan_after chan_full).2. split; [exact Hrest|].
  do 3 (split; [vm_compute; reflexivity|]).
  apply (proj2 (channel_resources 1 one_ok chan_h0) (chan_after chan_full).1 (chan_after chan_full).2);
    [scenario|exact Hrest|vm_compute; reflexivity].
Defined.
