(* ===== verification/OwnedBytesRefs.v ===== *)
(** OwnedBytesRefs: the storage of the message copies of an owned-bytes channel
    (src/channel/native.c).  A copy is allocated by a submission, lies in the
    buffer, and is freed by the submission that did not queue it, by the
    receive that took it, or with the buffer. *)
From stdpp Require Import base gmap list.
From Stdlib Require Import ZArith Lia.
From S2P Require Import Prelude Ring Machine Logic Soundness Verified Ownership Accounts Native OwnedBytes.

Local Open Scope prog_scope.

(** The byte string a submission was called with: it may hold a copy of it. *)
Definition submitted (o : own_op) : option bytes :=
  match o with OpSend m | OpTrySend m => Some m | _ => None end.

(** The account of the copies of [x]. *)
Definition own_ledger (x : bytes) : ledger own :=
  Ledger own
    (* brought *) (fun _ => 0)
    (* returned *) (fun _ _ => 0)
    (* gained *) (fun e => match e with MessageCopy m => is_it x m | MessageRelease m => - is_it x m end)
    (* needed *) (fun e => match e with MessageCopy _ => 0 | MessageRelease m => is_it x m end)
    (* kept *) (fun s => held x (slots s))
    (* salvaged *) (fun s => held x (slots s))
    (* parked *) (fun o => (0, is_in x (submitted o)))
    (* at_head *) (fun _ _ _ _ => False).

Section accounts.
Context (L : limits) (x : bytes).

Abbreviation oown := (Ownership.own own_code (own_spec L) (own_ledger x)).

(** The slots from [index] on are what is left to be released. *)
Lemma bytes_own_release_slots (o : own_op) b s k : forall n index,
  0 <= index -> index + Z.of_nat n = Z.of_nat (length (slots s)) ->
  oown o k (Alone b s) 0 ->
  oown o (release_slots n index k) (Alone b s) (held x (drop (Z.to_nat index) (slots s))).
Proof.
  induction n as [|n IH]; intros index Hi Hn Hk; cbn [release_slots].
  - rewrite drop_ge by lia. exact Hk.
  - cbn [Ownership.own]. intros s' H. apply bind_Some in H as (y & Hy & [= <-]). rewrite Hy.
    assert (slots s !! Z.to_nat index = Some y) as Hy'.
    { unfold zget in Hy. by destruct (index <? 0). }
    rewrite (drop_S _ y) by done. rewrite held_cons.
    replace (S (Z.to_nat index)) with (Z.to_nat (index + 1)) by lia.
    pose proof (held_nonneg x (drop (Z.to_nat (index + 1)) (slots s))).
    destruct y as [m|]; cbn [mjoin option_join is_in sync_owned_bytes_message_release].
    + cbn [Ownership.own]. simpl gained. simpl needed. split; [lia|]. split; [lia|].
      replace (_ + - _) with (held x (drop (Z.to_nat (index + 1)) (slots s))) by lia.
      apply IH; [lia..|done].
    + rewrite Z.add_0_l. apply IH; [lia..|done].
Qed.

Lemma bytes_own_release (o : own_op) :
  oown o (sync_owned_bytes_core_release (Ret RUnit)) Outside 0.
Proof.
  unfold sync_owned_bytes_core_release. unfold_native. cbn [Ownership.own]. split.
  - intros r Hr. rewrite (proj2 (Z.eqb_neq _ _) Hr). done.
  - intros s Hi. pose proof (oi_ring _ _ Hi) as Hr. pose proof (oi_capacity _ _ Hi) as Hc. cbn [Z.eqb negb Ownership.own]. intros s' [= <-].
    simpl salvaged. rewrite Z.add_0_l, <- (drop_0 (slots s)) at 1.
    pose proof (ro_len _ _ _ _ _ Hr). pose proof (ro_cap _ _ _ _ _ Hr).
    apply (bytes_own_release_slots o false s _ (Z.to_nat (capacity s)) 0); [lia|rewrite Hc; lia|].
    repeat own_step; done.
Qed.

(** Storing a copy puts it into a free slot; taking one empties its slot. *)
Lemma bytes_own_enqueue (o : own_op) m error s :
  own_inv L s -> count s < max_count L -> oown o (enqueue m error) (Inside s) (is_it x m).
Proof.
  intros Hi Hlt. pose proof (ring_tail_free _ _ _ _ _ (oi_ring _ _ Hi) Hlt) as Hfree.
  unfold enqueue. unfold_native. repeat own_step; own_count.
Qed.

Lemma bytes_own_dequeue (o : own_op) error s :
  own_inv L s -> 0 < count s -> oown o (dequeue error) (Inside s) 0.
Proof.
  intros Hi Hlt. destruct (ring_pop _ _ _ _ _ (oi_ring _ _ Hi) Hlt) as (m & Hm & _).
  unfold dequeue, sync_owned_bytes_into_moonbit, sync_owned_bytes_message_release. unfold_native.
  repeat own_step; rewrite ?Hm in *; simplify_eq/=; own_count.
Qed.

Lemma bytes_not_full s : own_inv L s -> (count s =? capacity s) = false -> count s < max_count L.
Proof.
  intros Hi H. rewrite (oi_capacity _ _ Hi) in H. pose proof (own_inv_count L s Hi). lia.
Qed.

Lemma bytes_not_empty s : own_inv L s -> (count s =? 0) = false -> 0 < count s.
Proof. intros Hi H. pose proof (own_inv_count L s Hi). lia. Qed.

Ltac refs_step :=
  lazymatch goal with
  | |- Ownership.own _ _ _ _ (sync_owned_bytes_core_release _) _ _ => apply bytes_own_release
  | |- Ownership.own _ _ _ _ (enqueue ?m _) _ _ => apply bytes_own_enqueue; [done|by apply bytes_not_full]
  | |- Ownership.own _ _ _ _ (dequeue _) _ _ => apply bytes_own_dequeue; [done|by apply bytes_not_empty]
  | _ => own_step
  end.

(** The second pass has a copy, the first makes it. *)
Lemma own_pass_copy o m b again :
  submitted o = Some m ->
  oown o (submit_pass m b (Some m) again) Outside (is_it x m).
Proof.
  intros Ho. unfold submit_pass, reject, sync_owned_bytes_message_release. unfold_native.
  repeat refs_step; cbn; rewrite ?Ho; own_count.
Qed.

Lemma own_pass_first o m b :
  submitted o = Some m ->
  oown o (submit_pass m b None (fun copy => submit_pass m b (Some copy) (fun _ => Abort))) Outside 0.
Proof.
  intros Ho. pose proof (own_pass_copy o m b (fun _ => Abort) Ho) as Hcopy.
  unfold submit_pass at 1. unfold reject, sync_owned_bytes_message_release,
    sync_owned_bytes_message_copy, alloc_message. unfold_native.
  repeat lazymatch goal with
    | |- Ownership.own _ _ _ _ (submit_pass _ _ _ _) _ _ => apply Hcopy
    | _ => refs_step
    end; cbn; rewrite ?Ho; own_count.
Qed.

Lemma bytes_own_submit o m b :
  submitted o = Some m -> oown o (sync_owned_bytes_submit m b) Outside 0.
Proof.
  intros Ho. unfold sync_owned_bytes_submit. unfold_native. cbn [Ownership.own]. intros hk.
  case_match; [done|by apply own_pass_first].
Qed.

Ltac refs_solve :=
  unfold sync_owned_bytes_finalize, sync_owned_bytes_channel_new, sync_owned_bytes_channel_receiver,
    sync_owned_bytes_sender_share, sync_owned_bytes_sender_close,
    sync_owned_bytes_receiver_try_recv, sync_owned_bytes_receiver_recv, sync_owned_bytes_receive,
    sync_owned_bytes_receiver_close, sync_owned_bytes_receiver_len,
    sync_owned_bytes_receiver_capacity, sync_owned_bytes_channel_test_fail_next_init,
    sync_owned_bytes_channel_test_fail_next_operation, sync_owned_bytes_wrap,
    sync_array_size_or_abort, broadcast_or_abort; unfold_native; unfold_native;
  repeat refs_step; try solve [own_count].

Lemma bytes_own_handle o d :
  client own_code o = true -> own_on_handle o = Some d ->
  oown o (own_body o) Outside (brought (own_ledger x) o).
Proof.
  intros _ Hd. destruct o as [| | |m|m| | | | | | |[]| |]; cbn in Hd; simplify_eq;
    cbn [own_body brought own_ledger]; try by apply bytes_own_submit.
  all: refs_solve.
Qed.

Lemma bytes_own_static o :
  client own_code o = true -> own_on_handle o = None ->
  oown o (own_body o) Apart (brought (own_ledger x) o).
Proof. destruct o; try done; intros _ _; cbn [own_body brought own_ledger]; refs_solve. Qed.

Lemma bytes_own_new s cap mm mq : oown (OpNew cap mm mq) (own_body (OpNew cap mm mq)) (Alone true s) 0.
Proof. cbn [own_body]. refs_solve; cbn; rewrite held_empty; lia. Qed.

Lemma own_accounted :
  accounted own_code (own_spec L) (own_ledger x) (OpNew (max_count L) (max_message L) (max_queued L)).
Proof.
  split; try done.
  - intros s. cbn. pose proof (held_nonneg x (slots s)). lia.
  - apply bytes_own_handle.
  - apply bytes_own_static.
  - intros s. apply bytes_own_new.
Qed.
End accounts.

(** ** Properties *)

(** The copies made and the copies freed in a trace. *)
Definition copied (l : label own) : option bytes :=
  match l with LEv _ (MessageCopy m) => Some m | _ => None end.

Definition freed (l : label own) : option bytes :=
  match l with LEv _ (MessageRelease m) => Some m | _ => None end.

Lemma own_flow x l :
  booking (own_ledger x) l = is_in x (copied l) - is_in x (None : option bytes) - is_in x (freed l).
Proof. destruct l as [t []|t o []|t []|]; simpl; lia. Qed.

Section properties.
Context (L : limits) (HL : limits_ok L) (h : own_hooks).

Abbreviation V := (own_verified L HL).
Abbreviation ctor := (OpNew (max_count L) (max_message L) (max_queued L)).

(** Storage: a copy is freed only while it is allocated (no double free); at
    rest the copies allocated are those in the buffer and at most one for each
    waiting submission; when all is over every copy has been freed, once. *)
Lemma owned_bytes_storage c tr :
  reachable own_code ctor h c tr ->
  (forall tr1 t m tr2, tr = tr1 ++ LEv t (MessageRelease m) :: tr2 ->
     Prelude.cnt m (omap freed tr1) < Prelude.cnt m (omap copied tr1)) /\
  (at_rest c -> shared c = true ->
     omap freed tr ++ own_queue (core c) ⊆+ omap copied tr /\
     omap copied tr ⊆+ omap freed tr ++ own_queue (core c) ++ waiting submitted c) /\
  (idle c = [] -> threads c = ∅ -> omap copied tr ≡ₚ omap freed tr).
Proof.
  intros H. pose proof (own_accounted L) as HA.
  assert (forall tr : list (label own), omap (fun _ => None : option bytes) tr = []) as Hnil.
  { intros l. by induction l. }
  split_and!.
  - intros tr1 t m tr2 Htr.
    pose proof (flow_covered V own_ledger HA _ _ _ own_flow h c tr tr1 t _ tr2 m H Htr) as Hc.
    rewrite Hnil in Hc. apply Hc. cbn. unfold is_it. by rewrite bool_decide_true.
  - intros Hrest Hsh.
    pose proof (flow_rest_upto V own_ledger HA _ _ _ submitted own_flow h c tr (own_queue (core c)) H Hrest Hsh) as Hc.
    rewrite Hnil in Hc. apply Hc; [done|].
    intros x. pose proof (verified_inv V h c tr H (rest_free V h c tr H Hrest Hsh)) as Hi.
    cbn. unfold own_queue. rewrite (oi_capacity _ _ Hi). eapply held_contents, (oi_ring _ _ Hi).
  - intros Hi HT. pose proof (flow_gone V own_ledger HA _ _ _ own_flow h c tr H HT Hi) as Hc.
    rewrite Hnil in Hc. by apply Hc.
Qed.

(** C31: resources and errors: no schedule of calls, whatever the operating system
    answers, reaches undefined behaviour: no data race on the fields, no slot
    index out of bounds, no signed overflow of an index, a counter or the byte
    total, no use of the core, its slots or OS objects after release; everything a
    channel owns is there while a handle is left, and is released once no handle
    and no operation is; a message copy is freed only while it is allocated, at
    rest the copies allocated are those in the buffer and at most one per waiting
    submission, and in the end every copy made has been freed, exactly once; the
    first failing status of an operation is the one it reports; [abort] is called
    only after a failure or for a capacity that is not positive (in particular the
    submission loop never needs a third pass). *)
Theorem owned_bytes_resources :
  (forall xs, run own_code xs (start own_code ctor h, []) <> Fault) /\
  forall c tr, reachable own_code ctor h c tr ->
    ((idle c <> [] -> alive c = [RCond Writable; RCond Readable; RMutex; RBuf; RCore]) /\
     (idle c = [] -> threads c = ∅ -> alive c = []) /\
     (forall tr1 t o r tr2, tr = tr1 ++ LRes t o r :: tr2 ->
        reported (error_of r) (first_failure tr1 t)) /\
     (forall t o, threads c !! t = Some (o, Run Abort) ->
        first_failure tr t <> None \/ max_count L <= 0)) /\
    (forall tr1 t m tr2, tr = tr1 ++ LEv t (MessageRelease m) :: tr2 ->
       Prelude.cnt m (omap freed tr1) < Prelude.cnt m (omap copied tr1)) /\
    (at_rest c -> shared c = true ->
       omap freed tr ++ own_queue (core c) ⊆+ omap copied tr /\
       omap copied tr ⊆+ omap freed tr ++ own_queue (core c) ++ waiting submitted c) /\
    (idle c = [] -> threads c = ∅ -> omap copied tr ≡ₚ omap freed tr).
Proof using HL.
  split; [by apply owned_bytes_safe|]. intros c tr H.
  split; [by apply (owned_bytes_release_errors L HL h)|by apply owned_bytes_storage].
Qed.
End properties.

(** ** Witnesses *)

(** Messages of 3 bytes and of 1 byte are queued and the handles go away. *)
Definition own_abandoned : list (choice own) :=
  own_filled ++ [call 2 (OpFinalize Receiver)] ++ steps 2 9 ++
  [call 3 (OpFinalize Sender)] ++ steps 3 6 ++ [call 3 (OpFinalize Sender)] ++ steps 3 6 ++
  [call 3 (OpFinalize Sender)] ++ steps 3 20.

Lemma owned_bytes_resources_witness :
  limits_ok small /\
  (exists c tr, reachable own_code small_new own_h0 c tr /\ idle c = [] /\ threads c = ∅ /\
     omap freed tr = [[1; 2; 3]; [4]] /\
     (idle c = [] -> threads c = ∅ -> omap copied tr ≡ₚ omap freed tr)) /\
  exists c tr, at_rest c /\ shared c = true /\ own_queue (core c) = [[1; 2; 3]; [4]] /\
    omap freed tr ++ own_queue (core c) ⊆+ omap copied tr /\
    omap copied tr ⊆+ omap freed tr ++ own_queue (core c) ++ waiting submitted c.
Proof.
  split; [by repeat split|]. split.
  - exists (own_after own_abandoned).1, (own_after own_abandoned).2.
    split; [scenario|]. do 3 (split; [vm_compute; reflexivity|]).
    apply (proj2 (owned_bytes_resources small small_ok own_h0) _ (own_after own_abandoned).2). scenario.
  - assert (at_rest (own_after own_waiting).1) as Hrest by (apply at_rest_compute; vm_compute; reflexivity).
    exists (own_after own_waiting).1, (own_after own_waiting).2. split; [exact Hrest|].
    do 2 (split; [vm_compute; reflexivity|]).
    apply (proj2 (owned_bytes_resources small small_ok own_h0) (own_after own_waiting).1
      (own_after own_waiting).2); [scenario|exact Hrest|vm_compute; reflexivity].
Defined.
