(* ===== verification/ThreadPoolRefs.v ===== *)
(** ThreadPoolRefs: what becomes of the tasks of a thread pool
    (src/unsafe/thread_pool/native.c).  A task comes in with a submission, lies
    in the queue, is called by a worker, and is released by [moonbit_decref]:
    after its call, when its submission is refused, or with the queue.  Two
    accounts per task: its references, and whether it is still to be called. *)
From stdpp Require Import base gmap list.
From Stdlib Require Import ZArith Lia.
From S2P Require Import Prelude Ring Machine Logic Soundness Verified Ownership Accounts Native ThreadPool.

Local Open Scope prog_scope.

(** The task an operation was called with. *)
Definition submitted (o : pool_op) : option task :=
  match o with OpTryExecute t _ | OpExecute t _ => Some t | _ => None end.

(** Whether the submission was refused. *)
Definition refusal (o : pool_op) (r : pool_res) : option task :=
  match r with RInt v _ => if v =? 0 then None else submitted o | _ => None end.

(** A worker goes round empty-handed; the constructor loops before it shares. *)
Definition pool_heads (o : pool_op) (l : pool_loop) (m : mode pool) (n : Z) : Prop :=
  n = 0 /\
  match l with
  | LWorker => o = OpWorker /\ m = Outside
  | LAlloc x _ => submitted o = None /\ exists s, m = Alone true s /\
      match x with NewCore wc _ | NewTasks wc _ => 0 < wc end
  end.

(** The references to task [x]. *)
Definition refs_ledger (x : task) : ledger pool :=
  Ledger pool
    (* brought *) (fun o => is_in x (submitted o))
    (* returned *) (fun _ _ => 0)
    (* gained *) (fun e => match e with Call _ => 0 | Decref t => - is_in x t end)
    (* needed *) (fun e => match e with Call t | Decref t => is_in x t end)
    (* kept *) (fun s => held x (tasks s))
    (* salvaged *) (fun s => held x (tasks s))
    (* parked *) (fun o => (is_in x (submitted o), is_in x (submitted o)))
    (* at_head *) pool_heads.

(** The calls of task [x] that are due.  What is queued when the last reference
    to the pool goes away is not called any more. *)
Definition calls_ledger (x : task) : ledger pool :=
  Ledger pool
    (* brought *) (fun o => is_in x (submitted o))
    (* returned *) (fun o r => is_in x (refusal o r))
    (* gained *) (fun e => match e with Call t => - is_in x t | Decref _ => 0 end)
    (* needed *) (fun e => match e with Call t => is_in x t | Decref _ => 0 end)
    (* kept *) (fun s => held x (tasks s))
    (* salvaged *) (fun _ => 0)
    (* parked *) (fun o => (is_in x (submitted o), is_in x (submitted o)))
    (* at_head *) pool_heads.

Section accounts.
Context (wc cap : Z) (x : task).

Abbreviation rown := (own pool_code (pool_spec wc cap) (refs_ledger x)).
Abbreviation uown := (own pool_code (pool_spec wc cap) (calls_ledger x)).
Abbreviation Inv := (pool_inv wc cap).

(** The queued tasks from the [i]-th on are what is left to be released. *)
Lemma pool_queue_slot s i slot t :
  Inv s -> Z.of_nat i < length_ s -> task_slot s (Z.of_nat i) = Some slot -> task_at s slot = Some t ->
  pool_queue s !! i = Some t.
Proof.
  intros Hi Hlt Hs Ht. destruct Hi as [Hc Hb _ Hr _ _ _]. unfold pool_queue. rewrite Hc.
  rewrite (contents_lookup _ _ _ _ _ _ Hr Hlt). destruct Hr as [Hp _ Hh Hn _ _ _].
  unfold SYNC_THREAD_POOL_MAX_CAPACITY in *. unfold task_slot in Hs. rewrite Hc, i32_some in Hs by z32.
  simpl in Hs. rewrite (proj2 (Z.eqb_neq _ _)) in Hs by lia.
  rewrite Z.rem_mod_nonneg in Hs by lia. injection Hs as <-.
  unfold task_at, zget in Ht.
  rewrite (proj2 (Z.ltb_ge _ _)) in Ht by (apply Z.mod_pos_bound; lia). exact Ht.
Qed.

Lemma rown_release_tasks (o : pool_op) b s k : forall n i,
  Inv s -> Z.of_nat (i + n) = length_ s -> rown o k (Alone b s) 0 ->
  rown o (release_tasks n (Z.of_nat i) k) (Alone b s) (Prelude.cnt x (drop i (pool_queue s))).
Proof.
  induction n as [|n IH]; intros i Hi Hn Hk; cbn [release_tasks].
  - rewrite drop_ge; [exact Hk|]. pose proof (pool_queue_length wc cap s Hi). lia.
  - cbn [own]. intros s' H. apply bind_Some in H as (slot & Hs & H).
    apply bind_Some in H as (t & Ht & [= <-]). rewrite Hs. cbn [mbind option_bind]. rewrite Ht.
    rewrite (drop_S _ t) by (eapply pool_queue_slot; eauto; lia). rewrite cnt_cons.
    fold (is_it x t). simpl needed. simpl gained.
    pose proof (cnt_nonneg x (drop (S i) (pool_queue s))).
    split; [lia|]. split; [lia|].
    replace (_ + - _) with (Prelude.cnt x (drop (S i) (pool_queue s))) by lia.
    replace (Z.of_nat i + 1) with (Z.of_nat (S i)) by lia. apply IH; [done|lia|done].
Qed.

Lemma uown_release_tasks (o : pool_op) b s k : forall n i,
  uown o k (Alone b s) 0 -> uown o (release_tasks n i k) (Alone b s) 0.
Proof.
  induction n as [|n IH]; intros i Hk; cbn [release_tasks]; [done|].
  repeat own_step; cbn; try lia. by apply IH.
Qed.

Lemma rown_release (o : pool_op) k :
  rown o k Outside 0 -> rown o (sync_thread_pool_core_release k) Outside 0.
Proof.
  intros Hk. unfold sync_thread_pool_core_release. unfold_native. cbn [own]. split.
  - intros r Hr. rewrite (proj2 (Z.eqb_neq _ _) Hr). done.
  - intros s Hi. cbn [Z.eqb negb own]. intros s' [= <-].
    simpl salvaged. rewrite Z.add_0_l.
    replace (held x (tasks s)) with (Prelude.cnt x (drop 0 (pool_queue s))).
    2:{ rewrite drop_0. unfold pool_queue. rewrite (pi_capacity _ _ _ Hi). symmetry.
        eapply held_contents, (pi_ring _ _ _ Hi). }
    apply (rown_release_tasks o false s _ _ 0%nat); [done| |].
    { pose proof (pool_inv_length wc cap s Hi). lia. }
    repeat own_step; done.
Qed.

Lemma uown_release (o : pool_op) k :
  uown o k Outside 0 -> uown o (sync_thread_pool_core_release k) Outside 0.
Proof.
  intros Hk. unfold sync_thread_pool_core_release. unfold_native. cbn [own]. split.
  - intros r Hr. rewrite (proj2 (Z.eqb_neq _ _) Hr). done.
  - intros s Hi. cbn [Z.eqb negb own]. intros s' [= <-]. cbn [salvaged calls_ledger Z.add].
    apply uown_release_tasks. repeat own_step; done.
Qed.

(** *** The operations, for both accounts *)

Section both.
Context (L : ledger pool) (HL : L = refs_ledger x \/ L = calls_ledger x).

Abbreviation pown := (own pool_code (pool_spec wc cap) L).

(** The arithmetic of either account. *)
Ltac both_count :=
  destruct HL as [-> | ->]; cbn in *; unfold refusal; cbn;
  repeat match goal with
  | H : submitted ?o = _ |- context [submitted ?o] => rewrite H
  | H : (?z =? 0) = false |- context [?z =? 0] => rewrite H
  end; own_count.

Lemma pool_own_release (o : pool_op) k :
  pown o k Outside 0 -> pown o (sync_thread_pool_core_release k) Outside 0.
Proof using HL. destruct HL as [-> | ->]; [apply rown_release|apply uown_release]. Qed.

Lemma pool_own_enqueue (o : pool_op) t error s :
  submitted o = Some t -> Inv s -> length_ s < cap -> pown o (enqueue t error) (Inside s) (is_it x t).
Proof using HL.
  intros Ho Hi Hlt. pose proof (ring_tail_free _ _ _ _ _ (pi_ring _ _ _ Hi) Hlt) as Hfree.
  unfold enqueue. unfold_native. repeat own_step; both_count.
Qed.

Lemma own_reject o t result error s :
  submitted o = Some t -> (result =? 0) = false ->
  pown o (reject t result error) (Inside s) (is_it x t).
Proof using HL. intros Ho Hr. unfold reject. unfold_native. repeat own_step; both_count. Qed.

Lemma pool_own_submit o t block here :
  submitted o = Some t -> pown o (sync_thread_pool_submit_task t block here) Outside (is_it x t).
Proof using HL.
  intros Ho. unfold sync_thread_pool_submit_task. unfold_native.
  repeat lazymatch goal with
  | |- own _ _ _ _ (enqueue _ _) _ _ => apply pool_own_enqueue; [done|done|]
  | |- own _ _ _ _ (reject _ _ _) _ _ => by apply own_reject
  | |- length_ _ < _ => apply (pool_room wc cap); [done|by apply Z.eqb_neq]
  | |- _ => own_step
  end; both_count.
Qed.

(** A worker calls the task it took, then releases it. *)
Lemma own_take s :
  Inv s -> length_ s <> 0 -> pown OpWorker worker_take (Inside s) 0.
Proof using HL.
  intros Hi Hl. pose proof (pool_inv_length wc cap s Hi).
  destruct (ring_pop _ _ _ _ _ (pi_ring _ _ _ Hi) ltac:(lia)) as (t & Ht & _).
  unfold worker_take, task_at. unfold_native. unfold_native.
  repeat own_step; rewrite ?Ht in *; simplify_eq/=; try both_count.
  destruct HL as [-> | ->]; (split; [own_count|done]).
Qed.

Lemma own_worker : pown OpWorker worker_round Outside 0.
Proof using HL.
  unfold worker_round, worker_exit, broadcast_or_abort. unfold_native. unfold_native.
  repeat lazymatch goal with
  | |- own _ _ _ _ worker_take _ _ => apply own_take; [done|by apply Z.eqb_neq]
  | |- own _ _ _ _ (sync_thread_pool_core_release _) _ ?n =>
      replace n with 0 by both_count; apply pool_own_release
  | |- _ => own_step
  end; both_count.
Qed.

(** *** The constructor *)

(** The next steps of a thread that has nothing in hand. *)
Ltac empty_step :=
  lazymatch goal with
  | |- own _ _ _ _ (sync_thread_pool_core_release _) _ ?n =>
      replace n with 0 by both_count; apply pool_own_release
  | |- _ => own_step
  end.

Lemma own_close_core (o : pool_op) k :
  (forall st, pown o (k st) Outside 0) -> pown o (sync_thread_pool_close_core k) Outside 0.
Proof using HL.
  intros Hk. unfold sync_thread_pool_close_core. unfold_native. repeat empty_step;
  lazymatch goal with
       | |- own _ _ _ _ (k _) _ ?n => replace n with 0 by both_count; apply Hk
       | |- _ => both_count
       end.
Qed.

Lemma own_wait_workers (o : pool_op) k :
  submitted o = None ->
  pown o k Outside 0 -> pown o (sync_thread_pool_wait_workers_or_abort k) Outside 0.
Proof using HL.
  intros Ho Hk. unfold sync_thread_pool_wait_workers_or_abort. unfold_native. unfold_native.
  repeat empty_step;
  lazymatch goal with
       | |- own _ _ _ _ k _ ?n => replace n with 0 by both_count; apply Hk
       | |- _ => both_count
       end.
Qed.

Lemma own_not_started o st :
  submitted o = None -> pown o (not_started st) Outside 0.
Proof using HL.
  intros Ho. unfold not_started, sync_thread_pool_close_core_or_abort. unfold_native. unfold_native.
  repeat lazymatch goal with
  | |- own _ _ _ _ (sync_thread_pool_close_core _) _ _ => apply own_close_core; intro
  | |- own _ _ _ _ (sync_thread_pool_wait_workers_or_abort _) _ _ => apply own_wait_workers; [done|]
  | |- _ => empty_step
  end; both_count.
Qed.

Lemma own_start_one o k :
  submitted o = None -> pown o k Outside 0 ->
  pown o
    (lock_or_abort
       (Write (fun core => n ← i32 (live_workers core + 1); Some (set_live_workers n core))
       (unlock_or_abort
       (Spawn OpWorker (fun create_status =>
        if negb (create_status =? 0) then not_started create_status
        else OsCall (fun st => abort_if_failed st k)))))) Outside 0.
Proof using HL.
  intros Ho Hk. unfold_native. unfold_native. repeat empty_step;
  lazymatch goal with
       | |- own _ _ _ _ k _ ?n => replace n with 0 by both_count; apply Hk
       | |- own _ _ _ _ (not_started _) _ ?n => replace n with 0 by both_count; by apply own_not_started
       | |- _ => both_count
       end.
Qed.

Lemma own_start_workers o k : forall n,
  submitted o = None -> pown o k Outside 0 -> pown o (start_workers n k) Outside 0.
Proof using HL.
  induction n as [|n IH]; intros Ho Hk; [done|]. cbn [start_workers]. unfold sync_arc_inc.
  cbn [own]. apply own_start_one; auto.
Qed.

(** The first worker's reference makes the new pool shared. *)
Lemma own_new_core o wc' cap' s :
  submitted o = None -> 0 < wc' -> pown o (new_core wc' cap') (Alone true s) 0.
Proof using HL.
  intros Ho Hw. unfold new_core, sync_thread_pool_wrap. unfold_native. unfold_native.
  destruct (Z.to_nat wc') as [|n] eqn:Hn; [lia|].
  repeat lazymatch goal with
  | |- own _ _ _ _ (start_workers _ _) _ _ => fail
  | |- _ => own_step
  end; try both_count.
  cbn [start_workers]. unfold sync_arc_inc. cbn [own].
  assert (0 - kept L (PoolCore (replicate (Z.to_nat cap') None) cap' (head s) (tail s) (length_ s)
    wc' (live_workers s) 1 1) = 0) as E.
  { destruct HL as [-> | ->]; cbn; by rewrite held_empty. }
  unfold set_accepting, set_handles, set_worker_count, set_capacity, set_tasks. cbn [tasks
    capacity head tail length_ worker_count live_workers handles accepting]. rewrite E.
  split; [done|]. apply own_start_one; [done|]. apply own_start_workers; [done|].
  repeat own_step; both_count.
Qed.

Lemma own_block o l m n : at_head L o l m n -> pown o (block pool_code l) m n.
Proof using HL.
  intros H. assert (pool_heads o l m n) as [-> Hh] by (by destruct HL as [-> | ->]). clear H.
  destruct l as [y current|]; cbn [block pool_code pool_block].
  - destruct Hh as (Ho & s & -> & Hw). unfold should_fail_round, after_hook,
      sync_thread_pool_test_should_fail_alloc. unfold_native. unfold_native.
    repeat lazymatch goal with
    | |- own _ _ _ _ (new_core _ _) _ _ => by apply own_new_core
    | |- at_head _ _ _ _ _ =>
        destruct HL as [-> | ->]; (split; [done|]); (split; [done|]); eexists; (split; [done|done])
    | |- _ => own_step
    end; both_count.
  - destruct Hh as [-> ->]. apply own_worker.
Qed.

Lemma pool_own_new wc' cap' s : pown (OpNew wc' cap') (pool_body (OpNew wc' cap')) (Alone true s) 0.
Proof using HL.
  cbn [pool_body]. unfold sync_thread_pool_new, sync_thread_pool_test_should_fail_alloc.
  unfold_native. case_match eqn:Hb; [by destruct HL as [-> | ->]|]. cbn [own]. intros hk.
  assert (0 < wc') as Hw by (destruct (Z.leb_spec wc' 0); [done|lia]).
  destruct HL as [-> | ->]; (split; [done|]); (split; [done|]); eexists; (split; [done|done]).
Qed.

Lemma pool_own_handle o d :
  client pool_code o = true -> pool_on_handle o = Some d ->
  pown o (pool_body o) Outside (is_in x (submitted o)).
Proof using HL.
  intros Hc Hd. destruct o as [| |t here|t here| | | | | | | | | |]; cbn in Hd, Hc; simplify_eq;
    cbn [pool_body submitted is_in];
    unfold sync_thread_pool_try_execute, sync_thread_pool_execute; try by apply pool_own_submit.
  all: unfold sync_thread_pool_share, sync_thread_pool_close, sync_thread_pool_shutdown,
      sync_thread_pool_is_closed, sync_thread_pool_worker_count,
      sync_thread_pool_pending_count, sync_thread_pool_finalize,
      sync_thread_pool_wrap, broadcast_or_abort; unfold_native; unfold_native;
    repeat lazymatch goal with
    | |- own _ _ _ _ (sync_thread_pool_close_core _) _ _ => apply own_close_core; intro
    | |- _ => empty_step
    end; try both_count.
  all: destruct HL as [-> | ->]; cbn; unfold refusal; cbn; by repeat case_match.
Qed.

Lemma pool_own_static o :
  client pool_code o = true -> pool_on_handle o = None ->
  pown o (pool_body o) Apart (is_in x (submitted o)).
Proof using HL.
  destruct o; try done; intros _ _; cbn [pool_body submitted is_in];
    unfold sync_thread_pool_test_fail_alloc_after, sync_thread_pool_test_fail_next_submit,
      sync_thread_pool_test_fail_next_shutdown; unfold_native; repeat own_step; both_count.
Qed.

Lemma pool_accounted : accounted pool_code (pool_spec wc cap) L (OpNew wc cap).
Proof using HL.
  assert (forall o, brought L o = is_in x (submitted o)) as Hb by (by destruct HL as [-> | ->]).
  split.
  - intros o. rewrite Hb. destruct (submitted o) as [t|]; simpl; [apply is_it_bounds|done].
  - intros s. pose proof (held_nonneg x (tasks s)). destruct HL as [-> | ->]; cbn; lia.
  - intros o d. rewrite Hb. apply pool_own_handle.
  - intros o. rewrite Hb. apply pool_own_static.
  - intros o. rewrite Hb. destruct o; try done. intros _. apply own_worker.
  - apply own_block.
  - apply pool_own_new.
Qed.
End both.
End accounts.

(** ** Reading a trace *)

(** The tasks submitted, those whose submission was refused, those called and
    those released. *)
Definition handed_in (l : label pool) : option task :=
  match l with LInv _ o => submitted o | _ => None end.

Definition refused (l : label pool) : option task :=
  match l with LRes _ o r => refusal o r | _ => None end.

Definition called (l : label pool) : option task :=
  match l with LEv _ (Call t) => t | _ => None end.

Definition released (l : label pool) : option task :=
  match l with LEv _ (Decref t) => t | _ => None end.

Lemma refs_flow x l :
  booking (refs_ledger x) l = is_in x (handed_in l) - is_in x (None : option task) - is_in x (released l).
Proof. destruct l as [t o|t o r|t []|]; simpl; lia. Qed.

Lemma calls_flow x l :
  booking (calls_ledger x) l = is_in x (handed_in l) - is_in x (refused l) - is_in x (called l).
Proof. destruct l as [t o|t o r|t []|]; simpl; lia. Qed.

Lemma omap_none {A B} (l : list A) : omap (fun _ => None : option B) l = [].
Proof. by induction l. Qed.

Lemma omap_visible {B} (f : label pool -> option B) (tr : list (label pool)) :
  (forall l, visible l = false -> f l = None) ->
  omap f (filter (fun l => visible l = true) tr) = omap f tr.
Proof.
  intros Hf. induction tr as [|l tr IH]; [done|]. rewrite filter_cons.
  assert (forall ls, omap f (l :: ls) = match f l with Some y => y :: omap f ls | None => omap f ls end)
    as E by done.
  case_decide as Hv; rewrite !E, IH; [done|]. rewrite (Hf l); [done|]. by apply not_true_is_false.
Qed.

(** *** The linearisation accepts what was submitted and is not refused *)

(** A pending submission that is not decided, or decided to be refused. *)
Definition undecided (x : task) (p : pool_op * option pool_res) : Z :=
  match p.2 with
  | Some r => is_in x (refusal p.1 r)
  | None => is_in x (submitted p.1)
  end.

Lemma accepted_by_spec x t o r b :
  (match r with RInt _ _ => True | _ => submitted o = None end) ->
  Prelude.cnt x (accepted_by (Entry t o r b)) + is_in x (refusal o r) = is_in x (submitted o).
Proof.
  unfold accepted_by, refusal. simpl. intros H.
  destruct o; simpl in *; destruct r; simpl in *; try done; try by destruct (_ =? 0).
  all: destruct v; simpl; rewrite ?cnt_one, ?cnt_empty; unfold is_it; lia.
Qed.

Lemma pool_atomic_int wc cap o a r a' :
  pool_atomic wc cap o a r a' -> match r with RInt _ _ => True | _ => submitted o = None end.
Proof. by destruct o, r. Qed.

Lemma accepted_log wc cap x o0 tr log a P :
  submitted o0 = None -> aexec (pool_spec wc cap) o0 tr log a P ->
  Prelude.cnt x (omap handed_in tr) =
    Prelude.cnt x (accepted log) + Prelude.cnt x (omap refused tr) + msum (undecided x) P.
Proof.
  intros Ho0.
  induction 1 as [|tr log a P t o H IH HP|tr log a a' P t o r H IH HP Ha|
                  tr log a a' P t o l r H IH HP Hi|tr log a P t o r H IH HP].
  - unfold singletonM, map_singleton. rewrite msum_new by done. cbn. by rewrite Ho0.
  - rewrite !omap_app, !cnt_app, msum_new, IH by done. cbn. destruct (submitted o); simpl; rewrite ?cnt_one.
    all: rewrite ?cnt_empty; unfold is_it; lia.
  - rewrite (msum_insert _ _ _ _ _ HP), IH. unfold accepted. rewrite bind_app, cnt_app. simpl.
    rewrite app_nil_r. pose proof (accepted_by_spec x t o r true (pool_atomic_int _ _ _ _ _ _ Ha)).
    unfold undecided. simpl. lia.
  - rewrite IH. unfold accepted. rewrite bind_app, cnt_app. simpl. rewrite app_nil_r.
    assert (accepted_by (Entry t o r false) = []) as ->; [|rewrite cnt_empty; lia].
    by destruct o, r.
  - rewrite !omap_app, !cnt_app, (msum_delete _ _ _ _ HP), IH. cbn. unfold undecided. simpl.
    destruct (refusal o r); simpl; rewrite ?cnt_one, ?cnt_empty; unfold is_it; lia.
Qed.

(** *** The states at rest *)

Lemma is_in_bounds x (y : option task) : 0 <= is_in x y <= 1.
Proof. destruct y; simpl; [apply is_it_bounds|lia]. Qed.

Lemma undecided_bounds x p : 0 <= undecided x p <= is_in x (submitted p.1).
Proof.
  destruct p as [o [r|]]; unfold undecided; simpl; pose proof (is_in_bounds x (submitted o)); [|lia].
  destruct r; simpl; try lia. case_match; simpl; lia.
Qed.

(** The submissions that are undecided are among those that wait. *)
Lemma undecided_waiting x (c : config pool) (P : gmap tid (pool_op * option pool_res)) :
  fst <$> P = fst <$> threads c ->
  0 <= msum (undecided x) P <= Prelude.cnt x (waiting submitted c).
Proof.
  intros HP. split; [apply msum_nonneg; intros; apply undecided_bounds|].
  rewrite <- (cnt_waiting submitted (fun o => is_in x (submitted o)) x) by done.
  pose proof (f_equal (msum (fun o => is_in x (submitted o))) HP) as E.
  rewrite !msum_fmap in E. etrans; [|by apply Z.eq_le_incl].
  apply msum_le. intros; apply undecided_bounds.
Qed.

Section rest.
Context (wc cap : Z) (h : pool_hooks).

Abbreviation V := (pool_verified wc cap).
Abbreviation ctor := (OpNew wc cap).

Lemma refs_accounted x : accounted pool_code (pool_spec wc cap) (refs_ledger x) ctor.
Proof. apply (pool_accounted wc cap x). by left. Qed.

Lemma calls_accounted x : accounted pool_code (pool_spec wc cap) (calls_ledger x) ctor.
Proof. apply (pool_accounted wc cap x). by right. Qed.

Lemma kept_queue x c tr :
  reachable pool_code ctor h c tr -> free c -> held x (tasks (core c)) = Prelude.cnt x (pool_queue (core c)).
Proof.
  intros H Hf. pose proof (verified_inv V h c tr H Hf) as Hi. unfold pool_queue.
  rewrite (pi_capacity _ _ _ Hi). eapply held_contents, (pi_ring _ _ _ Hi).
Qed.

(** A task is called or released only by a thread that has it. *)
Lemma pool_covered c tr tr1 t e tr2 :
  reachable pool_code ctor h c tr -> tr = tr1 ++ LEv t e :: tr2 ->
  match e with
  | Call (Some x) =>
      Prelude.cnt x (omap refused tr1) + Prelude.cnt x (omap called tr1) <
      Prelude.cnt x (omap handed_in tr1)
  | _ => True
  end /\
  match e with
  | Call (Some x) | Decref (Some x) =>
      Prelude.cnt x (omap released tr1) < Prelude.cnt x (omap handed_in tr1)
  | _ => True
  end.
Proof.
  intros H Htr.
  assert (forall y : task, needed (calls_ledger y) e = 1 ->
    Prelude.cnt y (omap refused tr1) + Prelude.cnt y (omap called tr1) < Prelude.cnt y (omap handed_in tr1))
    as Hc by (intros y; eapply (flow_covered V calls_ledger calls_accounted _ _ _ calls_flow); eauto).
  assert (forall y : task, needed (refs_ledger y) e = 1 ->
    Prelude.cnt y (omap (fun _ : label pool => None : option task) tr1) + Prelude.cnt y (omap released tr1) <
    Prelude.cnt y (omap handed_in tr1))
    as Hd by (intros y; eapply (flow_covered V refs_ledger refs_accounted _ _ _ refs_flow); eauto).
  rewrite omap_none in Hd. destruct e as [[y|]|[y|]]; try done; (split; [done || apply Hc|apply Hd]);
    cbn; unfold is_it; by rewrite bool_decide_true.
Qed.

(** What becomes of the references. *)
Lemma pool_references c tr :
  reachable pool_code ctor h c tr ->
  (at_rest c -> shared c = true ->
     omap handed_in tr ≡ₚ omap released tr ++ pool_queue (core c) ++ waiting submitted c) /\
  (idle c = [] -> threads c = ∅ -> omap handed_in tr ≡ₚ omap released tr).
Proof.
  intros H. rewrite <- (app_nil_l (omap released tr)), <- (omap_none (B:=task) tr). split.
  - intros Hrest Hsh. rewrite <- app_assoc.
    apply (flow_rest V refs_ledger refs_accounted _ _ _ _ refs_flow h c tr); try done.
    intros x. apply (kept_queue x c tr H), (rest_free V h c tr H Hrest Hsh).
  - intros Hi HT. by apply (flow_gone V refs_ledger refs_accounted _ _ _ refs_flow h c tr).
Qed.

(** And of the calls. *)
Lemma pool_calls c tr :
  reachable pool_code ctor h c tr -> at_rest c -> shared c = true ->
  omap handed_in tr ≡ₚ
    omap refused tr ++ omap called tr ++ pool_queue (core c) ++ waiting submitted c.
Proof.
  intros H Hrest Hsh.
  apply (flow_rest V calls_ledger calls_accounted _ _ _ _ calls_flow h c tr); try done.
  intros x. apply (kept_queue x c tr H), (rest_free V h c tr H Hrest Hsh).
Qed.

(** The tasks the specification hands to the workers are those they call. *)
Lemma pool_taken c tr :
  reachable pool_code ctor h c tr ->
  exists log a P,
    aexec (pool_spec wc cap) ctor (filter (fun l => visible l = true) tr) log a P /\
    (free c -> a = Some (pool_abs (core c))) /\
    (at_rest c -> shared c = true ->
       omap called tr ⊆+ taken log /\ (waiting submitted c = [] -> taken log ≡ₚ omap called tr)).
Proof.
  intros H. destruct (verified_pending V h c tr H) as (log & a & P & Ha & Hf & HP).
  exists log, a, P. split; [done|]. split; [done|]. intros Hrest Hsh.
  pose proof (rest_free V h c tr H Hrest Hsh) as Hfree.
  assert (forall x, Prelude.cnt x (taken log) + msum (undecided x) P =
    Prelude.cnt x (omap called tr) + Prelude.cnt x (waiting submitted c)) as Hx.
  { intros x. pose proof (accepted_log wc cap x ctor _ log a P eq_refl Ha) as E.
    rewrite !omap_visible in E by (by intros []).
    rewrite (perm_cnt _ _ x (pool_calls c tr H Hrest Hsh)), (pool_fifo_log _ _ _ _ _ _ _ Ha), (Hf Hfree) in E.
    change (queue_of (Some (abs (pool_spec wc cap) (core c)))) with (pool_queue (core c)) in E.
    rewrite !cnt_app in E. lia. }
  split.
  - apply cnt_submseteq. intros x. specialize (Hx x).
    pose proof (undecided_waiting x c P HP). lia.
  - intros Hw. apply cnt_perm. intros x. specialize (Hx x).
    pose proof (undecided_waiting x c P HP) as Hu. rewrite Hw, cnt_empty in *. lia.
Qed.
End rest.

Section properties.
Context (wc cap : Z) (h : pool_hooks).

Abbreviation V := (pool_verified wc cap).
Abbreviation ctor := (OpNew wc cap).

(** C4: tasks are taken by the workers in the order in which they were accepted,
    none lost and none twice: the tasks taken are a prefix of those accepted, and
    the rest is the content of the queue, which never exceeds the capacity.  What
    is taken is what the workers call: a call or a release of a task is covered by
    a submission of it that was neither refused nor used up by an earlier call
    (release); and at rest (every thread asleep) the tasks called are among those
    taken, and are exactly those taken if no submission is waiting, and each task
    submitted has been refused, has been called, is queued or waits (exactly one
    of these), and has been released unless it is queued or waits.  In the end
    every task submitted has been released, once. *)
Theorem thread_pool_fifo c tr :
  reachable pool_code ctor h c tr ->
  (exists log a P,
     aexec (pool_spec wc cap) ctor (filter (fun l => visible l = true) tr) log a P /\
     taken log `prefix_of` accepted log /\
     (free c -> accepted log = taken log ++ pool_queue (core c) /\
                Z.of_nat (length (pool_queue (core c))) <= cap) /\
     (at_rest c -> shared c = true ->
        omap called tr ⊆+ taken log /\ (waiting submitted c = [] -> taken log ≡ₚ omap called tr))) /\
  (forall tr1 t x tr2, tr = tr1 ++ LEv t (Call (Some x)) :: tr2 ->
     Prelude.cnt x (omap refused tr1) + Prelude.cnt x (omap called tr1) <
       Prelude.cnt x (omap handed_in tr1) /\
     Prelude.cnt x (omap released tr1) < Prelude.cnt x (omap handed_in tr1)) /\
  (forall tr1 t x tr2, tr = tr1 ++ LEv t (Decref (Some x)) :: tr2 ->
     Prelude.cnt x (omap released tr1) < Prelude.cnt x (omap handed_in tr1)) /\
  (at_rest c -> shared c = true ->
     omap handed_in tr ≡ₚ
       omap refused tr ++ omap called tr ++ pool_queue (core c) ++ waiting submitted c /\
     omap handed_in tr ≡ₚ omap released tr ++ pool_queue (core c) ++ waiting submitted c) /\
  (idle c = [] -> threads c = ∅ -> omap handed_in tr ≡ₚ omap released tr).
Proof.
  intros H. destruct (pool_references wc cap h c tr H) as [Hrest Hgone]. split_and!.
  - destruct (pool_taken wc cap h c tr H) as (log & a & P & Ha & Hf & Hrun).
    exists log, a, P. pose proof (pool_fifo_log _ _ _ _ _ _ _ Ha) as Hq. split; [done|].
    split; [by eexists|]. split; [|done]. intros Hc. rewrite (Hf Hc) in Hq. split; [done|].
    pose proof (verified_inv V h c tr H Hc) as Hi.
    rewrite (pool_queue_length wc cap) by done. by apply (pool_inv_length wc cap).
  - intros tr1 t x tr2 Htr. by apply (pool_covered wc cap h c tr tr1 t (Call (Some x)) tr2).
  - intros tr1 t x tr2 Htr. by apply (pool_covered wc cap h c tr tr1 t (Decref (Some x)) tr2).
  - intros Hr Hs. split; [by apply (pool_calls wc cap h)|auto].
  - done.
Qed.

(** C24: closing drains: once a worker thread has ended, every task that was ever
    accepted has been taken by a worker, and whenever the mutex is free the pool
    is closed and its queue empty; at rest (every thread asleep) every task
    submitted has been called, unless it was refused or its submission still
    waits, and if none waits the accepted tasks are exactly those called. *)
Theorem thread_pool_drained c tr t :
  reachable pool_code ctor h c tr -> LRes t OpWorker RUnit ∈ tr ->
  (exists log a P,
     aexec (pool_spec wc cap) ctor (filter (fun l => visible l = true) tr) log a P /\
     accepted log = taken log /\
     (free c -> accepting (core c) = 0 /\ pool_queue (core c) = []) /\
     (at_rest c -> shared c = true -> waiting submitted c = [] -> accepted log ≡ₚ omap called tr)) /\
  (at_rest c -> shared c = true ->
     omap handed_in tr ≡ₚ omap refused tr ++ omap called tr ++ waiting submitted c).
Proof.
  intros H Ht. destruct (pool_taken wc cap h c tr H) as (log & a & P & Ha & Hf & Hrun).
  destruct (pool_drained_log _ _ _ _ _ _ _ Ha) as (s & -> & Hs & Hq).
  { exists t, RUnit. eapply (aexec_returned (pool_spec wc cap)); [exact Ha|].
    by apply list_elem_of_filter. }
  assert (accepted log = taken log) as Hall
    by (by rewrite (pool_fifo_log _ _ _ _ _ _ _ Ha); simpl; rewrite Hq, app_nil_r).
  assert (free c -> accepting (core c) = 0 /\ pool_queue (core c) = []) as Hfree.
  { intros Hc. specialize (Hf Hc). simplify_eq/=. by apply Z.eqb_eq in Hs. }
  split.
  - exists log, (Some s), P. do 3 (split; [done|]). intros Hrest Hsh Hw. rewrite Hall.
    by apply Hrun.
  - intros Hrest Hsh. pose proof (pool_calls wc cap h c tr H Hrest Hsh) as Hc.
    by rewrite (proj2 (Hfree (rest_free V h c tr H Hrest Hsh))) in Hc.
Qed.
End properties.

(** ** Witnesses *)

(** The worker waits, runs task 7 and waits again. *)
Definition pool_rest : list (choice pool) :=
  pool_new ++ steps 10 2 ++ [call 1 (OpExecute 7 false)] ++ steps 1 8 ++
  [CStep (S:=pool) 1%nat 0 10%nat] ++ steps 1 2 ++ steps 10 14.

Lemma thread_pool_fifo_witness :
  exists (c : config pool) tr, at_rest c /\ shared c = true /\ waiting submitted c = [] /\
    omap called tr = [7] /\ omap released tr = [7] /\
    (exists log a P,
       aexec (pool_spec 1 1) (OpNew 1 1) (filter (fun l => visible l = true) tr) log a P /\
       taken log `prefix_of` accepted log /\
       (free c -> accepted log = taken log ++ pool_queue (core c) /\
                  Z.of_nat (length (pool_queue (core c))) <= 1) /\
       (at_rest c -> shared c = true ->
          omap called tr ⊆+ taken log /\
          (waiting submitted c = [] -> taken log ≡ₚ omap called tr))) /\
    (omap handed_in tr ≡ₚ
       omap refused tr ++ omap called tr ++ pool_queue (core c) ++ waiting submitted c /\
     omap handed_in tr ≡ₚ omap released tr ++ pool_queue (core c) ++ waiting submitted c) /\
    exists (c' : config pool) tr', idle c' = [] /\ threads c' = ∅ /\ omap released tr' = [7; 8] /\
      omap handed_in tr' ≡ₚ omap released tr'.
Proof.
  assert (at_rest (pool_after pool_rest).1) as Hrest by (apply at_rest_compute; vm_compute; reflexivity).
  assert (shared (pool_after pool_rest).1 = true) as Hsh by (vm_compute; reflexivity).
  exists (pool_after pool_rest).1, (pool_after pool_rest).2.
  split; [exact Hrest|]. split; [exact Hsh|]. do 3 (split; [vm_compute; reflexivity|]).
  assert (reachable pool_code (OpNew 1 1) pool_h0 (pool_after pool_rest).1 (pool_after pool_rest).2)
    as Hr by scenario.
  split; [apply (proj1 (thread_pool_fifo 1 1 pool_h0 _ _ Hr))|].
  split; [apply (proj1 (proj2 (proj2 (proj2 (thread_pool_fifo 1 1 pool_h0 _ _ Hr)))));
    [exact Hrest|exact Hsh]|].
  exists (pool_after pool_gone).1, (pool_after pool_gone).2.
  do 3 (split; [vm_compute; reflexivity|]).
  apply (proj2 (proj2 (proj2 (proj2 (thread_pool_fifo 1 1 pool_h0 (pool_after pool_gone).1
    (pool_after pool_gone).2 ltac:(scenario)))))); vm_compute; reflexivity.
Defined.

Lemma thread_pool_drained_witness :
  exists (c : config pool) tr, free c /\ at_rest c /\ shared c = true /\
    LRes (S:=pool) 10%nat OpWorker RUnit ∈ tr /\ omap called tr = [7; 8] /\
    (exists log a P,
       aexec (pool_spec 1 1) (OpNew 1 1) (filter (fun l => visible l = true) tr) log a P /\
       accepted log = taken log /\
       (free c -> accepting (core c) = 0 /\ pool_queue (core c) = []) /\
       (at_rest c -> shared c = true -> waiting submitted c = [] -> accepted log ≡ₚ omap called tr)) /\
    (at_rest c -> shared c = true ->
       omap handed_in tr ≡ₚ omap refused tr ++ omap called tr ++ waiting submitted c).
Proof.
  exists (pool_after pool_worker_left).1, (pool_after pool_worker_left).2.
  split; [vm_compute; split; [reflexivity|discriminate]|].
  split; [apply at_rest_compute; vm_compute; reflexivity|]. split; [vm_compute; reflexivity|].
  assert (last (pool_after pool_worker_left).2 = Some (LRes (S:=pool) 10%nat OpWorker RUnit)) as Hl
    by (vm_compute; reflexivity).
  apply last_Some in Hl as [tr Hl].
  assert (LRes (S:=pool) 10%nat OpWorker RUnit ∈ (pool_after pool_worker_left).2) as Hin
    by (rewrite Hl, elem_of_app; right; constructor).
  split; [exact Hin|]. split; [vm_compute; reflexivity|].
  apply (thread_pool_drained 1 1 pool_h0 _ _ 10%nat); [scenario|exact Hin].
Defined.
