(* ===== verification/Interleave.v ===== *)
(** Interleave: programs of atomic steps over a shared state, and a logic for them.

    The components whose operations hold an OS lock across calls, wait for
    another thread, or work without a lock (Atomic, RwLock, Mutex, Thread) do
    not fit the lock discipline of Machine.  Their functions are programs whose
    steps are arbitrary atomic state transformers; each file defines its own
    steps for the OS calls and memory accesses of its source file.

    The logic is an Owicki-Gries style one: every running operation has a ghost
    value, the invariant ranges over the trace, the state and the ghost values
    of all running operations, and every step of every operation keeps it. *)
From stdpp Require Import base gmap list.
From Stdlib Require Import ZArith Lia.
From S2P Require Import Prelude.

(** ** Programs *)

Record lang := Lang {
  lS : Type;    (** the shared state *)
  lO : Type;    (** operations with their arguments *)
  lR : Type;    (** results, out-parameters included *)
  lE : Type;    (** visible effects *)
}.

(** What one step shows: an OS call (or a test hook in its place) answered with
    a failing status, or an effect. *)
Inductive event (L : lang) := Failed (st : Z) | Effect (e : lE L).
Arguments Failed {L} st.
Arguments Effect {L} & e.

(** An atomic step of thread [t], given the status [a] the environment answers
    and the thread [v] it picks, where the step affects another thread. *)
Definition action (L : lang) (A : Type) : Type :=
  tid -> Z -> tid -> lS L -> outcome (A * lS L * list (event L)).

Inductive prog (L : lang) : Type :=
| Ret (r : lR L)                                    (** return from the operation *)
| Abort                                             (** abort() *)
| Act {A : Type} (f : action L A) (k : A -> prog L)
| Fork (o : lO L) (f : tid -> lS L -> outcome (lS L)) (k : Z -> prog L).
    (** thread creation: the new thread runs [o]; [f] gets its identity *)
Arguments Ret {L} & r.
Arguments Abort {L}.
Arguments Act {L A} & f k.
Arguments Fork {L} & o f k.

Declare Scope iprog_scope.
Delimit Scope iprog_scope with iprog.
Notation "x <- c ;; k" := (c (fun x => k))
  (at level 100, c at next level, k at level 200, right associativity, only parsing) : iprog_scope.
Notation "c ;; k" := (c k) (at level 100, k at level 200, right associativity, only parsing) : iprog_scope.

(** The code of a component: the body of each operation, what a call does to
    the client's side of the state (it needs a handle, say, and [None] is a call
    no client can make), and what its return does. *)
Record code (L : lang) := Code {
  body : lO L -> prog L;
  enter : tid -> lO L -> lS L -> option (lS L);
  leave : tid -> lO L -> lR L -> lS L -> lS L;
}.
Arguments body {L} _ _.
Arguments enter {L} _ _ _ _.
Arguments leave {L} _ _ _ _ _.

(** A call reports the status of the first call in it that failed. *)
Definition reports {L} (es : list (event L)) (st : Z) : Prop :=
  match es with
  | [] => st = 0
  | Failed e :: _ => st = e /\ e <> 0
  | Effect _ :: _ => False
  end.

(** ** The machine *)

Inductive label (L : lang) :=
| LInv (t : tid) (o : lO L)
| LRes (t : tid) (o : lO L) (r : lR L)
| LEv (t : tid) (e : event L).
Arguments LInv {L} t o.
Arguments LRes {L} t o r.
Arguments LEv {L} t e.

Record config (L : lang) := Config {
  state : lS L;
  frames : gmap tid (lO L * prog L);
}.
Arguments Config {L} _ _.
Arguments state {L} _.
Arguments frames {L} _.

(** [CStep t a v]: thread [t] takes its next step; the environment answers [a]
    and picks [v], the identity of a thread that is created or woken. *)
Inductive choice (L : lang) :=
| CInvoke (t : tid) (o : lO L)
| CStep (t : tid) (a : Z) (v : tid).
Arguments CInvoke {L} t o.
Arguments CStep {L} t a v.

Section machine.
Context {L : lang} (M : code L).
Implicit Types (c : config L) (tr ls : list (label L)).

(** A call that fails is visible. *)
Definition fails (a : Z) : list (event L) := if a =? 0 then [] else [Failed a].

Definition step (x : choice L) c : outcome (config L * list (label L)) :=
  match x with
  | CInvoke t o =>
      match frames c !! t with
      | Some _ => Blocked
      | None =>
          match enter M t o (state c) with
          | Some s => Go (Config s (<[t := (o, body M o)]> (frames c)), [LInv t o])
          | None => Blocked
          end
      end
  | CStep t a v =>
      match frames c !! t with
      | None => Blocked
      | Some (o, Ret r) =>
          Go (Config (leave M t o r (state c)) (delete t (frames c)), [LRes t o r])
      | Some (o, Abort) => Blocked
      | Some (o, Act f k) =>
          match f t a v (state c) with
          | Go (x, s, es) => Go (Config s (<[t := (o, k x)]> (frames c)), LEv t <$> es)
          | Fault => Fault
          | Blocked => Blocked
          end
      | Some (o, Fork o' f k) =>
          if negb (a =? 0)
          then Go (Config (state c) (<[t := (o, k a)]> (frames c)), [LEv t (Failed a)])
          else
            match frames c !! v, f v (state c) with
            | Some _, _ => Blocked
            | None, Go s =>
                Go (Config s (<[v := (o', body M o')]> (<[t := (o, k 0)]> (frames c))), [LInv v o'])
            | None, Fault => Fault
            | None, Blocked => Blocked
            end
      end
  end.

Fixpoint run (xs : list (choice L)) (s : config L * list (label L))
    : outcome (config L * list (label L)) :=
  match xs with
  | [] => Go s
  | x :: xs =>
      match step x s.1 with
      | Go (c, ls) => run xs (c, s.2 ++ ls)
      | Fault => Fault
      | Blocked => Blocked
      end
  end.

(** Some schedule leads from the state [s0], with no operation running, to [c],
    showing the trace [tr]. *)
Definition reachable (s0 : lS L) c tr : Prop :=
  exists xs, run xs (Config s0 ∅, []) = Go (c, tr).

Lemma run_snoc xs x s s1 c ls :
  run xs s = Go s1 -> step x s1.1 = Go (c, ls) -> run (xs ++ [x]) s = Go (c, s1.2 ++ ls).
Proof.
  revert s. induction xs as [|y xs IH]; intros s; simpl.
  - intros [= ->] Hx. by rewrite Hx.
  - destruct (step y s.1) as [[c1 ls1]| |]; [|done..]. apply IH.
Qed.

Lemma reachable_step s0 x c tr c' ls :
  reachable s0 c tr -> step x c = Go (c', ls) -> reachable s0 c' (tr ++ ls).
Proof. intros [xs H] Hx. exists (xs ++ [x]). by apply (run_snoc _ _ _ _ _ _ H). Qed.

(** What thread [t]'s current operation has shown so far. *)
Definition event_step (t : tid) (acc : list (event L)) (l : label L) : list (event L) :=
  match l with
  | LInv t' _ => if decide (t' = t) then [] else acc
  | LEv t' e => if decide (t' = t) then acc ++ [e] else acc
  | LRes _ _ _ => acc
  end.

Definition events tr (t : tid) : list (event L) := fold_left (event_step t) tr [].

(** ** Concrete executions *)

Definition plays (s0 : lS L) (xs : list (choice L)) : bool :=
  match run xs (Config s0 ∅, []) with Go _ => true | _ => false end.

Definition after (s0 : lS L) (xs : list (choice L)) : config L * list (label L) :=
  match run xs (Config s0 ∅, []) with Go s => s | _ => (Config s0 ∅, []) end.

Lemma reachable_after s0 xs :
  plays s0 xs = true -> reachable s0 (after s0 xs).1 (after s0 xs).2.
Proof. unfold plays, after. intros H. exists xs. by destruct (run xs _) as [[c tr]| |]. Qed.

(** *** Runs of one thread *)

(** A program on its own, every OS call succeeding; [None] if it cannot go on. *)
Fixpoint solo (t : tid) (p : prog L) (s : lS L) : option (lR L * lS L) :=
  match p with
  | Ret r => Some (r, s)
  | Act f k => match f t 0 0%nat s with Go (x, s', _) => solo t (k x) s' | _ => None end
  | Abort | Fork _ _ _ => None
  end.

Lemma solo_act {A} t p (f : action L A) k s x s1 es out :
  p = Act f k -> f t 0 0%nat s = Go (x, s1, es) -> solo t (k x) s1 = out -> solo t p s = out.
Proof. intros -> Hf Hk. simpl. by rewrite Hf. Qed.

Lemma solo_steps t o p fr s r s' tr :
  fr !! t = None -> solo t p s = Some (r, s') ->
  exists n ls,
    run (replicate n (CStep t 0 0%nat)) (Config s (<[t := (o, p)]> fr), tr) =
      Go (Config (leave M t o r s') fr, tr ++ ls ++ [LRes t o r]).
Proof.
  intros Hf. revert s tr. induction p as [r0| |A f k IH|o' f k IH]; intros s tr Hs; simpl in Hs; [|done| |done].
  - injection Hs as -> ->. exists 1%nat, []. simpl. by rewrite lookup_insert_eq, delete_insert_id.
  - destruct (f t 0 0%nat s) as [[[x s1] es]| |] eqn:Hx; [|done..].
    destruct (IH x s1 (tr ++ (LEv t <$> es)) Hs) as (n & ls & Hr). exists (S n), ((LEv t <$> es) ++ ls).
    simpl. rewrite lookup_insert_eq, Hx, insert_insert_eq. simpl. rewrite Hr. by rewrite <- !app_assoc.
Qed.

Lemma solo_runs c t o s r s' tr :
  frames c !! t = None -> enter M t o (state c) = Some s -> solo t (body M o) s = Some (r, s') ->
  exists n ls,
    run (CInvoke t o :: replicate n (CStep t 0 0%nat)) (c, tr) =
      Go (Config (leave M t o r s') (frames c), tr ++ ls ++ [LRes t o r]).
Proof.
  intros Hf He Hs. destruct (solo_steps t o _ (frames c) s r s' (tr ++ [LInv t o]) Hf Hs) as (n & ls & Hr).
  exists n, (LInv t o :: ls). simpl. rewrite Hf, He, Hr. by rewrite <- app_assoc.
Qed.

Lemma events_shown tr t e : e ∈ events tr t -> LEv t e ∈ tr.
Proof.
  induction tr as [|l tr IH] using rev_ind; [by intros ?%not_elem_of_nil|].
  unfold events. rewrite fold_left_app. fold (events tr t). simpl. rewrite elem_of_app, list_elem_of_singleton.
  destruct l as [t' o|t' o r|t' e']; simpl; try case_decide; simplify_eq; auto; [by intros ?%not_elem_of_nil|].
  rewrite elem_of_app, list_elem_of_singleton. intros [?| ->]; auto.
Qed.

(** *** Calls and what they show *)

(** The threads that are in a call. *)
Definition active_step (A : gset tid) (l : label L) : gset tid :=
  match l with
  | LInv t _ => {[t]} ∪ A
  | LRes t _ _ => A ∖ {[t]}
  | LEv _ _ => A
  end.

Definition active tr : gset tid := fold_left active_step tr ∅.

Lemma active_app tr ls : active (tr ++ ls) = fold_left active_step ls (active tr).
Proof. apply fold_left_app. Qed.

Lemma active_events tr t (es : list (event L)) : active (tr ++ (LEv t <$> es)) = active tr.
Proof. rewrite active_app. by induction es. Qed.

Definition well_formed tr : Prop :=
  forall tr1 t o r tr2, tr = tr1 ++ LRes t o r :: tr2 -> t ∈ active tr1.

Lemma well_formed_app tr ls :
  well_formed tr ->
  (forall ls1 t o r ls2, ls = ls1 ++ LRes t o r :: ls2 -> t ∈ active (tr ++ ls1)) ->
  well_formed (tr ++ ls).
Proof.
  intros Hw Hl tr1 t o r tr2 He. apply app_eq_app in He as (l & [[-> He]|[-> He]]).
  - destruct l as [|y l]; simplify_eq/=; [|by apply (Hw tr1 t o r l)].
    pose proof (Hl [] t o r tr2 eq_refl) as H. by rewrite !app_nil_r in H.
  - by apply (Hl l t o r tr2).
Qed.

Lemma well_formed_step x c c' tr ls :
  dom (frames c) = active tr -> well_formed tr -> step x c = Go (c', ls) ->
  dom (frames c') = active (tr ++ ls) /\ well_formed (tr ++ ls).
Proof.
  intros Hd Hw Hs.
  assert (forall t y, frames c !! t = Some y -> {[t]} ∪ active tr = active tr) as Hin.
  { intros t y Hy. apply subseteq_union_1_L, singleton_subseteq_l. rewrite <- Hd. by apply elem_of_dom_2 in Hy. }
  assert (forall t o, {[t]} ∪ active tr = active (tr ++ [LInv t o])) as Hinv by (intros; by rewrite active_app).
  assert (forall t (es : list (event L)), well_formed (tr ++ (LEv t <$> es))) as Hwe.
  { intros t es. apply well_formed_app; [done|]. intros ls1 t0 o0 r0 ls2 He.
    assert (LRes t0 o0 r0 ∈ LEv t <$> es) as (? & ? & _)%list_elem_of_fmap; [|done].
    rewrite He. apply elem_of_app. right. constructor. }
  assert (forall t o, well_formed (tr ++ [LInv t o])) as Hwi.
  { intros t o. apply well_formed_app; [done|]. by intros [|? [|]] t0 o0 r0 ls2 [=]. }
  destruct x as [t o|t a v]; simpl in Hs.
  - repeat case_match; simplify_eq/=. rewrite dom_insert_L, Hd. auto.
  - destruct (frames c !! t) as [[o [r| |A f k|o2 f k]]|] eqn:Hf; [|done| | |done].
    + simplify_eq/=. rewrite dom_delete_L, Hd. split; [by rewrite active_app|].
      apply well_formed_app; [done|]. intros ls1 t0 o0 r0 ls2 He.
      destruct ls1 as [|? [|]]; simplify_eq/=.
      rewrite app_nil_r, <- Hd. by apply elem_of_dom.
    + destruct (f t a v (state c)) as [[[x s] es]| |]; simplify_eq/=.
      rewrite dom_insert_L, active_events, Hd. by rewrite (Hin t _ Hf).
    + destruct (a =? 0); simpl in Hs.
      * repeat case_match; simplify_eq/=. rewrite !dom_insert_L. split; [|done].
        rewrite Hd, (Hin t _ Hf). apply Hinv.
      * simplify_eq/=. rewrite dom_insert_L. change [LEv t (Failed a)] with (LEv t <$> [@Failed L a]).
        rewrite active_events, Hd. by rewrite (Hin t _ Hf).
Qed.

Lemma reachable_well_formed s0 c tr : reachable s0 c tr -> well_formed tr.
Proof.
  intros [xs H]. assert (forall c0 tr0, dom (frames c0) = active tr0 -> well_formed tr0 ->
    run xs (c0, tr0) = Go (c, tr) -> well_formed tr) as Hrun.
  { clear H. induction xs as [|x xs IH]; intros c0 tr0 Hd Hw; simpl; [by intros [= <- <-]|].
    destruct (step x c0) as [[c1 ls]| |] eqn:Hs; [|done|done]. intros Hr.
    destruct (well_formed_step x c0 c1 tr0 ls Hd Hw Hs) as [Hd' Hw']. by apply (IH c1 (tr0 ++ ls)). }
  apply (Hrun (Config s0 ∅) []); [apply dom_empty_L|by intros [|? ?]|done].
Qed.

(** Events that satisfy [p]: who is in a call that has shown one, and how many
    calls that have shown one are over. *)
Section shows.
Context (p : event L -> bool).

Definition shows_step (acc : gset tid * nat) (l : label L) : gset tid * nat :=
  match l with
  | LInv t _ => (acc.1 ∖ {[t]}, acc.2)
  | LEv t e => if p e then ({[t]} ∪ acc.1, acc.2) else acc
  | LRes t _ _ => if decide (t ∈ acc.1) then (acc.1 ∖ {[t]}, S acc.2) else acc
  end.

Definition shows tr : gset tid * nat := fold_left shows_step tr (∅, 0%nat).

Definition count_events tr : nat :=
  length (filter (fun l => match l with LEv _ e => p e | _ => false end = true) tr).

Lemma shows_app tr ls : shows (tr ++ ls) = fold_left shows_step ls (shows tr).
Proof. apply fold_left_app. Qed.

Lemma size_put (X : gset tid) t : (size ({[t]} ∪ X) <= S (size X))%nat.
Proof.
  rewrite size_union_alt, size_singleton. apply le_n_S, subseteq_size, subseteq_difference_l. done.
Qed.

Lemma shows_bound tr : (size (shows tr).1 + (shows tr).2 <= count_events tr)%nat.
Proof.
  induction tr as [|l tr IH] using rev_ind; [done|].
  rewrite shows_app. unfold count_events in *. rewrite filter_app, length_app. simpl.
  destruct l as [t o|t o r|t e]; simpl.
  - pose proof (subseteq_size ((shows tr).1 ∖ {[t]}) (shows tr).1 ltac:(by apply subseteq_difference_l)). lia.
  - case_decide as Ht; simpl; [|lia].
    rewrite size_difference, size_singleton by by apply singleton_subseteq_l.
    pose proof (subseteq_size {[t]} (shows tr).1 ltac:(by apply singleton_subseteq_l)) as Hs.
    rewrite size_singleton in Hs. lia.
  - destruct (p e) eqn:Hp; simpl; rewrite ?filter_cons_True, ?filter_cons_False by congruence; simpl; [|lia].
    pose proof (size_put (shows tr).1 t). lia.
Qed.

Lemma shows_mono tr ls : ((shows tr).2 <= (shows (tr ++ ls)).2)%nat.
Proof.
  rewrite shows_app. generalize (shows tr). induction ls as [|l ls IH]; intros acc; simpl; [done|].
  etransitivity; [|apply IH]. destruct l; simpl; repeat case_match; simpl; lia.
Qed.

Lemma shows_events tr t :
  t ∈ active tr -> existsb p (events tr t) = true -> t ∈ (shows tr).1.
Proof.
  induction tr as [|l tr IH] using rev_ind; [done|].
  unfold active, events. rewrite shows_app, !fold_left_app. fold (active tr) (events tr t). simpl.
  destruct l as [t0 o|t0 o r|t0 e]; simpl.
  - case_decide as Ht; [done|]. rewrite elem_of_union, elem_of_singleton, elem_of_difference, elem_of_singleton.
    intros [->|Ha] Hp; [done|]. split; [by apply IH|congruence].
  - rewrite elem_of_difference, elem_of_singleton. intros [Ha Hn] Hp.
    case_decide; simpl; [|by apply IH]. rewrite elem_of_difference, elem_of_singleton. split; [by apply IH|done].
  - intros Ha Hp. case_decide as Ht.
    + subst t0. rewrite existsb_app in Hp. simpl in Hp. rewrite orb_false_r in Hp.
      destruct (p e) eqn:He; simpl; [apply elem_of_union; left; by apply elem_of_singleton|].
      rewrite orb_false_r in Hp. by apply IH.
    + destruct (p e); simpl; [apply elem_of_union; right|]; by apply IH.
Qed.

(** Two calls that have shown such an event are two such events. *)
Lemma shown_twice tr tr1 t o r tr2 t' o' r' tr3 :
  well_formed tr -> tr = tr1 ++ LRes t o r :: tr2 ++ LRes t' o' r' :: tr3 ->
  existsb p (events tr1 t) = true -> existsb p (events (tr1 ++ LRes t o r :: tr2) t') = true ->
  (2 <= count_events tr)%nat.
Proof.
  intros Hw He H1 H2.
  assert (t ∈ (shows tr1).1) as Hs1 by (apply shows_events; [by apply (Hw tr1 t o r (tr2 ++ LRes t' o' r' :: tr3))|done]).
  set (mid := tr1 ++ LRes t o r :: tr2) in *.
  assert (tr = mid ++ LRes t' o' r' :: tr3) as He' by (by rewrite He; unfold mid; rewrite <- app_assoc).
  assert (t' ∈ (shows mid).1) as Hs2 by (apply shows_events; [by apply (Hw mid t' o' r' tr3)|done]).
  assert (1 <= (shows mid).2)%nat as Hn1.
  { pose proof (shows_mono (tr1 ++ [LRes t o r]) tr2) as Hm. rewrite <- app_assoc in Hm.
    rewrite (shows_app tr1 [LRes t o r]) in Hm. simpl in Hm. rewrite decide_True in Hm by done. simpl in Hm.
    fold mid in Hm. lia. }
  pose proof (shows_mono (mid ++ [LRes t' o' r']) tr3) as Hm. rewrite <- app_assoc in Hm.
  rewrite (shows_app mid [LRes t' o' r']) in Hm. simpl in Hm. rewrite decide_True in Hm by done. simpl in Hm.
  pose proof (shows_bound tr) as Hb. rewrite He' in *. lia.
Qed.
End shows.
End machine.

(** [n] steps of thread [t], every OS call succeeding. *)
Definition steps {L} (t : tid) (n : nat) : list (choice L) := replicate n (CStep t 0 0%nat).

(** Discharge reachability of the end of a concrete schedule. *)
Ltac played := apply reachable_after; vm_compute; reflexivity.

(** ** Proof outlines *)

(** What is proved of a component: [inv] holds between any two steps; an
    operation opens with a ghost value [opens] allows, returns results [returns]
    allows, calls [abort] and is refused a step only as [aborts] and [waits] say.
    The events are those the operation has shown. *)
Record outline (L : lang) := Outline {
  ghost : Type;
  inv : list (label L) -> lS L -> gmap tid ghost -> Prop;
  opens : tid -> lO L -> ghost -> Prop;
  returns : lO L -> list (event L) -> lR L -> Prop;
  aborts : lO L -> list (event L) -> ghost -> Prop;
  waits : lO L -> lS L -> gmap tid ghost -> tid -> ghost -> Prop;
}.
Arguments ghost {L} _.
Arguments inv {L} _ _ _ _.
Arguments opens {L} _ _ _ _.
Arguments returns {L} _ _ _ _.
Arguments aborts {L} _ _ _ _.
Arguments waits {L} _ _ _ _ _ _.

Section logic.
Context {L : lang} (M : code L) (P : outline L).
Implicit Types (c : config L) (tr ls : list (label L)) (gs : gmap tid (ghost P)).

(** Program [p] of operation [o] keeps the outline, from ghost value [g]. *)
Fixpoint keeps (t : tid) (o : lO L) (p : prog L) (e : list (event L)) (g : ghost P) : Prop :=
  match p with
  | Ret r =>
      returns P o e r /\
      forall tr s gs, inv P tr s gs -> gs !! t = Some g ->
        inv P (tr ++ [LRes t o r]) (leave M t o r s) (delete t gs)
  | Abort => aborts P o e g
  | Act f k =>
      forall tr s gs a v, inv P tr s gs -> gs !! t = Some g ->
        match f t a v s with
        | Go (x, s', es) =>
            exists g', inv P (tr ++ (LEv t <$> es)) s' (<[t := g']> gs) /\
              keeps t o (k x) (e ++ es) g'
        | Fault => False
        | Blocked => waits P o s gs t g
        end
  | Fork o' f k =>
      (forall tr s gs a, a <> 0 -> inv P tr s gs -> gs !! t = Some g ->
         exists g', inv P (tr ++ [LEv t (Failed a)]) s (<[t := g']> gs) /\
           keeps t o (k a) (e ++ [Failed a]) g') /\
      (forall tr s gs v, inv P tr s gs -> gs !! t = Some g -> gs !! v = None ->
         match f v s with
         | Go s' =>
             exists g' g2, inv P (tr ++ [LInv v o']) s' (<[v := g2]> (<[t := g']> gs)) /\
               keeps t o (k 0) e g' /\ opens P v o' g2
         | Fault => False
         | Blocked => waits P o s gs t g
         end)
  end.

Record kept (s0 : lS L) : Prop := Kept {
  kept_start : inv P [] s0 ∅;
  kept_body t o g : opens P t o g -> keeps t o (body M o) [] g;
  kept_enter tr s gs t o s' :
    inv P tr s gs -> gs !! t = None -> enter M t o s = Some s' ->
    exists g, inv P (tr ++ [LInv t o]) s' (<[t := g]> gs) /\ opens P t o g;
}.

(** The ghost values belong to the running programs. *)
Definition outlined c tr gs : Prop :=
  inv P tr (state c) gs /\
  forall t, match frames c !! t, gs !! t with
            | Some (o, p), Some g => keeps t o p (events tr t) g
            | None, None => True
            | _, _ => False
            end.

Lemma events_app tr ls t : events (tr ++ ls) t = fold_left (event_step t) ls (events tr t).
Proof. apply fold_left_app. Qed.

Lemma events_own tr es t : events (tr ++ (LEv t <$> es)) t = events tr t ++ es.
Proof.
  rewrite events_app. generalize (events tr t).
  induction es as [|e es IH]; intros acc; simpl; [by rewrite app_nil_r|].
  rewrite decide_True by done. by rewrite IH, <- app_assoc.
Qed.

Lemma events_other tr es t t' :
  t' <> t -> events (tr ++ (LEv t <$> es)) t' = events tr t'.
Proof.
  intros Ht. rewrite events_app. generalize (events tr t').
  induction es as [|e es IH]; intros acc; simpl; [done|]. by rewrite decide_False, IH.
Qed.

Lemma outlined_frame c tr gs t :
  outlined c tr gs ->
  match frames c !! t with
  | Some (o, p) => exists g, gs !! t = Some g /\ keeps t o p (events tr t) g
  | None => gs !! t = None
  end.
Proof.
  intros [_ H]. specialize (H t). destruct (frames c !! t) as [[o p]|], (gs !! t); naive_solver.
Qed.

(** Putting one frame back, the others being untouched. *)
Lemma outlined_put c tr gs tr' s t o p g :
  outlined c tr gs ->
  inv P tr' s (<[t := g]> gs) ->
  keeps t o p (events tr' t) g ->
  (forall t', t' <> t -> events tr' t' = events tr t') ->
  outlined (Config s (<[t := (o, p)]> (frames c))) tr' (<[t := g]> gs).
Proof.
  intros [_ H] Hi Hk Ho. split; [done|]. intros t'. simpl.
  destruct (decide (t' = t)) as [->|]; simplify_map_eq; [done|].
  rewrite Ho by done. apply H.
Qed.

Lemma events_inv tr t o t' :
  events (tr ++ [LInv t o]) t' = if decide (t = t') then [] else events tr t'.
Proof. by rewrite events_app. Qed.

Lemma outlined_act c tr gs t o A (f : action L A) (k : A -> prog L) a v :
  outlined c tr gs -> frames c !! t = Some (o, Act f k) ->
  match f t a v (state c) with
  | Go (x, s, es) =>
      exists gs', outlined (Config s (<[t := (o, k x)]> (frames c))) (tr ++ (LEv t <$> es)) gs'
  | Fault => False
  | Blocked => exists g, gs !! t = Some g /\ waits P o (state c) gs t g
  end.
Proof.
  intros Hc Hf. pose proof (outlined_frame c tr gs t Hc) as Hg. rewrite Hf in Hg.
  destruct Hg as (g & Hg & Hk). specialize (Hk tr (state c) gs a v (proj1 Hc) Hg).
  destruct (f t a v (state c)) as [[[x s] es]| |]; [|done|by exists g].
  destruct Hk as (g' & Hi & Hk). exists (<[t := g']> gs).
  apply outlined_put with tr; [done..| |].
  - by rewrite events_own.
  - intros t' Ht. by apply events_other.
Qed.

Context {s0 : lS L} (V : kept s0).

Lemma outlined_fork c tr gs t o o' f (k : Z -> prog L) v s :
  outlined c tr gs -> frames c !! t = Some (o, Fork o' f k) -> frames c !! v = None ->
  f v (state c) = Go s ->
  exists gs', outlined (Config s (<[v := (o', body M o')]> (<[t := (o, k 0)]> (frames c))))
    (tr ++ [LInv v o']) gs'.
Proof.
  intros Hc Hf Hv Hs. pose proof (outlined_frame c tr gs t Hc) as Hg. rewrite Hf in Hg.
  pose proof (outlined_frame c tr gs v Hc) as Hgv. rewrite Hv in Hgv.
  destruct Hg as (g & Hg & [_ Hk]). specialize (Hk tr (state c) gs v (proj1 Hc) Hg Hgv).
  rewrite Hs in Hk. destruct Hk as (g' & g2 & Hi & Hk & Ho).
  assert (v <> t) by naive_solver.
  exists (<[v := g2]> (<[t := g']> gs)). split; [done|]. intros t'. simpl.
  rewrite events_inv.
  destruct (decide (v = t')) as [->|]; simplify_map_eq; [by apply V|].
  destruct (decide (t = t')) as [->|]; simplify_map_eq; [done|]. apply Hc.
Qed.

Lemma outlined_enter c tr gs t o s :
  outlined c tr gs -> frames c !! t = None -> enter M t o (state c) = Some s ->
  exists gs', outlined (Config s (<[t := (o, body M o)]> (frames c))) (tr ++ [LInv t o]) gs'.
Proof.
  intros Hc Hf Hs. pose proof (outlined_frame c tr gs t Hc) as Hg. rewrite Hf in Hg.
  destruct (kept_enter s0 V tr (state c) gs t o s (proj1 Hc) Hg Hs) as (g & Hi & Ho).
  exists (<[t := g]> gs). apply outlined_put with tr; [done..| |].
  - rewrite events_inv. destruct (decide (t = t)); [by apply V|done].
  - intros t' Ht. rewrite events_inv. destruct (decide (t = t')); [congruence|done].
Qed.

Lemma outlined_leave c tr gs t o r :
  outlined c tr gs -> frames c !! t = Some (o, Ret r) ->
  outlined (Config (leave M t o r (state c)) (delete t (frames c))) (tr ++ [LRes t o r]) (delete t gs).
Proof.
  intros Hc Hf. pose proof (outlined_frame c tr gs t Hc) as Hg. rewrite Hf in Hg.
  destruct Hg as (g & Hg & _ & Hk). split.
  - apply (Hk tr (state c) gs (proj1 Hc) Hg).
  - intros t'. simpl. rewrite events_app. simpl.
    destruct (decide (t' = t)) as [->|]; simplify_map_eq; [done|]. apply Hc.
Qed.

Lemma outlined_step x c tr gs :
  outlined c tr gs ->
  match step M x c with
  | Go (c', ls) => exists gs', outlined c' (tr ++ ls) gs'
  | Fault => False
  | Blocked => True
  end.
Proof.
  intros Hc. destruct x as [t o|t a v]; simpl.
  - destruct (frames c !! t) eqn:Hf; [done|].
    destruct (enter M t o (state c)) as [s|] eqn:Hs; [|done]. by apply outlined_enter with gs.
  - destruct (frames c !! t) as [[o [r| |A f k|o' f k]]|] eqn:Hf; [| done| | |done].
    + exists (delete t gs). by apply outlined_leave.
    + pose proof (outlined_act c tr gs t o A f k a v Hc Hf) as H.
      by destruct (f t a v (state c)) as [[[x s] es]| |].
    + destruct (Z.eqb_spec a 0) as [->|Ha]; simpl.
      * destruct (frames c !! v) eqn:Hv; [done|].
        destruct (f v (state c)) as [s| |] eqn:Hs; [by eapply outlined_fork| |done].
        pose proof (outlined_frame c tr gs t Hc) as Hg. rewrite Hf in Hg.
        pose proof (outlined_frame c tr gs v Hc) as Hgv. rewrite Hv in Hgv.
        destruct Hg as (g & Hg & [_ Hk]). specialize (Hk tr (state c) gs v (proj1 Hc) Hg Hgv).
        by rewrite Hs in Hk.
      * pose proof (outlined_frame c tr gs t Hc) as Hg. rewrite Hf in Hg.
        destruct Hg as (g & Hg & [Hk _]).
        destruct (Hk tr (state c) gs a Ha (proj1 Hc) Hg) as (g' & Hi & Hk').
        exists (<[t := g']> gs). change [LEv t (Failed a)] with (LEv t <$> [@Failed L a]).
        apply outlined_put with tr; [done..| |].
        -- by rewrite events_own.
        -- intros t' Ht. by apply events_other.
Qed.

Lemma outlined_run xs c tr gs :
  outlined c tr gs ->
  match run M xs (c, tr) with
  | Go (c', tr') => exists gs', outlined c' tr' gs'
  | Fault => False
  | Blocked => True
  end.
Proof.
  revert c tr gs. induction xs as [|x xs IH]; intros c tr gs Hc; simpl; [by exists gs|].
  pose proof (outlined_step x c tr gs Hc) as Hs.
  destruct (step M x c) as [[c' ls]| |]; [|done|done].
  destruct Hs as [gs' Hs]. by apply IH with gs'.
Qed.

Lemma outlined_start : outlined (Config s0 ∅) [] ∅.
Proof. split; [apply V|]. intros t. by rewrite !lookup_empty. Qed.

(** *** What a kept outline gives *)

Theorem kept_safe xs : run M xs (Config s0 ∅, []) <> Fault.
Proof.
  intros H. pose proof (outlined_run xs _ _ _ outlined_start) as Hr. by rewrite H in Hr.
Qed.

Theorem kept_outlined c tr : reachable M s0 c tr -> exists gs, outlined c tr gs.
Proof.
  intros [xs H]. pose proof (outlined_run xs _ _ _ outlined_start) as Hr. by rewrite H in Hr.
Qed.

(** A property of the trace and the state alone, when the ghost values and the
    running operations are of no interest. *)
Corollary kept_inv c tr :
  reachable M s0 c tr ->
  exists gs, inv P tr (state c) gs /\ (forall t, frames c !! t = None <-> gs !! t = None).
Proof.
  intros (gs & Hi & H)%kept_outlined. exists gs. split; [done|]. intros t. specialize (H t).
  destruct (frames c !! t) as [[o p]|], (gs !! t); naive_solver.
Qed.

(** A refused step of a running operation waits for what the outline says. *)
Theorem kept_waits c tr t o A (f : action L A) (k : A -> prog L) a v :
  reachable M s0 c tr -> frames c !! t = Some (o, Act f k) -> f t a v (state c) = Blocked ->
  exists gs g, outlined c tr gs /\ gs !! t = Some g /\ waits P o (state c) gs t g.
Proof.
  intros (gs & Hc)%kept_outlined Hf Hb. pose proof (outlined_act c tr gs t o A f k a v Hc Hf) as H.
  rewrite Hb in H. destruct H as (g & ? & ?). by exists gs, g.
Qed.

Theorem kept_aborts c tr t o :
  reachable M s0 c tr -> frames c !! t = Some (o, Abort) ->
  exists gs g, outlined c tr gs /\ gs !! t = Some g /\ aborts P o (events tr t) g.
Proof.
  intros (gs & Hc)%kept_outlined Hf. pose proof (outlined_frame c tr gs t Hc) as H.
  rewrite Hf in H. destruct H as (g & ? & ?). by exists gs, g.
Qed.

Lemma step_result x c c1 ls t o r :
  step M x c = Go (c1, ls) -> LRes t o r ∈ ls ->
  ls = [LRes t o r] /\ frames c !! t = Some (o, Ret r).
Proof.
  assert (forall t0 (es : list (event L)), LRes t o r ∉ LEv t0 <$> es) as Hes.
  { intros t0 es (? & ? & _)%list_elem_of_fmap. done. }
  destruct x as [t' o'|t' a v]; simpl; intros Hx Hin.
  - repeat case_match; simplify_eq. by apply list_elem_of_singleton in Hin.
  - destruct (frames c !! t') as [[o' [r'| |A f k|o2 f k]]|] eqn:Hf; [|done| | |done].
    + injection Hx as _ <-. apply list_elem_of_singleton in Hin. by simplify_eq.
    + destruct (f t' a v (state c)) as [[[x s] es]| |]; [|done|done].
      injection Hx as _ <-. by apply Hes in Hin.
    + repeat case_match; simplify_eq; by apply list_elem_of_singleton in Hin.
Qed.

Lemma run_returns xs c tr gs c' tr' :
  outlined c tr gs -> run M xs (c, tr) = Go (c', tr') ->
  exists ls, tr' = tr ++ ls /\
  forall ls1 t o r ls2, ls = ls1 ++ LRes t o r :: ls2 ->
    returns P o (events (tr ++ ls1) t) r.
Proof.
  revert c tr gs. induction xs as [|x xs IH]; intros c tr gs Hc; simpl.
  { intros [= <- <-]. exists []. rewrite app_nil_r. split; [done|]. by intros []. }
  pose proof (outlined_step x c tr gs Hc) as Hs.
  destruct (step M x c) as [[c1 ls0]| |] eqn:Hx; [|done|done].
  destruct Hs as [gs' Hs]. intros Hr. destruct (IH c1 (tr ++ ls0) gs' Hs Hr) as (ls & -> & Hls).
  exists (ls0 ++ ls). split; [by rewrite app_assoc|]. intros ls1 t o r ls2 He.
  apply app_eq_app in He as (l & [[-> He]|[-> ->]]).
  - destruct l as [|y l]; simplify_eq/=.
    { rewrite app_nil_r in *. specialize (Hls [] t o r ls2 eq_refl). by rewrite app_nil_r in Hls. }
    destruct (step_result x c c1 _ t o r Hx) as [He Hf].
    { apply elem_of_app. right. constructor. }
    destruct ls1 as [|? []]; simplify_eq/=. rewrite app_nil_r.
    pose proof (outlined_frame c tr gs t Hc) as Hg. rewrite Hf in Hg.
    by destruct Hg as (g & _ & ? & _).
  - rewrite app_assoc. by apply (Hls l t o r ls2).
Qed.

(** Every operation returns what the outline allows. *)
Theorem kept_returns c tr tr1 t o r tr2 :
  reachable M s0 c tr -> tr = tr1 ++ LRes t o r :: tr2 ->
  returns P o (events tr1 t) r.
Proof.
  intros [xs H] ->. destruct (run_returns xs _ _ _ _ _ outlined_start H) as (ls & He & Hls).
  simpl in He. subst ls. by apply (Hls tr1 t o r tr2).
Qed.
End logic.

#[global] Arguments keeps {L} M P t o p e g : simpl never.
