(* ===== verification/Platform.v ===== *)
(** Platform: which branch of src/internal/native_sync.h is compiled.

    On POSIX every OS call may fail.  On Windows the locks are SRW locks, whose
    wrappers always return 0; creating a thread, waiting for one and sleeping on a
    condition variable may still fail.  The components of Interleave are about any
    platform. *)
From stdpp Require Import base gmap.
From Stdlib Require Import ZArith.
From S2P Require Import Prelude Interleave.

(** The identities of threads ([sync_os_current_thread_id]: a [pthread_t] as 64
    bits, or a Windows thread id), and whether it is Windows. *)
Record platform := Platform { self : tid -> Z; windows : bool }.
Existing Class platform.

Section calls.
Context {P : platform} {L : lang}.

(** The status of a call that cannot fail on Windows, where POSIX answers [a]. *)
Definition srw (a : Z) : Z := if windows P then 0 else a.

Lemma srw_0 : srw 0 = 0.
Proof. unfold srw. by destruct (windows P). Qed.

(** Such a call. *)
Definition os_call {A} (f : action L A) (k : A -> prog L) : prog L :=
  Act (fun t a v s => f t (srw a) v s) k.

(** It keeps what the call keeps that may fail. *)
Lemma keeps_os_call (M : code L) (O : outline L) {A} t o (f : action L A) k es g :
  keeps M O t o (Act f k) es g -> keeps M O t o (os_call f k) es g.
Proof. intros H tr s gs a v. apply (H tr s gs (srw a) v). Qed.
End calls.

(** Identities of threads: different, and never the 0 of nobody. *)
Class Identities (P : platform) : Prop := {
  self_inj :: Inj (=) (=) (self P);
  self_nonzero t : 0 <> self P t
}.

(** ** Two platforms, for examples *)

Definition numbered (t : tid) : Z := Z.of_nat t + 1.
Definition posix : platform := Platform numbered false.
Definition win32 : platform := Platform numbered true.

#[export] Instance posix_identities : Identities posix.
Proof. split; [intros x y; simpl; unfold numbered; lia|intros t; simpl; unfold numbered; lia]. Qed.
#[export] Instance win32_identities : Identities win32.
Proof. split; [intros x y; simpl; unfold numbered; lia|intros t; simpl; unfold numbered; lia]. Qed.
