(* ===== verification/Arc.v ===== *)
(** Arc: reference-counted cores, for the components built on Interleave.

    The atomic reference count of src/internal/native_internal.h on a heap
    allocated core, and the accounting of handles that keeps the core alive
    exactly as long as somebody can reach it. *)
From stdpp Require Import base gmap list.
From Stdlib Require Import ZArith Lia.
From S2P Require Import Prelude Interleave.

(** The counter is an [int32_t]; executions are followed in which it stays below
    its maximum: [sync_arc_inc] at [MAX_REFS] is not enabled. *)
Definition MAX_REFS : Z := INT32_MAX - 1.

(** The core of one object and the client's handles on it. *)
Record life := Life {
  refs : Z;            (** the counter in the core *)
  allocated : bool;    (** the core is allocated *)
  shared : bool;       (** more than one operation can reach it *)
  handles : Z;         (** live handles no call is running on *)
  pins : Z;            (** handles a callback in progress keeps *)
  made : bool;         (** the constructor has been called *)
}.

(** No object yet; calloc zeroes the core. *)
Definition unborn : life := Life 0 false false 0 0 false.

(** Only one operation can reach the core: it may use the plain fields. *)
Definition private (c : life) : bool := allocated c && negb (shared c).

(** Where a component's state keeps it. *)
Record lens (S A : Type) := Lens { get : S -> A; set : A -> S -> S }.
Arguments Lens {S A} _ _.
Arguments get {S A} _ _.
Arguments set {S A} _ _ _.

(** ** Steps *)

Section steps.
Context {L : lang} (l : lens (lS L) life).

(** A step on the core, undefined behaviour if it is not allocated. *)
Definition on_core {A} (f : life -> outcome (A * life)) (k : A -> prog L) : prog L :=
  Act (fun _ _ _ s =>
    if allocated (get l s) then
      match f (get l s) with
      | Go (x, c) => Go (x, set l c s, [])
      | Fault => Fault
      | Blocked => Blocked
      end
    else Fault) k.

(** [sync_alloc]: calloc, or abort when it returns NULL; [zero] clears the other
    fields of the core. *)
Definition sync_alloc (zero : lS L -> lS L) (k : prog L) : prog L :=
  Act (fun _ a _ s =>
    let c := get l s in
    if allocated c then Fault
    else if a =? 0 then Go (true, set l (Life 0 true (shared c) (handles c) (pins c) (made c)) (zero s), [])
    else Go (false, s, [Failed a]))
    (fun ok => if ok then k else Abort).

Definition free (k : prog L) : prog L :=
  on_core (fun c =>
    if shared c then Fault
    else Go (tt, Life (refs c) false false (handles c) (pins c) (made c))) (fun _ => k).

(** [core->refs = z] *)
Definition refs_store (z : Z) (k : prog L) : prog L :=
  on_core (fun c =>
    if shared c then Fault
    else Go (tt, Life z true false (handles c) (pins c) (made c))) (fun _ => k).

Definition sync_arc_inc (k : prog L) : prog L :=
  on_core (fun c =>
    if refs c <? 1 then Fault
    else if refs c <? MAX_REFS
    then Go (tt, Life (refs c + 1) true true (handles c) (pins c) (made c)) else Blocked) (fun _ => k).

Definition sync_arc_dec (k : Z -> prog L) : prog L :=
  on_core (fun c =>
    if refs c <? 1 then Fault
    else Go (refs c - 1,
             Life (refs c - 1) true (negb (refs c =? 1)) (handles c) (pins c) (made c))) k.

(** [moonbit_make_external_object] on the core: one handle more. *)
Definition make_handle (k : prog L) : prog L :=
  on_core (fun c => Go (tt, Life (refs c) true true (handles c + 1) (pins c) (made c))) (fun _ => k).

End steps.

(** *** What calls and returns do with handles *)

(** The constructor is called, once. *)
Definition create (c : life) : option life :=
  if made c then None else Some (Life (refs c) (allocated c) (shared c) (handles c) (pins c) true).

(** A call on a handle runs, and returns it. *)
Definition take (c : life) : option life :=
  if 0 <? handles c
  then Some (Life (refs c) (allocated c) (shared c) (handles c - 1) (pins c) (made c)) else None.

Definition give_back (c : life) : life :=
  Life (refs c) (allocated c) (shared c) (handles c + 1) (pins c) (made c).

(** A callback that keeps a handle starts and ends. *)
Definition pin (c : life) : life :=
  Life (refs c) (allocated c) (shared c) (handles c) (pins c + 1) (made c).

Definition unpin (c : life) : option life :=
  if 0 <? pins c
  then Some (Life (refs c) (allocated c) (shared c) (handles c) (pins c - 1) (made c)) else None.

Lemma take_same c c' :
  take c = Some c' ->
  made c' = made c /\ pins c' = pins c /\ allocated c' = allocated c /\ refs c' = refs c.
Proof. unfold take. case_match; [|done]. by intros [= <-]. Qed.

Lemma unpin_same c c' :
  unpin c = Some c' -> made c' = made c /\ allocated c' = allocated c /\ refs c' = refs c.
Proof. unfold unpin. case_match; [|done]. by intros [= <-]. Qed.

(** ** Accounting *)

(** What a running operation has of a core: some references, or the core itself,
    because it constructs it or has dropped its last reference; then [Some z] is
    the counter of the core it has allocated. *)
Inductive stake := Holds (n : Z) | Owns (z : option Z).

Definition weight (s : stake) : Z := match s with Holds n => n | Owns _ => 0 end.
Definition owned (s : stake) : Z := match s with Holds _ => 0 | Owns _ => 1 end.

Definition stake_ok (c : life) (s : stake) : Prop :=
  match s with
  | Holds n => 0 <= n
  | Owns None => allocated c = false /\ shared c = false
  | Owns (Some z) => allocated c = true /\ shared c = false /\ refs c = z
  end.

Section accounting.
Context {G : Type} (sk : G -> stake).
Implicit Types (c : life) (gs : gmap tid G) (t : tid) (g : G).

(** All references there are. *)
Definition total c gs : Z := handles c + pins c + msum (fun g => weight (sk g)) gs.
Definition owners gs : Z := msum (fun g => owned (sk g)) gs.

(** The core is allocated while somebody has it, counts the references while it
    is shared, and belongs to one operation before and after that. *)
Record counted c gs : Prop := Counted {
  counted_handles : 0 <= handles c;
  counted_pins : 0 <= pins c;
  counted_ok t g : gs !! t = Some g -> stake_ok c (sk g);
  counted_phase :
    (owners gs = 0 /\ total c gs = 0 /\ allocated c = false /\ shared c = false) \/
    (owners gs = 0 /\ 0 < total c gs <= MAX_REFS /\ allocated c = true /\
     refs c = total c gs /\ made c = true) \/
    (owners gs = 1 /\ total c gs = 0 /\ made c = true);
}.

Lemma counted_unborn : counted unborn ∅.
Proof. split; try done. by left. Qed.

Lemma owners_nonneg gs : 0 <= owners gs.
Proof. apply msum_nonneg. intros t g _. unfold owned. by destruct (sk g). Qed.

Lemma counted_weights c gs t g : counted c gs -> gs !! t = Some g -> 0 <= weight (sk g).
Proof.
  intros [_ _ Hok _] Hg. specialize (Hok t g Hg). by destruct (sk g).
Qed.

Lemma counted_total_ge c gs t g :
  counted c gs -> gs !! t = Some g -> weight (sk g) + handles c + pins c <= total c gs.
Proof.
  intros H Hg. unfold total.
  enough (weight (sk g) <= msum (fun g => weight (sk g)) gs) by lia.
  apply (msum_ge (fun g => weight (sk g)) gs t); [|done]. intros t' g' Hg'.
  by apply (counted_weights c gs t').
Qed.

Lemma counted_total_two c gs t g t' g' :
  counted c gs -> gs !! t = Some g -> gs !! t' = Some g' -> t <> t' ->
  weight (sk g) + weight (sk g') + handles c + pins c <= total c gs.
Proof.
  intros H Hg Hg' Ht. unfold total.
  pose proof (msum_delete (fun g => weight (sk g)) gs t g Hg) as Hd. cbn beta in Hd.
  enough (weight (sk g') <= msum (fun g => weight (sk g)) (delete t gs)) by lia.
  apply (msum_ge (fun g => weight (sk g)) (delete t gs) t'); [|by rewrite lookup_delete_ne].
  intros x g0 [_ Hg0]%lookup_delete_Some. by apply (counted_weights c gs x).
Qed.

Lemma counted_total_base c gs : counted c gs -> handles c + pins c <= total c gs.
Proof.
  intros H. unfold total. enough (0 <= msum (fun g => weight (sk g)) gs) by lia.
  apply msum_nonneg. intros t g. by apply counted_weights with c.
Qed.

Lemma counted_total_nonneg c gs : counted c gs -> 0 <= total c gs.
Proof. intros H. destruct (counted_phase c gs H) as [|[|]]; lia. Qed.

Lemma owners_ge gs t g : gs !! t = Some g -> owned (sk g) <= owners gs.
Proof.
  intros Hg. apply (msum_ge (fun g => owned (sk g)) gs t); [|done].
  intros ? g' _. unfold owned. by destruct (sk g').
Qed.

(** An owner is alone with the core. *)
Lemma counted_owner c gs t g z :
  counted c gs -> gs !! t = Some g -> sk g = Owns z ->
  owners gs = 1 /\ total c gs = 0 /\ made c = true /\ handles c = 0 /\ pins c = 0.
Proof.
  intros H Hg Hz. pose proof (owners_ge gs t g Hg) as Ho. rewrite Hz in Ho. simpl in Ho.
  pose proof (counted_total_ge c gs t g H Hg). rewrite Hz in *. simpl in *.
  destruct H as [? ? Hok [|[|(? & ? & ?)]]]; try lia. split_and!; try done; lia.
Qed.

(** A reference, pinned or held, shows that the core is there. *)
Lemma counted_alive c gs :
  counted c gs -> 0 < total c gs ->
  owners gs = 0 /\ allocated c = true /\ refs c = total c gs /\
  total c gs <= MAX_REFS /\ made c = true.
Proof.
  intros [? ? ? Hp] Hn. destruct Hp as [(? & ? & ?)|[(? & ? & ? & ? & ?)|(? & ? & ?)]]; [lia| |lia].
  split_and!; try done; lia.
Qed.

Lemma total_insert c c' gs t g g' :
  gs !! t = Some g ->
  total c' (<[t := g']> gs) =
    total c gs - handles c - pins c + handles c' + pins c' - weight (sk g) + weight (sk g').
Proof. intros Hg. unfold total. rewrite (msum_insert _ gs t g g' Hg). lia. Qed.

Lemma owners_insert gs t g g' :
  gs !! t = Some g -> owners (<[t := g']> gs) = owners gs - owned (sk g) + owned (sk g').
Proof. apply (msum_insert (fun g => owned (sk g))). Qed.

Lemma total_new c c' gs t g :
  gs !! t = None ->
  total c' (<[t := g]> gs) = total c gs - handles c - pins c + handles c' + pins c' + weight (sk g).
Proof. intros Hg. unfold total. rewrite (msum_new _ gs t g Hg). lia. Qed.

Lemma owners_new gs t g : gs !! t = None -> owners (<[t := g]> gs) = owners gs + owned (sk g).
Proof. intros Hg. unfold owners. rewrite (msum_new _ gs t g Hg). lia. Qed.

Lemma total_delete c c' gs t g :
  gs !! t = Some g ->
  total c' (delete t gs) = total c gs - handles c - pins c + handles c' + pins c' - weight (sk g).
Proof. intros Hg. unfold total. rewrite (msum_delete _ gs t g Hg). lia. Qed.

Lemma owners_delete gs t g : gs !! t = Some g -> owners (delete t gs) = owners gs - owned (sk g).
Proof. apply (msum_delete (fun g => owned (sk g))). Qed.

Lemma counted_others gs t g t' g' :
  gs !! t = Some g -> owners gs = owned (sk g) -> t' <> t -> gs !! t' = Some g' -> owned (sk g') = 0.
Proof.
  intros Hg Ho Ht Hg'. pose proof (owners_delete gs t g Hg) as Hd.
  assert (owned (sk g') <= owners (delete t gs)) by (apply (owners_ge _ t'); by rewrite lookup_delete_ne).
  enough (0 <= owned (sk g')) by lia. by destruct (sk g').
Qed.

Lemma stake_ok_other c c' s : owned s = 0 -> stake_ok c s -> stake_ok c' s.
Proof. by destruct s. Qed.

(** The ghost value of one operation changes together with the core. *)
Lemma counted_insert c c' gs t g g' :
  counted c gs -> gs !! t = Some g -> owners gs = owned (sk g) ->
  0 <= handles c' -> 0 <= pins c' -> stake_ok c' (sk g') ->
  (let o := owned (sk g') in
   let n := total c gs - handles c - pins c + handles c' + pins c' - weight (sk g) + weight (sk g') in
   (o = 0 /\ n = 0 /\ allocated c' = false /\ shared c' = false) \/
   (o = 0 /\ 0 < n <= MAX_REFS /\ allocated c' = true /\ refs c' = n /\ made c' = true) \/
   (o = 1 /\ n = 0 /\ made c' = true)) ->
  counted c' (<[t := g']> gs).
Proof.
  intros H Hg Ho Hh Hp Hok Hph. split; [done|done| |].
  - intros t' g0. destruct (decide (t' = t)) as [->|Ht]; simplify_map_eq; [by intros [= <-]|].
    intros Hg0. apply stake_ok_other with c; [|by apply (counted_ok c gs H t')].
    by apply (counted_others gs t g t').
  - rewrite (owners_insert gs t g g' Hg), (total_insert c c' gs t g g' Hg), Ho.
    simpl in Hph. by replace (owned (sk g) - owned (sk g) + owned (sk g')) with (owned (sk g')) by lia.
Qed.

(** A step that does not touch the core. *)
Lemma counted_same c gs t g g' :
  counted c gs -> gs !! t = Some g -> sk g' = sk g -> counted c (<[t := g']> gs).
Proof.
  intros [? ? Hok Hph] Hg Hs. split; [done|done| |].
  - intros t' g0. destruct (decide (t' = t)) as [->|Ht]; simplify_map_eq; [|by apply Hok].
    intros [= <-]. rewrite Hs. by apply (Hok t).
  - rewrite (owners_insert gs t g g' Hg), (total_insert c c gs t g g' Hg), Hs.
    replace (owners gs - _ + _) with (owners gs) by lia.
    by replace (total c gs - _ - _ + _ + _ - _ + _) with (total c gs) by lia.
Qed.

Local Ltac owner H Hg Hs :=
  destruct (counted_owner _ _ _ _ _ H Hg Hs) as (? & ? & ? & ? & ?);
  let Hok := fresh in
  pose proof (counted_ok _ _ H _ _ Hg) as Hok; rewrite Hs in Hok; simpl in Hok; destruct_and? Hok.

(** The side conditions of [counted_insert], [counted_new] and [counted_delete]. *)
Local Ltac phase :=
  simpl; unfold MAX_REFS, INT32_MAX in *;
  first [ done | lia | solve [split_and!; (done || lia)]
        | solve [left; split_and!; (done || lia)]
        | solve [right; left; split_and!; (done || lia)]
        | solve [right; right; split_and!; (done || lia)] ].

Lemma counted_alloc c gs t g g' :
  counted c gs -> gs !! t = Some g -> sk g = Owns None -> sk g' = Owns (Some 0) ->
  counted (Life 0 true (shared c) (handles c) (pins c) (made c)) (<[t := g']> gs).
Proof.
  intros H Hg Hs Hs'. owner H Hg Hs. apply counted_insert with c g; rewrite ?Hs, ?Hs'; phase.
Qed.

Lemma counted_store c gs t g g' y z :
  counted c gs -> gs !! t = Some g -> sk g = Owns (Some y) -> sk g' = Owns (Some z) ->
  counted (Life z true false (handles c) (pins c) (made c)) (<[t := g']> gs).
Proof.
  intros H Hg Hs Hs'. owner H Hg Hs. apply counted_insert with c g; rewrite ?Hs, ?Hs'; phase.
Qed.

Lemma counted_free c gs t g g' z :
  counted c gs -> gs !! t = Some g -> sk g = Owns (Some z) -> sk g' = Owns None ->
  counted (Life (refs c) false false (handles c) (pins c) (made c)) (<[t := g']> gs).
Proof.
  intros H Hg Hs Hs'. owner H Hg Hs. apply counted_insert with c g; rewrite ?Hs, ?Hs'; phase.
Qed.

Lemma counted_publish c gs t g g' :
  counted c gs -> gs !! t = Some g -> sk g = Owns (Some 1) -> sk g' = Holds 0 ->
  counted (Life (refs c) true true (handles c + 1) (pins c) (made c)) (<[t := g']> gs).
Proof.
  intros H Hg Hs Hs'. owner H Hg Hs.
  apply counted_insert with c g; rewrite ?Hs, ?Hs'; phase.
Qed.

Lemma counted_inc c gs t g g' n :
  counted c gs -> gs !! t = Some g -> 0 < total c gs -> sk g = Holds n -> sk g' = Holds (n + 1) ->
  refs c < MAX_REFS ->
  counted (Life (refs c + 1) true true (handles c) (pins c) (made c)) (<[t := g']> gs).
Proof.
  intros H Hg Hn Hs Hs' Hr. destruct (counted_alive c gs H Hn) as (Ho & _ & Hc & ? & ?).
  pose proof (counted_weights c gs t g H Hg) as Hw. rewrite Hs in Hw. simpl in Hw.
  pose proof (counted_handles c gs H). pose proof (counted_pins c gs H).
  apply counted_insert with c g; rewrite ?Hs, ?Hs'; phase.
Qed.

Lemma counted_handle c gs t g g' n :
  counted c gs -> gs !! t = Some g -> 0 <= n -> sk g = Holds (n + 1) -> sk g' = Holds n ->
  counted (Life (refs c) true true (handles c + 1) (pins c) (made c)) (<[t := g']> gs).
Proof.
  intros H Hg Hn Hs Hs'. pose proof (counted_total_ge c gs t g H Hg) as Ht.
  rewrite Hs in Ht. simpl in Ht. pose proof (counted_handles c gs H). pose proof (counted_pins c gs H).
  destruct (counted_alive c gs H) as (Ho & _ & Hc & ? & ?); [lia|].
  apply counted_insert with c g; rewrite ?Hs, ?Hs'; phase.
Qed.

(** Dropping a reference: whoever drops the last one owns the core. *)
Lemma counted_dec c gs t g g' n :
  counted c gs -> gs !! t = Some g -> 0 <= n -> sk g = Holds (n + 1) ->
  sk g' = (if refs c - 1 =? 0 then Owns (Some 0) else Holds n) ->
  counted (Life (refs c - 1) true (negb (refs c =? 1)) (handles c) (pins c) (made c)) (<[t := g']> gs).
Proof.
  intros H Hg Hn Hs Hs'. pose proof (counted_total_ge c gs t g H Hg) as Ht.
  rewrite Hs in Ht. simpl in Ht. pose proof (counted_handles c gs H). pose proof (counted_pins c gs H).
  destruct (counted_alive c gs H) as (Ho & _ & Hc & ? & ?); [lia|].
  destruct (Z.eqb_spec (refs c - 1) 0); apply counted_insert with c g; rewrite ?Hs, ?Hs'; phase.
Qed.

(** *** Calls and returns *)

Lemma counted_new c c' gs t g :
  counted c gs -> gs !! t = None -> owners gs = 0 \/ (owned (sk g) = 0 /\ c' = c) ->
  0 <= handles c' -> 0 <= pins c' -> stake_ok c' (sk g) ->
  (let o := owners gs + owned (sk g) in
   let n := total c gs - handles c - pins c + handles c' + pins c' + weight (sk g) in
   (o = 0 /\ n = 0 /\ allocated c' = false /\ shared c' = false) \/
   (o = 0 /\ 0 < n <= MAX_REFS /\ allocated c' = true /\ refs c' = n /\ made c' = true) \/
   (o = 1 /\ n = 0 /\ made c' = true)) ->
  counted c' (<[t := g]> gs).
Proof.
  intros H Hg Ho Hh Hp Hok Hph. split; [done|done| |].
  - intros t' g0. destruct (decide (t' = t)) as [->|Ht]; simplify_map_eq; [by intros [= <-]|].
    intros Hg0. pose proof (counted_ok c gs H t' g0 Hg0) as Hok0.
    destruct Ho as [Ho|[_ ->]]; [|done]. apply stake_ok_other with c; [|done].
    pose proof (owners_ge gs t' g0 Hg0). destruct (sk g0); simpl in *; lia.
  - by rewrite (owners_new gs t g Hg), (total_new c c' gs t g Hg).
Qed.

Lemma counted_create c c' gs t g :
  counted c gs -> gs !! t = None -> create c = Some c' -> sk g = Owns None ->
  counted c' (<[t := g]> gs).
Proof.
  unfold create. intros H Hg Hc Hs. destruct (made c) eqn:Hm; [done|]. injection Hc as <-.
  destruct (counted_phase c gs H) as [(Ho & Hn & Ha & Hsh)|[(_ & _ & _ & _ & ?)|(_ & _ & ?)]]; [|congruence..].
  pose proof (counted_handles c gs H). pose proof (counted_pins c gs H).
  apply counted_new with c; rewrite ?Hs; phase.
Qed.

(** A call with no stake in the core. *)
Lemma counted_call c gs t g :
  counted c gs -> gs !! t = None -> sk g = Holds 0 -> counted c (<[t := g]> gs).
Proof.
  intros H Hg Hs. apply counted_new with c; rewrite ?Hs; simpl; try done;
    [by right|by apply (counted_handles c gs)|by apply (counted_pins c gs)|].
  rewrite !Z.add_0_r. replace (total c gs - _ - _ + _ + _) with (total c gs) by lia.
  apply (counted_phase c gs H).
Qed.

Lemma counted_take c c' gs t g :
  counted c gs -> gs !! t = None -> take c = Some c' -> sk g = Holds 1 ->
  counted c' (<[t := g]> gs).
Proof.
  unfold take. intros H Hg Hc Hs. destruct (Z.ltb_spec 0 (handles c)); [|done]. injection Hc as <-.
  pose proof (counted_pins c gs H).
  pose proof (counted_total_base c gs H).
  destruct (counted_alive c gs H) as (Ho & Ha & Hr & ? & ?); [lia|].
  apply counted_new with c; rewrite ?Hs; phase.
Qed.

Lemma counted_unpin c c' gs t g :
  counted c gs -> gs !! t = None -> unpin c = Some c' -> sk g = Holds 1 ->
  counted c' (<[t := g]> gs).
Proof.
  unfold unpin. intros H Hg Hc Hs. destruct (Z.ltb_spec 0 (pins c)); [|done]. injection Hc as <-.
  pose proof (counted_handles c gs H).
  pose proof (counted_total_base c gs H).
  destruct (counted_alive c gs H) as (Ho & Ha & Hr & ? & ?); [lia|].
  apply counted_new with c; rewrite ?Hs; phase.
Qed.

Lemma counted_delete c c' gs t g :
  counted c gs -> gs !! t = Some g -> owners gs = owned (sk g) \/ c' = c ->
  0 <= handles c' -> 0 <= pins c' ->
  (let o := owners gs - owned (sk g) in
   let n := total c gs - handles c - pins c + handles c' + pins c' - weight (sk g) in
   (o = 0 /\ n = 0 /\ allocated c' = false /\ shared c' = false) \/
   (o = 0 /\ 0 < n <= MAX_REFS /\ allocated c' = true /\ refs c' = n /\ made c' = true) \/
   (o = 1 /\ n = 0 /\ made c' = true)) ->
  counted c' (delete t gs).
Proof.
  intros H Hg Ho Hh Hp Hph. split; [done|done| |].
  - intros t' g0 [Ht Hg0]%lookup_delete_Some. pose proof (counted_ok c gs H t' g0 Hg0) as Hok.
    destruct Ho as [Ho| ->]; [|done]. apply stake_ok_other with c; [|done].
    by apply (counted_others gs t g t').
  - by rewrite (owners_delete gs t g Hg), (total_delete c c' gs t g Hg).
Qed.

(** A reference goes to an operation that starts. *)
Lemma counted_fork c gs t v g g' g2 n :
  counted c gs -> gs !! t = Some g -> gs !! v = None -> 0 <= n ->
  sk g = Holds (n + 1) -> sk g' = Holds n -> sk g2 = Holds 1 ->
  counted c (<[v := g2]> (<[t := g']> gs)).
Proof.
  intros H Hg Hv Hn Hs Hs' Hs2. assert (v <> t) by congruence.
  assert (<[t := g']> gs !! v = None) as Hv' by by simplify_map_eq.
  split; [apply H..| |].
  - intros t0 g0. destruct (decide (t0 = v)) as [->|]; simplify_map_eq; [intros [= <-]; by rewrite Hs2|].
    destruct (decide (t0 = t)) as [->|]; simplify_map_eq; [intros [= <-]; by rewrite Hs'|apply H].
  - rewrite (owners_new _ v g2 Hv'), (owners_insert gs t g g' Hg), (total_new c c _ v g2 Hv'),
      (total_insert c c gs t g g' Hg), Hs, Hs', Hs2.
    replace (owners gs - _ + _ + _) with (owners gs) by (simpl; lia).
    replace (total c gs - _ - _ + _ + _ - _ + _ - _ - _ + _ + _ + _) with (total c gs) by (simpl; lia).
    apply H.
Qed.

(** A return without a stake, or after the core is freed. *)
Lemma counted_return c gs t g :
  counted c gs -> gs !! t = Some g -> sk g = Holds 0 \/ sk g = Owns None -> counted c (delete t gs).
Proof.
  intros H Hg Hs. pose proof (counted_handles c gs H). pose proof (counted_pins c gs H).
  apply counted_delete with c g; try done; [by right|].
  destruct Hs as [Hs|Hs]; rewrite Hs; simpl.
  - rewrite !Z.sub_0_r. replace (total c gs - _ - _ + _ + _) with (total c gs) by lia.
    apply (counted_phase c gs H).
  - owner H Hg Hs. left. split_and!; [lia|lia|done..].
Qed.

Lemma counted_give_back c gs t g :
  counted c gs -> gs !! t = Some g -> sk g = Holds 1 -> counted (give_back c) (delete t gs).
Proof.
  intros H Hg Hs. pose proof (counted_handles c gs H). pose proof (counted_pins c gs H).
  pose proof (counted_total_ge c gs t g H Hg) as Hw. rewrite Hs in Hw. simpl in Hw.
  destruct (counted_alive c gs H) as (Ho & Ha & Hr & ? & ?); [lia|].
  apply counted_delete with c g; rewrite ?Hs; phase.
Qed.

Lemma counted_pin c gs t g :
  counted c gs -> gs !! t = Some g -> sk g = Holds 1 -> counted (pin c) (delete t gs).
Proof.
  intros H Hg Hs. pose proof (counted_handles c gs H). pose proof (counted_pins c gs H).
  pose proof (counted_total_ge c gs t g H Hg) as Hw. rewrite Hs in Hw. simpl in Hw.
  destruct (counted_alive c gs H) as (Ho & Ha & Hr & ? & ?); [lia|].
  apply counted_delete with c g; rewrite ?Hs; phase.
Qed.

(** Nobody has the core any more: it is freed. *)
Lemma counted_end c : counted c ∅ -> handles c = 0 -> pins c = 0 -> allocated c = false.
Proof.
  intros H Hh Hp. destruct (counted_phase c ∅ H) as [(_ & _ & ? & _)|[(_ & Hn & _)|(Ho & _)]]; [done| |done].
  unfold total in Hn. rewrite msum_empty in Hn. lia.
Qed.
End accounting.

(** ** What else belongs to the core *)

(** Plain fields and OS objects [x] of a core: their owner knows them exactly,
    and while the core is shared, or gone, they are [fine]. *)
Section known.
Context {G X : Type} (sk : G -> stake) (view : G -> X) (fine : bool -> X -> Prop).
Implicit Types (c : life) (x : X) (gs : gmap tid G).

Record known c x gs : Prop := Known {
  known_shared : owners sk gs = 0 -> fine (allocated c) x;
  known_owner t g : gs !! t = Some g -> owned (sk g) = 1 -> x = view g;
}.

Lemma owned_cases s : owned s = 0 \/ owned s = 1.
Proof. destruct s; [by left|by right]. Qed.

(** A step of somebody who does not own the core. *)
Lemma known_same c c' x gs t g g' :
  known c x gs -> gs !! t = Some g -> owned (sk g) = 0 -> owned (sk g') = 0 ->
  allocated c' = allocated c -> known c' x (<[t := g']> gs).
Proof.
  intros [Hs Ho] Hg Hg0 Hg0' Ha. split.
  - rewrite (owners_insert sk gs t g g' Hg), Ha. intros. apply Hs. lia.
  - intros t' g0. destruct (decide (t' = t)) as [->|]; simplify_map_eq; [|by apply Ho].
    intros [= <-]. lia.
Qed.

(** A step that does not concern the core. *)
Lemma known_keep c x gs t g g' :
  known c x gs -> gs !! t = Some g -> sk g' = sk g -> view g' = view g -> known c x (<[t := g']> gs).
Proof.
  intros [Hs Ho] Hg Hk Hv. split.
  - rewrite (owners_insert sk gs t g g' Hg), Hk. intros. apply Hs. lia.
  - intros t' g0. destruct (decide (t' = t)) as [->|]; simplify_map_eq; [|by apply Ho].
    intros [= <-]. rewrite Hk, Hv. by apply (Ho t).
Qed.

(** Nobody owns the core before and after. *)
Lemma known_change c c' x x' gs t g g' :
  known c x gs -> gs !! t = Some g -> owners sk gs = 0 -> owned (sk g') = 0 ->
  (fine (allocated c) x -> fine (allocated c') x') -> known c' x' (<[t := g']> gs).
Proof.
  intros [Hs Ho] Hg H0 Hg' Hx. split; [auto|].
  intros t' g0. destruct (decide (t' = t)) as [->|]; simplify_map_eq; [intros [= <-]; lia|].
  intros Hg0 H1. pose proof (owners_ge sk gs t' g0 Hg0). lia.
Qed.

(** The owner changes it, or somebody becomes the owner. *)
Lemma known_own c' x' gs t g g' :
  gs !! t = Some g -> owners sk gs = owned (sk g) -> owned (sk g') = 1 -> x' = view g' ->
  known c' x' (<[t := g']> gs).
Proof.
  intros Hg Ho Hg' ->. split.
  - rewrite (owners_insert sk gs t g g' Hg). lia.
  - intros t' g0. destruct (decide (t' = t)) as [->|]; simplify_map_eq; [by intros [= <-]|].
    intros Hg0 H1. pose proof (counted_others sk gs t g t' g0 Hg Ho). naive_solver lia.
Qed.

(** The owner shares the core. *)
Lemma known_publish c' x gs t g g' :
  gs !! t = Some g -> owners sk gs = owned (sk g) -> owned (sk g') = 0 -> fine (allocated c') x ->
  known c' x (<[t := g']> gs).
Proof.
  intros Hg Ho Hg' Hx. split; [done|].
  intros t' g0. destruct (decide (t' = t)) as [->|]; simplify_map_eq; [intros [= <-]; lia|].
  intros Hg0 H1. pose proof (counted_others sk gs t g t' g0 Hg Ho). naive_solver lia.
Qed.

Lemma known_call c c' x gs t g :
  known c x gs -> gs !! t = None -> owned (sk g) = 0 -> allocated c' = allocated c ->
  known c' x (<[t := g]> gs).
Proof.
  intros [Hs Ho] Hg Hg0 Ha. split.
  - rewrite (owners_new sk gs t g Hg), Ha, Hg0, Z.add_0_r. done.
  - intros t' g0. destruct (decide (t' = t)) as [->|]; simplify_map_eq; [|by apply Ho].
    intros [= <-]. lia.
Qed.

Lemma known_create c c' x gs t g :
  known c x gs -> gs !! t = None -> owners sk gs = 0 -> owned (sk g) = 1 -> x = view g ->
  known c' x (<[t := g]> gs).
Proof.
  intros [Hs Ho] Hg H0 Hg1 ->. split.
  - rewrite (owners_new sk gs t g Hg). lia.
  - intros t' g0. destruct (decide (t' = t)) as [->|]; simplify_map_eq; [by intros [= <-]|].
    intros Hg0 H1. pose proof (owners_ge sk gs t' g0 Hg0). lia.
Qed.

Lemma known_return c c' x gs t g :
  known c x gs -> gs !! t = Some g -> allocated c' = allocated c ->
  owned (sk g) = 0 \/ fine (allocated c) x -> known c' x (delete t gs).
Proof.
  intros [Hs Ho] Hg Ha Hor. split.
  - rewrite (owners_delete sk gs t g Hg), Ha. intros H0. destruct Hor as [Hg0|]; [|done]. apply Hs. lia.
  - intros t' g0 [_ Hg0]%lookup_delete_Some. by apply (Ho t').
Qed.
End known.

(** ** Programs on cores *)

Section rules.
Context {L : lang} (l : lens (lS L) life) (M : code L) (P : outline L).

(** One step on a core that is allocated. *)
Lemma keeps_on_core {A} (f : life -> outcome (A * life)) (k : A -> prog L) t o e g :
  (forall tr s gs, inv P tr s gs -> gs !! t = Some g ->
    allocated (get l s) = true /\
    match f (get l s) with
    | Go (x, c) =>
        exists g', inv P tr (set l c s) (<[t := g']> gs) /\ keeps M P t o (k x) e g'
    | Fault => False
    | Blocked => waits P o s gs t g
    end) ->
  keeps M P t o (on_core l f k) e g.
Proof.
  intros H tr s gs a v Hi Hg. destruct (H tr s gs Hi Hg) as [-> Hf].
  destruct (f (get l s)) as [[x c]| |]; [|done|done].
  destruct Hf as (g' & ? & ?). exists g'. simpl. by rewrite !app_nil_r.
Qed.

Lemma keeps_sync_alloc zero k t o e g :
  (forall tr s gs, inv P tr s gs -> gs !! t = Some g ->
    allocated (get l s) = false /\
    (exists g', inv P tr
       (set l (Life 0 true (shared (get l s)) (handles (get l s)) (pins (get l s)) (made (get l s))) (zero s))
       (<[t := g']> gs) /\ keeps M P t o k e g') /\
    (forall a, exists g', inv P (tr ++ [LEv t (Failed a)]) s (<[t := g']> gs) /\
       aborts P o (e ++ [Failed a]) g')) ->
  keeps M P t o (sync_alloc l zero k) e g.
Proof.
  intros H tr s gs a v Hi Hg. destruct (H tr s gs Hi Hg) as (Ha & Hk & Hf).
  cbv beta zeta. rewrite Ha.
  destruct (a =? 0); [|apply Hf].
  destruct Hk as (g' & ? & ?). exists g'. simpl. by rewrite !app_nil_r.
Qed.
End rules.
