(* ===== verification/Atomic.v ===== *)
(** Atomic: src/atomic/native.c (its POSIX branch) and the wrappers of
    src/atomic/atomic.mbt, atomic booleans and 32-bit integers.

    Every operation is one atomic access to one [int32_t] cell, so the accesses
    of all threads to a cell are totally ordered and an execution is the
    sequence of accesses in that order, whatever memory orders are given; what
    a memory order adds (visibility of other memory) is not modelled, but an
    order that the compiler builtin does not accept is undefined behaviour.
    AtomicCell models the reference count of a cell and its users. *)
From stdpp Require Import base gmap list.
From Stdlib Require Import ZArith Lia.
From S2P Require Import Prelude.

(** ** Accesses to a cell *)

(** From the contents of the cell to a result and the new contents; [None] is
    undefined behaviour. *)
Definition cellM (A : Type) : Type := Z -> option (A * Z).

#[export] Instance cellM_ret : MRet cellM := fun A x v => Some (x, v).
#[export] Instance cellM_bind : MBind cellM :=
  fun A B f m v => '(x, v') ← m v; f x v'.

(** *** Memory orders *)

Inductive c_order := RELAXED | ACQUIRE | RELEASE | ACQ_REL | SEQ_CST.

#[export] Instance c_order_dec : EqDecision c_order.
Proof. solve_decision. Defined.

Definition sync_memory_order (order : Z) : c_order :=
  match order with
  | 0 => RELAXED
  | 1 => ACQUIRE
  | 2 => RELEASE
  | 3 => ACQ_REL
  | _ => SEQ_CST
  end.

(** The orders the builtins accept: a load does not release, a store does not
    acquire, and the order of a failed exchange neither releases nor is
    stronger than the one of a successful exchange. *)
Definition load_order (o : c_order) : bool := negb (bool_decide (o ∈ [RELEASE; ACQ_REL])).
Definition store_order (o : c_order) : bool := negb (bool_decide (o ∈ [ACQUIRE; ACQ_REL])).

(** What [o] does for the load half of an exchange. *)
Definition acquire_strength (o : c_order) : Z :=
  match o with RELAXED | RELEASE => 0 | ACQUIRE | ACQ_REL => 1 | SEQ_CST => 2 end.

Definition exchange_orders (success failure : c_order) : bool :=
  load_order failure && (acquire_strength failure <=? acquire_strength success).

(** *** The compiler builtins on [int32_t] *)

Definition atomic_load_n (o : c_order) : cellM Z :=
  fun v => if load_order o then Some (v, v) else None.

Definition atomic_store_n (x : Z) (o : c_order) : cellM unit :=
  fun v => if store_order o then Some (tt, x) else None.

Definition atomic_exchange_n (x : Z) (o : c_order) : cellM Z := fun v => Some (v, x).

(** Whether the exchange took place, and [*expected] afterwards. *)
Definition atomic_compare_exchange_n (expected desired : Z) (success failure : c_order)
    : cellM (bool * Z) :=
  fun v =>
    if exchange_orders success failure then
      if v =? expected then Some ((true, expected), desired) else Some ((false, v), v)
    else None.

(** Atomic arithmetic wraps around. *)
Definition atomic_fetch_add (delta : Z) (o : c_order) : cellM Z :=
  fun v => Some (v, to_i32 (v + delta)).

(** *** The functions of native.c *)

Definition sync_atomic_load_value (order : Z) : cellM Z := atomic_load_n (sync_memory_order order).

Definition sync_atomic_store_value (value order : Z) : cellM unit :=
  atomic_store_n value (sync_memory_order order).

Definition sync_atomic_swap_value (value order : Z) : cellM Z :=
  atomic_exchange_n value (sync_memory_order order).

(** The result of a compare-exchange in 64 bits: the flag above, what was
    observed below. *)
Definition pack (exchanged : bool) (observed : Z) : Z :=
  Z.lor (Z.shiftl (b2z exchanged) 32) (to_u32 observed).

Definition sync_atomic_compare_exchange_value (current next success failure : Z) : cellM Z :=
  '(exchanged, observed) ← atomic_compare_exchange_n current next
     (sync_memory_order success) (sync_memory_order failure);
  mret (pack exchanged observed).

Definition sync_atomic_fetch_add_value (delta order : Z) : cellM Z :=
  atomic_fetch_add delta (sync_memory_order order).

(** [value != 0] *)
Definition truth (value : Z) : Z := b2z (negb (value =? 0)).

Definition sync_atomic_bool_load (order : Z) : cellM Z :=
  v ← sync_atomic_load_value order; mret (truth v).
Definition sync_atomic_bool_store (next order : Z) : cellM unit :=
  sync_atomic_store_value (truth next) order.
Definition sync_atomic_bool_swap (next order : Z) : cellM Z :=
  v ← sync_atomic_swap_value (truth next) order; mret (truth v).
Definition sync_atomic_bool_compare_exchange (current next success failure : Z) : cellM Z :=
  sync_atomic_compare_exchange_value (truth current) (truth next) success failure.

Definition sync_atomic_int_load (order : Z) : cellM Z := sync_atomic_load_value order.
Definition sync_atomic_int_store (next order : Z) : cellM unit := sync_atomic_store_value next order.
Definition sync_atomic_int_swap (next order : Z) : cellM Z := sync_atomic_swap_value next order.
Definition sync_atomic_int_compare_exchange (current next success failure : Z) : cellM Z :=
  sync_atomic_compare_exchange_value current next success failure.
Definition sync_atomic_int_fetch_add (delta order : Z) : cellM Z :=
  sync_atomic_fetch_add_value delta order.

Definition sync_atomic_uint_load (order : Z) : cellM Z :=
  v ← sync_atomic_load_value order; mret (to_u32 v).
Definition sync_atomic_uint_store (next order : Z) : cellM unit :=
  sync_atomic_store_value (to_i32 next) order.
Definition sync_atomic_uint_swap (next order : Z) : cellM Z :=
  v ← sync_atomic_swap_value (to_i32 next) order; mret (to_u32 v).
Definition sync_atomic_uint_compare_exchange (current next success failure : Z) : cellM Z :=
  sync_atomic_compare_exchange_value (to_i32 current) (to_i32 next) success failure.
Definition sync_atomic_uint_fetch_add (delta order : Z) : cellM Z :=
  v ← sync_atomic_fetch_add_value (to_i32 delta) order; mret (to_u32 v).

(** What the constructors store. *)
Definition sync_atomic_bool_new (value : Z) : Z := truth value.
Definition sync_atomic_int_new (value : Z) : Z := value.
Definition sync_atomic_uint_new (value : Z) : Z := to_i32 value.

(** ** The wrappers of atomic.mbt *)

Inductive MemoryOrdering := Relaxed | Acquire | Release | AcqRel | SeqCst.

Definition MemoryOrdering_code (o : MemoryOrdering) : Z :=
  match o with Relaxed => 0 | Acquire => 1 | Release => 2 | AcqRel => 3 | SeqCst => 4 end.

Inductive SyncError := InvalidMemoryOrdering.

(** Accesses that may raise instead. *)
Definition mbt (A : Type) : Type := cellM (SyncError + A).

Definition raise {A} (e : SyncError) : mbt A := fun v => Some (inl e, v).
Definition lift {A} (m : cellM A) : mbt A := x ← m; mret (inr x).

Definition load_order_valid (o : MemoryOrdering) : bool :=
  match o with Release | AcqRel => false | _ => true end.
Definition store_order_valid (o : MemoryOrdering) : bool :=
  match o with Acquire | AcqRel => false | _ => true end.

Definition failure_rank (o : MemoryOrdering) : Z :=
  match o with Relaxed => 0 | Acquire => 1 | SeqCst => 2 | Release | AcqRel => -1 end.
Definition success_failure_rank (o : MemoryOrdering) : Z :=
  match o with Relaxed | Release => 0 | Acquire | AcqRel => 1 | SeqCst => 2 end.

Definition compare_exchange_orders_valid (success failure : MemoryOrdering) : bool :=
  let failure_level := failure_rank failure in
  negb ((failure_level <? 0) || (success_failure_rank success <? failure_level)).

Definition validated {A} (valid : bool) (m : cellM A) : mbt A :=
  if valid then lift m else raise InvalidMemoryOrdering.

Definition packed_exchanged (value : Z) : bool := negb (Z.shiftr value 32 =? 0).
Definition packed_observed_uint (value : Z) : Z := Z.land value 4294967295.

(** The operations of an atomic type, as its users see them; booleans have no
    [fetch_add].  [initial] is what the constructor stores. *)
Class AtomicOps (A : Type) := {
  initial : A -> Z;
  load : MemoryOrdering -> mbt A;
  store : A -> MemoryOrdering -> mbt unit;
  swap : A -> MemoryOrdering -> mbt A;
  compare_exchange : A -> A -> MemoryOrdering -> MemoryOrdering -> mbt (A * bool);
  fetch_add : option (A -> MemoryOrdering -> mbt A);
}.

(** MoonBit's [Bool], [Int32] and [UInt32]. *)
Record Int32 := MkInt32 { int32 : Z }.
Record UInt32 := MkUInt32 { uint32 : Z }.

Definition AtomicInt_fetch_add (delta : Int32) (order : MemoryOrdering) : mbt Int32 :=
  lift (v ← sync_atomic_int_fetch_add (int32 delta) (MemoryOrdering_code order); mret (MkInt32 v)).
Definition AtomicUInt_fetch_add (delta : UInt32) (order : MemoryOrdering) : mbt UInt32 :=
  lift (v ← sync_atomic_uint_fetch_add (uint32 delta) (MemoryOrdering_code order); mret (MkUInt32 v)).

#[export] Instance AtomicBool : AtomicOps bool := {
  initial value := sync_atomic_bool_new (b2z value);
  load order :=
    validated (load_order_valid order)
      (v ← sync_atomic_bool_load (MemoryOrdering_code order); mret (negb (v =? 0)));
  store value order :=
    validated (store_order_valid order) (sync_atomic_bool_store (b2z value) (MemoryOrdering_code order));
  swap value order :=
    lift (v ← sync_atomic_bool_swap (b2z value) (MemoryOrdering_code order); mret (negb (v =? 0)));
  compare_exchange current next success failure :=
    validated (compare_exchange_orders_valid success failure)
      (packed ← sync_atomic_bool_compare_exchange (b2z current) (b2z next) (MemoryOrdering_code success) (MemoryOrdering_code failure);
       mret (negb (Z.land packed 1 =? 0), packed_exchanged packed));
  fetch_add := None;
}.

#[export] Instance AtomicInt : AtomicOps Int32 := {
  initial value := sync_atomic_int_new (int32 value);
  load order :=
    validated (load_order_valid order) (v ← sync_atomic_int_load (MemoryOrdering_code order); mret (MkInt32 v));
  store value order :=
    validated (store_order_valid order) (sync_atomic_int_store (int32 value) (MemoryOrdering_code order));
  swap value order :=
    lift (v ← sync_atomic_int_swap (int32 value) (MemoryOrdering_code order); mret (MkInt32 v));
  compare_exchange current next success failure :=
    validated (compare_exchange_orders_valid success failure)
      (packed ← sync_atomic_int_compare_exchange (int32 current) (int32 next) (MemoryOrdering_code success) (MemoryOrdering_code failure);
       mret (MkInt32 (to_i32 (packed_observed_uint packed)), packed_exchanged packed));
  fetch_add := Some AtomicInt_fetch_add;
}.

#[export] Instance AtomicUInt : AtomicOps UInt32 := {
  initial value := sync_atomic_uint_new (uint32 value);
  load order :=
    validated (load_order_valid order) (v ← sync_atomic_uint_load (MemoryOrdering_code order); mret (MkUInt32 v));
  store value order :=
    validated (store_order_valid order) (sync_atomic_uint_store (uint32 value) (MemoryOrdering_code order));
  swap value order :=
    lift (v ← sync_atomic_uint_swap (uint32 value) (MemoryOrdering_code order); mret (MkUInt32 v));
  compare_exchange current next success failure :=
    validated (compare_exchange_orders_valid success failure)
      (packed ← sync_atomic_uint_compare_exchange (uint32 current) (uint32 next) (MemoryOrdering_code success) (MemoryOrdering_code failure);
       mret (MkUInt32 (packed_observed_uint packed), packed_exchanged packed));
  fetch_add := Some AtomicUInt_fetch_add;
}.

(** ** One access *)

Inductive access (A : Type) :=
| Load (order : MemoryOrdering)
| Store (value : A) (order : MemoryOrdering)
| Swap (value : A) (order : MemoryOrdering)
| CompareExchange (current next : A) (success failure : MemoryOrdering)
| FetchAdd (delta : A) (order : MemoryOrdering).
Arguments Load {A} order.
Arguments Store {A} value order.
Arguments Swap {A} value order.
Arguments CompareExchange {A} current next success failure.
Arguments FetchAdd {A} delta order.

Inductive answer (A : Type) :=
| Done
| Value (v : A)
| Exchanged (observed : A) (exchanged : bool).
Arguments Done {A}.
Arguments Value {A} v.
Arguments Exchanged {A} observed exchanged.

Definition answered {A B} (f : A -> B) (m : mbt A) : mbt B :=
  r ← m; mret (match r with inl e => inl e | inr x => inr (f x) end).

(** Running an access on the cell. *)
Definition perform {A} `{AtomicOps A} (x : access A) : mbt (answer A) :=
  match x with
  | Load order => answered Value (load order)
  | Store value order => answered (fun _ => Done) (store value order)
  | Swap value order => answered Value (swap value order)
  | CompareExchange current next success failure =>
      answered (fun r => Exchanged r.1 r.2) (compare_exchange current next success failure)
  | FetchAdd delta order =>
      match fetch_add with
      | Some f => answered Value (f delta order)
      | None => fun _ => None
      end
  end.

(** *** The specification: a variable of type [A] *)

(** What a type promises of its values: those there are, their representation
    in the cell, and addition. *)
Class AtomicType (A : Type) := {
  atomic_eq :: EqDecision A;
  valid : A -> bool;
  repr : A -> Z;
  plus : A -> A -> A;
}.

#[export] Instance bool_type : AtomicType bool := {
  valid _ := true; repr := b2z; plus a _ := a;
}.

#[export] Instance Int32_eq : EqDecision Int32.
Proof. solve_decision. Defined.
#[export] Instance UInt32_eq : EqDecision UInt32.
Proof. solve_decision. Defined.

#[export] Instance Int32_type : AtomicType Int32 := {
  valid v := i32_ok (int32 v);
  repr := int32;
  plus a b := MkInt32 (to_i32 (int32 a + int32 b));
}.

#[export] Instance UInt32_type : AtomicType UInt32 := {
  valid v := (0 <=? uint32 v) && (uint32 v <? 2 ^ 32);
  repr v := to_i32 (uint32 v);
  plus a b := MkUInt32 (to_u32 (uint32 a + uint32 b));
}.

#[export] Instance MemoryOrdering_eq : EqDecision MemoryOrdering.
Proof. solve_decision. Defined.

(** The memory orders C11 allows: for a load, for a store, and for a
    compare-exchange those of success and of failure together, where the failure
    order is one of a load and no stronger than the success order. *)
Definition load_orders : list MemoryOrdering := [Relaxed; Acquire; SeqCst].
Definition store_orders : list MemoryOrdering := [Relaxed; Release; SeqCst].
Definition compare_exchange_orders : list (MemoryOrdering * MemoryOrdering) :=
  [(Relaxed, Relaxed); (Release, Relaxed);
   (Acquire, Relaxed); (Acquire, Acquire); (AcqRel, Relaxed); (AcqRel, Acquire);
   (SeqCst, Relaxed); (SeqCst, Acquire); (SeqCst, SeqCst)].

(** Other memory orders are refused without any effect; otherwise a variable is
    read or written. *)
Definition meaning {A} `{AtomicType A} (x : access A) (v : A) : (SyncError + answer A) * A :=
  match x with
  | Load order =>
      if bool_decide (order ∈ load_orders) then (inr (Value v), v) else (inl InvalidMemoryOrdering, v)
  | Store value order =>
      if bool_decide (order ∈ store_orders) then (inr Done, value) else (inl InvalidMemoryOrdering, v)
  | Swap value order => (inr (Value v), value)
  | CompareExchange current next success failure =>
      if bool_decide ((success, failure) ∈ compare_exchange_orders)
      then (inr (Exchanged v (bool_decide (v = current))),
            if bool_decide (v = current) then next else v)
      else (inl InvalidMemoryOrdering, v)
  | FetchAdd delta order => (inr (Value v), plus v delta)
  end.

(** Accesses with proper arguments, on types that have the operation. *)
Definition proper {A} `{AtomicOps A, AtomicType A} (x : access A) : bool :=
  match x with
  | Load _ => true
  | Store v _ | Swap v _ => valid v
  | CompareExchange v w _ _ => valid v && valid w
  | FetchAdd v _ => valid v && match fetch_add with Some _ => true | None => false end
  end.

(** The contract an atomic type offers to the users of its cells. *)
Class AtomicContract (A : Type) `{AtomicOps A, AtomicType A} := {
  initial_repr (v : A) : valid v = true -> initial v = repr v;
  perform_meaning (x : access A) (v : A) :
    valid v = true -> proper x = true ->
    perform x (repr v) = Some ((meaning x v).1, repr (meaning x v).2);
  meaning_valid (x : access A) (v : A) :
    valid v = true -> proper x = true -> valid (meaning x v).2 = true;
}.

#[local] Arguments to_u32 z : simpl never.
#[local] Arguments to_i32 z : simpl never.

(** ** Packed results *)

Lemma to_u32_range z : 0 <= to_u32 z < 2 ^ 32.
Proof. apply Z.mod_pos_bound. done. Qed.

Lemma shiftr_u32 z : Z.shiftr (to_u32 z) 32 = 0.
Proof. rewrite Z.shiftr_div_pow2 by done. apply Z.div_small, to_u32_range. Qed.

Lemma land_u32 z : Z.land (to_u32 z) 4294967295 = to_u32 z.
Proof.
  change 4294967295 with (Z.ones 32). rewrite Z.land_ones by done. apply Z.mod_small, to_u32_range.
Qed.

Lemma pack_exchanged e z : packed_exchanged (pack e z) = e.
Proof.
  unfold packed_exchanged, pack. rewrite Z.shiftr_lor, shiftr_u32, Z.lor_0_r. by destruct e.
Qed.

Lemma pack_observed e z : packed_observed_uint (pack e z) = to_u32 z.
Proof.
  unfold packed_observed_uint, pack. rewrite Z.land_lor_distr_l, land_u32. by destruct e.
Qed.

Lemma pack_low e b : negb (Z.land (pack e (b2z b)) 1 =? 0) = b.
Proof. by destruct e, b. Qed.

Lemma pack_range e z : 0 <= pack e z < 2 ^ 64.
Proof.
  pose proof (to_u32_range z) as Hz. unfold pack.
  assert (Z.lor (Z.shiftl (b2z e) 32) (to_u32 z) = b2z e * 2 ^ 32 + to_u32 z) as ->.
  { rewrite <- Z.shiftl_mul_pow2 by done.
    assert (Z.land (Z.shiftl (b2z e) 32) (to_u32 z) = 0) as Hl.
    { rewrite <- (land_u32 z), (Z.land_comm (to_u32 z)), Z.land_assoc. by destruct e. }
    by rewrite Z.add_nocarry_lxor, Z.lxor_lor. }
  destruct e; simpl b2z; lia.
Qed.

Lemma to_u32_add a b : to_u32 (to_u32 a + to_u32 b) = to_u32 (a + b).
Proof. unfold to_u32. symmetry. apply Zplus_mod. Qed.

Lemma to_i32_add a b : to_i32 (to_i32 a + to_i32 b) = to_i32 (a + b).
Proof.
  rewrite <- to_i32_of_u32, <- to_u32_add, !to_u32_of_i32, to_u32_add. apply to_i32_of_u32.
Qed.

Lemma to_i32_add_l a b : to_i32 (to_i32 a + b) = to_i32 (a + b).
Proof.
  rewrite <- to_i32_add, (to_i32_id (to_i32 a)) by apply to_i32_range. apply to_i32_add.
Qed.

(** ** The contracts *)

(** The wrappers and the builtins accept the same memory orders. *)
Lemma load_order_accepted o :
  load_order_valid o = bool_decide (o ∈ load_orders) /\
  (forall v, atomic_load_n (sync_memory_order (MemoryOrdering_code o)) v <> None <-> o ∈ load_orders).
Proof. split; [by destruct o|]. intros v. rewrite <- (bool_decide_eq_true (o ∈ load_orders)). by destruct o. Qed.

Lemma store_order_accepted o :
  store_order_valid o = bool_decide (o ∈ store_orders) /\
  (forall x v, atomic_store_n x (sync_memory_order (MemoryOrdering_code o)) v <> None <->
     o ∈ store_orders).
Proof.
  split; [by destruct o|]. intros x v. rewrite <- (bool_decide_eq_true (o ∈ store_orders)). by destruct o.
Qed.

Lemma exchange_orders_valid success failure :
  compare_exchange_orders_valid success failure =
    bool_decide ((success, failure) ∈ compare_exchange_orders) /\
  exchange_orders (sync_memory_order (MemoryOrdering_code success))
    (sync_memory_order (MemoryOrdering_code failure)) =
  compare_exchange_orders_valid success failure.
Proof. by destruct success, failure. Qed.

Lemma exchange_orders_accepted success failure :
  compare_exchange_orders_valid success failure =
    bool_decide ((success, failure) ∈ compare_exchange_orders) /\
  (forall x y v,
     atomic_compare_exchange_n x y (sync_memory_order (MemoryOrdering_code success))
       (sync_memory_order (MemoryOrdering_code failure)) v <> None <->
     (success, failure) ∈ compare_exchange_orders).
Proof.
  destruct (exchange_orders_valid success failure) as [Hv He]. split; [done|]. intros x y v.
  rewrite <- (bool_decide_eq_true (_ ∈ compare_exchange_orders)), <- Hv, <- He.
  unfold atomic_compare_exchange_n. destruct (exchange_orders _ _), (v =? x); done.
Qed.

Lemma compare_exchange_value current next success failure v :
  compare_exchange_orders_valid success failure = true ->
  sync_atomic_compare_exchange_value current next
    (MemoryOrdering_code success) (MemoryOrdering_code failure) v =
  Some (pack (v =? current) v, if v =? current then next else v).
Proof.
  intros H. unfold sync_atomic_compare_exchange_value, mbind, cellM_bind, atomic_compare_exchange_n.
  rewrite (proj2 (exchange_orders_valid success failure)), H. by destruct (Z.eqb_spec v current) as [->|].
Qed.

#[export] Instance bool_contract : AtomicContract bool.
Proof.
  split.
  - by intros [].
  - intros [[]|[] []|[] []|[] [] [] []|[] []] [] _; done.
  - done.
Qed.

Lemma Int32_valid v : valid v = true <-> INT32_MIN <= int32 v <= INT32_MAX.
Proof. cbn. unfold i32_ok. rewrite andb_true_iff, !Z.leb_le. done. Qed.

Lemma UInt32_valid v : valid v = true <-> 0 <= uint32 v < 2 ^ 32.
Proof. cbn. rewrite andb_true_iff, Z.leb_le, Z.ltb_lt. done. Qed.

Lemma Int32_eqb (v w : Int32) : (int32 v =? int32 w) = bool_decide (v = w).
Proof. destruct v as [v], w as [w]. simpl. case_bool_decide; destruct (Z.eqb_spec v w); congruence. Qed.

(** Reinterpreting between [uint32_t] and [int32_t] loses nothing. *)
Lemma UInt32_repr v : valid v = true -> to_u32 (repr v) = uint32 v.
Proof. intros H%UInt32_valid. cbn. rewrite to_u32_of_i32. by apply Z.mod_small. Qed.

Lemma UInt32_eqb (v w : UInt32) :
  valid v = true -> valid w = true -> (repr v =? repr w) = bool_decide (v = w).
Proof.
  intros Hv Hw. case_bool_decide as Hc; [subst; apply Z.eqb_refl|]. apply Z.eqb_neq. intros Hr.
  apply Hc. assert (uint32 v = uint32 w) as He by (rewrite <- (UInt32_repr v), <- (UInt32_repr w), Hr; done).
  destruct v, w. simpl in He. by rewrite He.
Qed.

#[export] Instance Int32_contract : AtomicContract Int32.
Proof.
  split.
  - done.
  - intros x v Hv%Int32_valid Hx. destruct x as [[]|w []|w o|w w' s f|w o]; try by destruct v.
    unfold perform, answered, compare_exchange, meaning. simpl.
    rewrite <- (proj1 (exchange_orders_valid s f)). destruct (compare_exchange_orders_valid s f) eqn:Ho; [|done].
    unfold validated, lift, sync_atomic_int_compare_exchange, mbind, cellM_bind.
    rewrite compare_exchange_value by done. simpl.
    rewrite pack_exchanged, pack_observed, to_i32_of_u32, to_i32_id, Int32_eqb by done.
    destruct v. by case_bool_decide.
  - intros [[]|w []|w o|w w' s f|w o] v Hv Hx; simpl in *; try done.
    + by apply andb_true_iff in Hx as [??]; repeat case_match.
    + apply (proj2 (Int32_valid (MkInt32 _))), to_i32_range.
Qed.

#[export] Instance UInt32_contract : AtomicContract UInt32.
Proof.
  split.
  - done.
  - intros x v Hv Hx. pose proof (UInt32_repr v Hv) as Hr. cbn in Hr.
    assert (MkUInt32 (to_u32 (repr v)) = v) as Hv' by (cbn; rewrite Hr; by destruct v).
    assert (forall o, load_order_valid o = true -> perform (Load o) (repr v) =
      Some (inr (Value (MkUInt32 (to_u32 (repr v)))), repr v)) as Hl by (by intros []).
    destruct x as [[]|w []|w o|w w' s f|w o]; try done; try by rewrite Hl, Hv'.
    + change (Some (inr (Value (MkUInt32 (to_u32 (repr v)))) : SyncError + answer UInt32, repr w) =
        Some (inr (Value v), repr w)). by rewrite Hv'.
    + unfold perform, answered, compare_exchange, meaning. simpl.
      rewrite <- (proj1 (exchange_orders_valid s f)). destruct (compare_exchange_orders_valid s f) eqn:Ho; [|done].
      unfold validated, lift, sync_atomic_uint_compare_exchange, mbind, cellM_bind.
      apply andb_true_iff in Hx as [Hw Hw'].
      rewrite compare_exchange_value by done. simpl.
      rewrite pack_exchanged, pack_observed, Hr. pose proof (UInt32_eqb v w Hv Hw) as He. cbn in He.
      rewrite He. destruct v. by case_bool_decide.
    + change (Some (inr (Value (MkUInt32 (to_u32 (repr v)))) : SyncError + answer UInt32,
          to_i32 (to_i32 (uint32 v) + to_i32 (uint32 w))) =
        Some (inr (Value v), to_i32 (to_u32 (uint32 v + uint32 w)))).
      by rewrite Hv', to_i32_add, to_i32_of_u32.
  - intros [[]|w []|w o|w w' s f|w o] v Hv Hx; simpl in *; try done.
    + by apply andb_true_iff in Hx as [??]; repeat case_match.
    + apply (proj2 (UInt32_valid (MkUInt32 _))), to_u32_range.
Qed.

(** ** Properties *)

(** C26: an access through the wrappers of atomic.mbt is an access to a variable:
    for booleans, [Int32] and [UInt32], on the cell of a value it answers what
    [meaning] says and leaves the cell of the new value, or raises
    [InvalidMemoryOrdering] without effect.  The order checks accept exactly the
    memory orders of the tables [load_orders], [store_orders] and
    [compare_exchange_orders], which are exactly those with which the compiler
    builtins are defined. *)
Theorem atomic_accesses :
  (forall (x : access bool) v, proper x = true ->
    perform x (initial v) = Some ((meaning x v).1, initial (meaning x v).2)) /\
  (forall (x : access Int32) v, valid v = true -> proper x = true ->
    perform x (initial v) = Some ((meaning x v).1, initial (meaning x v).2)) /\
  (forall (x : access UInt32) v, valid v = true -> proper x = true ->
    perform x (initial v) = Some ((meaning x v).1, initial (meaning x v).2)) /\
  (forall o,
    load_order_valid o = bool_decide (o ∈ load_orders) /\
    (forall v, atomic_load_n (sync_memory_order (MemoryOrdering_code o)) v <> None <->
       o ∈ load_orders)) /\
  (forall o,
    store_order_valid o = bool_decide (o ∈ store_orders) /\
    (forall x v, atomic_store_n x (sync_memory_order (MemoryOrdering_code o)) v <> None <->
       o ∈ store_orders)) /\
  (forall success failure,
    compare_exchange_orders_valid success failure =
      bool_decide ((success, failure) ∈ compare_exchange_orders) /\
    (forall x y v,
       atomic_compare_exchange_n x y (sync_memory_order (MemoryOrdering_code success))
         (sync_memory_order (MemoryOrdering_code failure)) v <> None <->
       (success, failure) ∈ compare_exchange_orders)).
Proof.
  assert (forall A (H1 : AtomicOps A) (H2 : AtomicType A) (H : AtomicContract A) x (v : A),
    valid v = true -> proper x = true ->
    perform x (initial v) = Some ((meaning x v).1, initial (meaning x v).2)) as H.
  { intros A H1 H2 H x v Hv Hx. rewrite !initial_repr by (done || by apply meaning_valid).
    by apply perform_meaning. }
  split; [intros x v; by apply (H bool _ _ _)|].
  split; [intros x v; apply (H Int32 _ _ _)|]. split; [intros x v; apply (H UInt32 _ _ _)|].
  split; [exact load_order_accepted|]. split; [exact store_order_accepted|exact exchange_orders_accepted].
Qed.

(** C40: the 64-bit result of a compare-exchange loses nothing: from it the
    wrappers recover whether the exchange took place and what was observed, as a
    boolean, an [Int32] and a [UInt32]. *)
Theorem atomic_pack_roundtrip e :
  (forall z, 0 <= pack e z < 2 ^ 64 /\ packed_exchanged (pack e z) = e) /\
  (forall b, negb (Z.land (pack e (truth (b2z b))) 1 =? 0) = b) /\
  (forall z, to_i32 (packed_observed_uint (pack e (to_i32 z))) = to_i32 z) /\
  (forall z, packed_observed_uint (pack e (to_i32 (to_u32 z))) = to_u32 z).
Proof.
  split_and!.
  - intros z. split; [apply pack_range|apply pack_exchanged].
  - intros b. by destruct b, e.
  - intros z. rewrite pack_observed, to_i32_of_u32. apply to_i32_id, to_i32_range.
  - intros z. by rewrite pack_observed, to_i32_of_u32, to_u32_of_i32.
Qed.

Lemma atomic_accesses_witness :
  valid (MkInt32 (-1)) = true /\
  perform (CompareExchange (MkInt32 (-1)) (MkInt32 5) AcqRel Acquire) (initial (MkInt32 (-1))) =
    Some (inr (Exchanged (MkInt32 (-1)) true), 5) /\
  perform (FetchAdd (MkInt32 1) Relaxed) (initial (MkInt32 INT32_MAX)) =
    Some (inr (Value (MkInt32 INT32_MAX)), INT32_MIN) /\
  perform (Store (MkUInt32 7) Acquire) (initial (MkUInt32 4294967295)) =
    Some (inl InvalidMemoryOrdering, -1).
Proof.
  split; [reflexivity|]. split; [|split].
  - exact (proj1 (proj2 atomic_accesses) (CompareExchange (MkInt32 (-1)) (MkInt32 5) AcqRel Acquire)
      (MkInt32 (-1)) eq_refl eq_refl).
  - exact (proj1 (proj2 atomic_accesses) (FetchAdd (MkInt32 1) Relaxed)
      (MkInt32 INT32_MAX) eq_refl eq_refl).
  - exact (proj1 (proj2 (proj2 atomic_accesses)) (Store (MkUInt32 7) Acquire)
      (MkUInt32 4294967295) eq_refl eq_refl).
Defined.
