(* ===== verification/Windows.v ===== *)
(** Windows: the Windows branches of src/internal, and what they make of the
    components built on Machine.

    The OS wrappers of native_sync.h that call a function without a result return
    0; so the program that Windows runs is the one of the component with every
    status of such a wrapper replaced by 0 ([windows]), on an operating system where
    these calls cannot fail ([cannot_fail]).  Its executions are executions of the
    component, and what is proved of those holds on Windows too. *)
From stdpp Require Import base gmap list.
From Stdlib Require Import ZArith Lia.
From S2P Require Import Prelude Machine Logic Soundness Verified Native.
From S2P Require WaitGroup Once Channel OwnedBytes ThreadPool Atomic.

(** ** The interlocked functions, and what native_internal.h and atomic/native.c make of them *)

(** From the contents of a [LONG] to the result and the new contents. *)
Definition InterlockedIncrement (v : Z) : Z * Z := (to_i32 (v + 1), to_i32 (v + 1)).
Definition InterlockedDecrement (v : Z) : Z * Z := (to_i32 (v - 1), to_i32 (v - 1)).
Definition InterlockedExchange (next v : Z) : Z * Z := (v, next).
Definition InterlockedExchangeAdd (delta v : Z) : Z * Z := (v, to_i32 (v + delta)).
Definition InterlockedCompareExchange (next comparand v : Z) : Z * Z :=
  (v, if v =? comparand then next else v).

Definition sync_arc_inc (v : Z) : Z * Z := InterlockedIncrement v.
Definition sync_arc_dec (v : Z) : Z * Z := InterlockedDecrement v.
Definition sync_test_atomic_load (v : Z) : Z * Z := InterlockedCompareExchange 0 0 v.
Definition sync_test_atomic_store (next v : Z) : Z * Z := InterlockedExchange next v.
Definition sync_test_atomic_take (v : Z) : Z * Z := InterlockedExchange 0 v.
(** Whether the exchange took place, [*expected] afterwards, and the contents. *)
Definition sync_test_atomic_compare_exchange (expected desired v : Z) : bool * Z * Z :=
  let '(previous, v') := InterlockedCompareExchange desired expected v in
  if previous =? expected then (true, expected, v') else (false, previous, v').

(** The memory orders are ignored. *)
Definition sync_atomic_load_value (order v : Z) : Z * Z := InterlockedCompareExchange 0 0 v.
Definition sync_atomic_store_value (value order v : Z) : unit * Z := (tt, (InterlockedExchange value v).2).
Definition sync_atomic_swap_value (value order v : Z) : Z * Z := InterlockedExchange value v.
Definition sync_atomic_fetch_add_value (delta order v : Z) : Z * Z := InterlockedExchangeAdd delta v.
Definition sync_atomic_compare_exchange_value (current next success failure v : Z) : Z * Z :=
  let '(observed, v') := InterlockedCompareExchange next current v in
  (Atomic.pack (observed =? current) observed, v').

(** The reference count and the hooks behave as in [Machine] and [Native]. *)
Lemma windows_counts z : 0 < z < MAX_REFS ->
  sync_arc_inc z = (z + 1, z + 1) /\ sync_arc_dec z = (z - 1, z - 1).
Proof.
  unfold MAX_REFS, sync_arc_inc, sync_arc_dec, InterlockedIncrement, InterlockedDecrement, INT32_MAX.
  intros H. by rewrite !to_i32_id by (unfold INT32_MIN, INT32_MAX; lia).
Qed.

Lemma windows_hooks expected desired v :
  sync_test_atomic_load v = (v, v) /\ sync_test_atomic_store desired v = (v, desired) /\
  sync_test_atomic_take v = (v, 0) /\
  sync_test_atomic_compare_exchange expected desired v =
    if v =? expected then (true, expected, desired) else (false, v, v).
Proof.
  unfold sync_test_atomic_load, sync_test_atomic_compare_exchange, InterlockedCompareExchange.
  split_and!; try done; destruct (Z.eqb_spec v 0), (Z.eqb_spec v expected); by subst.
Qed.

(** Where the POSIX branch is defined, which depends on the memory orders, the two
    branches of atomic/native.c compute the same. *)
Theorem windows_atomics v x y o o' :
  (forall r, Atomic.sync_atomic_load_value o v = Some r -> r = sync_atomic_load_value o v) /\
  (forall r, Atomic.sync_atomic_store_value x o v = Some r -> r = sync_atomic_store_value x o v) /\
  (forall r, Atomic.sync_atomic_swap_value x o v = Some r -> r = sync_atomic_swap_value x o v) /\
  (forall r, Atomic.sync_atomic_fetch_add_value x o v = Some r -> r = sync_atomic_fetch_add_value x o v) /\
  (forall r, Atomic.sync_atomic_compare_exchange_value x y o o' v = Some r ->
     r = sync_atomic_compare_exchange_value x y o o' v).
Proof.
  unfold Atomic.sync_atomic_load_value, Atomic.atomic_load_n, Atomic.sync_atomic_store_value, Atomic.atomic_store_n,
    sync_atomic_load_value, sync_atomic_compare_exchange_value, Atomic.sync_atomic_compare_exchange_value,
    Atomic.atomic_compare_exchange_n, InterlockedCompareExchange, Atomic.sync_atomic_swap_value,
    Atomic.sync_atomic_fetch_add_value, Atomic.atomic_fetch_add, Atomic.atomic_exchange_n,
    mbind, Atomic.cellM_bind, mret, Atomic.cellM_ret, option_bind.
  split_and!; intros r Hr; repeat case_match; simplify_eq/=; try done;
    repeat match goal with H : (_ =? _) = true |- _ => apply Z.eqb_eq in H end; simplify_eq; try done.
Qed.

(** ** The wrappers of native_sync.h *)

Section wrappers.
Context {S : sig}.

(** [InitializeSRWLock(mutex); return 0;] and so on. *)
Definition sync_os_mutex_init (k : Z -> prog S) : prog S := Init RMutex (fun _ => k 0).
Definition sync_os_mutex_destroy (k : Z -> prog S) : prog S := Destroy RMutex (fun _ => k 0).
Definition sync_os_mutex_lock (k : Z -> prog S) : prog S := Lock (fun _ => k 0).
Definition sync_os_mutex_unlock (k : Z -> prog S) : prog S := Unlock (fun _ => k 0).
Definition sync_os_cond_init (c : sC S) (k : Z -> prog S) : prog S := Init (RCond c) (fun _ => k 0).
Definition sync_os_cond_destroy (c : sC S) (k : Z -> prog S) : prog S := Destroy (RCond c) (fun _ => k 0).
Definition sync_os_cond_signal (c : sC S) (k : Z -> prog S) : prog S := Signal c (fun _ => k 0).
Definition sync_os_cond_broadcast (c : sC S) (k : Z -> prog S) : prog S := Broadcast c (fun _ => k 0).

(** A program of the component, compiled with these wrappers.  Waiting is as
    before: [SleepConditionVariableSRW] may fail, with [GetLastError()]. *)
Fixpoint windows (p : prog S) : prog S :=
  match p with
  | Ret r => Ret r
  | Abort => Abort
  | Alloc m k => Alloc m (fun b => windows (k b))
  | Free m k => Free m (windows k)
  | Init m k => Init m (fun _ => windows (k 0))
  | Destroy m k => Destroy m (fun _ => windows (k 0))
  | RefStore z k => RefStore z (windows k)
  | RefInc k => RefInc (windows k)
  | RefDec k => RefDec (fun z => windows (k z))
  | ReadImm k => ReadImm (fun x => windows (k x))
  | Access f k => Access f (fun x => windows (k x))
  | Hook f k => Hook f (fun h => windows (k h))
  | Lock k => Lock (fun _ => windows (k 0))
  | Unlock k => Unlock (fun _ => windows (k 0))
  | Signal c k => Signal c (fun _ => windows (k 0))
  | Broadcast c k => Broadcast c (fun _ => windows (k 0))
  | WaitWhile g c onerr k => WaitWhile g c (fun st => windows (onerr st)) (windows k)
  | CondWait c k => CondWait c (fun st => windows (k st))
  | Wrap d k => Wrap d (windows k)
  | Spawn o k => Spawn o (fun st => windows (k st))
  | OsCall k => OsCall (fun st => windows (k st))
  | Emit e k => Emit e (windows k)
  | Jump l => Jump l
  end.

(** It replaces the wrappers of one branch by those of the other. *)
Lemma windows_wrappers (k : Z -> prog S) c :
  windows (Native.sync_os_mutex_init k) = sync_os_mutex_init (fun st => windows (k st)) /\
  windows (Native.sync_os_mutex_destroy k) = sync_os_mutex_destroy (fun st => windows (k st)) /\
  windows (Native.sync_os_mutex_lock k) = sync_os_mutex_lock (fun st => windows (k st)) /\
  windows (Native.sync_os_mutex_unlock k) = sync_os_mutex_unlock (fun st => windows (k st)) /\
  windows (Native.sync_os_cond_init c k) = sync_os_cond_init c (fun st => windows (k st)) /\
  windows (Native.sync_os_cond_destroy c k) = sync_os_cond_destroy c (fun st => windows (k st)) /\
  windows (Native.sync_os_cond_signal c k) = sync_os_cond_signal c (fun st => windows (k st)) /\
  windows (Native.sync_os_cond_broadcast c k) = sync_os_cond_broadcast c (fun st => windows (k st)).
Proof. done. Qed.

Definition windows_code (M : code S) : code S :=
  Code S (fun o => windows (body M o)) (fun l => windows (block M l)) (zeroed M) (imm M)
    (on_handle M) (consumes M) (client M).

(** ** Executions on Windows *)

(** The calls that have no result. *)
Definition no_result (p : prog S) : bool :=
  match p with
  | Init _ _ | Destroy _ _ | Lock _ | Unlock _ | Signal _ _ | Broadcast _ _ => true
  | _ => false
  end.

(** They do not fail. *)
Definition cannot_fail (x : choice S) (c : config S) : bool :=
  match x with
  | CStep t a _ =>
      match threads c !! t with
      | Some (_, Run p) => negb (no_result p) || (a =? 0)
      | _ => true
      end
  | _ => true
  end.

Definition windows_step (M : code S) (x : choice S) (c : config S) : outcome (config S * list (label S)) :=
  if cannot_fail x c then step (windows_code M) x c else Blocked.

Fixpoint windows_run (M : code S) (xs : list (choice S)) (s : config S * list (label S))
    : outcome (config S * list (label S)) :=
  match xs with
  | [] => Go s
  | x :: xs =>
      match windows_step M x s.1 with
      | Go (c', ls) => windows_run M xs (c', s.2 ++ ls)
      | Fault => Fault
      | Blocked => Blocked
      end
  end.

Definition on_windows (M : code S) (o : sO S) (h : sH S) (c : config S) (tr : list (label S)) : Prop :=
  exists xs, windows_run M xs (start (windows_code M) o h, []) = Go (c, tr).

(** ** The simulation *)

(** A thread on Windows and the same thread of the component. *)
Definition same_thread (x y : sO S * tstate S) : Prop :=
  x.1 = y.1 /\
  match x.2, y.2 with
  | Run p, Run p' => p = windows p'
  | Sleep q k, Sleep q' k' => q = q' /\ forall st, k st = windows (k' st)
  | Wake q a k, Wake q' a' k' => q = q' /\ a = a' /\ forall st, k st = windows (k' st)
  | _, _ => False
  end.

(** The same core, and the same threads. *)
Record similar (c c' : config S) : Prop := Similar {
  sim_core : core c = core c';
  sim_hooks : hooks c = hooks c';
  sim_refs : refs c = refs c';
  sim_alive : alive c = alive c';
  sim_shared : shared c = shared c';
  sim_holder : holder c = holder c';
  sim_idle : idle c = idle c';
  sim_threads : map_Forall2 (fun _ => same_thread) (threads c) (threads c');
}.

Definition similar_outcome (x y : outcome (config S * list (label S))) : Prop :=
  match x, y with
  | Go (c, ls), Go (c', ls') => similar c c' /\ ls = ls'
  | Fault, Fault | Blocked, Blocked => True
  | _, _ => False
  end.
End wrappers.

Section simulation.
Context {S : sig}.
Implicit Types (c : config S) (T : gmap tid (sO S * tstate S)).

Lemma same_sleeps_on q x y : same_thread x y -> sleeps_on (S:=S) q x = sleeps_on q y.
Proof.
  destruct x as [o [p|q1 k|q1 st k]], y as [o' [p'|q' k'|q' st' k']]; unfold same_thread; simpl; naive_solver.
Qed.

Lemma same_wake_all q x y : same_thread x y -> same_thread (wake_all (S:=S) q x) (wake_all q y).
Proof.
  destruct x as [o [p|q1 k|q1 st k]], y as [o' [p'|q' k'|q' st' k']]; unfold same_thread, wake_all; simpl;
    try naive_solver.
  intros (-> & -> & Hk). by case_bool_decide; simpl.
Qed.

Lemma similar_nobody_sleeps q c c' :
  map_Forall2 (fun _ => same_thread) (threads c) (threads c') -> nobody_sleeps q c = nobody_sleeps q c'.
Proof.
  intros HT. unfold nobody_sleeps. apply bool_decide_ext.
  split; intros H t y Hy; specialize (HT t); rewrite Hy in HT; inversion HT as [x1 x2 Hs E1 E2|]; subst.
  - rewrite <- (same_sleeps_on q x1 y Hs). by apply (H t).
  - rewrite (same_sleeps_on q y x2 Hs). by apply (H t).
Qed.

Lemma similar_dom T T' : map_Forall2 (fun _ => same_thread) T T' -> dom T = dom T'.
Proof.
  intros HT. apply set_eq. intros t. rewrite !elem_of_dom. specialize (HT t). by inversion HT.
Qed.

Lemma similar_fmap q T T' :
  map_Forall2 (fun _ => same_thread) T T' ->
  map_Forall2 (fun _ => same_thread) (wake_all (S:=S) q <$> T) (wake_all q <$> T').
Proof. intros HT t. rewrite !lookup_fmap. destruct (HT t); simpl; constructor. by apply same_wake_all. Qed.

Lemma similar_put t o s s' c c' :
  similar c c' -> same_thread (o, s) (o, s') -> similar (put t o s c) (put t o s' c').
Proof.
  intros [] Hs. split; simpl; try done. by apply map_Forall2_insert_2.
Qed.

Lemma similar_cont t o p p' ls c c' :
  similar c c' -> p = windows p' -> similar_outcome (cont t o p ls c) (cont t o p' ls c').
Proof. intros Hc ->. split; [|done]. by apply similar_put. Qed.

Lemma similar_guard b x y : similar_outcome (S:=S) x y -> similar_outcome (guard b x) (guard b y).
Proof. by destruct b. Qed.

Lemma similar_core f c c' : similar c c' -> similar (with_core f c) (with_core f c').
Proof. intros []. split; simpl; first [done|congruence]. Qed.
Lemma similar_hooks f c c' : similar c c' -> similar (with_hooks f c) (with_hooks f c').
Proof. intros []. split; simpl; first [done|congruence]. Qed.
Lemma similar_refs f c c' : similar c c' -> similar (with_refs f c) (with_refs f c').
Proof. intros []. split; simpl; first [done|congruence]. Qed.
Lemma similar_alive f c c' : similar c c' -> similar (with_alive f c) (with_alive f c').
Proof. intros []. split; simpl; first [done|congruence]. Qed.
Lemma similar_shared b c c' : similar c c' -> similar (with_shared b c) (with_shared b c').
Proof. intros []. split; simpl; first [done|congruence]. Qed.
Lemma similar_holder x c c' : similar c c' -> similar (with_holder x c) (with_holder x c').
Proof. intros []. split; simpl; first [done|congruence]. Qed.
Lemma similar_idle f c c' : similar c c' -> similar (with_idle f c) (with_idle f c').
Proof. intros []. split; simpl; first [done|congruence]. Qed.
Lemma similar_wake q c c' :
  similar c c' -> similar (with_threads (fmap (wake_all q)) c) (with_threads (fmap (wake_all q)) c').
Proof. intros []. split; simpl; try done. by apply similar_fmap. Qed.
Lemma similar_delete t c c' :
  similar c c' -> similar (with_threads (delete t) c) (with_threads (delete t) c').
Proof. intros []. split; simpl; try done. by apply map_Forall2_delete. Qed.

Lemma similar_blocked : similar_outcome (S:=S) Blocked Blocked.
Proof. done. Qed.
Lemma similar_fault : similar_outcome (S:=S) Fault Fault.
Proof. done. Qed.

Create HintDb similar.
#[local] Hint Resolve similar_blocked similar_fault similar_core similar_hooks similar_refs similar_alive similar_shared similar_holder
  similar_idle similar_wake similar_delete similar_put similar_cont similar_guard : similar.

Context (M : code S).

Lemma similar_step_run t a v o p c c' :
  similar c c' -> negb (no_result (windows p)) || (a =? 0) = true ->
  similar_outcome (step_run (windows_code M) t a v o (windows p) c) (step_run M t a v o p c').
Proof.
  intros Hc Ha. pose proof Hc as [E1 E2 E3 E4 E5 E6 E7 HT].
  pose proof (fun q => similar_nobody_sleeps q c c' HT) as E8.
  destruct p; cbn [windows no_result negb orb] in *; try apply Z.eqb_eq in Ha as ->; cbn [step_run];
    unfold may_access, private, has; try rewrite <- E1; try rewrite <- E2; try rewrite <- E3;
    try rewrite <- E4; try rewrite <- E5; try rewrite <- E6; try rewrite <- E7;
    cbn [Z.eqb negb].
  all: try solve [try apply similar_guard; repeat case_match; auto 8 with similar].
  - (* Ret *) split; [|done]. simpl. destruct (on_handle M o); [destruct (consumes M o)|]; auto with similar.
  - (* Destroy *)
    destruct m; try apply similar_guard; auto with similar.
    rewrite E8. auto with similar.
  - (* Signal *)
    rewrite E8. apply similar_guard. case_match; [auto with similar|].
    destruct (HT v) as [[o1 s1] [o2 s2] [Ho Hs]|]; [|done].
    destruct s1, s2; simpl in Ho, Hs; try done. destruct Hs as [-> Hs]. subst o2.
    case_bool_decide; [|done]. apply similar_cont; [|done]. by apply similar_put.
  - (* WaitWhile *)
    apply similar_guard. destruct (g (core c)); [|auto with similar].
    destruct (a =? 0); [|auto with similar]. split; [|done]. apply similar_put; [auto with similar|].
    split; [done|]. split; [done|]. intros st. by destruct (st =? 0).
  - (* CondWait *)
    apply similar_guard. destruct (a =? 0); [|auto with similar].
    split; [|done]. apply similar_put; [auto with similar|done].
  - (* Spawn *)
    apply similar_guard. destruct (a =? 0); [|auto with similar].
    rewrite (similar_dom _ _ HT). case_bool_decide; [done|].
    split; [|done]. by repeat apply similar_put.
Qed.

Lemma similar_step x c c' :
  similar c c' -> cannot_fail x c = true ->
  similar_outcome (step (windows_code M) x c) (step M x c').
Proof.
  intros Hc Hx. pose proof Hc as [E1 E2 E3 E4 E5 E6 E7 HT]. destruct x as [t o|t a v|t a]; simpl.
  - rewrite (similar_dom _ _ HT). case_match; [done|]. rewrite E7.
    repeat case_match; auto with similar.
  - simpl in Hx. destruct (HT t) as [[o1 s1] [o2 s2] [Ho Hs]|]; [|done].
    destruct s1, s2; simpl in Ho, Hs; try done; subst.
    + by apply similar_step_run.
    + destruct Hs as (-> & -> & Hs). rewrite E6. case_bool_decide; auto with similar.
  - destruct (HT t) as [[o1 s1] [o2 s2] [Ho Hs]|]; [|done].
    destruct s1, s2; simpl in Ho, Hs; try done; subst. destruct Hs as [-> Hs].
    split; [|done]. by apply similar_put.
Qed.

Lemma similar_run xs c c' tr :
  similar c c' ->
  match windows_run M xs (c, tr) with
  | Go (d, tr') => exists d', run M xs (c', tr) = Go (d', tr') /\ similar d d'
  | Fault => exists xs', run M xs' (c', tr) = Fault
  | Blocked => True
  end.
Proof.
  revert c c' tr. induction xs as [|x xs IH]; intros c c' tr Hc; simpl; [eauto|].
  unfold windows_step. destruct (cannot_fail x c) eqn:Hx; [|done].
  pose proof (similar_step x c c' Hc Hx) as Hs.
  destruct (step (windows_code M) x c) as [[c1 ls]| |] eqn:E, (step M x c') as [[c1' ls']| |] eqn:E'; try done.
  - destruct Hs as [Hc1 <-]. specialize (IH c1 c1' (tr ++ ls) Hc1).
    destruct (windows_run M xs (c1, tr ++ ls)) as [[d tr']| |]; [done| |done].
    destruct IH as [xs' IH]. exists (x :: xs'). simpl. by rewrite E'.
  - exists [x]. simpl. by rewrite E'.
Qed.

Lemma similar_start o h : similar (start (windows_code M) o h) (start M o h).
Proof. split; simpl; try done. by apply map_Forall2_singleton. Qed.

(** What Windows does, the component does. *)
Lemma windows_reachable o h c tr :
  on_windows M o h c tr -> exists c', reachable M o h c' tr /\ similar c c'.
Proof.
  intros [xs H]. pose proof (similar_run xs _ _ [] (similar_start o h)) as Hs. rewrite H in Hs.
  destruct Hs as (c' & Hr & Hc). exists c'. split; [by exists xs|done].
Qed.

Lemma windows_safe o h xs :
  (forall xs, run M xs (start M o h, []) <> Fault) ->
  windows_run M xs (start (windows_code M) o h, []) <> Fault.
Proof.
  intros Hs Hf. pose proof (similar_run xs _ _ [] (similar_start o h)) as H. rewrite Hf in H.
  destruct H as [xs' H]. by apply (Hs xs').
Qed.
End simulation.

(** ** The components on Windows *)

(** What carries over: safety, linearisability with respect to the same atomic
    object, the release of everything the core owned, and error reports. *)
Definition correct_on_windows {S : sig} (M : code S) (Σ : spec S) (o : sO S) : Prop :=
  forall h,
    (forall xs, windows_run M xs (start (windows_code M) o h, []) <> Fault) /\
    forall c tr, on_windows M o h c tr ->
      (exists log a P, aexec Σ o (filter (fun l => visible l = true) tr) log a P /\
         (free c -> a = Some (abs Σ (core c)) /\ inv Σ (core c))) /\
      (threads c = ∅ -> idle c = [] -> alive c = []) /\
      (forall tr1 t o' r tr2, tr = tr1 ++ LRes t o' r :: tr2 -> errok Σ o' r (first_failure tr1 t)).

Lemma similar_empty {S : sig} (c c' : config S) : similar c c' -> threads c = ∅ -> threads c' = ∅.
Proof.
  intros Hc E. pose proof (sim_threads _ _ Hc) as HT. rewrite E in HT.
  by apply map_Forall2_empty_inv_l in HT.
Qed.

Lemma similar_free {S : sig} (c c' : config S) : similar c c' -> free c -> free c'.
Proof. intros [] [Hs Hh]. split; [congruence|]. intros t Ht. apply (Hh t). congruence. Qed.

Lemma verified_on_windows {S : sig} (M : code S) (Σ : spec S) (o : sO S) :
  verified M Σ o -> correct_on_windows M Σ o.
Proof.
  intros V h. split; [intros xs; apply windows_safe, (verified_safe V)|].
  intros c tr (c' & Hr & Hc)%windows_reachable. split_and!.
  - destruct (verified_atomic V h c' tr Hr) as (log & a & P & Ha & Hf). exists log, a, P.
    split; [done|]. intros Hfree%(similar_free _ _ Hc). rewrite (sim_core _ _ Hc).
    split; [auto|by apply (verified_inv V h c' tr)].
  - intros HT%(similar_empty _ _ Hc) Hi. rewrite (sim_alive _ _ Hc).
    rewrite (sim_idle _ _ Hc) in Hi. by apply (verified_released V h c' tr).
  - intros tr1 t o' r tr2 E. by apply (verified_errors V h c' tr tr1 t o' r tr2).
Qed.

(** C38: on Windows, where the OS wrappers that have nothing to report return 0, the
    wait group, the once cell, both channels and the thread pool keep their
    contracts: the program compiled with those wrappers reaches no undefined
    behaviour, is linearisable with respect to the same atomic objects with the
    state read off the core, releases what it owned, and reports the failures that
    can still happen. *)
Theorem windows_components cap (L : OwnedBytes.limits) wc pool_cap :
  cap <= INT32_MAX -> OwnedBytes.limits_ok L ->
  correct_on_windows WaitGroup.wg_code WaitGroup.wg_spec WaitGroup.OpNew /\
  correct_on_windows Once.once_code Once.once_spec Once.OpNew /\
  correct_on_windows Channel.chan_code (Channel.chan_spec cap) (Channel.OpNew cap) /\
  correct_on_windows OwnedBytes.own_code (OwnedBytes.own_spec L)
    (OwnedBytes.OpNew (OwnedBytes.max_count L) (OwnedBytes.max_message L) (OwnedBytes.max_queued L)) /\
  correct_on_windows ThreadPool.pool_code (ThreadPool.pool_spec wc pool_cap) (ThreadPool.OpNew wc pool_cap).
Proof.
  intros Hcap HL. split_and!; apply verified_on_windows;
    auto using WaitGroup.wg_verified, Once.once_verified, Channel.chan_verified, OwnedBytes.own_verified,
      ThreadPool.pool_verified.
Qed.

(** ** Witness *)

Section scenario.
Context {S : sig} (M : code S) (o : sO S) (h : sH S).

Definition windows_plays (xs : list (choice S)) : bool :=
  match windows_run M xs (start (windows_code M) o h, []) with Go _ => true | _ => false end.

Definition windows_after (xs : list (choice S)) : config S * list (label S) :=
  match windows_run M xs (start (windows_code M) o h, []) with
  | Go s => s
  | _ => (start (windows_code M) o h, [])
  end.

Lemma windows_after_played xs :
  windows_plays xs = true -> on_windows M o h (windows_after xs).1 (windows_after xs).2.
Proof. unfold windows_plays, windows_after. intros H. exists xs. by destruct (windows_run M xs _) as [[c tr]| |]. Qed.
End scenario.

(** On Windows too the second sender waits for room. *)
Definition windows_full : config Channel.chan * list (label Channel.chan) :=
  windows_after Channel.chan_code (Channel.OpNew 1) Channel.chan_h0 Channel.chan_full.

Lemma windows_components_witness :
  exists c tr, on_windows Channel.chan_code (Channel.OpNew 1) Channel.chan_h0 c tr /\
    sleeps_at c 2%nat Channel.Writable = true /\ Channel.count (core c) = 1 /\
    exists log a P, aexec (Channel.chan_spec 1) (Channel.OpNew 1) (filter (fun l => visible l = true) tr) log a P /\
      a = Some (Channel.chan_abs (core c)).
Proof.
  assert (on_windows Channel.chan_code (Channel.OpNew 1) Channel.chan_h0 windows_full.1 windows_full.2) as Hw.
  { apply windows_after_played. vm_compute. reflexivity. }
  exists windows_full.1, windows_full.2. split; [exact Hw|]. split; [vm_compute; reflexivity|].
  split; [vm_compute; reflexivity|].
  assert (OwnedBytes.limits_ok OwnedBytes.small) as HL by exact OwnedBytes.small_ok.
  destruct (windows_components 1 OwnedBytes.small 1 1 Channel.one_ok HL) as (_ & _ & Hc & _).
  destruct (proj2 (Hc Channel.chan_h0) _ _ Hw) as ((log & a & P & Ha & Hf) & _).
  exists log, a, P. split; [exact Ha|]. apply Hf. split; [vm_compute; reflexivity|].
  intros t. vm_compute. discriminate.
Defined.
