(* ===== verification/Api.v ===== *)
(** Api: the functions that MoonBit programs call.

    A method of a wrapper file (wait_group.mbt, channel.mbt, ...) makes one call of a
    native function and turns what it returns, and the status it leaves, into a value
    or a raised [SyncError].  [Wrapper] is what such a file owes to its callers: an
    atomic object whose results are those values and errors, and that every step of
    the native object is one of its steps.  [wrapper_refines] is what they get. *)
From stdpp Require Import base gmap list strings.
From Stdlib Require Import ZArith Lia.
From S2P Require Import Prelude Machine Logic Soundness Verified.

(** ** Errors and results *)

Inductive SyncError :=
| InvalidMemoryOrdering (s : string)
| InvalidCapacity (z : Z)
| InvalidMessageSizeLimit (z : Z)
| InvalidQueuedByteLimit (z : Z)
| InvalidOwnedBytesLimits
| InvalidWorkerCount (z : Z)
| InvalidWaitGroupCount
| ChannelInitializationFailed (st : Z)
| ChannelOperationFailed (st : Z)
| MutexInitializationFailed (st : Z)
| CondvarInitializationFailed (st : Z)
| CondvarOperationFailed (st : Z)
| RwLockInitializationFailed (st : Z)
| RwLockOperationFailed (st : Z)
| MutexOperationFailed (st : Z)
| OnceInitializationFailed (st : Z)
| OnceOperationFailed (st : Z)
| WaitGroupInitializationFailed (st : Z)
| WaitGroupOperationFailed (st : Z)
| ThreadCreationFailed (st : Z)
| ThreadInitializationFailed (st : Z)
| ThreadJoinFailed (st : Z)
| ThreadDetachFailed (st : Z)
| ThreadAlreadyJoined
| ThreadAlreadyDetached
| ThreadOperationInProgress
| ThreadOperationFailed (st : Z)
| ThreadJoinSelf
| ThreadPanicked (s : string)
| ThreadPoolCreationFailed (st : Z)
| ThreadPoolOperationFailed (st : Z)
| ThreadPoolClosed
| ThreadPoolWouldDeadlock
| ThreadPoolShutdownFromWorker
| OncePoisoned.

#[export] Instance SyncError_eq : EqDecision SyncError.
Proof. solve_decision. Defined.

(** A function returns or raises; [Undefined] when it takes a null pointer of the
    native code for a value. *)
Inductive answer (A : Type) := Returns (x : A) | Raises (e : SyncError) | Undefined.
Arguments Returns {A} x.
Arguments Raises {A} e.
Arguments Undefined {A}.

#[export] Instance answer_fmap : FMap answer := fun A B f x =>
  match x with Returns x => Returns (f x) | Raises e => Raises e | Undefined => Undefined end.

#[export] Instance answer_bind : MBind answer := fun A B f x =>
  match x with Returns x => f x | Raises e => Raises e | Undefined => Undefined end.

(** What the native code handed over, as a value: undefined for a null pointer. *)
Definition restore {A} (raw : option A) : answer A :=
  match raw with Some x => Returns x | None => Undefined end.

(** A check of the arguments that failed. *)
Definition unless {A} (bad : bool) (e : SyncError) (x : answer A) : answer A :=
  if bad then Raises e else x.

(** [if status.val != 0 { raise e(status.val) }], and then [x] *)
Definition unless_failed {A} (status : Z) (e : Z -> SyncError) (x : answer A) : answer A :=
  if negb (status =? 0) then Raises (e status) else x.

Arguments unless_failed : simpl never.

Lemma unless_failed_ok {A} e (x : answer A) : unless_failed 0 e x = x.
Proof. done. Qed.

Lemma unless_failed_raises {A} status e (x : answer A) :
  status <> 0 -> unless_failed status e x = Raises (e status).
Proof. intros H. unfold unless_failed. by rewrite (proj2 (Z.eqb_neq _ _) H). Qed.

(** Case analysis on a status. *)
Ltac by_status st :=
  let H := fresh "Hst" in
  destruct (decide (st = 0)) as [->|H];
  [rewrite ?unless_failed_ok in * | rewrite ?(unless_failed_raises st) in * by exact H].

(** An equation between closed terms. *)
Ltac by_vm := lazymatch goal with |- ?x = _ => vm_cast_no_check (eq_refl x) end.

(** ** The interface of a wrapper *)

Class Wrapper {S : sig} (Σ : spec S) := {
  value : Type;
  (** what the wrapper of an operation makes of a native result *)
  decode : sO S -> sR S -> answer value;
  (** the atomic object it promises, and the silent steps of that object *)
  api_step : sO S -> option (abst Σ) -> answer value -> option (abst Σ) -> Prop;
  api_silent : sO S -> option (abst Σ) -> option (abst Σ) -> Prop;
  api_sound o a r a' : atomic Σ o a r a' -> api_step o a (decode o r) a';
  api_silent_sound o a r a' : internal Σ o a r a' -> api_silent o a a';
  (** the error that reports a failure in the operation *)
  api_error : sO S -> failure -> SyncError;
  api_errors o a r a' f :
    atomic Σ o a r a' -> errok Σ o r (Some f) -> f <> OsFail 0 -> decode o r = Raises (api_error o f);
}.

(** ** Failures *)

Section failures.
Context {S : sig} (M : code S).

Local Ltac step_failure :=
  simpl; rewrite ?elem_of_cons, ?elem_of_nil; intros; destruct_or?; simplify_eq; try done;
  by match goal with H : (?a =? 0) = false |- ?a <> 0 => apply Z.eqb_neq in H end.

(** A status that shows as a failure is not 0. *)
Lemma step_failure_status x c c' ls t st :
  step M x c = Go (c', ls) -> LFail t (OsFail st) ∈ ls -> st <> 0.
Proof.
  destruct x as [t' o|t' a v|t' a]; simpl.
  - repeat case_match; intros [= <- <-]; step_failure.
  - destruct (threads c !! t') as [[o ts]|]; [|done]. destruct ts as [p|q k|q st' k]; [|done|].
    + intros Hs. unfold step_run, cont, guard, Machine.failed in Hs.
      destruct p; repeat case_match; simplify_eq/=; step_failure.
    + case_bool_decide; intros [= <- <-]; step_failure.
  - destruct (threads c !! t') as [[o ts]|]; [|done].
    unfold Machine.failed. destruct ts; repeat case_match; intros [= <- <-]; step_failure.
Qed.

Lemma failure_status o h c tr t st :
  reachable M o h c tr -> LFail t (OsFail st) ∈ tr -> st <> 0.
Proof.
  intros [xs H]. revert H. generalize (start M o h).
  assert (forall l : label S, l ∈ [] -> st <> 0) as H0 by by intros ? ?%elem_of_nil.
  specialize (H0 (LFail t (OsFail st))). revert H0. generalize (@nil (label S)). induction xs as [|x xs IH]; intros tr0 H0 c0; simpl.
  - by intros [= -> ->].
  - destruct (step M x c0) as [[c1 ls]| |] eqn:Hx; [|done..]. apply IH.
    rewrite elem_of_app. intros [?|?]; [auto|by eapply step_failure_status].
Qed.

Lemma first_failure_in (tr : list (label S)) t f : first_failure tr t = Some f -> LFail t f ∈ tr.
Proof.
  unfold first_failure. induction tr as [|l tr IH] using rev_ind; [done|].
  rewrite fold_left_app, elem_of_app, list_elem_of_singleton. destruct l; simpl; auto; case_decide; subst; auto.
  - done.
  - destruct (fold_left _ _ _); intros [= ->]; auto.
Qed.
End failures.

Section wrapper.
Context {S : sig} {Σ : spec S} `{W : !Wrapper Σ}.

(** What a caller sees: calls, and what they return or raise. *)
Inductive api_call := Called (t : tid) (o : sO S) | Back (t : tid) (o : sO S) (r : answer value).

Definition seen (l : label S) : option api_call :=
  match l with
  | LInv t o => Some (Called t o)
  | LRes t o r => Some (Back t o (decode o r))
  | _ => None
  end.

Definition calls (tr : list (label S)) : list api_call := omap seen tr.

(** An operation that took effect, with its result. *)
Record effect := Eff { ef_tid : tid; ef_op : sO S; ef_res : answer value }.

(** Executions of the promised object: an operation takes effect in one step
    between its call and its return. *)
Inductive api_exec (o0 : sO S) :
    list api_call -> list effect -> option (abst Σ) -> gmap tid (sO S * option (answer value)) -> Prop :=
| ap_start : api_exec o0 [] [] None {[ 0%nat := (o0, None) ]}
| ap_call cs log a P t o :
    api_exec o0 cs log a P -> P !! t = None ->
    api_exec o0 (cs ++ [Called t o]) log a (<[t := (o, None)]> P)
| ap_effect cs log a a' P t o r :
    api_exec o0 cs log a P -> P !! t = Some (o, None) -> api_step o a r a' ->
    api_exec o0 cs (log ++ [Eff t o r]) a' (<[t := (o, Some r)]> P)
| ap_silent cs log a a' P t o l :
    api_exec o0 cs log a P -> P !! t = Some (o, l) -> api_silent o a a' ->
    api_exec o0 cs log a' P
| ap_back cs log a P t o r :
    api_exec o0 cs log a P -> P !! t = Some (o, Some r) ->
    api_exec o0 (cs ++ [Back t o r]) log a (delete t P).

(** The log of the native object, as its callers see it. *)
Definition log_of (log : list (entry S)) : list effect :=
  omap (fun e => if en_own e then Some (Eff (en_tid e) (en_op e) (decode (en_op e) (en_res e))) else None) log.

Definition decided (x : sO S * option (sR S)) : sO S * option (answer value) := (x.1, decode x.1 <$> x.2).

Lemma wrapper_refines o0 tr log a P :
  aexec Σ o0 tr log a P -> api_exec o0 (calls tr) (log_of log) a (decided <$> P).
Proof.
  assert (forall t (P : gmap tid (sO S * option (sR S))) x, P !! t = x -> (decided <$> P) !! t = decided <$> x) as HP'.
  { intros t P' x <-. apply lookup_fmap. }
  induction 1 as [|tr log a P t o H IH HP|tr log a a' P t o r H IH HP Ha|
                  tr log a a' P t o l r H IH HP Hi|tr log a P t o r H IH HP]; unfold calls, log_of in *.
  - rewrite map_fmap_singleton. apply ap_start.
  - rewrite omap_app, fmap_insert. apply ap_call; [done|]. by apply HP' in HP.
  - rewrite omap_app, fmap_insert. eapply ap_effect; [done|by apply HP' in HP|by apply api_sound].
  - rewrite omap_app. simpl. rewrite app_nil_r. eapply ap_silent; [done|by apply HP' in HP|by eapply api_silent_sound].
  - rewrite omap_app, fmap_delete. apply ap_back; [done|]. by apply HP' in HP.
Qed.

Lemma calls_visible tr : calls (filter (fun l => visible l = true) tr) = calls tr.
Proof.
  unfold calls. induction tr as [|l tr IH]; [done|]. rewrite filter_cons.
  destruct l; case_decide; csimpl; try done; by rewrite IH.
Qed.

(** A component that refines its native object refines the promised one. *)
Lemma wrapper_atomic (M : Machine.code S) o0 h c tr :
  verified M Σ o0 -> reachable M o0 h c tr ->
  exists log a P, api_exec o0 (calls tr) log a P /\ (free c -> a = Some (abs Σ (core c))).
Proof.
  intros V H. destruct (verified_atomic V h c tr H) as (log & a & P & Ha & Hf).
  apply wrapper_refines in Ha. rewrite calls_visible in Ha. eauto.
Qed.

(** What the log records happened. *)
Lemma aexec_entry o0 tr log a P t o r :
  aexec Σ o0 tr log a P -> Entry t o r true ∈ log -> exists a1 a2, atomic Σ o a1 r a2.
Proof.
  induction 1; rewrite ?elem_of_app, ?list_elem_of_singleton; eauto.
  - by intros ?%elem_of_nil.
  - intros [?|[= -> -> ->]]; eauto.
  - intros [?|[=]]; eauto.
Qed.

(** No failure is swallowed: a call in which an operating-system call or an
    allocation failed raises, and the error has the first failing status. *)
Lemma wrapper_raises (M : Machine.code S) o0 h c tr tr1 t o r tr2 f :
  verified M Σ o0 -> reachable M o0 h c tr -> tr = tr1 ++ LRes t o r :: tr2 ->
  first_failure tr1 t = Some f -> decode o r = Raises (api_error o f).
Proof.
  intros V H Htr Hf. destruct (verified_atomic V h c tr H) as (log & a & P & Ha & _).
  assert (Entry t o r true ∈ log) as Hin.
  { eapply aexec_returned; [exact Ha|]. apply list_elem_of_filter. split; [done|]. rewrite Htr. set_solver. }
  destruct (aexec_entry _ _ _ _ _ _ _ _ Ha Hin) as (a1 & a2 & Hat).
  eapply api_errors; [exact Hat| |].
  - rewrite <- Hf. eapply (verified_errors V); eauto.
  - intros ->. apply first_failure_in in Hf. 
    apply (failure_status M o0 h c tr t 0 H); [|done]. rewrite Htr. set_solver.
Qed.

(** What a call returned or raised is the result with which it took effect. *)
Lemma api_returned o0 cs log a P t o r :
  api_exec o0 cs log a P -> Back t o r ∈ cs -> Eff t o r ∈ log.
Proof.
  intros H. assert ((forall t o r, P !! t = Some (o, Some r) -> Eff t o r ∈ log) /\
    (forall t o r, Back t o r ∈ cs -> Eff t o r ∈ log)) as [_ Hb]; [|apply Hb].
  clear t o r. induction H as [|cs log a P t o H [IH1 IH2] HP|cs log a a' P t o r H [IH1 IH2] HP Ha|
      |cs log a P t o r H [IH1 IH2] HP]; [| | |done|].
  - split; [by intros ??? [_ ?]%lookup_singleton_Some|by intros ??? ?%not_elem_of_nil].
  - split; intros t' o' r'.
    + rewrite lookup_insert_Some. intros [[_ ?]|[_ ?]]; [done|eauto].
    + rewrite elem_of_app, list_elem_of_singleton. intros [?|?]; [eauto|done].
  - split; intros t' o' r'; rewrite elem_of_app, list_elem_of_singleton.
    + rewrite lookup_insert_Some. intros [[<- [= <- <-]]|[_ ?]]; eauto.
    + eauto.
  - split; intros t' o' r'.
    + intros [_ ?]%lookup_delete_Some. eauto.
    + rewrite elem_of_app, list_elem_of_singleton. intros [?|[= -> -> ->]]; eauto.
Qed.

(** *** Objects that hold a queue *)

Section order.
Context {A : Type} (content : option (abst Σ) -> list A) (put may_put got : effect -> list A).
Context (content0 : content None = []).
Context (silent_content : forall o a a', api_silent o a a' -> content a' = content a).

(** A call that returns moves what it says, one that raises may have put or
    taken an element: nothing is returned twice, made up or out of order. *)
Lemma api_queue o0 cs log a P :
  (forall t o a r a', api_step o a r a' ->
     got (Eff t o r) ++ content a' `sublist_of` content a ++ may_put (Eff t o r)) ->
  api_exec o0 cs log a P -> (log ≫= got) ++ content a `sublist_of` log ≫= may_put.
Proof using content0 silent_content.
  clear put. intros Hstep.
  induction 1 as [| |cs log a a' P t o r H IH HP Ha|cs log a a' P t o l H IH HP Hi|]; try done.
  - by rewrite content0.
  - rewrite !bind_app. simpl. rewrite !app_nil_r, <- !app_assoc.
    trans ((log ≫= got) ++ content a ++ may_put (Eff t o r)).
    + apply sublist_app; [done|by apply Hstep].
    + rewrite app_assoc. by apply sublist_app.
  - by rewrite (silent_content _ _ _ Hi).
Qed.

(** As long as nothing raised, what was put is what was returned and what is left. *)
Lemma api_queue_exact o0 cs log a P :
  (forall t o a r a', api_step o a r a' -> (forall e, r <> Raises e) ->
     content a ++ put (Eff t o r) = got (Eff t o r) ++ content a') ->
  api_exec o0 cs log a P -> (forall e x, x ∈ log -> ef_res x <> Raises e) ->
  log ≫= put = (log ≫= got) ++ content a.
Proof using content0 silent_content.
  clear may_put. intros Hstep.
  induction 1 as [| |cs log a a' P t o r H IH HP Ha|cs log a a' P t o l H IH HP Hi|]; intros Hr; try by auto.
  - rewrite !bind_app. simpl. rewrite !app_nil_r, IH, <- !app_assoc.
    + rewrite (Hstep t o a r a') by (try done; intros e; apply (Hr e (Eff t o r)); set_solver). done.
    + intros e x Hx. apply Hr. set_solver.
  - rewrite (silent_content _ _ _ Hi). auto.
Qed.
End order.
End wrapper.

Arguments api_call S {Σ W}.
Arguments effect S {Σ W}.
