(* ===== verification/ApiOwnedBytes.v ===== *)
(** ApiOwnedBytes: src/channel/owned_bytes_channel.mbt and src/channel/types.mbt,
    what a program gets from the channel of byte strings of OwnedBytes.

    Each wrapper makes one native call; [OwnedBytesSender_try_send] and the others
    are what it makes of the results.  [own_api] is the channel its callers can
    rely on, errors included. *)
From stdpp Require Import base gmap list.
From Stdlib Require Import ZArith Lia.
From S2P Require Import Prelude Machine Logic Soundness Verified Native OwnedBytes Api.

(** ** Results (channel/types.mbt) *)

Inductive OwnedBytesTrySendResult :=
| TrySent
| TryFull
| TryQueueByteLimitReached (length limit : Z)
| TryMessageTooLarge (length limit : Z)
| TryClosed.

Inductive OwnedBytesSendResult :=
| Sent
| MessageTooLarge (length limit : Z)
| Closed.

Inductive OwnedBytesTryRecvResult :=
| Received (m : bytes)
| Empty
| RecvClosed.

(** ** The wrappers, from the results of the native call *)

Section wrappers.
Context (L : limits).

Definition OwnedBytesSender_try_send (m : bytes) (result status : Z) : answer OwnedBytesTrySendResult :=
  unless_failed status ChannelOperationFailed
    match result with
    | 0 => Returns TrySent
    | 1 => Returns TryFull
    | 2 => Returns TryClosed
    | 3 => Returns (TryMessageTooLarge (len m) (max_message L))
    | _ => Returns (TryQueueByteLimitReached (len m) (max_queued L))
    end.

Definition OwnedBytesSender_send_checked (m : bytes) (result status : Z) : answer OwnedBytesSendResult :=
  unless_failed status ChannelOperationFailed
    match result with
    | 0 => Returns Sent
    | 3 => Returns (MessageTooLarge (len m) (max_message L))
    | _ => Returns Closed
    end.

Definition OwnedBytesSender_send (m : bytes) (result status : Z) : answer bool :=
  r ← OwnedBytesSender_send_checked m result status;
  Returns match r with Sent => true | _ => false end.

Definition OwnedBytesReceiver_try_recv (raw : option bytes) (status error : Z)
    : answer OwnedBytesTryRecvResult :=
  unless_failed error ChannelOperationFailed
    match status with
    | 0 => Received <$> restore raw
    | 1 => Returns Empty
    | _ => Returns RecvClosed
    end.

Definition OwnedBytesReceiver_recv (raw : option bytes) (status error : Z) : answer (option bytes) :=
  unless_failed error ChannelOperationFailed
    (if status =? 0 then Some <$> restore raw else Returns None).

(** [close] at either end, [share], and the second half of the constructor. *)
Definition channel_operation (status : Z) : answer unit :=
  unless_failed status ChannelOperationFailed (Returns tt).

Definition OwnedBytesReceiver_length (v status : Z) : answer Z :=
  unless_failed status ChannelOperationFailed (Returns v).

(** The checks of the constructor, before any native call. *)
Definition check_limits (cap mm mq : Z) : answer unit :=
  unless (cap <=? 0) (InvalidCapacity cap) (
  unless (mm <=? 0) (InvalidMessageSizeLimit mm) (
  unless (mq <=? 0) (InvalidQueuedByteLimit mq) (
  unless (mq <? mm) InvalidOwnedBytesLimits (Returns tt)))).

(** The statuses of the two native calls. *)
Definition owned_bytes_bounded_with_limits (cap mm mq creation receiver : Z) : answer unit :=
  check_limits cap mm mq ≫= fun _ =>
  unless_failed creation ChannelInitializationFailed (channel_operation receiver).

Definition owned_bytes_bounded (cap creation receiver : Z) : answer unit :=
  owned_bytes_bounded_with_limits cap (4 * 1024 * 1024) (16 * 1024 * 1024) creation receiver.

(** ** All of them, by the operation *)

Inductive own_value :=
| VUnit
| VTrySend (r : OwnedBytesTrySendResult)
| VSend (r : OwnedBytesSendResult)
| VTryRecv (r : OwnedBytesTryRecvResult)
| VRecv (m : option bytes)
| VInt (n : Z).

Definition own_decode (o : own_op) (r : own_res) : answer own_value :=
  match o, r with
  | OpNew _ _ _, RHandle _ st => unless_failed st ChannelInitializationFailed (Returns VUnit)
  | (OpReceiver | OpSenderShare), RHandle _ st => (fun _ => VUnit) <$> channel_operation st
  | OpTrySend m, RSubmit result st => VTrySend <$> OwnedBytesSender_try_send m result st
  | OpSend m, RSubmit result st => VSend <$> OwnedBytesSender_send_checked m result st
  | (OpSenderClose | OpReceiverClose), RVoid st => (fun _ => VUnit) <$> channel_operation st
  | OpTryRecv, RRecv raw st e => VTryRecv <$> OwnedBytesReceiver_try_recv raw st e
  | OpRecv, RRecv raw st e => VRecv <$> OwnedBytesReceiver_recv raw st e
  | OpLen, RInt v st => VInt <$> OwnedBytesReceiver_length v st
  | OpCapacity, RCapacity v => Returns (VInt v)
  | (OpFinalize _ | OpTestFailNextInit _ | OpTestFailNextOperation _), RUnit => Returns VUnit
  | _, _ => Undefined
  end.

(** ** The channel a program sees *)

Definition pushed_msg (m : bytes) (s : own_state) : own_state := with_queue (queue s ++ [m]) s.

(** There is room for [m] in the channel. *)
Definition accepts (m : bytes) (s : own_state) : Prop :=
  open s = true /\ Z.of_nat (length (queue s)) < max_count L /\ len m <= max_message L /\
  size (queue s) + len m <= max_queued L.

(** What an operation does to the channel when it does it. *)
Definition own_changes (o : own_op) (s s' : own_state) : Prop :=
  match o with
  | OpReceiver => s' = OwnState (queue s) (shut s) true (producers s)
  | OpSenderShare => s' = OwnState (queue s) (shut s) (receiving s) (producers s + 1)
  | OpTrySend m | OpSend m => accepts m s /\ s' = pushed_msg m s
  | OpTryRecv | OpRecv => exists m q, queue s = m :: q /\ s' = with_queue q s
  | OpSenderClose => s' = OwnState (queue s) true (receiving s) (producers s)
  | OpReceiverClose => s' = OwnState (queue s) true false (producers s)
  | OpFinalize Sender =>
      s' = OwnState (queue s) (shut s || (producers s =? 1)) (receiving s) (producers s - 1)
  | OpFinalize Receiver => s' = OwnState (queue s) (shut s || receiving s) false (producers s)
  | _ => False
  end.

(** What a value says about the channel in state [s] before the operation and
    [s'] after it. *)
Definition own_returns (o : own_op) (s : own_state) (v : own_value) (s' : own_state) : Prop :=
  match o, v with
  | (OpReceiver | OpSenderShare | OpSenderClose | OpReceiverClose | OpFinalize _), VUnit => own_changes o s s'
  | OpTrySend m, VTrySend TrySent | OpSend m, VSend Sent => accepts m s /\ s' = pushed_msg m s
  | OpTrySend m, VTrySend TryFull =>
      open s = true /\ Z.of_nat (length (queue s)) = max_count L /\ s' = s
  | OpTrySend m, VTrySend (TryQueueByteLimitReached n l) =>
      n = len m /\ l = max_queued L /\ open s = true /\ l < size (queue s) + n /\ s' = s
  | OpTrySend m, VTrySend TryClosed | OpSend m, VSend Closed => open s = false /\ s' = s
  | OpTryRecv, VTryRecv (Received m) | OpRecv, VRecv (Some m) =>
      exists q, queue s = m :: q /\ s' = with_queue q s
  | OpTryRecv, VTryRecv Empty => queue s = [] /\ shut s = false /\ s' = s
  | OpTryRecv, VTryRecv RecvClosed | OpRecv, VRecv None => queue s = [] /\ shut s = true /\ s' = s
  | OpLen, VInt n => n = Z.of_nat (length (queue s)) /\ s' = s
  | _, _ => False
  end.

(** An operation that raises reports a status that is not 0; it may still have
    done its work. *)
Definition own_api (o : own_op) (a : option own_state) (r : answer own_value) (a' : option own_state) : Prop :=
  match r, o with
  | Returns VUnit, OpNew _ _ _ => a = None /\ a' = Some (OwnState [] false false 1)
  | Returns VUnit, (OpTestFailNextInit _ | OpTestFailNextOperation _) => a' = a
  | Returns (VTrySend (TryMessageTooLarge n l)), OpTrySend m
  | Returns (VSend (MessageTooLarge n l)), OpSend m =>
      n = len m /\ l = max_message L /\ l < n /\ a' = a
  | Returns (VInt n), OpCapacity => n = max_count L /\ a' = a
  | Returns v, _ => exists s s', a = Some s /\ a' = Some s' /\ own_returns o s v s'
  | Raises (ChannelInitializationFailed st), OpNew _ _ _ => st <> 0 /\ a' = a
  | Raises (ChannelOperationFailed st),
    (OpReceiver | OpSenderShare | OpTrySend _ | OpSend _ | OpTryRecv | OpRecv | OpSenderClose |
     OpReceiverClose | OpLen) =>
      st <> 0 /\ (a' = a \/ exists s s', a = Some s /\ a' = Some s' /\ own_changes o s s')
  | _, _ => False
  end.

Ltac own_cases :=
  repeat match goal with
    | H : _ /\ _ |- _ => destruct H
    | H : exists _, _ |- _ => destruct H
    | H : _ \/ _ |- _ => destruct H
    end; simplify_eq/=.

(** Every step of the native channel is a step of this one. *)
Lemma own_api_sound o a r a' : own_atomic L o a r a' -> own_api o a (own_decode o r) a'.
Proof.
  intros H. destruct o as [| | |m|m| | | | | | |[]| |], r as [[] st|? st|? ? st|? st|st|?|];
    simpl in H; try done; unfold submit_step, recv_step in H; own_cases; try done;
    unfold own_decode, OwnedBytesSender_try_send, OwnedBytesSender_send_checked,
      OwnedBytesReceiver_try_recv, OwnedBytesReceiver_recv, OwnedBytesReceiver_length, channel_operation;
    try by_status st; simpl; try done; unfold own_returns, own_changes, accepts, pushed_msg; eauto 12.
Qed.

(** The error of a call in which an operating-system call failed; a failed
    allocation does not return. *)
Definition own_api_error (o : own_op) (f : failure) : SyncError :=
  match f, o with
  | OsFail st, OpNew _ _ _ => ChannelInitializationFailed st
  | OsFail st, _ => ChannelOperationFailed st
  | OutOfMemory, _ => ChannelOperationFailed 0
  end.

Lemma own_api_errors o a r a' f :
  own_atomic L o a r a' -> reported (error_of r) (Some f) -> f <> OsFail 0 ->
  own_decode o r = Raises (own_api_error o f).
Proof.
  intros H Hr Hf. destruct f as [st|]; [|done]. assert (st <> 0) as Hst by congruence.
  destruct o as [| | |m|m| | | | | | |[]| |], r as [[]|? ?|? ? ?|? ?|?|?|]; simpl in H, Hr; try done;
    simplify_eq; unfold own_decode, OwnedBytesSender_try_send, OwnedBytesSender_send_checked,
      OwnedBytesReceiver_try_recv, OwnedBytesReceiver_recv, OwnedBytesReceiver_length, channel_operation;
    by rewrite (unless_failed_raises st) by done.
Qed.

#[export] Instance own_wrapper : Wrapper (own_spec L) := {
  value := own_value;
  decode := own_decode;
  api_step := own_api;
  api_silent _ _ _ := False;
  api_sound := own_api_sound;
  api_silent_sound _ _ _ _ H := H;
  api_error := own_api_error;
  api_errors := own_api_errors;
}.

(** *** Order of messages *)

(** The message a call put into the channel, and the message it returned. *)
Definition put (e : effect own) : list bytes :=
  match ef_op e, ef_res e with
  | OpSend m, Returns (VSend Sent) | OpTrySend m, Returns (VTrySend TrySent) => [m]
  | _, _ => []
  end.

Definition got (e : effect own) : list bytes :=
  match ef_res e with
  | Returns (VRecv (Some m)) | Returns (VTryRecv (Received m)) => [m]
  | _ => []
  end.

(** A submission that raised may have put its message into the channel. *)
Definition may_put (e : effect own) : list bytes :=
  match ef_op e, ef_res e with
  | (OpSend m | OpTrySend m), Raises _ => [m]
  | _, _ => put e
  end.

(** Destruct an operation and its result down to the cases of [own_api]. *)
Ltac own_api_cases H :=
  match type of H with own_api ?o ?a ?r ?a' =>
    destruct r as [[| []| []| []| []|]|[]|], o as [| | | | | | | | | | |[]| |]; simpl in H; try done;
    unfold own_returns, own_changes, accepts, pushed_msg in H; own_cases; try done
  end.

Lemma own_api_may_put t o a r a' :
  own_api o a r a' ->
  got (Eff t o r) ++ queue_of a' `sublist_of` queue_of a ++ may_put (Eff t o r).
Proof.
  unfold got, may_put, put. simpl. intros H.
  own_api_cases H; rewrite ?app_nil_r; try done.
  all: try match goal with H : queue _ = _ |- _ => rewrite H end.
  all: auto using sublist_inserts_r, sublist_cons.
Qed.

Lemma own_api_put t o a r a' :
  own_api o a r a' -> (forall e, r <> Raises e) ->
  queue_of a ++ put (Eff t o r) = got (Eff t o r) ++ queue_of a'.
Proof.
  unfold got, put. simpl. intros H Hr.
  own_api_cases H; rewrite ?app_nil_r; try done; by destruct (Hr _ eq_refl).
Qed.
End wrappers.

(** ** Properties *)

(** The checks of the constructor are what the native code relies on. *)
Lemma check_limits_spec cap mm mq :
  check_limits cap mm mq = Returns tt <-> 0 < cap /\ 0 < mm <= mq.
Proof.
  unfold check_limits, unless.
  destruct (Z.leb_spec cap 0), (Z.leb_spec mm 0), (Z.leb_spec mq 0), (Z.ltb_spec mq mm);
    (split; [intros ?|intros (? & ? & ?)]); try done; lia.
Qed.

Lemma check_limits_ok cap mm mq :
  cap <= INT32_MAX -> mq <= INT32_MAX -> check_limits cap mm mq = Returns tt ->
  limits_ok (Limits cap mm mq).
Proof. intros ? ? (? & ? & ?)%check_limits_spec. unfold limits_ok. simpl. lia. Qed.

Section properties.
Context (cap mm mq : Z) (Hcap : cap <= INT32_MAX) (Hmq : mq <= INT32_MAX).
Context (Hok : check_limits cap mm mq = Returns tt) (h : own_hooks).

Abbreviation L := (Limits cap mm mq).
Abbreviation ctor := (OpNew cap mm mq).

(** C11: what a program sees of a channel of byte strings, whose constructor has
    checked its arguments, is the channel [own_api]: every call takes effect at
    one moment between its call and its return.  A submission returns [Sent] only
    if the channel was open and had a free slot and room for the bytes, which are
    then the last in its queue, and otherwise says why, with the lengths; a
    receive returns the oldest message, [Empty] or [Closed]; a call that raises
    reports a status that is not zero, and may have taken effect; no call takes a
    null pointer for a message. *)
Theorem owned_bytes_api c tr :
  reachable own_code ctor h c tr ->
  exists log a P, api_exec (Σ:=own_spec L) ctor (calls (Σ:=own_spec L) tr) log a P /\
    (free c -> a = Some (own_abs (core c))).
Proof using Hcap Hmq Hok.
  exact (wrapper_atomic own_code ctor h c tr (own_verified L (check_limits_ok _ _ _ Hcap Hmq Hok))).
Qed.

(** A failure is never swallowed: a call in which an operating-system call failed
    raises, and the error has the first failing status. *)
Lemma owned_bytes_api_raises c tr tr1 t o r tr2 st :
  reachable own_code ctor h c tr -> tr = tr1 ++ LRes t o r :: tr2 ->
  first_failure tr1 t = Some (OsFail st) -> own_decode L o r = Raises (own_api_error o (OsFail st)).
Proof using Hcap Hmq Hok.
  intros H Htr Hf.
  exact (wrapper_raises own_code ctor h c tr tr1 t o r tr2 _ (own_verified L (check_limits_ok _ _ _ Hcap Hmq Hok)) H Htr Hf).
Qed.

(** C12: the byte strings that the calls of [recv] and [try_recv] return are, in
    this order, among those of the calls of [send] and [try_send], none twice and
    none changed, whatever calls raised; and as long as no call has raised, they
    are the first of those for which [Sent] was returned, and the others are
    still in the channel. *)
Theorem owned_bytes_api_fifo c tr :
  reachable own_code ctor h c tr ->
  exists log a P, api_exec (Σ:=own_spec L) ctor (calls (Σ:=own_spec L) tr) log a P /\
    (log ≫= got L) ++ queue_of a `sublist_of` log ≫= may_put L /\
    ((forall e x, x ∈ log -> ef_res x <> Raises e) -> log ≫= put L = (log ≫= got L) ++ queue_of a) /\
    (free c -> queue_of a = own_queue (core c)).
Proof using Hcap Hmq Hok.
  intros H. destruct (wrapper_atomic own_code ctor h c tr (own_verified L (check_limits_ok _ _ _ Hcap Hmq Hok)) H)
    as (log & a & P & Ha & Hf).
  exists log, a, P. split; [done|]. split; [|split].
  - eapply (api_queue (Σ:=own_spec L) queue_of (may_put L) (got L)); [done|done| |exact Ha].
    intros. by apply own_api_may_put.
  - eapply (api_queue_exact (Σ:=own_spec L) queue_of (put L) (got L)); [done|done| |exact Ha].
    intros. by apply own_api_put.
  - intros Hc. by rewrite (Hf Hc).
Qed.
End properties.

(** ** Concrete executions *)

(** A message is sent; the signal of the receive that takes it fails. *)
Definition own_lost : list (choice own) :=
  steps 0 12 ++ [call 1 OpReceiver] ++ steps 1 6 ++ [call 1 (OpSend [1; 2])] ++ steps 1 20 ++
  [call 4 OpRecv] ++ steps 4 8 ++ [CStep (S:=own) 4%nat 22 0%nat] ++ steps 4 3.

Abbreviation small_calls tr := (calls (Σ:=own_spec small) tr).

(** A receive can lose a message: when the signal after taking it fails, [recv]
    raises, and the message that [send] reported as sent is neither returned nor
    in the channel any more. *)
Lemma owned_bytes_lost_message :
  exists c tr, reachable own_code small_new own_h0 c tr /\ free c /\ own_queue (core c) = [] /\
    small_calls tr =
      [Back 0%nat small_new (Returns VUnit); Called 1%nat OpReceiver; Back 1%nat OpReceiver (Returns VUnit);
       Called 1%nat (OpSend [1; 2]); Back 1%nat (OpSend [1; 2]) (Returns (VSend Sent));
       Called 4%nat OpRecv; Back 4%nat OpRecv (Raises (ChannelOperationFailed 22))].
Proof.
  exists (own_after own_lost).1, (own_after own_lost).2.
  split; [scenario|]. split; [vm_compute; split; [reflexivity|discriminate]|].
  split; [vm_compute; reflexivity|]. by_vm.
Qed.

Lemma owned_bytes_api_witness :
  exists c tr, last (small_calls tr) = Some (Back 4%nat OpRecv (Returns (VRecv (Some [1; 2; 3])))) /\
    exists log a P, api_exec (Σ:=own_spec small) small_new (small_calls tr) log a P /\
      (free c -> a = Some (own_abs (core c))).
Proof.
  exists (own_after own_stalled).1, (own_after own_stalled).2.
  split; [by_vm|].
  apply (owned_bytes_api 3 4 4 ltac:(done) ltac:(done) eq_refl own_h0). scenario.
Defined.

Lemma owned_bytes_api_fifo_witness :
  exists c tr, free c /\ own_queue (core c) = [[4]] /\
    exists log a P, api_exec (Σ:=own_spec small) small_new (small_calls tr) log a P /\
      (log ≫= got small) ++ queue_of a `sublist_of` log ≫= may_put small /\
      ((forall e x, x ∈ log -> ef_res x <> Raises e) -> log ≫= put small = (log ≫= got small) ++ queue_of a) /\
      (free c -> queue_of a = own_queue (core c)).
Proof.
  exists (own_after own_stalled).1, (own_after own_stalled).2.
  split; [vm_compute; split; [reflexivity|discriminate]|]. split; [vm_compute; reflexivity|].
  apply (owned_bytes_api_fifo 3 4 4 ltac:(done) ltac:(done) eq_refl own_h0). scenario.
Defined.
