(* ===== verification/ApiChannel.v ===== *)
(** ApiChannel: src/unsafe/channel/channel.mbt and src/unsafe/channel/types.mbt,
    what a program gets from the channel of MoonBit values of Channel.

    A value is put into a box and the channel carries the address of the box; here
    a value is the address.  The native code hands a value that it did not take
    back to the wrapper, which returns it inside [Full], [Closed] or [Err], or
    drops it when it raises. *)
From stdpp Require Import base gmap list.
From Stdlib Require Import ZArith Lia.
From S2P Require Import Prelude Machine Logic Soundness Verified Native Channel Api.

(** ** Results (types.mbt) *)

Inductive TrySendResult :=
| TrySent
| Full (value : ptr)
| TryClosed (value : ptr).

Inductive SendResult :=
| Ok
| Err (value : ptr).

Inductive TryRecvResult :=
| Received (value : ptr)
| Empty
| RecvClosed.

(** ** The wrappers, from the results of the native call *)

Definition Sender_try_send (returned : option ptr) (result status : Z) : answer TrySendResult :=
  unless_failed status ChannelOperationFailed
    match result with
    | 0 => Returns TrySent
    | 1 => Full <$> restore returned
    | _ => TryClosed <$> restore returned
    end.

Definition Sender_send (returned : option ptr) (result status : Z) : answer SendResult :=
  unless_failed status ChannelOperationFailed
    (if result =? 0 then Returns Ok else Err <$> restore returned).

Definition Receiver_try_recv (raw : option ptr) (status error : Z) : answer TryRecvResult :=
  unless_failed error ChannelOperationFailed
    match status with
    | 0 => Received <$> restore raw
    | 1 => Returns Empty
    | _ => Returns RecvClosed
    end.

Definition Receiver_recv (raw : option ptr) (status error : Z) : answer (option ptr) :=
  unless_failed error ChannelOperationFailed
    (if status =? 0 then Some <$> restore raw else Returns None).

(** [close] at either end, [share], and the second half of the constructor. *)
Definition channel_operation (status : Z) : answer unit :=
  unless_failed status ChannelOperationFailed (Returns tt).

Definition Receiver_length (v status : Z) : answer Z :=
  unless_failed status ChannelOperationFailed (Returns v).

(** The constructor, from the statuses of its two native calls. *)
Definition bounded (cap creation receiver : Z) : answer unit :=
  unless (cap <=? 0) (InvalidCapacity cap)
    (unless_failed creation ChannelInitializationFailed (channel_operation receiver)).

(** ** All of them, by the operation *)

Inductive chan_value :=
| VUnit
| VTrySend (r : TrySendResult)
| VSend (r : SendResult)
| VTryRecv (r : TryRecvResult)
| VRecv (m : option ptr)
| VInt (n : Z).

Definition chan_decode (o : chan_op) (r : chan_res) : answer chan_value :=
  match o, r with
  | OpNew _, RHandle _ st => unless_failed st ChannelInitializationFailed (Returns VUnit)
  | (OpReceiver | OpSenderShare), RHandle _ st => (fun _ => VUnit) <$> channel_operation st
  | OpTrySend _, RSend returned result st => VTrySend <$> Sender_try_send returned result st
  | OpSend _, RSend returned result st => VSend <$> Sender_send returned result st
  | (OpSenderClose | OpReceiverClose), RVoid st => (fun _ => VUnit) <$> channel_operation st
  | OpTryRecv, RRecv raw st e => VTryRecv <$> Receiver_try_recv raw st e
  | OpRecv, RRecv raw st e => VRecv <$> Receiver_recv raw st e
  | OpLen, RInt v st => VInt <$> Receiver_length v st
  | OpCapacity, RCapacity v => Returns (VInt v)
  | (OpFinalize _ | OpTestFailNextInit _ | OpTestFailNextOperation _), RUnit => Returns VUnit
  | _, _ => Undefined
  end.

(** ** The channel a program sees *)

Section api.
Context (cap : Z).

Definition accepts (s : chan_state) : Prop := open s = true /\ Z.of_nat (length (queue s)) < cap.

(** What an operation does to the channel when it does it. *)
Definition chan_changes (o : chan_op) (s s' : chan_state) : Prop :=
  match o with
  | OpReceiver => s' = ChanState (queue s) (shut s) true (producers s)
  | OpSenderShare => s' = ChanState (queue s) (shut s) (receiving s) (producers s + 1)
  | OpTrySend m | OpSend m => accepts s /\ s' = with_queue (queue s ++ [m]) s
  | OpTryRecv | OpRecv => exists m q, queue s = m :: q /\ s' = with_queue q s
  | OpSenderClose => s' = ChanState (queue s) true (receiving s) (producers s)
  | OpReceiverClose => s' = ChanState (queue s) true false (producers s)
  | OpFinalize Sender =>
      s' = ChanState (queue s) (shut s || (producers s =? 1)) (receiving s) (producers s - 1)
  | OpFinalize Receiver => s' = ChanState (queue s) (shut s || receiving s) false (producers s)
  | _ => False
  end.

(** What a value says about the channel in state [s] before the operation and
    [s'] after it.  A value that was refused is given back. *)
Definition chan_returns (o : chan_op) (s : chan_state) (v : chan_value) (s' : chan_state) : Prop :=
  match o, v with
  | (OpReceiver | OpSenderShare | OpSenderClose | OpReceiverClose | OpFinalize _), VUnit => chan_changes o s s'
  | OpTrySend m, VTrySend TrySent | OpSend m, VSend Ok => accepts s /\ s' = with_queue (queue s ++ [m]) s
  | OpTrySend m, VTrySend (Full m') =>
      m' = m /\ open s = true /\ Z.of_nat (length (queue s)) = cap /\ s' = s
  | OpTrySend m, VTrySend (TryClosed m') | OpSend m, VSend (Err m') => m' = m /\ open s = false /\ s' = s
  | OpTryRecv, VTryRecv (Received m) | OpRecv, VRecv (Some m) =>
      exists q, queue s = m :: q /\ s' = with_queue q s
  | OpTryRecv, VTryRecv Empty => queue s = [] /\ shut s = false /\ s' = s
  | OpTryRecv, VTryRecv RecvClosed | OpRecv, VRecv None => queue s = [] /\ shut s = true /\ s' = s
  | OpLen, VInt n => n = Z.of_nat (length (queue s)) /\ s' = s
  | _, _ => False
  end.

(** An operation that raises reports a status that is not 0; it may still have
    done its work. *)
Definition chan_api (o : chan_op) (a : option chan_state) (r : answer chan_value) (a' : option chan_state) : Prop :=
  match r, o with
  | Returns VUnit, OpNew _ => a = None /\ a' = Some (ChanState [] false false 1)
  | Returns VUnit, (OpTestFailNextInit _ | OpTestFailNextOperation _) => a' = a
  | Returns (VInt n), OpCapacity => n = cap /\ a' = a
  | Returns v, _ => exists s s', a = Some s /\ a' = Some s' /\ chan_returns o s v s'
  | Raises (ChannelInitializationFailed st), OpNew _ => st <> 0 /\ a' = a
  | Raises (ChannelOperationFailed st),
    (OpReceiver | OpSenderShare | OpTrySend _ | OpSend _ | OpTryRecv | OpRecv | OpSenderClose |
     OpReceiverClose | OpLen) =>
      st <> 0 /\ (a' = a \/ exists s s', a = Some s /\ a' = Some s' /\ chan_changes o s s')
  | _, _ => False
  end.

Ltac chan_cases :=
  repeat match goal with
    | H : _ /\ _ |- _ => destruct H
    | H : exists _, _ |- _ => destruct H
    | H : _ \/ _ |- _ => destruct H
    end; simplify_eq/=.

(** Every step of the native channel is a step of this one. *)
Lemma chan_api_sound o a r a' : chan_atomic cap o a r a' -> chan_api o a (chan_decode o r) a'.
Proof.
  intros H. destruct o as [| | |m|m| | | | | | |[]| |], r as [[] st|? ? st|? ? st|? st|st|?|];
    simpl in H; try done; unfold send_step, recv_step in H; chan_cases; try done;
    unfold chan_decode, Sender_try_send, Sender_send, Receiver_try_recv, Receiver_recv,
      Receiver_length, channel_operation;
    try by_status st; simpl; try done; unfold chan_returns, chan_changes, accepts; eauto 12.
Qed.

(** The error of a call in which an operating-system call failed; a failed
    allocation does not return. *)
Definition chan_api_error (o : chan_op) (f : failure) : SyncError :=
  match f, o with
  | OsFail st, OpNew _ => ChannelInitializationFailed st
  | OsFail st, _ => ChannelOperationFailed st
  | OutOfMemory, _ => ChannelOperationFailed 0
  end.

Lemma chan_api_errors o a r a' f :
  chan_atomic cap o a r a' -> reported (error_of r) (Some f) -> f <> OsFail 0 ->
  chan_decode o r = Raises (chan_api_error o f).
Proof.
  intros H Hr Hf. destruct f as [st|]; [|done]. assert (st <> 0) as Hst by congruence.
  destruct o as [| | |m|m| | | | | | |[]| |], r as [[]|? ? ?|? ? ?|? ?|?|?|]; simpl in H, Hr; try done;
    simplify_eq; unfold chan_decode, Sender_try_send, Sender_send, Receiver_try_recv, Receiver_recv,
      Receiver_length, channel_operation;
    by rewrite (unless_failed_raises st) by done.
Qed.

#[export] Instance chan_wrapper : Wrapper (chan_spec cap) := {
  value := chan_value;
  decode := chan_decode;
  api_step := chan_api;
  api_silent _ _ _ := False;
  api_sound := chan_api_sound;
  api_silent_sound _ _ _ _ H := H;
  api_error := chan_api_error;
  api_errors := chan_api_errors;
}.

(** *** Order of messages *)

(** The value a call put into the channel, and the value it returned from it. *)
Definition put (e : effect chan) : list ptr :=
  match ef_op e, ef_res e with
  | OpSend m, Returns (VSend Ok) | OpTrySend m, Returns (VTrySend TrySent) => [m]
  | _, _ => []
  end.

Definition got (e : effect chan) : list ptr :=
  match ef_res e with
  | Returns (VRecv (Some m)) | Returns (VTryRecv (Received m)) => [m]
  | _ => []
  end.

(** A submission that raised may have put its value into the channel. *)
Definition may_put (e : effect chan) : list ptr :=
  match ef_op e, ef_res e with
  | (OpSend m | OpTrySend m), Raises _ => [m]
  | _, _ => put e
  end.

(** Destruct an operation and its result down to the cases of [chan_api]. *)
Ltac chan_api_cases H :=
  match type of H with chan_api ?o ?a ?r ?a' =>
    destruct r as [[| []| []| []| []|]|[]|], o as [| | | | | | | | | | |[]| |]; simpl in H; try done;
    unfold chan_returns, chan_changes, accepts in H; chan_cases; try done
  end.

Lemma chan_api_may_put t o a r a' :
  chan_api o a r a' ->
  got (Eff t o r) ++ queue_of a' `sublist_of` queue_of a ++ may_put (Eff t o r).
Proof.
  unfold got, may_put, put. simpl. intros H.
  chan_api_cases H; rewrite ?app_nil_r; try done.
  all: try match goal with H : queue _ = _ |- _ => rewrite H end.
  all: auto using sublist_inserts_r, sublist_cons.
Qed.

Lemma chan_api_put t o a r a' :
  chan_api o a r a' -> (forall e, r <> Raises e) ->
  queue_of a ++ put (Eff t o r) = got (Eff t o r) ++ queue_of a'.
Proof.
  unfold got, put. simpl. intros H Hr.
  chan_api_cases H; rewrite ?app_nil_r; try done; by destruct (Hr _ eq_refl).
Qed.
End api.

(** ** Properties *)

Section properties.
Context (cap : Z) (Hcap : cap <= INT32_MAX) (h : chan_hooks).

Abbreviation V := (chan_verified cap Hcap).

(** C3: what a program sees of a channel of MoonBit values is the channel
    [chan_api]: every call takes effect at one moment between its call and its
    return.  A send that returns [Ok] or [Sent] found the channel open and with
    room, and the value is now the last in its queue; one that returns [Full],
    [Closed] or [Err] gives the same value back and changes nothing; a receive
    returns the oldest value, [Empty] or [Closed]; no call takes a null pointer
    for a value.  A call that raises reports a status that is not zero, gives
    nothing back, and has taken effect or not: the value of a send that raises is
    in the queue or lost, and a receive that raises may have taken one out
    ([channel_dropped_value]; the comment of [try_send] promises otherwise). *)
Theorem channel_api c tr :
  reachable chan_code (OpNew cap) h c tr ->
  exists log a P, api_exec (Σ:=chan_spec cap) (OpNew cap) (calls (Σ:=chan_spec cap) tr) log a P /\
    (free c -> a = Some (chan_abs (core c))).
Proof using Hcap. exact (wrapper_atomic chan_code (OpNew cap) h c tr V). Qed.

(** The values that the calls of [recv] and [try_recv] return are, in this
    order, among those of the calls of [send] and [try_send], none twice, whatever
    calls raised; and as long as no call has raised, they are the first of those
    that were sent, and the others are still in the channel. *)
Lemma channel_api_fifo c tr :
  reachable chan_code (OpNew cap) h c tr ->
  exists log a P, api_exec (Σ:=chan_spec cap) (OpNew cap) (calls (Σ:=chan_spec cap) tr) log a P /\
    (log ≫= got cap) ++ queue_of a `sublist_of` log ≫= may_put cap /\
    ((forall e x, x ∈ log -> ef_res x <> Raises e) -> log ≫= put cap = (log ≫= got cap) ++ queue_of a) /\
    (free c -> queue_of a = chan_queue (core c)).
Proof using Hcap.
  intros H. destruct (wrapper_atomic chan_code (OpNew cap) h c tr V H) as (log & a & P & Ha & Hf).
  exists log, a, P. split; [done|]. split; [|split].
  - eapply (api_queue (Σ:=chan_spec cap) queue_of (may_put cap) (got cap)); [done|done| |exact Ha].
    intros. by apply chan_api_may_put.
  - eapply (api_queue_exact (Σ:=chan_spec cap) queue_of (put cap) (got cap)); [done|done| |exact Ha].
    intros. by apply chan_api_put.
  - intros Hc. by rewrite (Hf Hc).
Qed.

(** A failure is never swallowed: a call in which an operating-system call failed
    raises, and the error has the first failing status. *)
Lemma channel_api_raises c tr tr1 t o r tr2 st :
  reachable chan_code (OpNew cap) h c tr -> tr = tr1 ++ LRes t o r :: tr2 ->
  first_failure tr1 t = Some (OsFail st) -> chan_decode o r = Raises (chan_api_error o (OsFail st)).
Proof using Hcap.
  intros H Htr Hf. exact (wrapper_raises chan_code (OpNew cap) h c tr tr1 t o r tr2 _ V H Htr Hf).
Qed.
End properties.

(** ** Concrete executions *)

(** The channel is full and a sender waits; the receiver closes. *)
Definition chan_refused : list (choice chan) :=
  chan_full ++ [call 3 OpReceiverClose] ++ steps 3 7 ++ steps 2 5.

(** [try_send] cannot lock the mutex. *)
Definition chan_dropped : list (choice chan) :=
  steps 0 12 ++ [call 1 (OpTrySend 5)] ++ steps 1 1 ++ [CStep (S:=chan) 1%nat 22 0%nat] ++ steps 1 1.

Abbreviation one_calls tr := (calls (Σ:=chan_spec 1) tr).

(** A value can be lost: when the mutex cannot be locked, [try_send] raises and
    does not give the value back, and it is not in the channel either. *)
Lemma channel_dropped_value :
  exists c tr, reachable chan_code (OpNew 1) chan_h0 c tr /\ free c /\ chan_queue (core c) = [] /\
    one_calls tr = [Back 0%nat (OpNew 1) (Returns VUnit); Called 1%nat (OpTrySend 5);
                    Back 1%nat (OpTrySend 5) (Raises (ChannelOperationFailed 22))].
Proof.
  exists (chan_after chan_dropped).1, (chan_after chan_dropped).2.
  split; [scenario|]. split; [vm_compute; split; [reflexivity|discriminate]|].
  split; [vm_compute; reflexivity|by_vm].
Qed.

Lemma channel_api_witness :
  exists c tr, free c /\ chan_queue (core c) = [5] /\
    last (one_calls tr) = Some (Back 2%nat (OpSend 6) (Returns (VSend (Err 6)))) /\
    exists log a P, api_exec (Σ:=chan_spec 1) (OpNew 1) (one_calls tr) log a P /\
      (free c -> a = Some (chan_abs (core c))).
Proof.
  exists (chan_after chan_refused).1, (chan_after chan_refused).2.
  split; [vm_compute; split; [reflexivity|discriminate]|]. split; [vm_compute; reflexivity|].
  split; [by_vm|]. apply (channel_api 1 one_ok chan_h0). scenario.
Defined.
