(* ===== verification/ApiWaitGroup.v ===== *)
(** ApiWaitGroup: src/wait_group/wait_group.mbt, what a program gets from the wait
    group of WaitGroup. *)
From stdpp Require Import base gmap list.
From Stdlib Require Import ZArith Lia.
From S2P Require Import Prelude Machine Logic Soundness Verified Native WaitGroup Api.

(** ** The wrappers, from the results of the native call *)

Definition WaitGroup_new (status : Z) : answer unit :=
  unless_failed status WaitGroupInitializationFailed (Returns tt).

(** The native [add] returns whether it succeeded. *)
Definition WaitGroup_add (succeeded status : Z) : answer unit :=
  if succeeded =? 0 then unless_failed status WaitGroupOperationFailed (Raises InvalidWaitGroupCount)
  else Returns tt.

Definition WaitGroup_wait (status : Z) : answer unit :=
  unless_failed status WaitGroupOperationFailed (Returns tt).

(** [done] is [add] of this. *)
Definition WaitGroup_done : wg_op := OpAdd (-1).

Definition wg_decode (o : wg_op) (r : res) : answer unit :=
  match o, r with
  | OpNew, RHandle _ st => WaitGroup_new st
  | OpShare, RHandle _ _ => Returns tt
  | OpAdd _, RInt v st => WaitGroup_add v st
  | OpWait, RVoid st => WaitGroup_wait st
  | (OpFinalize | OpTestFailNextInit _ | OpTestFailNextAdd _ | OpTestFailNextWait _), RUnit => Returns tt
  | _, _ => Undefined
  end.

(** ** The wait group a program sees: a counter *)

Definition wg_api (o : wg_op) (a : option Z) (r : answer unit) (a' : option Z) : Prop :=
  match o, r with
  | OpNew, Returns tt => a = None /\ a' = Some 0
  | OpNew, Raises (WaitGroupInitializationFailed st) => st <> 0 /\ a' = a
  | OpAdd delta, Returns tt => exists n, a = Some n /\ wg_valid (n + delta) /\ a' = Some (n + delta)
  | OpAdd delta, Raises InvalidWaitGroupCount => exists n, a = Some n /\ ~ wg_valid (n + delta) /\ a' = a
  | OpAdd delta, Raises (WaitGroupOperationFailed st) =>
      st <> 0 /\ (a' = a \/ exists n, a = Some n /\ wg_valid (n + delta) /\ a' = Some (n + delta))
  | OpWait, Returns tt => a = Some 0 /\ a' = a
  | OpWait, Raises (WaitGroupOperationFailed st) => st <> 0 /\ a' = a
  | (OpShare | OpFinalize | OpTestFailNextInit _ | OpTestFailNextAdd _ | OpTestFailNextWait _), Returns tt => a' = a
  | _, _ => False
  end.

(** Every step of the native wait group is a step of this one. *)
Lemma wg_api_sound o a r a' : wg_atomic o a r a' -> wg_api o a (wg_decode o r) a'.
Proof.
  intros H. destruct o, r as [[] st|v st|st|]; simpl in H; try done;
    unfold wg_decode, WaitGroup_new, WaitGroup_add, WaitGroup_wait.
  - destruct H as (-> & -> & ->). done.
  - destruct H as [Hst ->]. by rewrite unless_failed_raises by done.
  - destruct H as [-> ->]. done.
  - destruct H as [(Hst & -> & ->)|(n & -> & [(Hv & -> & ->)|(Hv & -> & ->)])]; simpl.
    + rewrite unless_failed_raises by done. simpl. auto.
    + by_status st; simpl; [eauto|]. rewrite (proj2 (Z.eqb_neq _ _) Hst). simpl. eauto 8.
    + by_status st; simpl; eauto 6.
  - destruct H as [-> H]. by_status st; simpl; auto.
Qed.

Definition wg_api_error (o : wg_op) (f : failure) : SyncError :=
  match f, o with
  | OsFail st, OpNew => WaitGroupInitializationFailed st
  | OsFail st, _ => WaitGroupOperationFailed st
  | OutOfMemory, _ => WaitGroupOperationFailed 0
  end.

Lemma wg_api_errors o a r a' f :
  wg_atomic o a r a' -> reports r (Some f) -> f <> OsFail 0 -> wg_decode o r = Raises (wg_api_error o f).
Proof.
  intros H Hr Hf. destruct f as [st|]; [|done]. assert (st <> 0) as Hst by congruence.
  unfold reports, reported in Hr.
  destruct o, r as [[] ?|v ?|?|]; simpl in H, Hr; try done; simplify_eq;
    unfold wg_decode, WaitGroup_new, WaitGroup_add, WaitGroup_wait; rewrite ?unless_failed_raises by done; try done.
  - by destruct H as [-> _].
  - destruct H as [(_ & -> & _)|(n & _ & [(_ & -> & _)|(_ & -> & _)])]; try done.
    by rewrite (proj2 (Z.eqb_neq _ _) Hst).
Qed.

#[export] Instance wg_wrapper : Wrapper wg_spec := {
  value := unit;
  decode := wg_decode;
  api_step := wg_api;
  api_silent _ _ _ := False;
  api_sound := wg_api_sound;
  api_silent_sound _ _ _ _ H := H;
  api_error := wg_api_error;
  api_errors := wg_api_errors;
}.

(** *** What the counter counts *)

(** What an operation that returned added to the counter. *)
Definition added (e : effect wg) : Z :=
  match ef_op e, ef_res e with
  | OpAdd delta, Returns _ => delta
  | _, _ => 0
  end.

(** An addition that raised a failure of the operating system may have taken effect. *)
Definition unsure (e : effect wg) : bool :=
  match ef_op e, ef_res e with
  | OpAdd _, Raises (WaitGroupOperationFailed _) => true
  | _, _ => false
  end.

Definition total (log : list (effect wg)) : Z := lsum added log.

Lemma wg_api_counts t o a r a' :
  wg_api o a r a' -> unsure (Eff t o r) = false -> default 0 a' = default 0 a + added (Eff t o r).
Proof.
  unfold unsure, added. simpl. intros H Hu.
  destruct o, r as [[]|[]|]; simpl in H; try done;
    repeat match goal with
      | H : _ /\ _ |- _ => destruct H
      | H : exists _, _ |- _ => destruct H
      end; subst; simpl; lia.
Qed.

(** The counter is the sum of what was added, so a [wait] returns at a moment
    when the additions that have returned sum up to 0. *)
Lemma wg_total o0 cs log a P :
  api_exec (Σ:=wg_spec) o0 cs log a P ->
  (Forall (fun e => unsure e = false) log -> default 0 a = total log) /\
  (forall log1 t log2, log = log1 ++ Eff t OpWait (Returns tt) :: log2 ->
     Forall (fun e => unsure e = false) log1 -> total log1 = 0).
Proof.
  unfold total.
  induction 1 as [|cs log a P t o H IH HP|cs log a a' P t o r H [IH1 IH2] HP Ha|
                  cs log a a' P t o l H IH HP []|cs log a P t o r H IH HP]; try done.
  - split; [done|]. by intros [].
  - split.
    + rewrite Forall_app, Forall_singleton, lsum_app. intros [Hl Hu]. simpl.
      rewrite (wg_api_counts t o a r a'), IH1 by done. lia.
    + intros log1 t' log2 Heq Hl. destruct log2 as [|e log2 _] using rev_ind.
      * apply app_inj_tail in Heq as [-> [= -> -> ->]].
        rewrite <- IH1 by done. destruct Ha as [-> _]. done.
      * rewrite app_comm_cons, app_assoc in Heq. apply app_inj_tail in Heq as [Heq _]. eauto.
Qed.

(** ** Properties *)

(** C22: what a program sees of a wait group is a counter: [add] and [done] change
    it by their argument or raise [InvalidWaitGroupCount] and leave it alone when
    it would leave 0..INT32_MAX, [wait] returns only at a moment when it is 0, and
    then what all calls of [add] and [done] before it have added sums up to 0,
    unless one of them raised a failure of the operating system, after which its
    argument may have been counted or not. *)
Theorem wait_group_api h c tr :
  reachable wg_code OpNew h c tr ->
  exists log a P, api_exec (Σ:=wg_spec) OpNew (calls (Σ:=wg_spec) tr) log a P /\
    (free c -> a = Some (count (core c))) /\
    (forall log1 t log2, log = log1 ++ Eff t OpWait (Returns tt) :: log2 ->
       Forall (fun e => unsure e = false) log1 -> total log1 = 0).
Proof.
  intros H. destruct (wrapper_atomic wg_code OpNew h c tr wg_verified H) as (log & a & P & Ha & Hf).
  exists log, a, P. split; [done|]. split; [done|]. eapply wg_total, Ha.
Qed.

(** A failure is never swallowed: a call in which an operating-system call failed
    raises, and the error has the first failing status. *)
Lemma wait_group_api_raises h c tr tr1 t o r tr2 st :
  reachable wg_code OpNew h c tr -> tr = tr1 ++ LRes t o r :: tr2 ->
  first_failure tr1 t = Some (OsFail st) -> wg_decode o r = Raises (wg_api_error o (OsFail st)).
Proof. intros H Htr Hf. exact (wrapper_raises wg_code OpNew h c tr tr1 t o r tr2 _ wg_verified H Htr Hf). Qed.

(** ** Concrete executions *)

(** Thread 1 adds one, waits, and goes on when thread 2 is done. *)
Definition wg_waited : list (choice wg) :=
  steps 0 7 ++ [call 1 OpShare] ++ steps 1 3 ++ [call 1 (OpAdd 1)] ++ steps 1 7 ++ [call 1 OpWait] ++ steps 1 3 ++
  [call 2 WaitGroup_done] ++ steps 2 8 ++ steps 1 4.

(** A count below zero. *)
Definition wg_negative : list (choice wg) := steps 0 7 ++ [call 1 WaitGroup_done] ++ steps 1 5.

Abbreviation wg_after := (after wg_code OpNew wg_h0).

Lemma wait_group_negative :
  last (calls (Σ:=wg_spec) (wg_after wg_negative).2) = Some (Back 1%nat WaitGroup_done (Raises InvalidWaitGroupCount)).
Proof. by_vm. Qed.

Lemma wait_group_api_witness :
  exists c tr, free c /\ last (calls (Σ:=wg_spec) tr) = Some (Back 1%nat OpWait (Returns tt)) /\
    exists log a P, api_exec (Σ:=wg_spec) OpNew (calls (Σ:=wg_spec) tr) log a P /\
      (free c -> a = Some (count (core c))) /\
      (forall log1 t log2, log = log1 ++ Eff t OpWait (Returns tt) :: log2 ->
         Forall (fun e => unsure e = false) log1 -> total log1 = 0).
Proof.
  exists (wg_after wg_waited).1, (wg_after wg_waited).2.
  split; [vm_compute; split; [reflexivity|discriminate]|]. split; [by_vm|].
  apply (wait_group_api wg_h0). scenario.
Defined.
