(* ===== verification/ApiThreadPool.v ===== *)
(** ApiThreadPool: src/unsafe/thread_pool/thread_pool.mbt and types.mbt, what a
    program gets from the thread pool of ThreadPool. *)
From stdpp Require Import base gmap list.
From Stdlib Require Import ZArith Lia.
From S2P Require Import Prelude Machine Logic Soundness Verified Native ThreadPool Api.

(** ** Results (types.mbt) *)

Inductive TryExecuteResult := Submitted | QueueFull | PoolClosed.

(** ** The wrappers, from the results of the native call *)

Definition max_worker_count : Z := 64.
Definition max_queue_capacity : Z := 16384.

(** The checks of the constructor, before the native call. *)
Definition check_arguments (wc cap : Z) : answer unit :=
  unless ((wc <=? 0) || (max_worker_count <? wc)) (InvalidWorkerCount wc) (
  unless ((cap <=? 0) || (max_queue_capacity <? cap)) (InvalidCapacity cap) (Returns tt)).

Definition created (status : Z) : answer unit :=
  unless_failed status ThreadPoolCreationFailed (Returns tt).

Definition ThreadPool_new (wc cap status : Z) : answer unit :=
  check_arguments wc cap ≫= fun _ => created status.

(** [share] and [close]. *)
Definition pool_operation (status : Z) : answer unit :=
  unless_failed status ThreadPoolOperationFailed (Returns tt).

Definition ThreadPool_try_execute (result error : Z) : answer TryExecuteResult :=
  unless_failed error ThreadPoolOperationFailed
    match result with
    | 0 => Returns Submitted
    | 1 => Returns QueueFull
    | _ => Returns PoolClosed
    end.

Definition ThreadPool_execute (result error : Z) : answer unit :=
  unless_failed error ThreadPoolOperationFailed
    match result with
    | 0 => Returns tt
    | 3 => Raises ThreadPoolWouldDeadlock
    | _ => Raises ThreadPoolClosed
    end.

Definition ThreadPool_shutdown (result status : Z) : answer unit :=
  unless_failed status ThreadPoolOperationFailed
    (if negb (result =? 0) then Raises ThreadPoolShutdownFromWorker else Returns tt).

(** A boolean of the native code. *)
Definition ThreadPool_is_closed (result status : Z) : answer bool :=
  unless_failed status ThreadPoolOperationFailed (Returns (negb (result =? 0))).

Definition ThreadPool_pending_count (result status : Z) : answer Z :=
  unless_failed status ThreadPoolOperationFailed (Returns result).

(** ** All of them, by the operation *)

Inductive pool_value :=
| VUnit
| VTryExecute (r : TryExecuteResult)
| VBool (b : bool)
| VInt (n : Z).

Definition pool_decode (o : pool_op) (r : pool_res) : answer pool_value :=
  match o, r with
  | OpNew _ _, RHandle _ st => (fun _ => VUnit) <$> created st
  | OpShare, RHandle _ st => (fun _ => VUnit) <$> pool_operation st
  | OpTryExecute _ _, RInt v e => VTryExecute <$> ThreadPool_try_execute v e
  | OpExecute _ _, RInt v e => (fun _ => VUnit) <$> ThreadPool_execute v e
  | OpClose, RVoid st => (fun _ => VUnit) <$> pool_operation st
  | OpShutdown _, RInt v st => (fun _ => VUnit) <$> ThreadPool_shutdown v st
  | OpIsClosed, RInt v st => VBool <$> ThreadPool_is_closed v st
  | OpWorkerCount, RCount v => Returns (VInt v)
  | OpPendingCount, RInt v st => VInt <$> ThreadPool_pending_count v st
  | (OpFinalize | OpTestFailAllocAfter _ | OpTestFailNextSubmit _ | OpTestFailNextShutdown _ | OpWorker), RUnit =>
      Returns VUnit
  | _, _ => Undefined
  end.

(** ** The pool a program sees *)

Section api.
Context (wc cap : Z).

Definition full (s : pool_state) : Prop := shut s = false /\ Z.of_nat (length (queue s)) = cap.

(** [t] is queued. *)
Definition queues (t : task) (s s' : pool_state) : Prop :=
  shut s = false /\ Z.of_nat (length (queue s)) < cap /\ s' = with_queue (queue s ++ [t]) s.

(** What an answer says about the pool in state [s] before the operation and
    [s'] after it; [here] is true in a call from one of the pool's workers. *)
Definition pool_answers (o : pool_op) (s : pool_state) (r : answer pool_value) (s' : pool_state) : Prop :=
  match o, r with
  | OpShare, Returns VUnit => s' = with_owners (owners s + 1) s
  | OpTryExecute t _, Returns (VTryExecute Submitted) | OpExecute t _, Returns VUnit => queues t s s'
  | OpTryExecute t _, Returns (VTryExecute QueueFull) => full s /\ s' = s
  | OpTryExecute t _, Returns (VTryExecute PoolClosed) | OpExecute t _, Raises ThreadPoolClosed =>
      shut s = true /\ s' = s
  | OpExecute t here, Raises ThreadPoolWouldDeadlock => here = true /\ full s /\ s' = s
  | (OpTryExecute t _ | OpExecute t _), Raises (ThreadPoolOperationFailed st) =>
      st <> 0 /\ queues t s s'
  | OpClose, Returns VUnit => s' = shut_down s
  | OpClose, Raises (ThreadPoolOperationFailed st) => st <> 0 /\ s' = shut_down s
  | OpShutdown _, Returns VUnit => workers s = 0 /\ s' = s
  | OpIsClosed, Returns (VBool b) => b = shut s /\ s' = s
  | OpPendingCount, Returns (VInt n) => n = Z.of_nat (length (queue s)) /\ s' = s
  | OpFinalize, Returns VUnit =>
      let s1 := with_owners (owners s - 1) s in s' = if owners s =? 1 then shut_down s1 else s1
  | OpWorker, Returns VUnit => shut s = true /\ queue s = [] /\ s' = with_workers (workers s - 1) s
  | _, _ => False
  end.

(** A call that raises a failure reports a status that is not 0; it may still
    have done its work, as in [pool_answers], or not. *)
Definition pool_api (o : pool_op) (a : option pool_state) (r : answer pool_value) (a' : option pool_state) : Prop :=
  match o, r with
  | OpNew _ _, Returns VUnit => a' = a
  | OpNew _ _, Raises (ThreadPoolCreationFailed st) => st <> 0 /\ a' = a
  | OpWorkerCount, Returns (VInt n) => n = wc /\ a' = a
  | OpShutdown here, Raises ThreadPoolShutdownFromWorker => here = true /\ a' = a
  | (OpTestFailAllocAfter _ | OpTestFailNextSubmit _ | OpTestFailNextShutdown _), Returns VUnit => a' = a
  | _, _ =>
      (exists s s', a = Some s /\ a' = Some s' /\ pool_answers o s r s') \/
      (exists st, st <> 0 /\ r = Raises (ThreadPoolOperationFailed st) /\ a' = a /\
        match o with
        | OpShare | OpTryExecute _ _ | OpExecute _ _ | OpClose | OpShutdown _ | OpIsClosed | OpPendingCount => True
        | _ => False
        end)
  end.

Definition pool_silent (o : pool_op) (a a' : option pool_state) : Prop := exists r, pool_internal o a r a'.

(** Every step of the native pool is a step of this one. *)
Lemma pool_api_sound o a r a' : pool_atomic wc cap o a r a' -> pool_api o a (pool_decode o r) a'.
Proof.
  intros H. destruct o, r as [? st|v st|st|?| | | | | |]; simpl in H; try done;
    unfold submit_step in H; try (destruct ok); pool_trans; try done;
    unfold pool_decode, created, pool_operation, ThreadPool_try_execute, ThreadPool_execute,
      ThreadPool_shutdown, ThreadPool_is_closed, ThreadPool_pending_count;
    try by_status st; simpl; try done; unfold queues, full.
  all: first
    [ left; do 2 eexists; split_and!; try reflexivity; solve [eauto | by case_match]
    | right; eexists; split_and!; (reflexivity || eassumption || done)
    | by left; exists x, x; destruct (shut x) ].
Qed.

(** [ThreadPoolCreationFailed] also reports a failed allocation. *)
Definition pool_api_error (o : pool_op) (f : failure) : SyncError :=
  match o, f with
  | OpNew _ _, OsFail st => ThreadPoolCreationFailed st
  | OpNew _ _, OutOfMemory => ThreadPoolCreationFailed SYNC_THREAD_POOL_ALLOCATION_FAILED
  | _, OsFail st => ThreadPoolOperationFailed st
  | _, OutOfMemory => ThreadPoolOperationFailed 0
  end.

Lemma pool_api_errors o a r a' f :
  pool_atomic wc cap o a r a' -> pool_errok o r (Some f) -> f <> OsFail 0 ->
  pool_decode o r = Raises (pool_api_error o f).
Proof.
  intros H Hr Hf. unfold pool_errok, reported in Hr.
  destruct f as [st|]; [assert (st <> 0) as Hst by congruence|];
    destruct o, r as [? ?|? ?|?|?| | | | | |]; simpl in H, Hr; try done; simplify_eq;
    unfold pool_decode, created, pool_operation, ThreadPool_try_execute, ThreadPool_execute,
      ThreadPool_shutdown, ThreadPool_is_closed, ThreadPool_pending_count;
    by rewrite unless_failed_raises by done.
Qed.

#[export] Instance pool_wrapper : Wrapper (pool_spec wc cap) := {
  value := pool_value;
  decode := pool_decode;
  api_step := pool_api;
  api_silent := pool_silent;
  api_sound := pool_api_sound;
  api_silent_sound _ _ r _ H := ex_intro _ r H;
  api_error := pool_api_error;
  api_errors := pool_api_errors;
}.
(** *** A closed pool stays closed *)

(** Answers that say that the pool is closed, and answers that say that it is
    open: a task has been queued, or [is_closed] is false. *)
Definition closes (e : effect pool) : bool :=
  match ef_op e, ef_res e with
  | OpClose, Returns _ | OpIsClosed, Returns (VBool true) | OpTryExecute _ _, Returns (VTryExecute PoolClosed)
  | OpExecute _ _, Raises ThreadPoolClosed => true
  | _, _ => false
  end.

Definition needs_open (e : effect pool) : bool :=
  match ef_op e, ef_res e with
  | OpTryExecute _ _, Returns (VTryExecute Submitted) | OpExecute _ _, Returns _
  | OpIsClosed, Returns (VBool false) => true
  | _, _ => false
  end.

Definition is_shut (a : option pool_state) : Prop := exists s, a = Some s /\ shut s = true.

Ltac pool_api_cases H :=
  match type of H with pool_api ?o ?a ?r ?a' =>
    destruct o, r as [[|[]|[]|]|[]|]; simpl in H; try done; unfold queues, full in H; pool_trans; try done
  end.

Lemma pool_api_closes t o a r a' : pool_api o a r a' -> closes (Eff t o r) = true -> is_shut a'.
Proof. unfold closes, is_shut. simpl. intros H Hc. pool_api_cases H; eauto. Qed.

Lemma pool_api_shut t o a r a' :
  pool_api o a r a' -> is_shut a -> is_shut a' /\ needs_open (Eff t o r) = false.
Proof.
  unfold needs_open, is_shut. simpl. intros H (s & -> & Hs).
  pool_api_cases H; try congruence; split; eauto; case_match; eauto.
Qed.

Lemma pool_silent_shut o a a' : pool_silent o a a' -> is_shut a -> is_shut a'.
Proof.
  unfold is_shut. intros [r H] (s & -> & Hs). destruct o, r; simpl in H; try done; pool_trans; eauto.
Qed.

Lemma pool_stays_closed o0 cs log a P :
  api_exec (Σ:=pool_spec wc cap) o0 cs log a P ->
  (forall e, e ∈ log -> closes e = true -> is_shut a) /\
  (forall log1 e1 log2 e2, log = log1 ++ e1 :: log2 -> closes e1 = true -> e2 ∈ log2 -> needs_open e2 = false).
Proof.
  induction 1 as [|cs log a P t o H IH HP|cs log a a' P t o r H [IH1 IH2] HP Ha|
                  cs log a a' P t o l H [IH1 IH2] HP Hi|cs log a P t o r H IH HP]; try done.
  - split; [by intros ? ?%elem_of_nil|by intros []].
  - split.
    + intros e [He|He]%elem_of_app Hc.
      * by eapply (pool_api_shut t o a r a'); [exact Ha|eauto].
      * apply list_elem_of_singleton in He as ->. by apply (pool_api_closes t o a r a').
    + intros log1 e1 log2 e2 Heq Hc He. destruct log2 as [|e log2 _] using rev_ind; [by apply elem_of_nil in He|].
      rewrite app_comm_cons, app_assoc in Heq. apply app_inj_tail in Heq as [Heq <-].
      apply elem_of_app in He as [He|He]; [by eapply IH2|].
      apply list_elem_of_singleton in He as ->. eapply (pool_api_shut t o a r a'); [exact Ha|].
      eapply IH1; [|exact Hc]. rewrite Heq. set_solver.
  - split; [|done]. intros e He Hc. eapply pool_silent_shut; eauto.
Qed.
End api.

(** ** Properties *)

(** The limits of the constructor are those of the native code. *)
Lemma check_arguments_spec wc cap :
  check_arguments wc cap = Returns tt <->
  0 < wc <= SYNC_THREAD_POOL_MAX_WORKER_COUNT /\ 0 < cap <= SYNC_THREAD_POOL_MAX_CAPACITY.
Proof.
  unfold check_arguments, unless, max_worker_count, max_queue_capacity, SYNC_THREAD_POOL_MAX_WORKER_COUNT,
    SYNC_THREAD_POOL_MAX_CAPACITY.
  destruct (Z.leb_spec wc 0), (Z.ltb_spec 64 wc), (Z.leb_spec cap 0), (Z.ltb_spec 16384 cap); simpl;
    (split; [intros ?|intros (? & ?)]); try done; lia.
Qed.

Section properties.
Context (wc cap : Z) (h : pool_hooks).

Abbreviation V := (pool_verified wc cap).
Abbreviation ctor := (OpNew wc cap).

(** C6: what a program sees of a thread pool is the pool [pool_api], whose workers
    take tasks silently: a submission that returns has queued its task in an open
    pool with room, and otherwise the answer says that the pool is full or
    closed; [execute] raises [ThreadPoolWouldDeadlock] only on a worker of a full
    pool, [shutdown] returns only at a moment when no worker is left and raises
    [ThreadPoolShutdownFromWorker] only on a worker; and once an answer has said
    that the pool is closed, no later one says that a task was queued or that the
    pool is open. *)
Theorem thread_pool_api c tr :
  reachable pool_code ctor h c tr ->
  exists log a P, api_exec (Σ:=pool_spec wc cap) ctor (calls (Σ:=pool_spec wc cap) tr) log a P /\
    (free c -> a = Some (pool_abs (core c))) /\
    (forall log1 e1 log2 e2, log = log1 ++ e1 :: log2 -> closes wc cap e1 = true -> e2 ∈ log2 ->
       needs_open wc cap e2 = false).
Proof.
  intros H. destruct (wrapper_atomic pool_code ctor h c tr V H) as (log & a & P & Ha & Hf).
  exists log, a, P. split; [done|]. split; [done|]. eapply pool_stays_closed, Ha.
Qed.

(** A failure is never swallowed: a call in which an operating-system call or an
    allocation failed raises, and the error has the first failing status. *)
Lemma thread_pool_api_raises c tr tr1 t o r tr2 f :
  reachable pool_code ctor h c tr -> tr = tr1 ++ LRes t o r :: tr2 ->
  first_failure tr1 t = Some f -> pool_decode o r = Raises (pool_api_error o f).
Proof. intros H Htr Hf. exact (wrapper_raises pool_code ctor h c tr tr1 t o r tr2 f V H Htr Hf). Qed.
End properties.

(** ** A concrete execution *)

(** The worker has left a closed pool; then one thread shuts it down and another
    submits a task. *)
Definition pool_rejecting : list (choice pool) :=
  pool_worker_left ++ [call 3 (OpShutdown false)] ++ steps 3 10 ++ [call 4 (OpExecute 9 false)] ++ steps 4 8.

Lemma thread_pool_api_witness :
  exists c tr before, free c /\
    calls (Σ:=pool_spec 1 1) tr = before ++
      [Called 3%nat (OpShutdown false); Back 3%nat (OpShutdown false) (Returns VUnit);
       Called 4%nat (OpExecute 9 false); Back 4%nat (OpExecute 9 false) (Raises ThreadPoolClosed)] /\
    exists log a P, api_exec (Σ:=pool_spec 1 1) (OpNew 1 1) (calls (Σ:=pool_spec 1 1) tr) log a P /\
      (free c -> a = Some (pool_abs (core c))) /\
      (forall log1 e1 log2 e2, log = log1 ++ e1 :: log2 -> closes 1 1 e1 = true -> e2 ∈ log2 ->
         needs_open 1 1 e2 = false).
Proof.
  exists (pool_after pool_rejecting).1, (pool_after pool_rejecting).2,
    (take 9 (calls (Σ:=pool_spec 1 1) (pool_after pool_rejecting).2)).
  split; [vm_compute; split; [reflexivity|discriminate]|]. split; [by_vm|].
  apply (thread_pool_api 1 1 pool_h0). scenario.
Defined.
