(* ===== verification/AtomicCell.v ===== *)
(** AtomicCell: the reference-counted cells of src/atomic/native.c in use, by any
    number of threads, for any atomic type that keeps its contract. *)
From stdpp Require Import base gmap list.
From Stdlib Require Import ZArith Lia.
From S2P Require Import Prelude Interleave Arc Atomic.

Section cell.
Context {A : Type} `{AtomicContract A}.

(** [sync_atomic_core_t], and the handles on it. *)
Record sync_atomic_core := AtomicCore {
  core_life : life;
  value : Z;
}.

Inductive cell_op := OpNew (v : A) | OpShare | OpAccess (x : access A) | OpFinalize.
Inductive cell_result := RHandle | RAnswer (r : SyncError + answer A) | RVoid.

Definition cell_lang : lang :=
  Lang sync_atomic_core cell_op cell_result (access A * (SyncError + answer A)).

Definition core_lens : lens (lS cell_lang) life :=
  Lens (fun s => core_life s) (fun c s => AtomicCore c (value s)).

(** [core->value = value], a plain write: a data race on a shared core. *)
Definition value_store (z : Z) (k : prog cell_lang) : prog cell_lang :=
  Act (fun _ _ _ s =>
    if private (core_life s)
    then Go (tt, AtomicCore (core_life s) z, []) else Fault) (fun _ => k).

(** An atomic access to [core->value]. *)
Definition value_access (x : access A) (k : SyncError + answer A -> prog cell_lang)
    : prog cell_lang :=
  Act (fun _ _ _ s =>
    if allocated (core_life s) then
      match perform x (value s) with
      | Some (r, z) => Go (r, AtomicCore (core_life s) z, [@Effect cell_lang (x, r)])
      | None => Fault
      end
    else Fault) k.

Definition sync_atomic_wrap (k : prog cell_lang) : prog cell_lang := make_handle core_lens k.

Definition zeroed (s : lS cell_lang) : lS cell_lang := AtomicCore (core_life s) 0.

Definition sync_atomic_new (z : Z) : prog cell_lang := (
  sync_alloc core_lens zeroed;;
  refs_store core_lens 1;;
  value_store z;;
  sync_atomic_wrap;;
  Ret RHandle)%iprog.

Definition sync_atomic_share : prog cell_lang := (
  sync_arc_inc core_lens;;
  sync_atomic_wrap;;
  Ret RHandle)%iprog.

Definition sync_atomic_finalize : prog cell_lang := (
  n <- sync_arc_dec core_lens;;
  if n =? 0 then (free core_lens;; Ret RVoid) else Ret RVoid)%iprog.

Definition cell_code : code cell_lang := {|
  body o :=
    match o : lO cell_lang with
    | OpNew v => sync_atomic_new (initial v)
    | OpShare => sync_atomic_share
    | OpAccess x => value_access x (fun r => Ret (RAnswer r))
    | OpFinalize => sync_atomic_finalize
    end;
  enter t o s :=
    let on_life (f : life -> option life) :=
      c ← f (core_life s); Some (AtomicCore c (value s) : lS cell_lang) in
    match o with
    | OpNew v => if valid v then on_life create else None
    | OpShare => on_life take
    | OpAccess x => if proper x then on_life take else None
    | OpFinalize => on_life take
    end;
  leave t o r s :=
    match o with
    | OpShare | OpAccess _ => AtomicCore (give_back (core_life s)) (value s)
    | OpNew _ | OpFinalize => s
    end;
|}.

(** No cell yet. *)
Definition no_cell : lS cell_lang := AtomicCore unborn 0.

(** ** Reading a trace *)

(** The value the cell was created with. *)
Definition created_step (acc : option A) (l : label cell_lang) : option A :=
  match acc, l with None, LInv _ (OpNew v) => Some v | _, _ => acc end.
Definition created (tr : list (label cell_lang)) : option A := fold_left created_step tr None.

(** The accesses in their order, with their answers. *)
Definition accessed (l : label cell_lang) : option (access A * (SyncError + answer A)) :=
  match l with LEv _ (Effect e) => Some e | _ => None end.
Definition history (tr : list (label cell_lang)) : list (access A * (SyncError + answer A)) :=
  omap accessed tr.

(** A variable that starts with [v] answers so, and ends with [v']. *)
Fixpoint legal (v : A) (h : list (access A * (SyncError + answer A))) (v' : A) : Prop :=
  match h with
  | [] => v' = v
  | (x, r) :: h => (meaning x v).1 = r /\ legal (meaning x v).2 h v'
  end.

Lemma legal_snoc v h v' x :
  legal v h v' -> legal v (h ++ [(x, (meaning x v').1)]) (meaning x v').2.
Proof.
  revert v. induction h as [|[y r] h IH]; intros v; simpl; [by intros ->|].
  intros [? ?]. split; [done|]. by apply IH.
Qed.

Lemma created_app tr ls : created (tr ++ ls) = fold_left created_step ls (created tr).
Proof. apply fold_left_app. Qed.

Lemma history_app tr ls : history (tr ++ ls) = history tr ++ history ls.
Proof. apply omap_app. Qed.

Definition constructs (l : label cell_lang) : bool :=
  match l with LInv _ (OpNew _) => true | _ => false end.

Lemma created_other tr l : constructs l = false -> created (tr ++ [l]) = created tr.
Proof. rewrite created_app. simpl. unfold created_step. by destruct (created tr), l as [? []|? []|]. Qed.

Lemma history_other tr l : accessed l = None -> history (tr ++ [l]) = history tr.
Proof. intros Hl. rewrite history_app. unfold history at 2. simpl. by rewrite Hl, app_nil_r. Qed.

(** ** The proof outline *)

(** [build]: the constructor still holds the cell, created with a value it has
    already stored or not. *)
Record cell_ghost := CellGhost { stk : stake; build : option (A * bool) }.

(** The variable after the accesses of a trace, [None] before its creation. *)
Definition lives (tr : list (label cell_lang)) (w : option A) : Prop :=
  match created tr, w with
  | None, None => history tr = []
  | Some v0, Some v => valid v0 = true /\ legal v0 (history tr) v /\ valid v = true
  | _, _ => False
  end.

Record cell_inv (tr : list (label cell_lang)) (s : lS cell_lang) (gs : gmap tid cell_ghost) : Prop := {
  cell_counted : counted stk (core_life s) gs;
  cell_lives : exists w, lives tr w /\
    (owners stk gs = 0 -> allocated (core_life s) = true -> repr <$> w = Some (value s));
  cell_pins : pins (core_life s) = 0;
  cell_made : made (core_life s) = false -> created tr = None;
  cell_build t g v b : gs !! t = Some g -> build g = Some (v, b) ->
    owned (stk g) = 1 /\ created tr = Some v /\ history tr = [] /\ (b = true -> value s = repr v);
}.

Definition cell_outline : outline cell_lang := {|
  ghost := cell_ghost;
  inv := cell_inv;
  opens t o g :=
    match o with
    | OpNew v => valid v = true /\ g = CellGhost (Owns None) (Some (v, false))
    | OpAccess x => proper x = true /\ g = CellGhost (Holds 1) None
    | OpShare | OpFinalize => g = CellGhost (Holds 1) None
    end;
  returns o es r :=
    match o, r with
    | OpNew _, RHandle | OpShare, RHandle | OpFinalize, RVoid => es = []
    | OpAccess x, RAnswer a => es = [@Effect cell_lang (x, a)]
    | _, _ => False
    end;
  aborts o es g := match o with OpNew _ => exists a, es = [Failed a] | _ => False end;
  waits o s gs t g := MAX_REFS <= refs (core_life s);
|}.

(** A step that changes the counters and no value. *)
Lemma cell_inv_life tr s gs t g g' c :
  cell_inv tr s gs -> gs !! t = Some g -> counted stk c (<[t := g']> gs) ->
  made c = made (core_life s) -> pins c = pins (core_life s) ->
  (build g' = None \/ build g' = build g /\ owned (stk g') = 1) ->
  (owned (stk g') = 1 \/
   owned (stk g) = 0 /\ (allocated c = true -> allocated (core_life s) = true) \/
   exists v, build g = Some (v, true)) ->
  cell_inv tr (set core_lens c s) (<[t := g']> gs).
Proof.
  intros [Hc (v & Hv & Hval) Hp Hm Hb] Hg Hc' Hmade Hpins Hg2 Hor. split; simpl; [done| |congruence|by rewrite Hmade|].
  - exists v. split; [done|]. rewrite (owners_insert stk gs t g g' Hg). intros Ho Ha.
    destruct Hor as [Ho'|[[Ho' Ha']|[v0 Hb0]]].
    + pose proof (owners_ge stk gs t g Hg). lia.
    + pose proof (owners_nonneg stk gs). assert (0 <= owned (stk g')) by (by destruct (stk g')).
      apply Hval; [lia|auto].
    + destruct (Hb t g v0 true Hg Hb0) as (_ & Hcr & Hh & Hr).
      unfold lives in Hv. rewrite Hcr, Hh in Hv. destruct v as [v|]; [|done].
      destruct Hv as (_ & -> & _). simpl. by rewrite Hr.
  - intros t' g0 v0 b. destruct (decide (t' = t)) as [->|Ht]; simplify_map_eq; [|apply Hb].
    intros [= <-] Hs. destruct Hg2 as [?|[He ?]]; [congruence|]. rewrite He in Hs.
    destruct (Hb t g v0 b Hg Hs) as (? & ? & ? & ?). done.
Qed.

(** A label that is not an access or a construction changes nothing. *)
Lemma cell_inv_label tr s gs l :
  cell_inv tr s gs -> constructs l = false -> accessed l = None -> cell_inv (tr ++ [l]) s gs.
Proof.
  intros [Hc Hv Hp Hm Hb] Hl Hl'.
  split; unfold lives in *; rewrite ?created_other, ?history_other by done; done.
Qed.

Lemma cell_inv_leave tr s gs t g c :
  cell_inv tr s gs -> gs !! t = Some g -> build g = None -> counted stk c (delete t gs) ->
  made c = made (core_life s) -> pins c = pins (core_life s) -> allocated c = allocated (core_life s) ->
  owned (stk g) = 0 \/ allocated c = false ->
  cell_inv tr (set core_lens c s) (delete t gs).
Proof.
  intros [Hc (v & Hv & Hval) Hp Hm Hb] Hg Hbg Hc' Hmade Hpins Hal Hor. split; simpl; [done| |congruence|by rewrite Hmade|].
  - exists v. split; [done|]. rewrite (owners_delete stk gs t g Hg), Hal. intros Ho Ha.
    destruct Hor as [Hor|]; [|congruence]. apply Hval; [lia|done].
  - intros t' g0 v0 b [_ Hg0]%lookup_delete_Some. by apply (Hb t').
Qed.

Lemma cell_holds tr s gs t g n :
  cell_inv tr s gs -> gs !! t = Some g -> stk g = Holds n -> 1 <= n ->
  0 < total stk (core_life s) gs /\ owners stk gs = 0 /\ allocated (core_life s) = true /\
  1 <= refs (core_life s).
Proof.
  intros [Hc _ _ _ _] Hg Hs Hn. pose proof (counted_total_ge stk (core_life s) gs t g Hc Hg) as Ht.
  rewrite Hs in Ht. simpl in Ht.
  pose proof (counted_handles stk _ gs Hc). pose proof (counted_pins stk _ gs Hc).
  destruct (counted_alive stk (core_life s) gs Hc) as (? & ? & ? & _); [lia|]. split_and!; try done; lia.
Qed.

Lemma cell_owns tr s gs t g z :
  cell_inv tr s gs -> gs !! t = Some g -> stk g = Owns z ->
  match z with
  | Some r => allocated (core_life s) = true /\ shared (core_life s) = false /\ refs (core_life s) = r
  | None => allocated (core_life s) = false /\ shared (core_life s) = false
  end.
Proof.
  intros [Hc _ _ _ _] Hg Hs. pose proof (counted_ok stk _ gs Hc t g Hg) as Hok.
  rewrite Hs in Hok. by destruct z.
Qed.

(** *** Each program *)

Local Ltac on_core H :=
  apply keeps_on_core; intros tr s gs Hi Hg; simpl;
  first [ destruct (cell_holds tr s gs _ _ _ Hi Hg eq_refl) as (H & ? & Ha & ?); [done|]
        | destruct (cell_owns tr s gs _ _ _ Hi Hg eq_refl) as (Ha & Hsh & H); rewrite ?Hsh ];
  split; [done|].

Local Ltac to_ghost g := exists g; split; [eapply cell_inv_life; try done|]; simpl; eauto.

Lemma cell_keeps_wrap t o n k :
  0 <= n ->
  keeps cell_code cell_outline t o k [] (CellGhost (Holds n) None) ->
  keeps cell_code cell_outline t o (sync_atomic_wrap k) [] (CellGhost (Holds (n + 1)) None).
Proof.
  intros Hn Hk. apply keeps_on_core. intros tr s gs Hi Hg.
  destruct (cell_holds tr s gs _ _ _ Hi Hg eq_refl) as (Ht & _ & Ha & _); [lia|].
  split; [done|]. exists (CellGhost (Holds n) None). split; [|done].
  eapply cell_inv_life; try done; simpl; eauto.
  eapply counted_handle; try done; eauto using cell_counted.
Qed.

Lemma cell_keeps_share t :
  keeps cell_code cell_outline t OpShare sync_atomic_share [] (CellGhost (Holds 1) None).
Proof.
  on_core Ht. destruct (Z.ltb_spec (refs (core_life s)) 1); [lia|].
  destruct (Z.ltb_spec (refs (core_life s)) MAX_REFS); [|done].
  exists (CellGhost (Holds 2) None). split.
  { eapply cell_inv_life; try done; simpl; eauto.
    eapply counted_inc; try done; eauto using cell_counted. }
  apply (cell_keeps_wrap t OpShare 1); [done|]. split; [done|]. intros tr' s' gs' Hi' Hg'.
  apply cell_inv_label; [|done..]. eapply cell_inv_leave; try done; [|by left].
  eapply counted_give_back; eauto using cell_counted.
Qed.

Lemma cell_keeps_finalize t :
  keeps cell_code cell_outline t OpFinalize sync_atomic_finalize [] (CellGhost (Holds 1) None).
Proof.
  on_core Ht. destruct (Z.ltb_spec (refs (core_life s)) 1); [lia|].
  exists (CellGhost (if refs (core_life s) - 1 =? 0 then Owns (Some 0) else Holds 0) None). split.
  { eapply cell_inv_life; try done; simpl; eauto.
    eapply counted_dec; try done; eauto using cell_counted. }
  destruct (refs (core_life s) - 1 =? 0).
  - clear. on_core Hr. exists (CellGhost (Owns None) None). split.
    { eapply cell_inv_life; try done; simpl; eauto. eapply counted_free; try done; eauto using cell_counted. }
    split; [done|]. intros tr' s' gs' Hi' Hg'. destruct (cell_owns _ _ _ _ _ _ Hi' Hg' eq_refl) as [? _].
    apply cell_inv_label; [|done..].
    replace s' with (set core_lens (core_life s') s') by by destruct s'.
    eapply cell_inv_leave; try done; [|by right].
    eapply counted_return; eauto using cell_counted.
  - split; [done|]. intros tr' s' gs' Hi' Hg'. apply cell_inv_label; [|done..].
    replace s' with (set core_lens (core_life s') s') by by destruct s'.
    eapply cell_inv_leave; try done; [|by left].
    eapply counted_return; eauto using cell_counted.
Qed.

Lemma cell_inv_access tr s gs t x v :
  cell_inv tr s gs -> owners stk gs = 0 -> lives tr (Some v) -> proper x = true ->
  cell_inv (tr ++ [LEv t (@Effect cell_lang (x, (meaning x v).1))])
    (AtomicCore (core_life s) (repr (meaning x v).2)) gs.
Proof.
  intros [Hc _ Hp Hm Hb] Ho Hv Hx.
  split; simpl; rewrite ?created_other by done; [done| |done|done|].
  - exists (Some (meaning x v).2). unfold lives in *. rewrite created_other, history_app by done.
    destruct (created tr) as [v0|]; [|done]. destruct Hv as (? & Hl & ?).
    split; [|done]. split_and!; [done| |by apply meaning_valid]. by apply legal_snoc.
  - intros t' g v0 b Hg Hs. destruct (Hb t' g v0 b Hg Hs) as (Hown & _).
    pose proof (owners_ge stk gs t' g Hg). lia.
Qed.

Lemma cell_keeps_access t x :
  proper x = true ->
  keeps cell_code cell_outline t (OpAccess x) (body cell_code (OpAccess x)) []
    (CellGhost (Holds 1) None).
Proof.
  intros Hx tr s gs a v' Hi Hg. destruct (cell_holds tr s gs _ _ _ Hi Hg eq_refl) as (_ & Ho & Ha & _); [done|].
  rewrite Ha. destruct (cell_lives _ _ _ Hi) as (w & Hv & Hval).
  specialize (Hval Ho Ha). destruct w as [v|]; [|done]. injection Hval as <-.
  assert (valid v = true) as Hvv.
  { unfold lives in Hv. destruct (created tr); [|done]. by destruct Hv as (_ & _ & ?). }
  rewrite perform_meaning by done. exists (CellGhost (Holds 1) None).
  split; [rewrite insert_id by done; by apply cell_inv_access|].
  split; [done|]. clear. intros tr s gs Hi Hg. apply cell_inv_label; [|done..].
  eapply cell_inv_leave; try done; [|by left]. eapply counted_give_back; eauto using cell_counted.
Qed.

Lemma cell_inv_store tr s gs t v z :
  cell_inv tr s gs -> gs !! t = Some (CellGhost (Owns z) (Some (v, false))) -> valid v = true ->
  cell_inv tr (AtomicCore (core_life s) (initial v))
    (<[t := CellGhost (Owns z) (Some (v, true))]> gs).
Proof.
  intros [Hc (v1 & Hv & _) Hp Hm Hb] Hg Hvv.
  destruct (counted_owner stk _ gs t _ _ Hc Hg eq_refl) as (Ho & _).
  assert (owners stk (<[t := CellGhost (Owns z) (Some (v, true))]> gs) = 1) as Ho'.
  { rewrite (owners_insert stk gs t _ _ Hg). simpl. lia. }
  split; simpl; [by eapply counted_same| |done|done|].
  - exists v1. split; [done|]. lia.
  - intros t' g0 v0 b. destruct (decide (t' = t)) as [->|Ht]; simplify_map_eq.
    + intros [= <-] [= <- <-]. destruct (Hb t _ v false Hg eq_refl) as (? & ? & ? & _).
      split_and!; try done. intros _. by apply initial_repr.
    + intros Hg0 Hs. pose proof (counted_others stk gs t _ t' g0 Hg) as Hn. simpl in Hn.
      rewrite Ho in Hn. specialize (Hn eq_refl Ht Hg0). destruct (Hb t' g0 v0 b Hg0 Hs). lia.
Qed.

Lemma cell_inv_zeroed tr s gs t v :
  cell_inv tr s gs -> gs !! t = Some (CellGhost (Owns None) (Some (v, false))) ->
  cell_inv tr (zeroed s) gs.
Proof.
  intros [Hc (w & Hw & _) Hp Hm Hb] Hg.
  destruct (counted_owner stk _ gs t _ _ Hc Hg eq_refl) as (Ho & _).
  split; simpl; [done| |done|done|].
  - exists w. split; [done|]. lia.
  - intros t' g v' b Hg' Hs. destruct (decide (t' = t)) as [->|Ht].
    + rewrite Hg in Hg'. injection Hg' as <-. simpl in Hs. injection Hs as <- <-.
      by destruct (Hb t _ v false Hg eq_refl) as (? & ? & ? & _).
    + pose proof (counted_others stk gs t _ t' g Hg Ho Ht Hg'). destruct (Hb t' g v' b Hg' Hs). lia.
Qed.

Lemma cell_keeps_new t v :
  valid v = true ->
  keeps cell_code cell_outline t (OpNew v) (body cell_code (OpNew v)) []
    (CellGhost (Owns None) (Some (v, false))).
Proof.
  intros Hvv. apply keeps_sync_alloc. intros tr s gs Hi Hg.
  pose proof (cell_owns tr s gs _ _ _ Hi Hg eq_refl) as [Ha _]. split; [done|]. split; last first.
  { intros a. exists (CellGhost (Owns None) (Some (v, false))). split; [|by exists a].
    rewrite insert_id by done. by apply cell_inv_label. }
  exists (CellGhost (Owns (Some 0)) (Some (v, false))). split.
  { eapply (cell_inv_life _ (zeroed s)); [by eapply cell_inv_zeroed|try done..]; simpl; eauto.
    eapply counted_alloc; try done; eauto using cell_counted. }
  clear tr s gs Hi Hg Ha. on_core Hr. exists (CellGhost (Owns (Some 1)) (Some (v, false))). split.
  { eapply cell_inv_life; try done; simpl; eauto. eapply counted_store; try done; eauto using cell_counted. }
  clear tr s gs Hi Hg Ha Hsh Hr. intros tr s gs a v' Hi Hg.
  destruct (cell_owns tr s gs _ _ _ Hi Hg eq_refl) as (Ha & Hsh & _). unfold private. rewrite Ha, Hsh.
  exists (CellGhost (Owns (Some 1)) (Some (v, true))). split.
  { simpl. rewrite app_nil_r. by eapply cell_inv_store. }
  clear tr s gs a v' Hi Hg Ha Hsh. on_core Hr. exists (CellGhost (Holds 0) None). split.
  { eapply cell_inv_life; try done; simpl; eauto. eapply counted_publish; try done; eauto using cell_counted. }
  split; [done|]. intros tr' s' gs' Hi' Hg'. apply cell_inv_label; [|done..].
  replace (leave _ _ _ _ s') with (set core_lens (core_life s') s') by by destruct s'.
  eapply cell_inv_leave; try done; [|by left]. eapply counted_return; eauto using cell_counted.
Qed.

Lemma cell_inv_call tr s gs t o g c :
  cell_inv tr s gs -> gs !! t = None -> build g = None -> owned (stk g) = 0 ->
  counted stk c (<[t := g]> gs) -> made c = made (core_life s) ->
  pins c = pins (core_life s) -> allocated c = allocated (core_life s) -> constructs (@LInv cell_lang t o) = false ->
  cell_inv (tr ++ [LInv t o]) (set core_lens c s) (<[t := g]> gs).
Proof.
  intros [Hc (v & Hv & Hval) Hp Hm Hb] Hg Hbg Hog Hc' Hmade Hpins Hal Ho. apply cell_inv_label; [|done..].
  split; simpl; [done| |congruence|by rewrite Hmade|].
  - exists v. split; [done|]. rewrite (owners_new stk gs t g Hg), Hal, Hog, Z.add_0_r. done.
  - intros t' g0 v0 b. destruct (decide (t' = t)) as [->|Ht]; simplify_map_eq; [|apply Hb].
    intros [= <-] ?. congruence.
Qed.

Lemma cell_inv_create tr s gs t v c :
  cell_inv tr s gs -> gs !! t = None -> valid v = true -> create (core_life s) = Some c ->
  cell_inv (tr ++ [@LInv cell_lang t (OpNew v)]) (set core_lens c s)
    (<[t := CellGhost (Owns None) (Some (v, false))]> gs).
Proof.
  intros [Hc (v1 & Hv & _) Hp Hm Hb] Hg Hvv Hcr.
  assert (created tr = None) as Hn.
  { apply Hm. unfold create in Hcr. by destruct (made (core_life s)). }
  assert (history tr = []) as Hh.
  { unfold lives in Hv. rewrite Hn in Hv. by destruct v1. }
  assert (created (tr ++ [@LInv cell_lang t (OpNew v)]) = Some v) as Hn' by (by rewrite created_app, Hn).
  assert (made c = true) as Hmc.
  { unfold create in Hcr. destruct (made (core_life s)); [done|]. by injection Hcr as <-. }
  split; simpl.
  - by eapply counted_create.
  - exists (Some v). split.
    + unfold lives. by rewrite Hn', history_other, Hh.
    + rewrite (owners_new stk gs t _ Hg). simpl. pose proof (owners_nonneg stk gs). lia.
  - unfold create in Hcr. destruct (made (core_life s)); [done|]. by injection Hcr as <-.
  - congruence.
  - intros t' g0 v0 b. destruct (decide (t' = t)) as [->|Ht]; simplify_map_eq.
    + intros [= <-] [= <- <-]. by rewrite history_other.
    + intros Hg0 Hs. destruct (Hb t' g0 v0 b Hg0 Hs) as (_ & ? & _). congruence.
Qed.

Lemma cell_inv_take tr s gs t o c :
  cell_inv tr s gs -> gs !! t = None -> take (core_life s) = Some c ->
  constructs (@LInv cell_lang t o) = false ->
  cell_inv (tr ++ [LInv t o]) (set core_lens c s) (<[t := CellGhost (Holds 1) None]> gs).
Proof.
  intros Hi Hg Hc Ho. destruct (take_same _ _ Hc) as (? & ? & ? & _).
  apply cell_inv_call; try done. eapply counted_take; eauto using cell_counted.
Qed.

Lemma cell_kept : kept cell_code cell_outline no_cell.
Proof.
  split.
  - split; simpl; [apply counted_unborn|by exists None|done|done|by intros ???? []%lookup_empty_Some].
  - intros t [v| |x|] g; simpl.
    + intros [? ->]. by apply cell_keeps_new.
    + intros ->. apply cell_keeps_share.
    + intros [? ->]. by apply cell_keeps_access.
    + intros ->. apply cell_keeps_finalize.
  - intros tr s gs t o s' Hi Hg. destruct o as [v| |x|]; simpl; unfold mbind, option_bind.
    + destruct (valid v) eqn:Hv; [|done]. destruct (create _) as [c|] eqn:Hc; [|done]. intros [= <-].
      exists (CellGhost (Owns None) (Some (v, false))). split; [|done]. by apply cell_inv_create.
    + destruct (take _) as [c|] eqn:Hc; [|done]. intros [= <-].
      exists (CellGhost (Holds 1) None). split; [|done]. by apply cell_inv_take.
    + destruct (proper x) eqn:Hx; [|done]. destruct (take _) as [c|] eqn:Hc; [|done]. intros [= <-].
      exists (CellGhost (Holds 1) None). split; [|done]. by apply cell_inv_take.
    + destruct (take _) as [c|] eqn:Hc; [|done]. intros [= <-].
      exists (CellGhost (Holds 1) None). split; [|done]. by apply cell_inv_take.
Qed.

(** *** Consequences *)

Abbreviation cells := (reachable cell_code no_cell).

Lemma cell_answers c tr tr1 t x r tr2 :
  cells c tr -> tr = tr1 ++ @LRes cell_lang t (OpAccess x) r :: tr2 ->
  exists a, r = RAnswer a /\ events tr1 t = [@Effect cell_lang (x, a)].
Proof.
  intros Hr Ht. pose proof (kept_returns _ _ cell_kept c tr tr1 t _ r tr2 Hr Ht) as He.
  simpl in He. destruct r as [|a|]; [done| |done]. by exists a.
Qed.

(** While a handle exists, the cell is what its accesses left. *)
Lemma cell_value c tr v0 :
  cells c tr -> created tr = Some v0 ->
  exists v, legal v0 (history tr) v /\ valid v = true /\
    (0 < handles (core_life (state c)) -> value (state c) = repr v).
Proof.
  intros Hr Hcr. destruct (kept_inv _ _ cell_kept c tr Hr) as (gs & [Hc (w & Hw & Hv) _ _ _] & _).
  unfold lives in Hw. rewrite Hcr in Hw. destruct w as [v|]; [|done]. destruct Hw as (_ & Hl & Hvv).
  exists v. split_and!; [done..|]. intros Hh. pose proof (counted_pins stk _ gs Hc).
  pose proof (counted_total_base stk _ gs Hc).
  destruct (counted_alive stk _ gs Hc) as (Ho & Ha & _); [lia|].
  specialize (Hv Ho Ha). by injection Hv as ->.
Qed.

Lemma cell_resources c tr :
  cells c tr ->
  (0 < handles (core_life (state c)) -> allocated (core_life (state c)) = true) /\
  (frames c = ∅ -> 0 < handles (core_life (state c)) ->
     refs (core_life (state c)) = handles (core_life (state c))) /\
  (frames c = ∅ -> handles (core_life (state c)) = 0 -> allocated (core_life (state c)) = false).
Proof.
  intros Hr. destruct (kept_inv _ _ cell_kept c tr Hr) as (gs & [Hc _ Hp _ _] & Hf).
  assert (frames c = ∅ -> gs = ∅) as Hempty.
  { intros He. apply map_empty. intros t. apply Hf. by rewrite He. }
  pose proof (counted_total_base stk _ gs Hc). split_and!.
  - intros Hh. by destruct (counted_alive stk _ gs Hc) as (_ & ? & _); [lia|].
  - intros He%Hempty Hh. destruct (counted_alive stk _ gs Hc) as (_ & _ & -> & _); [lia|].
    rewrite He. unfold total. rewrite msum_empty. lia.
  - intros He%Hempty Hh. rewrite He in Hc. by apply (counted_end stk).
Qed.
End cell.

(** ** Properties *)

Abbreviation counter := (cell_lang (A := Int32)).

(** Accesses that only read and add, and what they add. *)
Definition counting (e : access Int32 * (SyncError + answer Int32)) : bool :=
  match e.1 with Load _ | FetchAdd _ _ => true | _ => false end.
Definition added (e : access Int32 * (SyncError + answer Int32)) : Z :=
  match e.1 with FetchAdd delta _ => int32 delta | _ => 0 end.

Lemma legal_counting v h v' :
  legal v h v' -> forallb counting h = true -> valid v = true ->
  int32 v' = to_i32 (int32 v + lsum added h).
Proof.
  revert v. induction h as [|[x r] h IH]; intros v; cbn [legal forallb].
  { intros -> _ Hv%Int32_valid. change (lsum added []) with 0. by rewrite Z.add_0_r, to_i32_id. }
  intros [_ Hl] [Hx Hh]%andb_true_iff Hv. rewrite lsum_cons.
  destruct x as [o| | | |d o]; try done; cbn in Hl |- *.
  - rewrite (IH v) by (done || by case_match). done.
  - rewrite (IH _ Hl Hh) by (apply (proj2 (Int32_valid (MkInt32 _))), to_i32_range). simpl.
    by rewrite to_i32_add_l, Z.add_assoc.
Qed.

(** C23: an atomic cell is linearizable, for booleans, [Int32] and [UInt32] and any
    number of threads and handles: each access takes effect once, between the
    call and the return of its operation, and returns what it was answered then;
    the accesses in their order are those of one variable, and the cell holds its
    value as long as there is a handle. *)
Theorem atomic_cell_linearizable A `{AtomicContract A} (c : config cell_lang) tr :
  reachable cell_code no_cell c tr ->
  (forall tr1 t x r tr2, tr = tr1 ++ @LRes cell_lang t (OpAccess x) r :: tr2 ->
    exists a, r = RAnswer a /\ events tr1 t = [@Effect cell_lang (x, a)]) /\
  (forall v0, created tr = Some v0 ->
    exists v, legal v0 (history tr) v /\ valid v = true /\
      (0 < handles (core_life (state c)) -> value (state c) = repr v)).
Proof.
  intros Hr. split.
  - intros tr1 t x r tr2. by apply cell_answers with (c := c).
  - intros v0. by apply cell_value.
Qed.

(** C33: an atomic [Int32] counts: whatever the order in which threads add to it,
    and for every memory order, it ends with its first value plus everything
    added, modulo 2^32. *)
Theorem atomic_cell_counts (c : config counter) tr v0 :
  reachable cell_code no_cell c tr -> created tr = Some v0 ->
  forallb counting (history tr) = true -> 0 < handles (core_life (state c)) ->
  value (state c) = to_i32 (int32 v0 + lsum added (history tr)).
Proof.
  intros Hr Hcr Hh Hn. destruct (cell_value c tr v0 Hr Hcr) as (v & Hl & _ & Hv).
  rewrite (Hv Hn). simpl. apply legal_counting; [done..|].
  destruct (kept_inv _ _ cell_kept c tr Hr) as (gs & [_ (w & Hw & _) _ _ _] & _).
  unfold lives in Hw. rewrite Hcr in Hw. by destruct w, Hw.
Qed.

(** A cell is freed exactly once, when its last handle is gone: no schedule
    reaches undefined behaviour (a use after free, a double free, a memory order
    the builtins do not accept); the cell is allocated while there is a handle,
    and counts the handles when no operation runs; it is free when there are no
    handles and operations; and an operation is refused a step only at the bound
    of the counter, and aborts only when calloc has failed. *)
Theorem atomic_cell_lifetime A `{AtomicContract A} :
  (forall xs, run cell_code xs (Config no_cell ∅, []) <> Fault) /\
  forall (c : config cell_lang) tr, reachable cell_code no_cell c tr ->
    ((0 < handles (core_life (state c)) -> allocated (core_life (state c)) = true) /\
     (frames c = ∅ -> 0 < handles (core_life (state c)) ->
        refs (core_life (state c)) = handles (core_life (state c))) /\
     (frames c = ∅ -> handles (core_life (state c)) = 0 -> allocated (core_life (state c)) = false)) /\
    (forall t o B (f : action cell_lang B) k a v, frames c !! t = Some (o, Act f k) ->
       f t a v (state c) = Blocked -> MAX_REFS <= refs (core_life (state c))) /\
    (forall t o, frames c !! t = Some (o, Abort) -> exists a, events tr t = [Failed a]).
Proof.
  split; [apply (kept_safe _ _ cell_kept)|]. intros c tr Hr. split_and!.
  - by apply cell_resources with tr.
  - by apply cell_resources with tr.
  - by apply cell_resources with tr.
  - intros t o B f k a v Hf Hb.
    by destruct (kept_waits _ _ cell_kept c tr t o B f k a v Hr Hf Hb) as (gs & g & _ & _ & ?).
  - intros t o Hf. destruct (kept_aborts _ _ cell_kept c tr t o Hr Hf) as (gs & g & _ & _ & Ha).
    simpl in Ha. by destruct o.
Qed.

(** ** Witnesses *)

Definition add (n : Z) : lO counter := OpAccess (FetchAdd (MkInt32 n) Relaxed).

(** A counter starts at its maximum; two threads share it and race. *)
Definition racing : list (choice counter) :=
  [CInvoke 0 (OpNew (MkInt32 INT32_MAX) : lO counter)] ++ steps 0 5 ++
  [CInvoke 0 (OpShare : lO counter)] ++ steps 0 3 ++
  [CInvoke 0 (add 1); CInvoke 1 (add 5)] ++ steps 1 1 ++ steps 0 2.

Lemma atomic_cell_linearizable_witness :
  exists (c : config counter) tr,
    history tr = [(FetchAdd (MkInt32 5) Relaxed, inr (Value (MkInt32 INT32_MAX)));
                  (FetchAdd (MkInt32 1) Relaxed, inr (Value (MkInt32 (-2147483644))))] /\
    exists v, legal (MkInt32 INT32_MAX) (history tr) v /\ valid v = true /\
      (0 < handles (core_life (state c)) -> value (state c) = repr v).
Proof.
  exists (after cell_code no_cell racing).1, (after cell_code no_cell racing).2.
  split; [vm_compute; reflexivity|].
  apply (atomic_cell_linearizable Int32); [played|vm_compute; reflexivity].
Defined.

Lemma atomic_cell_counts_witness :
  exists c : config counter, value (state c) = -2147483643.
Proof.
  exists (after cell_code no_cell racing).1.
  refine (eq_trans (atomic_cell_counts _ (after cell_code no_cell racing).2 (MkInt32 INT32_MAX) _ _ _ _) _).
  - played.
  - vm_compute. reflexivity.
  - vm_compute. reflexivity.
  - vm_compute. reflexivity.
  - vm_compute. reflexivity.
Defined.

(** Both handles are finalized. *)
Definition finalized : list (choice counter) :=
  racing ++ steps 1 1 ++ [CInvoke 0 (OpFinalize : lO counter)] ++ steps 0 2 ++
  [CInvoke 1 (OpFinalize : lO counter)] ++ steps 1 3.

Lemma atomic_cell_lifetime_witness :
  exists c : config counter, frames c = ∅ /\ handles (core_life (state c)) = 0 /\
    allocated (core_life (state c)) = false.
Proof.
  exists (after cell_code no_cell finalized).1.
  split; [vm_compute; reflexivity|]. split; [vm_compute; reflexivity|].
  destruct (proj2 (atomic_cell_lifetime Int32) _ (after cell_code no_cell finalized).2
    ltac:(played)) as ((_ & _ & Hfree) & _).
  apply Hfree; vm_compute; reflexivity.
Defined.
