(* ===== verification/RwLock.v ===== *)
(** RwLock: src/unsafe/rwlock/native.c, and the discipline of the callbacks
    [with_read] and [with_write] of rwlock.mbt. *)
From stdpp Require Import base gmap list.
From Stdlib Require Import ZArith Lia.
From S2P Require Import Prelude Interleave Platform Arc.

(** ** State *)

(** A thread that has the lock, and whether for writing. *)
Definition holder : Type := tid * bool.

(** [sync_rwlock_core_t], the static test hooks, and the callbacks in progress.
    The OS lock exists while [ready]; it is held by [held], and by [stuck] where
    an unlock failed, which leaves it locked. *)
Record rwlock_state := RwState {
  rw_life : life;
  ready : bool;
  held : list holder;
  stuck : list holder;
  initialized : Z;
  next_init_error : Z;
  next_lock_error : Z;
  next_unlock_error : Z;
  callbacks : list holder;
}.

Inductive rwlock_op : Set :=
| OpNew | OpShare | OpFinalize
| OpReadLock | OpReadUnlock | OpWriteLock | OpWriteUnlock
| OpFailNextInit (st : Z) | OpFailNextLock (st : Z) | OpFailNextUnlock (st : Z).

#[export] Instance rwlock_op_eq : EqDecision rwlock_op.
Proof. solve_decision. Defined.

(** The status of [new] and whether it returns a handle, the status of locking
    and unlocking. *)
Inductive rwlock_result := RNew (st : Z) (handle : bool) | RHandle | RStatus (st : Z) | RVoid.

Definition rwlock : lang := Lang rwlock_state rwlock_op rwlock_result Empty_set.

Definition rw_lens : lens (lS rwlock) life :=
  Lens (fun s => rw_life s)
    (fun c s => RwState c (ready s) (held s) (stuck s) (initialized s) (next_init_error s)
                  (next_lock_error s) (next_unlock_error s) (callbacks s)).

(** ** The OS lock *)

Section os.
Context {P : platform}.

(** A step on the OS lock, which must be there, in an allocated core. *)
Definition with_lock {A} (f : tid -> Z -> rwlock_state -> outcome (A * rwlock_state * list (event rwlock)))
    (k : A -> prog rwlock) : prog rwlock :=
  os_call (L := rwlock) (fun t a _ s => if allocated (rw_life s) && ready s then f t a s else Fault) k.

Definition with_os (b : bool) (l st : list holder) (s : rwlock_state) : rwlock_state :=
  RwState (rw_life s) b l st (initialized s) (next_init_error s)
    (next_lock_error s) (next_unlock_error s) (callbacks s).

(** [pthread_rwlock_init] and [InitializeSRWLock] *)
Definition sync_os_rwlock_init (k : Z -> prog rwlock) : prog rwlock :=
  os_call (L := rwlock) (fun _ a _ s =>
    if private (rw_life s) && negb (ready s)
    then Go (a, if a =? 0 then with_os true [] [] s else s, fails a) else Fault) k.

(** [pthread_rwlock_destroy] (an SRW lock needs no destruction): undefined while a
    thread has the lock, or can still reach it. *)
Definition sync_os_rwlock_destroy (k : Z -> prog rwlock) : prog rwlock :=
  os_call (L := rwlock) (fun _ a _ s =>
    if private (rw_life s) && ready s && bool_decide (held s = [])
    then Go (a, if a =? 0 then with_os false [] (stuck s) s else s, fails a) else Fault) k.

(** Whether a thread may lock now. *)
Definition available (write : bool) (s : rwlock_state) : bool :=
  if write then bool_decide (held s ++ stuck s = [])
  else forallb (fun x => negb x.2) (held s ++ stuck s).

(** [pthread_rwlock_rdlock] and [pthread_rwlock_wrlock], [AcquireSRWLockShared] and
    [AcquireSRWLockExclusive] *)
Definition os_lock (write : bool) (k : Z -> prog rwlock) : prog rwlock :=
  with_lock (fun t a s =>
    if negb (a =? 0) then Go (a, s, [Failed a])
    else if available write s then Go (a, with_os true ((t, write) :: held s) (stuck s) s, [])
    else Blocked) k.

Definition sync_os_rwlock_read_lock := os_lock false.
Definition sync_os_rwlock_write_lock := os_lock true.

(** [pthread_rwlock_unlock], which ends either mode, [ReleaseSRWLockShared] and
    [ReleaseSRWLockExclusive], which end only their own: undefined for a thread
    that does not have the lock, on Windows in that mode. *)
Definition os_unlock (write : bool) (k : Z -> prog rwlock) : prog rwlock :=
  with_lock (fun t a s =>
    match list_find (fun x => x.1 = t) (held s) with
    | Some (i, x) =>
        if windows P && xorb x.2 write then Fault else
        Go (a, with_os true (delete i (held s)) (if a =? 0 then stuck s else x :: stuck s) s, fails a)
    | None => Fault
    end) k.

Definition sync_os_rwlock_read_unlock := os_unlock false.
Definition sync_os_rwlock_write_unlock := os_unlock true.

(** ** Test hooks *)

Inductive hook := InitError | LockError | UnlockError.

Definition hook_get (h : hook) (s : rwlock_state) : Z :=
  match h with
  | InitError => next_init_error s
  | LockError => next_lock_error s
  | UnlockError => next_unlock_error s
  end.

Definition hook_set (h : hook) (st : Z) (s : rwlock_state) : rwlock_state :=
  RwState (rw_life s) (ready s) (held s) (stuck s) (initialized s)
    (match h with InitError => st | _ => next_init_error s end)
    (match h with LockError => st | _ => next_lock_error s end)
    (match h with UnlockError => st | _ => next_unlock_error s end) (callbacks s).

(** [sync_test_atomic_take]; an injected status counts as a failing call. *)
Definition sync_rwlock_take_test_error (h : hook) (k : Z -> prog rwlock) : prog rwlock :=
  Act (fun _ _ _ s => Go (hook_get h s, hook_set h 0 s, fails (hook_get h s))) k.

(** [sync_test_atomic_store] *)
Definition test_fail_next (h : hook) (st : Z) : prog rwlock :=
  Act (fun _ _ _ s => Go (tt, hook_set h st s, [])) (fun _ => Ret RVoid).

(** ** The functions of native.c *)

Definition sync_rwlock_abort_if_failed (st : Z) (k : prog rwlock) : prog rwlock :=
  if st =? 0 then k else Abort.

(** [core->initialized] *)
Definition read_initialized (k : Z -> prog rwlock) : prog rwlock :=
  Act (fun _ _ _ s => if private (rw_life s) then Go (initialized s, s, []) else Fault) k.

Definition write_initialized (z : Z) (k : prog rwlock) : prog rwlock :=
  Act (fun _ _ _ s =>
    if private (rw_life s)
    then Go (tt, RwState (rw_life s) (ready s) (held s) (stuck s) z (next_init_error s)
                   (next_lock_error s) (next_unlock_error s) (callbacks s), [])
    else Fault) (fun _ => k).

Definition sync_rwlock_finalize : prog rwlock := (
  n <- sync_arc_dec rw_lens;;
  if n =? 0 then (
    z <- read_initialized;;
    if negb (z =? 0) then (
      st <- sync_os_rwlock_destroy;;
      sync_rwlock_abort_if_failed st;;
      free rw_lens;;
      Ret RVoid)
    else (free rw_lens;; Ret RVoid))
  else Ret RVoid)%iprog.

Definition sync_rwlock_wrap (k : prog rwlock) : prog rwlock := make_handle rw_lens k.

Definition zeroed (s : rwlock_state) : rwlock_state :=
  RwState (rw_life s) (ready s) (held s) (stuck s) 0 (next_init_error s)
    (next_lock_error s) (next_unlock_error s) (callbacks s).

Definition sync_rwlock_new : prog rwlock := (
  sync_alloc rw_lens zeroed;;
  refs_store rw_lens 1;;
  st <- sync_os_rwlock_init;;
  if negb (st =? 0) then (free rw_lens;; Ret (RNew st false)) else (
  injected <- sync_rwlock_take_test_error InitError;;
  if negb (injected =? 0) then (
    st <- sync_os_rwlock_destroy;;
    sync_rwlock_abort_if_failed st;;
    free rw_lens;;
    Ret (RNew injected false))
  else (
  write_initialized 1;;
  sync_rwlock_wrap;;
  Ret (RNew st true))))%iprog.

Definition sync_rwlock_share : prog rwlock := (
  sync_arc_inc rw_lens;;
  sync_rwlock_wrap;;
  Ret RHandle)%iprog.

Definition sync_rwlock_read_lock : prog rwlock := (
  injected <- sync_rwlock_take_test_error LockError;;
  if negb (injected =? 0) then Ret (RStatus injected) else (
  st <- sync_os_rwlock_read_lock;;
  Ret (RStatus st)))%iprog.

Definition sync_rwlock_read_unlock : prog rwlock := (
  st <- sync_os_rwlock_read_unlock;;
  if negb (st =? 0) then Ret (RStatus st) else (
  st <- sync_rwlock_take_test_error UnlockError;;
  Ret (RStatus st)))%iprog.

Definition sync_rwlock_write_lock : prog rwlock := (
  injected <- sync_rwlock_take_test_error LockError;;
  if negb (injected =? 0) then Ret (RStatus injected) else (
  st <- sync_os_rwlock_write_lock;;
  Ret (RStatus st)))%iprog.

Definition sync_rwlock_write_unlock : prog rwlock := (
  st <- sync_os_rwlock_write_unlock;;
  if negb (st =? 0) then Ret (RStatus st) else (
  st <- sync_rwlock_take_test_error UnlockError;;
  Ret (RStatus st)))%iprog.

(** ** The clients: [with_read] and [with_write] of rwlock.mbt *)

Definition with_callbacks (l : list holder) (s : rwlock_state) : rwlock_state :=
  RwState (rw_life s) (ready s) (held s) (stuck s) (initialized s) (next_init_error s)
    (next_lock_error s) (next_unlock_error s) l.

Definition on_life (f : life -> option life) (s : rwlock_state) : option rwlock_state :=
  c ← f (rw_life s); Some (set rw_lens c s).

(** The call that ends the innermost callback of a thread. *)
Definition ends (t : tid) (write : bool) (s : rwlock_state) : option rwlock_state :=
  match list_find (fun x => x.1 = t) (callbacks s) with
  | Some (i, x) =>
      if bool_decide (x.2 = write)
      then on_life unpin (with_callbacks (delete i (callbacks s)) s) else None
  | None => None
  end.

(** The callback runs, on the handle, if the lock was taken. *)
Definition begins (t : tid) (write : bool) (r : rwlock_result) (s : rwlock_state) : rwlock_state :=
  match r with
  | RStatus 0 => set rw_lens (pin (rw_life s)) (with_callbacks ((t, write) :: callbacks s) s)
  | _ => set rw_lens (give_back (rw_life s)) s
  end.

Definition rwlock_code : code rwlock := {|
  body o :=
    match o : lO rwlock with
    | OpNew => sync_rwlock_new
    | OpShare => sync_rwlock_share
    | OpFinalize => sync_rwlock_finalize
    | OpReadLock => sync_rwlock_read_lock
    | OpReadUnlock => sync_rwlock_read_unlock
    | OpWriteLock => sync_rwlock_write_lock
    | OpWriteUnlock => sync_rwlock_write_unlock
    | OpFailNextInit st => test_fail_next InitError st
    | OpFailNextLock st => test_fail_next LockError st
    | OpFailNextUnlock st => test_fail_next UnlockError st
    end;
  enter t o s :=
    match o : lO rwlock with
    | OpNew => on_life create s
    | OpShare | OpFinalize | OpReadLock | OpWriteLock => on_life take s
    | OpReadUnlock => ends t false s
    | OpWriteUnlock => ends t true s
    | OpFailNextInit _ | OpFailNextLock _ | OpFailNextUnlock _ => Some s
    end;
  leave t o r s :=
    match o : lO rwlock with
    | OpReadLock => begins t false r s
    | OpWriteLock => begins t true r s
    | OpShare | OpReadUnlock | OpWriteUnlock => set rw_lens (give_back (rw_life s)) s
    | _ => s
    end;
|}.

End os.

(** No lock yet, with the test hooks set to anything. *)
Definition no_lock (e1 e2 e3 : Z) : lS rwlock := RwState unborn false [] [] 0 e1 e2 e3 [].

(** ** The proof outline *)

(** What a running call has: its stake in the core, the lock (between the OS call
    and the callback), and as the owner of the core, what it knows of it. *)
Record rw_ghost := RwGhost {
  stk : stake;
  claim : list holder;
  view : bool * Z;
}.

Definition fine (alloc : bool) (x : bool * Z) : Prop := x.1 = alloc /\ (alloc = true -> x.2 = 1).

(** Several readers or one writer. *)
Definition exclusive (l : list holder) : Prop :=
  (forall x, x ∈ l -> x.2 = false) \/ exists x, l = [x].

Record rw_inv (s : lS rwlock) (gs : gmap tid rw_ghost) : Prop := {
  rw_counted : counted stk (rw_life s) gs;
  rw_known : known stk view fine (rw_life s) (ready s, initialized s) gs;
  rw_held x : cnt x (held s) = cnt x (callbacks s) + msum (fun g => cnt x (claim g)) gs;
  rw_pins : pins (rw_life s) = Z.of_nat (length (callbacks s));
  rw_claim t g x : gs !! t = Some g -> x ∈ claim g -> x.1 = t /\ 1 <= weight (stk g);
  rw_exclusive : exclusive (held s ++ stuck s);
}.

Definition rw_outline : outline rwlock := {|
  ghost := rw_ghost;
  inv tr s gs := rw_inv (s : lS rwlock) gs;
  opens t o g :=
    if bool_decide (o = OpNew :> lO rwlock)
    then exists z, g = RwGhost (Owns None) [] (false, z)
    else
    g = match o : lO rwlock with
        | OpShare | OpFinalize => RwGhost (Holds 1) [] (false, 0)
        | OpReadLock => RwGhost (Holds 1) [] (false, 0)
        | OpWriteLock => RwGhost (Holds 1) [] (false, 0)
        | OpReadUnlock => RwGhost (Holds 1) [(t, false)] (false, 0)
        | OpWriteUnlock => RwGhost (Holds 1) [(t, true)] (false, 0)
        | _ => RwGhost (Holds 0) [] (false, 0)
        end;
  returns o es r :=
    match o : lO rwlock, r : lR rwlock with
    | OpNew, RNew st h => reports es st /\ h = (st =? 0)
    | (OpReadLock | OpReadUnlock | OpWriteLock | OpWriteUnlock), RStatus st => reports es st
    | OpShare, RHandle | OpFinalize, RVoid => es = []
    | (OpFailNextInit _ | OpFailNextLock _ | OpFailNextUnlock _), RVoid => es = []
    | _, _ => False
    end;
  aborts o es g := (o = OpNew \/ o = OpFinalize) /\ es <> [];
  waits o s gs t g :=
    match o : lO rwlock with
    | OpReadLock => available false s = false
    | OpWriteLock => available true s = false
    | _ => MAX_REFS <= refs (rw_life s)
    end;
|}.

Lemma exclusive_perm l l' : l ≡ₚ l' -> exclusive l -> exclusive l'.
Proof.
  intros Hl [H|[x ->]].
  - left. intros x. rewrite <- Hl. apply H.
  - right. exists x. by apply Permutation_singleton_l in Hl.
Qed.

#[export] Instance exclusive_proper : Proper ((≡ₚ) ==> iff) exclusive.
Proof. intros l l' Hl. split; apply exclusive_perm; [done|by symmetry]. Qed.

Lemma exclusive_delete l l' i x : l !! i = Some x -> exclusive (l ++ l') -> exclusive (delete i l ++ l').
Proof.
  intros Hx H. apply delete_Permutation in Hx. rewrite Hx in H. destruct H as [H|[y H]].
  - left. intros y Hy. apply H. by right.
  - simpl in H. injection H as -> H. rewrite H. left. by intros z ?%not_elem_of_nil.
Qed.

Lemma exclusive_same l x y : exclusive l -> x ∈ l -> y ∈ l -> x.1 = y.1 -> x = y.
Proof.
  intros [H|[z ->]] Hx Hy Hxy.
  - destruct x, y. apply H in Hx, Hy. simpl in *. congruence.
  - apply list_elem_of_singleton in Hx, Hy. congruence.
Qed.

Lemma unavailable_read s :
  available false s = false -> exists x, x ∈ held s ++ stuck s /\ x.2 = true.
Proof.
  simpl. induction (held s ++ stuck s) as [|[t []] l IH]; simpl; [done| |].
  - intros _. exists (t, true). split; [by constructor|done].
  - intros (x & ? & ?)%IH. exists x. split; [by constructor|done].
Qed.

Lemma exclusive_lock t w s :
  available w s = true -> exclusive (held s ++ stuck s) -> exclusive (((t, w) :: held s) ++ stuck s).
Proof.
  unfold available. destruct w.
  - intros H%bool_decide_eq_true. intros _. right. exists (t, true). simpl. f_equal. exact H.
  - intros H _. left. intros x Hx. simpl in Hx. apply elem_of_cons in Hx as [->|Hx]; [done|].
    rewrite forallb_forall in H. apply list_elem_of_In, H in Hx. by destruct x as [? []].
Qed.

(** *** How steps keep the invariant *)

Section steps.
Implicit Types (s : lS rwlock) (gs : gmap tid rw_ghost) (c : life).

Lemma rw_step s s' gs t g g' :
  rw_inv s gs -> gs !! t = Some g ->
  counted stk (rw_life s') (<[t := g']> gs) ->
  known stk view fine (rw_life s') (ready s', initialized s') (<[t := g']> gs) ->
  (forall x, cnt x (held s') = cnt x (held s) - cnt x (claim g) + cnt x (claim g')) ->
  callbacks s' = callbacks s -> pins (rw_life s') = pins (rw_life s) ->
  (forall x, x ∈ claim g' -> x.1 = t /\ 1 <= weight (stk g')) ->
  exclusive (held s' ++ stuck s') ->
  rw_inv s' (<[t := g']> gs).
Proof.
  intros [Hc Hk Hh Hp Hcl He] Hg Hc' Hk' Hh' Hcb Hp' Hcl' He'. split; [done|done| |congruence| |done].
  - intros x. rewrite Hh', Hh, Hcb, (msum_insert _ gs t g g' Hg). lia.
  - intros t' g0 x. destruct (decide (t' = t)) as [->|]; simplify_map_eq; [|by apply Hcl].
    intros [= <-]. apply Hcl'.
Qed.

(** A step on the core alone. *)
Lemma rw_step_core s gs t g g' c :
  rw_inv s gs -> gs !! t = Some g ->
  counted stk c (<[t := g']> gs) -> known stk view fine c (ready s, initialized s) (<[t := g']> gs) ->
  pins c = pins (rw_life s) -> claim g' = [] -> claim g = [] ->
  rw_inv (set rw_lens c s) (<[t := g']> gs).
Proof.
  intros Hi Hg Hc Hk Hp Hcl' Hcl. apply rw_step with s g; try done; simpl; rewrite ?Hcl, ?Hcl'.
  - intros x. lia.
  - by intros x ?%not_elem_of_nil.
  - apply Hi.
Qed.

(** A step that does not concern the core, such as one on a test hook. *)
Lemma rw_same s s' gs t g :
  rw_inv s gs -> gs !! t = Some g ->
  rw_life s' = rw_life s -> ready s' = ready s -> initialized s' = initialized s ->
  held s' = held s -> stuck s' = stuck s -> callbacks s' = callbacks s ->
  rw_inv s' (<[t := g]> gs).
Proof.
  intros Hi Hg Hl Hr Hin Hh Hst Hcb. rewrite insert_id by done. destruct Hi.
  split; rewrite ?Hl, ?Hr, ?Hin, ?Hh, ?Hst, ?Hcb; done.
Qed.

Lemma rw_call s s' gs t g :
  rw_inv s gs -> gs !! t = None ->
  counted stk (rw_life s') (<[t := g]> gs) ->
  known stk view fine (rw_life s') (ready s', initialized s') (<[t := g]> gs) ->
  held s' = held s -> stuck s' = stuck s ->
  (forall x, cnt x (callbacks s) = cnt x (callbacks s') + cnt x (claim g)) ->
  pins (rw_life s') = Z.of_nat (length (callbacks s')) ->
  (forall x, x ∈ claim g -> x.1 = t /\ 1 <= weight (stk g)) ->
  rw_inv s' (<[t := g]> gs).
Proof.
  intros [Hc Hk Hh Hp Hcl He] Hg Hc' Hk' Hh' Hst Hcb Hp' Hcl'. split; [done|done| |done| |].
  - intros x. rewrite Hh', Hh, Hcb, (msum_new _ gs t g Hg). lia.
  - intros t' g0 x. destruct (decide (t' = t)) as [->|]; simplify_map_eq; [|by apply Hcl].
    intros [= <-]. apply Hcl'.
  - by rewrite Hh', Hst.
Qed.

Lemma rw_return s s' gs t g :
  rw_inv s gs -> gs !! t = Some g ->
  counted stk (rw_life s') (delete t gs) ->
  known stk view fine (rw_life s') (ready s', initialized s') (delete t gs) ->
  held s' = held s -> stuck s' = stuck s ->
  (forall x, cnt x (callbacks s') = cnt x (callbacks s) + cnt x (claim g)) ->
  pins (rw_life s') = Z.of_nat (length (callbacks s')) ->
  rw_inv s' (delete t gs).
Proof.
  intros [Hc Hk Hh Hp Hcl He] Hg Hc' Hk' Hh' Hst Hcb Hp'. split; [done|done| |done| |].
  - intros x. rewrite Hh', Hh, Hcb, (msum_delete _ gs t g Hg). lia.
  - intros t' g0 x [_ Hg0]%lookup_delete_Some. by apply (Hcl t').
  - by rewrite Hh', Hst.
Qed.
End steps.

Section facts.
Context {s : lS rwlock} {gs : gmap tid rw_ghost} {t : tid} {g : rw_ghost}.
Context (Hi : rw_inv s gs) (Hg : gs !! t = Some g).

(** Who has a reference finds the core and the OS lock there. *)
Lemma rw_holds n :
  stk g = Holds n -> 1 <= n ->
  0 < total stk (rw_life s) gs /\ owners stk gs = 0 /\ allocated (rw_life s) = true /\
  1 <= refs (rw_life s) /\ ready s = true /\ initialized s = 1.
Proof.
  intros Hs Hn. destruct Hi as [Hc Hk _ _ _ _].
  pose proof (counted_total_ge stk _ gs t g Hc Hg) as Ht. rewrite Hs in Ht. simpl in Ht.
  pose proof (counted_handles stk _ gs Hc). pose proof (counted_pins stk _ gs Hc).
  destruct (counted_alive stk _ gs Hc) as (Ho & Ha & ? & _); [lia|].
  destruct (known_shared _ _ _ _ _ _ Hk Ho) as [Hr Hin]. simpl in *.
  split_and!; try done; [lia|lia|by rewrite Hr|auto].
Qed.

(** The owner of the core is alone with it. *)
Lemma rw_owns z :
  stk g = Owns z ->
  owners stk gs = 1 /\ stake_ok (rw_life s) (Owns z) /\ (ready s, initialized s) = view g /\
  held s = [] /\ callbacks s = [].
Proof.
  intros Hs. destruct Hi as [Hc Hk Hh Hp Hcl _].
  destruct (counted_owner stk _ gs t g z Hc Hg Hs) as (Ho & Ht & _ & _ & Hp0).
  assert (callbacks s = []) as Hcb by (destruct (callbacks s); simpl in *; [done|lia]).
  split_and!; [done| | | |done].
  - rewrite <- Hs. apply (counted_ok stk _ gs Hc t g Hg).
  - apply (known_owner _ _ _ _ _ _ Hk t g Hg). by rewrite Hs.
  - apply cnt_nil. intros x. rewrite Hh, Hcb, msum_zero; [done|].
    intros t' g' Hg'. destruct (decide (x ∈ claim g')) as [Hx|Hx].
    + destruct (Hcl t' g' x Hg' Hx). pose proof (counted_total_ge stk _ gs t' g' Hc Hg').
      pose proof (counted_handles stk _ gs Hc). lia.
    + pose proof (cnt_nonneg x (claim g')). rewrite cnt_pos in Hx. lia.
Qed.
(** A claim is backed by the OS lock. *)
Lemma rw_claimed x : x ∈ claim g -> x ∈ held s.
Proof.
  intros Hx%cnt_pos. apply cnt_pos. rewrite (rw_held _ _ Hi).
  pose proof (msum_ge (fun g => cnt x (claim g)) gs t g ltac:(intros; apply cnt_nonneg) Hg).
  pose proof (cnt_nonneg x (callbacks s)). simpl in *. lia.
Qed.
End facts.

(** *** The programs *)

Section programs.
Context {P : platform}.

Abbreviation keeps := (keeps rwlock_code rw_outline).
Implicit Types (t : tid) (o : lO rwlock).

Lemma rw_keeps_hook t o h k es g :
  (forall st, keeps t o (k st) (es ++ fails st) g) ->
  keeps t o (sync_rwlock_take_test_error h k) es g.
Proof.
  intros Hk tr s gs a v' Hi Hg. exists g. split; [|apply Hk].
  by apply rw_same with s.
Qed.

Lemma rw_keeps_wrap t o k es n v :
  0 <= n -> keeps t o k es (RwGhost (Holds n) [] v) ->
  keeps t o (sync_rwlock_wrap k) es (RwGhost (Holds (n + 1)) [] v).
Proof.
  intros Hn Hk. apply keeps_on_core. intros tr s gs Hi Hg.
  destruct (rw_holds Hi Hg (n + 1) eq_refl) as (_ & Ho & Ha & _); [lia|]. split; [done|].
  exists (RwGhost (Holds n) [] v). split; [|done].
  eapply rw_step_core; try done; simpl; [|].
  - eapply counted_handle; try done; eauto using rw_counted.
  - eapply (known_same _ _ _ (rw_life s)); try done; eauto using rw_known.
Qed.

(** A call that returns its handle. *)
Lemma rw_keeps_give_back t o r es v :
  (forall s, leave rwlock_code t o r s = set rw_lens (give_back (rw_life s)) s) ->
  returns rw_outline o es r ->
  keeps t o (Ret r) es (RwGhost (Holds 1) [] v).
Proof.
  intros Hl Hr. split; [done|]. intros tr s gs Hi Hg. rewrite Hl.
  destruct (rw_holds Hi Hg 1 eq_refl) as (_ & Ho & _); [done|].
  eapply rw_return; try done; simpl.
  - eapply counted_give_back; try done; eauto using rw_counted.
  - eapply (known_return _ _ _ (rw_life s)); try done; eauto using rw_known.
  - intros x. rewrite ?cnt_empty. lia.
  - apply Hi.
Qed.

(** A call that leaves nothing behind. *)
Lemma rw_keeps_done t o r es g :
  (forall s, leave rwlock_code t o r s = s) -> returns rw_outline o es r ->
  claim g = [] -> stk g = Holds 0 \/ stk g = Owns None /\ (view g).1 = false ->
  keeps t o (Ret r) es g.
Proof.
  intros Hl Hr Hcl Hst. split; [done|]. intros tr s gs Hi Hg. rewrite Hl.
  eapply rw_return; try done.
  - eapply counted_return; eauto using rw_counted. destruct Hst as [|[? _]]; auto.
  - eapply (known_return _ _ _ (rw_life s)); try done; eauto using rw_known. destruct Hst as [Hst|[Hst Hv]].
    + left. by rewrite Hst.
    + right. destruct (rw_owns Hi Hg _ Hst) as (_ & [Hok _] & He & _).
      rewrite He, Hok. split; [done|]. done.
  - intros x. rewrite Hcl, ?cnt_empty. lia.
  - apply Hi.
Qed.

(** Freeing the core ends an operation. *)
Lemma rw_keeps_free t o r es z v :
  (forall s, leave rwlock_code t o r s = s) -> returns rw_outline o es r -> v.1 = false ->
  keeps t o (free rw_lens (Ret r)) es (RwGhost (Owns (Some z)) [] v).
Proof.
  intros Hl Hr Hv. apply keeps_on_core. intros tr s gs Hi Hg.
  destruct (rw_owns Hi Hg _ eq_refl) as (Ho & (Ha & Hsh & _) & He & _). split; [done|]. simpl. rewrite ?Hsh.
  exists (RwGhost (Owns None) [] v). split.
  - eapply rw_step_core; try done; simpl.
    + eapply counted_free; try done; eauto using rw_counted.
    + eapply known_own; try done.
  - apply rw_keeps_done; try done. by right.
Qed.

(** Destroying the lock, then freeing the core. *)
Lemma rw_keeps_destroy t o r es z i :
  (forall s, leave rwlock_code t o r s = s) -> returns rw_outline o es r ->
  o = OpNew \/ o = OpFinalize ->
  keeps t o (sync_os_rwlock_destroy (fun st =>
      sync_rwlock_abort_if_failed st (free rw_lens (Ret r)))) es
    (RwGhost (Owns (Some z)) [] (true, i)).
Proof.
  intros Hl Hr Hor. apply keeps_os_call. intros tr s gs a v' Hi Hg.
  destruct (rw_owns Hi Hg _ eq_refl) as (Ho & (Ha & Hsh & _) & [= Hrd Hin] & Hh & _).
  unfold private. rewrite Ha, Hsh, Hrd, Hh. simpl. unfold sync_rwlock_abort_if_failed, fails.
  destruct (Z.eqb_spec a 0) as [->|Hne].
  - exists (RwGhost (Owns (Some z)) [] (false, i)). rewrite app_nil_r. split.
    + eapply rw_step; try done; simpl.
      * eapply counted_same; eauto using rw_counted.
      * eapply known_own; try done. simpl. congruence.
      * intros x. rewrite Hh. done.
      * by intros x ?%not_elem_of_nil.
      * pose proof (rw_exclusive _ _ Hi) as He. by rewrite Hh in He.
    + by apply rw_keeps_free.
  - exists (RwGhost (Owns (Some z)) [] (true, i)). split; [by apply rw_same with s|].
    split; [done|]. by destruct es.
Qed.

Lemma rw_keeps_share t :
  keeps t OpShare sync_rwlock_share [] (RwGhost (Holds 1) [] (false, 0)).
Proof.
  apply keeps_on_core. intros tr s gs Hi Hg.
  destruct (rw_holds Hi Hg 1 eq_refl) as (Ht & Ho & Ha & Hr & _); [done|]. split; [done|].
  destruct (Z.ltb_spec (refs (get rw_lens s)) 1); [simpl in *; lia|].
  destruct (Z.ltb_spec (refs (get rw_lens s)) MAX_REFS); [|done].
  exists (RwGhost (Holds (1 + 1)) [] (false, 0)). split.
  - eapply rw_step_core; try done; simpl.
    + eapply counted_inc; try done; eauto using rw_counted.
    + eapply (known_same _ _ _ (rw_life s)); try done; eauto using rw_known.
  - apply rw_keeps_wrap; [done|]. by apply rw_keeps_give_back.
Qed.

Lemma rw_keeps_finalize t :
  keeps t OpFinalize sync_rwlock_finalize [] (RwGhost (Holds 1) [] (false, 0)).
Proof.
  apply keeps_on_core. intros tr s gs Hi Hg.
  destruct (rw_holds Hi Hg 1 eq_refl) as (Ht & Ho & Ha & Hr & Hrd & Hin); [done|]. split; [done|].
  destruct (Z.ltb_spec (refs (get rw_lens s)) 1); [simpl in *; lia|].
  destruct (refs (get rw_lens s) - 1 =? 0) eqn:Hz; simpl in Hz.
  - exists (RwGhost (Owns (Some 0)) [] (true, 1)). split.
    { eapply rw_step_core; try done; simpl.
      - eapply counted_dec; try done; eauto using rw_counted. simpl. by rewrite Hz.
      - apply known_own with (RwGhost (Holds 1) [] (false, 0)); try done. simpl. congruence. }
    clear. intros tr s gs a v' Hi Hg. destruct (rw_owns Hi Hg _ eq_refl) as (_ & (Ha & Hsh & _) & [= _ Hin] & _).
    unfold private. rewrite Ha, Hsh, Hin. exists (RwGhost (Owns (Some 0)) [] (true, 1)).
    split; [by apply rw_same with s|]. apply rw_keeps_destroy; [done..|by right].
  - exists (RwGhost (Holds 0) [] (false, 0)). split.
    { eapply rw_step_core; try done; simpl.
      - eapply counted_dec; try done; eauto using rw_counted. simpl. by rewrite Hz.
      - eapply (known_same _ _ _ (rw_life s)); try done; eauto using rw_known. }
    apply rw_keeps_done; try done. by left.
Qed.

(** Taking the lock, and starting the callback if there is no failure. *)
Lemma rw_keeps_lock t o w :
  (o = OpReadLock /\ w = false) \/ (o = OpWriteLock /\ w = true) ->
  keeps t o (sync_rwlock_take_test_error LockError (fun injected =>
      if negb (injected =? 0) then Ret (RStatus injected)
      else os_lock w (fun st => Ret (RStatus st)))) []
    (RwGhost (Holds 1) [] (false, 0)).
Proof.
  intros Ho.
  assert (forall st, st <> 0 ->
    keeps t o (Ret (RStatus st)) [Failed st] (RwGhost (Holds 1) [] (false, 0))) as Hfail.
  { intros st Hst. apply rw_keeps_give_back.
    - intros s. destruct Ho as [[-> ->]|[-> ->]]; simpl; by destruct st.
    - by destruct Ho as [[-> ->]|[-> ->]]. }
  apply rw_keeps_hook. intros injected. unfold fails. simpl.
  destruct (Z.eqb_spec injected 0) as [->|Hn]; simpl; [|by apply Hfail].
  apply keeps_os_call. intros tr s gs a v' Hi Hg.
  destruct (rw_holds Hi Hg 1 eq_refl) as (_ & Hown & Ha & _ & Hrd & _); [done|].
  rewrite Ha, Hrd. simpl. destruct (Z.eqb_spec a 0) as [->|Hn]; simpl.
  2: { exists (RwGhost (Holds 1) [] (false, 0)). split; [by apply rw_same with s|by apply Hfail]. }
  destruct (available w s) eqn:Hav; [|by destruct Ho as [[-> ->]|[-> ->]]].
  exists (RwGhost (Holds 1) [(t, w)] (false, 0)). split.
  - eapply rw_step; try done; simpl.
    + eapply counted_same; eauto using rw_counted.
    + rewrite <- Hrd. eapply (known_same _ _ _ (rw_life s)); try done. apply Hi.
    + intros x. rewrite cnt_cons, cnt_one, ?cnt_empty. lia.
    + by intros x ->%list_elem_of_singleton.
    + apply exclusive_lock; [done|apply Hi].
  - split; [by destruct Ho as [[-> ->]|[-> ->]]|]. clear -Ho. intros tr s gs Hi Hg.
    destruct (rw_holds Hi Hg 1 eq_refl) as (_ & Hown & _); [done|].
    assert (leave rwlock_code t o (RStatus 0) s =
      set rw_lens (pin (rw_life s)) (with_callbacks ((t, w) :: callbacks s) s)) as ->
      by (by destruct Ho as [[-> ->]|[-> ->]]).
    eapply rw_return; try done; simpl.
    + eapply counted_pin; try done; eauto using rw_counted.
    + eapply (known_return _ _ _ (rw_life s)); try done; eauto using rw_known.
    + intros x. rewrite cnt_cons, cnt_one. lia.
    + rewrite (rw_pins _ _ Hi). lia.
Qed.

(** Ending the callback: whatever is reported, the thread has no longer a claim. *)
Lemma rw_keeps_unlock t o w :
  (o = OpReadUnlock /\ w = false) \/ (o = OpWriteUnlock /\ w = true) ->
  keeps t o (os_unlock w (fun st =>
      if negb (st =? 0) then Ret (RStatus st)
      else sync_rwlock_take_test_error UnlockError (fun st => Ret (RStatus st)))) []
    (RwGhost (Holds 1) [(t, w)] (false, 0)).
Proof.
  intros Ho.
  assert (forall st es, returns rw_outline o es (RStatus st) = reports es st) as Hrep
    by (by destruct Ho as [[-> ->]|[-> ->]]).
  assert (forall st es, reports es st ->
    keeps t o (Ret (RStatus st)) es (RwGhost (Holds 1) [] (false, 0))) as Hret.
  { intros st es Hst. apply rw_keeps_give_back; [|by rewrite Hrep].
    intros s. by destruct Ho as [[-> ->]|[-> ->]]. }
  apply keeps_os_call. intros tr s gs a v' Hi Hg.
  destruct (rw_holds Hi Hg 1 eq_refl) as (_ & Hown & Ha & _ & Hrd & _); [done|].
  rewrite Ha, Hrd. simpl.
  assert ((t, w) ∈ held s) as Hin.
  { apply (rw_claimed Hi Hg). by constructor. }
  destruct (list_find (fun x => x.1 = t) (held s)) as [[i x]|] eqn:Hf; last first.
  { apply list_find_None in Hf. rewrite Forall_forall in Hf. by apply Hf in Hin. }
  apply list_find_Some in Hf as (Hx & Hxt & _).
  assert (x = (t, w)) as ->.
  { apply (exclusive_same (held s ++ stuck s)); [apply Hi| | |done]; apply elem_of_app; left; [|done].
    by apply list_elem_of_lookup_2 with i. }
  rewrite xorb_nilpotent, andb_false_r. exists (RwGhost (Holds 1) [] (false, 0)). split.
  - eapply rw_step; try done; simpl.
    + eapply counted_same; eauto using rw_counted.
    + rewrite <- Hrd. eapply (known_same _ _ _ (rw_life s)); try done. apply Hi.
    + intros y. rewrite (cnt_delete y _ _ _ Hx), cnt_one, ?cnt_empty. lia.
    + by intros y ?%not_elem_of_nil.
    + destruct (a =? 0); [apply exclusive_delete with (t, w); [done|apply Hi]|].
      apply exclusive_perm with (held s ++ stuck s); [|apply Hi].
      etrans; [apply Permutation_app_tail, (delete_Permutation _ _ _ Hx)|]. simpl. apply Permutation_middle.
  - unfold fails. destruct (Z.eqb_spec a 0) as [->|Hn]; simpl; [|by apply Hret].
    apply rw_keeps_hook. intros st. apply Hret. unfold fails. by destruct (Z.eqb_spec st 0).
Qed.

Lemma rw_keeps_init t k :
  keeps t OpNew (k 0) [] (RwGhost (Owns (Some 1)) [] (true, 0)) ->
  (forall a, a <> 0 -> keeps t OpNew (k a) [Failed a] (RwGhost (Owns (Some 1)) [] (false, 0))) ->
  keeps t OpNew (sync_os_rwlock_init k) [] (RwGhost (Owns (Some 1)) [] (false, 0)).
Proof.
  intros Hk Hf. apply keeps_os_call. intros tr s gs a v' Hi Hg.
  destruct (rw_owns Hi Hg _ eq_refl) as (Ho & (Ha & Hsh & _) & [= Hrd Hin] & Hh & _).
  unfold private. rewrite Ha, Hsh, Hrd. simpl. unfold fails. destruct (Z.eqb_spec a 0) as [->|Hn].
  - exists (RwGhost (Owns (Some 1)) [] (true, 0)). split; [|done].
    eapply rw_step; try done; simpl.
    + eapply counted_same; eauto using rw_counted.
    + eapply known_own; try done. simpl. congruence.
    + intros x. by rewrite Hh.
    + by intros x ?%not_elem_of_nil.
    + left. by intros x ?%not_elem_of_nil.
  - exists (RwGhost (Owns (Some 1)) [] (false, 0)). split; [by apply rw_same with s|by apply Hf].
Qed.

Lemma rw_keeps_publish t :
  keeps t OpNew (write_initialized 1 (sync_rwlock_wrap (Ret (RNew 0 true)))) []
    (RwGhost (Owns (Some 1)) [] (true, 0)).
Proof.
  intros tr s gs a v' Hi Hg.
  destruct (rw_owns Hi Hg _ eq_refl) as (Ho & (Ha & Hsh & _) & [= Hrd Hin] & Hh & _). unfold private. rewrite Ha, Hsh.
  exists (RwGhost (Owns (Some 1)) [] (true, 1)). split.
  { eapply rw_step; try done; simpl.
    - eapply counted_same; eauto using rw_counted.
    - eapply known_own; try done. simpl. congruence.
    - intros x. rewrite ?cnt_empty. lia.
    - by intros x ?%not_elem_of_nil.
    - apply Hi. }
  clear. apply keeps_on_core. intros tr s gs Hi Hg.
  destruct (rw_owns Hi Hg _ eq_refl) as (Ho & (Ha & Hsh & _) & [= Hrd Hin] & Hh & _). split; [done|]. simpl. rewrite ?Hsh.
  exists (RwGhost (Holds 0) [] (true, 1)). split.
  - eapply rw_step_core; try done; simpl.
    + eapply counted_publish; try done; eauto using rw_counted.
    + eapply known_publish; try done.
  - apply rw_keeps_done; try done. by left.
Qed.

Lemma rw_keeps_new t z :
  keeps t OpNew sync_rwlock_new [] (RwGhost (Owns None) [] (false, z)).
Proof.
  apply keeps_sync_alloc. intros tr s gs Hi Hg.
  destruct (rw_owns Hi Hg _ eq_refl) as (Ho & [Ha Hsh] & He & _). split; [done|]. split; last first.
  { intros a. exists (RwGhost (Owns None) [] (false, z)).
    split; [by apply rw_same with s|]. split; [by left|done]. }
  exists (RwGhost (Owns (Some 0)) [] (false, 0)). split.
  { eapply rw_step; try done; simpl.
    - eapply counted_alloc; try done; eauto using rw_counted.
    - eapply known_own; try done. simpl. by injection He as ->.
    - intros x. rewrite ?cnt_empty. lia.
    - by intros x ?%not_elem_of_nil.
    - apply Hi. }
  clear. apply keeps_on_core. intros tr s gs Hi Hg.
  destruct (rw_owns Hi Hg _ eq_refl) as (Ho & (Ha & Hsh & _) & He & _). split; [done|]. simpl. rewrite ?Hsh.
  exists (RwGhost (Owns (Some 1)) [] (false, 0)). split.
  { eapply rw_step_core; try done; simpl.
    - eapply counted_store; try done; eauto using rw_counted.
    - by eapply known_own. }
  clear. apply rw_keeps_init; simpl.
  - apply rw_keeps_hook. intros injected. simpl. unfold fails.
    destruct (Z.eqb_spec injected 0) as [->|Hn]; simpl; [apply rw_keeps_publish|].
    apply rw_keeps_destroy; [done| |by left]. simpl. destruct (Z.eqb_spec injected 0); naive_solver.
  - intros a Hn. destruct (Z.eqb_spec a 0); [done|]. simpl.
    apply rw_keeps_free; [done| |done]. simpl. destruct (Z.eqb_spec a 0); naive_solver.
Qed.

Lemma rw_keeps_fail_next t o h st :
  (forall s, leave rwlock_code t o RVoid s = s) -> returns rw_outline o [] RVoid ->
  keeps t o (test_fail_next h st) [] (RwGhost (Holds 0) [] (false, 0)).
Proof.
  intros Hl Hr tr s gs a v' Hi Hg. exists (RwGhost (Holds 0) [] (false, 0)). split.
  - by apply rw_same with s.
  - apply rw_keeps_done; try done. by left.
Qed.
End programs.

(** *** The outline is kept *)

Lemma rw_enter_life s gs t g c :
  rw_inv s gs -> gs !! t = None -> counted stk c (<[t := g]> gs) ->
  owned (stk g) = 0 -> allocated c = allocated (rw_life s) -> pins c = pins (rw_life s) -> claim g = [] ->
  rw_inv (set rw_lens c s) (<[t := g]> gs).
Proof.
  intros Hi Hg Hc Hst Ha Hp Hcl. eapply rw_call; try done; simpl; rewrite ?Hcl.
  - eapply (known_call _ _ _ (rw_life s)); try done. apply Hi.
  - intros x. rewrite ?cnt_empty. lia.
  - rewrite Hp. apply Hi.
  - by intros x ?%not_elem_of_nil.
Qed.

Lemma rw_enter_take s s' gs t :
  rw_inv s gs -> gs !! t = None -> on_life take s = Some s' ->
  rw_inv s' (<[t := RwGhost (Holds 1) [] (false, 0)]> gs).
Proof.
  unfold on_life. intros Hi Hg. destruct (take _) as [c|] eqn:Hc; [|done]. intros [= <-].
  destruct (take_same _ _ Hc) as (_ & ? & ? & _).
  apply rw_enter_life; try done. eapply counted_take; [apply Hi|done..].
Qed.

Lemma rw_enter_create s s' gs t :
  rw_inv s gs -> gs !! t = None -> on_life create s = Some s' ->
  rw_inv s' (<[t := RwGhost (Owns None) [] (false, initialized s)]> gs).
Proof.
  unfold on_life. intros Hi Hg. destruct (create _) as [c|] eqn:Hc; [|done]. intros [= <-].
  pose proof Hi as [Hcount Hk _ Hp _ _].
  assert (made (rw_life s) = false /\ pins c = pins (rw_life s)) as [Hm Hpc].
  { unfold create in Hc. destruct (made _); [done|]. by injection Hc as <-. }
  destruct (counted_phase _ _ _ Hcount) as [(Ho & _ & Ha & _)|[(_ & _ & _ & _ & ?)|(_ & _ & ?)]]; [|congruence..].
  destruct (known_shared _ _ _ _ _ _ Hk Ho) as [Hr _]. simpl in Hr.
  eapply rw_call; try done; simpl.
  - eapply counted_create; [done..|reflexivity].
  - eapply known_create; try done. simpl. congruence.
  - intros x. rewrite ?cnt_empty. lia.
  - by rewrite Hpc.
  - by intros x ?%not_elem_of_nil.
Qed.

Lemma rw_enter_ends s s' gs t w :
  rw_inv s gs -> gs !! t = None -> ends t w s = Some s' ->
  rw_inv s' (<[t := RwGhost (Holds 1) [(t, w)] (false, 0)]> gs).
Proof.
  unfold ends, on_life. intros Hi Hg.
  destruct (list_find (fun x => x.1 = t) (callbacks s)) as [[i x]|] eqn:Hf; [|done].
  case_bool_decide as Hw; [|done]. destruct (unpin _) as [c|] eqn:Hc; [|done]. intros [= <-].
  apply list_find_Some in Hf as (Hx & Hxt & _). assert (x = (t, w)) as -> by (destruct x; simpl in *; congruence).
  destruct (unpin_same _ _ Hc) as (_ & ? & _).
  eapply rw_call; try done; simpl.
  - eapply counted_unpin; [apply Hi|done..].
  - eapply (known_call _ _ _ (rw_life s)); try done. apply Hi.
  - intros y. rewrite (cnt_delete y _ _ _ Hx), cnt_one. lia.
  - pose proof (rw_pins _ _ Hi) as Hp. unfold unpin in Hc. case_match; [|done]. injection Hc as <-. simpl.
    pose proof (length_delete (callbacks s) i ltac:(by eexists)).
    pose proof (lookup_lt_Some _ _ _ Hx). simpl in *. lia.
  - by intros y ->%list_elem_of_singleton.
Qed.

Lemma rw_enter_hook s gs t :
  rw_inv s gs -> gs !! t = None -> rw_inv s (<[t := RwGhost (Holds 0) [] (false, 0)]> gs).
Proof.
  intros Hi Hg. replace s with (set rw_lens (rw_life s) s) at 1 by by destruct s.
  apply rw_enter_life; try done. apply counted_call; [apply Hi|done..].
Qed.

Lemma rw_kept {P : platform} e1 e2 e3 : kept rwlock_code rw_outline (no_lock e1 e2 e3).
Proof.
  split.
  - split; simpl; [apply counted_unborn|by split|done|done|by intros ??? []%lookup_empty_Some|].
    left. by intros x ?%not_elem_of_nil.
  - intros t o g. destruct o; simpl; rewrite ?bool_decide_true, ?bool_decide_false by done.
    + intros [z ->]. apply rw_keeps_new.
    + intros ->. apply rw_keeps_share.
    + intros ->. apply rw_keeps_finalize.
    + intros ->. apply rw_keeps_lock. by left.
    + intros ->. apply rw_keeps_unlock. by left.
    + intros ->. apply rw_keeps_lock. by right.
    + intros ->. apply rw_keeps_unlock. by right.
    + intros ->. by apply rw_keeps_fail_next.
    + intros ->. by apply rw_keeps_fail_next.
    + intros ->. by apply rw_keeps_fail_next.
  - intros tr s gs t o s' Hi Hg Hen.
    destruct o; simpl in Hen |- *; eexists; (split; [|rewrite ?bool_decide_true, ?bool_decide_false by done]).
    all: try reflexivity.
    all: try (by eapply rw_enter_take).
    all: try (by eapply rw_enter_ends).
    + by apply rw_enter_create.
    + by eexists.
    + injection Hen as <-. by apply rw_enter_hook.
    + injection Hen as <-. by apply rw_enter_hook.
    + injection Hen as <-. by apply rw_enter_hook.
Qed.

(** ** Properties *)

Section properties.
Context {P : platform} (e1 e2 e3 : Z) (c : config rwlock) (tr : list (label rwlock)).
Context (Hr : reachable rwlock_code (no_lock e1 e2 e3) c tr).

Lemma rw_reachable_inv :
  exists gs : gmap tid rw_ghost, rw_inv (state c) gs /\
    forall t, frames c !! t = None <-> gs !! t = None.
Proof. apply (kept_inv _ _ (rw_kept e1 e2 e3) c tr Hr). Qed.



(** Who has the OS lock: a callback, a call in progress, or nobody any more
    because an unlock failed. *)
Lemma rw_holders x :
  x ∈ held (state c) -> x ∈ callbacks (state c) \/ frames c !! x.1 <> None.
Proof.
  destruct rw_reachable_inv as (gs & Hi & Hf). intros Hx%cnt_pos.
  destruct (decide (x ∈ callbacks (state c))) as [|Hn]; [by left|right]. intros Hfx.
  apply Hf in Hfx. rewrite (rw_held _ _ Hi), msum_zero, cnt_zero in Hx; [lia|done|].
  intros t g Hg. destruct (decide (x ∈ claim g)) as [Hin|Hin]; [|by apply cnt_zero].
  destruct (rw_claim _ _ Hi t g x Hg Hin) as [<- _]. congruence.
Qed.
End properties.


(** Locking waits only for somebody: a step of a call is refused only, in
    locking for reading, while somebody has the lock for writing, in locking for
    writing, while somebody has the lock, and in other calls while the reference
    counter is at its bound; and who has the lock is in a callback, or has a call
    running, or its unlocking failed. *)
Theorem rwlock_waits (P : platform) e1 e2 e3 c tr t o B (f : action rwlock B) k a v :
  reachable rwlock_code (no_lock e1 e2 e3) c tr ->
  frames c !! t = Some (o, Act f k) -> f t a v (state c) = Blocked ->
  match o with
  | OpReadLock | OpWriteLock =>
      exists x, x ∈ held (state c) ++ stuck (state c) /\ (o = OpReadLock -> x.2 = true)
  | _ => MAX_REFS <= refs (rw_life (state c))
  end /\
  forall x, x ∈ held (state c) -> x ∈ callbacks (state c) \/ frames c !! x.1 <> None.
Proof.
  intros Hr Hf Hb. split; [|by apply (rw_holders e1 e2 e3 c tr)].
  destruct (kept_waits _ _ (rw_kept e1 e2 e3) c tr t o B f k a v Hr Hf Hb) as (gs & g & _ & _ & Hw).
  destruct o; try done.
  - destruct (unavailable_read _ Hw) as (x & ? & ?). by exists x.
  - apply bool_decide_eq_false in Hw.
    destruct (held (state c) ++ stuck (state c)) as [|x l]; [done|]. exists x. split; [by constructor|done].
Qed.

(** C36: the core and its OS lock live exactly as long as handles and callbacks:
    they are there while there is one, and freed and destroyed when there is no
    handle, callback and call left; a call reports the status of the first call
    in it that failed (or was made to fail), [new] gives a handle exactly with
    status 0, and abort is called only after a failure. *)
Theorem rwlock_release_errors (P : platform) e1 e2 e3 c tr :
  reachable rwlock_code (no_lock e1 e2 e3) c tr ->
  (0 < handles (rw_life (state c)) \/ callbacks (state c) <> [] ->
     allocated (rw_life (state c)) = true /\ ready (state c) = true) /\
  (frames c = ∅ -> handles (rw_life (state c)) = 0 -> callbacks (state c) = [] ->
     allocated (rw_life (state c)) = false /\ ready (state c) = false) /\
  (forall tr1 t o r tr2, tr = tr1 ++ LRes t o r :: tr2 ->
     match r with
     | RNew st h => reports (events tr1 t) st /\ h = (st =? 0)
     | RStatus st => reports (events tr1 t) st
     | RHandle | RVoid => events tr1 t = []
     end) /\
  (forall t o, frames c !! t = Some (o, Abort) -> events tr t <> []).
Proof.
  intros Hr. destruct (rw_reachable_inv e1 e2 e3 c tr Hr) as (gs & [Hc Hk _ Hp _ _] & Hf). split_and!.
  - intros H. assert (0 < total stk (rw_life (state c)) gs) as Ht.
    { pose proof (counted_total_base stk _ gs Hc). pose proof (counted_handles stk _ gs Hc).
      destruct H as [|H]; [|destruct (callbacks (state c)); [done|]; simpl in Hp]; lia. }
    destruct (counted_alive stk _ gs Hc Ht) as (Ho & Ha & _).
    destruct (known_shared _ _ _ _ _ _ Hk Ho) as [Hrd _]. simpl in Hrd. by rewrite Hrd.
  - intros He Hh Hcb. rewrite Hcb in Hp. assert (gs = ∅) as Hgs.
    { apply map_empty. intros t. apply Hf. by rewrite He. }
    rewrite Hgs in Hc, Hk. pose proof (counted_end stk _ Hc Hh Hp) as Ha.
    destruct (known_shared _ _ _ _ _ _ Hk eq_refl) as [Hrd _]. simpl in Hrd. by rewrite Hrd.
  - intros tr1 t o r tr2 Ht.
    pose proof (kept_returns _ _ (rw_kept e1 e2 e3) c tr tr1 t o r tr2 Hr Ht) as H.
    simpl in H. by destruct o, r.
  - intros t o Ha. by destruct (kept_aborts _ _ (rw_kept e1 e2 e3) c tr t o Hr Ha) as (gs' & g & _ & _ & _ & ?).
Qed.

(** ** Witnesses *)

#[local] Existing Instance posix.

Definition call (t : tid) (o : lO rwlock) : choice rwlock := CInvoke t o.

(** Two readers are in their callbacks and a writer waits. *)
Definition reading : list (choice rwlock) :=
  [call 0 OpNew] ++ steps 0 7 ++ [call 0 OpShare] ++ steps 0 3 ++ [call 0 OpShare] ++ steps 0 3 ++
  [call 1 OpReadLock; call 2 OpReadLock] ++ steps 2 3 ++ steps 1 3 ++ [call 3 OpWriteLock] ++ steps 3 1.

(** One of the readers leaves, the other fails to unlock. *)
Definition failing_unlock : list (choice rwlock) :=
  reading ++ [call 1 OpReadUnlock] ++ steps 1 3 ++ [call 2 OpReadUnlock; CStep 2 16 0].



Lemma rwlock_waits_witness :
  exists c : config rwlock, callbacks (state c) = [(1%nat, false); (2%nat, false)] /\
    (exists x, x ∈ held (state c) ++ stuck (state c) /\ (OpWriteLock = OpReadLock -> x.2 = true)) /\
    forall x, x ∈ held (state c) -> x ∈ callbacks (state c) \/ frames c !! x.1 <> None.
Proof.
  exists (after rwlock_code (no_lock 0 0 0) reading).1. split; [vm_compute; reflexivity|].
  refine (rwlock_waits posix 0 0 0 _ (after rwlock_code (no_lock 0 0 0) reading).2 3%nat OpWriteLock Z
    _ _ 0 0%nat _ _ _).
  - played.
  - vm_compute. reflexivity.
  - vm_compute. reflexivity.
Defined.

Lemma rwlock_release_errors_witness :
  exists (c : config rwlock) (tr : list (label rwlock)),
    stuck (state c) = [(2%nat, false)] /\ callbacks (state c) = [] /\
    (0 < handles (rw_life (state c)) \/ callbacks (state c) <> [] ->
       allocated (rw_life (state c)) = true /\ ready (state c) = true) /\
    events tr 2%nat = [Failed 16].
Proof.
  exists (after rwlock_code (no_lock 0 0 0) failing_unlock).1.
  exists (after rwlock_code (no_lock 0 0 0) failing_unlock).2.
  split; [vm_compute; reflexivity|]. split; [vm_compute; reflexivity|]. split; [|vm_compute; reflexivity].
  apply (rwlock_release_errors posix 0 0 0 _ (after rwlock_code (no_lock 0 0 0) failing_unlock).2). played.
Defined.
