(* ===== verification/OsMutex.v ===== *)
(** OsMutex: the OS mutex of src/internal/native_sync.h inside a
    reference-counted core, for the components built on Interleave. *)
From stdpp Require Import base gmap list.
From Stdlib Require Import ZArith Lia.
From S2P Require Import Prelude Interleave Platform Arc.

(** A mutex that exists while [ready], locked by a thread, or for ever where an
    unlock has failed. *)
Record os_mutex := OsMutex { ready : bool; held : option tid; stuck : bool }.

Definition no_mutex : os_mutex := OsMutex false None false.

Definition free_mutex (m : os_mutex) : bool := bool_decide (held m = None) && negb (stuck m).

Section calls.
Context {P : platform} {L : lang} (l : lens (lS L) life) (m : lens (lS L) os_mutex).
Implicit Types k : Z -> prog L.

(** [pthread_mutex_init] and [InitializeSRWLock] *)
Definition sync_os_mutex_init k : prog L :=
  os_call (fun _ a _ s =>
    if private (get l s) && negb (ready (get m s))
    then Go (a, if a =? 0 then set m (OsMutex true None false) s else s, fails a) else Fault) k.

(** [pthread_mutex_destroy] (an SRW lock needs no destruction): undefined for a locked mutex. *)
Definition sync_os_mutex_destroy k : prog L :=
  os_call (fun _ a _ s =>
    if private (get l s) && ready (get m s) && bool_decide (held (get m s) = None)
    then Go (a, if a =? 0 then set m (OsMutex false None (stuck (get m s))) s else s, fails a)
    else Fault) k.

(** [pthread_mutex_lock] and [AcquireSRWLockExclusive]: the mutex is not recursive. *)
Definition sync_os_mutex_lock k : prog L :=
  os_call (fun t a _ s =>
    if allocated (get l s) && ready (get m s) then
      if negb (a =? 0) then Go (a, s, [Failed a])
      else if free_mutex (get m s) then Go (a, set m (OsMutex true (Some t) false) s, []) else Blocked
    else Fault) k.

(** [pthread_mutex_unlock] and [ReleaseSRWLockExclusive]: undefined for a thread that does not have the mutex. *)
Definition sync_os_mutex_unlock k : prog L :=
  os_call (fun t a _ s =>
    if allocated (get l s) && ready (get m s) && bool_decide (held (get m s) = Some t)
    then Go (a, set m (OsMutex true None (negb (a =? 0))) s, fails a) else Fault) k.
End calls.
