(* ===== verification/Mutex.v ===== *)
(** Mutex: src/unsafe/mutex/native.c, a mutex that protects a
    MoonBit value and a condition variable, and the discipline of the callbacks
    [with_lock] of mutex.mbt.  The proofs are in MutexInvariant, MutexCalls and
    MutexSafety. *)
From stdpp Require Import base gmap list.
From Stdlib Require Import ZArith Lia.
From S2P Require Import Prelude Interleave Platform Arc OsMutex.

(** ** State *)

(** [sync_mutex_core_t] with its OS mutex, the MoonBit object it protects,
    [sync_cond_core_t] with its OS condition variable, the static test hooks, and
    the threads in a callback of [with_lock]. *)
Record mutex_state := MxState {
  m_life : life;
  os : os_mutex;
  value : bool;            (** [core->value] is not NULL *)
  box : Z;                 (** references to the object: a plain count *)
  owner : Z;
  locked : Z;
  cv_life : life;
  cv_ready : bool;         (** the OS condition variable is initialised *)
  waiting : list tid;      (** threads waiting for a signal *)
  next_init_error : Z;
  next_cond_init_error : Z;
  next_notify_error : Z;
  callbacks : list tid;
}.

Abbreviation m_ready s := (ready (os s)).
Abbreviation m_held s := (held (os s)).
Abbreviation m_stuck s := (stuck (os s)).

Inductive mutex_op :=
| OpMutexNew | OpMutexShare | OpMutexFinalize | OpLockGet | OpReleaseUnlock
| OpCondNew | OpCondShare | OpCondFinalize | OpWait | OpWaitUnchecked | OpNotifyOne | OpNotifyAll
| OpFailNextInit (st : Z) | OpFailNextCondInit (st : Z) | OpFailNextNotify (st : Z).

#[export] Instance mutex_op_eq : EqDecision mutex_op.
Proof. solve_decision. Defined.

Inductive mutex_result :=
| RNew (st : Z) (handle : bool)  (** [*status], and whether it is not NULL *)
| RHandle
| RBox (st : Z) (b : bool)       (** [*status], and whether the value is returned *)
| RStatus (st : Z)
| RVoid.

(** A plain field of the mutex is read by a thread that does not have it. *)
Inductive mutex_effect := Unsynchronised.

Definition mutex : lang := Lang mutex_state mutex_op mutex_result mutex_effect.

Section with_fields.
Implicit Types s : mutex_state.

Definition with_mutex (m : os_mutex) s : mutex_state :=
  MxState (m_life s) m (value s) (box s) (owner s) (locked s) (cv_life s)
    (cv_ready s) (waiting s) (next_init_error s) (next_cond_init_error s) (next_notify_error s)
    (callbacks s).
Definition with_value (v : bool) (b : Z) s : mutex_state :=
  MxState (m_life s) (os s) v b (owner s) (locked s) (cv_life s)
    (cv_ready s) (waiting s) (next_init_error s) (next_cond_init_error s) (next_notify_error s)
    (callbacks s).
Definition with_owner (o l : Z) s : mutex_state :=
  MxState (m_life s) (os s) (value s) (box s) o l (cv_life s)
    (cv_ready s) (waiting s) (next_init_error s) (next_cond_init_error s) (next_notify_error s)
    (callbacks s).
Definition with_cond (ready : bool) (w : list tid) s : mutex_state :=
  MxState (m_life s) (os s) (value s) (box s) (owner s) (locked s)
    (cv_life s) ready w (next_init_error s) (next_cond_init_error s) (next_notify_error s)
    (callbacks s).
Definition with_callbacks (l : list tid) s : mutex_state :=
  MxState (m_life s) (os s) (value s) (box s) (owner s) (locked s)
    (cv_life s) (cv_ready s) (waiting s) (next_init_error s) (next_cond_init_error s)
    (next_notify_error s) l.
Definition with_lives (m c : life) s : mutex_state :=
  MxState m (os s) (value s) (box s) (owner s) (locked s)
    c (cv_ready s) (waiting s) (next_init_error s) (next_cond_init_error s)
    (next_notify_error s) (callbacks s).
End with_fields.

Definition m_lens : lens (lS mutex) life :=
  Lens (fun s => m_life s) (fun c s => with_lives c (cv_life s) s).
Definition cv_lens : lens (lS mutex) life :=
  Lens (fun s => cv_life s) (fun c s => with_lives (m_life s) c s).
Definition os_lens : lens (lS mutex) os_mutex := Lens (fun s => os s) (fun m s => with_mutex m s).

(** ** OS calls *)

Section os.
Context {P : platform}.
Implicit Types k : Z -> prog mutex.

Definition sync_os_cond_init k : prog mutex :=
  os_call (L := mutex) (fun _ a _ s =>
    if private (cv_life s) && negb (cv_ready s)
    then Go (a, if a =? 0 then with_cond true [] s else s, fails a) else Fault) k.

(** [pthread_cond_destroy]: undefined while a thread waits. *)
Definition sync_os_cond_destroy k : prog mutex :=
  os_call (L := mutex) (fun _ a _ s =>
    if private (cv_life s) && cv_ready s && bool_decide (waiting s = [])
    then Go (a, if a =? 0 then with_cond false [] s else s, fails a) else Fault) k.

(** The objects a wait needs. *)
Definition can_wait (s : mutex_state) : bool :=
  allocated (m_life s) && m_ready s && (allocated (cv_life s) && cv_ready s).

(** The second half of a wait: a woken thread takes the mutex; with [a <> 0] it
    was woken without a signal. *)
Definition cond_resume k : prog mutex :=
  Act (fun t a _ s =>
    if can_wait s then
      if (bool_decide (t ∈ waiting s) && (a =? 0)) || negb (free_mutex (os s)) then Blocked
      else Go (0, with_cond true (filter (fun x => x <> t) (waiting s))
                    (with_mutex (OsMutex true (Some t) false) s), [])
    else Fault) k.

(** [pthread_cond_wait]: undefined for a thread that does not have the mutex. *)
Definition sync_os_cond_wait k : prog mutex :=
  Act (fun t a _ s =>
    if can_wait s && bool_decide (m_held s = Some t) then
      if a =? 0
      then Go (a, with_cond true (t :: waiting s) (with_mutex (OsMutex true None false) s), [])
      else Go (a, s, [Failed a])
    else Fault)
    (fun st => if st =? 0 then cond_resume k else k st).

(** [pthread_cond_signal] wakes a waiting thread, the environment's choice. *)
Definition sync_os_cond_signal k : prog mutex :=
  os_call (L := mutex) (fun _ a v s =>
    if allocated (cv_life s) && cv_ready s then
      if negb (a =? 0) then Go (a, s, [Failed a])
      else if bool_decide (waiting s = []) then Go (a, s, [])
      else if bool_decide (v ∈ waiting s)
           then Go (a, with_cond true (filter (fun x => x <> v) (waiting s)) s, []) else Blocked
    else Fault) k.

Definition sync_os_cond_broadcast k : prog mutex :=
  os_call (L := mutex) (fun _ a _ s =>
    if allocated (cv_life s) && cv_ready s then
      if negb (a =? 0) then Go (a, s, [Failed a]) else Go (a, with_cond true [] s, [])
    else Fault) k.
End os.

(** ** Fields and objects *)

Section fields.
Context {P : platform}.

(** A thread may write the fields of a mutex, and count the references to the
    object, if it has the mutex, or nobody else can reach the core. *)
Definition may_write (t : tid) (s : mutex_state) : bool :=
  allocated (m_life s) && (bool_decide (m_held s = Some t) || negb (shared (m_life s))).

Definition moonbit_incref (k : prog mutex) : prog mutex :=
  Act (fun t _ _ s =>
    if may_write t s && (0 <? box s) then Go (tt, with_value (value s) (box s + 1) s, []) else Fault)
    (fun _ => k).

Definition moonbit_decref (k : prog mutex) : prog mutex :=
  Act (fun t _ _ s =>
    if may_write t s && (0 <? box s) then Go (tt, with_value (value s) (box s - 1) s, []) else Fault)
    (fun _ => k).

(** [core->value], read and written by the constructor and the last finalizer. *)
Definition write_value (k : prog mutex) : prog mutex :=
  Act (fun _ _ _ s =>
    if private (m_life s) then Go (tt, with_value true (box s) s, []) else Fault) (fun _ => k).

Definition read_value (k : bool -> prog mutex) : prog mutex :=
  Act (fun _ _ _ s => if private (m_life s) then Go (value s, s, []) else Fault) k.

(** [core->owner = sync_os_current_thread_id()] and [core->owner = 0] *)
Definition write_owner (mine : bool) (k : prog mutex) : prog mutex :=
  Act (fun t _ _ s =>
    if may_write t s then Go (tt, with_owner (if mine then self P t else 0) (locked s) s, []) else Fault)
    (fun _ => k).

Definition write_locked (z : Z) (k : prog mutex) : prog mutex :=
  Act (fun t _ _ s =>
    if may_write t s then Go (tt, with_owner (owner s) z s, []) else Fault) (fun _ => k).

(** Reading without the mutex is shown in the trace. *)
Definition synchronised (t : tid) (s : mutex_state) : list (event mutex) :=
  if bool_decide (m_held s = Some t) then [] else [@Effect mutex Unsynchronised].

Definition read_locked (k : Z -> prog mutex) : prog mutex :=
  Act (fun t _ _ s =>
    if allocated (m_life s) then Go (locked s, s, synchronised t s) else Fault) k.

(** [core->owner == sync_os_current_thread_id()] *)
Definition owner_is_self (k : bool -> prog mutex) : prog mutex :=
  Act (fun t _ _ s =>
    if allocated (m_life s) then Go (owner s =? self P t, s, synchronised t s) else Fault) k.

(** ** Test hooks *)

Inductive hook := InitError | CondInitError | NotifyError.

Definition hook_get (h : hook) (s : mutex_state) : Z :=
  match h with
  | InitError => next_init_error s
  | CondInitError => next_cond_init_error s
  | NotifyError => next_notify_error s
  end.

Definition hook_set (h : hook) (st : Z) (s : mutex_state) : mutex_state :=
  MxState (m_life s) (os s) (value s) (box s) (owner s) (locked s)
    (cv_life s) (cv_ready s) (waiting s)
    (match h with InitError => st | _ => next_init_error s end)
    (match h with CondInitError => st | _ => next_cond_init_error s end)
    (match h with NotifyError => st | _ => next_notify_error s end) (callbacks s).

(** [sync_test_atomic_take]; an injected status counts as a failing call. *)
Definition take_test_error (h : hook) (k : Z -> prog mutex) : prog mutex :=
  Act (fun _ _ _ s => Go (hook_get h s, hook_set h 0 s, fails (hook_get h s))) k.

(** [sync_test_atomic_store] *)
Definition test_fail_next (h : hook) (st : Z) : prog mutex :=
  Act (fun _ _ _ s => Go (tt, hook_set h st s, [])) (fun _ => Ret RVoid).

(** ** The functions of native.c *)

Definition sync_mutex_abort_if_failed (st : Z) (k : prog mutex) : prog mutex :=
  if st =? 0 then k else Abort.

Definition sync_mutex_finalize : prog mutex := (
  n <- sync_arc_dec m_lens;;
  if n =? 0 then (
    let destroy := (
      st <- sync_os_mutex_destroy m_lens os_lens;;
      sync_mutex_abort_if_failed st;;
      free m_lens;;
      Ret RVoid) in
    v <- read_value;;
    if v : bool then moonbit_decref destroy else destroy)
  else Ret RVoid)%iprog.

Definition sync_mutex_wrap (k : prog mutex) : prog mutex := make_handle m_lens k.

Definition m_zeroed (s : mutex_state) : mutex_state := with_value false (box s) (with_owner 0 0 s).

Definition sync_mutex_new : prog mutex := (
  sync_alloc m_lens m_zeroed;;
  refs_store m_lens 1;;
  write_value;;
  let finish st :=
    if negb (st =? 0) then (moonbit_decref;; free m_lens;; Ret (RNew st false))
    else (sync_mutex_wrap;; Ret (RNew st true)) in
  st <- take_test_error InitError;;
  if st =? 0 then sync_os_mutex_init m_lens os_lens finish else finish st)%iprog.

Definition sync_mutex_share : prog mutex := (
  sync_arc_inc m_lens;;
  sync_mutex_wrap;;
  Ret RHandle)%iprog.

Definition sync_mutex_lock_get : prog mutex := (
  st <- sync_os_mutex_lock m_lens os_lens;;
  if negb (st =? 0) then Ret (RBox st false) else (
  write_owner true;;
  write_locked 1;;
  moonbit_incref;;
  Ret (RBox st true)))%iprog.

Definition sync_mutex_release_unlock : prog mutex := (
  moonbit_decref;;
  write_locked 0;;
  write_owner false;;
  st <- sync_os_mutex_unlock m_lens os_lens;;
  Ret (RStatus st))%iprog.

Definition sync_cond_finalize : prog mutex := (
  n <- sync_arc_dec cv_lens;;
  if n =? 0 then (
    st <- sync_os_cond_destroy;;
    sync_mutex_abort_if_failed st;;
    free cv_lens;;
    Ret RVoid)
  else Ret RVoid)%iprog.

Definition sync_cond_wrap (k : prog mutex) : prog mutex := make_handle cv_lens k.

Definition sync_condvar_new : prog mutex := (
  sync_alloc cv_lens (fun s => s);;
  refs_store cv_lens 1;;
  let finish st :=
    if negb (st =? 0) then (free cv_lens;; Ret (RNew st false))
    else (sync_cond_wrap;; Ret (RNew st true)) in
  st <- take_test_error CondInitError;;
  if st =? 0 then sync_os_cond_init finish else finish st)%iprog.

Definition sync_condvar_share : prog mutex := (
  sync_arc_inc cv_lens;;
  sync_cond_wrap;;
  Ret RHandle)%iprog.

Definition sync_condvar_wait : prog mutex := (
  l <- read_locked;;
  if l =? 0 then Ret (RStatus (-1)) else (
  mine <- owner_is_self;;
  if negb mine then Ret (RStatus (-1)) else (
  st <- sync_os_cond_wait;;
  if st =? 0 then (
    write_owner true;;
    write_locked 1;;
    Ret (RStatus st))
  else Ret (RStatus st))))%iprog.

Definition sync_condvar_notify_one : prog mutex := (
  st <- take_test_error NotifyError;;
  if negb (st =? 0) then Ret (RStatus st) else (
  st <- sync_os_cond_signal;;
  Ret (RStatus st)))%iprog.

Definition sync_condvar_notify_all : prog mutex := (
  st <- take_test_error NotifyError;;
  if negb (st =? 0) then Ret (RStatus st) else (
  st <- sync_os_cond_broadcast;;
  Ret (RStatus st)))%iprog.
End fields.

(** ** The clients: [with_lock], [Condvar::wait] and [condvar_wait_unchecked] of
    mutex.mbt *)

Definition on_m (f : life -> option life) (s : mutex_state) : option mutex_state :=
  c ← f (m_life s); Some (with_lives c (cv_life s) s).
Definition on_cv (f : life -> option life) (s : mutex_state) : option mutex_state :=
  c ← f (cv_life s); Some (with_lives (m_life s) c s).

Definition in_callback (t : tid) (s : mutex_state) : bool := bool_decide (t ∈ callbacks s).

(** In its callback a thread uses the handle it has locked through. *)
Definition m_borrow (t : tid) (s : mutex_state) : option mutex_state :=
  if in_callback t s then Some s else on_m take s.
Definition m_return (t : tid) (s : mutex_state) : mutex_state :=
  if in_callback t s then s else with_lives (give_back (m_life s)) (cv_life s) s.
Definition cv_return (s : mutex_state) : mutex_state :=
  with_lives (m_life s) (give_back (cv_life s)) s.

Definition mutex_code {P : platform} : code mutex := {|
  body o :=
    match o : lO mutex with
    | OpMutexNew => sync_mutex_new
    | OpMutexShare => sync_mutex_share
    | OpMutexFinalize => sync_mutex_finalize
    | OpLockGet => sync_mutex_lock_get
    | OpReleaseUnlock => sync_mutex_release_unlock
    | OpCondNew => sync_condvar_new
    | OpCondShare => sync_condvar_share
    | OpCondFinalize => sync_cond_finalize
    | OpWait | OpWaitUnchecked => sync_condvar_wait
    | OpNotifyOne => sync_condvar_notify_one
    | OpNotifyAll => sync_condvar_notify_all
    | OpFailNextInit st => test_fail_next InitError st
    | OpFailNextCondInit st => test_fail_next CondInitError st
    | OpFailNextNotify st => test_fail_next NotifyError st
    end;
  enter t o s :=
    match o : lO mutex with
    | OpMutexNew => s ← on_m create s; Some (with_value (value s) 1 s)
    | OpMutexShare => m_borrow t s
    | OpMutexFinalize | OpLockGet => on_m take s
    | OpReleaseUnlock =>
        if in_callback t s
        then on_m unpin (with_callbacks (filter (fun x => x <> t) (callbacks s)) s) else None
    | OpCondNew => on_cv create s
    | OpCondShare | OpCondFinalize | OpNotifyOne | OpNotifyAll => on_cv take s
    | OpWait => if in_callback t s then on_cv take s else None
    | OpWaitUnchecked => if in_callback t s then None else s ← on_cv take s; on_m take s
    | OpFailNextInit _ | OpFailNextCondInit _ | OpFailNextNotify _ => Some s
    end;
  leave t o r s :=
    match o : lO mutex, r : lR mutex with
    | OpMutexShare, _ => m_return t s
    | OpLockGet, RBox 0 _ =>
        with_callbacks (t :: callbacks s) (with_lives (pin (m_life s)) (cv_life s) s)
    | OpLockGet, _ => with_lives (give_back (m_life s)) (cv_life s) s
    | OpReleaseUnlock, _ => with_lives (give_back (m_life s)) (cv_life s) s
    | (OpCondShare | OpNotifyOne | OpNotifyAll), _ => cv_return s
    | OpWait, _ => cv_return s
    | OpWaitUnchecked, _ => with_lives (give_back (m_life s)) (give_back (cv_life s)) s
    | _, _ => s
    end;
|}.

(** No mutex and no condition variable yet, with the test hooks set to anything. *)
Definition no_mutex (e1 e2 e3 : Z) : lS mutex :=
  MxState unborn OsMutex.no_mutex false 0 0 0 unborn false [] e1 e2 e3 [].
