(* ===== verification/MutexInvariant.v ===== *)
(** MutexInvariant: the invariant of a mutex and its condition variable, and the
    steps that keep it.

    Every running call has a ghost value: its stakes in the two cores, what it has
    of the mutex and of the object, and what it knows of the fields [locked] and
    [owner].  [mx_inv] relates them to the state. *)
From stdpp Require Import base gmap list.
From Stdlib Require Import ZArith Lia.
From S2P Require Import Prelude Interleave Platform Arc OsMutex Mutex.

(** ** The proof outline *)

(** What a running call knows of the fields [locked] and [owner]. *)
Inductive knowledge := Nothing | Mine | Locked | Cleared.

(** What a running call has: its stakes in the two cores; the mutex, beside what
    its callback has (-1 while the callback waits); references to the object; its
    knowledge; whether it is in a wait; and as the owner of a core, its state. *)
Record mx_ghost := MxGhost {
  mstk : stake;
  cstk : stake;
  claim : Z;
  boxes : Z;
  knows : knowledge;
  mode : option bool; (** a call of the thread in its callback, or not *)
  waits_cv : bool;    (** between giving up the mutex and having set the fields again *)
  asleep : bool;      (** without the mutex *)
  mview : bool * bool * Z;
  cview : bool;
}.

Definition mfine (alloc : bool) (x : bool * bool * Z) : Prop := x.1.1 = alloc /\ (alloc = true -> x.1.2 = true).
Definition cfine (alloc : bool) (x : bool) : Prop := x = alloc.

Section outline.
Context {P : platform} `{IDs : !Identities P}.

Definition known_fields (k : knowledge) (t : tid) (s : mutex_state) : Prop :=
  match k with
  | Nothing => True
  | Mine => m_held s = Some t /\ owner s = self P t
  | Locked => m_held s = Some t /\ locked s = 1 /\ owner s = self P t
  | Cleared => m_held s = Some t /\ owner s = 0
  end.

Definition has_mutex (s : mutex_state) (t : tid) : Z := b2z (bool_decide (m_held s = Some t)).
Definition claim_of (t : tid) (gs : gmap tid mx_ghost) : Z :=
  match gs !! t with Some g => claim g | None => 0 end.
Definition uses_mutex (t : tid) (g : mx_ghost) (s : mutex_state) : Prop :=
  1 <= weight (mstk g) \/ t ∈ callbacks s.

Record mx_inv (s : lS mutex) (gs : gmap tid mx_ghost) : Prop := {
  mx_m : counted mstk (m_life s) gs;
  mx_c : counted cstk (cv_life s) gs;
  mx_mk : known mstk mview mfine (m_life s) (m_ready s, value s, box s) gs;
  mx_ck : known cstk cview cfine (cv_life s) (cv_ready s) gs;
  mx_box : owners mstk gs = 0 ->
    box s = b2z (allocated (m_life s)) + Z.of_nat (length (callbacks s)) + msum boxes gs;
  mx_held t : has_mutex s t = cnt t (callbacks s) + claim_of t gs;
  mx_pins : pins (m_life s) = Z.of_nat (length (callbacks s)) /\ pins (cv_life s) = 0;
  mx_uses t g : gs !! t = Some g -> 0 <= boxes g /\
    (claim g <> 0 \/ 0 < boxes g \/ waits_cv g = true -> uses_mutex t g s) /\
    (waits_cv g = true -> 1 <= weight (cstk g)) /\ (asleep g = true -> waits_cv g = true);
  mx_mode t g b : gs !! t = Some g -> mode g = Some b -> in_callback t s = b;
  mx_knows t g : gs !! t = Some g -> known_fields (knows g) t s;
  mx_callback t : t ∈ callbacks s ->
    match gs !! t with
    | Some g => waits_cv g = true \/ knows g = Locked
    | None => known_fields Locked t s
    end;
  mx_owner t : owner s = self P t ->
    m_held s = Some t \/ exists g, gs !! t = Some g /\ asleep g = true;
  mx_waiting t : t ∈ waiting s -> exists g, gs !! t = Some g /\ asleep g = true;
}.

(** *** What the invariant gives *)

Section facts.
Context {s : lS mutex} {gs : gmap tid mx_ghost} {t : tid} {g : mx_ghost}.
Context (Hi : mx_inv s gs) (Hg : gs !! t = Some g).

Lemma mx_uses_total : uses_mutex t g s -> 0 < total mstk (m_life s) gs.
Proof.
  intros Hu. pose proof (counted_total_ge mstk _ gs t g (mx_m _ _ Hi) Hg).
  pose proof (counted_total_base mstk _ gs (mx_m _ _ Hi)).
  pose proof (counted_handles mstk _ gs (mx_m _ _ Hi)). pose proof (counted_pins mstk _ gs (mx_m _ _ Hi)).
  destruct Hu as [|Hu]; [lia|]. destruct (mx_pins _ _ Hi) as [Hp _].
  destruct (callbacks s); [by apply not_elem_of_nil in Hu|]. simpl in Hp. lia.
Qed.

(** Who uses the mutex finds it there. *)
Lemma mx_uses_mutex :
  uses_mutex t g s ->
  0 < total mstk (m_life s) gs /\ owners mstk gs = 0 /\ allocated (m_life s) = true /\
  1 <= refs (m_life s) /\ m_ready s = true /\ value s = true.
Proof.
  intros Hu%mx_uses_total. destruct (counted_alive mstk _ gs (mx_m _ _ Hi) Hu) as (Ho & Ha & Hr & _).
  destruct (known_shared _ _ _ _ _ _ (mx_mk _ _ Hi) Ho) as [Hrd Hv]. simpl in *.
  split_and!; try done; [lia|congruence|auto].
Qed.

Lemma mx_uses_cond :
  1 <= weight (cstk g) ->
  0 < total cstk (cv_life s) gs /\ owners cstk gs = 0 /\ allocated (cv_life s) = true /\
  1 <= refs (cv_life s) /\ cv_ready s = true.
Proof.
  intros Hw. pose proof (counted_total_ge cstk _ gs t g (mx_c _ _ Hi) Hg).
  pose proof (counted_handles cstk _ gs (mx_c _ _ Hi)). pose proof (counted_pins cstk _ gs (mx_c _ _ Hi)).
  destruct (counted_alive cstk _ gs (mx_c _ _ Hi)) as (Ho & Ha & Hr & _); [lia|].
  pose proof (known_shared _ _ _ _ _ _ (mx_ck _ _ Hi) Ho) as Hrd. unfold cfine in Hrd.
  split_and!; try done; [lia..|congruence].
Qed.

(** The owner of the core of the mutex is alone with it. *)
Lemma mx_owns_mutex z :
  mstk g = Owns z ->
  owners mstk gs = 1 /\ stake_ok (m_life s) (Owns z) /\ (m_ready s, value s, box s) = mview g /\
  m_held s = None /\ callbacks s = [] /\ msum boxes gs = 0.
Proof.
  intros Hs. destruct (counted_owner mstk _ gs t g z (mx_m _ _ Hi) Hg Hs) as (Ho & Ht & _ & _ & Hp0).
  destruct (mx_pins _ _ Hi) as [Hp _].
  assert (callbacks s = []) as Hcb by (destruct (callbacks s); simpl in *; [done|lia]).
  assert (forall t' g', gs !! t' = Some g' -> ~ uses_mutex t' g' s) as Hnu.
  { intros t' g' Hg' Hu. pose proof (counted_total_ge mstk _ gs t' g' (mx_m _ _ Hi) Hg').
    pose proof (counted_handles mstk _ gs (mx_m _ _ Hi)).
    destruct Hu as [|Hu]; [lia|]. rewrite Hcb in Hu. by apply not_elem_of_nil in Hu. }
  split_and!; [done| | | |done|].
  - rewrite <- Hs. apply (counted_ok mstk _ gs (mx_m _ _ Hi) t g Hg).
  - apply (known_owner _ _ _ _ _ _ (mx_mk _ _ Hi) t g Hg). by rewrite Hs.
  - destruct (m_held s) as [x|] eqn:Hx; [|done]. exfalso.
    pose proof (mx_held _ _ Hi x) as Hh. unfold has_mutex, claim_of in Hh.
    rewrite bool_decide_true, Hcb, cnt_empty in Hh by done. simpl in Hh.
    destruct (gs !! x) as [g'|] eqn:Hg'; [|lia].
    apply (Hnu x g' Hg'). apply (mx_uses _ _ Hi x g' Hg'). left. lia.
  - apply msum_zero. intros t' g' Hg'. destruct (mx_uses _ _ Hi t' g' Hg') as (Hb & Hu & _).
    destruct (Z.eqb_spec (boxes g') 0) as [|Hn]; [done|]. exfalso.
    apply (Hnu t' g' Hg'), Hu. right. left. lia.
Qed.

(** The last reference: only the core refers to the object. *)
Lemma mx_last n :
  mstk g = Holds n -> 1 <= n -> boxes g = 0 -> refs (m_life s) = 1 -> box s = 1.
Proof.
  intros Hs Hn Hb Hr. destruct mx_uses_mutex as (Ht & Ho & Ha & _); [left; by rewrite Hs|].
  destruct (counted_alive mstk _ gs (mx_m _ _ Hi) Ht) as (_ & _ & Hrt & _).
  pose proof (counted_total_ge mstk _ gs t g (mx_m _ _ Hi) Hg) as Hge. rewrite Hs in Hge. simpl in Hge.
  pose proof (counted_handles mstk _ gs (mx_m _ _ Hi)).
  destruct (mx_pins _ _ Hi) as [Hp _]. rewrite (mx_box _ _ Hi Ho), Ha.
  assert (callbacks s = []) as Hcb by (destruct (callbacks s); simpl in *; [done|lia]).
  rewrite Hcb, msum_zero; [done|]. intros t' g' Hg'.
  destruct (decide (t = t')) as [<-|Htt]; [congruence|].
  destruct (mx_uses _ _ Hi t' g' Hg') as (Hb' & Hu & _).
  destruct (Z.eqb_spec (boxes g') 0) as [|Hne]; [done|]. exfalso.
  pose proof (counted_total_two mstk _ gs t g t' g' (mx_m _ _ Hi) Hg Hg' Htt) as H2.
  rewrite Hs in H2. simpl in H2.
  destruct Hu as [|Hu]; [right; left; lia|lia|]. rewrite Hcb in Hu. by apply not_elem_of_nil in Hu.
Qed.

Lemma mx_owns_cond z :
  cstk g = Owns z ->
  owners cstk gs = 1 /\ stake_ok (cv_life s) (Owns z) /\ cv_ready s = cview g /\ waiting s = [].
Proof.
  intros Hs. destruct (counted_owner cstk _ gs t g z (mx_c _ _ Hi) Hg Hs) as (Ho & Ht & _ & _ & Hp0).
  split_and!; [done| | |].
  - rewrite <- Hs. apply (counted_ok cstk _ gs (mx_c _ _ Hi) t g Hg).
  - apply (known_owner _ _ _ _ _ _ (mx_ck _ _ Hi) t g Hg). by rewrite Hs.
  - destruct (waiting s) as [|x w] eqn:Hw; [done|]. exfalso.
    destruct (mx_waiting _ _ Hi x) as (g' & Hg' & Ha); [rewrite Hw; by constructor|].
    destruct (mx_uses _ _ Hi x g' Hg') as (_ & _ & Hc & Hwc).
    pose proof (counted_total_ge cstk _ gs x g' (mx_c _ _ Hi) Hg').
    pose proof (counted_handles cstk _ gs (mx_c _ _ Hi)). specialize (Hc (Hwc Ha)). lia.
Qed.

(** A claim is backed by the OS mutex. *)
Lemma mx_claimed : claim g = 1 -> m_held s = Some t /\ t ∉ callbacks s.
Proof.
  intros Hc. pose proof (mx_held _ _ Hi t) as Hh. unfold has_mutex, claim_of in Hh. rewrite Hg, Hc in Hh.
  pose proof (cnt_nonneg t (callbacks s)). case_bool_decide; simpl in Hh; [|lia].
  split; [done|]. rewrite cnt_pos. lia.
Qed.

(** Without a claim, and outside of a callback, a thread does not have it. *)
Lemma mx_unclaimed : claim g = 0 -> t ∉ callbacks s -> m_held s <> Some t.
Proof.
  intros Hc Hn Hs. pose proof (mx_held _ _ Hi t) as Hh. unfold has_mutex, claim_of in Hh.
  rewrite Hg, Hc, Hs, bool_decide_true, cnt_zero in Hh by done. done.
Qed.

Lemma mx_awake : asleep g = false -> t ∉ waiting s.
Proof. intros Ha Hw. destruct (mx_waiting _ _ Hi t Hw) as (g0 & ? & ?). congruence. Qed.

Lemma mx_box_pos : owners mstk gs = 0 -> allocated (m_life s) = true -> 1 + boxes g <= box s.
Proof.
  intros Ho Ha. rewrite (mx_box _ _ Hi Ho), Ha. simpl b2z.
  enough (boxes g <= msum boxes gs) by lia. apply (msum_ge boxes gs t); [|done].
  intros t' g' Hg'. by apply (mx_uses _ _ Hi t').
Qed.

(** A thread in a callback that waits for nothing has the mutex. *)
Lemma mx_in_callback t' : t' ∈ callbacks s -> claim_of t' gs = 0 -> m_held s = Some t'.
Proof.
  intros Hc%cnt_pos H0. pose proof (mx_held _ _ Hi t') as Hh. unfold has_mutex in Hh.
  case_bool_decide; simpl in Hh; [done|lia].
Qed.

Lemma mx_called_back : claim g = 0 -> t ∈ callbacks s -> m_held s = Some t.
Proof. intros Hc Hcb. apply (mx_in_callback t Hcb). unfold claim_of. by rewrite Hg. Qed.

(** The knowledge of others stands while this thread has the mutex. *)
Lemma known_fields_other s' t' k :
  t' <> t -> m_held s = Some t \/ m_held s = None ->
  known_fields k t' s -> known_fields k t' s'.
Proof. intros Ht Hm. destruct k; simpl; [done|..]; intros [? _]; destruct Hm; congruence. Qed.
End facts.

(** *** How steps keep the invariant *)

Section steps.
Implicit Types (s : lS mutex) (gs : gmap tid mx_ghost).

Lemma mx_step s s' gs t g g' :
  mx_inv s gs -> gs !! t = Some g ->
  counted mstk (m_life s') (<[t := g']> gs) -> counted cstk (cv_life s') (<[t := g']> gs) ->
  known mstk mview mfine (m_life s') (m_ready s', value s', box s') (<[t := g']> gs) ->
  known cstk cview cfine (cv_life s') (cv_ready s') (<[t := g']> gs) ->
  (owners mstk (<[t := g']> gs) = 0 ->
    box s' = b2z (allocated (m_life s')) + Z.of_nat (length (callbacks s)) + (msum boxes gs - boxes g + boxes g')) ->
  callbacks s' = callbacks s -> pins (m_life s') = pins (m_life s) -> pins (cv_life s') = pins (cv_life s) ->
  has_mutex s' t = has_mutex s t - claim g + claim g' ->
  (forall x, x <> t -> has_mutex s' x = has_mutex s x) ->
  0 <= boxes g' ->
  (claim g' <> 0 \/ 0 < boxes g' \/ waits_cv g' = true -> uses_mutex t g' s) ->
  (waits_cv g' = true -> 1 <= weight (cstk g')) -> (asleep g' = true -> waits_cv g' = true) ->
  mode g' = mode g ->
  known_fields (knows g') t s' ->
  (forall x k, x <> t -> known_fields k x s -> known_fields k x s') ->
  (t ∈ callbacks s -> waits_cv g' = true \/ knows g' = Locked) ->
  (forall x, owner s' = self P x -> m_held s' = Some x \/ (x = t /\ asleep g' = true) \/
     (x <> t /\ exists g0, gs !! x = Some g0 /\ asleep g0 = true)) ->
  (forall x, x ∈ waiting s' -> (x = t /\ asleep g' = true) \/ (x <> t /\ x ∈ waiting s)) ->
  mx_inv s' (<[t := g']> gs).
Proof.
  intros Hi Hg Hm Hc Hmk Hck Hbox Hcb Hpm Hpc Hh Hh' Hb Hu Hw Has Hmd Hk Hk' Hcbk Hown Hwait.
  split; try done.
  - intros Ho. rewrite (Hbox Ho), Hcb, (msum_insert boxes gs t g g' Hg). lia.
  - intros x. rewrite Hcb. pose proof (mx_held _ _ Hi x) as Hx. unfold claim_of in *.
    destruct (decide (x = t)) as [->|Hxt]; simplify_map_eq; [lia|]. by rewrite Hh', Hx.
  - rewrite Hcb, Hpm, Hpc. apply Hi.
  - intros x g0. destruct (decide (x = t)) as [->|Hxt]; simplify_map_eq.
    + intros [= <-]. unfold uses_mutex in *. by rewrite Hcb.
    + intros Hg0. unfold uses_mutex. rewrite Hcb. by apply (mx_uses _ _ Hi x).
  - intros x g0 b. unfold in_callback. rewrite Hcb.
    destruct (decide (x = t)) as [->|Hxt]; simplify_map_eq; [|by apply (mx_mode _ _ Hi x)].
    intros [= <-]. rewrite Hmd. by apply (mx_mode _ _ Hi t g).
  - intros x g0. destruct (decide (x = t)) as [->|Hxt]; simplify_map_eq; [by intros [= <-]|].
    intros Hg0. apply Hk'; [done|]. by apply (mx_knows _ _ Hi x).
  - intros x. rewrite Hcb. intros Hx.
    destruct (decide (x = t)) as [->|Hxt]; simplify_map_eq; [by apply Hcbk|].
    pose proof (mx_callback _ _ Hi x Hx) as H. destruct (gs !! x); [done|]. by apply (Hk' x Locked).
  - intros x Hx. destruct (Hown x Hx) as [|[[-> ?]|[? (g0 & ? & ?)]]]; [by left|right..].
    + exists g'. by simplify_map_eq.
    + exists g0. by simplify_map_eq.
  - intros x Hx. destruct (Hwait x Hx) as [[-> ?]|[? Hx']].
    + exists g'. by simplify_map_eq.
    + destruct (mx_waiting _ _ Hi x Hx') as (g0 & ? & ?). exists g0. by simplify_map_eq.
Qed.

(** A step that leaves alone who has the mutex, its fields and who waits. *)
Lemma mx_step_quiet s s' gs t g g' :
  mx_inv s gs -> gs !! t = Some g ->
  counted mstk (m_life s') (<[t := g']> gs) -> counted cstk (cv_life s') (<[t := g']> gs) ->
  known mstk mview mfine (m_life s') (m_ready s', value s', box s') (<[t := g']> gs) ->
  known cstk cview cfine (cv_life s') (cv_ready s') (<[t := g']> gs) ->
  (owners mstk (<[t := g']> gs) = 0 ->
    box s' = b2z (allocated (m_life s')) + Z.of_nat (length (callbacks s)) + (msum boxes gs - boxes g + boxes g')) ->
  pins (m_life s') = pins (m_life s) -> pins (cv_life s') = pins (cv_life s) ->
  callbacks s' = callbacks s -> m_held s' = m_held s -> owner s' = owner s -> locked s' = locked s ->
  waiting s' = waiting s -> claim g' = claim g -> knows g' = knows g -> mode g' = mode g ->
  waits_cv g' = waits_cv g -> asleep g' = asleep g -> 0 <= boxes g' ->
  (claim g' <> 0 \/ 0 < boxes g' \/ waits_cv g' = true -> uses_mutex t g' s) ->
  (waits_cv g' = true -> 1 <= weight (cstk g')) ->
  mx_inv s' (<[t := g']> gs).
Proof.
  intros Hi Hg Hm Hc Hmk Hck Hbox Hpm Hpc Hcb Hh Hown Hlk Hwt Hcl Hkn Hmd Hw Ha Hb Hu Huc.
  assert (forall x k, known_fields k x s -> known_fields k x s') as Hkf.
  { intros x []; simpl; by rewrite ?Hh, ?Hown, ?Hlk. }
  apply mx_step with s g; try done.
  - unfold has_mutex. rewrite Hh, Hcl. lia.
  - intros x _. unfold has_mutex. by rewrite Hh.
  - rewrite Ha, Hw. apply (mx_uses _ _ Hi t g Hg).
  - rewrite Hkn. apply Hkf, (mx_knows _ _ Hi t g Hg).
  - auto.
  - intros Hx. rewrite Hw, Hkn. pose proof (mx_callback _ _ Hi t Hx) as H. by rewrite Hg in H.
  - intros x. rewrite Hown, Hh, Ha. intros Hx. destruct (mx_owner _ _ Hi x Hx) as [|(g0 & Hg0 & H0)]; [by left|right].
    destruct (decide (x = t)) as [->|]; [left|right; by eauto]. naive_solver.
  - intros x. rewrite Hwt, Ha. intros Hx. destruct (decide (x = t)) as [->|]; [left|by right].
    destruct (mx_waiting _ _ Hi t Hx) as (g0 & ? & ?). naive_solver.
Qed.

(** A step on the core of the mutex, by a call that does not have the mutex. *)
Lemma mx_step_m s gs t g m v c :
  mx_inv s gs -> gs !! t = Some g -> claim g = 0 -> boxes g = 0 -> waits_cv g = false ->
  let g' := MxGhost m (cstk g) 0 0 (knows g) (mode g) false (asleep g) v (cview g) in
  counted mstk c (<[t := g']> gs) ->
  known mstk mview mfine c (m_ready s, value s, box s) (<[t := g']> gs) ->
  (owners mstk (<[t := g']> gs) = 0 ->
     box s = b2z (allocated c) + Z.of_nat (length (callbacks s)) + msum boxes gs) ->
  pins c = pins (m_life s) ->
  mx_inv (set m_lens c s) (<[t := g']> gs).
Proof.
  intros Hi Hg Hcl Hbx Hw g' Hc Hk Hbox Hp.
  apply mx_step_quiet with s g; try done; simpl.
  - by apply (counted_same cstk) with g; [apply Hi|..].
  - by apply known_keep with g; [apply Hi|..].
  - rewrite Hbx. intros Ho. rewrite (Hbox Ho). lia.
  - intros [?|[?|?]]; [done|lia|done].
Qed.

(** A step on the core of the condition variable, by a call that does not wait. *)
Lemma mx_step_c s gs t g m v c :
  mx_inv s gs -> gs !! t = Some g -> claim g = 0 -> boxes g = 0 -> waits_cv g = false ->
  let g' := MxGhost (mstk g) m 0 0 (knows g) (mode g) false (asleep g) (mview g) v in
  counted cstk c (<[t := g']> gs) ->
  known cstk cview cfine c (cv_ready s) (<[t := g']> gs) ->
  pins c = pins (cv_life s) ->
  mx_inv (set cv_lens c s) (<[t := g']> gs).
Proof.
  intros Hi Hg Hcl Hbx Hw g' Hc Hk Hp.
  apply mx_step_quiet with s g; try done; simpl.
  - by apply (counted_same mstk) with g; [apply Hi|..].
  - by apply known_keep with g; [apply Hi|..].
  - rewrite Hbx, (owners_insert mstk gs t g g' Hg). simpl. intros Ho.
    rewrite (mx_box _ _ Hi); lia.
  - intros [?|[?|?]]; [done|lia|done].
Qed.

(** Who has the mutex changes its fields and the references to the object. *)
Lemma mx_step_fields s gs t g o l b bx kn w :
  mx_inv s gs -> gs !! t = Some g -> m_held s = Some t -> uses_mutex t g s -> asleep g = false ->
  let s' := with_value (value s) b (with_owner o l s) in
  let g' := MxGhost (mstk g) (cstk g) (claim g) bx kn (mode g) w false (mview g) (cview g) in
  b = box s - boxes g + bx -> 0 <= bx -> (o = owner s \/ o = self P t \/ o = 0) ->
  known_fields kn t s' -> (w = true -> waits_cv g = true) ->
  (t ∈ callbacks s -> w = true \/ kn = Locked) ->
  mx_inv s' (<[t := g']> gs).
Proof.
  intros Hi Hg Hm Hu Ha s' g' Hb Hbx Ho Hkn Hw Hcb.
  destruct (mx_uses_mutex Hi Hg Hu) as (_ & H0 & Hal & _ & Hrd & Hv).
  apply mx_step with s g; try done; simpl.
  - by apply (counted_same mstk) with g; [apply Hi|..].
  - by apply (counted_same cstk) with g; [apply Hi|..].
  - apply (known_change _ _ _ (m_life s) _ (m_ready s, value s, box s)) with g; try done; [apply Hi|].
    pose proof (owners_ge mstk gs t g Hg). destruct (owned_cases (mstk g)); simpl; lia.
  - by apply known_keep with g; [apply Hi|..].
  - intros _. rewrite Hb, (mx_box _ _ Hi H0). lia.
  - unfold has_mutex. simpl. lia.
  - intros Hw'. by apply (mx_uses _ _ Hi t g Hg), Hw.
  - intros x k Hx. apply (known_fields_other (t := t)); auto.
  - intros x Hx. destruct (decide (x = t)) as [->|Hxt]; [by left|].
    destruct Ho as [->|[->| ->]].
    + destruct (mx_owner _ _ Hi x Hx) as [|(g0 & ? & ?)]; [by left|]. right. right. eauto.
    + apply (inj (self P)) in Hx. congruence.
    + by apply self_nonzero in Hx.
  - intros x Hx. right. split; [|done]. intros ->.
    destruct (mx_waiting _ _ Hi t Hx) as (g0 & ? & ?). congruence.
Qed.

(** The mutex is taken. *)
Lemma mx_step_lock s gs t g wt r :
  mx_inv s gs -> gs !! t = Some g -> m_held s = None -> uses_mutex t g s ->
  let s' := with_cond r wt (with_mutex (OsMutex true (Some t) false) s) in
  let g' := MxGhost (mstk g) (cstk g) (claim g + 1) (boxes g) Nothing (mode g) (waits_cv g) false
              (mview g) (cview g) in
  r = cv_ready s -> (forall x, x ∈ wt -> x <> t /\ x ∈ waiting s) ->
  (t ∈ callbacks s -> waits_cv g = true) ->
  mx_inv s' (<[t := g']> gs).
Proof.
  intros Hi Hg Hm Hu s' g' -> Hwt Hcb.
  destruct (mx_uses_mutex Hi Hg Hu) as (_ & H0 & Hal & _ & Hrd & Hv).
  pose proof (mx_uses _ _ Hi t g Hg) as (? & ? & ? & ?).
  apply mx_step with s g; try done; simpl.
  - by apply (counted_same mstk) with g; [apply Hi|..].
  - by apply (counted_same cstk) with g; [apply Hi|..].
  - rewrite <- Hrd. by apply known_keep with g; [apply Hi|..].
  - by apply known_keep with g; [apply Hi|..].
  - intros _. rewrite (mx_box _ _ Hi H0). lia.
  - unfold has_mutex. simpl. rewrite Hm. repeat case_bool_decide; simplify_eq. simpl. lia.
  - intros x Hx. unfold has_mutex. simpl. rewrite Hm. by repeat case_bool_decide; simplify_eq.
  - intros x k Hx. apply (known_fields_other (t := t)); auto.
  - intros Hx. left. auto.
  - intros x Hx. destruct (decide (x = t)) as [->|Hxt]; [by left|].
    destruct (mx_owner _ _ Hi x Hx) as [|(g0 & ? & ?)]; [congruence|]. right. right. eauto.
  - intros x Hx. right. by apply Hwt.
Qed.

(** The mutex is given up, after its owner was cleared or to wait. *)
Lemma mx_step_give s gs t g wt r st a :
  mx_inv s gs -> gs !! t = Some g -> m_held s = Some t -> uses_mutex t g s ->
  let s' := with_cond r wt (with_mutex (OsMutex true None st) s) in
  let g' := MxGhost (mstk g) (cstk g) (claim g - 1) (boxes g) Nothing (mode g) a a
              (mview g) (cview g) in
  r = cv_ready s -> (forall x, x ∈ wt -> (x = t /\ a = true) \/ (x <> t /\ x ∈ waiting s)) ->
  (a = true \/ owner s = 0 /\ t ∉ callbacks s) -> (a = true -> 1 <= weight (cstk g)) ->
  mx_inv s' (<[t := g']> gs).
Proof.
  intros Hi Hg Hm Hu s' g' -> Hwt Hor Hc.
  destruct (mx_uses_mutex Hi Hg Hu) as (_ & H0 & Hal & _ & Hrd & Hv).
  pose proof (mx_uses _ _ Hi t g Hg) as (? & ? & ? & ?).
  apply mx_step with s g; try done; simpl.
  - by apply (counted_same mstk) with g; [apply Hi|..].
  - by apply (counted_same cstk) with g; [apply Hi|..].
  - rewrite <- Hrd. by apply known_keep with g; [apply Hi|..].
  - by apply known_keep with g; [apply Hi|..].
  - intros _. rewrite (mx_box _ _ Hi H0). lia.
  - unfold has_mutex. simpl. rewrite Hm. repeat case_bool_decide; simplify_eq. simpl. lia.
  - intros x Hx. unfold has_mutex. simpl. rewrite Hm. by repeat case_bool_decide; simplify_eq.
  - intros x k Hx. apply (known_fields_other (t := t)); auto.
  - intros Hx. left. destruct Hor as [|[_ ?]]; done.
  - intros x Hx. destruct (decide (x = t)) as [->|Hxt].
    + destruct Hor as [Ha|[Ho _]]; [by right; left|]. rewrite Ho in Hx. by apply self_nonzero in Hx.
    + destruct (mx_owner _ _ Hi x Hx) as [|(g0 & ? & ?)]; [congruence|]. right. right. eauto.
Qed.

(** A call starts. *)
Lemma mx_call s s' gs t g :
  mx_inv s gs -> gs !! t = None ->
  counted mstk (m_life s') (<[t := g]> gs) -> counted cstk (cv_life s') (<[t := g]> gs) ->
  known mstk mview mfine (m_life s') (m_ready s', value s', box s') (<[t := g]> gs) ->
  known cstk cview cfine (cv_life s') (cv_ready s') (<[t := g]> gs) ->
  (owners mstk (<[t := g]> gs) = 0 ->
    box s' = b2z (allocated (m_life s')) + Z.of_nat (length (callbacks s')) + (msum boxes gs + boxes g)) ->
  pins (m_life s') = Z.of_nat (length (callbacks s')) -> pins (cv_life s') = 0 ->
  m_held s' = m_held s -> owner s' = owner s -> locked s' = locked s -> waiting s' = waiting s ->
  (forall x, cnt x (callbacks s) = cnt x (callbacks s') + (if decide (x = t) then claim g else 0)) ->
  0 <= boxes g -> waits_cv g = false -> asleep g = false ->
  (claim g <> 0 \/ 0 < boxes g -> uses_mutex t g s') ->
  (forall b, mode g = Some b -> in_callback t s' = b) ->
  known_fields (knows g) t s -> (t ∈ callbacks s' -> knows g = Locked) ->
  mx_inv s' (<[t := g]> gs).
Proof.
  intros Hi Hg Hm Hc Hmk Hck Hbox Hpm Hpc Hh Hown Hlk Hwt Hcb Hb Hw Ha Hu Hmd Hkn Hcbk.
  assert (forall x k, known_fields k x s -> known_fields k x s') as Hkf.
  { intros x []; simpl; by rewrite ?Hh, ?Hown, ?Hlk. }
  assert (forall x, x <> t -> x ∈ callbacks s' <-> x ∈ callbacks s) as Hcb'.
  { intros x Hx. rewrite !cnt_pos, Hcb, decide_False by done. by rewrite Z.add_0_r. }
  split; try done.
  - intros Ho. rewrite (Hbox Ho), (msum_new boxes gs t g Hg). lia.
  - intros x. pose proof (mx_held _ _ Hi x) as Hx. unfold claim_of, has_mutex in *. rewrite Hh, Hx, Hcb.
    destruct (decide (x = t)) as [->|]; simplify_map_eq; rewrite ?Hg; lia.
  - intros x g0. destruct (decide (x = t)) as [->|Hxt]; simplify_map_eq.
    + intros [= <-]. rewrite Hw, Ha. split_and!; try done. intros [?|[?|?]]; [apply Hu; auto..|done].
    + intros Hg0. unfold uses_mutex. rewrite Hcb' by done. by apply (mx_uses _ _ Hi x).
  - intros x g0 b. destruct (decide (x = t)) as [->|Hxt]; simplify_map_eq; [intros [= <-]; apply Hmd|].
    intros Hg0 Hb0. pose proof (mx_mode _ _ Hi x g0 b Hg0 Hb0) as <-.
    apply bool_decide_ext. by apply Hcb'.
  - intros x g0. destruct (decide (x = t)) as [->|Hxt]; simplify_map_eq.
    + intros [= <-]. by apply Hkf.
    + intros Hg0. apply Hkf. by apply (mx_knows _ _ Hi x).
  - intros x Hx. destruct (decide (x = t)) as [->|Hxt]; simplify_map_eq; [right; by apply Hcbk|].
    apply Hcb' in Hx; [|done]. pose proof (mx_callback _ _ Hi x Hx) as H.
    destruct (gs !! x); [done|]. by apply (Hkf x Locked).
  - intros x. rewrite Hown, Hh. intros Hx. destruct (mx_owner _ _ Hi x Hx) as [|(g0 & ? & ?)]; [by left|right].
    exists g0. split; [|done]. rewrite lookup_insert_ne; [done|]. intros ->. congruence.
  - intros x. rewrite Hwt. intros Hx. destruct (mx_waiting _ _ Hi x Hx) as (g0 & ? & ?).
    exists g0. split; [|done]. rewrite lookup_insert_ne; [done|]. intros ->. congruence.
Qed.

(** A call returns. *)
Lemma mx_return s s' gs t g :
  mx_inv s gs -> gs !! t = Some g ->
  counted mstk (m_life s') (delete t gs) -> counted cstk (cv_life s') (delete t gs) ->
  known mstk mview mfine (m_life s') (m_ready s', value s', box s') (delete t gs) ->
  known cstk cview cfine (cv_life s') (cv_ready s') (delete t gs) ->
  (owners mstk (delete t gs) = 0 ->
    box s' = b2z (allocated (m_life s')) + Z.of_nat (length (callbacks s')) + (msum boxes gs - boxes g)) ->
  pins (m_life s') = Z.of_nat (length (callbacks s')) -> pins (cv_life s') = 0 ->
  m_held s' = m_held s -> owner s' = owner s -> locked s' = locked s -> waiting s' = waiting s ->
  (forall x, cnt x (callbacks s') = cnt x (callbacks s) + (if decide (x = t) then claim g else 0)) ->
  waits_cv g = false -> (t ∈ callbacks s' -> knows g = Locked) ->
  mx_inv s' (delete t gs).
Proof.
  intros Hi Hg Hm Hc Hmk Hck Hbox Hpm Hpc Hh Hown Hlk Hwt Hcb Hw Hcbk.
  assert (forall x k, known_fields k x s -> known_fields k x s') as Hkf.
  { intros x []; simpl; by rewrite ?Hh, ?Hown, ?Hlk. }
  assert (asleep g = false) as Ha.
  { destruct (asleep g) eqn:Ha; [|done]. apply (mx_uses _ _ Hi t g Hg) in Ha. congruence. }
  assert (forall x, x <> t -> x ∈ callbacks s' <-> x ∈ callbacks s) as Hcb'.
  { intros x Hx. rewrite !cnt_pos, Hcb, decide_False by done. by rewrite Z.add_0_r. }
  split; try done.
  - intros Ho. rewrite (Hbox Ho), (msum_delete boxes gs t g Hg). lia.
  - intros x. pose proof (mx_held _ _ Hi x) as Hx. unfold claim_of, has_mutex in *. rewrite Hh, Hx, Hcb.
    destruct (decide (x = t)) as [->|]; simplify_map_eq; rewrite ?Hg; lia.
  - intros x g0 [Hxt Hg0]%lookup_delete_Some. unfold uses_mutex. rewrite Hcb' by done.
    by apply (mx_uses _ _ Hi x).
  - intros x g0 b [Hxt Hg0]%lookup_delete_Some Hb0. pose proof (mx_mode _ _ Hi x g0 b Hg0 Hb0) as <-.
    apply bool_decide_ext. by apply Hcb'.
  - intros x g0 [Hxt Hg0]%lookup_delete_Some. apply Hkf. by apply (mx_knows _ _ Hi x).
  - intros x Hx. destruct (decide (x = t)) as [->|Hxt]; simplify_map_eq.
    + apply (Hkf t Locked). pose proof (mx_knows _ _ Hi t g Hg) as H. by rewrite (Hcbk Hx) in H.
    + apply Hcb' in Hx; [|done]. pose proof (mx_callback _ _ Hi x Hx) as H.
      destruct (gs !! x); [done|]. by apply (Hkf x Locked).
  - intros x. rewrite Hown, Hh. intros Hx. destruct (mx_owner _ _ Hi x Hx) as [|(g0 & ? & ?)]; [by left|right].
    exists g0. split; [|done]. rewrite lookup_delete_ne; [done|]. intros ->. congruence.
  - intros x. rewrite Hwt. intros Hx. destruct (mx_waiting _ _ Hi x Hx) as (g0 & ? & ?).
    exists g0. split; [|done]. rewrite lookup_delete_ne; [done|]. intros ->. congruence.
Qed.

(** A call that has neither the mutex nor the object returns. *)
Lemma mx_leave s gs t g m c :
  mx_inv s gs -> gs !! t = Some g -> claim g = 0 -> boxes g = 0 -> waits_cv g = false ->
  counted mstk m (delete t gs) -> counted cstk c (delete t gs) ->
  allocated m = allocated (m_life s) -> allocated c = allocated (cv_life s) ->
  pins m = pins (m_life s) -> pins c = pins (cv_life s) ->
  owned (mstk g) = 0 \/ mstk g = Owns None /\ (mview g).1.1 = false /\ (mview g).2 = 0 ->
  owned (cstk g) = 0 \/ cstk g = Owns None /\ cview g = false ->
  mx_inv (with_lives m c s) (delete t gs).
Proof.
  intros Hi Hg Hcl Hbx Hw Hm Hc Hma Hca Hpm Hpc Hom Hoc.
  apply mx_return with s g; try done; simpl.
  - apply known_return with (m_life s) g; [apply Hi|done..|].
    destruct Hom as [|(Hs & Hv & _)]; [by left|right].
    destruct (mx_owns_mutex Hi Hg _ Hs) as (_ & [Ha _] & He & _). rewrite He, Ha. by split.
  - apply known_return with (cv_life s) g; [apply Hi|done..|].
    destruct Hoc as [|(Hs & Hv)]; [by left|right].
    destruct (mx_owns_cond Hi Hg _ Hs) as (_ & [Ha _] & He & _). rewrite He, Ha, Hv. done.
  - rewrite (owners_delete mstk gs t g Hg), Hma, Hbx. intros Ho.
    destruct Hom as [Ho0|(Hs & Hv & Hv0)]; [rewrite (mx_box _ _ Hi); lia|].
    destruct (mx_owns_mutex Hi Hg _ Hs) as (_ & [Ha _] & He & _ & Hcb & Hb).
    rewrite Ha, Hcb, Hb. rewrite <- He in Hv0. simpl in *. lia.
  - rewrite Hpm. apply Hi.
  - rewrite Hpc. apply Hi.
  - intros x. rewrite Hcl. by destruct (decide (x = t)); rewrite Z.add_0_r.
  - intros Hx. pose proof (mx_callback _ _ Hi t Hx) as H. rewrite Hg, Hw in H. by destruct H.
Qed.
End steps.
End outline.
