(* ===== verification/MutexCalls.v ===== *)
(** MutexCalls: the functions of the mutex and of the condition variable keep the
    invariant of MutexInvariant. *)
From stdpp Require Import base gmap list.
From Stdlib Require Import ZArith Lia.
From S2P Require Import Prelude Interleave Platform Arc OsMutex Mutex MutexInvariant.

Section outline.
Context {P : platform} `{IDs : !Identities P}.
Abbreviation mx_inv := (@MutexInvariant.mx_inv P).
Abbreviation known_fields := (@MutexInvariant.known_fields P).


(** *** The outline *)

Definition call_ghost (m c : stake) (kn : knowledge) (md : option bool) : mx_ghost :=
  MxGhost m c 0 0 kn md false false (false, false, 0) false.

Definition mx_outline : outline mutex := {|
  ghost := mx_ghost;
  inv tr s gs := mx_inv (s : lS mutex) gs;
  opens t o g :=
    match o : lO mutex with
    | OpMutexNew => exists kn v, g = MxGhost (Owns None) (Holds 0) 0 0 kn None false false (false, v, 1) false
    | OpMutexShare => exists kn b, g = call_ghost (Holds (if b : bool then 0 else 1)) (Holds 0) kn (Some b)
    | OpMutexFinalize | OpLockGet => exists kn, g = call_ghost (Holds 1) (Holds 0) kn None
    | OpReleaseUnlock => g = MxGhost (Holds 1) (Holds 0) 1 1 Locked None false false (false, false, 0) false
    | OpCondNew => exists kn, g = call_ghost (Holds 0) (Owns None) kn None
    | OpCondShare | OpCondFinalize | OpNotifyOne | OpNotifyAll =>
        exists kn, g = call_ghost (Holds 0) (Holds 1) kn None
    | OpWait => g = call_ghost (Holds 0) (Holds 1) Locked (Some true)
    | OpWaitUnchecked => exists kn, g = call_ghost (Holds 1) (Holds 1) kn (Some false)
    | OpFailNextInit _ | OpFailNextCondInit _ | OpFailNextNotify _ =>
        exists kn, g = call_ghost (Holds 0) (Holds 0) kn None
    end;
  returns o es r :=
    match o : lO mutex, r : lR mutex with
    | (OpMutexNew | OpCondNew), RNew st h => reports es st /\ h = (st =? 0)
    | OpLockGet, RBox st b => reports es st /\ b = (st =? 0)
    | (OpReleaseUnlock | OpNotifyOne | OpNotifyAll | OpWait), RStatus st => reports es st
    | OpWaitUnchecked, RStatus st => st = -1 /\ Forall (eq (@Effect mutex Unsynchronised)) es
    | (OpMutexShare | OpCondShare), RHandle => es = []
    | (OpMutexFinalize | OpCondFinalize), RVoid => es = []
    | (OpFailNextInit _ | OpFailNextCondInit _ | OpFailNextNotify _), RVoid => es = []
    | _, _ => False
    end;
  aborts o es g := exists st es', es = Failed st :: es';
  waits o s gs t g :=
    match o : lO mutex with
    | OpLockGet => free_mutex (os s) = false
    | OpWait => t ∈ waiting s \/ free_mutex (os s) = false
    | OpNotifyOne => waiting s <> []
    | _ => MAX_REFS <= refs (m_life s) \/ MAX_REFS <= refs (cv_life s)
    end;
|}.

Section programs.

Abbreviation keeps := (keeps mutex_code mx_outline).
Implicit Types (t : tid) (o : lO mutex).

Lemma mx_keeps_hook t o h k es g :
  (forall st, keeps t o (k st) (es ++ fails st) g) ->
  keeps t o (take_test_error h k) es g.
Proof.
  intros Hk tr s gs a v Hi Hg. exists g. split; [|apply Hk].
  pose proof (mx_uses _ _ Hi t g Hg) as (? & ? & ? & ?).
  apply mx_step_quiet with s g; try done; try (rewrite insert_id by done; apply Hi).
  rewrite insert_id by done. intros Ho. simpl. rewrite (mx_box _ _ Hi Ho). lia.
Qed.

(** Steps on the core of the mutex by a call that has a reference. *)
Lemma mx_keeps_m_wrap t o n c kn md k es :
  0 <= n -> keeps t o k es (call_ghost (Holds n) c kn md) ->
  keeps t o (sync_mutex_wrap k) es (call_ghost (Holds (n + 1)) c kn md).
Proof.
  intros Hn Hk. apply keeps_on_core. intros tr s gs Hi Hg.
  destruct (mx_uses_mutex Hi Hg) as (Ht & Ho & Ha & _); [left; simpl; lia|]. split; [done|].
  exists (call_ghost (Holds n) c kn md). split; [|done].
  apply (mx_step_m s gs t (call_ghost (Holds (n + 1)) c kn md) (Holds n) (false, false, 0)); try done; simpl.
  - by eapply counted_handle; [apply Hi|..].
  - by apply known_same with (m_life s) (call_ghost (Holds (n + 1)) c kn md); [apply Hi|..].
  - intros _. rewrite (mx_box _ _ Hi Ho), Ha. done.
Qed.

Lemma mx_keeps_m_inc t n c kn md k es :
  0 <= n -> n = 1 \/ md = Some true ->
  keeps t OpMutexShare k es (call_ghost (Holds (n + 1)) c kn md) ->
  keeps t OpMutexShare (sync_arc_inc m_lens k) es (call_ghost (Holds n) c kn md).
Proof.
  intros Hn Hor Hk. apply keeps_on_core. intros tr s gs Hi Hg.
  destruct (mx_uses_mutex Hi Hg) as (Ht & Ho & Ha & Hr & _).
  { destruct Hor as [->| ->]; [by left|]. right.
    pose proof (mx_mode _ _ Hi t _ true Hg eq_refl) as H. by apply bool_decide_eq_true in H. }
  split; [done|]. destruct (Z.ltb_spec (refs (get m_lens s)) 1); [simpl in *; lia|].
  destruct (Z.ltb_spec (refs (get m_lens s)) MAX_REFS); [|by left].
  exists (call_ghost (Holds (n + 1)) c kn md). split; [|done].
  apply (mx_step_m s gs t (call_ghost (Holds n) c kn md) (Holds (n + 1)) (false, false, 0)); try done; simpl.
  - by eapply counted_inc; [apply Hi|..].
  - by apply known_same with (m_life s) (call_ghost (Holds n) c kn md); [apply Hi|..].
  - intros _. rewrite (mx_box _ _ Hi Ho), Ha. done.
Qed.

Lemma mx_keeps_share t kn b :
  keeps t OpMutexShare sync_mutex_share []
    (call_ghost (Holds (if b : bool then 0 else 1)) (Holds 0) kn (Some b)).
Proof.
  apply mx_keeps_m_inc; [by destruct b|destruct b; auto|].
  apply mx_keeps_m_wrap; [by destruct b|]. split; [done|]. intros tr s gs Hi Hg. simpl. unfold m_return.
  rewrite (mx_mode _ _ Hi t _ b Hg eq_refl). destruct b.
  - replace s with (with_lives (m_life s) (cv_life s) s) at 1 by by destruct s.
    eapply mx_leave; try done; [..|by left|by left].
    + eapply counted_return; [apply Hi|done|by left].
    + eapply counted_return; [apply Hi|done|by left].
  - destruct (mx_uses_mutex Hi Hg) as (_ & Ho & Ha & _); [by left|].
    eapply mx_leave; try done; [..|by left|by left].
    + by eapply counted_give_back; [apply Hi|..].
    + eapply counted_return; [apply Hi|done|by left].
Qed.

(** A call that leaves nothing behind. *)
Lemma mx_keeps_done t o r es g :
  (forall s, leave mutex_code t o r s = s) -> returns mx_outline o es r ->
  claim g = 0 -> boxes g = 0 -> waits_cv g = false ->
  mstk g = Holds 0 \/ mstk g = Owns None /\ (mview g).1.1 = false /\ (mview g).2 = 0 ->
  cstk g = Holds 0 \/ cstk g = Owns None /\ cview g = false ->
  keeps t o (Ret r) es g.
Proof.
  intros Hl Hr Hcl Hb Hw Hm Hc. split; [done|]. intros tr s gs Hi Hg. rewrite Hl.
  replace s with (with_lives (m_life s) (cv_life s) s) by by destruct s.
  apply mx_leave with g; try done.
  - apply counted_return with g; [apply Hi|done|]. destruct Hm as [|[? _]]; auto.
  - apply counted_return with g; [apply Hi|done|]. destruct Hc as [|[? _]]; auto.
  - destruct Hm as [->|?]; auto.
  - destruct Hc as [->|?]; auto.
Qed.

(** What the owner of the core of the mutex does. *)
Definition m_owner (z : option Z) (kn : knowledge) (ready v : bool) (b : Z) : mx_ghost :=
  MxGhost (Owns z) (Holds 0) 0 0 kn None false false (ready, v, b) false.

Lemma mx_step_owner s s' gs t z kn x x' :
  mx_inv s gs -> gs !! t = Some (m_owner (Some z) kn x.1.1 x.1.2 x.2) ->
  m_life s' = m_life s -> cv_life s' = cv_life s -> cv_ready s' = cv_ready s ->
  callbacks s' = callbacks s -> m_held s' = m_held s -> owner s' = owner s ->
  locked s' = locked s -> waiting s' = waiting s -> (m_ready s', value s', box s') = x' ->
  mx_inv s' (<[t := m_owner (Some z) kn x'.1.1 x'.1.2 x'.2]> gs).
Proof.
  intros Hi Hg Hm Hc Hrd Hcb Hh Ho Hl Hw Hx.
  destruct (mx_owns_mutex Hi Hg _ eq_refl) as (Hown & _).
  apply mx_step_quiet with s (m_owner (Some z) kn x.1.1 x.1.2 x.2); rewrite ?Hm, ?Hc; try done; simpl.
  - by apply (counted_same mstk) with (m_owner (Some z) kn x.1.1 x.1.2 x.2); [apply Hi|..].
  - by apply (counted_same cstk) with (m_owner (Some z) kn x.1.1 x.1.2 x.2); [apply Hi|..].
  - apply known_own with (m_owner (Some z) kn x.1.1 x.1.2 x.2); try done. rewrite Hx. by destruct x' as [[]].
  - rewrite Hrd. by apply known_keep with (m_owner (Some z) kn x.1.1 x.1.2 x.2); [apply Hi|..].
  - rewrite (owners_insert mstk gs t _ _ Hg). simpl. lia.
  - intros [?|[?|?]]; [done|lia|done].
Qed.

Lemma mx_step_zeroed s gs t kn v :
  mx_inv s gs -> gs !! t = Some (m_owner None kn false v 1) ->
  mx_inv (set m_lens (Life 0 true (shared (m_life s)) (handles (m_life s)) (pins (m_life s)) (made (m_life s)))
    (m_zeroed s)) (<[t := m_owner (Some 0) kn false false 1]> gs).
Proof.
  intros Hi Hg.
  destruct (mx_owns_mutex Hi Hg _ eq_refl) as (Ho & [Ha Hsh] & [= Hrd Hv Hbx] & Hh & Hcb & Hb).
  apply mx_step with s (m_owner None kn false v 1); try done; simpl.
  - by eapply counted_alloc; [apply Hi|..].
  - by apply (counted_same cstk) with (m_owner None kn false v 1); [apply Hi|..].
  - apply known_own with (m_owner None kn false v 1); try done. simpl. congruence.
  - by apply known_keep with (m_owner None kn false v 1); [apply Hi|..].
  - rewrite (owners_insert mstk gs t _ _ Hg). simpl. lia.
  - unfold has_mutex. simpl. lia.
  - intros [?|[?|?]]; [done|lia|done].
  - pose proof (mx_knows _ _ Hi t _ Hg) as Hk. simpl in Hk. destruct kn; simpl in *; [done|destruct Hk; congruence..].
  - intros x k Hx. apply (known_fields_other (t := t)); auto.
  - rewrite Hcb. by intros ?%not_elem_of_nil.
  - intros x Hx. by apply self_nonzero in Hx.
  - intros x Hx. right. split; [|done]. intros ->.
    destruct (mx_waiting _ _ Hi t Hx) as (g0 & ? & ?). simplify_map_eq.
Qed.

Lemma mx_keeps_m_free t o r es z kn v :
  (forall s, leave mutex_code t o r s = s) -> returns mx_outline o es r ->
  keeps t o (free m_lens (Ret r)) es (m_owner (Some z) kn false v 0).
Proof.
  intros Hl Hr. apply keeps_on_core. intros tr s gs Hi Hg.
  destruct (mx_owns_mutex Hi Hg _ eq_refl) as (Ho & (Ha & Hsh & _) & He & _ & Hcb & Hb).
  split; [done|]. simpl. rewrite Hsh. exists (m_owner None kn false v 0). split.
  - apply (mx_step_m s gs t (m_owner (Some z) kn false v 0) (Owns None) (false, v, 0)); try done; simpl.
    + by eapply counted_free; [apply Hi|..].
    + by apply known_own with (m_owner (Some z) kn false v 0).
    + rewrite (owners_insert mstk gs t _ _ Hg). simpl. lia.
  - apply mx_keeps_done; try done; [by right|by left].
Qed.

Lemma mx_keeps_m_destroy t z kn v :
  keeps t OpMutexFinalize (sync_os_mutex_destroy m_lens os_lens (fun st =>
      sync_mutex_abort_if_failed st (free m_lens (Ret RVoid)))) [] (m_owner (Some z) kn true v 0).
Proof.
  apply keeps_os_call. intros tr s gs a v' Hi Hg.
  destruct (mx_owns_mutex Hi Hg _ eq_refl) as (Ho & (Ha & Hsh & _) & [= Hrd Hv Hbx] & Hh & Hcb & Hb).
  unfold private. cbn [get set m_lens os_lens]. rewrite Ha, Hsh, Hrd, Hh. simpl. unfold sync_mutex_abort_if_failed, fails.
  destruct (Z.eqb_spec a 0) as [->|Hne].
  - exists (m_owner (Some z) kn false v 0). split; [|by apply mx_keeps_m_free].
    apply (mx_step_owner s _ gs t z kn (true, v, 0) (false, v, 0)); try done. simpl. congruence.
  - exists (m_owner (Some z) kn true v 0). rewrite insert_id by done.
    split; [done|]. by exists a, [].
Qed.

Lemma mx_keeps_decref_owner t o k es z kn r v :
  keeps t o k es (m_owner (Some z) kn r v 0) ->
  keeps t o (moonbit_decref k) es (m_owner (Some z) kn r v 1).
Proof.
  intros Hk tr s gs a v' Hi Hg.
  destruct (mx_owns_mutex Hi Hg _ eq_refl) as (_ & (Ha & Hsh & _) & [= Hrd Hv Hbx] & _).
  unfold may_write. rewrite Ha, Hsh, Hbx, orb_true_r. simpl.
  exists (m_owner (Some z) kn r v 0). rewrite !app_nil_r. split; [|done].
  apply (mx_step_owner s _ gs t z kn (r, v, 1) (r, v, 0)); try done. simpl. by rewrite Hrd, Hv.
Qed.

Lemma mx_keeps_finalize t kn :
  keeps t OpMutexFinalize sync_mutex_finalize [] (call_ghost (Holds 1) (Holds 0) kn None).
Proof.
  apply keeps_on_core. intros tr s gs Hi Hg.
  destruct (mx_uses_mutex Hi Hg) as (Ht & Ho & Ha & Hr & Hrd & Hv); [by left|]. split; [done|].
  destruct (Z.ltb_spec (refs (get m_lens s)) 1); [simpl in *; lia|].
  destruct (refs (get m_lens s) - 1 =? 0) eqn:Hz.
  - assert (box s = 1) as Hb.
    { apply (mx_last Hi Hg 1); try done. apply Z.eqb_eq in Hz. simpl in Hz. lia. }
    exists (m_owner (Some 0) kn true true 1). split.
    + apply (mx_step_m s gs t (call_ghost (Holds 1) (Holds 0) kn None) (Owns (Some 0)) (true, true, 1));
        try done; simpl.
      * eapply counted_dec; [apply Hi|done|done|done|]. simpl in *. by rewrite Hz.
      * apply known_own with (call_ghost (Holds 1) (Holds 0) kn None); try done. simpl. congruence.
      * rewrite (owners_insert mstk gs t _ _ Hg). simpl. lia.
    + clear. intros tr s gs a v' Hi Hg.
      destruct (mx_owns_mutex Hi Hg _ eq_refl) as (_ & (Ha & Hsh & _) & [= Hrd Hv Hbx] & _).
      unfold private. rewrite Ha, Hsh, Hv. exists (m_owner (Some 0) kn true true 1).
      rewrite insert_id by done. rewrite app_nil_r. split; [done|].
      apply mx_keeps_decref_owner, mx_keeps_m_destroy.
  - exists (call_ghost (Holds 0) (Holds 0) kn None). split.
    + apply (mx_step_m s gs t (call_ghost (Holds 1) (Holds 0) kn None) (Holds 0) (false, false, 0));
        try done; simpl.
      * eapply counted_dec; [apply Hi|done|done|done|]. simpl in *. by rewrite Hz.
      * by apply known_same with (m_life s) (call_ghost (Holds 1) (Holds 0) kn None); [apply Hi|..].
      * intros _. rewrite (mx_box _ _ Hi Ho), Ha. done.
    + apply mx_keeps_done; try done; by left.
Qed.

Lemma mx_keeps_new_finish t kn st :
  let es := fails st in let r := bool_decide (st = 0) in
  keeps t OpMutexNew
    (if negb (st =? 0) then moonbit_decref (free m_lens (Ret (RNew st false)))
     else sync_mutex_wrap (Ret (RNew st true))) es (m_owner (Some 1) kn r true 1).
Proof.
  simpl. unfold fails. destruct (Z.eqb_spec st 0) as [->|Hn]; simpl.
  - apply keeps_on_core. intros tr s gs Hi Hg.
    destruct (mx_owns_mutex Hi Hg _ eq_refl) as (Ho & (Ha & Hsh & _) & [= Hrd Hv Hbx] & _ & Hcb & Hb).
    split; [done|]. exists (MxGhost (Holds 0) (Holds 0) 0 0 kn None false false (true, true, 1) false). split.
    + apply (mx_step_m s gs t (m_owner (Some 1) kn true true 1) (Holds 0) (true, true, 1)); try done; simpl.
      * by eapply counted_publish; [apply Hi|..].
      * by apply known_publish with (m_owner (Some 1) kn true true 1).
      * intros _. by rewrite Hbx, Hcb, Hb.
    + apply mx_keeps_done; try done; by left.
  - rewrite bool_decide_false by done. apply mx_keeps_decref_owner, mx_keeps_m_free; [done|].
    simpl. by destruct (Z.eqb_spec st 0).
Qed.

Lemma mx_keeps_new t kn v :
  keeps t OpMutexNew sync_mutex_new []
    (MxGhost (Owns None) (Holds 0) 0 0 kn None false false (false, v, 1) false).
Proof.
  change (MxGhost (Owns None) _ _ _ _ _ _ _ _ _) with (m_owner None kn false v 1).
  apply keeps_sync_alloc. intros tr s gs Hi Hg.
  destruct (mx_owns_mutex Hi Hg _ eq_refl) as (Ho & [Ha Hsh] & [= Hrd Hv Hbx] & Hh & Hcb & Hb).
  split; [done|]. split; last first.
  { intros a. exists (m_owner None kn false v 1). rewrite insert_id by done. split; [done|]. by exists a, []. }
  exists (m_owner (Some 0) kn false false 1). split.
  { apply mx_step_zeroed with v; try done. }
  clear. apply keeps_on_core. intros tr s gs Hi Hg.
  destruct (mx_owns_mutex Hi Hg _ eq_refl) as (Ho & (Ha & Hsh & _) & [= Hrd Hv Hbx] & _). split; [done|].
  simpl. rewrite Hsh. exists (m_owner (Some 1) kn false false 1). split.
  { apply (mx_step_m s gs t (m_owner (Some 0) kn false false 1) (Owns (Some 1)) (false, false, 1)); try done; simpl.
    - by eapply counted_store; [apply Hi|..].
    - apply known_own with (m_owner (Some 0) kn false false 1); try done. simpl. congruence.
    - rewrite (owners_insert mstk gs t _ _ Hg). simpl. lia. }
  clear. intros tr s gs a v' Hi Hg.
  destruct (mx_owns_mutex Hi Hg _ eq_refl) as (Ho & (Ha & Hsh & _) & [= Hrd Hv Hbx] & _).
  unfold private. rewrite Ha, Hsh. exists (m_owner (Some 1) kn false true 1). split.
  { apply (mx_step_owner s _ gs t 1 kn (false, false, 1) (false, true, 1)); try done. simpl. congruence. }
  clear. apply mx_keeps_hook. intros st. simpl. destruct (Z.eqb_spec st 0) as [->|Hn].
  - apply keeps_os_call. intros tr s gs a v' Hi Hg.
    destruct (mx_owns_mutex Hi Hg _ eq_refl) as (Ho & (Ha & Hsh & _) & [= Hrd Hv Hbx] & Hh & _).
    unfold private. cbn [get set m_lens os_lens]. rewrite Ha, Hsh, Hrd. simpl.
    exists (m_owner (Some 1) kn (bool_decide (a = 0)) true 1). split; [|apply mx_keeps_new_finish].
    unfold fails. destruct (Z.eqb_spec a 0) as [->|Hn]; simpl; rewrite ?app_nil_r.
    + apply (mx_step_owner s _ gs t 1 kn (false, true, 1) (true, true, 1)); try done. simpl. congruence.
    + rewrite bool_decide_false by done. by rewrite insert_id.
  - pose proof (mx_keeps_new_finish t kn st) as H. simpl in H.
    rewrite bool_decide_false in H by done. destruct (Z.eqb_spec st 0); [done|apply H].
Qed.

(** Steps of a thread that has the mutex. *)
Definition holding (m : Z) (c : stake) (cl b : Z) (kn : knowledge) (md : option bool) (w : bool) : mx_ghost :=
  MxGhost (Holds m) c cl b kn md w false (false, false, 0) false.

(** It holds it by its claim, or by its callback. *)
Definition by_claim (m cl : Z) (md : option bool) : Prop :=
  (cl = 1 /\ 1 <= m) \/ (cl = 0 /\ md = Some true).

Lemma holding_has s gs t m c cl b kn md w :
  mx_inv s gs -> gs !! t = Some (holding m c cl b kn md w) -> by_claim m cl md ->
  m_held s = Some t /\ uses_mutex t (holding m c cl b kn md w) s /\ may_write t s = true /\
  owners mstk gs = 0 /\ allocated (m_life s) = true /\ m_ready s = true.
Proof.
  intros Hi Hg Hor.
  assert (uses_mutex t (holding m c cl b kn md w) s) as Hu.
  { destruct Hor as [[_ ?]|[_ ->]]; [by left|right].
    pose proof (mx_mode _ _ Hi t _ true Hg eq_refl) as H. by apply bool_decide_eq_true in H. }
  destruct (mx_uses_mutex Hi Hg Hu) as (_ & Ho & Ha & _ & Hr & _).
  assert (m_held s = Some t) as Hm.
  { destruct Hor as [[-> _]|[-> ->]]; [by apply (mx_claimed Hi Hg)|].
    apply (mx_called_back Hi Hg); [done|].
    pose proof (mx_mode _ _ Hi t _ true Hg eq_refl) as H. by apply bool_decide_eq_true in H. }
  split_and!; try done. unfold may_write. rewrite Ha, Hm. simpl. by rewrite bool_decide_true.
Qed.

Lemma mx_keeps_write t o k es m c cl b kn md w kn' w' (f : tid -> lS mutex -> Z * Z) :
  by_claim m cl md ->
  (forall s, m_held s = Some t -> known_fields kn t s -> let x := f t s in
     (x.1 = owner s \/ x.1 = self P t \/ x.1 = 0) /\ known_fields kn' t (with_owner x.1 x.2 s)) ->
  (w' = true -> w = true) -> (cl = 0 -> w' = true \/ kn' = Locked) ->
  keeps t o k es (holding m c cl b kn' md w') ->
  keeps t o (Act (L := mutex) (fun t _ _ s =>
      if may_write t s then Go (tt, with_owner (f t s).1 (f t s).2 s, []) else Fault) (fun _ => k)) es
    (holding m c cl b kn md w).
Proof.
  intros Hor Hf Hw Hcl Hk tr s gs a v Hi Hg.
  destruct (holding_has _ _ _ _ _ _ _ _ _ _ Hi Hg Hor) as (Hm & Hu & -> & Ho & Ha & _).
  exists (holding m c cl b kn' md w'). rewrite !app_nil_r. split; [|done].
  destruct (Hf s Hm (mx_knows _ _ Hi t _ Hg)) as [Hx Hkn].
  replace (with_owner (f t s).1 (f t s).2 s) with
    (with_value (value s) (box s) (with_owner (f t s).1 (f t s).2 s)) by by destruct s.
  pose proof (mx_uses _ _ Hi t _ Hg) as (Hb & _). simpl in Hb.
  eapply (mx_step_fields s gs t (holding m c cl b kn md w)); try done; simpl; try lia.
  intros Hc. apply Hcl. destruct Hor as [[-> _]|[? _]]; [|done]. by apply (mx_claimed Hi Hg) in Hc.
Qed.

(** [core->owner = self; core->locked = 1] *)
Lemma mx_keeps_mark t o k es m c cl b md w :
  by_claim m cl md -> (cl = 0 -> w = true) ->
  keeps t o k es (holding m c cl b Locked md false) ->
  keeps t o (write_owner true (write_locked 1 k)) es (holding m c cl b Nothing md w).
Proof.
  intros Hor Hw Hk.
  apply (mx_keeps_write t o _ es m c cl b Nothing md w Mine w (fun t s => (self P t, locked s))); try done; [|auto|].
  { intros s Hs _. simpl. auto. }
  apply (mx_keeps_write t o _ es m c cl b Mine md w Locked false (fun t s => (owner s, 1))); try done; [|auto].
  intros s Hs [_ Ho]. simpl. auto.
Qed.

(** [core->locked = 0; core->owner = 0] *)
Lemma mx_keeps_unmark t o k es m c b md :
  1 <= m -> keeps t o k es (holding m c 1 b Cleared md false) ->
  keeps t o (write_locked 0 (write_owner false k)) es (holding m c 1 b Locked md false).
Proof.
  intros Hm Hk.
  apply (mx_keeps_write t o _ es m c 1 b Locked md false Mine false (fun t s => (owner s, 0))); try done.
  { by left. }
  { intros s Hs (_ & _ & Ho). simpl. auto. }
  apply (mx_keeps_write t o _ es m c 1 b Mine md false Cleared false (fun t s => (0, locked s))); try done.
  { by left. }
  intros s Hs _. simpl. auto.
Qed.

Lemma mx_keeps_count t o k es m c b b' kn md (f : Z -> Z) :
  1 <= m -> (forall x, f x = x - b + b') -> 0 <= b' ->
  keeps t o k es (holding m c 1 b' kn md false) ->
  keeps t o (Act (L := mutex) (fun t _ _ s =>
      if may_write t s && (0 <? box s) then Go (tt, with_value (value s) (f (box s)) s, []) else Fault)
      (fun _ => k)) es
    (holding m c 1 b kn md false).
Proof.
  intros Hm Hf Hb Hk tr s gs a v Hi Hg.
  destruct (holding_has _ _ _ _ _ _ _ _ _ _ Hi Hg) as (Hh & Hu & Hw & Ho & Ha & _); [by left|].
  pose proof (mx_box_pos Hi Hg Ho Ha) as Hpos. pose proof (mx_uses _ _ Hi t _ Hg) as (Hb0 & _). simpl in *.
  rewrite Hw, (proj2 (Z.ltb_lt 0 (box s))) by lia. simpl.
  exists (holding m c 1 b' kn md false). rewrite !app_nil_r. split; [|done].
  replace (with_value (value s) (f (box s)) s) with
    (with_value (value s) (f (box s)) (with_owner (owner s) (locked s) s)) by by destruct s.
  eapply (mx_step_fields s gs t (holding m c 1 b kn md false)); try done; simpl; try (rewrite Hf; lia); auto.
  - pose proof (mx_knows _ _ Hi t _ Hg) as H. by destruct kn.
  - intros Hc. by apply (mx_claimed Hi Hg) in Hc.
Qed.

(** A call that returns its handle of the mutex. *)
Lemma mx_keeps_give_back_m t o r es kn md :
  (forall s, leave mutex_code t o r s = with_lives (give_back (m_life s)) (cv_life s) s) ->
  returns mx_outline o es r -> keeps t o (Ret r) es (call_ghost (Holds 1) (Holds 0) kn md).
Proof.
  intros Hl Hr. split; [done|]. intros tr s gs Hi Hg. rewrite Hl.
  eapply mx_leave; try done; [| |by left|by left].
  - by eapply counted_give_back; [apply Hi|..].
  - eapply counted_return; [apply Hi|done|by left].
Qed.

Lemma mx_keeps_lock_get t kn :
  keeps t OpLockGet sync_mutex_lock_get [] (call_ghost (Holds 1) (Holds 0) kn None).
Proof.
  apply keeps_os_call. intros tr s gs a v Hi Hg.
  destruct (mx_uses_mutex Hi Hg) as (_ & _ & Ha & _ & Hr & _); [by left|].
  cbn [get set m_lens os_lens]. rewrite Ha, Hr. simpl.
  destruct (Z.eqb_spec a 0) as [->|Hn]; simpl; last first.
  { exists (call_ghost (Holds 1) (Holds 0) kn None). rewrite insert_id by done. split; [done|].
    destruct (Z.eqb_spec a 0); [done|]. simpl. apply mx_keeps_give_back_m; simpl.
    - intros s'. by destruct a.
    - by destruct (Z.eqb_spec a 0). }
  destruct (free_mutex (os s)) eqn:Hf; [|done]. apply andb_true_iff in Hf as [Hh _].
  apply bool_decide_eq_true in Hh.
  exists (holding 1 (Holds 0) 1 0 Nothing None false). split.
  { replace (with_mutex (OsMutex true (Some t) false) s) with
      (with_cond (cv_ready s) (waiting s) (with_mutex (OsMutex true (Some t) false) s)) by by destruct s.
    apply (mx_step_lock s gs t (call_ghost (Holds 1) (Holds 0) kn None)); try done; [by left| |].
    - intros x Hx. split; [|done]. intros ->. by apply (mx_awake Hi Hg) in Hx.
    - intros Hc. by rewrite (mx_called_back Hi Hg eq_refl Hc) in Hh. }
  clear - IDs. apply mx_keeps_mark; [by left|done|].
  apply (mx_keeps_count _ _ _ _ 1 _ 0 1 _ _ (fun x => x + 1)); [done|intros; lia|done|].
  split; [done|]. intros tr s gs Hi Hg. simpl.
  destruct (holding_has _ _ _ _ _ _ _ _ _ _ Hi Hg) as (Hh & Hu & Hw & Ho & Ha & _); [by left|].
  apply (mx_return s _ gs t _ Hi Hg); try done; simpl.
  - by eapply counted_pin; [apply Hi|..].
  - eapply counted_return; [apply Hi|done|by left].
  - eapply known_return with (m_life s) _; [apply Hi|done..|by left].
  - eapply known_return with (cv_life s) _; [apply Hi|done..|by left].
  - intros _. rewrite (mx_box _ _ Hi Ho). lia.
  - destruct (mx_pins _ _ Hi). lia.
  - apply Hi.
  - intros x. rewrite cnt_cons. destruct (decide (x = t)) as [->|].
    + rewrite bool_decide_true by done. simpl. lia.
    + rewrite bool_decide_false by done. simpl. lia.
Qed.

Lemma mx_keeps_unlock t kn :
  keeps t OpReleaseUnlock (sync_os_mutex_unlock m_lens os_lens (fun st => Ret (RStatus st))) []
    (holding 1 (Holds 0) 1 0 Cleared kn false).
Proof.
  apply keeps_os_call. intros tr s gs a v Hi Hg.
  destruct (holding_has _ _ _ _ _ _ _ _ _ _ Hi Hg) as (Hh & Hu & _ & Ho & Ha & Hr); [by left|].
  cbn [get set m_lens os_lens]. rewrite Ha, Hr, Hh, bool_decide_true by done. simpl.
  exists (call_ghost (Holds 1) (Holds 0) Nothing kn). split.
  - replace (with_mutex (OsMutex true None (negb (a =? 0))) s) with
      (with_cond (cv_ready s) (waiting s) (with_mutex (OsMutex true None (negb (a =? 0))) s)) by by destruct s.
    apply (mx_step_give s gs t (holding 1 (Holds 0) 1 0 Cleared kn false)); try done.
    + intros x Hx. right. split; [|done]. intros ->. by apply (mx_awake Hi Hg) in Hx.
    + right. split; [apply (mx_knows _ _ Hi t _ Hg)|]. by apply (mx_claimed Hi Hg).
  - apply mx_keeps_give_back_m; [done|]. simpl. unfold fails. by destruct (Z.eqb_spec a 0).
Qed.

Lemma mx_keeps_release_unlock t :
  keeps t OpReleaseUnlock sync_mutex_release_unlock [] (holding 1 (Holds 0) 1 1 Locked None false).
Proof.
  apply (mx_keeps_count _ _ _ _ 1 _ 1 0 _ _ (fun x => x - 1)); [done|intros; lia|done|].
  apply mx_keeps_unmark; [done|]. apply mx_keeps_unlock.
Qed.

(** *** Waiting *)

(** A call that returns its handle of the condition variable. *)
Lemma mx_keeps_give_back_c t o r es kn md :
  (forall s, leave mutex_code t o r s = cv_return s) ->
  returns mx_outline o es r -> keeps t o (Ret r) es (call_ghost (Holds 0) (Holds 1) kn md).
Proof.
  intros Hl Hr. split; [done|]. intros tr s gs Hi Hg. rewrite Hl.
  eapply mx_leave; try done; [| |by left|by left].
  - eapply counted_return; [apply Hi|done|by left].
  - by eapply counted_give_back; [apply Hi|..].
Qed.

Lemma mx_can_wait s gs t g :
  mx_inv s gs -> gs !! t = Some g -> uses_mutex t g s -> 1 <= weight (cstk g) -> can_wait s = true.
Proof.
  intros Hi Hg Hu Hc. destruct (mx_uses_mutex Hi Hg Hu) as (_ & _ & Ha & _ & Hr & _).
  destruct (mx_uses_cond Hi Hg Hc) as (_ & _ & Hca & _ & Hcr).
  unfold can_wait. by rewrite Ha, Hr, Hca, Hcr.
Qed.

Lemma mx_keeps_resume t k :
  keeps t OpWait (k 0) [] (holding 0 (Holds 1) 0 0 Nothing (Some true) true) ->
  keeps t OpWait (cond_resume k) []
    (MxGhost (Holds 0) (Holds 1) (-1) 0 Nothing (Some true) true true (false, false, 0) false).
Proof.
  intros Hk tr s gs a v Hi Hg. pose proof (mx_uses _ _ Hi t _ Hg) as (_ & Hu & _). simpl in Hu.
  specialize (Hu ltac:(auto)).
  rewrite (mx_can_wait _ _ _ _ Hi Hg Hu) by done.
  destruct (_ || _) eqn:Hb.
  - apply orb_true_iff in Hb as [Hb|Hb].
    + apply andb_true_iff in Hb as [Hb%bool_decide_eq_true _]. by left.
    + right. by destruct (free_mutex (os s)).
  - apply orb_false_iff in Hb as [_ Hf]. destruct (free_mutex (os s)) eqn:Hf'; [|done].
    apply andb_true_iff in Hf' as [Hh%bool_decide_eq_true _].
    exists (holding 0 (Holds 1) 0 0 Nothing (Some true) true). rewrite !app_nil_r. split; [|done].
    apply (mx_step_lock s gs t (MxGhost (Holds 0) (Holds 1) (-1) 0 Nothing (Some true) true true
      (false, false, 0) false)); try done.
    + by destruct (mx_uses_cond Hi Hg) as (_ & _ & _ & _ & ->).
    + by intros x [? ?]%list_elem_of_filter.
Qed.

Lemma mx_keeps_cond_wait t k :
  keeps t OpWait (k 0) [] (holding 0 (Holds 1) 0 0 Nothing (Some true) true) ->
  (forall st, st <> 0 -> keeps t OpWait (k st) [Failed st] (call_ghost (Holds 0) (Holds 1) Locked (Some true))) ->
  keeps t OpWait (sync_os_cond_wait k) [] (call_ghost (Holds 0) (Holds 1) Locked (Some true)).
Proof.
  intros Hk Hf tr s gs a v Hi Hg.
  destruct (holding_has _ _ _ 0 (Holds 1) 0 0 Locked (Some true) false Hi Hg) as (Hh & Hu & _); [by right|].
  rewrite (mx_can_wait _ _ _ _ Hi Hg Hu), Hh, bool_decide_true by done. simpl.
  destruct (Z.eqb_spec a 0) as [->|Hn].
  - eexists. split; [|by apply mx_keeps_resume].
    eapply (mx_step_give s gs t (call_ghost (Holds 0) (Holds 1) Locked (Some true)) _ _ _ true); try done.
    + by destruct (mx_uses_cond Hi Hg) as (_ & _ & _ & _ & ->).
    + intros x [->|Hx]%elem_of_cons; [by left|right]. split; [|done]. intros ->.
      by apply (mx_awake Hi Hg) in Hx.
    + by left.
  - exists (call_ghost (Holds 0) (Holds 1) Locked (Some true)). rewrite insert_id by done. split; [done|].
    apply Z.eqb_neq in Hn as Hn'. rewrite Hn'. by apply Hf.
Qed.

Lemma mx_keeps_wait t :
  keeps t OpWait sync_condvar_wait [] (call_ghost (Holds 0) (Holds 1) Locked (Some true)).
Proof.
  intros tr s gs a v Hi Hg.
  destruct (holding_has _ _ _ 0 (Holds 1) 0 0 Locked (Some true) false Hi Hg) as (Hh & Hu & _ & _ & Ha & _);
    [by right|].
  destruct (mx_knows _ _ Hi t _ Hg) as (_ & Hl & _).
  unfold synchronised. rewrite Ha, Hh, Hl, bool_decide_true by done. simpl.
  exists (call_ghost (Holds 0) (Holds 1) Locked (Some true)). rewrite insert_id by done.
  split; [done|]. clear - IDs. intros tr s gs a v Hi Hg.
  destruct (holding_has _ _ _ 0 (Holds 1) 0 0 Locked (Some true) false Hi Hg) as (Hh & Hu & _ & _ & Ha & _);
    [by right|].
  destruct (mx_knows _ _ Hi t _ Hg) as (_ & _ & Ho).
  unfold synchronised. rewrite Ha, Hh, Ho, bool_decide_true, Z.eqb_refl by done. simpl.
  exists (call_ghost (Holds 0) (Holds 1) Locked (Some true)). rewrite insert_id by done.
  split; [done|]. apply mx_keeps_cond_wait.
  - apply mx_keeps_mark; [by right|done|]. by apply mx_keeps_give_back_c.
  - intros st Hn%Z.eqb_neq. rewrite Hn. apply mx_keeps_give_back_c; [done|].
    simpl. split; [done|]. by apply Z.eqb_neq.
Qed.

(** Outside of a callback of the mutex the check fails. *)
Lemma mx_keeps_refused t kn es :
  Forall (eq (@Effect mutex Unsynchronised)) es ->
  keeps t OpWaitUnchecked (Ret (RStatus (-1))) es (call_ghost (Holds 1) (Holds 1) kn (Some false)).
Proof.
  intros He. split; [done|]. intros tr s gs Hi Hg.
  eapply (mx_leave s); try done; [| |by left|by left].
  - by eapply counted_give_back; [apply Hi|..].
  - by eapply counted_give_back; [apply Hi|..].
Qed.

Lemma mx_outside s gs t kn :
  mx_inv s gs -> gs !! t = Some (call_ghost (Holds 1) (Holds 1) kn (Some false)) ->
  allocated (m_life s) = true /\ synchronised t s = [@Effect mutex Unsynchronised] /\
  (owner s =? self P t) = false.
Proof.
  intros Hi Hg. destruct (mx_uses_mutex Hi Hg) as (_ & _ & Ha & _); [by left|].
  pose proof (mx_mode _ _ Hi t _ false Hg eq_refl) as Hm%bool_decide_eq_false.
  pose proof (mx_unclaimed Hi Hg eq_refl Hm) as Hh. split_and!; [done| |].
  - unfold synchronised. by rewrite bool_decide_false.
  - apply Z.eqb_neq. intros Ho. destruct (mx_owner _ _ Hi t Ho) as [|(g & Hg' & ?)]; [done|].
    simplify_map_eq.
Qed.

Lemma mx_keeps_wait_unchecked t kn :
  keeps t OpWaitUnchecked sync_condvar_wait [] (call_ghost (Holds 1) (Holds 1) kn (Some false)).
Proof.
  intros tr s gs a v Hi Hg. destruct (mx_outside _ _ _ _ Hi Hg) as (-> & -> & _).
  exists (call_ghost (Holds 1) (Holds 1) kn (Some false)). rewrite insert_id by done. split; [done|].
  destruct (locked s =? 0); [apply mx_keeps_refused; by constructor|].
  clear - IDs. intros tr s gs a v Hi Hg. destruct (mx_outside _ _ _ _ Hi Hg) as (-> & -> & ->).
  exists (call_ghost (Holds 1) (Holds 1) kn (Some false)). rewrite insert_id by done. split; [done|].
  apply mx_keeps_refused. by repeat constructor.
Qed.

(** *** The condition variable *)

(** A step on the condition variable: it changes with its owner, or fewer
    threads wait. *)
Lemma mx_step_waiting s gs t g ready w v :
  mx_inv s gs -> gs !! t = Some g ->
  let g' := MxGhost (mstk g) (cstk g) (claim g) (boxes g) (knows g) (mode g) (waits_cv g) (asleep g)
              (mview g) v in
  known cstk cview cfine (cv_life s) ready (<[t := g']> gs) ->
  (forall x, x ∈ w -> x ∈ waiting s) ->
  mx_inv (with_cond ready w s) (<[t := g']> gs).
Proof.
  intros Hi Hg g' Hk Hw.
  pose proof (mx_uses _ _ Hi t g Hg) as (? & ? & ? & ?).
  apply mx_step with s g; try done; simpl.
  - by apply (counted_same mstk) with g; [apply Hi|..].
  - by apply (counted_same cstk) with g; [apply Hi|..].
  - by apply known_keep with g; [apply Hi|..].
  - rewrite (owners_insert mstk gs t g g' Hg). simpl. intros Ho. rewrite (mx_box _ _ Hi); lia.
  - unfold has_mutex. simpl. lia.
  - apply (mx_knows _ _ Hi t g Hg).
  - intros Hx. pose proof (mx_callback _ _ Hi t Hx) as H'. by rewrite Hg in H'.
  - intros x Hx. destruct (mx_owner _ _ Hi x Hx) as [|(g0 & Hg0 & Ha)]; [by left|right].
    destruct (decide (x = t)) as [->|]; [left; naive_solver|right; eauto].
  - intros x Hx%Hw. destruct (decide (x = t)) as [->|]; [left|by right].
    destruct (mx_waiting _ _ Hi t Hx) as (g0 & ? & ?). naive_solver.
Qed.

Lemma mx_keeps_c_wrap t o n kn k es :
  0 <= n -> keeps t o k es (call_ghost (Holds 0) (Holds n) kn None) ->
  keeps t o (sync_cond_wrap k) es (call_ghost (Holds 0) (Holds (n + 1)) kn None).
Proof.
  intros Hn Hk. apply keeps_on_core. intros tr s gs Hi Hg.
  destruct (mx_uses_cond Hi Hg) as (Ht & Ho & Ha & _); [simpl; lia|]. split; [done|].
  exists (call_ghost (Holds 0) (Holds n) kn None). split; [|done].
  apply (mx_step_c s gs t (call_ghost (Holds 0) (Holds (n + 1)) kn None) (Holds n) false); try done; simpl.
  - by eapply counted_handle; [apply Hi|..].
  - by apply known_same with (cv_life s) (call_ghost (Holds 0) (Holds (n + 1)) kn None); [apply Hi|..].
Qed.

Lemma mx_keeps_cond_share t kn :
  keeps t OpCondShare sync_condvar_share [] (call_ghost (Holds 0) (Holds 1) kn None).
Proof.
  apply keeps_on_core. intros tr s gs Hi Hg.
  destruct (mx_uses_cond Hi Hg) as (Ht & Ho & Ha & Hr & _); [done|].
  split; [done|]. destruct (Z.ltb_spec (refs (get cv_lens s)) 1); [simpl in *; lia|].
  destruct (Z.ltb_spec (refs (get cv_lens s)) MAX_REFS); [|by right].
  exists (call_ghost (Holds 0) (Holds 2) kn None). split.
  - apply (mx_step_c s gs t (call_ghost (Holds 0) (Holds 1) kn None) (Holds 2) false); try done; simpl.
    + by eapply counted_inc; [apply Hi|..].
    + by apply known_same with (cv_life s) (call_ghost (Holds 0) (Holds 1) kn None); [apply Hi|..].
  - apply (mx_keeps_c_wrap t OpCondShare 1); [done|]. by apply mx_keeps_give_back_c.
Qed.

(** What the owner of its core does. *)
Definition c_owner (z : option Z) (kn : knowledge) (ready : bool) : mx_ghost :=
  MxGhost (Holds 0) (Owns z) 0 0 kn None false false (false, false, 0) ready.

Lemma mx_step_c_owner s gs t z kn r r' :
  mx_inv s gs -> gs !! t = Some (c_owner (Some z) kn r) ->
  mx_inv (with_cond r' [] s) (<[t := c_owner (Some z) kn r']> gs).
Proof.
  intros Hi Hg. destruct (mx_owns_cond Hi Hg _ eq_refl) as (Ho & _).
  apply (mx_step_waiting s gs t (c_owner (Some z) kn r) r' [] r'); try done.
  - by apply known_own with (c_owner (Some z) kn r).
  - by intros x ?%not_elem_of_nil.
Qed.

Lemma mx_keeps_c_free t o r es z kn :
  (forall s, leave mutex_code t o r s = s) -> returns mx_outline o es r ->
  keeps t o (free cv_lens (Ret r)) es (c_owner (Some z) kn false).
Proof.
  intros Hl Hr. apply keeps_on_core. intros tr s gs Hi Hg.
  destruct (mx_owns_cond Hi Hg _ eq_refl) as (Ho & (Ha & Hsh & _) & He & _).
  split; [done|]. simpl. rewrite Hsh. exists (c_owner None kn false). split.
  - apply (mx_step_c s gs t (c_owner (Some z) kn false) (Owns None) false); try done; simpl.
    + by eapply counted_free; [apply Hi|..].
    + by apply known_own with (c_owner (Some z) kn false).
  - apply mx_keeps_done; try done; [by left|by right].
Qed.

Lemma mx_keeps_cond_finalize t kn :
  keeps t OpCondFinalize sync_cond_finalize [] (call_ghost (Holds 0) (Holds 1) kn None).
Proof.
  apply keeps_on_core. intros tr s gs Hi Hg.
  destruct (mx_uses_cond Hi Hg) as (Ht & Ho & Ha & Hr & Hrd); [done|]. split; [done|].
  destruct (Z.ltb_spec (refs (get cv_lens s)) 1); [simpl in *; lia|].
  destruct (refs (get cv_lens s) - 1 =? 0) eqn:Hz.
  - exists (c_owner (Some 0) kn true). split.
    + apply (mx_step_c s gs t (call_ghost (Holds 0) (Holds 1) kn None) (Owns (Some 0)) true); try done; simpl.
      * eapply counted_dec; [apply Hi|done|done|done|]. simpl in *. by rewrite Hz.
      * by apply known_own with (call_ghost (Holds 0) (Holds 1) kn None).
    + clear. apply keeps_os_call. intros tr s gs a v' Hi Hg.
      destruct (mx_owns_cond Hi Hg _ eq_refl) as (_ & (Ha & Hsh & _) & Hrd & Hw).
      simpl in Hrd. unfold private, sync_mutex_abort_if_failed, fails. rewrite Ha, Hsh, Hrd, Hw. simpl.
      destruct (Z.eqb_spec a 0) as [->|Hne].
      * exists (c_owner (Some 0) kn false). split; [|by apply mx_keeps_c_free].
        by apply mx_step_c_owner with true.
      * exists (c_owner (Some 0) kn true). rewrite insert_id by done. split; [done|]. by exists a, [].
  - exists (call_ghost (Holds 0) (Holds 0) kn None). split.
    + apply (mx_step_c s gs t (call_ghost (Holds 0) (Holds 1) kn None) (Holds 0) false); try done; simpl.
      * eapply counted_dec; [apply Hi|done|done|done|]. simpl in *. by rewrite Hz.
      * by apply known_same with (cv_life s) (call_ghost (Holds 0) (Holds 1) kn None); [apply Hi|..].
    + apply mx_keeps_done; try done; by left.
Qed.

Lemma mx_keeps_cond_new_finish t kn st :
  let es := fails st in
  keeps t OpCondNew
    (if negb (st =? 0) then free cv_lens (Ret (RNew st false))
     else sync_cond_wrap (Ret (RNew st true))) es (c_owner (Some 1) kn (bool_decide (st = 0))).
Proof.
  simpl. unfold fails. destruct (Z.eqb_spec st 0) as [->|Hn]; simpl.
  - apply keeps_on_core. intros tr s gs Hi Hg.
    destruct (mx_owns_cond Hi Hg _ eq_refl) as (Ho & (Ha & Hsh & _) & Hrd & _).
    split; [done|]. exists (MxGhost (Holds 0) (Holds 0) 0 0 kn None false false (false, false, 0) true). split.
    + apply (mx_step_c s gs t (c_owner (Some 1) kn true) (Holds 0) true); try done; simpl.
      * by eapply counted_publish; [apply Hi|..].
      * by apply known_publish with (c_owner (Some 1) kn true).
    + apply mx_keeps_done; try done; by left.
  - rewrite bool_decide_false by done. apply mx_keeps_c_free; [done|].
    simpl. by destruct (Z.eqb_spec st 0).
Qed.

Lemma mx_keeps_cond_new t kn :
  keeps t OpCondNew sync_condvar_new [] (call_ghost (Holds 0) (Owns None) kn None).
Proof.
  change (call_ghost _ _ _ _) with (c_owner None kn false).
  apply keeps_sync_alloc. intros tr s gs Hi Hg.
  destruct (mx_owns_cond Hi Hg _ eq_refl) as (Ho & [Ha Hsh] & Hrd & Hw).
  split; [done|]. split; last first.
  { intros a. exists (c_owner None kn false). rewrite insert_id by done. split; [done|]. by exists a, []. }
  exists (c_owner (Some 0) kn false). split.
  { apply (mx_step_c s gs t (c_owner None kn false) (Owns (Some 0)) false); try done; simpl.
    - by eapply counted_alloc; [apply Hi|..].
    - by apply known_own with (c_owner None kn false). }
  clear. apply keeps_on_core. intros tr s gs Hi Hg.
  destruct (mx_owns_cond Hi Hg _ eq_refl) as (Ho & (Ha & Hsh & _) & Hrd & _). split; [done|].
  simpl. rewrite Hsh. exists (c_owner (Some 1) kn false). split.
  { apply (mx_step_c s gs t (c_owner (Some 0) kn false) (Owns (Some 1)) false); try done; simpl.
    - by eapply counted_store; [apply Hi|..].
    - by apply known_own with (c_owner (Some 0) kn false). }
  clear. apply mx_keeps_hook. intros st. simpl. destruct (Z.eqb_spec st 0) as [->|Hn].
  - apply keeps_os_call. intros tr s gs a v' Hi Hg.
    destruct (mx_owns_cond Hi Hg _ eq_refl) as (Ho & (Ha & Hsh & _) & Hrd & _). simpl in Hrd.
    unfold private. rewrite Ha, Hsh, Hrd. simpl.
    exists (c_owner (Some 1) kn (bool_decide (a = 0))). split; [|apply mx_keeps_cond_new_finish].
    unfold fails. destruct (Z.eqb_spec a 0) as [->|Hn]; simpl.
    + by apply mx_step_c_owner with false.
    + rewrite bool_decide_false by done. by rewrite insert_id.
  - pose proof (mx_keeps_cond_new_finish t kn st) as H. simpl in H.
    rewrite bool_decide_false in H by done. destruct (Z.eqb_spec st 0); [done|apply H].
Qed.

(** Threads are woken. *)
Lemma mx_step_wake s gs t kn r w :
  mx_inv s gs -> gs !! t = Some (call_ghost (Holds 0) (Holds 1) kn None) -> r = cv_ready s ->
  (forall x, x ∈ w -> x ∈ waiting s) ->
  mx_inv (with_cond r w s) (<[t := call_ghost (Holds 0) (Holds 1) kn None]> gs).
Proof.
  intros Hi Hg -> Hw.
  apply (mx_step_waiting s gs t (call_ghost (Holds 0) (Holds 1) kn None) (cv_ready s) w false); try done.
  by apply known_keep with (call_ghost (Holds 0) (Holds 1) kn None); [apply Hi|..].
Qed.

Lemma mx_keeps_notified t o es st kn :
  o = OpNotifyOne \/ o = OpNotifyAll -> reports es st ->
  keeps t o (Ret (RStatus st)) es (call_ghost (Holds 0) (Holds 1) kn None).
Proof. intros Ho Hes. apply mx_keeps_give_back_c; by destruct Ho as [->| ->]. Qed.

Lemma mx_keeps_notify t o kn (f : (Z -> prog mutex) -> prog mutex) :
  o = OpNotifyOne \/ o = OpNotifyAll ->
  keeps t o (f (fun st => Ret (RStatus st))) [] (call_ghost (Holds 0) (Holds 1) kn None) ->
  keeps t o (take_test_error NotifyError (fun st =>
      if negb (st =? 0) then Ret (RStatus st) else f (fun st => Ret (RStatus st)))) []
    (call_ghost (Holds 0) (Holds 1) kn None).
Proof.
  intros Ho Hk. apply mx_keeps_hook. intros st. simpl. unfold fails.
  destruct (Z.eqb_spec st 0) as [->|Hn]; simpl; [done|]. by apply mx_keeps_notified.
Qed.

Lemma mx_keeps_signal t kn :
  keeps t OpNotifyOne (sync_os_cond_signal (fun st => Ret (RStatus st))) []
    (call_ghost (Holds 0) (Holds 1) kn None).
Proof.
  apply keeps_os_call. intros tr s gs a v Hi Hg. destruct (mx_uses_cond Hi Hg) as (_ & _ & Ha & _ & Hr); [done|].
  rewrite Ha, Hr. simpl.
  assert (mx_inv s (<[t := call_ghost (Holds 0) (Holds 1) kn None]> gs)) as Hs by by rewrite insert_id.
  destruct (Z.eqb_spec a 0) as [->|Hn]; simpl.
  - case_bool_decide as Hw.
    { eexists. split; [exact Hs|]. apply mx_keeps_notified; [by left|done]. }
    case_bool_decide as Hv; [|done].
    exists (call_ghost (Holds 0) (Holds 1) kn None). split; [|apply mx_keeps_notified; [by left|done]].
    apply mx_step_wake; try done. by intros x [_ ?]%list_elem_of_filter.
  - eexists. split; [exact Hs|]. apply mx_keeps_notified; [by left|done].
Qed.

Lemma mx_keeps_broadcast t kn :
  keeps t OpNotifyAll (sync_os_cond_broadcast (fun st => Ret (RStatus st))) []
    (call_ghost (Holds 0) (Holds 1) kn None).
Proof.
  apply keeps_os_call. intros tr s gs a v Hi Hg. destruct (mx_uses_cond Hi Hg) as (_ & _ & Ha & _ & Hr); [done|].
  rewrite Ha, Hr. simpl. destruct (Z.eqb_spec a 0) as [->|Hn]; simpl;
    exists (call_ghost (Holds 0) (Holds 1) kn None); (split; [|apply mx_keeps_notified; [by right|done]]).
  - apply mx_step_wake; try done. by intros x ?%not_elem_of_nil.
  - by rewrite insert_id.
Qed.

Lemma mx_keeps_fail_next t o h st kn :
  body mutex_code o = test_fail_next h st -> (forall r s, leave mutex_code t o r s = s) ->
  returns mx_outline o [] RVoid ->
  keeps t o (body mutex_code o) [] (call_ghost (Holds 0) (Holds 0) kn None).
Proof.
  intros -> Hl Hr tr s gs a v Hi Hg. exists (call_ghost (Holds 0) (Holds 0) kn None). split.
  - pose proof (mx_uses _ _ Hi t _ Hg) as (? & ? & ? & ?).
    apply mx_step_quiet with s (call_ghost (Holds 0) (Holds 0) kn None); try done;
      try (rewrite insert_id by done; apply Hi).
    rewrite insert_id by done. intros Ho. simpl. rewrite (mx_box _ _ Hi Ho). lia.
  - apply mx_keeps_done; try done; by left.
Qed.
End programs.
End outline.
