(* ===== verification/MutexSafety.v ===== *)
(** MutexSafety: callers keep the invariant, so every execution has it; the theorems
    on the mutex and the condition variable, and their witnesses. *)
From stdpp Require Import base gmap list.
From Stdlib Require Import ZArith Lia.
From S2P Require Import Prelude Interleave Platform Arc OsMutex Mutex MutexInvariant MutexCalls.

Section outline.
Context (P : platform) `{IDs : !Identities P}.
Abbreviation mx_inv := (@MutexInvariant.mx_inv P).
Abbreviation known_fields := (@MutexInvariant.known_fields P).
Abbreviation mx_outline := (@MutexCalls.mx_outline P).


(** *** The outline is kept *)

(** What a thread that starts a call knows from its callback. *)
Definition known_of t (s : mutex_state) : knowledge := if in_callback t s then Locked else Nothing.

Lemma mx_known_of s (gs : gmap tid mx_ghost) t :
  mx_inv s gs -> gs !! t = None ->
  known_fields (known_of t s) t s /\ (t ∈ callbacks s -> known_of t s = Locked).
Proof.
  intros Hi Hg. unfold known_of, in_callback. case_bool_decide as Hc; [|done].
  pose proof (mx_callback _ _ Hi t Hc) as H. by rewrite Hg in H.
Qed.

Lemma mx_enter s (gs : gmap tid mx_ghost) t ms cs md m c :
  mx_inv s gs -> gs !! t = None ->
  let g := call_ghost ms cs (known_of t s) md in
  counted mstk m (<[t := g]> gs) -> counted cstk c (<[t := g]> gs) -> owned ms = 0 ->
  known cstk cview cfine c (cv_ready s) (<[t := g]> gs) ->
  allocated m = allocated (m_life s) -> pins m = pins (m_life s) -> pins c = pins (cv_life s) ->
  (forall b, md = Some b -> in_callback t s = b) ->
  mx_inv (with_lives m c s) (<[t := g]> gs).
Proof.
  intros Hi Hg g Hm Hc Ho Hk Ha Hpm Hpc Hmd.
  destruct (mx_known_of s gs t Hi Hg) as [Hkn Hkl].
  apply mx_call with s; try done; simpl.
  - eapply known_call; [apply Hi|done..].
  - rewrite (owners_new mstk gs t g Hg), Ha. simpl. intros H. rewrite (mx_box _ _ Hi); lia.
  - rewrite Hpm. apply Hi.
  - rewrite Hpc. apply Hi.
  - intros x. destruct (decide (x = t)); lia.
  - intros [?|?]; [done|lia].
Qed.

Lemma mx_enter_m s s' (gs : gmap tid mx_ghost) t :
  mx_inv s gs -> gs !! t = None -> on_m take s = Some s' ->
  mx_inv s' (<[t := call_ghost (Holds 1) (Holds 0) (known_of t s) None]> gs).
Proof.
  unfold on_m. intros Hi Hg. destruct (take _) as [m|] eqn:Hc; [|done]. intros [= <-].
  destruct (take_same _ _ Hc) as (_ & ? & ? & _). apply mx_enter; try done.
  - eapply counted_take; [apply Hi|done..].
  - apply counted_call; [apply Hi|done..].
  - eapply known_call; [apply Hi|done..].
Qed.

Lemma mx_enter_c s s' (gs : gmap tid mx_ghost) t md :
  mx_inv s gs -> gs !! t = None -> on_cv take s = Some s' ->
  (forall b, md = Some b -> in_callback t s = b) ->
  mx_inv s' (<[t := call_ghost (Holds 0) (Holds 1) (known_of t s) md]> gs).
Proof.
  unfold on_cv. intros Hi Hg. destruct (take _) as [c|] eqn:Hc; [|done]. intros [= <-] Hmd.
  destruct (take_same _ _ Hc) as (_ & ? & ? & _). apply mx_enter; try done.
  - apply counted_call; [apply Hi|done..].
  - eapply counted_take; [apply Hi|done..].
  - eapply known_call; [apply Hi|done..].
Qed.

Lemma mx_enter_none s (gs : gmap tid mx_ghost) t md :
  mx_inv s gs -> gs !! t = None -> (forall b, md = Some b -> in_callback t s = b) ->
  mx_inv s (<[t := call_ghost (Holds 0) (Holds 0) (known_of t s) md]> gs).
Proof.
  intros Hi Hg Hmd. replace s with (with_lives (m_life s) (cv_life s) s) at 1 by by destruct s.
  apply mx_enter; try done.
  - apply counted_call; [apply Hi|done..].
  - apply counted_call; [apply Hi|done..].
  - eapply known_call; [apply Hi|done..].
Qed.

Lemma mx_enter_share s s' (gs : gmap tid mx_ghost) t :
  mx_inv s gs -> gs !! t = None -> m_borrow t s = Some s' ->
  let b := in_callback t s in
  mx_inv s' (<[t := call_ghost (Holds (if b then 0 else 1)) (Holds 0) (known_of t s) (Some b)]> gs).
Proof.
  unfold m_borrow, on_m. intros Hi Hg. destruct (in_callback t s) eqn:Hb.
  { intros [= <-]. simpl. apply mx_enter_none; [done..|]. congruence. }
  destruct (take _) as [m|] eqn:Hc; [|done]. intros [= <-].
  destruct (take_same _ _ Hc) as (_ & ? & ? & _). apply mx_enter; try done.
  - eapply counted_take; [apply Hi|done..].
  - apply counted_call; [apply Hi|done..].
  - eapply known_call; [apply Hi|done..].
  - congruence.
Qed.

Lemma mx_enter_unchecked s s1 s' (gs : gmap tid mx_ghost) t :
  mx_inv s gs -> gs !! t = None -> in_callback t s = false ->
  on_cv take s = Some s1 -> on_m take s1 = Some s' ->
  mx_inv s' (<[t := call_ghost (Holds 1) (Holds 1) (known_of t s) (Some false)]> gs).
Proof.
  unfold on_cv, on_m. intros Hi Hg Hb.
  destruct (take (cv_life s)) as [c|] eqn:Hc; [|done]. intros [= <-]. simpl.
  destruct (take (m_life s)) as [m|] eqn:Hm; [|done]. intros [= <-].
  destruct (take_same _ _ Hc) as (_ & ? & ? & _). destruct (take_same _ _ Hm) as (_ & ? & ? & _).
  apply (mx_enter s gs t (Holds 1) (Holds 1) (Some false) m c); try done.
  - eapply counted_take; [apply Hi|done..].
  - eapply counted_take; [apply Hi|done..].
  - eapply known_call; [apply Hi|done..].
  - congruence.
Qed.

Lemma mx_enter_cond_new s s' (gs : gmap tid mx_ghost) t :
  mx_inv s gs -> gs !! t = None -> on_cv create s = Some s' ->
  mx_inv s' (<[t := call_ghost (Holds 0) (Owns None) (known_of t s) None]> gs).
Proof.
  unfold on_cv. intros Hi Hg. destruct (create _) as [c|] eqn:Hc; [|done]. intros [= <-].
  assert (made (cv_life s) = false /\ pins c = pins (cv_life s)) as [Hm Hpc].
  { unfold create in Hc. destruct (made _); [done|]. by injection Hc as <-. }
  destruct (counted_phase _ _ _ (mx_c _ _ Hi)) as [(Ho & _ & Ha & _)|[(_ & _ & _ & _ & ?)|(_ & _ & ?)]];
    [|congruence..].
  apply mx_enter; try done.
  - apply counted_call; [apply Hi|done..].
  - eapply counted_create; [apply Hi|done..].
  - pose proof (known_shared _ _ _ _ _ _ (mx_ck _ _ Hi) Ho) as Hf. unfold cfine in Hf.
    eapply known_create; [apply Hi|done|done|done|]. simpl. congruence.
Qed.

Lemma mx_enter_new s s' (gs : gmap tid mx_ghost) t :
  mx_inv s gs -> gs !! t = None -> on_m create s = Some s' ->
  mx_inv (with_value (value s') 1 s')
    (<[t := MxGhost (Owns None) (Holds 0) 0 0 Nothing None false false (false, value s', 1) false]> gs).
Proof.
  unfold on_m. intros Hi Hg. destruct (create _) as [m|] eqn:Hc; [|done]. intros [= <-].
  assert (made (m_life s) = false /\ pins m = pins (m_life s)) as [Hm Hpm].
  { unfold create in Hc. destruct (made _); [done|]. by injection Hc as <-. }
  destruct (counted_phase _ _ _ (mx_m _ _ Hi)) as [(Ho & Ht & Ha & _)|[(_ & _ & _ & _ & ?)|(_ & _ & ?)]];
    [|congruence..].
  destruct (known_shared _ _ _ _ _ _ (mx_mk _ _ Hi) Ho) as [Hrd _]. simpl in Hrd.
  destruct (mx_pins _ _ Hi) as [Hp Hpc].
  assert (callbacks s = []) as Hcb.
  { pose proof (counted_total_base mstk _ gs (mx_m _ _ Hi)). pose proof (counted_handles mstk _ gs (mx_m _ _ Hi)).
    destruct (callbacks s); simpl in *; [done|lia]. }
  apply mx_call with s; try done; simpl.
  - eapply counted_create; [apply Hi|done..].
  - apply counted_call; [apply Hi|done..].
  - apply (known_create _ _ _ (m_life s)); try done; [|simpl; congruence]. split.
    + apply (mx_mk _ _ Hi).
    + intros t' g' Hg'. pose proof (owners_ge mstk gs t' g' Hg'). lia.
  - eapply known_call; [apply Hi|done..].
  - rewrite (owners_new mstk gs t _ Hg), Ho. simpl. lia.
  - by rewrite Hpm.
  - intros x. destruct (decide (x = t)); lia.
  - intros [?|?]; [done|lia].
  - rewrite Hcb. by intros ?%not_elem_of_nil.
Qed.

Lemma mx_enter_release s s' (gs : gmap tid mx_ghost) t :
  mx_inv s gs -> gs !! t = None -> t ∈ callbacks s ->
  on_m unpin (with_callbacks (filter (fun x => x <> t) (callbacks s)) s) = Some s' ->
  mx_inv s' (<[t := holding 1 (Holds 0) 1 1 Locked None false]> gs).
Proof.
  unfold on_m. intros Hi Hg Ht. destruct (unpin _) as [m|] eqn:Hc; [|done]. intros [= <-].
  destruct (unpin_same _ _ Hc) as (_ & Ha & _). simpl in Ha.
  pose proof (mx_callback _ _ Hi t Ht) as Hk. rewrite Hg in Hk.
  assert (cnt t (callbacks s) = 1) as H1.
  { pose proof (mx_held _ _ Hi t) as Hh. unfold has_mutex, claim_of in Hh. destruct Hk as [Hk _].
    rewrite Hg, Hk, bool_decide_true in Hh by done. simpl in Hh. lia. }
  pose proof (length_without t (callbacks s)) as Hl. destruct (mx_pins _ _ Hi) as [Hp Hpc].
  apply mx_call with s; try done; simpl.
  - eapply counted_unpin; [apply Hi|done..].
  - apply counted_call; [apply Hi|done..].
  - eapply known_call; [apply Hi|done..].
  - eapply known_call; [apply Hi|done..].
  - rewrite (owners_new mstk gs t _ Hg), Ha. simpl. intros Ho. rewrite (mx_box _ _ Hi) by lia. lia.
  - unfold unpin in Hc. simpl in Hc. case_match; [|done]. injection Hc as <-. simpl. lia.
  - intros x. rewrite cnt_without. destruct (decide (x = t)) as [->|]; lia.
  - intros _. by left.
Qed.

Lemma mx_kept e1 e2 e3 : kept mutex_code mx_outline (no_mutex e1 e2 e3).
Proof.
  split.
  - split; simpl; try done; try apply counted_unborn;
      try (by intros t g; rewrite lookup_empty); try (by intros t ?%not_elem_of_nil).
    intros t Ht. by apply self_nonzero in Ht.
  - intros t o g. destruct o; simpl.
    + intros (kn & v & ->). apply mx_keeps_new.
    + intros (kn & b & ->). apply mx_keeps_share.
    + intros (kn & ->). apply mx_keeps_finalize.
    + intros (kn & ->). apply mx_keeps_lock_get.
    + intros ->. apply mx_keeps_release_unlock.
    + intros (kn & ->). apply mx_keeps_cond_new.
    + intros (kn & ->). apply mx_keeps_cond_share.
    + intros (kn & ->). apply mx_keeps_cond_finalize.
    + intros ->. apply mx_keeps_wait.
    + intros (kn & ->). apply mx_keeps_wait_unchecked.
    + intros (kn & ->). apply mx_keeps_notify; [by left|apply mx_keeps_signal].
    + intros (kn & ->). apply mx_keeps_notify; [by right|apply mx_keeps_broadcast].
    + intros (kn & ->). by apply (mx_keeps_fail_next t (OpFailNextInit st) InitError st).
    + intros (kn & ->). by apply (mx_keeps_fail_next t (OpFailNextCondInit st) CondInitError st).
    + intros (kn & ->). by apply (mx_keeps_fail_next t (OpFailNextNotify st) NotifyError st).
  - intros tr s gs t o s' Hi Hg Hen. destruct o; simpl in Hen |- *.
    + destruct (on_m create s) as [s1|] eqn:H1; [|done]. injection Hen as <-.
      eexists. split; [by apply (mx_enter_new s)|by eauto].
    + eexists. split; [by apply (mx_enter_share s)|by eauto].
    + eexists. split; [by apply (mx_enter_m s)|by eauto].
    + eexists. split; [by apply (mx_enter_m s)|by eauto].
    + destruct (in_callback t s) eqn:Hb; [|done]. apply bool_decide_eq_true in Hb.
      eexists. split; [by apply (mx_enter_release s)|done].
    + eexists. split; [by apply (mx_enter_cond_new s)|by eauto].
    + eexists. split; [by apply (mx_enter_c s s' gs t None)|by eauto].
    + eexists. split; [by apply (mx_enter_c s s' gs t None)|by eauto].
    + destruct (in_callback t s) eqn:Hb; [|done].
      eexists. split; [by apply (mx_enter_c s s' gs t (Some true)); [..|congruence]|].
      unfold known_of. by rewrite Hb.
    + destruct (in_callback t s) eqn:Hb; [done|]. destruct (on_cv take s) as [s1|] eqn:H1; [|done].
      eexists. split; [by apply (mx_enter_unchecked s s1)|by eauto].
    + eexists. split; [by apply (mx_enter_c s s' gs t None)|by eauto].
    + eexists. split; [by apply (mx_enter_c s s' gs t None)|by eauto].
    + injection Hen as <-. eexists. split; [by apply (mx_enter_none s gs t None)|by eauto].
    + injection Hen as <-. eexists. split; [by apply (mx_enter_none s gs t None)|by eauto].
    + injection Hen as <-. eexists. split; [by apply (mx_enter_none s gs t None)|by eauto].
Qed.
(** ** Properties *)

Section properties.
Context (e1 e2 e3 : Z) (c : config mutex) (tr : list (label mutex)).
Context (Hr : reachable mutex_code (no_mutex e1 e2 e3) c tr).

Lemma mx_reachable_inv :
  exists gs : gmap tid mx_ghost, mx_inv (state c) gs /\
    forall t, frames c !! t = None <-> gs !! t = None.
Proof. apply (kept_inv _ _ (mx_kept e1 e2 e3) c tr Hr). Qed.


Lemma mx_holder t :
  m_held (state c) = Some t -> t ∈ callbacks (state c) \/ frames c !! t <> None.
Proof.
  destruct mx_reachable_inv as (gs & Hi & Hf). intros Hm.
  destruct (decide (t ∈ callbacks (state c))) as [|Hn]; [by left|right]. intros Hg%Hf.
  pose proof (mx_held _ _ Hi t) as Hh. unfold has_mutex, claim_of in Hh.
  rewrite Hg, Hm, bool_decide_true, cnt_zero in Hh by done. done.
Qed.

(** Who waits is in its callback and without the mutex. *)
Lemma mx_waiter t :
  t ∈ waiting (state c) -> frames c !! t <> None.
Proof.
  destruct mx_reachable_inv as (gs & Hi & Hf). intros (g & Hg & _)%(mx_waiting _ _ Hi) Hn%Hf. congruence.
Qed.

Lemma mx_object :
  frames c = ∅ -> box (state c) = b2z (allocated (m_life (state c))) + Z.of_nat (length (callbacks (state c))).
Proof.
  destruct mx_reachable_inv as (gs & Hi & Hf). intros He.
  assert (gs = ∅) as -> by (apply map_empty; intros t; apply Hf; by rewrite He).
  rewrite (mx_box _ _ Hi), msum_empty by done. lia.
Qed.

(** The cores live as long as somebody can reach them. *)
Lemma mx_lives :
  (0 < handles (m_life (state c)) \/ callbacks (state c) <> [] ->
     allocated (m_life (state c)) = true /\ m_ready (state c) = true /\ value (state c) = true) /\
  (0 < handles (cv_life (state c)) ->
     allocated (cv_life (state c)) = true /\ cv_ready (state c) = true).
Proof.
  destruct mx_reachable_inv as (gs & Hi & _). destruct (mx_pins _ _ Hi) as [Hp Hpc]. split.
  - intros H. assert (0 < total mstk (m_life (state c)) gs) as Ht.
    { pose proof (counted_total_base mstk _ gs (mx_m _ _ Hi)). pose proof (counted_handles mstk _ gs (mx_m _ _ Hi)).
      destruct H as [|H]; [|destruct (callbacks (state c)); [done|]; simpl in Hp]; lia. }
    destruct (counted_alive mstk _ gs (mx_m _ _ Hi) Ht) as (Ho & Ha & _).
    destruct (known_shared _ _ _ _ _ _ (mx_mk _ _ Hi) Ho) as [Hrd Hv]. simpl in *. rewrite Hrd. auto.
  - intros H. pose proof (counted_total_base cstk _ gs (mx_c _ _ Hi)).
    destruct (counted_alive cstk _ gs (mx_c _ _ Hi)) as (Ho & Ha & _); [lia|].
    pose proof (known_shared _ _ _ _ _ _ (mx_ck _ _ Hi) Ho) as Hrd. unfold cfine in Hrd. by rewrite Hrd.
Qed.

Lemma mx_ends :
  frames c = ∅ ->
  (handles (m_life (state c)) = 0 -> callbacks (state c) = [] ->
     allocated (m_life (state c)) = false /\ m_ready (state c) = false /\ box (state c) = 0) /\
  (handles (cv_life (state c)) = 0 ->
     allocated (cv_life (state c)) = false /\ cv_ready (state c) = false).
Proof.
  intros He. pose proof (mx_object He) as Hb. destruct mx_reachable_inv as (gs & Hi & Hf).
  assert (gs = ∅) as -> by (apply map_empty; intros t; apply Hf; by rewrite He).
  destruct (mx_pins _ _ Hi) as [Hp Hpc]. split.
  - intros Hh Hcb. rewrite Hcb in Hp, Hb. pose proof (counted_end mstk _ (mx_m _ _ Hi) Hh Hp) as Ha.
    destruct (known_shared _ _ _ _ _ _ (mx_mk _ _ Hi) eq_refl) as [Hrd _]. simpl in Hrd.
    rewrite Ha in Hb. by rewrite Hrd, Hb.
  - intros Hh. pose proof (counted_end cstk _ (mx_c _ _ Hi) Hh Hpc) as Ha.
    pose proof (known_shared _ _ _ _ _ _ (mx_ck _ _ Hi) eq_refl) as Hrd. unfold cfine in Hrd. by rewrite Hrd.
Qed.
End properties.


(** Calls wait only for somebody: a step is refused only, in locking, while
    the mutex is held or its unlocking failed; in a wait, before a signal or while
    the mutex is held; in notifying one thread, for a choice of a thread that
    does not wait; and in sharing while a reference counter is at its bound.  Who
    has the mutex is in a callback or in a call, and who waits is in a call. *)
Theorem mutex_waits e1 e2 e3 c tr t o B (f : action mutex B) k a v :
  reachable mutex_code (no_mutex e1 e2 e3) c tr ->
  frames c !! t = Some (o, Act f k) -> f t a v (state c) = Blocked ->
  let s := state c in
  let busy := m_held s <> None \/ m_stuck s = true in
  match o with
  | OpLockGet => busy
  | OpWait => t ∈ waiting s \/ busy
  | OpNotifyOne => waiting s <> []
  | _ => MAX_REFS <= refs (m_life s) \/ MAX_REFS <= refs (cv_life s)
  end /\
  (forall x, m_held s = Some x -> x ∈ callbacks s \/ frames c !! x <> None) /\
  (forall x, x ∈ waiting s -> frames c !! x <> None).
Proof.
  intros Hr Hf Hb. split_and!; [|by apply (mx_holder e1 e2 e3 c tr)|by apply (mx_waiter e1 e2 e3 c tr)].
  destruct (kept_waits _ _ (mx_kept e1 e2 e3) c tr t o B f k a v Hr Hf Hb) as (gs & g & _ & _ & Hw).
  assert (free_mutex (os (state c)) = false -> m_held (state c) <> None \/ m_stuck (state c) = true) as Hfree.
  { intros [H|H]%andb_false_iff; [left|right; by destruct (m_stuck _)].
    by apply bool_decide_eq_false in H. }
  destruct o; simpl in Hw; try done; [auto|]. destruct Hw; auto.
Qed.

(** C27: the check of [Condvar::wait] is exact under the callback discipline: a
    wait in a callback of the mutex passes it, without reading a field that
    another thread may write, and reports the status of the OS wait; a wait
    outside of a callback never reaches the OS wait and returns -1, though it
    reads the fields without synchronisation. *)
Theorem condvar_wait_checked e1 e2 e3 c tr :
  reachable mutex_code (no_mutex e1 e2 e3) c tr ->
  forall tr1 t o r tr2, tr = tr1 ++ LRes t o r :: tr2 ->
    (o = OpWait -> exists st, r = RStatus st /\ reports (events tr1 t) st) /\
    (o = OpWaitUnchecked ->
       r = RStatus (-1) /\ Forall (eq (@Effect mutex Unsynchronised)) (events tr1 t)).
Proof.
  intros Hr tr1 t o r tr2 Ht.
  pose proof (kept_returns _ _ (mx_kept e1 e2 e3) c tr tr1 t o r tr2 Hr Ht) as H.
  split; intros ->; simpl in H; destruct r; try done; [by eexists|]. destruct H as [-> H]. done.
Qed.

(** C37: the two cores live exactly as long as their handles and callbacks: they
    and their OS objects are there while there is one, and freed and destroyed,
    with the reference to the object dropped, when there is no handle, callback
    and call left; a call reports the status of the first call in it that failed
    (or was made to fail), the constructors give a handle and locking the object
    exactly with status 0, and abort is called only after a failure. *)
Theorem mutex_release_errors e1 e2 e3 c tr :
  reachable mutex_code (no_mutex e1 e2 e3) c tr ->
  let s := state c in
  ((0 < handles (m_life s) \/ callbacks s <> [] ->
      allocated (m_life s) = true /\ m_ready s = true /\ value s = true) /\
   (0 < handles (cv_life s) -> allocated (cv_life s) = true /\ cv_ready s = true)) /\
  (frames c = ∅ ->
   (handles (m_life s) = 0 -> callbacks s = [] ->
      allocated (m_life s) = false /\ m_ready s = false /\ box s = 0) /\
   (handles (cv_life s) = 0 -> allocated (cv_life s) = false /\ cv_ready s = false)) /\
  (forall tr1 t o r tr2, tr = tr1 ++ LRes t o r :: tr2 -> o <> OpWaitUnchecked ->
     match r with
     | RNew st h | RBox st h => reports (events tr1 t) st /\ h = (st =? 0)
     | RStatus st => reports (events tr1 t) st
     | RHandle | RVoid => events tr1 t = []
     end) /\
  (forall t o, frames c !! t = Some (o, Abort) -> exists st es, events tr t = Failed st :: es).
Proof.
  intros Hr. split_and!; [apply (mx_lives e1 e2 e3 c tr Hr)..|apply (mx_ends e1 e2 e3 c tr Hr)| |].
  - intros tr1 t o r tr2 Ht Ho.
    pose proof (kept_returns _ _ (mx_kept e1 e2 e3) c tr tr1 t o r tr2 Hr Ht) as H.
    simpl in H. by destruct o, r.
  - intros t o Ha. by destruct (kept_aborts _ _ (mx_kept e1 e2 e3) c tr t o Hr Ha) as (gs & g & _ & _ & H).
Qed.
End outline.

(** ** Witnesses *)

#[local] Existing Instance posix.

Abbreviation played_mutex := (after mutex_code (no_mutex 0 0 0)).
Definition call (t : tid) (o : lO mutex) : choice mutex := CInvoke t o.

(** A mutex with three handles and a condition variable with three handles. *)
Definition prepared : list (choice mutex) :=
  [call 0 OpMutexNew] ++ steps 0 7 ++ [call 0 OpMutexShare] ++ steps 0 3 ++ [call 0 OpMutexShare] ++ steps 0 3 ++
  [call 0 OpCondNew] ++ steps 0 6 ++ [call 0 OpCondShare] ++ steps 0 3 ++ [call 0 OpCondShare] ++ steps 0 3.

(** Thread 1 waits in its callback, thread 2 is in its callback. *)
Definition waiting_one : list (choice mutex) :=
  prepared ++ [call 1 OpLockGet] ++ steps 1 5 ++ [call 1 OpWait] ++ steps 1 3 ++
  [call 2 OpLockGet] ++ steps 2 5.

(** Thread 2 wakes it and unlocks, and the wait returns; a wait outside of a
    callback is refused. *)
Definition woken : list (choice mutex) :=
  waiting_one ++ [call 2 OpNotifyOne; CStep 2 0 0; CStep 2 0 1; CStep 2 0 0] ++
  [call 2 OpReleaseUnlock] ++ steps 2 5 ++ steps 1 4 ++ [call 3 OpWaitUnchecked] ++ steps 3 3.


Lemma mutex_waits_witness :
  exists c : config mutex, waiting (state c) = [1%nat] /\ m_held (state c) = Some 2%nat /\
    (1%nat ∈ waiting (state c) \/ m_held (state c) <> None \/ m_stuck (state c) = true) /\
    (forall x, m_held (state c) = Some x -> x ∈ callbacks (state c) \/ frames c !! x <> None) /\
    (forall x, x ∈ waiting (state c) -> frames c !! x <> None).
Proof.
  exists (played_mutex waiting_one).1. split; [vm_compute; reflexivity|]. split; [vm_compute; reflexivity|].
  refine (mutex_waits posix 0 0 0 _ (played_mutex waiting_one).2 1%nat OpWait Z
    _ _ 0 0%nat _ _ _).
  - played.
  - vm_compute. reflexivity.
  - vm_compute. reflexivity.
Defined.

Lemma condvar_wait_checked_witness :
  exists (r r' : lR mutex) (es es' : list (event mutex)), r = RStatus 0 /\
    (exists st, r = RStatus st /\ reports es st) /\
    r' = RStatus (-1) /\ Forall (eq (@Effect mutex Unsynchronised)) es'.
Proof.
  set (tr := (played_mutex woken).2).
  assert (reachable (mutex_code) (no_mutex 0 0 0) (played_mutex woken).1 tr) as Hr by played.
  exists (RStatus 0), (RStatus (-1)), (events (list.take 21%nat tr) 1%nat), (events (list.take 25%nat tr) 3%nat).
  split; [reflexivity|]. split.
  - apply (condvar_wait_checked posix 0 0 0 _ tr Hr (list.take 21%nat tr) 1%nat OpWait
      (RStatus 0) (list.drop 22%nat tr)); vm_compute; reflexivity.
  - apply (condvar_wait_checked posix 0 0 0 _ tr Hr (list.take 25%nat tr) 3%nat OpWaitUnchecked
      (RStatus (-1)) (list.drop 26%nat tr)); vm_compute; reflexivity.
Defined.

(** The callback of thread 1 ends, and everything is released. *)
Definition released : list (choice mutex) :=
  woken ++ [call 1 OpReleaseUnlock] ++ steps 1 5 ++
  ([call 0 OpMutexFinalize] ++ steps 0 2) ++ ([call 0 OpMutexFinalize] ++ steps 0 2) ++
  ([call 0 OpMutexFinalize] ++ steps 0 6).

Lemma mutex_release_errors_witness :
  exists c : config mutex, made (m_life (state c)) = true /\
    (allocated (m_life (state c)) = false /\ m_ready (state c) = false /\ box (state c) = 0) /\
    allocated (cv_life (state c)) = true /\ cv_ready (state c) = true.
Proof.
  exists (played_mutex released).1. split; [vm_compute; reflexivity|].
  destruct (mutex_release_errors posix 0 0 0 (played_mutex released).1
    (played_mutex released).2 ltac:(played)) as ([_ Hcv] & Hend & _). split.
  - apply Hend; vm_compute; reflexivity.
  - apply Hcv. vm_compute. reflexivity.
Defined.
