(* ===== verification/ApiLocks.v ===== *)
(** ApiLocks: src/unsafe/rwlock/rwlock.mbt and src/unsafe/mutex/mutex.mbt, what
    [with_read], [with_write], [with_lock] and the methods of the condition variable
    return or raise.

    The order of their native calls around the callback is in the discipline of the
    callers in RwLock and Mutex; here is what becomes of the statuses of these calls
    and of what the callback returned or raised. *)
From stdpp Require Import base gmap list.
From Stdlib Require Import ZArith Lia.
From S2P Require Import Prelude Platform Arc OsMutex RwLock Mutex MutexCalls MutexSafety Interleave Api.

(** ** Callbacks *)

(** What a function that takes a callback does: it returns a value, raises an error
    of the library, or the error that the callback raised. *)
Inductive ended (R E : Type) := Value (x : R) | Sync (e : SyncError) | Thrown (e : E).
Arguments Value {R E} x.
Arguments Sync {R E} e.
Arguments Thrown {R E} e.

Section callbacks.
Context {R E : Type}.
Implicit Types (f : R + E).

(** The callback itself returns or raises. *)
Definition callback f : ended R E := match f with inl x => Value x | inr e => Thrown e end.

Definition unless_status (status : Z) (e : Z -> SyncError) (x : ended R E) : ended R E :=
  if negb (status =? 0) then Sync (e status) else x.

(** [defer]: the unlock runs whatever the callback does. *)
Definition with_read (lock_status unlock_status : Z) f : ended R E :=
  unless_status lock_status RwLockOperationFailed
    (unless_status unlock_status RwLockOperationFailed (callback f)).

Definition with_write (lock_status unlock_status : Z) f : ended R E :=
  unless_status lock_status RwLockOperationFailed
    (unless_status unlock_status RwLockOperationFailed (callback f)).

(** [errdefer]: one unlock for a callback that raises, another after one that
    returns. *)
Definition with_lock (lock_status unlock_status : Z) f : ended R E :=
  unless_status lock_status MutexOperationFailed
    match f with
    | inr e => unless_status unlock_status MutexOperationFailed (Thrown e)
    | inl x => unless_status unlock_status MutexOperationFailed (Value x)
    end.

(** The error of the first status that is not 0, or else what the callback did. *)
Definition first_error (e : Z -> SyncError) (statuses : list Z) f : ended R E :=
  match filter (fun st => st <> 0) statuses with
  | st :: _ => Sync (e st)
  | [] => callback f
  end.

Lemma with_read_first l u f : with_read l u f = first_error RwLockOperationFailed [l; u] f.
Proof.
  unfold with_read, first_error, unless_status. rewrite !filter_cons, filter_nil.
  destruct (Z.eqb_spec l 0), (Z.eqb_spec u 0); repeat case_decide; done.
Qed.

Lemma with_write_first l u f : with_write l u f = first_error RwLockOperationFailed [l; u] f.
Proof. apply with_read_first. Qed.

Lemma with_lock_first l u f : with_lock l u f = first_error MutexOperationFailed [l; u] f.
Proof.
  unfold with_lock, first_error, unless_status. rewrite !filter_cons, filter_nil.
  destruct (Z.eqb_spec l 0), (Z.eqb_spec u 0), f; repeat case_decide; done.
Qed.
End callbacks.

(** ** Condition variables *)

(** [wait], [condvar_wait_unchecked], [notify_one] and [notify_all]. *)
Definition condvar_operation (status : Z) : answer unit :=
  unless_failed status CondvarOperationFailed (Returns tt).

(** ** What they say about an execution *)

(** The statuses of the calls of the operating system, and of the test hooks, that
    failed. *)
Definition failed_statuses {L : lang} (es : list (event L)) : list Z :=
  omap (fun e => match e with Failed st => Some st | Effect _ => None end) es.

(** What a function makes of the failures [es] in its native calls and of its callback. *)
Definition told {R E} {L : lang} (e : Z -> SyncError) (es : list (event L)) (f : R + E) : ended R E :=
  match head (failed_statuses es) with Some st => Sync (e st) | None => callback f end.

Lemma reports_first {R E} {L : lang} e (es1 es2 : list (event L)) l u (f : R + E) :
  reports es1 l -> reports es2 u -> first_error e [l; u] f = told e (es1 ++ es2) f.
Proof.
  unfold first_error, told. rewrite !filter_cons, filter_nil.
  destruct es1 as [|[a|] es1]; simpl; [intros ->| |done].
  - destruct es2 as [|[b|] es2]; simpl; [intros ->| |done]; [done|]. intros [-> Hb]. by rewrite decide_True.
  - intros [-> Ha] _. by rewrite decide_True.
Qed.

(** A call of [with_read] or [with_write] returns what its callback returned, or
    raises what it raised, unless one of its two native calls failed: then it
    raises [RwLockOperationFailed] with the first failing status. *)
Lemma rwlock_callbacks `{P : platform} {R E} e1 e2 e3 c tr tr1 t w l tr2 u tr3 (f : R + E) :
  reachable RwLock.rwlock_code (RwLock.no_lock e1 e2 e3) c tr ->
  let lock := if w : bool then RwLock.OpWriteLock else RwLock.OpReadLock in
  let unlock := if w then RwLock.OpWriteUnlock else RwLock.OpReadUnlock in
  let before := tr1 ++ @LRes RwLock.rwlock t lock (RwLock.RStatus l) :: tr2 in
  tr = before ++ @LRes RwLock.rwlock t unlock (RwLock.RStatus u) :: tr3 ->
  (if w then with_write l u f else with_read l u f) =
    told RwLockOperationFailed (events tr1 t ++ events before t) f.
Proof.
  intros H lock unlock before Htr.
  assert (tr = tr1 ++ @LRes RwLock.rwlock t lock (RwLock.RStatus l) ::
    (tr2 ++ @LRes RwLock.rwlock t unlock (RwLock.RStatus u) :: tr3)) as Htr1
    by (rewrite Htr; unfold before; by rewrite <- app_assoc).
  pose proof (kept_returns _ _ (RwLock.rw_kept e1 e2 e3) c tr tr1 t _ _ _ H Htr1) as Hl.
  pose proof (kept_returns _ _ (RwLock.rw_kept e1 e2 e3) c tr before t _ _ tr3 H Htr) as Hu.
  assert (reports (events tr1 t) l) as Hl' by (by destruct w).
  assert (reports (events before t) u) as Hu' by (by destruct w).
  rewrite <- (reports_first _ _ _ _ _ f Hl' Hu'). destruct w; [apply with_write_first|apply with_read_first].
Qed.

(** The same for [with_lock], and [MutexOperationFailed]. *)
Lemma mutex_callbacks (P : platform) `{IDs : !Identities P} {R E} e1 e2 e3 c tr tr1 t l b tr2 u tr3 (f : R + E) :
  reachable (@Mutex.mutex_code P) (Mutex.no_mutex e1 e2 e3) c tr ->
  let before := tr1 ++ @LRes Mutex.mutex t Mutex.OpLockGet (Mutex.RBox l b) :: tr2 in
  tr = before ++ @LRes Mutex.mutex t Mutex.OpReleaseUnlock (Mutex.RStatus u) :: tr3 ->
  with_lock l u f = told MutexOperationFailed (events tr1 t ++ events before t) f /\ b = (l =? 0).
Proof.
  intros H before Htr.
  assert (tr = tr1 ++ @LRes Mutex.mutex t Mutex.OpLockGet (Mutex.RBox l b) ::
    (tr2 ++ @LRes Mutex.mutex t Mutex.OpReleaseUnlock (Mutex.RStatus u) :: tr3)) as Htr1
    by (rewrite Htr; unfold before; by rewrite <- app_assoc).
  destruct (kept_returns _ _ (MutexSafety.mx_kept P e1 e2 e3) c tr tr1 t _ _ _ H Htr1) as [Hl Hb].
  pose proof (kept_returns _ _ (MutexSafety.mx_kept P e1 e2 e3) c tr before t _ _ tr3 H Htr) as Hu.
  split; [|done]. rewrite <- (reports_first _ _ _ _ _ f Hl Hu). apply with_lock_first.
Qed.

(** A [wait], [notify_one] or [notify_all] raises exactly when a call of the
    operating system failed in it, with the first failing status. *)
Lemma condvar_operations (P : platform) `{IDs : !Identities P} e1 e2 e3 c tr tr1 t o st tr2 :
  reachable (@Mutex.mutex_code P) (Mutex.no_mutex e1 e2 e3) c tr ->
  o ∈ [Mutex.OpWait; Mutex.OpNotifyOne; Mutex.OpNotifyAll] ->
  tr = tr1 ++ @LRes Mutex.mutex t o (Mutex.RStatus st) :: tr2 ->
  condvar_operation st =
    match head (failed_statuses (events tr1 t)) with
    | Some st => Raises (CondvarOperationFailed st)
    | None => Returns tt
    end.
Proof.
  intros H Ho Htr. pose proof (kept_returns _ _ (MutexSafety.mx_kept P e1 e2 e3) c tr tr1 t _ _ _ H Htr) as Hr.
  assert (reports (events tr1 t) st) as Hs by (set_unfold in Ho; by destruct_or!; subst).
  unfold condvar_operation. destruct (events tr1 t) as [|[a|] es]; simpl in Hs |- *; [by rewrite Hs| |done].
  destruct Hs as [-> Ha]. by apply unless_failed_raises.
Qed.
