(* ===== verification/Thread.v ===== *)
(** Thread: src/unsafe/thread/native.c: a spawned thread, its handle, and the
    hand-over of the task and of its result.

    The [platform] says which branch of the file is compiled.  On Windows a join is
    two calls, of which the second may fail after the thread has ended, and the
    identity of a thread may be used again once it has ended.

    One thread object: [spawn_raw] of thread.mbt creates the handle and starts the
    thread before anybody else sees the handle; then any number of calls may use
    the handle at the same time, and its finalizer runs when none does.  The new
    thread runs [sync_thread_main], whose call of the task is a point where the
    thread may do anything, calls on its own handle included, before it ends. *)
From stdpp Require Import base gmap list.
From Stdlib Require Import ZArith Lia.
From S2P Require Import Prelude Interleave Platform Arc OsMutex.

(** ** State *)

(** The constants of [core->state]. *)
Definition SYNC_THREAD_CREATED : Z := 0.
Definition SYNC_THREAD_JOINABLE : Z := 1.
Definition SYNC_THREAD_JOINING : Z := 2.
Definition SYNC_THREAD_DETACHING : Z := 3.
Definition SYNC_THREAD_JOINED : Z := 4.
Definition SYNC_THREAD_DETACHED : Z := 5.
Definition SYNC_THREAD_FAILED : Z := 6.

Create HintDb states.
#[global] Hint Unfold SYNC_THREAD_CREATED SYNC_THREAD_JOINABLE SYNC_THREAD_JOINING SYNC_THREAD_DETACHING
  SYNC_THREAD_JOINED SYNC_THREAD_DETACHED SYNC_THREAD_FAILED : states.

(** The fields of [sync_thread_core_t] that its mutex protects: whether [task] is
    not NULL, the address of the result (0 is NULL), the flags, the state. *)
Record fields := Fields {
  task : bool;
  result : Z;
  started : Z;
  finished : Z;
  state_of : Z;
}.

Definition no_fields : fields := Fields false 0 0 0 SYNC_THREAD_CREATED.

(** The OS thread [core->thread]: created, and joined or detached. *)
Inductive os_thread := NotCreated | Joinable (v : tid) | Gone (v : tid).

(** How far the new thread is in [sync_thread_main]. *)
Inductive main_phase := NoMain | Begins | InTask | Ends | Ended.

(** The life of the handle in thread.mbt. *)
Inductive client_stage := NoHandle | Spawning (t : tid) | Starting (t : tid) | Open | Dropped.

#[export] Instance os_thread_eq : EqDecision os_thread.
Proof. solve_decision. Defined.
#[export] Instance main_phase_eq : EqDecision main_phase.
Proof. solve_decision. Defined.
#[export] Instance client_stage_eq : EqDecision client_stage.
Proof. solve_decision. Defined.

Record thread_state := ThState {
  th_life : life;
  mutex : os_mutex;
  mutex_initialized : Z;
  fs : fields;
  called : bool;        (** [core->call] is not NULL *)
  id : Z;
  os : os_thread;
  phase : main_phase;
  task_object : bool;   (** a reference to the closure of the task is left *)
  stage : client_stage;
  borrows : Z;          (** calls that use the handle *)
  next_start_error : Z;
  next_join_error : Z;
  next_detach_error : Z;
}.

Inductive thread_op :=
| OpNew | OpStart | OpMain | OpComplete (r : Z) | OpMainEnd
| OpJoin | OpDetach | OpIsFinished | OpId | OpFinalize
| OpYield | OpCurrentId | OpTestAbortIfUnjoined
| OpFailNextStart (st : Z) | OpFailNextJoin (st : Z) | OpFailNextDetach (st : Z).

#[export] Instance thread_op_eq : EqDecision thread_op.
Proof. solve_decision. Defined.

Inductive thread_result :=
| RNew (st : Z) (handle : bool)
| RStatus (st : Z)
| RJoin (r st : Z)          (** the result, and [*status] *)
| RFinished (b st : Z)
| RId (z : Z)
| RVoid.

(** What is shown of a run: the writes of [core->state], where a reference to the
    task is dropped, and where a result is kept in the core, refused, taken out of
    the core by a join, or dropped with the core. *)
Inductive thread_effect :=
| SetState (z : Z) | DropTask | Keep (r : Z) | Refuse (r : Z) | Deliver (r : Z) | Discard (r : Z).

Definition thread : lang := Lang thread_state thread_op thread_result thread_effect.

Section with_fields.
Implicit Types s : thread_state.

Definition with_life (c : life) s : thread_state :=
  ThState c (mutex s) (mutex_initialized s) (fs s) (called s) (id s) (os s) (phase s) (task_object s)
    (stage s) (borrows s) (next_start_error s) (next_join_error s) (next_detach_error s).
Definition with_mutex (m : os_mutex) s : thread_state :=
  ThState (th_life s) m (mutex_initialized s) (fs s) (called s) (id s) (os s) (phase s) (task_object s)
    (stage s) (borrows s) (next_start_error s) (next_join_error s) (next_detach_error s).
Definition with_initialized (z : Z) s : thread_state :=
  ThState (th_life s) (mutex s) z (fs s) (called s) (id s) (os s) (phase s) (task_object s)
    (stage s) (borrows s) (next_start_error s) (next_join_error s) (next_detach_error s).
Definition with_fs (f : fields) s : thread_state :=
  ThState (th_life s) (mutex s) (mutex_initialized s) f (called s) (id s) (os s) (phase s)
    (task_object s) (stage s) (borrows s) (next_start_error s) (next_join_error s) (next_detach_error s).
Definition with_called (b : bool) s : thread_state :=
  ThState (th_life s) (mutex s) (mutex_initialized s) (fs s) b (id s) (os s) (phase s) (task_object s)
    (stage s) (borrows s) (next_start_error s) (next_join_error s) (next_detach_error s).
Definition with_id (z : Z) s : thread_state :=
  ThState (th_life s) (mutex s) (mutex_initialized s) (fs s) (called s) z (os s) (phase s)
    (task_object s) (stage s) (borrows s) (next_start_error s) (next_join_error s) (next_detach_error s).
Definition with_os (o : os_thread) (p : main_phase) s : thread_state :=
  ThState (th_life s) (mutex s) (mutex_initialized s) (fs s) (called s) (id s) o p (task_object s)
    (stage s) (borrows s) (next_start_error s) (next_join_error s) (next_detach_error s).
Definition with_object (b : bool) s : thread_state :=
  ThState (th_life s) (mutex s) (mutex_initialized s) (fs s) (called s) (id s) (os s) (phase s) b
    (stage s) (borrows s) (next_start_error s) (next_join_error s) (next_detach_error s).
Definition with_stage (g : client_stage) (b : Z) s : thread_state :=
  ThState (th_life s) (mutex s) (mutex_initialized s) (fs s) (called s) (id s) (os s) (phase s)
    (task_object s) g b (next_start_error s) (next_join_error s) (next_detach_error s).
End with_fields.

Definition th_lens : lens (lS thread) life := Lens (fun s => th_life s) (fun c s => with_life c s).
Definition mutex_lens : lens (lS thread) os_mutex := Lens (fun s => mutex s) (fun m s => with_mutex m s).

(** ** Memory accesses and OS calls *)

(** The new thread may be reading [core->call] and [core->task], or running the
    task, without the mutex. *)
Definition running_task (s : thread_state) : bool := bool_decide (phase s ∈ [Begins; InTask]).

(** A thread may access the protected fields if it has the mutex, nobody else can
    reach the core, or it starts the thread, which is not created yet. *)
Definition accessible (t : tid) (s : thread_state) : bool :=
  allocated (th_life s) &&
  (bool_decide (held (mutex s) = Some t) || negb (shared (th_life s)) ||
   bool_decide (stage s = Starting t) && bool_decide (os s = NotCreated)).

Definition shown (e : thread_effect) : list (event thread) := [@Effect thread e].

(** An access to the protected fields; [touch] if it may write [core->task]. *)
Definition access {A} (touch : bool) (f : fields -> A * fields * list (event thread))
    (k : A -> prog thread) : prog thread :=
  Act (fun t _ _ s =>
    if accessible t s && negb (touch && running_task s) then
      match f (fs s) with (x, fl, es) => Go (x, with_fs fl s, es) end
    else Fault) k.

Definition read_fields (k : fields -> prog thread) : prog thread :=
  access false (fun f => (f, f, [])) k.

Definition set_state (z : Z) (f : fields) : fields :=
  Fields (task f) (result f) (started f) (finished f) z.
Definition write_state (z : Z) (k : prog thread) : prog thread :=
  access false (fun f => (tt, set_state z f, shown (SetState z))) (fun _ => k).
(** The same write in the constructor, on the zeroed core. *)
Definition init_state (k : prog thread) : prog thread :=
  access false (fun f => (tt, set_state SYNC_THREAD_CREATED f, [])) (fun _ => k).
Definition write_started (z : Z) (k : prog thread) : prog thread :=
  access false (fun f => (tt, Fields (task f) (result f) z (finished f) (state_of f), [])) (fun _ => k).
Definition write_finished (z : Z) (k : prog thread) : prog thread :=
  access false (fun f => (tt, Fields (task f) (result f) (started f) z (state_of f), [])) (fun _ => k).
Definition write_task (b : bool) (k : prog thread) : prog thread :=
  access true (fun f => (tt, Fields b (result f) (started f) (finished f) (state_of f), [])) (fun _ => k).

(** [core->result = result] *)
Definition keep_result (r : Z) (k : prog thread) : prog thread :=
  access false (fun f => (tt, Fields (task f) r (started f) (finished f) (state_of f), shown (Keep r)))
    (fun _ => k).
(** [result = core->result; core->result = NULL] *)
Definition take_result (k : Z -> prog thread) : prog thread :=
  access false (fun f =>
    (result f, Fields (task f) 0 (started f) (finished f) (state_of f), shown (Deliver (result f)))) k.
(** [moonbit_decref(core->result)] before the core is freed *)
Definition discard_result (k : prog thread) : prog thread :=
  access false (fun f => (tt, f, shown (Discard (result f)))) (fun _ => k).

(** [moonbit_decref] of a result that is not kept *)
Definition refuse_result (r : Z) (k : prog thread) : prog thread :=
  Act (fun _ _ _ s => Go (tt, s, shown (Refuse r))) (fun _ => k).

(** [moonbit_decref(task)]: there must be a reference, and nobody running it. *)
Definition decref_task (k : prog thread) : prog thread :=
  Act (fun _ _ _ s =>
    if task_object s && negb (running_task s)
    then Go (tt, with_object false s, shown DropTask) else Fault) (fun _ => k).

(** [core->call = call] *)
Definition write_call (k : prog thread) : prog thread :=
  Act (fun t _ _ s =>
    if accessible t s && negb (running_task s) then Go (tt, with_called true s, []) else Fault) (fun _ => k).

(** [core->mutex_initialized] *)
Definition write_initialized (z : Z) (k : prog thread) : prog thread :=
  Act (fun _ _ _ s => if private (th_life s) then Go (tt, with_initialized z s, []) else Fault) (fun _ => k).
Definition read_initialized (k : Z -> prog thread) : prog thread :=
  Act (fun _ _ _ s => if private (th_life s) then Go (mutex_initialized s, s, []) else Fault) k.

Section native.
Context {P : platform}.

Definition bits (o : os_thread) : Z :=
  match o with NotCreated => 0 | Joinable v | Gone v => self P v end.

(** [memcpy(&core->id, &core->thread, ...)], or the identity [CreateThread] gives *)
Definition write_id (k : prog thread) : prog thread :=
  Act (fun t _ _ s =>
    if allocated (th_life s) && bool_decide (stage s = Starting t) && bool_decide (os s <> NotCreated)
    then Go (tt, with_id (bits (os s)) s, []) else Fault) (fun _ => k).
Definition read_id (k : Z -> prog thread) : prog thread :=
  Act (fun _ _ _ s =>
    if allocated (th_life s) && bool_decide (stage s = Open) then Go (id s, s, []) else Fault) k.

(** [pthread_create(&core->thread, NULL, sync_thread_main, core)], or [CreateThread] *)
Definition pthread_create (k : Z -> prog thread) : prog thread :=
  Fork OpMain (fun v s =>
    if allocated (th_life s) && bool_decide (os s = NotCreated)
    then Go (with_os (Joinable v) Begins s) else Fault) k.

(** [pthread_equal(pthread_self(), core->thread)]; on Windows, where the identity of
    a thread that has ended may be used again,
    [GetCurrentThreadId() == core->id && WaitForSingleObject(core->thread, 0) == WAIT_TIMEOUT] *)
Definition is_self (t v : tid) (s : thread_state) : bool :=
  if windows P then (self P t =? id s) && bool_decide (phase s <> Ended) else bool_decide (v = t).

Definition joining_self (k : bool -> prog thread) : prog thread :=
  Act (fun t _ _ s =>
    match os s with
    | Joinable v => if accessible t s then Go (is_self t v s, s, []) else Fault
    | _ => Fault
    end) k.

(** [pthread_join]: undefined for a thread that is joined or detached. *)
Definition pthread_join (k : Z -> prog thread) : prog thread :=
  Act (fun _ a _ s =>
    match os s with
    | Joinable v =>
        if negb (a =? 0) then Go (a, s, [Failed a])
        else if bool_decide (phase s = Ended) then Go (a, with_os (Gone v) (phase s) s, []) else Blocked
    | _ => Fault
    end) k.

Definition pthread_detach (k : Z -> prog thread) : prog thread :=
  Act (fun _ a _ s =>
    match os s with
    | Joinable v => Go (a, if a =? 0 then with_os (Gone v) (phase s) s else s, fails a)
    | _ => Fault
    end) k.

(** [WaitForSingleObject(core->thread, INFINITE)], with [GetLastError()] where it fails *)
Definition WaitForSingleObject (k : Z -> prog thread) : prog thread :=
  Act (fun _ a _ s =>
    match os s with
    | Joinable v =>
        if negb (a =? 0) then Go (a, s, [Failed a])
        else if bool_decide (phase s = Ended) then Go (a, s, []) else Blocked
    | _ => Fault
    end) k.

(** [CloseHandle(core->thread)], with [GetLastError()] where it fails *)
Definition CloseHandle (k : Z -> prog thread) : prog thread :=
  Act (fun _ a _ s =>
    match os s with
    | Joinable v => Go (a, if a =? 0 then with_os (Gone v) (phase s) s else s, fails a)
    | _ => Fault
    end) k.

(** Waiting for the thread and giving it up.  On Windows it takes two calls; when
    one of them fails the function goes on as after a failing [pthread_join]. *)
Definition join_thread (k : Z -> prog thread) : prog thread :=
  if windows P then
    WaitForSingleObject (fun wait_status => if negb (wait_status =? 0) then k wait_status else CloseHandle k)
  else pthread_join k.

Definition detach_thread (k : Z -> prog thread) : prog thread :=
  if windows P then CloseHandle k else pthread_detach k.

(** *** Test hooks *)

Inductive hook := StartError | JoinError | DetachError.

Definition hook_get (h : hook) (s : thread_state) : Z :=
  match h with
  | StartError => next_start_error s
  | JoinError => next_join_error s
  | DetachError => next_detach_error s
  end.

Definition hook_set (h : hook) (st : Z) (s : thread_state) : thread_state :=
  ThState (th_life s) (mutex s) (mutex_initialized s) (fs s) (called s) (id s) (os s) (phase s)
    (task_object s) (stage s) (borrows s)
    (match h with StartError => st | _ => next_start_error s end)
    (match h with JoinError => st | _ => next_join_error s end)
    (match h with DetachError => st | _ => next_detach_error s end).

(** [sync_test_atomic_take]; an injected status counts as a failing call. *)
Definition take_test_error (h : hook) (k : Z -> prog thread) : prog thread :=
  Act (fun _ _ _ s => Go (hook_get h s, hook_set h 0 s, fails (hook_get h s))) k.

(** [sync_test_atomic_store] *)
Definition test_fail_next (h : hook) (st : Z) : prog thread :=
  Act (fun _ _ _ s => Go (tt, hook_set h st s, [])) (fun _ => Ret RVoid).

(** ** The functions of native.c *)

Definition sync_thread_abort_if_failed (st : Z) (k : prog thread) : prog thread :=
  if st =? 0 then k else Abort.

Definition sync_thread_lock_or_abort (k : prog thread) : prog thread := (
  st <- sync_os_mutex_lock th_lens mutex_lens;;
  sync_thread_abort_if_failed st;;
  k)%iprog.

Definition sync_thread_unlock_or_abort (k : prog thread) : prog thread := (
  st <- sync_os_mutex_unlock th_lens mutex_lens;;
  sync_thread_abort_if_failed st;;
  k)%iprog.

Definition sync_thread_take_task (k : bool -> prog thread) : prog thread :=
  access true (fun f => (task f, Fields false (result f) (started f) (finished f) (state_of f), [])) k.

Definition sync_thread_core_release (k : prog thread) : prog thread := (
  n <- sync_arc_dec th_lens;;
  if negb (n =? 0) then k else (
  let destroy := (
    z <- read_initialized;;
    if negb (z =? 0) then (
      st <- sync_os_mutex_destroy th_lens mutex_lens;;
      sync_thread_abort_if_failed st;;
      free th_lens;;
      k)
    else (free th_lens;; k)) in
  let drop_result := (
    f <- read_fields;;
    if negb (result f =? 0) then (discard_result;; destroy) else destroy) in
  f <- read_fields;;
  if task f then (decref_task;; drop_result) else drop_result))%iprog.

Definition terminal (z : Z) : bool :=
  (z =? SYNC_THREAD_JOINED) || (z =? SYNC_THREAD_DETACHED) || (z =? SYNC_THREAD_FAILED).

Definition sync_thread_finalize : prog thread := (
  sync_thread_lock_or_abort;;
  f <- read_fields;;
  sync_thread_unlock_or_abort;;
  if negb (terminal (state_of f)) then Abort else (
  sync_thread_core_release;;
  Ret RVoid))%iprog.

Definition sync_thread_wrap (k : prog thread) : prog thread := make_handle th_lens k.

(** [k] gets the status and whether there is a handle. *)
Definition sync_thread_new (k : Z -> bool -> prog thread) : prog thread := (
  sync_alloc th_lens (fun s => with_fs no_fields (with_initialized 0 (with_called false (with_id 0 s))));;
  refs_store th_lens 1;;
  init_state;;
  st <- sync_os_mutex_init th_lens mutex_lens;;
  if negb (st =? 0) then (free th_lens;; k st false) else (
  write_initialized 1;;
  sync_thread_wrap;;
  k st true))%iprog.

(** [core->call(core->task)]: the task starts. *)
Definition sync_thread_main : prog thread :=
  Act (fun t _ _ s =>
    if allocated (th_life s) && bool_decide (phase s = Begins) && called s && task (fs s) && task_object s
    then Go (tt, s, []) else Fault) (fun _ => Ret RVoid).

(** [sync_thread_main] after the task has returned. *)
Definition sync_thread_main_end : prog thread := (
  sync_thread_lock_or_abort;;
  write_finished 1;;
  f <- read_fields;;
  let finish (b : bool) := (
    sync_thread_unlock_or_abort;;
    if b then (decref_task;; sync_thread_core_release;; Ret RVoid)
    else (sync_thread_core_release;; Ret RVoid)) in
  if state_of f =? SYNC_THREAD_DETACHED then (b <- sync_thread_take_task;; finish b) else finish false)%iprog.

(** The common tail of the two ways in which starting fails. *)
Definition start_failed (st : Z) : prog thread := (
  write_task false;;
  decref_task;;
  sync_thread_lock_or_abort;;
  write_state SYNC_THREAD_FAILED;;
  sync_thread_unlock_or_abort;;
  sync_thread_core_release;;
  Ret (RStatus st))%iprog.

Definition sync_thread_start : prog thread := (
  write_call;;
  write_task true;;
  sync_arc_inc th_lens;;
  injected <- take_test_error StartError;;
  if negb (injected =? 0) then start_failed injected else (
  st <- pthread_create;;
  if negb (st =? 0) then start_failed st else (
  write_id;;
  sync_thread_lock_or_abort;;
  write_started 1;;
  write_state SYNC_THREAD_JOINABLE;;
  sync_thread_unlock_or_abort;;
  Ret (RStatus 0))))%iprog.

Definition sync_thread_complete (r : Z) : prog thread := (
  sync_thread_lock_or_abort;;
  f <- read_fields;;
  if result f =? 0
  then (keep_result r;; sync_thread_unlock_or_abort;; Ret RVoid)
  else (refuse_result r;; sync_thread_unlock_or_abort;; Ret RVoid))%iprog.

Definition sync_thread_join : prog thread := (
  sync_thread_lock_or_abort;;
  f <- read_fields;;
  let refuse st := (sync_thread_unlock_or_abort;; Ret (RJoin 0 st)) in
  if (started f =? 0) || (state_of f =? SYNC_THREAD_FAILED) || (state_of f =? SYNC_THREAD_JOINED)
  then refuse (-1) else
  if state_of f =? SYNC_THREAD_DETACHED then refuse (-3) else
  if (state_of f =? SYNC_THREAD_JOINING) || (state_of f =? SYNC_THREAD_DETACHING) then refuse (-4) else (
  me <- joining_self;;
  if me : bool then refuse (-2) else (
  injected <- take_test_error JoinError;;
  if negb (injected =? 0) then refuse injected else (
  write_state SYNC_THREAD_JOINING;;
  sync_thread_unlock_or_abort;;
  st <- join_thread;;
  if negb (st =? 0) then (
    sync_thread_lock_or_abort;;
    write_state SYNC_THREAD_JOINABLE;;
    sync_thread_unlock_or_abort;;
    Ret (RJoin 0 st))
  else (
  sync_thread_lock_or_abort;;
  r <- take_result;;
  b <- sync_thread_take_task;;
  write_state SYNC_THREAD_JOINED;;
  sync_thread_unlock_or_abort;;
  if b : bool then (decref_task;; Ret (RJoin r 0)) else Ret (RJoin r 0))))))%iprog.

Definition sync_thread_detach : prog thread := (
  sync_thread_lock_or_abort;;
  f <- read_fields;;
  let refuse st := (sync_thread_unlock_or_abort;; Ret (RStatus st)) in
  if (started f =? 0) || (state_of f =? SYNC_THREAD_FAILED) || (state_of f =? SYNC_THREAD_JOINED)
  then refuse (-1) else
  if state_of f =? SYNC_THREAD_DETACHED then refuse (-2) else
  if (state_of f =? SYNC_THREAD_JOINING) || (state_of f =? SYNC_THREAD_DETACHING) then refuse (-3) else (
  let undo st := (
    sync_thread_lock_or_abort;;
    write_state SYNC_THREAD_JOINABLE;;
    sync_thread_unlock_or_abort;;
    Ret (RStatus st)) in
  write_state SYNC_THREAD_DETACHING;;
  injected <- take_test_error DetachError;;
  sync_thread_unlock_or_abort;;
  if negb (injected =? 0) then undo injected else (
  st <- detach_thread;;
  if negb (st =? 0) then undo st else (
  sync_thread_lock_or_abort;;
  write_state SYNC_THREAD_DETACHED;;
  f <- read_fields;;
  let finish (b : bool) := (
    sync_thread_unlock_or_abort;;
    if b then (decref_task;; Ret (RStatus 0)) else Ret (RStatus 0)) in
  if negb (finished f =? 0) then (b <- sync_thread_take_task;; finish b) else finish false))))%iprog.

Definition sync_thread_is_finished : prog thread := (
  st <- sync_os_mutex_lock th_lens mutex_lens;;
  if negb (st =? 0) then Ret (RFinished 0 st) else (
  f <- read_fields;;
  st <- sync_os_mutex_unlock th_lens mutex_lens;;
  Ret (RFinished (finished f) st)))%iprog.

Definition sync_thread_test_abort_if_unjoined : prog thread :=
  sync_thread_new (fun st handle =>
    if negb (st =? 0) || negb handle then Abort else sync_thread_finalize).

Definition sync_thread_id : prog thread := (z <- read_id;; Ret (RId z))%iprog.

Definition sync_thread_yield : prog thread := Act (fun _ _ _ s => Go (tt, s, [])) (fun _ => Ret RVoid).

Definition sync_current_thread_id : prog thread :=
  Act (fun t _ _ s => Go (self P t, s, [])) (fun z => Ret (RId z)).

(** ** The clients: thread.mbt *)

(** Thread [t] runs the task. *)
Definition in_task (t : tid) (s : thread_state) : bool :=
  match os s with
  | NotCreated => false
  | Joinable v | Gone v => bool_decide (v = t) && bool_decide (phase s = InTask)
  end.

Definition on_life (f : life -> option life) (s : thread_state) : option thread_state :=
  c ← f (th_life s); Some (with_life c s).

Definition thread_code : code thread := {|
  body o :=
    match o : lO thread with
    | OpNew => sync_thread_new (fun st handle => Ret (RNew st handle))
    | OpStart => sync_thread_start
    | OpMain => sync_thread_main
    | OpComplete r => sync_thread_complete r
    | OpMainEnd => sync_thread_main_end
    | OpJoin => sync_thread_join
    | OpDetach => sync_thread_detach
    | OpIsFinished => sync_thread_is_finished
    | OpId => sync_thread_id
    | OpFinalize => sync_thread_finalize
    | OpYield => sync_thread_yield
    | OpCurrentId => sync_current_thread_id
    | OpTestAbortIfUnjoined => sync_thread_test_abort_if_unjoined
    | OpFailNextStart st => test_fail_next StartError st
    | OpFailNextJoin st => test_fail_next JoinError st
    | OpFailNextDetach st => test_fail_next DetachError st
    end;
  enter t o s :=
    match o : lO thread with
    | OpNew | OpTestAbortIfUnjoined => on_life create s
    | OpStart =>
        if bool_decide (stage s = Spawning t)
        then Some (with_object true (with_stage (Starting t) (borrows s) s)) else None
    | OpMain => None
    | OpComplete r => if in_task t s && negb (r =? 0) then Some s else None
    | OpMainEnd => if in_task t s then on_life unpin (with_os (os s) Ends s) else None
    | OpJoin | OpDetach | OpIsFinished | OpId =>
        if bool_decide (stage s = Open) then Some (with_stage Open (borrows s + 1) s) else None
    | OpFinalize =>
        if bool_decide (stage s = Open) && (borrows s =? 0)
        then on_life take (with_stage Dropped 0 s) else None
    | OpYield | OpCurrentId | OpFailNextStart _ | OpFailNextJoin _ | OpFailNextDetach _ => Some s
    end;
  leave t o r s :=
    match o : lO thread, r : lR thread with
    | OpNew, RNew _ true => with_stage (Spawning t) (borrows s) s
    | OpStart, _ => with_stage Open (borrows s) s
    | OpMain, _ => with_life (pin (th_life s)) (with_os (os s) InTask s)
    | OpMainEnd, _ => with_os (os s) Ended s
    | (OpJoin | OpDetach | OpIsFinished | OpId), _ => with_stage (stage s) (borrows s - 1) s
    | _, _ => s
    end;
|}.

(** No thread yet, with the test hooks set to anything. *)
Definition no_thread (e1 e2 e3 : Z) : lS thread :=
  ThState unborn no_mutex 0 no_fields false 0 NotCreated NoMain false NoHandle 0 e1 e2 e3.
End native.

(** ** What a trace shows *)

(** Most recent first: the states written, the results kept, delivered and
    discarded; how often a reference to the task was dropped; whether the
    finalizer has returned. *)
Record summary := Summary {
  past : list Z;
  drops : Z;
  kept : list Z;
  delivered : list Z;
  discarded : list Z;
  finalized : bool;
}.

Definition nothing : summary := Summary [] 0 [] [] [] false.

Definition note_effect (m : summary) (e : thread_effect) : summary :=
  match e with
  | SetState z => Summary (z :: past m) (drops m) (kept m) (delivered m) (discarded m) (finalized m)
  | DropTask => Summary (past m) (drops m + 1) (kept m) (delivered m) (discarded m) (finalized m)
  | Keep r => Summary (past m) (drops m) (r :: kept m) (delivered m) (discarded m) (finalized m)
  | Refuse _ => m
  | Deliver r => Summary (past m) (drops m) (kept m) (r :: delivered m) (discarded m) (finalized m)
  | Discard r => Summary (past m) (drops m) (kept m) (delivered m) (r :: discarded m) (finalized m)
  end.

Definition note (m : summary) (l : label thread) : summary :=
  match l with
  | LEv _ (Effect e) => note_effect m e
  | LRes _ OpFinalize _ => Summary (past m) (drops m) (kept m) (delivered m) (discarded m) true
  | _ => m
  end.

Definition summarize (tr : list (label thread)) : summary := fold_left note tr nothing.

Definition note_event (m : summary) (e : event thread) : summary :=
  match e with Effect e => note_effect m e | Failed _ => m end.

Lemma summarize_app tr ls : summarize (tr ++ ls) = fold_left note ls (summarize tr).
Proof. apply fold_left_app. Qed.

Lemma summarize_events tr t (es : list (event thread)) :
  summarize (tr ++ (LEv t <$> es)) = fold_left note_event es (summarize tr).
Proof.
  rewrite summarize_app. generalize (summarize tr).
  induction es as [|[st|e] es IH]; intros m; simpl; [done|apply IH..].
Qed.

(** *** The state machine of a thread object *)

Definition lifecycle (z z' : Z) : bool :=
  match z, z' with
  | 0, (1 | 6) => true       (* CREATED: JOINABLE, FAILED *)
  | 1, (2 | 3) => true       (* JOINABLE: JOINING, DETACHING *)
  | 2, (1 | 4) => true       (* JOINING: JOINABLE again, JOINED *)
  | 3, (1 | 5) => true       (* DETACHING: JOINABLE again, DETACHED *)
  | _, _ => false
  end.

Definition latest (l : list Z) : Z := match l with [] => SYNC_THREAD_CREATED | z :: _ => z end.

(** The states written follow the machine, from CREATED. *)
Fixpoint path (l : list Z) : Prop :=
  match l with
  | [] => True
  | z :: l => lifecycle (latest l) z = true /\ path l
  end.

Lemma path_range l : path l -> 0 <= latest l <= 6.
Proof.
  destruct l as [|z l]; [done|]. simpl. intros [Hz _].
  assert (z = 1 \/ z = 2 \/ z = 3 \/ z = 4 \/ z = 5 \/ z = 6); [|lia].
  unfold lifecycle in Hz. repeat case_match; simplify_eq; auto 7.
Qed.

(** No state is left after a terminal one. *)
Lemma path_terminal l : path l -> forall z, z ∈ l -> terminal z = true -> latest l = z.
Proof.
  induction l as [|y l IH]; [by intros _ z ?%not_elem_of_nil|].
  intros [Hy Hl] z [->|Hz]%elem_of_cons Ht; [done|]. specialize (IH Hl z Hz Ht). rewrite IH in Hy.
  unfold terminal, SYNC_THREAD_JOINED, SYNC_THREAD_DETACHED, SYNC_THREAD_FAILED in Ht.
  apply orb_true_iff in Ht as [[Ht|Ht]%orb_true_iff|Ht]; apply Z.eqb_eq in Ht; rewrite Ht in Hy; discriminate Hy.
Qed.
