(* ===== verification/ThreadInvariant.v ===== *)
(** ThreadInvariant: the invariant of a thread object, and the steps that keep it.

    Every running call has a ghost value: its stake in the core, its role, and
    what it knows of the fields.  [th_inv] relates them to the state and to what
    the trace has shown; the lemmas on steps are those the proofs of the single
    functions use, in ThreadCalls and ThreadSafety. *)
From stdpp Require Import base gmap list.
From Stdlib Require Import ZArith Lia.
From S2P Require Import Prelude Interleave Platform Arc OsMutex Thread.

(** ** The proof outline *)

Inductive role :=
| IsNone
| IsMaking | IsMade                (* the constructor, before and after it has made the handle *)
| IsEarly | IsLate (b : bool)    (* [start], before and after it has created the thread ([b]: and set [id]) *)
| IsUp                          (* [start] when the state is set *)
| IsUser                        (* a call on the handle *)
| IsJoin (n : nat)              (* which joins: 0 before pthread_join, 1 after it, 2 with the result *)
| IsWaited                      (* which joins on Windows: the thread has ended, CloseHandle is next *)
| IsDetach (b : bool)           (* which detaches: before and after pthread_detach *)
| IsBegin | IsTask | IsEnd        (* the new thread: before, in and after the task *)
| IsDrop (z : option Z).        (* the finalizer, and the state it has seen *)

(** What a running call has: its stake in the core, whether it has the mutex, the
    protected fields if it knows them, references to the task beside [core->task],
    whether it has discarded the result. *)
Record th_ghost := ThGhost {
  stk : stake;
  does : role;
  locked : bool;
  hold : option fields;
  has : Z;
  dumped : bool;
  view : bool * Z;
}.

Definition fine (alloc : bool) (x : bool * Z) : Prop := x.1 = alloc /\ (alloc = true -> x.2 = 1).

(** A role that keeps the handle or the task, hence the core, alive. *)
Definition keeps_core (r : role) : bool :=
  match r with
  | IsMade | IsEarly | IsLate _ | IsUp | IsUser | IsJoin _ | IsWaited | IsDetach _ | IsTask => true
  | _ => false
  end.
(** A role that may have counted a reference of its own. *)
Definition counts_core (r : role) : bool :=
  match r with IsEarly | IsLate _ | IsUp | IsBegin | IsEnd | IsDrop _ => true | _ => false end.
Definition borrow (r : role) : Z := match r with IsUser | IsJoin _ | IsWaited | IsDetach _ => 1 | _ => 0 end.
Definition uses (g : th_ghost) : Prop := 1 <= weight (stk g) \/ keeps_core (does g) = true.
Definition owner (g : th_ghost) : Prop := exists z, stk g = Owns (Some z).

Section outline.
Context (P : platform).

Definition runs (t : tid) (s : thread_state) : Prop := os s = Joinable t \/ os s = Gone t.

(** [x] is the call that may move the state on. *)
Definition role_ok (x : option tid) (m : summary) (s : thread_state) (t : tid) (r : role) : Prop :=
  let z := state_of (fs s) in
  match r with
  | IsNone => True
  | IsMaking => x = Some t /\ stage s = NoHandle /\ made (th_life s) = true
  | IsMade => x = Some t /\ stage s = NoHandle /\ made (th_life s) = true /\ handles (th_life s) = 1
  | IsEarly =>
      x = Some t /\ stage s = Starting t /\ os s = NotCreated /\ z = SYNC_THREAD_CREATED /\ id s = 0
  | IsLate b =>
      x = Some t /\ stage s = Starting t /\ (exists v, os s = Joinable v) /\ z = SYNC_THREAD_CREATED /\
      (b = true -> id s = bits (os s))
  | IsUp => stage s = Starting t /\ z <> SYNC_THREAD_CREATED /\ id s = bits (os s)
  | IsUser => stage s = Open
  | IsJoin n =>
      x = Some t /\ stage s = Open /\ z = SYNC_THREAD_JOINING /\
      (if decide (n = 0%nat) then exists v, os s = Joinable v else (exists v, os s = Gone v) /\ phase s = Ended) /\
      ((n < 2)%nat -> delivered m = [])
  | IsWaited =>
      x = Some t /\ stage s = Open /\ z = SYNC_THREAD_JOINING /\
      (exists v, os s = Joinable v) /\ phase s = Ended /\ delivered m = []
  | IsDetach b =>
      x = Some t /\ stage s = Open /\ z = SYNC_THREAD_DETACHING /\
      exists v, os s = if b then Gone v else Joinable v
  | IsBegin => phase s = Begins /\ runs t s
  | IsTask => phase s = InTask /\ runs t s
  | IsEnd => phase s = Ends /\ runs t s
  | IsDrop y => stage s = Dropped /\ forall w, y = Some w -> z = w
  end.

Record ghost_ok (x : option tid) (m : summary) (s : thread_state) (t : tid) (g : th_ghost) : Prop := {
  go_role : role_ok x m s t (does g);
  go_hold f : hold g = Some f -> fs s = f /\ (locked g = true \/ owner g \/ does g = IsEarly);
  go_locked : locked g = true <-> held (mutex s) = Some t;
  go_uses : locked g = true -> hold g <> None /\ uses g;
  go_has : has g <> 0 -> running_task s = false /\ (uses g \/ owner g);
  go_neg : has g < 0 -> owner g;
  go_weight : 1 <= weight (stk g) -> counts_core (does g) = true;
  go_dumped : dumped g = true -> owner g /\ discarded m <> [];
  go_called : does g = IsEarly -> (view g).1 = true -> called s = true;
}.

Definition given (g : client_stage) : bool :=
  match g with NoHandle | Spawning _ => false | _ => true end.

(** What the state is in each stage of the handle and of the new thread. *)
Record state_ok (s : thread_state) : Prop := {
  so_new : given (stage s) = false ->
    fs s = no_fields /\ os s = NotCreated /\ id s = 0 /\ task_object s = false;
  so_open : stage s = Open \/ stage s = Dropped ->
    state_of (fs s) <> SYNC_THREAD_CREATED /\ id s = bits (os s);
  so_up : state_of (fs s) = SYNC_THREAD_JOINABLE -> started (fs s) <> 0 /\ exists v, os s = Joinable v;
  so_moving : state_of (fs s) = SYNC_THREAD_JOINING \/ state_of (fs s) = SYNC_THREAD_DETACHING ->
    started (fs s) <> 0;
  so_joined : state_of (fs s) = SYNC_THREAD_JOINED -> phase s = Ended;
  so_gone : state_of (fs s) = SYNC_THREAD_JOINED \/ state_of (fs s) = SYNC_THREAD_DETACHED ->
    exists v, os s = Gone v;
  so_failed : state_of (fs s) = SYNC_THREAD_FAILED -> os s = NotCreated;
  so_main : os s = NotCreated <-> phase s = NoMain;
  so_finished : finished (fs s) <> 0 -> phase s = Ends \/ phase s = Ended;
  so_running : running_task s = true -> task (fs s) = true /\ called s = true /\ task_object s = true;
  so_result : phase s = NoMain \/ phase s = Begins -> result (fs s) = 0;
  so_pins : pins (th_life s) = b2z (bool_decide (phase s = InTask));
  so_handle : (exists t, stage s = Spawning t \/ stage s = Starting t) \/ stage s = Open ->
    handles (th_life s) = 1;
  so_dropped : stage s = Dropped -> handles (th_life s) = 0;
  so_made : stage s <> NoHandle -> made (th_life s) = true;
}.

(** Where the result is. *)
Definition result_ok (f : fields) (m : summary) : Prop :=
  match kept m with
  | [] => result f = 0 /\ (delivered m = [] \/ delivered m = [0]) /\ discarded m = []
  | [r] => r <> 0 /\
      (result f = r /\ delivered m = [] /\ discarded m = [] \/
       result f = 0 /\ delivered m = [r] /\ discarded m = [] \/
       delivered m = [] /\ discarded m = [r])
  | _ => False
  end.

Record account (m : summary) (s : thread_state) (tasks users : Z) : Prop := {
  ac_path : path (past m);
  ac_state : state_of (fs s) = latest (past m);
  ac_task : if allocated (th_life s) then b2z (task_object s) = b2z (task (fs s)) + tasks
            else task_object s = false;
  ac_drops : drops m = b2z (given (stage s)) - b2z (task_object s);
  ac_users : borrows s = users;
  ac_result : result_ok (fs s) m;
  ac_delivered : delivered m <> [] ->
    phase s = Ended /\ (state_of (fs s) = SYNC_THREAD_JOINED \/ state_of (fs s) = SYNC_THREAD_JOINING);
  ac_freed : allocated (th_life s) = false -> delivered m = [] -> discarded m = [] -> kept m = [];
  ac_finalized : finalized m = true -> stage s = Dropped /\ terminal (state_of (fs s)) = true;
  ac_new : given (stage s) = false -> kept m = [];
}.

Record th_inv (x : option tid) (m : summary) (s : lS thread) (gs : gmap tid th_ghost) : Prop := {
  th_counted : counted stk (th_life s) gs;
  th_known : known stk view fine (th_life s) (ready (mutex s), mutex_initialized s) gs;
  th_ghosts t g : gs !! t = Some g -> ghost_ok x m s t g;
  th_state : state_ok s;
  th_account : account m s (msum has gs) (msum (fun g => borrow (does g)) gs);
  th_held t : held (mutex s) = Some t -> exists g, gs !! t = Some g;
  th_discarded : discarded m <> [] ->
    allocated (th_life s) = false \/ exists t g, gs !! t = Some g /\ dumped g = true;
  th_begins : phase s = Begins -> exists t g, gs !! t = Some g /\ does g = IsBegin /\ stk g = Holds 1;
}.

End outline.

Arguments go_role {P x m s t g} _.
Arguments go_hold {P x m s t g} _.
Arguments go_locked {P x m s t g} _.
Arguments go_uses {P x m s t g} _.
Arguments go_has {P x m s t g} _.
Arguments go_neg {P x m s t g} _.
Arguments go_weight {P x m s t g} _.
Arguments go_dumped {P x m s t g} _.
Arguments go_called {P x m s t g} _.
Arguments so_new {P s} _.
Arguments so_open {P s} _.
Arguments so_up {P s} _.
Arguments so_moving {P s} _.
Arguments so_joined {P s} _.
Arguments so_gone {P s} _.
Arguments so_failed {P s} _.
Arguments so_main {P s} _.
Arguments so_finished {P s} _.
Arguments so_running {P s} _.
Arguments so_result {P s} _.
Arguments so_pins {P s} _.
Arguments so_handle {P s} _.
Arguments so_dropped {P s} _.
Arguments so_made {P s} _.
Arguments ac_path {m s tasks users} _.
Arguments ac_state {m s tasks users} _.
Arguments ac_task {m s tasks users} _.
Arguments ac_drops {m s tasks users} _.
Arguments ac_users {m s tasks users} _.
Arguments ac_result {m s tasks users} _.
Arguments ac_delivered {m s tasks users} _.
Arguments ac_freed {m s tasks users} _.
Arguments ac_finalized {m s tasks users} _.
Arguments ac_new {m s tasks users} _.
Arguments th_counted {P x m s gs} _.
Arguments th_known {P x m s gs} _.
Arguments th_ghosts {P x m s gs} _.
Arguments th_state {P x m s gs} _.
Arguments th_account {P x m s gs} _.
Arguments th_held {P x m s gs} _.
Arguments th_discarded {P x m s gs} _.
Arguments th_begins {P x m s gs} _.

Abbreviation tasks := (msum has).
Abbreviation users := (msum (fun g => borrow (does g))).

Section invariant.
Context {P : platform}.
Local Abbreviation role_ok := (role_ok P).
Local Abbreviation ghost_ok := (ghost_ok P).
Local Abbreviation state_ok := (state_ok P).
Local Abbreviation th_inv := (th_inv P).

(** *** What the invariant gives *)

Section facts.
Context {x : option tid} {m : summary} {s : lS thread} {gs : gmap tid th_ghost} {t : tid} {g : th_ghost}.
Context (Hi : th_inv x m s gs) (Hg : gs !! t = Some g).

Lemma th_ok : ghost_ok x m s t g.
Proof. by apply (th_ghosts Hi). Qed.

Lemma th_uses_total : uses g -> 0 < total stk (th_life s) gs.
Proof.
  pose proof (th_counted Hi) as Hc. pose proof (counted_total_ge stk _ gs t g Hc Hg).
  pose proof (counted_total_base stk _ gs Hc). pose proof (counted_handles stk _ gs Hc).
  pose proof (counted_pins stk _ gs Hc). pose proof (th_state Hi) as Hs.
  pose proof (go_role th_ok) as Hr.
  assert (handles (th_life s) = 1 \/ pins (th_life s) = 1 -> 0 < total stk (th_life s) gs) as Halive by lia.
  intros [|Hk]; [lia|]. pose proof (so_handle Hs) as Hh. pose proof (so_pins Hs) as Hp.
  destruct (does g); try done; simpl in Hr; destruct_and?; auto 6.
  1-3: by apply Halive; left; apply Hh; left; exists t; right.
  match goal with H : phase s = InTask |- _ => rewrite H in Hp end. auto.
Qed.

Lemma th_uses_core :
  uses g ->
  0 < total stk (th_life s) gs /\ owners stk gs = 0 /\ allocated (th_life s) = true /\
  1 <= refs (th_life s) /\ ready (mutex s) = true /\ mutex_initialized s = 1.
Proof.
  intros Hu%th_uses_total. destruct (counted_alive stk _ gs (th_counted Hi) Hu) as (Ho & Ha & Hr & _).
  destruct (known_shared _ _ _ _ _ _ (th_known Hi) Ho) as [Hrd Hv]. simpl in *.
  split_and!; try done; [lia|congruence|auto].
Qed.

Lemma th_running_total : running_task s = true -> 0 < total stk (th_life s) gs.
Proof.
  pose proof (th_counted Hi) as Hc. pose proof (counted_total_base stk _ gs Hc).
  pose proof (counted_handles stk _ gs Hc). pose proof (so_pins (th_state Hi)) as Hp.
  intros Hr. apply bool_decide_eq_true, list_elem_of_In in Hr as [Hph|[Hph|[]]].
  - destruct (th_begins Hi (eq_sym Hph)) as (t' & g' & Hg' & _ & Hs).
    pose proof (counted_total_ge stk _ gs t' g' Hc Hg') as Ht. rewrite Hs in Ht. simpl in Ht.
    pose proof (counted_pins stk _ gs Hc). lia.
  - rewrite <- Hph in Hp. simpl in Hp. lia.
Qed.

End facts.

Lemma th_uses_total_at {x m s gs t g} :
  th_inv x m s gs -> gs !! t = Some g -> uses g -> 0 < total stk (th_life s) gs.
Proof. intros Hi Hg. by apply (th_uses_total Hi Hg). Qed.

Section more_facts.
Context {x : option tid} {m : summary} {s : lS thread} {gs : gmap tid th_ghost} {t : tid} {g : th_ghost}.
Context (Hi : th_inv x m s gs) (Hg : gs !! t = Some g).

(** The owner of the core is alone with it. *)
Lemma th_owns z :
  stk g = Owns z ->
  owners stk gs = 1 /\ stake_ok (th_life s) (Owns z) /\ (ready (mutex s), mutex_initialized s) = view g /\
  handles (th_life s) = 0 /\ running_task s = false /\
  forall t' g', gs !! t' = Some g' -> ~ uses g' /\ (t' <> t -> owned (stk g') = 0).
Proof.
  intros Hs. pose proof (th_counted Hi) as Hc.
  destruct (counted_owner stk _ gs t g z Hc Hg Hs) as (Ho & Ht & _ & Hh & _).
  split_and!; [done| | |done| |].
  - rewrite <- Hs. apply (counted_ok stk _ gs Hc t g Hg).
  - apply (known_owner _ _ _ _ _ _ (th_known Hi) t g Hg). by rewrite Hs.
  - destruct (running_task s) eqn:Hr; [|done]. apply (th_running_total Hi) in Hr. lia.
  - intros t' g' Hg'. split; [|intros Htt; apply (counted_others stk gs t g t' g'); try done; by rewrite Hs].
    assert (uses g' -> 0 < total stk (th_life s) gs) as Hu; [|intros ?%Hu; lia].
    clear Ho Ht Hs. intros Hu. by apply (th_uses_total_at Hi Hg').
Qed.

Lemma th_owner_tasks z : stk g = Owns z -> tasks gs = has g.
Proof.
  intros Hs. destruct (th_owns z Hs) as (_ & _ & _ & _ & _ & Hn).
  pose proof (msum_delete has gs t g Hg) as Hd. rewrite msum_zero in Hd; [lia|].
  intros t' g' [Htt Hg']%lookup_delete_Some. destruct (Hn t' g' Hg') as [Hu Ho].
  destruct (Z.eq_dec (has g') 0) as [|Hne]; [done|].
  destruct (go_has (th_ok Hi Hg') Hne) as [_ [?|[z' Hz]]]; [done|].
  rewrite Hz in Ho. specialize (Ho (not_eq_sym Htt)). done.
Qed.

Lemma th_not_held : owner g -> held (mutex s) = None.
Proof.
  intros [z Hs]. destruct (held (mutex s)) as [t'|] eqn:Hh; [|done].
  destruct (th_held Hi t' Hh) as (g' & Hg').
  apply (go_locked (th_ok Hi Hg')) in Hh.
  apply (go_uses (th_ok Hi Hg')) in Hh as [_ Hu].
  destruct (th_owns _ Hs) as (_ & _ & _ & _ & _ & Hn). by apply (Hn t' g' Hg') in Hu.
Qed.

(** Who starts the thread is alone with the core. *)
Lemma th_early t' g' :
  does g = IsEarly -> gs !! t' = Some g' -> t' <> t -> ~ uses g' /\ ~ owner g' /\ hold g' = None.
Proof.
  intros Hd Hg' Htt. pose proof (go_role (th_ok Hi Hg)) as Hr. rewrite Hd in Hr.
  destruct Hr as (Hx & Hst & Hos & _). pose proof (th_counted Hi) as Hc.
  assert (uses g) as Hu by (right; by rewrite Hd).
  pose proof (th_uses_total_at Hi Hg Hu) as Ht.
  destruct (counted_alive stk _ gs Hc Ht) as (Ho & _).
  pose proof (go_role (th_ok Hi Hg')) as Hr'.
  pose proof (so_main (th_state Hi)) as [Hm _]. specialize (Hm Hos).
  assert (~ uses g') as Hu'.
  { intros [Hw|Hk].
    - apply (go_weight (th_ok Hi Hg')) in Hw.
      destruct (does g'); simpl in Hr', Hw; destruct_and?; try done; congruence.
    - destruct (does g'); simpl in Hr', Hk; destruct_and?; try done; congruence. }
  split_and!; [done| |].
  - intros [z Hz]. pose proof (owners_ge stk gs t' g' Hg') as Hge. rewrite Hz in Hge. simpl in Hge. lia.
  - destruct (hold g') as [f|] eqn:Hf; [|done]. exfalso.
    destruct (go_hold (th_ok Hi Hg') f Hf) as [_ [Hl|[[z Hz]|Hd']]].
    + by apply (go_uses (th_ok Hi Hg')) in Hl as [_ ?].
    + pose proof (owners_ge stk gs t' g' Hg') as Hge. rewrite Hz in Hge. simpl in Hge. lia.
    + rewrite Hd' in Hr'. simpl in Hr'. destruct_and?. congruence.
Qed.

End more_facts.

Lemma th_early_at {x m s gs t g} :
  th_inv x m s gs -> gs !! t = Some g -> forall t' g', does g = IsEarly -> gs !! t' = Some g' -> t' <> t ->
  ~ uses g' /\ ~ owner g' /\ hold g' = None.
Proof. intros Hi Hg t' g'. apply (th_early Hi Hg). Qed.

Section exclusion.
Context {x : option tid} {m : summary} {s : lS thread} {gs : gmap tid th_ghost} {t : tid} {g : th_ghost}.
Context (Hi : th_inv x m s gs) (Hg : gs !! t = Some g).

(** Only one call knows the protected fields at a time. *)
Lemma th_hold_unique f t' g' :
  hold g = Some f -> gs !! t' = Some g' -> t' <> t -> hold g' = None.
Proof.
  intros Hf Hg' Htt. destruct (hold g') as [f'|] eqn:Hf'; [|done]. exfalso.
  destruct (go_hold (th_ok Hi Hg) f Hf) as [_ [Hl|[[z Hz]|Hd]]].
  - apply (go_locked (th_ok Hi Hg)) in Hl as Hh.
    apply (go_uses (th_ok Hi Hg)) in Hl as [_ Hu].
    destruct (go_hold (th_ok Hi Hg') f' Hf') as [_ [Hl'|[[z' Hz']|Hd']]].
    + apply (go_locked (th_ok Hi Hg')) in Hl'. congruence.
    + destruct (counted_alive stk _ gs (th_counted Hi) (th_uses_total_at Hi Hg Hu)) as (Ho & _).
      pose proof (owners_ge stk gs t' g' Hg') as Hge. rewrite Hz' in Hge. simpl in Hge. lia.
    + by destruct (th_early_at Hi Hg' t g Hd' Hg (not_eq_sym Htt)) as (? & _).
  - destruct (th_owns Hi Hg _ Hz) as (_ & _ & _ & _ & _ & Hn). destruct (Hn t' g' Hg') as [Hu Ho].
    destruct (go_hold (th_ok Hi Hg') f' Hf') as [_ [Hl'|[[z' Hz']|Hd']]].
    + by apply (go_uses (th_ok Hi Hg')) in Hl' as [_ ?].
    + rewrite Hz' in Ho. by specialize (Ho Htt).
    + apply Hu. right. by rewrite Hd'.
  - destruct (th_early Hi Hg t' g' Hd Hg' Htt) as (_ & _ & ?). congruence.
Qed.

(** Who uses the core and finds the mutex free is the only one to know them. *)
Lemma th_free f t' g' :
  held (mutex s) = None -> uses g -> gs !! t' = Some g' -> t' <> t -> hold g' = Some f -> False.
Proof.
  intros Hh Hu Hg' Htt Hf. destruct (go_hold (th_ok Hi Hg') f Hf) as [_ [Hl|[[z Hz]|Hd]]].
  - apply (go_locked (th_ok Hi Hg')) in Hl. congruence.
  - destruct (counted_alive stk _ gs (th_counted Hi) (th_uses_total_at Hi Hg Hu)) as (Ho & _).
    pose proof (owners_ge stk gs t' g' Hg') as Hge. rewrite Hz in Hge. simpl in Hge. lia.
  - by destruct (th_early_at Hi Hg' t g Hd Hg (not_eq_sym Htt)) as (? & _).
Qed.

Lemma th_accessible f : hold g = Some f -> accessible t s = true /\ fs s = f /\ allocated (th_life s) = true.
Proof.
  intros Hf. destruct (go_hold (th_ok Hi Hg) f Hf) as [He Hor]. unfold accessible.
  destruct Hor as [Hl|[[z Hz]|Hd]].
  - apply (go_locked (th_ok Hi Hg)) in Hl as Hh.
    apply (go_uses (th_ok Hi Hg)) in Hl as [_ Hu].
    destruct (th_uses_core Hi Hg Hu) as (_ & _ & Ha & _). by rewrite Ha, Hh, bool_decide_true.
  - destruct (th_owns Hi Hg _ Hz) as (_ & (Ha & Hsh & _) & _). by rewrite Ha, Hsh, orb_true_r.
  - assert (uses g) as Hu by (right; by rewrite Hd).
    destruct (th_uses_core Hi Hg Hu) as (_ & _ & Ha & _).
    pose proof (go_role (th_ok Hi Hg)) as Hr. rewrite Hd in Hr. destruct Hr as (_ & Hst & Hos & _).
    rewrite Ha, Hst, Hos. split; [|done]. simpl. apply orb_true_iff. right. by rewrite !bool_decide_true by done.
Qed.

Lemma th_not_discarded : uses g -> discarded m = [].
Proof.
  intros Hu. destruct (th_uses_core Hi Hg Hu) as (_ & Ho & Ha & _).
  destruct (discarded m) eqn:Hd; [done|]. exfalso.
  destruct (th_discarded Hi) as [?|(t' & g' & Hg' & Hdg)]; [by rewrite Hd|congruence|].
  destruct (go_dumped (th_ok Hi Hg') Hdg) as [[y Hz] _].
  pose proof (owners_ge stk gs t' g' Hg') as Hge. rewrite Hz in Hge. simpl in Hge. lia.
Qed.

(** A reference to the task is there. *)
Lemma th_has_task : uses g -> 1 <= has g -> task_object s = true.
Proof.
  intros Hu Hh. destruct (th_uses_core Hi Hg Hu) as (_ & Ho & Ha & _).
  pose proof (ac_task (th_account Hi)) as Ht. rewrite Ha in Ht.
  assert (has g <= tasks gs).
  { apply (msum_ge has gs t); [|done]. intros t' g' Hg'.
    destruct (Z.ltb_spec (has g') 0) as [Hlt|]; [|done].
    destruct (go_neg (th_ok Hi Hg') Hlt) as [z Hz].
    pose proof (owners_ge stk gs t' g' Hg') as Hge. rewrite Hz in Hge. simpl in Hge. lia. }
  destruct (task_object s); [done|]. destruct (task (fs s)); simpl in Ht; lia.
Qed.

(** An open handle whose thread is neither joined, detached nor failed, and which
    nobody joins or detaches. *)
Lemma th_joinable :
  stage s = Open -> started (fs s) <> 0 ->
  state_of (fs s) ∉ [SYNC_THREAD_FAILED; SYNC_THREAD_JOINED; SYNC_THREAD_DETACHED;
                     SYNC_THREAD_JOINING; SYNC_THREAD_DETACHING] ->
  state_of (fs s) = SYNC_THREAD_JOINABLE.
Proof.
  intros Hst _ Hn. destruct (th_account Hi) as [Hp Hz _ _ _ _ _ _ _].
  apply path_range in Hp. rewrite <- Hz in Hp.
  destruct (so_open (th_state Hi) (or_introl Hst)) as [Hc _].
  rewrite !not_elem_of_cons in Hn. destruct Hn as (? & ? & ? & ? & ? & _). autounfold with states in *. lia.
Qed.
End exclusion.

(** *** How steps keep the invariant *)

Section steps.
Implicit Types (s : lS thread) (gs : gmap tid th_ghost) (m : summary).

Lemma th_step x x' m m' s s' gs t g g' :
  th_inv x m s gs -> gs !! t = Some g ->
  counted stk (th_life s') (<[t := g']> gs) ->
  known stk view fine (th_life s') (ready (mutex s'), mutex_initialized s') (<[t := g']> gs) ->
  ghost_ok x' m' s' t g' ->
  (forall t0 g0, t0 <> t -> gs !! t0 = Some g0 -> ghost_ok x m s t0 g0 -> ghost_ok x' m' s' t0 g0) ->
  state_ok s' ->
  account m' s' (tasks gs - has g + has g') (users gs - borrow (does g) + borrow (does g')) ->
  (forall t0, held (mutex s') = Some t0 -> t0 = t \/ held (mutex s) = Some t0) ->
  (discarded m' <> [] -> allocated (th_life s') = false \/ dumped g' = true \/
     discarded m <> [] /\ allocated (th_life s) = true /\ dumped g = false) ->
  (phase s' = Begins -> phase s = Begins /\ (does g = IsBegin -> does g' = IsBegin /\ stk g' = stk g)) ->
  th_inv x' m' s' (<[t := g']> gs).
Proof.
  intros Hi Hg Hc Hk Hgo Hoth Hs Hac Hh Hd Hb. split; try done.
  - intros t0 g0. destruct (decide (t0 = t)) as [->|Ht]; simplify_map_eq; [by intros [= <-]|].
    intros Hg0. apply Hoth; try done. by apply (th_ghosts Hi).
  - rewrite (msum_insert has gs t g g' Hg), (msum_insert (fun g => borrow (does g)) gs t g g' Hg). done.
  - intros t0 [->|H0]%Hh; [exists g'; by simplify_map_eq|].
    destruct (decide (t0 = t)) as [->|Ht]; [exists g'; by simplify_map_eq|].
    destruct (th_held Hi t0 H0) as [g0 ?]. exists g0. by simplify_map_eq.
  - intros [Ha|[Hd'|(Hdis & Ha & Hdg)]]%Hd; [by left|right; exists t, g'; by simplify_map_eq|].
    destruct (th_discarded Hi Hdis) as [|(t0 & g0 & Hg0 & Hd0)]; [congruence|right].
    exists t0, g0. split; [|done]. rewrite lookup_insert_ne; [done|]. intros ->. congruence.
  - intros [Hp Hr]%Hb. destruct (th_begins Hi Hp) as (t0 & g0 & Hg0 & Hd0 & Hs0).
    destruct (decide (t0 = t)) as [->|Ht]; simplify_map_eq.
    + exists t, g'. simplify_map_eq. by destruct (Hr Hd0) as [-> ->].
    + exists t0, g0. by simplify_map_eq.
Qed.

(** The test hooks are no part of the invariant. *)
Lemma th_hooks x m s gs h z : th_inv x m s gs -> th_inv x m (hook_set h z s) gs.
Proof.
  intros [Hc Hk Hgs Hs Hac Hh Hd Hb]. split; try done.
  - intros t g Hg. destruct (Hgs t g Hg). by split.
  - by destruct Hs.
  - by destruct Hac.
Qed.

Lemma th_step_lock x m s gs t g :
  th_inv x m s gs -> gs !! t = Some g -> uses g -> held (mutex s) = None ->
  th_inv x m (with_mutex (OsMutex true (Some t) false) s)
    (<[t := ThGhost (stk g) (does g) true (Some (fs s)) (has g) (dumped g) (view g)]> gs).
Proof.
  intros Hi Hg Hu Hh. destruct (th_uses_core Hi Hg Hu) as (_ & _ & Ha & _ & Hrd & _).
  destruct (th_ok Hi Hg) as [Hr Hho Hl _ Hha Hn Hw Hd].
  apply (th_step x x m m s _ gs t g); try done; simpl.
  - by apply (counted_same stk) with g; [apply Hi|..].
  - rewrite <- Hrd. by apply known_keep with g; [apply Hi|..].
  - split; simpl; try done.
    intros f [= <-]. split; [done|by left].
  - intros t0 g0 Ht Hg0 [Hr0 Hho0 Hl0 Hu0 Hha0 Hn0 Hw0 Hd0 Hca0]. split; try done; simpl. rewrite Hl0, Hh.
    split; first [done | intros [= ->]; done].
  - by destruct (th_state Hi).
  - destruct (th_account Hi). split; try done; simpl; [|lia].
    by replace (tasks gs - has g + has g) with (tasks gs) by lia.
  - intros t0 [= <-]. by left.
  - intros Hdis. destruct (dumped g) eqn:Hdg; auto.
Qed.

Lemma th_step_unlock x m s gs t g st :
  th_inv x m s gs -> gs !! t = Some g -> locked g = true ->
  th_inv x m (with_mutex (OsMutex true None st) s)
    (<[t := ThGhost (stk g) (does g) false None (has g) (dumped g) (view g)]> gs).
Proof.
  intros Hi Hg Hlk. destruct (th_ok Hi Hg) as [Hr Hho Hl Hu Hha Hn Hw Hd Hca].
  destruct (Hu Hlk) as [_ Huse]. apply Hl in Hlk as Hh.
  destruct (th_uses_core Hi Hg Huse) as (_ & _ & Ha & _ & Hrd & _).
  apply (th_step x x m m s _ gs t g); try done; simpl.
  - by apply (counted_same stk) with g; [apply Hi|..].
  - rewrite <- Hrd. by apply known_keep with g; [apply Hi|..].
  - intros t0 g0 Ht Hg0 [Hr0 Hho0 Hl0 Hu0 Hha0 Hn0 Hw0 Hd0 Hca0]. split; try done; simpl. rewrite Hl0, Hh.
    split; first [done | intros [= ->]; done].
  - by destruct (th_state Hi).
  - destruct (th_account Hi). split; try done; simpl; [|lia].
    by replace (tasks gs - has g + has g) with (tasks gs) by lia.
  - intros Hdis. destruct (dumped g) eqn:Hdg; auto.
Qed.

(** A step on the fields by the call that knows them. *)
Lemma th_step_fields x x' m m' s gs t g f f' r h d :
  th_inv x m s gs -> gs !! t = Some g -> hold g = Some f ->
  let s' := with_fs f' s in
  let g' := ThGhost (stk g) r (locked g) (Some f') h d (view g) in
  (keeps_core (does g) = keeps_core r) -> (counts_core (does g) = counts_core r) ->
  (does g = IsBegin -> False) -> (does g = IsEarly -> r = IsEarly \/ locked g = true) ->
  (r = IsEarly -> does g = IsEarly) ->
  role_ok x' m' s' t r ->
  (forall t0 g0, t0 <> t -> gs !! t0 = Some g0 ->
     role_ok x m s t0 (does g0) -> role_ok x' m' s' t0 (does g0)) ->
  (h <> 0 -> has g <> 0 \/ running_task s = false) -> (h < 0 -> owner g) -> (d = true -> owner g /\ discarded m' <> []) ->
  (discarded m <> [] -> discarded m' <> []) ->
  (discarded m' <> [] -> d = true \/ discarded m <> [] /\ dumped g = false) ->
  state_ok s' ->
  account m' s' (tasks gs - has g + h) (users gs - borrow (does g) + borrow r) ->
  th_inv x' m' s' (<[t := g']> gs).
Proof.
  intros Hi Hg Hf s' g' Hkc Hcc Hbg Hea Hre Hr' Hoth Hh Hneg' Hd Hdm Hdis Hs Hac.
  destruct (th_ok Hi Hg) as [Hr Hho Hl Hu Hha Hneg Hw Hdu Hca].
  destruct (Hho f Hf) as [He Hor].
  destruct (th_accessible Hi Hg f Hf) as (_ & _ & Ha).
  assert (uses g \/ owner g) as Huo.
  { destruct Hor as [Hlk|[Ho|He']]; [left; by apply Hu|by right|left; right; by rewrite He']. }
  apply (th_step x x' m m' s s' gs t g g'); try done; simpl.
  - by apply (counted_same stk) with g; [apply Hi|..].
  - by apply known_keep with g; [apply Hi|..].
  - split; simpl; try done.
    + intros f0 [= <-]. split; [done|]. destruct Hor as [|[|He']]; [auto|auto|].
      destruct (Hea He'); auto.
    + intros Hlk. destruct (Hu Hlk) as [_ Hus]. split; [done|]. unfold uses in *. simpl. by rewrite <- Hkc.
    + intros Hne. split; [destruct (Hh Hne) as [Hn|]; [by apply Hha|done]|].
      unfold uses, owner in *. simpl. by rewrite <- Hkc.
    + intros Hwt. rewrite <- Hcc. auto.
    + intros He'. apply Hca. auto.
  - intros t0 g0 Ht Hg0 [Hr0 Hho0 Hl0 Hu0 Hha0 Hn0 Hw0 Hd0 Hca0]. split; try done; simpl.
    + by apply (Hoth t0 g0).
    + intros f0 Hf0. by rewrite (th_hold_unique Hi Hg f t0 g0 Hf Hg0 Ht) in Hf0.
    + intros Hdd. split; [by apply Hd0|]. apply Hdm. by apply Hd0.
  - by right.
  - intros Hdd. destruct (Hdis Hdd) as [|[? ?]]; auto.
Qed.
(** The state moves on. *)
Lemma th_step_state x x' m s gs t g f z r :
  th_inv x m s gs -> gs !! t = Some g -> hold g = Some f -> uses g -> stage s <> Dropped ->
  keeps_core (does g) = keeps_core r -> counts_core (does g) = counts_core r ->
  borrow (does g) = borrow r -> does g <> IsBegin -> (does g = IsEarly -> r = IsEarly \/ locked g = true) ->
  r <> IsEarly -> lifecycle (state_of f) z = true ->
  let s' := with_fs (set_state z f) s in
  let m' := note_effect m (SetState z) in
  role_ok x' m' s' t r ->
  (forall t0 g0, t0 <> t -> gs !! t0 = Some g0 ->
     role_ok x m s t0 (does g0) -> role_ok x' m' s' t0 (does g0)) ->
  state_ok s' ->
  (delivered m <> [] -> z = SYNC_THREAD_JOINED \/ z = SYNC_THREAD_JOINING) ->
  th_inv x' m' s'
    (<[t := ThGhost (stk g) r (locked g) (Some (set_state z f)) (has g) (dumped g) (view g)]> gs).
Proof.
  intros Hi Hg Hf Hu Hst Hkc Hcc Hbr Hb Hea Hner Hlc s' m' Hr Hoth Hs Hdel.
  destruct (th_accessible Hi Hg f Hf) as (_ & He & Ha).
  destruct (th_account Hi) as [Hp Hz Ht Hdr Hus Hre Hde Hfr Hfi].
  apply (th_step_fields x x' m m' s gs t g f (set_state z f)); try done; simpl; auto.
  - apply (go_neg (th_ok Hi Hg)).
  - apply (go_dumped (th_ok Hi Hg)).
  - intros Hd. exfalso. by rewrite (th_not_discarded Hi Hg Hu) in Hd.
  - split; simpl; try done.
    + split; [|done]. by rewrite <- Hz, He.
    + rewrite Ha in *. rewrite <- He. lia.
    + lia.
    + by rewrite <- He.
    + intros Hd. destruct (Hde Hd) as [? _]. auto.
    + by intros [? ?]%Hfi.
Qed.

(** [core->task] is taken out of the core. *)
Lemma th_step_take x m s gs t g f :
  th_inv x m s gs -> gs !! t = Some g -> hold g = Some f -> uses g -> does g <> IsBegin ->
  (does g = IsEarly -> locked g = true \/ does g = IsEarly) ->
  running_task s = false -> has g = 0 -> given (stage s) = true ->
  th_inv x m (with_fs (Fields false (result f) (started f) (finished f) (state_of f)) s)
    (<[t := ThGhost (stk g) (does g) (locked g)
              (Some (Fields false (result f) (started f) (finished f) (state_of f)))
              (b2z (task f)) (dumped g) (view g)]> gs).
Proof.
  intros Hi Hg Hf Hu Hb _ Hrun Hh Hgi.
  destruct (th_accessible Hi Hg f Hf) as (_ & <- & Ha).
  destruct (th_account Hi) as [Hp Hz Ht Hdr Hus Hre Hde Hfr Hfi].
  destruct (th_state Hi) as [].
  eapply (th_step_fields x x m m s gs t g); try done; simpl; auto.
  - apply (go_role (th_ok Hi Hg)).
  - by destruct (task (fs s)).
  - intros Hd. by apply (go_dumped (th_ok Hi Hg)).
  - intros Hd. exfalso. by rewrite (th_not_discarded Hi Hg Hu) in Hd.
  - split; simpl; try done.
    + intros H. by rewrite H in Hgi.
    + intros H. unfold running_task in Hrun, H. simpl in H. congruence.
  - split; simpl; try done.
    + rewrite Ha in *. simpl. lia.
    + lia.
Qed.

(** A reference to the task is dropped. *)
Lemma th_step_decref x m s gs t g h :
  th_inv x m s gs -> gs !! t = Some g -> running_task s = false -> task_object s = true ->
  given (stage s) = true -> allocated (th_life s) = true ->
  h = has g - 1 -> (h <> 0 -> owner g) ->
  th_inv x (note_effect m DropTask) (with_object false s)
    (<[t := ThGhost (stk g) (does g) (locked g) (hold g) h (dumped g) (view g)]> gs).
Proof.
  intros Hi Hg Hrun Hobj Hgi Ha Hh Ho.
  destruct (th_account Hi) as [Hp Hz Ht Hdr Hus Hre Hde Hfr Hfi].
  destruct (th_ok Hi Hg) as [Hr Hho Hl Hu Hha Hn Hw Hd Hca].
  assert (state_ok (with_object false s)) as Hs.
  { destruct (th_state Hi) as []. split; simpl; try done.
    - intros H. by rewrite H in Hgi.
    - intros H. unfold running_task in Hrun, H. simpl in H. congruence. }
  apply (th_step x x m _ s _ gs t g); try done; simpl.
  - by apply (counted_same stk) with g; [apply Hi|..].
  - by apply known_keep with g; [apply Hi|..].
  - split; simpl; try done.
    + intros Hne. split; [done|]. by right; apply Ho.
    + intros Hlt. apply Ho. lia.
  - intros t0 g0 Ht0 Hg0 [Hr0 Hho0 Hl0 Hu0 Hha0 Hn0 Hw0 Hd0 Hca0]. by split.
  - rewrite Ha, Hobj in Ht. rewrite Hobj in Hdr. simpl in Ht, Hdr.
    split; simpl; rewrite ?Ha; try done; lia.
  - by right.
  - intros Hd'. destruct (dumped g); auto.
Qed.

(** The OS thread is joined or detached. *)
Lemma th_step_os x x' m s gs t g o r :
  th_inv x m s gs -> gs !! t = Some g ->
  keeps_core (does g) = keeps_core r -> counts_core (does g) = counts_core r ->
  borrow (does g) = borrow r -> does g <> IsBegin -> does g <> IsEarly -> r <> IsEarly ->
  let s' := with_os o (phase s) s in
  role_ok x' m s' t r ->
  (forall t0 g0, t0 <> t -> gs !! t0 = Some g0 ->
     role_ok x m s t0 (does g0) -> role_ok x' m s' t0 (does g0)) ->
  state_ok s' ->
  th_inv x' m s' (<[t := ThGhost (stk g) r (locked g) (hold g) (has g) (dumped g) (view g)]> gs).
Proof.
  intros Hi Hg Hkc Hcc Hbr Hb He Her s' Hr Hoth Hs.
  destruct (th_ok Hi Hg) as [_ Hho Hl Hu Hha Hn Hw Hd].
  apply (th_step x x' m m s _ gs t g); try done; simpl.
  - by apply (counted_same stk) with g; [apply Hi|..].
  - by apply known_keep with g; [apply Hi|..].
  - split; simpl; try done.
    + intros f Hf. destruct (Hho f Hf) as [? [|[|]]]; auto; done.
    + intros Hlk. destruct (Hu Hlk). split; [done|]. unfold uses in *. simpl. by rewrite <- Hkc.
    + intros Hne. destruct (Hha Hne). split; [done|]. unfold uses, owner in *. simpl. by rewrite <- Hkc.
    + intros Hwt. rewrite <- Hcc. auto.
  - intros t0 g0 Ht0 Hg0 [Hr0 Hho0 Hl0 Hu0 Hha0 Hn0 Hw0 Hd0 Hca0]. split; try done. by apply (Hoth t0).
  - destruct (th_account Hi). split; try done; simpl; [|lia].
    by replace (tasks gs - has g + has g) with (tasks gs) by lia.
  - by right.
  - intros Hdis. destruct (allocated (th_life s)) eqn:Ha, (dumped g) eqn:Hdg; auto.
Qed.

(** The caller knows more of the state. *)
Lemma th_step_role x m s gs t g r :
  th_inv x m s gs -> gs !! t = Some g ->
  keeps_core (does g) = keeps_core r -> counts_core (does g) = counts_core r ->
  borrow (does g) = borrow r -> does g <> IsBegin -> does g <> IsEarly -> r <> IsEarly ->
  role_ok x m s t r ->
  th_inv x m s (<[t := ThGhost (stk g) r (locked g) (hold g) (has g) (dumped g) (view g)]> gs).
Proof.
  intros Hi Hg Hkc Hcc Hbr Hb He Her Hr.
  assert (with_os (os s) (phase s) s = s) as Hs by by destruct s.
  pose proof (th_step_os x x m s gs t g (os s) r Hi Hg Hkc Hcc Hbr Hb He Her) as H. simpl in H.
  rewrite Hs in H. apply H; [done| |apply Hi]. by intros.
Qed.

(** [core->call] is written before the thread exists. *)
Lemma th_called b x m s gs :
  th_inv x m s gs -> running_task s = false -> b = true \/ stage s = NoHandle ->
  th_inv x m (with_called b s) gs.
Proof.
  intros [Hc Hk Hgs Hs Hac Hh Hd Hb] Hrun Hor. split; try done.
  - intros t g Hg. destruct (Hgs t g Hg) as [Hr0 Hho0 Hl0 Hu0 Hha0 Hn0 Hw0 Hd0 Hca0]. split; try done.
    intros He _. destruct Hor as [-> | Hst]; [done|]. rewrite He in Hr0. destruct Hr0 as (_ & Hst' & _). simpl in *. congruence.
  - destruct Hs. split; try done. unfold running_task in *. simpl. intros. congruence.
  - by destruct Hac.
Qed.

(** Steps on the core's life cycle and on its mutex leave the rest alone. *)
Definition same_rest s s' : Prop :=
  fs s' = fs s /\ called s' = called s /\ id s' = id s /\ os s' = os s /\ phase s' = phase s /\
  task_object s' = task_object s /\ stage s' = stage s /\ borrows s' = borrows s.

Lemma same_role x m s s' t r :
  same_rest s s' -> handles (th_life s') = handles (th_life s) -> made (th_life s') = made (th_life s) ->
  role_ok x m s t r -> role_ok x m s' t r.
Proof.
  intros (Ef & Ec & Ei & Eo & Ep & Et & Es & Eb) Eh Em.
  destruct r; simpl; unfold runs; by rewrite ?Ef, ?Ei, ?Eo, ?Ep, ?Es, ?Eh, ?Em.
Qed.

Lemma same_state s s' :
  same_rest s s' -> handles (th_life s') = handles (th_life s) -> pins (th_life s') = pins (th_life s) ->
  made (th_life s') = made (th_life s) -> state_ok s -> state_ok s'.
Proof.
  intros (Ef & Ec & Ei & Eo & Ep & Et & Es & Eb) Eh En Em []. unfold running_task in *.
  split; unfold running_task; by rewrite ?Ef, ?Ec, ?Ei, ?Eo, ?Ep, ?Et, ?Es, ?Eh, ?En, ?Em.
Qed.

Lemma th_step_core x m s s' gs t g g' :
  th_inv x m s gs -> gs !! t = Some g -> same_rest s s' ->
  counted stk (th_life s') (<[t := g']> gs) ->
  known stk view fine (th_life s') (ready (mutex s'), mutex_initialized s') (<[t := g']> gs) ->
  ghost_ok x m s' t g' -> does g' = does g -> does g <> IsBegin ->
  held (mutex s') = held (mutex s) ->
  handles (th_life s') = handles (th_life s) -> pins (th_life s') = pins (th_life s) ->
  made (th_life s') = made (th_life s) ->
  has g' = has g /\ dumped g' = dumped g /\ allocated (th_life s') = allocated (th_life s) \/
  allocated (th_life s') = false /\ task_object s = false /\
    (delivered m = [] -> discarded m = [] -> kept m = []) \/
  given (stage s) = false /\ tasks gs = 0 /\ has g = 0 /\ has g' = 0 /\
    allocated (th_life s) = false /\ allocated (th_life s') = true ->
  th_inv x m s' (<[t := g']> gs).
Proof.
  intros Hi Hg Hsame Hc Hk Hok Hd Hbg Hh Eh En Em Ha.
  pose proof Hsame as (Ef & Ec & Ei & Eo & Ep & Et & Es & Eb).
  apply (th_step x x m m s s' gs t g g'); try done.
  - intros t0 g0 Ht0 Hg0 [Hr0 Hho0 Hl0 Hu0 Hha0 Hn0 Hw0 Hd0 Hca0]. split; try done.
    + by apply (same_role x m s).
    + by rewrite Ef.
    + by rewrite Hh.
    + unfold running_task. by rewrite Ep.
    + by rewrite Ec.
  - apply (same_state s); try done. apply Hi.
  - destruct (th_account Hi) as [Hp Hz Ht Hdr Hus Hre Hde Hfr Hfi].
    split; rewrite ?Ef, ?Et, ?Es, ?Eb, ?Ep; try done.
    + destruct Ha as [(-> & _ & ->)|[(-> & Hob & _)|(Hgi & H0 & -> & -> & Hal & ->)]]; [|done|].
      * by replace (tasks gs - has g + has g) with (tasks gs) by lia.
      * destruct (so_new (th_state Hi) Hgi) as (-> & _ & _ & ->). simpl. lia.
    + rewrite Hd. lia.
    + destruct Ha as [(_ & _ & ->)|[(_ & _ & Hf)|(_ & _ & _ & _ & _ & ->)]]; [done|auto|done].
  - rewrite Hh. by right.
  - intros Hdis. destruct Ha as [(_ & -> & ->)|[(-> & _)|(Hgi & _)]]; [|by left|].
    + destruct (allocated (th_life s)) eqn:Hal, (dumped g) eqn:Hdg; auto.
    + pose proof (ac_new (th_account Hi) Hgi) as Hke.
      pose proof (ac_result (th_account Hi)) as Hre. unfold result_ok in Hre.
      rewrite Hke in Hre. by destruct Hre as (_ & _ & ?).
  - by rewrite Ep.
Qed.

(** A call returns. *)
Lemma th_return x m m' s s' gs t g :
  th_inv x m s gs -> gs !! t = Some g ->
  counted stk (th_life s') (delete t gs) ->
  known stk view fine (th_life s') (ready (mutex s'), mutex_initialized s') (delete t gs) ->
  locked g = false -> mutex s' = mutex s -> fs s' = fs s -> called s' = called s ->
  (forall t0 g0, t0 <> t -> gs !! t0 = Some g0 -> role_ok x m s t0 (does g0) -> role_ok x m' s' t0 (does g0)) ->
  discarded m' = discarded m ->
  (running_task s' = true -> running_task s = true) ->
  state_ok s' -> account m' s' (tasks gs - has g) (users gs - borrow (does g)) ->
  (dumped g = true -> allocated (th_life s') = false) -> allocated (th_life s') = allocated (th_life s) ->
  (phase s' = Begins -> phase s = Begins /\ does g <> IsBegin) ->
  th_inv x m' s' (delete t gs).
Proof.
  intros Hi Hg Hc Hk Hlk Hmx Hfs Hca Hoth Hdm Hrun Hs Hac Hdu Hal Hb. split; try done.
  - intros t0 g0 [Ht Hg0]%lookup_delete_Some.
    destruct (th_ok Hi Hg0) as [Hr0 Hho0 Hl0 Hu0 Hha0 Hn0 Hw0 Hd0 Hca0]. split; try done.
    + by apply (Hoth t0).
    + by rewrite Hfs.
    + by rewrite Hmx.
    + intros [Hr' Hx]%Hha0. split; [|done]. destruct (running_task s') eqn:H'; [|done]. by rewrite Hrun in Hr'.
    + by rewrite Hdm.
    + by rewrite Hca.
  - by rewrite (msum_delete has gs t g Hg), (msum_delete (fun g => borrow (does g)) gs t g Hg).
  - intros t0. rewrite Hmx. intros H0. destruct (th_held Hi t0 H0) as [g0 Hg0].
    exists g0. rewrite lookup_delete_ne; [done|]. intros ->.
    apply (go_locked (th_ok Hi Hg0)) in H0. congruence.
  - rewrite Hdm, Hal. intros Hd. destruct (th_discarded Hi Hd) as [|(t0 & g0 & Hg0 & Hd0)]; [by left|].
    destruct (decide (t0 = t)) as [->|Ht].
    + left. simplify_map_eq. rewrite <- Hal. auto.
    + right. exists t0, g0. by rewrite lookup_delete_ne.
  - intros [Hp Hr]%Hb. destruct (th_begins Hi Hp) as (t0 & g0 & Hg0 & Hd0 & Hs0).
    exists t0, g0. rewrite lookup_delete_ne; [done|]. intros ->. by simplify_map_eq.
Qed.
End steps.
End invariant.

(** ** Automation *)

(** The roles of the other calls, when the state of the thread object moves. *)
Ltac th_roles :=
  let t0 := fresh "t0" in let g0 := fresh "g0" in let Hr := fresh "Hr" in
  intros t0 g0 ? ? Hr; destruct (does g0); simpl in Hr |- *; autounfold with states in *;
  unfold runs in *; simpl;
  destruct_and?; repeat match goal with H : _ \/ _ |- _ => destruct H end; split_and?;
  try done; try congruence; try (left; congruence); try (right; congruence); try (exfalso; lia);
  try (case_match; simpl in *; destruct_and?; solve [done | congruence]).

(** What is asked of the state, when some of it has changed. *)
Ltac th_states Hs :=
  destruct Hs; split; simpl; try done; autounfold with states in *; intros;
  repeat match goal with
    | H : _ \/ _ |- _ => destruct H
    | H : os ?s = _, H' : context [os ?s] |- _ =>
        lazymatch H' with H => fail | _ => rewrite H in H'; simpl in H' end
    end; destruct_and?;
  repeat match goal with
    | H : given (stage ?s) = false, H' : stage ?s = _ |- _ => rewrite H' in H; discriminate H
    | H : ?P -> _ /\ id _ = _ |- _ /\ id _ = _ => split; [lia|apply H; auto]
    end;
  try done; try congruence; try (exfalso; lia); try (split; intros; intuition congruence);
  try (unfold running_task in *; simpl in *; congruence); eauto.
