(* ===== verification/ThreadCalls.v ===== *)
(** ThreadCalls: the calls on a thread handle keep the invariant.

    The proof outline of the component, the calls that use the handle, what the
    task and the end of the new thread do, and the release of the core. *)
From stdpp Require Import base gmap list.
From Stdlib Require Import ZArith Lia.
From S2P Require Import Prelude Interleave Platform Arc OsMutex Thread ThreadInvariant.

(** *** The outline *)

Fixpoint first_failed (es : list (event thread)) : option Z :=
  match es with
  | [] => None
  | Failed st :: _ => Some st
  | Effect _ :: es => first_failed es
  end.

Definition effect_of (e : event thread) : option thread_effect :=
  match e with Effect e => Some e | Failed _ => None end.
Definition effects (es : list (event thread)) : list thread_effect := omap effect_of es.

Lemma first_failed_app es es' :
  first_failed (es ++ es') = match first_failed es with Some st => Some st | None => first_failed es' end.
Proof. induction es as [|[st|e] es IH]; [done..|apply IH]. Qed.

(** The first failing status is the one reported. *)
Definition answers (es : list (event thread)) (st : Z) : Prop :=
  match first_failed es with None => st = 0 | Some e => st = e /\ e <> 0 end.

Definition at_call (r : role) : th_ghost := ThGhost (Holds 0) r false None 0 false (false, 0).

Abbreviation user f := (ThGhost (Holds 0) IsUser true (Some f) 0 false (false, 0)).
Abbreviation call r := (ThGhost (Holds 0) r false None 0 false (false, 0)).
Abbreviation holding r f h := (ThGhost (Holds 0) r true (Some f) h false (false, 0)).
Abbreviation leaving r v := (ThGhost (Holds 1) r false None 0 false v).
Abbreviation ends r := (leaving r (false, 0)).
Abbreviation owns r f h d := (ThGhost (Owns (Some 0)) r false (Some f) h d (true, 1)).
Abbreviation gone r := (ThGhost (Owns None) r false None 0 false (false, 1)).

Definition th_outline (P : platform) : outline thread := {|
  ghost := th_ghost;
  inv tr s gs := exists x, th_inv P x (summarize tr) (s : lS thread) gs;
  opens t o g :=
    match o : lO thread with
    | OpNew | OpTestAbortIfUnjoined =>
        exists z, g = ThGhost (Owns None) IsMaking false None 0 false (false, z)
    | OpStart => g = ThGhost (Holds 0) IsEarly false (Some no_fields) 1 false (false, 0)
    | OpMain => g = ThGhost (Holds 1) IsBegin false None 0 false (false, 0)
    | OpComplete r => r <> 0 /\ g = at_call IsTask
    | OpMainEnd => g = ThGhost (Holds 1) IsEnd false None 0 false (false, 0)
    | OpJoin | OpDetach | OpIsFinished | OpId => g = at_call IsUser
    | OpFinalize => g = ThGhost (Holds 1) (IsDrop None) false None 0 false (false, 0)
    | OpYield | OpCurrentId | OpFailNextStart _ | OpFailNextJoin _ | OpFailNextDetach _ => g = at_call IsNone
    end;
  returns o es r :=
    match o : lO thread, r : lR thread with
    | OpNew, RNew st h => answers es st /\ h = (st =? 0)
    | OpStart, RStatus st =>
        answers es st /\
        effects es = if st =? 0 then [SetState SYNC_THREAD_JOINABLE] else [DropTask; SetState SYNC_THREAD_FAILED]
    | OpMain, RVoid => es = []
    | OpComplete r, RVoid => es = shown (Keep r) \/ es = shown (Refuse r)
    | (OpMainEnd | OpFinalize), RVoid => first_failed es = None
    | OpJoin, RJoin r st =>
        match first_failed es with
        | Some e => st = e /\ e <> 0 /\ r = 0
        | None =>
            st = 0 /\ (exists d, effects es =
              [SetState SYNC_THREAD_JOINING; Deliver r; SetState SYNC_THREAD_JOINED] ++ d) \/
            st ∈ [-1; -2; -3; -4] /\ r = 0 /\ es = []
        end
    | OpDetach, RStatus st =>
        match first_failed es with
        | Some e => st = e /\ e <> 0
        | None =>
            st = 0 /\ (exists d, effects es = [SetState SYNC_THREAD_DETACHING; SetState SYNC_THREAD_DETACHED] ++ d) \/
            st ∈ [-1; -2; -3] /\ es = []
        end
    | OpIsFinished, RFinished b st => answers es st
    | (OpId | OpCurrentId), RId z => es = []
    | (OpYield | OpFailNextStart _ | OpFailNextJoin _ | OpFailNextDetach _), RVoid => es = []
    | _, _ => False
    end;
  aborts o es g :=
    first_failed es <> None \/ o = OpTestAbortIfUnjoined \/
    o = OpFinalize /\ exists z, does g = IsDrop (Some z) /\ terminal z = false;
  waits o s gs t g := free_mutex (mutex s) = false \/ o = OpJoin /\ phase s <> Ended;
|}.

Section programs.
Context {P : platform}.
Local Abbreviation role_ok := (role_ok P).
Local Abbreviation state_ok := (state_ok P).
Local Abbreviation th_inv := (th_inv P).
Local Abbreviation th_outline := (th_outline P).
Local Abbreviation keeps := (keeps thread_code th_outline).
Implicit Types (t : tid) (o : lO thread) (es : list (event thread)).

(** A step that shows events [evs] and keeps the invariant. *)
Lemma th_shown x tr t s' (gs' : gmap tid th_ghost) (evs : list (event thread)) :
  th_inv x (fold_left note_event evs (summarize tr)) s' gs' ->
  inv th_outline (tr ++ (LEv t <$> evs)) s' gs'.
Proof. intros H. exists x. by rewrite summarize_events. Qed.

Lemma th_keeps_lock t o k es st r hd h d v :
  uses (ThGhost st r false hd h d v) ->
  (forall f, keeps t o k es (ThGhost st r true (Some f) h d v)) ->
  keeps t o (sync_thread_lock_or_abort k) es (ThGhost st r false hd h d v).
Proof.
  intros Hu Hk. apply keeps_os_call. intros tr s gs a v' [x Hi] Hg.
  destruct (th_uses_core Hi Hg Hu) as (_ & _ & Ha & _ & Hrd & _). simpl. rewrite Ha, Hrd. simpl.
  destruct (Z.eqb_spec a 0) as [->|Hn]; simpl.
  - destruct (free_mutex (mutex s)) eqn:Hf; [|by left].
    apply andb_true_iff in Hf as [Hh%bool_decide_eq_true _].
    exists (ThGhost st r true (Some (fs s)) h d v). rewrite !app_nil_r. split; [|apply Hk].
    exists x. by apply (th_step_lock x _ s gs t (ThGhost st r false hd h d v)).
  - exists (ThGhost st r false hd h d v). rewrite insert_id by done.
    split; [by apply (th_shown x tr t s gs [Failed a])|].
    unfold sync_thread_abort_if_failed. destruct (Z.eqb_spec a 0); [done|]. left.
    rewrite first_failed_app. by destruct (first_failed es).
Qed.

Lemma th_keeps_unlock t o k es st r f h d v :
  keeps t o k es (ThGhost st r false None h d v) ->
  keeps t o (sync_thread_unlock_or_abort k) es (ThGhost st r true (Some f) h d v).
Proof.
  intros Hk. apply keeps_os_call. intros tr s gs a v' [x Hi] Hg.
  destruct (th_ok Hi Hg) as [_ _ Hl Hu _ _ _ _]. destruct (Hu eq_refl) as [_ Huse].
  pose proof (proj1 Hl eq_refl) as Hh.
  destruct (th_uses_core Hi Hg Huse) as (_ & _ & Ha & _ & Hrd & _).
  simpl. rewrite Ha, Hrd, Hh, bool_decide_true by done. simpl.
  exists (ThGhost st r false None h d v). split.
  - apply th_shown with x. unfold fails.
    pose proof (th_step_unlock x _ s gs t _ (negb (a =? 0)) Hi Hg eq_refl) as H. simpl in H.
    by destruct (a =? 0).
  - unfold fails, sync_thread_abort_if_failed. destruct (Z.eqb_spec a 0) as [->|Hn]; simpl.
    + by rewrite app_nil_r.
    + left. rewrite first_failed_app. by destruct (first_failed es).
Qed.

Lemma th_keeps_access {A} t o es (touch : bool) (f : fields -> A * fields * list (event thread)) k g g' fl :
  hold g = Some fl ->
  (forall x m s (gs : gmap tid th_ghost), th_inv x m s gs -> gs !! t = Some g ->
     (touch = true -> running_task s = false) /\
     exists x', th_inv x' (fold_left note_event (f fl).2 m) (with_fs (f fl).1.2 s) (<[t := g']> gs)) ->
  keeps t o (k (f fl).1.1) (es ++ (f fl).2) g' ->
  keeps t o (access touch f k) es g.
Proof.
  intros Hf Hs Hk tr s gs a v' [x Hi] Hg.
  destruct (th_accessible Hi Hg fl Hf) as (-> & -> & _). destruct (Hs x _ s gs Hi Hg) as [Ht [x' Hi']].
  destruct touch; simpl; [rewrite Ht by done; simpl|];
    destruct (f fl) as [[y fl'] evs]; exists g'; (split; [|done]); by apply th_shown with x'.
Qed.

Lemma th_with_fs x m s (gs : gmap tid th_ghost) t g f :
  th_inv x m s gs -> gs !! t = Some g -> hold g = Some f -> th_inv x m (with_fs f s) (<[t := g]> gs).
Proof.
  intros Hi Hg Hf. destruct (th_accessible Hi Hg f Hf) as (_ & <- & _). rewrite insert_id by done.
  by destruct s.
Qed.

Lemma th_keeps_read t o es k g f :
  hold g = Some f -> keeps t o (k f) es g -> keeps t o (read_fields k) es g.
Proof.
  intros Hf Hk. apply th_keeps_access with g f; [done| |simpl; by rewrite app_nil_r].
  intros x m s gs Hi Hg. split; [done|]. exists x. by apply th_with_fs.
Qed.

Lemma th_keeps_hook t o h k es g :
  (forall st, keeps t o (k st) (es ++ fails st) g) -> keeps t o (take_test_error h k) es g.
Proof.
  intros Hk tr s gs a v [x Hi] Hg. exists g. split; [|apply Hk].
  apply th_shown with x. rewrite insert_id by done. unfold fails.
  destruct (hook_get h s =? 0); by apply th_hooks.
Qed.
(** *** Calls on the handle *)


Definition on_handle (o : lO thread) : Prop :=
  match o : lO thread with OpJoin | OpDetach | OpIsFinished | OpId => True | _ => False end.

Lemma th_keeps_return t o r es :
  on_handle o -> returns th_outline o es r -> keeps t o (Ret r) es (at_call IsUser).
Proof.
  intros Ho Hr. split; [done|]. intros tr s gs [x Hi] Hg. exists x.
  assert (leave thread_code t o r s = with_stage (stage s) (borrows s - 1) s) as ->.
  { by destruct o, r. }
  assert (note (summarize tr) (LRes t o r) = summarize tr) as Hn by by destruct o, r.
  rewrite summarize_app. cbn [fold_left]. rewrite Hn. clear Hn Hr.
  destruct (th_account Hi) as [Hp Hz Ht Hdr Hus Hre Hde Hfr Hfi].
  apply (th_return x (summarize tr) (summarize tr) s _ gs t (at_call IsUser)); try done; simpl.
  - eapply counted_return; [apply Hi|done|by left].
  - eapply known_return; [apply Hi|done|done|by left].
  - by destruct (th_state Hi).
  - split; try done; simpl; [|lia]. by rewrite Z.sub_0_r.
Qed.

Lemma th_keeps_refuse t o r es f :
  on_handle o -> returns th_outline o es r ->
  keeps t o (sync_thread_unlock_or_abort (Ret r)) es (user f).
Proof. intros Ho Hr. apply th_keeps_unlock. by apply th_keeps_return. Qed.

Lemma th_keeps_is_finished t :
  keeps t OpIsFinished sync_thread_is_finished [] (at_call IsUser).
Proof.
  apply keeps_os_call. intros tr s gs a v' [x Hi] Hg.
  destruct (th_uses_core Hi Hg) as (_ & _ & Ha & _ & Hrd & _); [by right|]. simpl. rewrite Ha, Hrd. simpl.
  destruct (Z.eqb_spec a 0) as [->|Hn]; simpl; last first.
  { exists (at_call IsUser). rewrite insert_id by done.
    split; [by apply (th_shown x tr t s gs [Failed a])|].
    destruct (Z.eqb_spec a 0); [done|]. by apply th_keeps_return. }
  destruct (free_mutex (mutex s)) eqn:Hf; [|by left].
  apply andb_true_iff in Hf as [Hh%bool_decide_eq_true _].
  exists (user (fs s)). split.
  { apply (th_shown x tr t _ _ []). apply (th_step_lock x _ s gs t (at_call IsUser)); try done. by right. }
  apply th_keeps_read with (fs s); [done|]. generalize (fs s). clear. intros f. apply keeps_os_call. intros tr s gs a v' [x Hi] Hg.
  destruct (th_ok Hi Hg) as [_ _ Hl Hu _ _ _ _]. destruct (Hu eq_refl) as [_ Huse].
  pose proof (proj1 Hl eq_refl) as Hh.
  destruct (th_uses_core Hi Hg Huse) as (_ & _ & Ha & _ & Hrd & _).
  simpl. rewrite Ha, Hrd, Hh, bool_decide_true by done. simpl.
  exists (at_call IsUser). split.
  - apply th_shown with x. pose proof (th_step_unlock x _ s gs t _ (negb (a =? 0)) Hi Hg eq_refl) as H.
    unfold fails. by destruct (a =? 0).
  - apply th_keeps_return; [done|]. simpl. unfold fails. by destruct (Z.eqb_spec a 0).
Qed.

Lemma th_keeps_id t : keeps t OpId sync_thread_id [] (at_call IsUser).
Proof.
  intros tr s gs a v' [x Hi] Hg.
  destruct (th_uses_core Hi Hg) as (_ & _ & -> & _); [by right|].
  rewrite (go_role (th_ok Hi Hg)). simpl.
  exists (at_call IsUser). rewrite insert_id, app_nil_r by done. split; [by exists x|].
  by apply th_keeps_return.
Qed.
Lemma th_user_facts x m s (gs : gmap tid th_ghost) t f st d h v :
  th_inv x m s gs -> gs !! t = Some (ThGhost st IsUser true (Some f) h d v) ->
  uses (ThGhost st IsUser true (Some f) h d v) /\ fs s = f /\ stage s = Open.
Proof.
  intros Hi Hg. split; [by right|]. destruct (th_accessible Hi Hg f eq_refl) as (_ & He & _).
  split; [done|]. apply (go_role (th_ok Hi Hg)).
Qed.

Definition may_move (f : fields) : Prop :=
  started f <> 0 /\
  state_of f ∉ [SYNC_THREAD_FAILED; SYNC_THREAD_JOINED; SYNC_THREAD_DETACHED;
                SYNC_THREAD_JOINING; SYNC_THREAD_DETACHING].

Lemma th_user_joinable x m s (gs : gmap tid th_ghost) t f :
  th_inv x m s gs -> gs !! t = Some (user f) -> may_move f ->
  state_of (fs s) = SYNC_THREAD_JOINABLE /\ (exists v, os s = Joinable v) /\ delivered m = [] /\
  stage s = Open /\ fs s = f.
Proof.
  intros Hi Hg [Hs Hn]. destruct (th_user_facts _ _ _ _ _ _ _ _ _ _ Hi Hg) as (_ & He & Hst).
  assert (state_of (fs s) = SYNC_THREAD_JOINABLE) as Hz by (apply (th_joinable Hi); by rewrite ?He).
  split_and!; try done.
  - by apply (so_up (th_state Hi)).
  - destruct (th_account Hi) as [_ _ _ _ _ _ Hde _ _].
    destruct (delivered m); [done|]. destruct Hde as [_ [Hd|Hd]]; [done|..];
      rewrite Hz in Hd; discriminate Hd.
Qed.

Lemma th_keeps_moves t o k es f z r :
  on_handle o -> may_move f ->
  (z, r) = (SYNC_THREAD_JOINING, IsJoin 0) \/ (z, r) = (SYNC_THREAD_DETACHING, IsDetach false) ->
  keeps t o k (es ++ shown (SetState z)) (ThGhost (Holds 0) r true (Some (set_state z f)) 0 false (false, 0)) ->
  keeps t o (write_state z k) es (user f).
Proof.
  intros Ho Hf Hzr Hk.
  apply (th_keeps_access t o es false (fun f => (tt, set_state z f, shown (SetState z)))) with (fl := f)
    (g' := ThGhost (Holds 0) r true (Some (set_state z f)) 0 false (false, 0)); [done| |done].
  intros x m s gs Hi Hg. split; [done|]. exists (Some t).
  destruct (th_user_joinable x m s gs t f Hi Hg Hf) as (Hz & Hos & Hde & Hst & He).
  pose proof (proj1 Hf) as Hstd. rewrite <- He in Hstd.
  apply (th_step_state x (Some t) m s gs t (user f) f z r); try done; [by right|congruence|..].
  - by destruct Hzr as [[= -> ->]|[= -> ->]].
  - by destruct Hzr as [[= -> ->]|[= -> ->]].
  - by destruct Hzr as [[= -> ->]|[= -> ->]].
  - by destruct Hzr as [[= -> ->]|[= -> ->]].
  - rewrite <- He, Hz. by destruct Hzr as [[= -> ->]|[= -> ->]].
  - destruct Hos as [v Hos]. destruct Hzr as [[= -> ->]|[= -> ->]]; simpl; split_and!; eauto.
  - th_roles.
  - pose proof (th_state Hi) as Hs. rewrite <- He. unfold set_state. destruct Hzr as [[= -> ->]|[= -> ->]]; th_states Hs.
Qed.


Lemma th_keeps_joining_self t o k es f :
  on_handle o -> may_move f ->
  (forall b, keeps t o (k b) es (user f)) ->
  keeps t o (joining_self k) es (user f).
Proof.
  intros Ho Hf Hk tr s gs a v [x Hi] Hg. simpl.
  destruct (th_user_joinable x _ s gs t f Hi Hg Hf) as (_ & [w ->] & _).
  destruct (th_accessible Hi Hg f eq_refl) as (-> & _). exists (user f).
  rewrite insert_id, !app_nil_r by done. split; [by exists x|apply Hk].
Qed.

(** Waiting for the thread to end. *)
Lemma th_keeps_pthread_join t k es :
  (forall st, st <> 0 -> keeps t OpJoin (k st) (es ++ [Failed st]) (call (IsJoin 0))) ->
  keeps t OpJoin (k 0) es (call (IsJoin 1)) ->
  keeps t OpJoin (pthread_join k) es (call (IsJoin 0)).
Proof.
  intros Hf Hk tr s gs a w [x Hi] Hg.
  destruct (go_role (th_ok Hi Hg)) as (Hx & Hst & Hz & Hos & Hde). simpl in Hos. destruct Hos as [v Hos].
  simpl. rewrite Hos. destruct (Z.eqb_spec a 0) as [->|Ha]; simpl.
  - destruct (bool_decide_reflect (phase s = Ended)) as [Hp|]; [|by right].
    exists (call (IsJoin 1)). rewrite !app_nil_r. split; [|done]. exists x.
    apply (th_step_os x x _ s gs t (call (IsJoin 0))); try done; simpl.
    + split_and!; try done; [by exists v|auto].
    + th_roles.
    + pose proof (th_state Hi) as Hs. th_states Hs.
  - exists (call (IsJoin 0)). rewrite insert_id by done. split; [|by apply Hf].
    by apply (th_shown x tr t s gs [Failed a]).
Qed.

(** On Windows in two steps. *)
Lemma th_keeps_wait t k es :
  (forall st, st <> 0 -> keeps t OpJoin (k st) (es ++ [Failed st]) (call (IsJoin 0))) ->
  keeps t OpJoin (k 0) es (call IsWaited) ->
  keeps t OpJoin (WaitForSingleObject k) es (call (IsJoin 0)).
Proof.
  intros Hf Hk tr s gs a w [x Hi] Hg.
  destruct (go_role (th_ok Hi Hg)) as (Hx & Hst & Hz & Hos & Hde). simpl in Hos. destruct Hos as [v Hos].
  simpl. rewrite Hos. destruct (Z.eqb_spec a 0) as [->|Ha]; simpl.
  - destruct (bool_decide_reflect (phase s = Ended)) as [Hp|]; [|by right].
    exists (call IsWaited). rewrite !app_nil_r. split; [|done]. exists x.
    apply (th_step_role x _ s gs t (call (IsJoin 0))); try done. simpl. split_and!; eauto.
  - exists (call (IsJoin 0)). rewrite insert_id by done. split; [|by apply Hf].
    by apply (th_shown x tr t s gs [Failed a]).
Qed.

Lemma th_keeps_close t k es :
  (forall st, st <> 0 -> keeps t OpJoin (k st) (es ++ [Failed st]) (call (IsJoin 0))) ->
  keeps t OpJoin (k 0) es (call (IsJoin 1)) ->
  keeps t OpJoin (CloseHandle k) es (call IsWaited).
Proof.
  intros Hf Hk tr s gs a w [x Hi] Hg.
  destruct (go_role (th_ok Hi Hg)) as (Hx & Hst & Hz & [v Hos] & Hp & Hde).
  simpl. rewrite Hos. unfold fails. destruct (Z.eqb_spec a 0) as [->|Ha]; simpl.
  - exists (call (IsJoin 1)). rewrite !app_nil_r. split; [|done]. exists x.
    apply (th_step_os x x _ s gs t (call IsWaited)); try done; simpl.
    + split_and!; try done. by exists v.
    + th_roles.
    + pose proof (th_state Hi) as Hs. th_states Hs.
  - exists (call (IsJoin 0)). split; [|by apply Hf]. exists x.
    rewrite summarize_app. apply (th_step_role x _ s gs t (call IsWaited)); try done.
    simpl. split_and!; eauto.
Qed.

Lemma th_keeps_join_thread t k es :
  (forall st, st <> 0 -> keeps t OpJoin (k st) (es ++ [Failed st]) (call (IsJoin 0))) ->
  keeps t OpJoin (k 0) es (call (IsJoin 1)) ->
  keeps t OpJoin (join_thread k) es (call (IsJoin 0)).
Proof.
  intros Hf Hk. unfold join_thread. destruct (windows P); [|by apply th_keeps_pthread_join].
  apply th_keeps_wait; simpl; [|by apply th_keeps_close].
  intros st Hst. destruct (Z.eqb_spec st 0); [done|]. by apply Hf.
Qed.

(** The end of a join or a detach: done, or undone. *)
Definition settles (r : role) (z : Z) : Prop :=
  (r, z) ∈ [(IsJoin 0, SYNC_THREAD_JOINABLE); (IsJoin 2, SYNC_THREAD_JOINED);
            (IsDetach false, SYNC_THREAD_JOINABLE); (IsDetach true, SYNC_THREAD_DETACHED)].

Lemma settles_role x m s t r z :
  settles r z -> role_ok x m s t r ->
  x = Some t /\ stage s = Open /\ lifecycle (state_of (fs s)) z = true /\
  (state_of (fs s) = SYNC_THREAD_JOINING \/ state_of (fs s) = SYNC_THREAD_DETACHING) /\
  (exists v, os s = if z =? SYNC_THREAD_JOINABLE then Joinable v else Gone v) /\
  (z = SYNC_THREAD_JOINED -> phase s = Ended) /\
  (z = SYNC_THREAD_JOINABLE \/ z = SYNC_THREAD_DETACHED -> delivered m = [] \/ state_of (fs s) = SYNC_THREAD_DETACHING).
Proof.
  intros Hz. unfold settles in Hz. rewrite !elem_of_cons in Hz.
  destruct Hz as [[= -> ->]|[[= -> ->]|[[= -> ->]|[[= -> ->]|[]%not_elem_of_nil]]]]; simpl;
    autounfold with states; intros (-> & Hst & -> & Hos); simpl in *; destruct_and?;
    split_and!; eauto; try done; try (intros [?|?]; lia).
Qed.

Lemma th_keeps_settles t o k es f z r h :
  settles r z ->
  keeps t o k (es ++ shown (SetState z)) (holding IsUser (set_state z f) h) ->
  keeps t o (write_state z k) es (holding r f h).
Proof.
  intros Hz Hk.
  apply (th_keeps_access t o es false (fun f => (tt, set_state z f, shown (SetState z)))) with (fl := f)
    (g' := holding IsUser (set_state z f) h); [done| |done].
  intros x m s gs Hi Hg. split; [done|]. exists None.
  pose proof (go_role (th_ok Hi Hg)) as Hr. simpl in Hr.
  destruct (settles_role x m s t r z Hz Hr) as (-> & Hst & Hl & Hm & Hos & Hj & Hde).
  destruct (th_accessible Hi Hg f eq_refl) as (_ & He & _).
  pose proof (ac_delivered (th_account Hi)) as Hdel.
  unfold settles in Hz. rewrite !elem_of_cons in Hz.
  apply (th_step_state (Some t) None m s gs t (holding r f h) f z IsUser); try done.
  all: try (destruct Hz as [[= -> ->]|[[= -> ->]|[[= -> ->]|[[= -> ->]|[]%not_elem_of_nil]]]]; done).
  - right. by destruct Hz as [[= -> ->]|[[= -> ->]|[[= -> ->]|[[= -> ->]|[]%not_elem_of_nil]]]].
  - simpl. congruence.
  - by rewrite <- He.
  - th_roles.
  - pose proof (th_state Hi) as Hs. rewrite <- He. unfold set_state.
    pose proof (so_moving Hs Hm) as Hstd. clear Hk Hr Hm.
    destruct Hz as [[= -> ->]|[[= -> ->]|[[= -> ->]|[[= -> ->]|[]%not_elem_of_nil]]]]; simpl in Hos; th_states Hs.
  - intros Hd. destruct (Hdel Hd) as [_ Hsd]. autounfold with states in *.
    destruct Hz as [[= -> ->]|[[= -> ->]|[[= -> ->]|[[= -> ->]|[]%not_elem_of_nil]]]]; auto;
    destruct Hde as [?|Hde]; auto; try done; lia.
Qed.

(** The result is handed over. *)
Lemma th_keeps_take_result t o k es f :
  keeps t o (k (result f)) (es ++ shown (Deliver (result f)))
    (holding (IsJoin 2) (Fields (task f) 0 (started f) (finished f) (state_of f)) 0) ->
  keeps t o (take_result k) es (holding (IsJoin 1) f 0).
Proof.
  apply (th_keeps_access t o es false (fun f =>
    (result f, Fields (task f) 0 (started f) (finished f) (state_of f), shown (Deliver (result f)))));
    [done|].
  intros x m s gs Hi Hg. split; [done|]. exists x.
  destruct (th_accessible Hi Hg f eq_refl) as (_ & <- & Ha).
  destruct (go_role (th_ok Hi Hg)) as (-> & Hst & Hz & [[v Hos] Hp] & Hde).
  specialize (Hde (le_n 2)). pose proof (th_not_discarded Hi Hg (or_intror eq_refl)) as Hdis.
  destruct (th_account Hi) as [Hpa Hzs Ht Hdr Hus Hre Hdl Hfr Hfi].
  eapply (th_step_fields (Some t) (Some t) m _ s gs t (holding (IsJoin 1) (fs s) 0) (fs s)); try done; simpl.
  - split_and!; eauto. intros. lia.
  - th_roles.
  - pose proof (th_state Hi) as Hs. th_states Hs.
  - split; simpl; try done.
    + rewrite Ha in *. lia.
    + lia.
    + unfold result_ok in *. simpl. rewrite Hde, Hdis in *. destruct (kept m) as [|r [|]]; [| |done].
      * destruct Hre as (-> & _ & _). auto.
      * destruct Hre as [Hr [(-> & _)|[(_ & ? & _)|(_ & ?)]]]; [|done..]. split; auto.
    + auto.
Qed.

Lemma th_keeps_take_task t o k es n r f :
  uses (ThGhost (Holds n) r true (Some f) 0 false (false, 0)) -> r <> IsBegin ->
  (forall x m s (gs : gmap tid th_ghost), th_inv x m s gs ->
     gs !! t = Some (ThGhost (Holds n) r true (Some f) 0 false (false, 0)) -> phase s = Ends \/ phase s = Ended) ->
  (forall b, keeps t o (k b) es
     (ThGhost (Holds n) r true (Some (Fields false (result f) (started f) (finished f) (state_of f))) (b2z b)
        false (false, 0))) ->
  keeps t o (sync_thread_take_task k) es (ThGhost (Holds n) r true (Some f) 0 false (false, 0)).
Proof.
  intros Hu Hb Hph Hk.
  apply (th_keeps_access t o es true (fun f =>
    (task f, Fields false (result f) (started f) (finished f) (state_of f), [])))
    with (g' := ThGhost (Holds n) r true
                  (Some (Fields false (result f) (started f) (finished f) (state_of f))) (b2z (task f))
                  false (false, 0))
    (fl := f); [done| |simpl; rewrite app_nil_r; apply Hk].
  intros x m s gs Hi Hg. pose proof (Hph x m s gs Hi Hg) as Hp.
  assert (running_task s = false) as Hrun.
  { unfold running_task. by destruct Hp as [-> | ->]. }
  split; [done|]. exists x.
  apply (th_step_take x m s gs t (ThGhost (Holds n) r true (Some f) 0 false (false, 0)) f); try done;
    [by left|].
  destruct (stage s) eqn:Hst; try done; exfalso;
    destruct (so_new (th_state Hi)) as (_ & Hos & _); rewrite ?Hst; try done;
    apply (so_main (th_state Hi)) in Hos; destruct Hp; congruence.
Qed.

(** A reference to the task that has left [core->task] is dropped. *)
Lemma th_keeps_decref t o k es g :
  uses g -> has g = 1 ->
  keeps t o k (es ++ shown DropTask)
    (ThGhost (stk g) (does g) (locked g) (hold g) 0 (dumped g) (view g)) ->
  keeps t o (decref_task k) es g.
Proof.
  intros Hu Hh Hk tr s gs a w [x Hi] Hg.
  destruct (th_uses_core Hi Hg Hu) as (_ & _ & Ha & _).
  pose proof (th_has_task Hi Hg Hu) as Ht. rewrite Hh in Ht. specialize (Ht ltac:(lia)).
  destruct (go_has (th_ok Hi Hg)) as [Hr _]; [lia|].
  rewrite Ht, Hr. simpl. eexists. split; [|exact Hk]. apply (th_shown x tr t _ _ (shown DropTask)).
  apply (th_step_decref x _ s gs t g); try done; [|lia].
  destruct (given (stage s)) eqn:Hgi; [done|].
  destruct (so_new (th_state Hi) Hgi) as (_ & _ & _ & ?). congruence.
Qed.

Lemma joining_ended x m s (gs : gmap tid th_ghost) t f :
  th_inv x m s gs -> gs !! t = Some (holding (IsJoin 2) f 0) -> phase s = Ends \/ phase s = Ended.
Proof.
  intros Hi Hg. destruct (go_role (th_ok Hi Hg)) as (_ & _ & _ & [_ Hp] & _). by right.
Qed.

Lemma th_keeps_join t : keeps t OpJoin sync_thread_join [] (at_call IsUser).
Proof.
  apply th_keeps_lock; [by right|]. intros f. apply th_keeps_read with f; [done|].
  destruct ((_ || _) || _) eqn:H1; [apply th_keeps_refuse; [done|]; simpl; set_solver|].
  destruct (state_of f =? SYNC_THREAD_DETACHED) eqn:H2; [apply th_keeps_refuse; [done|]; simpl; set_solver|].
  destruct ((state_of f =? SYNC_THREAD_JOINING) || _) eqn:H3; [apply th_keeps_refuse; [done|]; simpl; set_solver|].
  assert (may_move f) as Hf.
  { split; [lia|]. rewrite !not_elem_of_cons. split_and!; try lia. apply not_elem_of_nil. }
  apply th_keeps_joining_self; [done..|]. intros [|]; [apply th_keeps_refuse; [done|]; simpl; set_solver|].
  apply th_keeps_hook. intros st. destruct (Z.eqb_spec st 0) as [->|Hst]; simpl; last first.
  { apply th_keeps_refuse; [done|]. unfold fails. destruct (Z.eqb_spec st 0); [done|]. by simpl. }
  apply th_keeps_moves with (IsJoin 0); [done..|by left|]. apply th_keeps_unlock.
  apply th_keeps_join_thread; clear f H1 H2 H3 Hf.
  - intros st Hst. destruct (Z.eqb_spec st 0); [done|]. apply th_keeps_lock; [by right|]. intros f.
    apply th_keeps_settles; [by left|]. by apply th_keeps_refuse.
  - apply th_keeps_lock; [by right|]. intros f. apply th_keeps_take_result.
    apply th_keeps_take_task; [by right|done|intros x m s gs; apply joining_ended|]. intros b.
    apply th_keeps_settles; [by right; left|]. apply th_keeps_unlock.
    destruct b.
    + apply th_keeps_decref; [by right|done|]. apply th_keeps_return; [done|]. simpl. left. eauto.
    + apply th_keeps_return; [done|]. simpl. left. split; [done|]. by exists [].
Qed.

Lemma th_keeps_pthread_detach t o k es :
  (forall st, st <> 0 -> keeps t o (k st) (es ++ [Failed st]) (call (IsDetach false))) ->
  keeps t o (k 0) es (call (IsDetach true)) ->
  keeps t o (pthread_detach k) es (call (IsDetach false)).
Proof.
  intros Hf Hk tr s gs a w [x Hi] Hg.
  destruct (go_role (th_ok Hi Hg)) as (Hx & Hst & Hz & [v Hos]).
  simpl. rewrite Hos. unfold fails. destruct (Z.eqb_spec a 0) as [->|Ha]; simpl.
  - exists (call (IsDetach true)). rewrite !app_nil_r. split; [|done]. exists x.
    apply (th_step_os x x _ s gs t (call (IsDetach false))); try done; simpl.
    + split_and!; try done. by exists v.
    + th_roles.
    + pose proof (th_state Hi) as Hs. th_states Hs.
  - exists (call (IsDetach false)). rewrite insert_id by done. split; [|by apply Hf].
    by apply (th_shown x tr t s gs [Failed a]).
Qed.

Lemma th_keeps_detach_thread t o k es :
  (forall st, st <> 0 -> keeps t o (k st) (es ++ [Failed st]) (call (IsDetach false))) ->
  keeps t o (k 0) es (call (IsDetach true)) ->
  keeps t o (detach_thread k) es (call (IsDetach false)).
Proof. unfold detach_thread. destruct (windows P); apply th_keeps_pthread_detach. Qed.

Lemma finished_ended x m s (gs : gmap tid th_ghost) t r f h d st v :
  finished f <> 0 -> th_inv x m s gs -> gs !! t = Some (ThGhost st r true (Some f) h d v) ->
  phase s = Ends \/ phase s = Ended.
Proof.
  intros Hf Hi Hg. destruct (th_accessible Hi Hg f eq_refl) as (_ & <- & _).
  by apply (so_finished (th_state Hi)).
Qed.

Lemma th_keeps_detach t : keeps t OpDetach sync_thread_detach [] (at_call IsUser).
Proof.
  apply th_keeps_lock; [by right|]. intros f. apply th_keeps_read with f; [done|].
  destruct ((_ || _) || _) eqn:H1; [apply th_keeps_refuse; [done|]; simpl; set_solver|].
  destruct (state_of f =? SYNC_THREAD_DETACHED) eqn:H2; [apply th_keeps_refuse; [done|]; simpl; set_solver|].
  destruct ((state_of f =? SYNC_THREAD_JOINING) || _) eqn:H3; [apply th_keeps_refuse; [done|]; simpl; set_solver|].
  assert (may_move f) as Hf.
  { split; [lia|]. rewrite !not_elem_of_cons. split_and!; try lia. apply not_elem_of_nil. }
  apply th_keeps_moves with (IsDetach false); [done..|by right|].
  assert (forall st es, st <> 0 -> first_failed es = Some st ->
    keeps t OpDetach (sync_thread_lock_or_abort (write_state SYNC_THREAD_JOINABLE
      (sync_thread_unlock_or_abort (Ret (RStatus st : lR thread))))) es (call (IsDetach false))) as Hundo.
  { clear f H1 H2 H3 Hf. intros st es Hst Hes. apply th_keeps_lock; [by right|]. intros f.
    apply th_keeps_settles; [by right; right; left|]. apply th_keeps_refuse; [done|].
    simpl. by rewrite first_failed_app, Hes. }
  apply th_keeps_hook. intros st. apply th_keeps_unlock. clear f H1 H2 H3 Hf.
  unfold fails. destruct (Z.eqb_spec st 0) as [->|Hst]; [|by apply Hundo].
  apply th_keeps_detach_thread.
  { intros st Hst. destruct (Z.eqb_spec st 0); [done|]. by apply Hundo. }
  apply th_keeps_lock; [by right|]. intros f. apply th_keeps_settles; [by right; right; right; left|].
  apply th_keeps_read with (set_state SYNC_THREAD_DETACHED f); [done|].
  destruct (Z.eqb_spec (finished (set_state SYNC_THREAD_DETACHED f)) 0) as [|Hf]; simpl negb; cbv iota.
  - apply th_keeps_refuse; [done|]. simpl. left. split; [done|]. by exists [].
  - apply th_keeps_take_task; [by right|done|intros x m s gs; by apply finished_ended|]. intros [|].
    + apply th_keeps_unlock, th_keeps_decref; [by right|done|].
      apply th_keeps_return; [done|]. simpl. left. eauto.
    + apply th_keeps_refuse; [done|]. simpl. left. split; [done|]. by exists [].
Qed.

(** *** The task, and calls that do not use the core *)

Lemma th_keeps_return_same t o r es ro :
  borrow ro = 0 -> ro <> IsBegin ->
  (forall s : lS thread, leave thread_code t o r s = s) -> (forall m, note m (LRes t o r) = m) ->
  returns th_outline o es r -> keeps t o (Ret r) es (call ro).
Proof.
  intros Hb Hbg Hl Hn Hr. split; [done|]. intros tr s gs [x Hi] Hg. exists x.
  rewrite Hl, summarize_app. cbn [fold_left]. rewrite Hn.
  destruct (th_account Hi) as [Hp Hz Ht Hdr Hus Hre Hde Hfr Hfi].
  apply (th_return x (summarize tr) (summarize tr) s _ gs t (call ro)); try done; simpl.
  - eapply counted_return; [apply Hi|done|by left].
  - eapply known_return; [apply Hi|done|done|by left].
  - apply Hi.
  - split; try done; simpl; [|rewrite Hb; lia]. by rewrite Z.sub_0_r.
Qed.

Lemma th_keeps_keep_result t o k es f r :
  r <> 0 -> result f = 0 ->
  keeps t o k (es ++ shown (Keep r))
    (holding IsTask (Fields (task f) r (started f) (finished f) (state_of f)) 0) ->
  keeps t o (keep_result r k) es (holding IsTask f 0).
Proof.
  intros Hr Hf Hk.
  apply (th_keeps_access t o es false (fun f =>
    (tt, Fields (task f) r (started f) (finished f) (state_of f), shown (Keep r)))) with (fl := f)
    (g' := holding IsTask (Fields (task f) r (started f) (finished f) (state_of f)) 0); [done| |done].
  clear Hk.
  intros x m s gs Hi Hg. split; [done|]. exists x.
  destruct (th_accessible Hi Hg f eq_refl) as (_ & <- & Ha).
  destruct (go_role (th_ok Hi Hg)) as [Hp Hru].
  pose proof (th_not_discarded Hi Hg (or_intror eq_refl)) as Hdis.
  destruct (th_account Hi) as [Hpa Hzs Ht Hdr Hus Hre Hdl Hfr Hfi].
  assert (delivered m = []) as Hde.
  { destruct (delivered m); [done|]. destruct Hdl as [? _]; [done|congruence]. }
  eapply (th_step_fields x x m _ s gs t (holding IsTask (fs s) 0) (fs s)); try done; simpl.
  - pose proof (th_state Hi) as Hs. clear Hru. th_states Hs.
  - split; simpl; try done.
    + rewrite Ha in *. lia.
    + lia.
    + unfold result_ok in *. simpl. rewrite Hde, Hdis in *. destruct (kept m) as [|r' [|]]; [auto| |done].
      destruct Hre as [Hr' [(? & _)|[(_ & ? & _)|(_ & ?)]]]; [congruence|done..].
    + congruence.
    + intros Hgi. destruct (so_new (th_state Hi) Hgi) as (_ & Hos & _).
      apply (so_main (th_state Hi)) in Hos. congruence.
Qed.

Lemma th_keeps_complete t r : r <> 0 -> keeps t (OpComplete r) (sync_thread_complete r) [] (call IsTask).
Proof.
  intros Hr. apply th_keeps_lock; [by right|]. intros f. apply th_keeps_read with f; [done|].
  assert (forall es, returns th_outline (OpComplete r : lO thread) es (RVoid : lR thread) -> forall f,
    keeps t (OpComplete r) (sync_thread_unlock_or_abort (Ret (RVoid : lR thread))) es (holding IsTask f 0)) as Hk.
  { intros es Hes f'. by apply th_keeps_unlock, th_keeps_return_same. }
  destruct (Z.eqb_spec (result f) 0) as [Hf|Hf].
  - apply th_keeps_keep_result; [done..|]. apply Hk. by left.
  - intros tr s gs a v [x Hi] Hg. exists (holding IsTask f 0). rewrite insert_id by done.
    split; [by apply (th_shown x tr t s gs (shown (Refuse r)))|]. apply Hk. by right.
Qed.

(** *** The end of the core *)

(** Who has dropped the last reference, while it looks at the fields [f]. *)

Lemma th_keeps_dec t o k es r v :
  counts_core r = true -> r <> IsBegin -> r <> IsEarly ->
  (forall n, n <> 0 -> keeps t o (k n) es (call r)) ->
  (r <> IsUp -> forall f, keeps t o (k 0) es (owns r f 0 false)) ->
  keeps t o (sync_arc_dec th_lens k) es (leaving r v).
Proof.
  intros Hr Hb Hea Hk Hl. apply keeps_on_core. intros tr s gs [x Hi] Hg.
  assert (uses (leaving r v)) as Hu by by left.
  destruct (th_uses_core Hi Hg Hu) as (_ & Ho & Ha & Hrf & Hrd & Hin). simpl.
  split; [done|]. destruct (Z.ltb_spec (refs (th_life s)) 1); [lia|].
  pose proof (th_counted Hi) as Hc. destruct (th_ok Hi Hg) as [Hro Hho Hlk _ Hha _ _ _]. simpl in *.
  destruct (Z.eqb_spec (refs (th_life s) - 1) 0) as [Hz|Hz].
  - rewrite Hz. exists (owns r (fs s) 0 false). split; [|apply Hl].
    + exists x. apply (th_step_core x _ s _ gs t (leaving r v)); try done; simpl.
      * apply (counted_dec stk _ gs t (leaving r v) (owns r (fs s) 0 false) 0) in Hc; try done.
        -- by rewrite Hz in Hc.
        -- by rewrite Hz.
      * apply (known_own stk view fine _ _ gs t (leaving r v)); try done. simpl. congruence.
      * split; simpl; try done.
        intros f [= <-]. split; [done|]. right; left. by exists 0.
      * by left.
    + intros ->. destruct Hro as (Hst & _). pose proof (counted_alive stk _ gs Hc (th_uses_total Hi Hg Hu)) as (_ & _ & Hrt & _).
      pose proof (counted_total_ge stk _ gs t _ Hc Hg). simpl in *.
      pose proof (counted_pins stk _ gs Hc).
      rewrite (so_handle (th_state Hi)) in *; [lia|]. left. exists t. by right.
  - exists (call r). split; [|by apply Hk]. exists x.
    apply (th_step_core x _ s _ gs t (leaving r v)); try done; simpl.
    + apply (counted_dec stk _ gs t (leaving r v) (call r) 0 Hc Hg); try done.
      by destruct (Z.eqb_spec (refs (th_life s) - 1) 0).
    + apply (known_change stk view fine (th_life s) _ (ready (mutex s), mutex_initialized s) _ gs t (leaving r v)); try done.
      apply Hi.
    + by left.
Qed.

Definition discards (f : fields) : bool := negb (result f =? 0).

Lemma th_keeps_read_initialized t o k es r f h d :
  keeps t o (k 1) es (owns r f h d) -> keeps t o (read_initialized k) es (owns r f h d).
Proof.
  intros Hk tr s gs a w [x Hi] Hg.
  destruct (th_owns Hi Hg _ eq_refl) as (_ & (Ha & Hsh & _) & Hv & _). unfold private.
  rewrite Ha, Hsh. simpl. injection Hv as _ ->. exists (owns r f h d).
  rewrite insert_id, !app_nil_r by done. split; [by exists x|done].
Qed.

(** The core is destroyed: its mutex, then its memory. *)
Lemma th_keeps_destroy t o k es r f :
  keeps t o k es (gone r) -> counts_core r = true -> r <> IsBegin -> r <> IsEarly ->
  keeps t o (sync_os_mutex_destroy th_lens mutex_lens (fun st =>
    sync_thread_abort_if_failed st (free th_lens k))) es (owns r f (- b2z (task f)) (discards f)).
Proof.
  intros Hk Hr Hb Hea. apply keeps_os_call. intros tr s gs a w [x Hi] Hg.
  pose proof (th_not_held Hi Hg (ex_intro _ 0 eq_refl)) as Hh.
  destruct (th_owns Hi Hg _ eq_refl) as (Ho & (Ha & Hsh & _) & Hv & _). unfold private.
  injection Hv as Hrd Hin. simpl. rewrite Ha, Hsh, Hrd, Hh. simpl. unfold fails, sync_thread_abort_if_failed.
  destruct (Z.eqb_spec a 0) as [->|Hn]; last first.
  { exists (owns r f (- b2z (task f)) (discards f)). rewrite insert_id by done.
    split; [by apply (th_shown x tr t s gs [Failed a])|]. left.
    rewrite first_failed_app. by destruct (first_failed es). }
  exists (ThGhost (Owns (Some 0)) r false (Some f) (- b2z (task f)) (discards f) (false, 1)).
  rewrite !app_nil_r. split.
  - exists x. destruct (th_ok Hi Hg) as [Hro Hho Hlk Hu Hha Hne Hw Hd]. simpl in *.
    apply (th_step_core x _ s _ gs t (owns r f (- b2z (task f)) (discards f))); try done; simpl; try by left.
    + by apply (counted_same stk) with (owns r f (- b2z (task f)) (discards f)); [apply Hi|..].
    + apply (known_own stk view fine _ _ gs t (owns r f (- b2z (task f)) (discards f))); try done.
      simpl. congruence.
  - clear tr s gs w Hi Hg Hh Ho Ha Hsh Hrd Hin x. apply keeps_on_core. intros tr s gs [x Hi] Hg.
    destruct (th_owns Hi Hg _ eq_refl) as (Ho & (Ha & Hsh & _) & Hv & _ & Hrun & _).
    simpl. rewrite Ha, Hsh. split; [done|]. exists (gone r). split; [|done]. exists x.
    pose proof (th_owner_tasks Hi Hg _ eq_refl) as Ht. simpl in Ht.
    destruct (th_accessible Hi Hg f eq_refl) as (_ & He & _).
    destruct (th_ok Hi Hg) as [Hro Hho Hlk Hu Hha Hne Hw Hd]. simpl in *.
    destruct (th_account Hi) as [_ _ Hta _ _ Hre _ _ _].
    eapply (th_step_core x _ s); try done; simpl.
    + by eapply (counted_free stk); [apply Hi|..].
    + by eapply (known_own stk view fine).
    + right; left. split_and!; [done| |].
      * rewrite Ha, Ht, He in Hta. destruct (task_object s), (task f); simpl in Hta; try done; lia.
      * intros Hde Hdis. unfold result_ok in Hre. rewrite Hde, Hdis, He in Hre.
        destruct (kept (summarize tr)) as [|r0 [|]]; [done| |done].
        destruct Hre as [Hr0 [(Hrf & _)|[(_ & ? & _)|(_ & ?)]]]; [|done..].
        unfold discards in Hd. destruct (Z.eqb_spec (result f) 0); [congruence|]. by destruct Hd.
Qed.

(** The owner drops the task that is left in the core. *)
Lemma th_keeps_owner_decref t o k es r f :
  task f = true -> keeps t o k (es ++ shown DropTask) (owns r f (-1) false) ->
  keeps t o (decref_task k) es (owns r f 0 false).
Proof.
  intros Hf Hk tr s gs a w [x Hi] Hg.
  destruct (th_owns Hi Hg _ eq_refl) as (Ho & (Ha & Hsh & _) & _ & _ & Hrun & _).
  pose proof (th_owner_tasks Hi Hg _ eq_refl) as Ht. simpl in Ht.
  destruct (th_accessible Hi Hg f eq_refl) as (_ & He & _).
  assert (task_object s = true) as Hob.
  { pose proof (ac_task (th_account Hi)) as Hta. rewrite Ha, Ht, He, Hf in Hta.
    by destruct (task_object s). }
  rewrite Hob, Hrun. simpl. exists (owns r f (-1) false). split; [|done].
  apply (th_shown x tr t _ _ (shown DropTask)).
  apply (th_step_decref x _ s gs t (owns r f 0 false)); try done; simpl; [|by exists 0].
  destruct (given (stage s)) eqn:Hgi; [done|].
  destruct (so_new (th_state Hi) Hgi) as (_ & _ & _ & ?). congruence.
Qed.

(** The owner drops the result that is left in the core. *)
Lemma th_keeps_discard t o k es r f h :
  counts_core r = true -> r <> IsBegin -> r <> IsEarly -> result f <> 0 ->
  keeps t o k (es ++ shown (Discard (result f))) (owns r f h true) ->
  keeps t o (discard_result k) es (owns r f h false).
Proof.
  intros Hr Hb Hea Hf Hk.
  apply (th_keeps_access t o es false (fun f => (tt, f, shown (Discard (result f))))) with (fl := f)
    (g' := owns r f h true); [done| |done].
  clear Hk. intros x m s gs Hi Hg. split; [done|]. exists x.
  destruct (th_accessible Hi Hg f eq_refl) as (_ & He & Ha).
  destruct (th_ok Hi Hg) as [Hro Hho Hlk Hu Hha Hne Hw Hd].
  assert (discarded m = []) as Hdis.
  { destruct (discarded m) eqn:Hdm; [done|]. exfalso.
    destruct (th_discarded Hi) as [?|(t' & g' & Hg' & Hdg)]; [by rewrite Hdm|congruence|].
    destruct (decide (t' = t)) as [->|Htt]; [by simplify_map_eq|].
    destruct (go_dumped (th_ok Hi Hg') Hdg) as [[y Hy] _].
    destruct (th_owns Hi Hg _ eq_refl) as (_ & _ & _ & _ & _ & Hn). destruct (Hn t' g' Hg') as [_ Ho].
    rewrite Hy in Ho. by specialize (Ho Htt). }
  destruct (th_account Hi) as [Hpa Hzs Ht Hdr Hus Hre Hdl Hfr Hfi].
  simpl. assert (with_fs f s = s) as -> by (rewrite <- He; by destruct s).
  apply (th_step x x m _ s s gs t (owns r f h false) (owns r f h true)); try done; simpl.
  - by apply (counted_same stk) with (owns r f h false); [apply Hi|..].
  - by apply known_keep with (owns r f h false); [apply Hi|..].
  - split; simpl; try done. intros _. split; [by exists 0|done].
  - intros t0 g0 Ht0 Hg0 [Hr0 Hho0 Hl0 Hu0 Hha0 Hn0 Hw0 Hd0 Hca0]. split; try done.
    intros Hdd. split; [by apply Hd0|done].
  - apply Hi.
  - split; simpl; try done; [|lia|].
    + rewrite Ha in *. lia.
    + unfold result_ok in *. simpl. rewrite Hdis, He in *. destruct (kept m) as [|r0 [|]]; [|  |done].
      * by destruct Hre as (? & _).
      * destruct Hre as [Hr0 [(-> & -> & _)|[(? & _ & _)|(_ & ?)]]]; [|done..]. split; auto.
  - by right.
  - by right; left.
Qed.

Lemma th_keeps_release t o k es r v :
  counts_core r = true -> r <> IsBegin -> r <> IsEarly -> (r <> IsUp -> first_failed es = None) ->
  keeps t o k es (call r) ->
  (r <> IsUp -> forall es', first_failed es' = None -> keeps t o k es' (gone r)) ->
  keeps t o (sync_thread_core_release k) es (leaving r v).
Proof.
  intros Hr Hb Hea Hes Hk Hg. apply th_keeps_dec; [done..| |].
  { intros n Hn. by destruct (Z.eqb_spec n 0). }
  intros Hup f. specialize (Hg Hup). specialize (Hes Hup). simpl negb. cbv iota.
  assert (forall es', first_failed es' = None -> keeps t o
    (read_initialized (fun z => if negb (z =? 0) then sync_os_mutex_destroy th_lens mutex_lens
       (fun st => sync_thread_abort_if_failed st (free th_lens k)) else free th_lens k))
    es' (owns r f (- b2z (task f)) (discards f))) as Hde.
  { intros es' He'. apply th_keeps_read_initialized. apply th_keeps_destroy; auto. }
  assert (forall es', first_failed es' = None -> keeps t o
    (read_fields (fun f => if negb (result f =? 0)
       then discard_result (read_initialized (fun z => if negb (z =? 0) then sync_os_mutex_destroy th_lens mutex_lens
         (fun st => sync_thread_abort_if_failed st (free th_lens k)) else free th_lens k))
       else (read_initialized (fun z => if negb (z =? 0) then sync_os_mutex_destroy th_lens mutex_lens
         (fun st => sync_thread_abort_if_failed st (free th_lens k)) else free th_lens k))))
    es' (owns r f (- b2z (task f)) false)) as Hre.
  { intros es' He'. apply th_keeps_read with f; [done|]. unfold discards in Hde.
    destruct (Z.eqb_spec (result f) 0) as [|Hf]; simpl in *; [by apply Hde|].
    apply th_keeps_discard; [done..|]. apply Hde. by rewrite first_failed_app, He'. }
  apply th_keeps_read with f; [done|]. destruct (task f) eqn:Hf; [|by apply Hre].
  apply th_keeps_owner_decref; [done|]. apply Hre. by rewrite first_failed_app, Hes.
Qed.

(** A return after a release, whether or not it was the last one. *)
Lemma th_released x m m' s s' gs t g :
  th_inv x m s gs -> gs !! t = Some g ->
  g = call (does g) \/ g = gone (does g) -> borrow (does g) = 0 ->
  th_life s' = th_life s -> mutex s' = mutex s -> mutex_initialized s' = mutex_initialized s ->
  fs s' = fs s -> called s' = called s ->
  discarded m' = discarded m -> (running_task s' = true -> running_task s = true) ->
  (forall t0 g0, t0 <> t -> gs !! t0 = Some g0 -> role_ok x m s t0 (does g0) -> role_ok x m' s' t0 (does g0)) ->
  state_ok s' -> account m' s' (tasks gs) (users gs) -> (phase s' = Begins -> phase s = Begins /\ does g <> IsBegin) ->
  th_inv x m' s' (delete t gs).
Proof.
  intros Hi Hg Hor Hb El Em En Ef Ec Ed Hrun Hoth Hs Hac Hph.
  assert (has g = 0 /\ locked g = false /\ dumped g = false /\ (stk g = Holds 0 \/ stk g = Owns None)) as
    (Hh & Hl & Hd & Hst) by (destruct Hor as [-> | ->]; auto).
  apply (th_return x m m' s s' gs t g); try done; rewrite ?El, ?Em, ?En; try done.
  - by apply (counted_return stk) with g; [apply Hi|..].
  - apply (known_return stk view fine (th_life s) _ _ gs t g); try done; [apply Hi|].
    destruct Hor as [Hgd|Hgd]; rewrite Hgd; simpl; [by left|]. right.
    destruct (th_owns Hi Hg None) as (_ & (Ha & _) & Hv & _); [by rewrite Hgd|].
    rewrite Hgd in Hv. rewrite Hv, Ha. by split.
  - by rewrite Hh, Hb, !Z.sub_0_r.
  - by rewrite Hd.
Qed.

Lemma th_keeps_main t : keeps t OpMain sync_thread_main [] (ThGhost (Holds 1) IsBegin false None 0 false (false, 0)).
Proof.
  intros tr s gs a w [x Hi] Hg.
  destruct (th_uses_core Hi Hg) as (_ & _ & Ha & _); [by left|].
  destruct (go_role (th_ok Hi Hg)) as [Hp _].
  destruct (so_running (th_state Hi)) as (Ht & Hc & Hob); [unfold running_task; by rewrite Hp|].
  rewrite Ha, Hp, Ht, Hc, Hob. simpl. eexists. rewrite app_nil_r, insert_id by exact Hg.
  split; [by exists x|]. split; [done|]. clear. intros tr s gs [x Hi] Hg. exists x.
  rewrite summarize_app. cbn [fold_left note].
  destruct (go_role (th_ok Hi Hg)) as [Hp Hr].
  pose proof (so_pins (th_state Hi)) as Hpins. rewrite Hp in Hpins. simpl in Hpins.
  destruct (th_account Hi) as [Hpa Hz Ht Hdr Hus Hre Hde Hfr Hfi].
  eapply (th_return x _ _ s); try done; simpl.
  - by eapply (counted_pin stk); [apply Hi|..].
  - eapply (known_return stk view fine); [apply Hi|done|done|by left].
  - th_roles.
  - unfold running_task. by rewrite Hp.
  - pose proof (th_state Hi) as Hs. clear Hr.
    assert (running_task s = true) by (unfold running_task; by rewrite Hp). th_states Hs; first [lia | intuition congruence].
  - split; simpl; try done; [|lia|].
    + by rewrite Z.sub_0_r.
    + intros Hd. destruct (Hde Hd). congruence.
Qed.

Lemma th_keeps_main_return t es g :
  first_failed es = None -> g = call IsEnd \/ g = gone IsEnd ->
  keeps t OpMainEnd (Ret (RVoid : lR thread)) es g.
Proof.
  intros He Hor. split; [done|]. intros tr s gs [x Hi] Hg. exists x.
  rewrite summarize_app. cbn [fold_left note].
  assert (does g = IsEnd) as Hd by by destruct Hor as [-> | ->].
  pose proof (go_role (th_ok Hi Hg)) as Hro. rewrite Hd in Hro. destruct Hro as [Hp Hr].
  pose proof (so_pins (th_state Hi)) as Hpins. rewrite Hp in Hpins. simpl in Hpins.
  destruct (th_account Hi) as [Hpa Hz Ht Hdr Hus Hre Hde Hfr Hfi].
  apply (th_released x (summarize tr) _ s _ gs t g); try done; simpl.
  - by rewrite Hd.
  - by rewrite Hd.
  - th_roles.
  - pose proof (th_state Hi) as Hs. clear Hr. th_states Hs.
  - split; simpl; try done. intros H. destruct (Hde H). congruence.
Qed.

Lemma th_keeps_finished t k es f :
  keeps t OpMainEnd k es
    (ThGhost (Holds 1) IsEnd true (Some (Fields (task f) (result f) (started f) 1 (state_of f))) 0 false (false, 0)) ->
  keeps t OpMainEnd (write_finished 1 k) es (ThGhost (Holds 1) IsEnd true (Some f) 0 false (false, 0)).
Proof.
  intros Hk. apply (th_keeps_access t OpMainEnd es false (fun f =>
    (tt, Fields (task f) (result f) (started f) 1 (state_of f), []))) with (fl := f)
    (g' := ThGhost (Holds 1) IsEnd true (Some (Fields (task f) (result f) (started f) 1 (state_of f))) 0 false
             (false, 0)); [done| |simpl; by rewrite app_nil_r].
  clear Hk. intros x m s gs Hi Hg. split; [done|]. exists x.
  destruct (th_accessible Hi Hg f eq_refl) as (_ & <- & Ha).
  destruct (go_role (th_ok Hi Hg)) as [Hp Hr].
  pose proof (th_not_discarded Hi Hg (or_introl (Z.le_refl 1))) as Hdis.
  destruct (th_account Hi) as [Hpa Hz Ht Hdr Hus Hre Hde Hfr Hfi].
  eapply (th_step_fields x x m _ s gs t (ThGhost (Holds 1) IsEnd true (Some (fs s)) 0 false (false, 0)));
    try done; simpl.
  - pose proof (th_state Hi) as Hs. clear Hr. th_states Hs.
  - split; simpl; try done; [|lia]. rewrite Ha in *. lia.
Qed.

Lemma th_keeps_main_end t :
  keeps t OpMainEnd sync_thread_main_end [] (ends IsEnd).
Proof.
  apply th_keeps_lock; [by left|]. intros f. apply th_keeps_finished.
  eapply th_keeps_read; [done|].
  set (f' := Fields (task f) (result f) (started f) 1 (state_of f)).
  assert (forall f es, first_failed es = None ->
    keeps t OpMainEnd (sync_thread_unlock_or_abort (sync_thread_core_release (Ret (RVoid : lR thread)))) es
      (ThGhost (Holds 1) IsEnd true (Some f) 0 false (false, 0))) as Hrest.
  { clear. intros f es He. apply th_keeps_unlock, th_keeps_release; try done.
    - apply th_keeps_main_return; [done|by left].
    - intros _ es' He'. apply th_keeps_main_return; [done|by right]. }
  destruct (state_of f' =? SYNC_THREAD_DETACHED); [|by apply Hrest].
  apply th_keeps_take_task; [by left|done|intros x m s gs; by apply finished_ended|]. intros [|]; [|by apply Hrest].
  apply th_keeps_unlock, th_keeps_decref; [by left|done|]. apply th_keeps_release; try done.
  - apply th_keeps_main_return; [done|by left].
  - intros _ es' He'. apply th_keeps_main_return; [done|by right].
Qed.

(** *** The finalizer *)

Lemma th_keeps_see t o k es f :
  keeps t o (k f) es (ThGhost (Holds 1) (IsDrop (Some (state_of f))) true (Some f) 0 false (false, 0)) ->
  keeps t o (read_fields k) es (ThGhost (Holds 1) (IsDrop None) true (Some f) 0 false (false, 0)).
Proof.
  intros Hk. apply th_keeps_access with
    (ThGhost (Holds 1) (IsDrop (Some (state_of f))) true (Some f) 0 false (false, 0)) f;
    [done| |simpl; by rewrite app_nil_r].
  clear Hk. intros x m s gs Hi Hg. split; [done|]. exists x.
  destruct (th_accessible Hi Hg f eq_refl) as (_ & <- & Ha).
  destruct (go_role (th_ok Hi Hg)) as [Hst _].
  pose proof (th_not_discarded Hi Hg (or_introl (Z.le_refl 1))) as Hdis.
  destruct (th_account Hi) as [Hpa Hz Ht Hdr Hus Hre Hde Hfr Hfi].
  eapply (th_step_fields x x m _ s gs t (ThGhost (Holds 1) (IsDrop None) true (Some (fs s)) 0 false (false, 0)));
    try done; simpl.
  - split; [done|]. by intros z [= <-].
  - pose proof (th_state Hi) as Hs. th_states Hs.
  - split; simpl; try done; [|lia]. rewrite Ha in *. lia.
Qed.

Lemma th_keeps_final_return t es g z :
  first_failed es = None -> terminal z = true -> g = call (IsDrop (Some z)) \/ g = gone (IsDrop (Some z)) ->
  keeps t OpFinalize (Ret (RVoid : lR thread)) es g.
Proof.
  intros He Hz Hor. split; [done|]. intros tr s gs [x Hi] Hg. exists x.
  rewrite summarize_app. cbn [fold_left note].
  assert (does g = IsDrop (Some z)) as Hd by by destruct Hor as [-> | ->].
  pose proof (go_role (th_ok Hi Hg)) as Hro. rewrite Hd in Hro. destruct Hro as [Hst Hro].
  destruct (th_account Hi) as [Hpa Hzs Ht Hdr Hus Hre Hde Hfr Hfi].
  apply (th_released x (summarize tr) _ s _ gs t g); try done; simpl.
  - by rewrite Hd.
  - by rewrite Hd.
  - apply Hi.
  - split; simpl; try done. by rewrite (Hro z).
  - by rewrite Hd.
Qed.

Lemma th_keeps_finalize t : keeps t OpFinalize sync_thread_finalize [] (ends (IsDrop None)).
Proof.
  apply th_keeps_lock; [by left|]. intros f. apply th_keeps_see, th_keeps_unlock.
  destruct (terminal (state_of f)) eqn:Hf; simpl negb; cbv iota; last first.
  { right; right. split; [done|]. by exists (state_of f). }
  apply th_keeps_release; try done.
  - eapply th_keeps_final_return; [done..|by left].
  - intros _ es He. eapply th_keeps_final_return; [done..|by right].
Qed.
End programs.
