(* ===== verification/ThreadSafety.v ===== *)
(** ThreadSafety: construction and start of a thread, and the theorems.

    The constructor and [start] keep the invariant, calls establish it, so every
    execution has it ([th_kept]); the theorems read it off. *)
From stdpp Require Import base gmap list.
From Stdlib Require Import ZArith Lia.
From S2P Require Import Prelude Interleave Platform Arc OsMutex Thread ThreadInvariant ThreadCalls.

Section programs.
Context {P : platform}.
Local Abbreviation role_ok := (role_ok P).
Local Abbreviation state_ok := (state_ok P).
Local Abbreviation th_inv := (th_inv P).
Local Abbreviation th_outline := (th_outline P).
Local Abbreviation keeps := (keeps thread_code th_outline).
Implicit Types (t : tid) (o : lO thread) (es : list (event thread)).

(** *** The constructor *)

Local Abbreviation making z f v := (ThGhost (Owns z) IsMaking false f 0 false v).
Definition makes (o : lO thread) : Prop :=
  match o : lO thread with OpNew | OpTestAbortIfUnjoined => True | _ => False end.

Lemma th_making x m s (gs : gmap tid th_ghost) t z f v :
  th_inv x m s gs -> gs !! t = Some (making z f v) ->
  stage s = NoHandle /\ fs s = no_fields /\ id s = 0 /\ task_object s = false /\ running_task s = false /\
  tasks gs = 0 /\ stake_ok (th_life s) (Owns z) /\ (ready (mutex s), mutex_initialized s) = v /\
  held (mutex s) = None /\ handles (th_life s) = 0 /\ owners stk gs = 1.
Proof.
  intros Hi Hg. destruct (go_role (th_ok Hi Hg)) as (_ & Hst & _).
  destruct (so_new (th_state Hi)) as (Hf & _ & Hid & Hob); [by rewrite Hst|].
  destruct (th_owns Hi Hg z eq_refl) as (Ho & Hok & Hv & Hh & Hrun & _).
  split_and!; try done; [by rewrite (th_owner_tasks Hi Hg z eq_refl)|].
  destruct z as [z|]; [by apply (th_not_held Hi Hg); exists z|].
  destruct (held (mutex s)) as [t'|] eqn:Hm; [|done].
  destruct (th_held Hi t' Hm) as (g' & Hg').
  apply (go_locked (th_ok Hi Hg')) in Hm.
  apply (go_uses (th_ok Hi Hg')) in Hm as [_ Hu].
  destruct (th_owns Hi Hg _ eq_refl) as (_ & _ & _ & _ & _ & Hn). by apply (Hn t' g' Hg') in Hu.
Qed.

Lemma th_keeps_alloc t o k e z :
  keeps t o k e (making (Some 0) (Some no_fields) (false, 0)) ->
  keeps t o (sync_alloc th_lens
    (fun s => with_fs no_fields (with_initialized 0 (with_called false (with_id 0 s)))) k) e (making None None (false, z)).
Proof.
  intros Hk. apply keeps_sync_alloc. intros tr s gs [x Hi] Hg.
  destruct (th_making _ _ _ _ _ _ _ _ Hi Hg)
    as (Hst & Hf & Hid & Hob & Hrun & Htk & [Ha Hsh] & Hv & Hh & Hhd & Ho).
  injection Hv as Hrd Hin. split; [done|]. split.
  - exists (making (Some 0) (Some no_fields) (false, 0)). split; [|done]. exists x.
    pose proof (th_called false x _ s gs Hi Hrun (or_intror Hst)) as Hi'.
    apply (th_step_core x _ (with_called false s) _ gs t (making None None (false, z))); try done; simpl.
    + by eapply (counted_alloc stk); [apply Hi|..].
    + eapply (known_own stk view fine); try done. simpl. by rewrite Hrd.
    + destruct (th_ok Hi Hg) as [Hro Hho Hlk Hu Hha Hne Hw Hd Hca]. split; simpl; try done.
      * intros f [= <-]. split; [done|]. right; left. by exists 0.
    + right; right. rewrite Hst. by split_and!.
  - intros a. exists (making None None (false, z)). rewrite insert_id by done.
    split; [by apply (th_shown x tr t s gs [Failed a])|]. left.
    rewrite first_failed_app. by destruct (first_failed e).
Qed.

(** A step of the constructor on the new core. *)
Lemma th_making_step x m s s' (gs : gmap tid th_ghost) t y z v v' :
  th_inv x m s gs -> gs !! t = Some (making (Some y) (Some no_fields) v) ->
  same_rest s s' -> counted stk (th_life s') (<[t := making (Some z) (Some no_fields) v']> gs) ->
  (ready (mutex s'), mutex_initialized s') = v' -> held (mutex s') = None ->
  handles (th_life s') = handles (th_life s) -> pins (th_life s') = pins (th_life s) ->
  made (th_life s') = made (th_life s) -> allocated (th_life s') = true ->
  th_inv x m s' (<[t := making (Some z) (Some no_fields) v']> gs).
Proof.
  intros Hi Hg Hsame Hc Hv' Hm Hh Hp Hmd Hal.
  destruct (th_making _ _ _ _ _ _ _ _ Hi Hg)
    as (Hst & Hf & Hid & Hob & Hrun & Htk & (Ha & Hsh & Hr) & Hv & Hhe & Hhd & Ho).
  apply (th_step_core x m s s' gs t (making (Some y) (Some no_fields) v)); try done.
  - by apply (known_own stk view fine _ _ gs t (making (Some y) (Some no_fields) v)).
  - destruct (th_ok Hi Hg) as [Hro Hho Hlk Hu Hha Hne Hw Hd Hca]. split; try done.
    + by apply (same_role x m s).
    + intros f [= <-]. pose proof Hsame as (-> & _). split; [done|]. right; left. by exists z.
    + simpl. by rewrite Hm.
  - by rewrite Hm, Hhe.
  - left. by rewrite Ha.
Qed.

Lemma th_keeps_refs_store t o k e :
  keeps t o k e (making (Some 1) (Some no_fields) (false, 0)) ->
  keeps t o (refs_store th_lens 1 k) e (making (Some 0) (Some no_fields) (false, 0)).
Proof.
  intros Hk. apply keeps_on_core. intros tr s gs [x Hi] Hg.
  destruct (th_making _ _ _ _ _ _ _ _ Hi Hg)
    as (Hst & Hf & Hid & Hob & Hrun & Htk & (Ha & Hsh & Hr) & Hv & Hhe & Hhd & Ho).
  split; [done|]. simpl. rewrite Hsh. exists (making (Some 1) (Some no_fields) (false, 0)). split; [|done].
  exists x. eapply th_making_step; try done. by eapply (counted_store stk); [apply Hi|..].
Qed.

Lemma th_keeps_init_state t o k e v :
  keeps t o k e (making (Some 1) (Some no_fields) v) ->
  keeps t o (init_state k) e (making (Some 1) (Some no_fields) v).
Proof.
  intros Hk. apply (th_keeps_access t o e false (fun f => (tt, set_state SYNC_THREAD_CREATED f, [])))
    with (making (Some 1) (Some no_fields) v) no_fields; [done| |simpl; by rewrite app_nil_r].
  intros x m s gs Hi Hg. split; [done|]. exists x. by apply th_with_fs.
Qed.

Lemma th_keeps_new_return t o e st z :
  o = OpNew -> returns th_outline o e (RNew st false : lR thread) ->
  keeps t o (Ret (RNew st false : lR thread)) e (making None None (false, z)).
Proof.
  intros -> Hr. split; [done|]. intros tr s gs [x Hi] Hg. exists x.
  rewrite summarize_app. cbn [fold_left note].
  destruct (th_account Hi) as [Hp Hz Ht Hdr Hus Hre Hde Hfr Hfi].
  destruct (th_making _ _ _ _ _ _ _ _ Hi Hg)
    as (Hst & Hf & Hid & Hob & Hrun & Htk & [Ha Hsh] & Hv & Hhe & Hhd & Ho).
  eapply th_return; try done; simpl.
  - eapply (counted_return stk); [apply Hi|done|by right].
  - eapply (known_return stk view fine); [apply Hi|done|done|]. right. rewrite Hv, Ha. by split.
  - apply Hi.
  - split; try done; simpl; [|lia]. by rewrite Z.sub_0_r.
Qed.

(** Initialising the mutex. *)
Lemma th_keeps_mutex_init t o k e :
  makes o ->
  (forall st, st <> 0 -> keeps t o (k st) (e ++ [Failed st]) (making (Some 1) (Some no_fields) (false, 0))) ->
  keeps t o (k 0) e (making (Some 1) (Some no_fields) (true, 0)) ->
  keeps t o (sync_os_mutex_init th_lens mutex_lens k) e (making (Some 1) (Some no_fields) (false, 0)).
Proof.
  intros _ Hf Hk. apply keeps_os_call. intros tr s gs a w [x Hi] Hg.
  destruct (th_making _ _ _ _ _ _ _ _ Hi Hg)
    as (Hst & Hfs & Hid & Hob & Hrun & Htk & (Ha & Hsh & Hr) & Hv & Hhe & Hhd & Ho).
  injection Hv as Hrd Hin. simpl. unfold private. rewrite Ha, Hsh, Hrd. simpl. unfold fails.
  destruct (Z.eqb_spec a 0) as [->|Hn].
  - exists (making (Some 1) (Some no_fields) (true, 0)). rewrite !app_nil_r. split; [|done].
    exists x. eapply th_making_step; try done; simpl; [|by rewrite Hin].
    by eapply (counted_same stk); [apply Hi|..].
  - exists (making (Some 1) (Some no_fields) (false, 0)). rewrite insert_id by done. split; [|by apply Hf].
    by apply (th_shown x tr t s gs [Failed a]).
Qed.

Lemma th_keeps_free_new t o k e :
  keeps t o k e (making None None (false, 0)) ->
  keeps t o (free th_lens k) e (making (Some 1) (Some no_fields) (false, 0)).
Proof.
  intros Hk. apply keeps_on_core. intros tr s gs [x Hi] Hg.
  destruct (th_making _ _ _ _ _ _ _ _ Hi Hg)
    as (Hst & Hfs & Hid & Hob & Hrun & Htk & (Ha & Hsh & Hr) & Hv & Hhe & Hhd & Ho).
  split; [done|]. simpl. rewrite Hsh. exists (making None None (false, 0)). split; [|done]. exists x.
  eapply th_step_core; try done; simpl.
  - by eapply (counted_free stk); [apply Hi|..].
  - by eapply (known_own stk view fine).
  - destruct (th_ok Hi Hg) as [Hro Hho Hlk Hu Hha Hne Hw Hd Hca]. by split.
  - right; left. split_and!; [done..|]. intros _ _.
    apply (ac_new (th_account Hi)). by rewrite Hst.
Qed.

Lemma th_keeps_write_initialized t o k e :
  keeps t o k e (making (Some 1) (Some no_fields) (true, 1)) ->
  keeps t o (write_initialized 1 k) e (making (Some 1) (Some no_fields) (true, 0)).
Proof.
  intros Hk tr s gs a w [x Hi] Hg.
  destruct (th_making _ _ _ _ _ _ _ _ Hi Hg)
    as (Hst & Hfs & Hid & Hob & Hrun & Htk & (Ha & Hsh & Hr) & Hv & Hhe & Hhd & Ho).
  injection Hv as Hrd Hin. unfold private. rewrite Ha, Hsh. simpl.
  exists (making (Some 1) (Some no_fields) (true, 1)). rewrite !app_nil_r. split; [|done].
  exists x. eapply th_making_step; try done; simpl; [|by rewrite Hrd].
  by eapply (counted_same stk); [apply Hi|..].
Qed.

(** The handle is made: the core is shared. *)
Lemma th_keeps_wrap t o k e :
  keeps t o k e (call IsMade) -> keeps t o (sync_thread_wrap k) e (making (Some 1) (Some no_fields) (true, 1)).
Proof.
  intros Hk. apply keeps_on_core. intros tr s gs [x Hi] Hg.
  destruct (th_making _ _ _ _ _ _ _ _ Hi Hg)
    as (Hst & Hfs & Hid & Hob & Hrun & Htk & (Ha & Hsh & Hr) & Hv & Hhe & Hhd & Ho).
  split; [done|]. simpl. exists (call IsMade). split; [|done]. exists x.
  injection Hv as Hrd Hin.
  destruct (th_ok Hi Hg) as [Hro Hho Hlk Hu Hha Hne Hw Hd Hca]. simpl in Hro. destruct_and? Hro.
  destruct (th_account Hi) as [Hpa Hzs Htc Hdr Hus Hre Hdl Hfr Hfi Hnew].
  eapply (th_step x x _ _ s); try done; simpl.
  - by eapply (counted_publish stk); [apply Hi|..].
  - by eapply (known_publish stk view fine).
  - split; try done. simpl. split_and!; try done. lia.
  - intros t0 g0 Ht0 Hg0 [Hr0 Hho0 Hl0 Hu0 Hha0 Hn0 Hw0 Hd0 Hca0]. split; try done.
    destruct (does g0); try done. simpl in Hr0 |- *. destruct Hr0 as (? & _). congruence.
  - pose proof (th_state Hi) as Hs. th_states Hs; lia.
  - split; simpl; try done; [|lia]. rewrite Ha in Htc. rewrite Htc. lia.
  - by right.
  - intros Hd'. right; right. by rewrite Ha.
Qed.

Lemma th_keeps_new t o k z :
  makes o ->
  (forall st, st <> 0 -> keeps t o (k st false) [Failed st] (making None None (false, 0))) ->
  keeps t o (k 0 true) [] (call IsMade) ->
  keeps t o (sync_thread_new k) [] (making None None (false, z)).
Proof.
  intros Ho Hf Hk. apply th_keeps_alloc, th_keeps_refs_store, th_keeps_init_state, th_keeps_mutex_init; [done| |].
  - intros st Hst. destruct (Z.eqb_spec st 0); [done|]. simpl negb. cbv iota. apply th_keeps_free_new. by apply Hf.
  - by apply th_keeps_write_initialized, th_keeps_wrap.
Qed.

Lemma th_keeps_made t e st :
  returns th_outline OpNew e (RNew st true : lR thread) ->
  keeps t OpNew (Ret (RNew st true : lR thread)) e (call IsMade).
Proof.
  intros Hr. split; [done|]. intros tr s gs [x Hi] Hg. exists x.
  rewrite summarize_app. cbn [fold_left note].
  destruct (go_role (th_ok Hi Hg)) as (Hx & Hst & Hmd & Hha).
  destruct (so_new (th_state Hi)) as (Hf & Hos & Hid & Hob); [by rewrite Hst|].
  destruct (th_account Hi) as [Hp Hz Ht Hdr Hus Hre Hde Hfr Hfi Hnew].
  eapply th_return; try done; simpl.
  - eapply (counted_return stk); [apply Hi|done|by left].
  - eapply (known_return stk view fine); [apply Hi|done|done|by left].
  - th_roles.
  - pose proof (th_state Hi) as Hs. th_states Hs.
  - rewrite Hst in *. split; try done; simpl; [|lia|].
    + by rewrite Z.sub_0_r.
    + intros H. by destruct (Hfi H).
Qed.

Lemma th_keeps_opnew t z :
  keeps t OpNew (sync_thread_new (fun st handle => Ret (RNew st handle : lR thread))) []
    (making None None (false, z)).
Proof.
  apply th_keeps_new; [done| |].
  - intros st Hst. apply th_keeps_new_return; [done|]. simpl. split; [done|]. by destruct (Z.eqb_spec st 0).
  - by apply th_keeps_made.
Qed.

(** The handle that is dropped at once: its state is still CREATED. *)
Lemma th_keeps_test_abort t z :
  keeps t OpTestAbortIfUnjoined sync_thread_test_abort_if_unjoined [] (making None None (false, z)).
Proof.
  apply th_keeps_new; [done| |].
  - intros st Hst. destruct (Z.eqb_spec st 0); [done|]. by left.
  - apply th_keeps_lock; [by right|]. intros f tr s gs a w [x Hi] Hg.
    destruct (th_accessible Hi Hg f eq_refl) as (-> & He & _).
    destruct (go_role (th_ok Hi Hg)) as (_ & Hst & _).
    destruct (so_new (th_state Hi)) as (Hf & _); [by rewrite Hst|].
    exists (holding IsMade f 0). rewrite app_nil_r. split; [exists x; by apply th_with_fs; rewrite ?He|].
    rewrite Hf. apply th_keeps_unlock. by right; left.
Qed.

(** *** Starting the thread *)

(** Before the thread is created; [b]: [core->call] is written. *)
Local Abbreviation early n f h b := (ThGhost (Holds n) IsEarly false (Some f) h false (b, 0)).

Lemma th_early_facts {x m s} {gs : gmap tid th_ghost} {t n f h b} :
  th_inv x m s gs -> gs !! t = Some (early n f h b) ->
  x = Some t /\ stage s = Starting t /\ os s = NotCreated /\ state_of f = SYNC_THREAD_CREATED /\ id s = 0 /\
  phase s = NoMain /\ running_task s = false /\ fs s = f /\ accessible t s = true /\
  allocated (th_life s) = true /\ handles (th_life s) = 1 /\ (b = true -> called s = true).
Proof.
  intros Hi Hg. destruct (th_accessible Hi Hg f eq_refl) as (Hac & He & Ha).
  destruct (go_role (th_ok Hi Hg)) as (Hx & Hst & Hos & Hz & Hid). rewrite He in Hz.
  apply (so_main (th_state Hi)) in Hos as Hp.
  assert (running_task s = false) as Hrun by (unfold running_task; by rewrite Hp).
  split_and!; try done.
  - apply (so_handle (th_state Hi)). left. exists t. by right.
  - apply (go_called (th_ok Hi Hg) eq_refl).
Qed.

Lemma th_keeps_write_call t o k es f h :
  keeps t o k es (early 0 f h true) -> keeps t o (write_call k) es (early 0 f h false).
Proof.
  intros Hk tr s gs a w [x Hi] Hg.
  destruct (th_early_facts Hi Hg) as (Hx & Hst & Hos & Hz & Hid & Hp & Hrun & He & Hac & Ha & Hh & _).
  rewrite Hac, Hrun. simpl. exists (early 0 f h true). rewrite !app_nil_r. split; [|done]. exists x.
  pose proof (th_called true x _ s gs Hi Hrun (or_introl eq_refl)) as Hi'.
  apply (th_step_core x _ (with_called true s) _ gs t (early 0 f h false)); try done; simpl.
  - by eapply (counted_same stk); [apply Hi|..].
  - apply (known_same stk view fine (th_life s) _ _ gs t (early 0 f h false)); try done. apply Hi.
  - destruct (th_ok Hi Hg) as [Hro Hho Hlk Hu Hha Hne Hw Hd Hca]. by split.
  - by left.
Qed.

Lemma th_keeps_write_task t o k es n f h b :
  task f = negb b -> (h = if b then 1 else 0) ->
  keeps t o k es (early n (Fields b (result f) (started f) (finished f) (state_of f)) (1 - h) true) ->
  keeps t o (write_task b k) es (early n f h true).
Proof.
  intros Hf Hh Hk.
  apply (th_keeps_access t o es true (fun f =>
    (tt, Fields b (result f) (started f) (finished f) (state_of f), []))) with (fl := f)
    (g' := early n (Fields b (result f) (started f) (finished f) (state_of f)) (1 - h) true);
    [done| |simpl; by rewrite app_nil_r].
  clear Hk. intros x m s gs Hi Hg.
  destruct (th_early_facts Hi Hg) as (Hx & Hst & Hos & Hz & Hid & Hp & Hrun & He & Hac & Ha & Hhd & Hca).
  split; [done|]. exists x. subst f.
  destruct (th_account Hi) as [Hpa Hzs Ht Hdr Hus Hre Hdl Hfr Hfi].
  eapply (th_step_fields x x m _ s gs t (early n (fs s) h true)); try done; simpl; auto.
  - subst h. by destruct b.
  - pose proof (th_state Hi) as Hs. th_states Hs.
  - split; simpl; try done; [|lia]. rewrite Ha in *. rewrite Hf in Ht. destruct b; simpl in *; lia.
Qed.

(** The reference of the new thread is counted. *)
Lemma th_keeps_start_inc t o k es f :
  keeps t o k es (early 1 f 0 true) -> keeps t o (sync_arc_inc th_lens k) es (early 0 f 0 true).
Proof.
  intros Hk. apply keeps_on_core. intros tr s gs [x Hi] Hg.
  destruct (th_early_facts Hi Hg) as (Hx & Hst & Hos & Hz & Hid & Hp & Hrun & He & Hac & Ha & Hh & Hca).
  assert (uses (early 0 f 0 true)) as Hu by by right.
  pose proof (th_counted Hi) as Hc.
  destruct (counted_alive stk _ gs Hc (th_uses_total Hi Hg Hu)) as (Ho & _ & Hr & _).
  assert (total stk (th_life s) gs = 1) as Hn.
  { unfold total. rewrite Hh, (so_pins (th_state Hi)), Hp, msum_zero; [done|].
    intros t0 g0 Hg0. destruct (decide (t0 = t)) as [->|Ht0]; [by simplify_map_eq|].
    destruct (th_early Hi Hg t0 g0 eq_refl Hg0 Ht0) as (Hnu & _).
    pose proof (counted_weights stk _ gs t0 g0 Hc Hg0). destruct (Z.eq_dec (weight (stk g0)) 0); [done|].
    exfalso. apply Hnu. left. lia. }
  split; [done|]. simpl. destruct (Z.ltb_spec (refs (th_life s)) 1); [lia|].
  destruct (Z.ltb_spec (refs (th_life s)) MAX_REFS) as [Hm|Hm]; [|unfold MAX_REFS, INT32_MAX in Hm; lia].
  exists (early 1 f 0 true). split; [|done]. exists x.
  eapply (th_step_core x _ s); try done; simpl.
  - eapply (counted_inc stk _ gs t _ _ 0); try done. lia.
  - eapply (known_change stk view fine (th_life s)); [apply Hi|done|done|done|]. simpl. by rewrite Ha.
  - destruct (th_ok Hi Hg) as [Hro Hho Hlk Hu' Hha Hne Hw Hd Hca']. split; try done. intros f0 [= <-]. auto.
  - left. by rewrite Ha.
Qed.

Lemma th_keeps_failed t o k es n f :
  keeps t o k (es ++ shown (SetState SYNC_THREAD_FAILED))
    (ThGhost (Holds n) IsUp true (Some (set_state SYNC_THREAD_FAILED f)) 0 false (true, 0)) ->
  keeps t o (write_state SYNC_THREAD_FAILED k) es (ThGhost (Holds n) IsEarly true (Some f) 0 false (true, 0)).
Proof.
  intros Hk. apply (th_keeps_access t o es false (fun f =>
    (tt, set_state SYNC_THREAD_FAILED f, shown (SetState SYNC_THREAD_FAILED)))) with (fl := f)
    (g' := ThGhost (Holds n) IsUp true (Some (set_state SYNC_THREAD_FAILED f)) 0 false (true, 0)); [done| |done].
  clear Hk. intros x m s gs Hi Hg. split; [done|]. exists None.
  destruct (th_accessible Hi Hg f eq_refl) as (_ & <- & Ha).
  destruct (go_role (th_ok Hi Hg)) as (Hx & Hst & Hos & Hz & Hid).
  apply (so_main (th_state Hi)) in Hos as Hp.
  apply (th_step_state x None m s gs t (ThGhost (Holds n) IsEarly true (Some (fs s)) 0 false (true, 0)) (fs s)
    SYNC_THREAD_FAILED IsUp); try done; simpl.
  - by right.
  - congruence.
  - by right.
  - by rewrite Hz.
  - split_and!; try done. by rewrite Hid, Hos.
  - th_roles.
  - pose proof (th_state Hi) as Hs. unfold set_state. th_states Hs.
  - intros Hd. destruct (ac_delivered (th_account Hi) Hd). congruence.
Qed.

(** A call of [start] returns. *)
Lemma th_keeps_start_return t es st :
  returns th_outline OpStart es (RStatus st : lR thread) ->
  keeps t OpStart (Ret (RStatus st : lR thread)) es (call IsUp).
Proof.
  intros Hr. split; [done|]. intros tr s gs [x Hi] Hg. exists x.
  rewrite summarize_app. cbn [fold_left note].
  destruct (go_role (th_ok Hi Hg)) as (Hst & Hz & Hid).
  destruct (th_account Hi) as [Hp Hzs Ht Hdr Hus Hre Hde Hfr Hfi Hnew].
  pose proof (so_handle (th_state Hi) (or_introl (ex_intro _ t (or_intror Hst)))) as Hh.
  assert (made (th_life s) = true) as Hmd by (apply (so_made (th_state Hi)); by rewrite Hst).
  eapply th_return; try done; simpl.
  - eapply (counted_return stk); [apply Hi|done|by left].
  - eapply (known_return stk view fine); [apply Hi|done|done|by left].
  - th_roles.
  - pose proof (th_state Hi) as Hs. th_states Hs.
  - rewrite Hst in *. split; try done; simpl; [|lia|].
    + by rewrite Z.sub_0_r.
    + intros H. by destruct (Hfi H).
Qed.

Lemma th_keeps_start_failed t es f st :
  task f = true -> first_failed es = Some st -> st <> 0 -> effects es = [] ->
  keeps t OpStart (start_failed st) es (early 1 f 0 true).
Proof.
  intros Hf Hes Hst He. apply th_keeps_write_task; [done..|].
  apply th_keeps_decref; [by left|done|]. simpl. apply th_keeps_lock; [by left|]. clear f Hf. intros f.
  apply th_keeps_failed, th_keeps_unlock, th_keeps_release; try done.
  apply th_keeps_start_return. simpl. split.
  - unfold answers. by rewrite !first_failed_app, Hes.
  - unfold effects in *. rewrite !omap_app, He. by destruct (Z.eqb_spec st 0).
Qed.

(** The new thread exists; it has the reference counted for it. *)
Lemma th_fork x m s (gs : gmap tid th_ghost) t v f :
  th_inv x m s gs -> gs !! t = Some (early 1 f 0 true) -> task f = true -> gs !! v = None ->
  th_inv x m (with_os (Joinable v) Begins s) (<[v := ends IsBegin]> (<[t := call (IsLate false)]> gs)).
Proof.
  intros Hi Hg Hf Hv. assert (v <> t) as Hvt by congruence.
  destruct (th_early_facts Hi Hg) as (Hx & Hst & Hos & Hz & Hid & Hp & Hrun & He & Hac & Ha & Hh & Hca).
  specialize (Hca eq_refl). subst f.
  assert (uses (early 1 (fs s) 0 true)) as Hu by by right.
  destruct (th_uses_core Hi Hg Hu) as (_ & Ho & _).
  destruct (th_account Hi) as [Hpa Hzs Ht Hdr Hus Hre Hde Hfr Hfi Hnew].
  rewrite Ha, Hf in Ht. 
  assert (forall t0 g0, gs !! t0 = Some g0 -> 0 <= has g0) as Hnn.
  { intros t0 g0 Hg0. destruct (Z.ltb_spec (has g0) 0) as [Hlt|]; [|done].
    destruct (go_neg (th_ok Hi Hg0) Hlt) as [y Hy].
    pose proof (owners_ge stk gs t0 g0 Hg0) as Hge. rewrite Hy in Hge. simpl in Hge. lia. }
  pose proof (msum_nonneg has gs Hnn) as Hns.
  assert (task_object s = true /\ tasks gs = 0) as [Hob Htk] by (destruct (task_object s); simpl in Ht; split; done || lia).
  split; simpl.
  - eapply (counted_fork stk _ gs t v (early 1 (fs s) 0 true) _ _ 0); try done. apply Hi.
  - eapply (known_call stk view fine); [|by simplify_map_eq|done|done].
    eapply (known_same stk view fine); [apply Hi|done|done|done|done].
  - intros t0 g0. destruct (decide (t0 = v)) as [->|Hn0]; simplify_map_eq.
    { intros [= <-]. split; simpl; try done; [split; [done|by left]|].
      destruct (held (mutex s)) as [t1|] eqn:Hm; [|done]. split; [done|]. intros [= ->].
      destruct (th_held Hi v Hm) as [g1 ?]. congruence. }
    destruct (decide (t0 = t)) as [->|Hn1]; simplify_map_eq.
    { intros [= <-]. destruct (th_ok Hi Hg) as [Hro Hho Hlk _ _ _ _ _ _]. split; try done; simpl.
      split_and!; [done|done|by exists v|done|done]. }
    intros Hg0. destruct (th_ok Hi Hg0) as [Hr0 Hho0 Hl0 Hu0 Hha0 Hne0 Hw0 Hd0 Hca0].
    assert (has g0 = 0) as Hh0 by (pose proof (msum_ge has gs t0 g0 Hnn Hg0); specialize (Hnn t0 g0 Hg0); lia).
    split; try done.
    destruct (does g0); simpl in Hr0 |- *; unfold runs in *; destruct_and?; split_and?; try done; try congruence;
      intuition congruence.
  - pose proof (th_state Hi) as Hs. pose proof (so_pins Hs) as Hpi. rewrite Hp in Hpi.
    th_states Hs; first [done | intuition congruence].
  - assert (<[t := call (IsLate false)]> gs !! v = None) as Hv' by by simplify_map_eq.
    rewrite !(msum_new _ _ v _ Hv'), !(msum_insert _ gs t _ _ Hg). simpl.
    split; simpl; rewrite ?Ha, ?Hf, ?Hob in *; try done; try lia. intros Hd. destruct (Hde Hd). congruence.
  - intros t0 H0. destruct (th_held Hi t0 H0) as [g0 Hg0].
    destruct (decide (t0 = t)) as [->|]; eexists; rewrite lookup_insert_ne by congruence; by simplify_map_eq.
  - intros Hd. by rewrite (th_not_discarded Hi Hg Hu) in Hd.
  - intros _. exists v, (ends IsBegin). by simplify_map_eq.
Qed.

Lemma th_keeps_pthread_create t o k es f :
  task f = true ->
  (forall st, st <> 0 -> keeps t o (k st) (es ++ [Failed st]) (early 1 f 0 true)) ->
  keeps t o (k 0) es (call (IsLate false)) ->
  keeps t o (pthread_create k) es (early 1 f 0 true).
Proof.
  intros Hf Hfail Hk. split.
  - intros tr s gs a Ha [x Hi] Hg. exists (early 1 f 0 true). rewrite insert_id by done.
    split; [|by apply Hfail]. by apply (th_shown x tr t s gs [Failed a]).
  - intros tr s gs v [x Hi] Hg Hv.
    destruct (th_early_facts Hi Hg) as (Hx & Hst & Hos & Hz & Hid & Hp & Hrun & He & Hac & Ha & Hh & Hca).
    rewrite Ha, Hos. simpl. exists (call (IsLate false)), (ends IsBegin). split; [|done].
    exists x. rewrite summarize_app. simpl. by apply th_fork with f.
Qed.

Lemma th_keeps_write_id t o k es :
  keeps t o k es (call (IsLate true)) -> keeps t o (write_id k) es (call (IsLate false)).
Proof.
  intros Hk tr s gs a w [x Hi] Hg.
  destruct (th_uses_core Hi Hg) as (_ & _ & Ha & _); [by right|].
  destruct (go_role (th_ok Hi Hg)) as (Hx & Hst & [v Hos] & Hz & _).
  rewrite Ha, Hst, Hos, !bool_decide_true by done. simpl.
  exists (call (IsLate true)). rewrite !app_nil_r. split; [|done]. exists x.
  destruct (th_account Hi) as [Hpa Hzs Ht Hdr Hus Hre Hde Hfr Hfi Hnew].
  eapply (th_step x x _ _ s); try done; simpl.
  - by eapply (counted_same stk); [apply Hi|..].
  - by eapply known_keep; [apply Hi|..].
  - destruct (th_ok Hi Hg) as [Hro Hho Hlk Hu Hha Hne Hw Hd Hca]. split; simpl; try done.
    rewrite Hos. split_and!; eauto.
  - intros t0 g0 Ht0 Hg0 [Hr0 Hho0 Hl0 Hu0 Hha0 Hn0 Hw0 Hd0 Hca0]. split; try done.
    destruct (does g0); try done; simpl in Hr0 |- *; destruct_and?; congruence.
  - pose proof (th_state Hi) as Hs. th_states Hs.
  - rewrite !Z.sub_0_r, !Z.add_0_r. by split.
  - by right.
  - intros Hd. by destruct (allocated (th_life s)); auto.
Qed.

Lemma th_keeps_started t o k es f :
  keeps t o k es (holding (IsLate true) (Fields (task f) (result f) 1 (finished f) (state_of f)) 0) ->
  keeps t o (write_started 1 k) es (holding (IsLate true) f 0).
Proof.
  intros Hk. apply (th_keeps_access t o es false (fun f =>
    (tt, Fields (task f) (result f) 1 (finished f) (state_of f), []))) with (fl := f)
    (g' := holding (IsLate true) (Fields (task f) (result f) 1 (finished f) (state_of f)) 0);
    [done| |simpl; by rewrite app_nil_r].
  clear Hk. intros x m s gs Hi Hg. split; [done|]. exists x.
  destruct (th_accessible Hi Hg f eq_refl) as (_ & <- & Ha).
  destruct (th_account Hi) as [Hpa Hz Ht Hdr Hus Hre Hde Hfr Hfi Hnew].
  eapply (th_step_fields x x m _ s gs t (holding (IsLate true) (fs s) 0)); try done; simpl.
  - apply (go_role (th_ok Hi Hg)).
  - pose proof (th_not_discarded Hi Hg (or_intror eq_refl)) as Hdis. by rewrite Hdis.
  - pose proof (th_state Hi) as Hs. destruct (go_role (th_ok Hi Hg)) as (_ & Hst & _).
    th_states Hs.
  - split; simpl; try done; [|lia]. rewrite Ha in *. lia.
Qed.

Lemma th_keeps_up t o k es f :
  started f <> 0 ->
  keeps t o k (es ++ shown (SetState SYNC_THREAD_JOINABLE))
    (holding IsUp (set_state SYNC_THREAD_JOINABLE f) 0) ->
  keeps t o (write_state SYNC_THREAD_JOINABLE k) es (holding (IsLate true) f 0).
Proof.
  intros Hf Hk. apply (th_keeps_access t o es false (fun f =>
    (tt, set_state SYNC_THREAD_JOINABLE f, shown (SetState SYNC_THREAD_JOINABLE)))) with (fl := f)
    (g' := holding IsUp (set_state SYNC_THREAD_JOINABLE f) 0); [done| |done].
  clear Hk. intros x m s gs Hi Hg. split; [done|]. exists None.
  destruct (th_accessible Hi Hg f eq_refl) as (_ & He & Ha).
  destruct (go_role (th_ok Hi Hg)) as (Hx & Hst & [v Hos] & Hz & Hid).
  apply (th_step_state x None m s gs t (holding (IsLate true) f 0) f SYNC_THREAD_JOINABLE IsUp); try done; simpl.
  - by right.
  - congruence.
  - by rewrite <- He, Hz.
  - split_and!; try done. by apply Hid.
  - th_roles.
  - pose proof (th_state Hi) as Hs. unfold set_state. rewrite <- He in *. th_states Hs.
  - intros Hd. destruct (ac_delivered (th_account Hi) Hd) as [_ [H|H]]; autounfold with states in *; congruence.
Qed.

Lemma th_keeps_start t : keeps t OpStart sync_thread_start [] (early 0 no_fields 1 false).
Proof.
  apply th_keeps_write_call, th_keeps_write_task; [done..|]. apply th_keeps_start_inc, th_keeps_hook.
  intros st. destruct (Z.eqb_spec st 0) as [->|Hst]; simpl negb; cbv iota; last first.
  { apply th_keeps_start_failed; try done; unfold fails; by destruct (Z.eqb_spec st 0). }
  apply th_keeps_pthread_create; [done| |].
  { intros st Hst. destruct (Z.eqb_spec st 0); [done|]. by apply th_keeps_start_failed. }
  apply th_keeps_write_id, th_keeps_lock; [by right|]. intros f.
  apply th_keeps_started, th_keeps_up; [done|]. apply th_keeps_unlock. by apply th_keeps_start_return.
Qed.

(** *** Calls *)

Lemma th_enter x x' m s s' (gs : gmap tid th_ghost) t g :
  th_inv x m s gs -> gs !! t = None ->
  counted stk (th_life s') (<[t := g]> gs) ->
  known stk view fine (th_life s') (ready (mutex s'), mutex_initialized s') (<[t := g]> gs) ->
  role_ok x' m s' t (does g) ->
  locked g = false -> dumped g = false -> 0 <= has g -> (1 <= weight (stk g) -> counts_core (does g) = true) ->
  (forall f, hold g = Some f -> fs s' = f /\ does g = IsEarly) ->
  (has g <> 0 -> running_task s' = false /\ does g = IsEarly) ->
  (does g = IsEarly -> (view g).1 = false) ->
  mutex s' = mutex s -> fs s' = fs s -> called s' = called s -> (running_task s' = true -> running_task s = true) ->
  (forall t0 g0, t0 <> t -> gs !! t0 = Some g0 -> role_ok x m s t0 (does g0) -> role_ok x' m s' t0 (does g0)) ->
  state_ok s' -> account m s' (tasks gs + has g) (users gs + borrow (does g)) ->
  allocated (th_life s') = allocated (th_life s) -> (phase s' = Begins -> phase s = Begins) ->
  th_inv x' m s' (<[t := g]> gs).
Proof.
  intros Hi Hg Hc Hk Hr Hl Hd Hh Hw Hho Hha Hca Em Ef Ec Hrun Hoth Hs Hac Ha Hb. split; try done.
  - intros t0 g0. destruct (decide (t0 = t)) as [->|Ht]; simplify_map_eq.
    + intros [= <-]. split; rewrite ?Hl, ?Hd; try done.
      * intros f [? ?]%Hho. auto.
      * rewrite Em. split; [done|]. intros H. destruct (th_held Hi t H) as [g1 ?]. congruence.
      * intros [? He]%Hha. split; [done|]. left. right. by rewrite He.
      * lia.
      * intros He. by rewrite (Hca He).
    + intros Hg0. destruct (th_ok Hi Hg0) as [Hr0 Hho0 Hl0 Hu0 Hha0 Hn0 Hw0 Hd0 Hca0]. split; try done.
      * by apply (Hoth t0).
      * by rewrite Ef.
      * by rewrite Em.
      * intros [Hr' Hx]%Hha0. split; [|done]. destruct (running_task s') eqn:H'; [|done]. by rewrite Hrun in Hr'.
      * by rewrite Ec.
  - rewrite (msum_new has gs t g Hg), (msum_new (fun g => borrow (does g)) gs t g Hg).
    by rewrite (Z.add_comm (has g)), (Z.add_comm (borrow (does g))).
  - intros t0. rewrite Em. intros H. destruct (th_held Hi t0 H) as [g0 Hg0].
    exists g0. rewrite lookup_insert_ne; [done|]. intros ->. congruence.
  - rewrite Ha. intros Hdis. destruct (th_discarded Hi Hdis) as [|(t0 & g0 & Hg0 & Hd0)]; [by left|].
    right. exists t0, g0. rewrite lookup_insert_ne; [done|]. intros ->. congruence.
  - intros Hp%Hb. destruct (th_begins Hi Hp) as (t0 & g0 & Hg0 & Hd0).
    exists t0, g0. rewrite lookup_insert_ne; [done|]. intros ->. congruence.
Qed.

(** A call that has no stake in the core. *)
Lemma th_enter_call x m s s' (gs : gmap tid th_ghost) t r :
  th_inv x m s gs -> gs !! t = None -> role_ok x m s' t r -> r <> IsEarly ->
  s' = with_stage (stage s) (borrows s + borrow r) s ->
  th_inv x m s' (<[t := call r]> gs).
Proof.
  intros Hi Hg Hr He Es. destruct (th_account Hi) as [Hpa Hzs Ht Hdr Hus Hre Hde Hfr Hfi Hnew].
  rewrite Es in *. apply (th_enter x x m s _ gs t (call r)); try done; simpl.
  - by apply counted_call; [apply Hi|..].
  - by eapply known_call; [apply Hi|..].
  - by destruct (th_state Hi).
  - rewrite Z.add_0_r. split; try done. simpl. lia.
Qed.

Lemma th_enter_new x m s c (gs : gmap tid th_ghost) t :
  th_inv x m s gs -> gs !! t = None -> create (th_life s) = Some c ->
  th_inv (Some t) m (with_life c s) (<[t := making None None (false, mutex_initialized s)]> gs).
Proof.
  intros Hi Hg Hc. pose proof Hc as Hc'. unfold create in Hc'. destruct (made (th_life s)) eqn:Hmd; [done|].
  injection Hc' as <-. pose proof (th_counted Hi) as Hco.
  assert (stage s = NoHandle) as Hst.
  { destruct (decide (stage s = NoHandle)) as [|Hn]; [done|].
    apply (so_made (th_state Hi)) in Hn. congruence. }
  destruct (counted_phase stk _ gs Hco) as [(Ho & Hn & Ha & Hsh)|[(_ & _ & _ & _ & ?)|(_ & _ & ?)]]; [|congruence..].
  destruct (known_shared _ _ _ _ _ _ (th_known Hi) Ho) as [Hrd _]. simpl in Hrd.
  destruct (th_account Hi) as [Hpa Hzs Ht Hdr Hus Hre Hde Hfr Hfi Hnew].
  eapply th_enter; try done; simpl.
  - by eapply counted_create.
  - eapply known_create; [apply Hi|done|done|done|]. simpl. by rewrite Hrd, Ha.
  - th_roles.
  - pose proof (th_state Hi) as Hs. th_states Hs.
  - rewrite !Z.add_0_r. by split.
Qed.

Lemma th_enter_start x m s (gs : gmap tid th_ghost) t :
  th_inv x m s gs -> gs !! t = None -> stage s = Spawning t ->
  th_inv (Some t) m (with_object true (with_stage (Starting t) (borrows s) s))
    (<[t := early 0 no_fields 1 false]> gs).
Proof.
  intros Hi Hg Hst. pose proof (th_state Hi) as Hs.
  destruct (so_new Hs) as (Hf & Hos & Hid & Hob); [by rewrite Hst|].
  pose proof (so_handle Hs (or_introl (ex_intro _ t (or_introl Hst)))) as Hh.
  pose proof (so_made Hs) as Hmd. rewrite Hst in Hmd. specialize (Hmd ltac:(done)).
  apply (so_main Hs) in Hos as Hp.
  pose proof (counted_total_base stk _ gs (th_counted Hi)) as Hb.
  pose proof (counted_pins stk _ gs (th_counted Hi)).
  destruct (counted_alive stk _ gs (th_counted Hi)) as (_ & Ha & _); [lia|].
  destruct (th_account Hi) as [Hpa Hzs Ht Hdr Hus Hre Hde Hfr Hfi Hnew].
  eapply th_enter; try done; simpl.
  - by eapply counted_call; [apply Hi|..].
  - by eapply known_call; [apply Hi|..].
  - split_and!; try done. by rewrite Hf.
  - by intros f [= <-].
  - intros _. unfold running_task. simpl. by rewrite Hp.
  - th_roles.
  - th_states Hs.
  - rewrite Hst, Hob in *. rewrite Ha in *. split; simpl; try done; try lia.
    + simpl in Ht. rewrite Ha. lia.
    + congruence.
    + by intros [? _]%Hfi.
Qed.

Lemma th_enter_main_end x m s c (gs : gmap tid th_ghost) t :
  th_inv x m s gs -> gs !! t = None -> phase s = InTask -> runs t s -> unpin (th_life s) = Some c ->
  th_inv x m (with_life c (with_os (os s) Ends s)) (<[t := ends IsEnd]> gs).
Proof.
  intros Hi Hg Hp Hr Hc. pose proof (th_state Hi) as Hs.
  pose proof (so_pins Hs) as Hpi. rewrite Hp in Hpi. simpl in Hpi.
  assert (running_task s = true) by (unfold running_task; by rewrite Hp).
  pose proof Hc as Hc'. unfold unpin in Hc'. rewrite Hpi in Hc'. injection Hc' as <-.
  destruct (th_account Hi) as [Hpa Hzs Ht Hdr Hus Hre Hde Hfr Hfi Hnew].
  eapply th_enter; try done; simpl.
  - eapply counted_unpin; [apply Hi|done| |done]. unfold unpin. by rewrite Hpi.
  - by eapply known_call; [apply Hi|..].
  - th_roles.
  - clear Hr. th_states Hs; intuition congruence.
  - rewrite !Z.add_0_r. split; try done. simpl. intros Hd. destruct (Hde Hd). congruence.
Qed.

Lemma th_enter_finalize x m s c (gs : gmap tid th_ghost) t :
  th_inv x m s gs -> gs !! t = None -> stage s = Open -> borrows s = 0 -> take (th_life s) = Some c ->
  th_inv x m (with_life c (with_stage Dropped 0 s)) (<[t := ends (IsDrop None)]> gs).
Proof.
  intros Hi Hg Hst Hb Hc. pose proof (th_state Hi) as Hs.
  pose proof (so_handle Hs (or_intror Hst)) as Hh.
  pose proof Hc as Hc'. unfold take in Hc'. rewrite Hh in Hc'. injection Hc' as <-.
  destruct (th_account Hi) as [Hpa Hzs Ht Hdr Hus Hre Hde Hfr Hfi Hnew].
  assert (forall t0 g0, gs !! t0 = Some g0 -> borrow (does g0) = 0) as Hnb.
  { intros t0 g0 Hg0. pose proof (msum_ge (fun g => borrow (does g)) gs t0 g0) as Hm. simpl in Hm.
    rewrite <- Hus, Hb in Hm.
    assert (forall g1, 0 <= borrow (does g1)) as Hn by (intros g1; by destruct (does g1)).
    specialize (Hm (fun _ g1 _ => Hn g1) Hg0). specialize (Hn g0). lia. }
  eapply th_enter; try done; simpl.
  - eapply counted_take; [apply Hi|done| |done]. unfold take. by rewrite Hh.
  - by eapply known_call; [apply Hi|..].
  - intros t0 g0 Ht0 Hg0 Hr. specialize (Hnb t0 g0 Hg0).
    destruct (does g0); simpl in Hr, Hnb |- *; destruct_and?; split_and?; try done; congruence.
  - pose proof (so_made Hs) as Hmd. rewrite Hst in Hmd. specialize (Hmd ltac:(done)).
    th_states Hs. by destruct H as [? [|]].
  - rewrite Hst in *. split; simpl; try done; try lia; [by rewrite Z.add_0_r|by intros [? _]%Hfi].
Qed.

Lemma in_task_runs t s : in_task t s = true -> phase s = InTask /\ runs t s.
Proof.
  unfold in_task, runs. destruct (os s) as [|v|v]; [done|..];
    intros [->%bool_decide_eq_true Hp%bool_decide_eq_true]%andb_true_iff; auto.
Qed.

Lemma th_keeps_hook_store t o h st :
  match o : lO thread with OpFailNextStart _ | OpFailNextJoin _ | OpFailNextDetach _ => True | _ => False end ->
  keeps t o (test_fail_next h st) [] (call IsNone).
Proof.
  intros Ho tr s gs a w [x Hi] Hg. exists (call IsNone). rewrite insert_id by done.
  split; [exists x; rewrite app_nil_r; by apply th_hooks|].
  destruct o; try done; by apply th_keeps_return_same.
Qed.

Lemma th_start (e1 e2 e3 : Z) : inv th_outline [] (no_thread e1 e2 e3) ∅.
Proof.
  exists None. unfold no_thread. split; simpl; try done.
  - apply counted_unborn.
  - split; simpl; try done; intros; repeat match goal with
      | H : _ \/ _ |- _ => destruct H
      | H : exists _, _ |- _ => destruct H
      end; done.
  - split; simpl; try done. split_and!; [done|by left|done].
Qed.

Lemma th_enters tr s (gs : gmap tid th_ghost) t o s' :
  inv th_outline tr s gs -> gs !! t = None -> enter thread_code t o s = Some s' ->
  exists g, inv th_outline (tr ++ [LInv t o]) s' (<[t := g]> gs) /\ opens th_outline t o g.
Proof.
  intros [x Hi] Hg He.
  assert (forall x' g, th_inv x' (summarize tr) s' (<[t := g]> gs) -> opens th_outline t o g ->
    exists g, inv th_outline (tr ++ [LInv t o]) s' (<[t := g]> gs) /\ opens th_outline t o g) as Hk.
  { intros x' g Hi' Ho. exists g. split; [|done]. exists x'. by rewrite summarize_app. }
  destruct o; simpl in He.
  - unfold on_life in He. destruct (create (th_life s)) as [c|] eqn:Hc; simplify_eq/=.
    eapply Hk; [by eapply th_enter_new|]. simpl. eauto.
  - case_bool_decide; simplify_eq/=. eapply Hk; [by eapply th_enter_start|done].
  - done.
  - destruct (in_task t s) eqn:Ht; simpl in He; [|done]. destruct (Z.eqb_spec r 0); simplify_eq/=.
    eapply (Hk x (call IsTask)); [|done].
    apply (th_enter_call x _ s' s'); try done; [by apply in_task_runs|]. destruct s'. simpl. by rewrite Z.add_0_r.
  - destruct (in_task t s) eqn:Ht; [|done]. unfold on_life in He.
    destruct (unpin _) as [c|] eqn:Hc; simplify_eq/=. apply in_task_runs in Ht as [??].
    eapply Hk; [by eapply th_enter_main_end|done].
  - case_bool_decide as Hst; simplify_eq/=. eapply (Hk x); [|done]. apply (th_enter_call x _ s); try done. by rewrite Hst.
  - case_bool_decide as Hst; simplify_eq/=. eapply (Hk x); [|done]. apply (th_enter_call x _ s); try done. by rewrite Hst.
  - case_bool_decide as Hst; simplify_eq/=. eapply (Hk x); [|done]. apply (th_enter_call x _ s); try done. by rewrite Hst.
  - case_bool_decide as Hst; simplify_eq/=. eapply (Hk x); [|done]. apply (th_enter_call x _ s); try done. by rewrite Hst.
  - case_bool_decide as Hst; simpl in He; [|done]. destruct (Z.eqb_spec (borrows s) 0); [|done].
    unfold on_life in He. destruct (take _) as [c|] eqn:Hc; simplify_eq/=.
    eapply Hk; [by eapply th_enter_finalize|done].
  - simplify_eq. eapply (Hk x); [|done]. apply (th_enter_call x _ s'); try done. destruct s'. simpl. by rewrite Z.add_0_r.
  - simplify_eq. eapply (Hk x); [|done]. apply (th_enter_call x _ s'); try done. destruct s'. simpl. by rewrite Z.add_0_r.
  - unfold on_life in He. destruct (create (th_life s)) as [c|] eqn:Hc; simplify_eq/=.
    eapply Hk; [by eapply th_enter_new|]. simpl. eauto.
  - simplify_eq. eapply (Hk x); [|done]. apply (th_enter_call x _ s'); try done. destruct s'. simpl. by rewrite Z.add_0_r.
  - simplify_eq. eapply (Hk x); [|done]. apply (th_enter_call x _ s'); try done. destruct s'. simpl. by rewrite Z.add_0_r.
  - simplify_eq. eapply (Hk x); [|done]. apply (th_enter_call x _ s'); try done. destruct s'. simpl. by rewrite Z.add_0_r.
Qed.

Lemma th_bodies t o g :
  opens th_outline t o g -> keeps t o (body thread_code o) [] g.
Proof.
  destruct o; simpl.
  - intros [z ->]. apply th_keeps_opnew.
  - intros ->. apply th_keeps_start.
  - intros ->. apply th_keeps_main.
  - intros [Hr ->]. by apply th_keeps_complete.
  - intros ->. apply th_keeps_main_end.
  - intros ->. apply th_keeps_join.
  - intros ->. apply th_keeps_detach.
  - intros ->. apply th_keeps_is_finished.
  - intros ->. apply th_keeps_id.
  - intros ->. apply th_keeps_finalize.
  - intros -> tr s gs a w [x Hi] Hg. exists (call IsNone). rewrite insert_id, !app_nil_r by done.
    split; [by exists x|]. by apply th_keeps_return_same.
  - intros -> tr s gs a w [x Hi] Hg. exists (call IsNone). rewrite insert_id, !app_nil_r by done.
    split; [by exists x|]. by apply th_keeps_return_same.
  - intros [z ->]. apply th_keeps_test_abort.
  - intros ->. by apply th_keeps_hook_store.
  - intros ->. by apply th_keeps_hook_store.
  - intros ->. by apply th_keeps_hook_store.
Qed.

Lemma th_kept e1 e2 e3 : Interleave.kept thread_code th_outline (no_thread e1 e2 e3).
Proof. split; [apply th_start|apply th_bodies|apply th_enters]. Qed.
End programs.

(** ** What every execution of a thread object does *)

(** A join returns result [r] with status 0. *)
Definition joined_with (t : tid) (r : Z) : label thread := @LRes thread t OpJoin (RJoin r 0).

Definition is_delivery (e : event thread) : bool :=
  match e with Effect (Deliver _) => true | _ => false end.

Lemma count_deliveries tr : count_events is_delivery tr = length (delivered (summarize tr)).
Proof.
  induction tr as [|l tr IH] using rev_ind; [done|].
  unfold count_events in *. rewrite filter_app, length_app, IH, summarize_app.
  destruct l as [t o|t o r|t [st|[]]]; simpl; try lia. by destruct o.
Qed.

Lemma deliver_in tr t r : LEv t (@Effect thread (Deliver r)) ∈ tr -> r ∈ delivered (summarize tr).
Proof.
  induction tr as [|l tr IH] using rev_ind; [by intros ?%not_elem_of_nil|].
  rewrite elem_of_app, list_elem_of_singleton, summarize_app. intros [Hin| <-]; simpl; [|by left].
  specialize (IH Hin). destruct l as [t' o|t' o r'|t' [st|[]]]; simpl; auto; [by destruct o|by right].
Qed.

Lemma effects_in (e : thread_effect) (es : list (event thread)) : e ∈ effects es -> @Effect thread e ∈ es.
Proof.
  intros ([st|e'] & Hin & He)%list_elem_of_omap; [done|]. simpl in He. by simplify_eq.
Qed.

Section properties.
Context (P : platform) (e1 e2 e3 : Z).
Abbreviation reached := (reachable thread_code (no_thread e1 e2 e3)).
Implicit Types (c : config thread) (tr : list (label thread)).

Lemma th_reached c tr :
  reached c tr -> exists x gs, th_inv P x (summarize tr) (state c) gs /\
    forall t, frames c !! t = None <-> gs !! t = None.
Proof. intros H. destruct (kept_inv _ _ (th_kept e1 e2 e3) c tr H) as (gs & [x Hi] & Hf). by exists x, gs. Qed.

(** A join that returns 0 has delivered what it returns. *)
Lemma join_delivers c tr tr1 t r tr2 :
  reached c tr -> tr = tr1 ++ joined_with t r :: tr2 ->
  @Effect thread (Deliver r) ∈ events tr1 t.
Proof.
  intros H He. pose proof (kept_returns _ _ (th_kept e1 e2 e3) c tr tr1 t _ _ tr2 H He) as Hr. simpl in Hr.
  destruct (first_failed _); [by destruct Hr as (? & ? & _)|].
  destruct Hr as [(_ & d & Hd)|(Hd & _)]; [|by rewrite !elem_of_cons in Hd; destruct Hd as [|[|[|[|?%not_elem_of_nil]]]]].
  apply effects_in. rewrite Hd. simpl. set_solver.
Qed.

(** A join that returns 0 returns the result that there is, after the thread has
    ended, and no later join does. *)
Lemma join_result c tr tr1 t r tr2 :
  reached c tr -> tr = tr1 ++ joined_with t r :: tr2 ->
  phase (state c) = Ended /\
  kept (summarize tr) = (if r =? 0 then [] else [r]) /\
  delivered (summarize tr) = [r] /\ discarded (summarize tr) = [] /\
  forall t' r', joined_with t' r' ∉ tr2.
Proof.
  intros H He. pose proof (join_delivers c tr tr1 t r tr2 H He) as Hd.
  assert (r ∈ delivered (summarize tr)) as Hin.
  { apply deliver_in with t. rewrite He, elem_of_app. left. by apply events_shown. }
  destruct (th_reached c tr H) as (x & gs & Hi & _).
  pose proof (th_account Hi) as Ha. destruct (ac_delivered Ha) as [Hp _]; [by intros Hn; rewrite Hn in Hin; apply not_elem_of_nil in Hin|].
  pose proof (ac_result Ha) as Hr. unfold result_ok in Hr.
  assert (kept (summarize tr) = (if r =? 0 then [] else [r]) /\ delivered (summarize tr) = [r] /\
    discarded (summarize tr) = []) as (Hk & Hdl & Hdis).
  { destruct (kept (summarize tr)) as [|r0 [|]]; [| |done].
    - destruct Hr as (_ & [Hn|Hn] & Hx); rewrite Hn in Hin; [by apply not_elem_of_nil in Hin|].
      apply list_elem_of_singleton in Hin as ->. done.
    - destruct Hr as (H0 & [(_ & Hn & _)|[(_ & Hn & Hx)|(Hn & _)]]); rewrite Hn in Hin;
        [by apply not_elem_of_nil in Hin| |by apply not_elem_of_nil in Hin].
      apply list_elem_of_singleton in Hin as ->. by destruct (Z.eqb_spec r0 0). }
  split_and!; try done. intros t' r' (tr3 & tr4 & ->)%list_elem_of_split.
  pose proof (shown_twice is_delivery tr tr1 t OpJoin (RJoin r 0) tr3 t' OpJoin (RJoin r' 0) tr4
    (reachable_well_formed _ _ c tr H) He) as Htw.
  rewrite count_deliveries, Hdl in Htw. simpl in Htw.
  enough (2 <= 1)%nat by lia. apply Htw; apply existsb_exists.
  + exists (@Effect thread (Deliver r)). split; [by apply list_elem_of_In|done].
  + exists (@Effect thread (Deliver r')). split; [|done]. apply list_elem_of_In.
    apply (join_delivers c tr _ _ _ tr4 H). by rewrite He, <- app_assoc.
Qed.

(** C15: join: a call of the component is refused a step only while the mutex of
    the object is held (or its unlocking has failed), or, in a join, until the
    new thread has ended.  A join returns status 0 only after that, with the
    result that the task has completed with first, or NULL if it has not; at most
    one join does, whatever the other calls on the handle and the operating system
    do, and then nothing else gets or drops the result. *)
Theorem thread_join c tr :
  reached c tr ->
  (forall t o A (f : action thread A) k a v,
     frames c !! t = Some (o, Act f k) -> f t a v (state c) = Blocked ->
     free_mutex (mutex (state c)) = false \/ o = OpJoin /\ phase (state c) <> Ended) /\
  (forall tr1 t r tr2, tr = tr1 ++ joined_with t r :: tr2 ->
     phase (state c) = Ended /\
     kept (summarize tr) = (if r =? 0 then [] else [r]) /\
     delivered (summarize tr) = [r] /\ discarded (summarize tr) = [] /\
     forall t' r', joined_with t' r' ∉ tr2).
Proof.
  intros H. split.
  - intros t o A f k a v Hf Hb.
    by destruct (kept_waits _ _ (th_kept e1 e2 e3) c tr t o A f k a v H Hf Hb) as (gs & g & _ & _ & Hw).
  - intros tr1 t r tr2. by apply join_result.
Qed.

(** C18: the life of a thread object: the states written follow the machine CREATED,
    JOINABLE or FAILED, JOINING and DETACHING (and back, when the operating system
    or a test hook refuses), JOINED and DETACHED; the field is the state written
    last, no state follows a terminal one, JOINED means that the new thread has
    ended, JOINED and DETACHED that its OS handle is given up, FAILED that there is
    no thread; the identity that the handle gives is the thread's; and a finalizer
    that has returned has seen a terminal state. *)
Theorem thread_lifecycle c tr :
  reached c tr ->
  let s := state c in
  let z := state_of (fs s) in
  path (past (summarize tr)) /\ z = latest (past (summarize tr)) /\ 0 <= z <= 6 /\
  (forall y, y ∈ past (summarize tr) -> terminal y = true -> z = y) /\
  (z = SYNC_THREAD_JOINABLE -> started (fs s) <> 0 /\ exists v, os s = Joinable v) /\
  (z = SYNC_THREAD_JOINED -> phase s = Ended) /\
  (z = SYNC_THREAD_JOINED \/ z = SYNC_THREAD_DETACHED -> exists v, os s = Gone v) /\
  (z = SYNC_THREAD_FAILED -> os s = NotCreated) /\
  (stage s = Open \/ stage s = Dropped -> z <> SYNC_THREAD_CREATED /\ id s = bits (os s)) /\
  (finalized (summarize tr) = true -> terminal z = true).
Proof.
  intros H s z. destruct (th_reached c tr H) as (x & gs & Hi & _).
  pose proof (th_account Hi) as Ha. pose proof (th_state Hi) as Hs.
  pose proof (ac_path Ha) as Hp. pose proof (ac_state Ha) as Hz.
  split_and!; try done.
  - unfold z, s. rewrite Hz. by apply path_range.
  - unfold z, s. rewrite Hz. by apply path_range.
  - unfold z, s. rewrite Hz. by apply path_terminal.
  - apply (so_up Hs).
  - apply (so_joined Hs).
  - apply (so_gone Hs).
  - apply (so_failed Hs).
  - apply (so_open Hs).
  - intros Hf. by apply (ac_finalized Ha).
Qed.

(** C34: resources and errors: no schedule reaches undefined behaviour: no access to
    the protected fields without the mutex, no join or detach of an OS thread
    twice, no task dropped while it runs, no core used after it is freed.  The
    task is dropped at most once; when the handle is gone and no call runs, the
    core is freed, its mutex destroyed, the task dropped if it was handed over, and
    a result kept has been delivered or dropped, once.  An operation reports the first
    failing status of its OS calls, and [abort] is called only after a failure, for a
    handle that is finalized before it is joined or detached, and in the test of that. *)
Theorem thread_resources :
  (forall xs, run thread_code xs (Config (no_thread e1 e2 e3) ∅, []) <> Fault) /\
  forall c tr, reached c tr ->
    let s := state c in
    let m := summarize tr in
    (0 <= drops m <= 1 /\ (running_task s = true -> drops m = 0 /\ allocated (th_life s) = true)) /\
    (stage s = Dropped -> phase s <> InTask -> frames c = ∅ ->
       allocated (th_life s) = false /\ ready (mutex s) = false /\ drops m = 1 /\
       (kept m = [] \/ exists r, kept m = [r] /\
          (delivered m = [r] /\ discarded m = [] \/ delivered m = [] /\ discarded m = [r]))) /\
    (forall tr1 t o r tr2, tr = tr1 ++ LRes t o r :: tr2 -> returns (th_outline P) o (events tr1 t) r) /\
    (forall t o, frames c !! t = Some (o, Abort) ->
       first_failed (events tr t) <> None \/ o = OpTestAbortIfUnjoined \/
       o = OpFinalize /\ stage s = Dropped /\ terminal (state_of (fs s)) = false).
Proof.
  split; [apply (kept_safe _ _ (th_kept e1 e2 e3))|]. intros c tr H s m.
  destruct (th_reached c tr H) as (x & gs & Hi & Hfr).
  pose proof (th_account Hi) as Ha. pose proof (th_state Hi) as Hs.
  pose proof (ac_drops Ha) as Hdr. fold m in Hdr. split_and!.
  - rewrite Hdr. pose proof (so_new Hs) as Hn. destruct (given _), (task_object _); simpl; try done.
    by destruct Hn as (_ & _ & _ & ?).
  - rewrite Hdr. by destruct (given _), (task_object _).
  - intros Hr. destruct (so_running Hs Hr) as (_ & _ & Hob). split.
    + rewrite Hdr, Hob. destruct (given (stage (state c))) eqn:Hg; [done|].
      destruct (so_new Hs Hg) as (_ & _ & _ & ?). congruence.
    + by destruct (counted_alive stk _ gs (th_counted Hi) (th_running_total Hi Hr)) as (_ & ? & _).
  - intros Hst Hp He.
    assert (gs = ∅) as -> by (apply map_empty; intros t; apply Hfr; by rewrite He).
    assert (allocated (th_life s) = false) as Hal.
    { apply (counted_end stk _ (th_counted Hi)); [by apply (so_dropped Hs)|].
      rewrite (so_pins Hs). by rewrite bool_decide_false. }
    destruct (known_shared stk view fine _ _ _ (th_known Hi)) as [Hrd _]; [done|]. simpl in Hrd.
    pose proof (ac_task Ha) as Ht. fold s in Ht. rewrite Hal in Ht.
    split_and!; [done|exact (eq_trans Hrd Hal)| |].
    + rewrite Hdr. fold s. by rewrite Hst, Ht.
    + pose proof (ac_result Ha) as Hr. pose proof (ac_freed Ha Hal) as Hk. fold m in Hr, Hk. unfold result_ok in Hr.
      destruct (kept m) as [|r [|]]; [by left|right; exists r|done]. split; [done|].
      destruct Hr as (_ & [(_ & Hd & Hx)|[(_ & ? & ?)|(? & ?)]]); [|by left|by right].
      by specialize (Hk Hd Hx).
  - intros tr1 t o r tr2 He. by apply (kept_returns _ _ (th_kept e1 e2 e3) c tr tr1 t o r tr2).
  - intros t o Hf. destruct (kept_aborts _ _ (th_kept e1 e2 e3) c tr t o H Hf) as (gs' & g & [[y Hi'] _] & Hg & Hab).
    destruct Hab as [?|[?|(-> & z & Hd & Hz)]]; auto. right; right.
    pose proof (go_role (th_ok Hi' Hg)) as Hr. rewrite Hd in Hr. destruct Hr as [Hst Hr].
    split_and!; [done..|]. fold s in Hr. by rewrite (Hr z).
Qed.
End properties.

(** ** Witnesses *)

#[local] Existing Instance posix.

Definition call_thread (t : tid) (o : thread_op) : choice thread := @CInvoke thread t o.
Definition played_thread (xs : list (choice thread)) : config thread * list (label thread) :=
  after thread_code (no_thread 0 0 0) xs.

(** Thread 1 spawns thread 2, which completes the task with 7 and ends. *)
Definition spawned : list (choice thread) :=
  [call_thread 1 OpNew] ++ steps 1 7 ++ [call_thread 1 OpStart] ++ steps 1 4 ++ [CStep 1 0 2%nat] ++ steps 1 6.
Definition ended : list (choice thread) :=
  spawned ++ steps 2 2 ++ [call_thread 2 (OpComplete 7)] ++ steps 2 5 ++ [call_thread 2 OpMainEnd] ++ steps 2 6.
(** Thread 3 joins, a second join is refused, and the handle is dropped. *)
Definition joined : list (choice thread) := ended ++ [call_thread 3 OpJoin] ++ steps 3 14.
Definition joined_twice : list (choice thread) := joined ++ [call_thread 4 OpJoin] ++ steps 4 4.
Definition dropped : list (choice thread) := joined_twice ++ [call_thread 1 OpFinalize] ++ steps 1 10.
(** Thread 3 waits for the thread while it runs the task. *)
Definition joining : list (choice thread) := spawned ++ steps 2 2 ++ [call_thread 3 OpJoin] ++ steps 3 6.

Lemma thread_join_witness :
  exists (c c' : config thread) (tr : list (label thread)),
    tr = list.take 17%nat tr ++ joined_with 3%nat 7 :: list.drop 18%nat tr /\
    (phase (state c) = Ended /\ kept (summarize tr) = (if 7 =? 0 then [] else [7]) /\
     delivered (summarize tr) = [7] /\ discarded (summarize tr) = [] /\
     forall t' r', joined_with t' r' ∉ list.drop 18%nat tr) /\
    (free_mutex (mutex (state c')) = false \/ OpJoin = OpJoin /\ phase (state c') <> Ended).
Proof.
  set (tr := (played_thread joined_twice).2).
  exists (played_thread joined_twice).1, (played_thread joining).1, tr.
  assert (tr = list.take 17%nat tr ++ joined_with 3%nat 7 :: list.drop 18%nat tr) as He by (vm_compute; reflexivity).
  split; [exact He|]. split.
  - refine (proj2 (thread_join posix 0 0 0 _ tr _) _ 3%nat 7 _ He). played.
  - refine (proj1 (thread_join posix 0 0 0 _ (played_thread joining).2 _) 3%nat OpJoin Z _ _ 0 0%nat _ _).
    + played.
    + vm_compute. reflexivity.
    + vm_compute. reflexivity.
Defined.

Lemma thread_lifecycle_witness :
  exists (c : config thread) (tr : list (label thread)),
    past (summarize tr) = [SYNC_THREAD_JOINED; SYNC_THREAD_JOINING; SYNC_THREAD_JOINABLE] /\
    path (past (summarize tr)) /\ state_of (fs (state c)) = latest (past (summarize tr)) /\
    id (state c) = numbered 2 /\ terminal (state_of (fs (state c))) = true.
Proof.
  exists (played_thread dropped).1, (played_thread dropped).2. split; [vm_compute; reflexivity|].
  destruct (thread_lifecycle posix 0 0 0 (played_thread dropped).1 (played_thread dropped).2 ltac:(played))
    as (Hp & Hz & _ & _ & _ & _ & _ & _ & Hid & Hf).
  split; [exact Hp|]. split; [exact Hz|]. split.
  - rewrite (proj2 (Hid ltac:(by vm_compute; right))). vm_compute. reflexivity.
  - apply Hf. vm_compute. reflexivity.
Defined.

Lemma thread_resources_witness :
  exists (c : config thread) (tr : list (label thread)),
    stage (state c) = Dropped /\ frames c = ∅ /\
    allocated (th_life (state c)) = false /\ ready (mutex (state c)) = false /\ drops (summarize tr) = 1.
Proof.
  exists (played_thread dropped).1, (played_thread dropped).2.
  split; [vm_compute; reflexivity|]. split; [vm_compute; reflexivity|].
  destruct (proj2 (thread_resources posix 0 0 0) (played_thread dropped).1 (played_thread dropped).2 ltac:(played))
    as (_ & H & _).
  destruct H as (? & ? & ? & _); [vm_compute; reflexivity|vm_compute; discriminate|vm_compute; reflexivity|].
  by split_and!.
Defined.
