(* ===== verification/ApiThread.v ===== *)
(** ApiThread: src/unsafe/thread/thread.mbt, what a program gets from the thread
    object of Thread: what its wrappers make of the results of the native calls.

    The runner of [spawn_raw] completes the task with the address of a box that
    holds what the task returned, or the error that it raised as a string; what is
    in the box at an address is the parameter [unbox]. *)
From stdpp Require Import base gmap list strings.
From Stdlib Require Import ZArith Lia.
From S2P Require Import Prelude Api Interleave Platform Thread ThreadInvariant ThreadCalls ThreadSafety.

(** ** The wrappers, from the results of the native calls *)

Section wrappers.
Context {T : Type}.

Inductive ThreadOutcome :=
| Returned (x : T)
| FailedWith (message : string).

Context (unbox : Z -> ThreadOutcome).

(** The statuses of the two native calls. *)
Definition spawn_raw (creation start : Z) : answer unit :=
  unless_failed creation ThreadInitializationFailed (unless_failed start ThreadCreationFailed (Returns tt)).

Definition restore_outcome (raw : Z) : answer ThreadOutcome :=
  restore (if raw =? 0 then None else Some (unbox raw)).

Definition join_raw (raw status : Z) : answer T :=
  match status with
  | 0 =>
      cell ← restore_outcome raw;
      match cell with
      | Returned value => Returns value
      | FailedWith message => Raises (ThreadPanicked message)
      end
  | -1 => Raises ThreadAlreadyJoined
  | -2 => Raises ThreadJoinSelf
  | -3 => Raises ThreadAlreadyDetached
  | -4 => Raises ThreadOperationInProgress
  | code => Raises (ThreadJoinFailed code)
  end.

Definition detach_raw (status : Z) : answer unit :=
  match status with
  | 0 => Returns tt
  | -1 => Raises ThreadAlreadyJoined
  | -2 => Raises ThreadAlreadyDetached
  | -3 => Raises ThreadOperationInProgress
  | code => Raises (ThreadDetachFailed code)
  end.

Definition is_finished_raw (result status : Z) : answer bool :=
  unless_failed status ThreadOperationFailed (Returns (negb (result =? 0))).

(** A status of the operating system is positive. *)
Lemma join_raw_failed raw st : 0 < st -> join_raw raw st = Raises (ThreadJoinFailed st).
Proof. by destruct st. Qed.

Lemma detach_raw_failed st : 0 < st -> detach_raw st = Raises (ThreadDetachFailed st).
Proof. by destruct st. Qed.

(** ** Properties *)

(** The answers of a call that changed nothing. *)
Definition refusals : list SyncError :=
  [ThreadAlreadyJoined; ThreadJoinSelf; ThreadAlreadyDetached; ThreadOperationInProgress].

Section properties.
Context (P : platform) (e1 e2 e3 : Z).
Abbreviation reached := (reachable thread_code (no_thread e1 e2 e3)).
Implicit Types (c : config thread) (tr : list (label thread)).

(** What a trace shows of the one result there is. *)
Definition result_taken (s : thread_state) tr (p : Z) : Prop :=
  phase s = Ended /\ kept (summarize tr) = [p] /\ delivered (summarize tr) = [p] /\ discarded (summarize tr) = [].

(** C16: a [join] that returns a value, or raises [ThreadPanicked], does so after
    the thread has ended, with what is in the box that the task was completed with
    first, and no later [join] does; it reads a null pointer only if the task was
    never completed.  A [join] or [detach] that answers "already joined", "already
    detached", "in progress" or "join self" has changed nothing; when the operating
    system refused (with a positive status) the error has the first such status; and
    a [detach] that returns has given the thread up. *)
Theorem thread_api c tr :
  reached c tr ->
  (forall tr1 t raw st tr2, tr = tr1 ++ @LRes thread t OpJoin (RJoin raw st) :: tr2 ->
     match first_failed (events tr1 t) with
     | Some e => 0 < e -> join_raw raw st = Raises (ThreadJoinFailed e)
     | None =>
         match join_raw raw st with
         | Returns x => exists p, unbox p = Returned x /\ result_taken (state c) tr p
         | Raises (ThreadPanicked m) => exists p, unbox p = FailedWith m /\ result_taken (state c) tr p
         | Raises e => e ∈ refusals /\ events tr1 t = []
         | Undefined => phase (state c) = Ended /\ kept (summarize tr) = []
         end
     end /\
     (st = 0 -> forall t' raw', @LRes thread t' OpJoin (RJoin raw' 0) ∉ tr2)) /\
  (forall tr1 t st tr2, tr = tr1 ++ @LRes thread t OpDetach (RStatus st) :: tr2 ->
     match first_failed (events tr1 t) with
     | Some e => 0 < e -> detach_raw st = Raises (ThreadDetachFailed e)
     | None =>
         match detach_raw st with
         | Returns _ => SetState SYNC_THREAD_DETACHED ∈ effects (events tr1 t)
         | Raises e => e ∈ refusals /\ events tr1 t = []
         | Undefined => False
         end
     end).
Proof.
  intros H. split.
  - intros tr1 t raw st tr2 Htr.
    pose proof (kept_returns _ _ (th_kept e1 e2 e3) c tr tr1 t _ _ tr2 H Htr) as Hr. simpl in Hr.
    split; [|intros -> t' raw'; by apply (join_result P e1 e2 e3 c tr tr1 t raw tr2)].
    destruct (first_failed (events tr1 t)) as [e|].
    { destruct Hr as (-> & _ & ->). apply join_raw_failed. }
    destruct Hr as [[-> _]|(Hst & -> & Hes)].
    + destruct (join_result P e1 e2 e3 c tr tr1 t raw tr2 H Htr) as (Hp & Hk & Hd & Hx & _).
      unfold join_raw, restore_outcome. destruct (Z.eqb_spec raw 0) as [->|Hn]; simpl; [done|].
      destruct (unbox raw) as [x|m] eqn:Hu; simpl; by exists raw.
    + rewrite Hes. unfold refusals. set_unfold in Hst. destruct_or!; subst; simpl; split; try done; set_solver.
  - intros tr1 t st tr2 Htr.
    pose proof (kept_returns _ _ (th_kept e1 e2 e3) c tr tr1 t _ _ tr2 H Htr) as Hr. simpl in Hr.
    destruct (first_failed (events tr1 t)) as [e|].
    { destruct Hr as [-> _]. apply detach_raw_failed. }
    destruct Hr as [[-> [d ->]]|[Hst Hes]].
    + simpl. set_solver.
    + rewrite Hes. unfold refusals. set_unfold in Hst. destruct_or!; subst; simpl; split; try done; set_solver.
Qed.
End properties.
End wrappers.

(** ** A concrete execution *)

#[local] Existing Instance posix.

(** The box at address 7 holds what the task returned. *)
Definition box_at_7 (p : Z) : ThreadOutcome := if p =? 7 then Returned 42 else FailedWith "another box"%string.

(** The first join of [joined_twice] returns 42, the second is refused. *)
Lemma thread_api_witness :
  exists (c : config thread) (tr : list (label thread)),
    tr = list.take 17%nat tr ++ @LRes thread 3%nat OpJoin (RJoin 7 0) :: list.drop 18%nat tr /\
    last tr = Some (@LRes thread 4%nat OpJoin (RJoin 0 (-1))) /\
    join_raw box_at_7 7 0 = Returns 42 /\
    (exists p, box_at_7 p = Returned 42 /\ result_taken (state c) tr p) /\
    (forall t' raw', @LRes thread t' OpJoin (RJoin raw' 0) ∉ list.drop 18%nat tr).
Proof.
  set (tr := (played_thread joined_twice).2). exists (played_thread joined_twice).1, tr.
  assert (tr = list.take 17%nat tr ++ @LRes thread 3%nat OpJoin (RJoin 7 0) :: list.drop 18%nat tr) as He
    by (vm_compute; reflexivity).
  split; [exact He|]. split; [vm_compute; reflexivity|]. split; [reflexivity|].
  destruct (proj1 (thread_api box_at_7 posix 0 0 0 (played_thread joined_twice).1 tr ltac:(played)) _ _ _ _ _ He)
    as [Hr Hn].
  split; [exact Hr|by apply Hn].
Defined.
