(* ===== verification/ThreadAlone.v ===== *)
(** ThreadAlone: calls on a thread handle as functions.

    What a join, a detach and a question do when the mutex is free, no OS call
    fails and no other thread moves meanwhile, as functions of the state; the
    programs of Thread compute them. *)
From stdpp Require Import base gmap list.
From Stdlib Require Import ZArith Lia.
From S2P Require Import Prelude Interleave Platform Arc OsMutex Thread ThreadInvariant ThreadCalls ThreadSafety.

(** The result, the status and the state after a join; [None] if it would wait for
    the thread to end. *)
Definition join_alone {P : platform} (t : tid) (s : thread_state) : option (Z * Z * thread_state) :=
  let f := fs s in
  if (started f =? 0) || (state_of f =? SYNC_THREAD_FAILED) || (state_of f =? SYNC_THREAD_JOINED)
  then Some (0, -1, s) else
  if state_of f =? SYNC_THREAD_DETACHED then Some (0, -3, s) else
  if (state_of f =? SYNC_THREAD_JOINING) || (state_of f =? SYNC_THREAD_DETACHING) then Some (0, -4, s) else
  match os s with
  | Joinable v =>
      if is_self t v s then Some (0, -2, s) else
      if negb (next_join_error s =? 0) then Some (0, next_join_error s, hook_set JoinError 0 s) else
      if bool_decide (phase s = Ended)
      then Some (result f, 0,
             with_object (task_object s && negb (task f))
               (with_os (Gone v) Ended (with_fs (Fields false 0 (started f) (finished f) SYNC_THREAD_JOINED) s)))
      else None
  | _ => None
  end.

(** The status and the state after a detach. *)
Definition detach_alone (s : thread_state) : option (Z * thread_state) :=
  let f := fs s in
  if (started f =? 0) || (state_of f =? SYNC_THREAD_FAILED) || (state_of f =? SYNC_THREAD_JOINED)
  then Some (-1, s) else
  if state_of f =? SYNC_THREAD_DETACHED then Some (-2, s) else
  if (state_of f =? SYNC_THREAD_JOINING) || (state_of f =? SYNC_THREAD_DETACHING) then Some (-3, s) else
  if negb (next_detach_error s =? 0)
  then Some (next_detach_error s, hook_set DetachError 0 (with_fs (set_state SYNC_THREAD_JOINABLE f) s)) else
  match os s with
  | Joinable v =>
      let ended := negb (finished f =? 0) in
      Some (0,
        with_object (task_object s && negb (ended && task f))
          (with_os (Gone v) (phase s)
            (with_fs (Fields (task f && negb ended) (result f) (started f) (finished f) SYNC_THREAD_DETACHED) s)))
  | _ => None
  end.

Section alone.
Context (P : platform) (e1 e2 e3 : Z).
Abbreviation M := thread_code.
Abbreviation reached := (reachable M (no_thread e1 e2 e3)).
Implicit Types (c : config thread) (tr ls : list (label thread)) (s : thread_state).

(** A state in which a call on the handle can run to its end. *)
Record ready_for_calls s : Prop := {
  rc_allocated : allocated (th_life s) = true;
  rc_mutex : mutex s = OsMutex true None false;
  rc_open : stage s = Open;
  rc_task : task (fs s) = true -> task_object s = true;
  rc_ended : phase s = Ended \/ finished (fs s) <> 0 -> running_task s = false;
}.

(** The state after each step is computed at once, lest it grows. *)
Local Ltac fields :=
  cbv [with_life with_mutex with_initialized with_fs with_called with_id with_os with_object with_stage hook_set hook_get
    th_life mutex mutex_initialized fs called id os phase task_object stage borrows next_start_error next_join_error
    next_detach_error task result started finished state_of set_state set get th_lens mutex_lens].
Local Ltac act :=
  eapply solo_act; [reflexivity|cbn -[running_task srw]; rewrite ?srw_0, ?bool_decide_true by done;
    try match goal with H : forall s, phase s = _ -> running_task s = false |- _ => rewrite H by reflexivity end;
    cbn; fields; reflexivity|]; fields.
Local Ltac finish := cbn; rewrite ?andb_true_r, ?andb_false_r; reflexivity.

Lemma join_solo t s r st s' :
  ready_for_calls s -> join_alone t s = Some (r, st, s') ->
  solo t sync_thread_join s = Some (RJoin r st : lR thread, s' : lS thread).
Proof.
  intros [Ha Hm Ho Ht He] Hj.
  destruct s as [[rf al sh hd pn md] mx ini [tk rs sd fi z] ca i o ph ob g b n1 n2 n3]. simpl in Ha, Hm, Ho, Ht, He. subst.
  unfold join_alone in Hj. simpl in Hj. do 2 act.
  destruct ((sd =? 0) || (z =? SYNC_THREAD_FAILED) || (z =? SYNC_THREAD_JOINED)) eqn:H1.
  { injection Hj as <- <- <-. act. finish. }
  destruct (z =? SYNC_THREAD_DETACHED) eqn:H2; [injection Hj as <- <- <-; act; finish|].
  destruct ((z =? SYNC_THREAD_JOINING) || (z =? SYNC_THREAD_DETACHING)) eqn:H3; [injection Hj as <- <- <-; act; finish|].
  destruct o as [|v|v]; [done| |done]. act.
  destruct (is_self t v _) eqn:H4; [injection Hj as <- <- <-; act; finish|]. act.
  destruct (n2 =? 0) eqn:H5; simpl negb in *; cbv iota in *; [|injection Hj as <- <- <-; act; finish].
  destruct (bool_decide_reflect (ph = Ended)) as [->|]; [|done]. injection Hj as <- <- <-.
  apply Z.eqb_eq in H5 as ->. do 2 act. unfold join_thread, detach_thread.
  destruct tk; [rewrite Ht by done|]; (destruct (windows P); [act|]); do 6 act; try act; finish.
Qed.

Lemma detach_solo t s st s' :
  ready_for_calls s -> detach_alone s = Some (st, s') ->
  solo t sync_thread_detach s = Some (RStatus st : lR thread, s' : lS thread).
Proof.
  intros [Ha Hm Ho Ht He] Hj.
  destruct s as [[rf al sh hd pn md] mx ini [tk rs sd fi z] ca i o ph ob g b n1 n2 n3]. simpl in Ha, Hm, Ho, Ht, He. subst.
  unfold detach_alone in Hj. simpl in Hj. do 2 act.
  destruct ((sd =? 0) || (z =? SYNC_THREAD_FAILED) || (z =? SYNC_THREAD_JOINED)) eqn:H1.
  { injection Hj as <- <-. act. finish. }
  destruct (z =? SYNC_THREAD_DETACHED) eqn:H2; [injection Hj as <- <-; act; finish|].
  destruct ((z =? SYNC_THREAD_JOINING) || (z =? SYNC_THREAD_DETACHING)) eqn:H3; [injection Hj as <- <-; act; finish|].
  do 3 act. destruct (n3 =? 0) eqn:H5; simpl negb in *; cbv iota in *;
    [|injection Hj as <- <-; do 3 act; finish].
  destruct o as [|v|v]; [done| |done]. injection Hj as <- <-. apply Z.eqb_eq in H5 as ->.
  assert (forall k, detach_thread k = pthread_detach k) as Hd by (intros k; unfold detach_thread; by destruct (windows P)).
  rewrite Hd. clear Hd. do 4 act.
  destruct (Z.eqb_spec fi 0) as [->|Hfi]; simpl negb; cbv iota; [act; finish|].
  assert (forall s, phase s = ph -> running_task s = false) as Hr.
  { intros s Hp. specialize (He (or_intror Hfi)). unfold running_task in *. by rewrite Hp. }
  destruct tk; [rewrite Ht by done|]; do 2 act; [act|]; finish.
Qed.

Lemma is_finished_solo t s :
  ready_for_calls s ->
  solo t sync_thread_is_finished s = Some (RFinished (finished (fs s)) 0 : lR thread, s : lS thread).
Proof.
  intros [Ha Hm Ho Ht He].
  destruct s as [[rf al sh hd pn md] mx ini [tk rs sd fi z] ca i o ph ob g b n1 n2 n3]. simpl in Ha, Hm, Ho, Ht, He. subst.
  do 3 act. finish.
Qed.

(** *** The same around a call: the handle is borrowed meanwhile *)

Lemma join_alone_stage t s g b :
  join_alone t (with_stage g b s) =
    match join_alone t s with Some (r, st, s') => Some (r, st, with_stage g b s') | None => None end.
Proof. unfold join_alone, is_self. destruct s. simpl. repeat case_match; simplify_eq; done. Qed.

Lemma join_alone_same t s r st s' :
  join_alone t s = Some (r, st, s') -> stage s' = stage s /\ borrows s' = borrows s.
Proof. unfold join_alone. intros Hj. repeat case_match; simplify_eq; done. Qed.

Lemma detach_alone_stage s g b :
  detach_alone (with_stage g b s) =
    match detach_alone s with Some (st, s') => Some (st, with_stage g b s') | None => None end.
Proof. unfold detach_alone. destruct s. simpl. repeat case_match; simplify_eq; done. Qed.

Lemma detach_alone_same s st s' :
  detach_alone s = Some (st, s') -> stage s' = stage s /\ borrows s' = borrows s.
Proof. unfold detach_alone. intros Hj. repeat case_match; simplify_eq; done. Qed.

Lemma stage_back s b :
  stage s = Open -> with_stage Open (borrows s) (with_stage Open b s) = s.
Proof. destruct s. simpl. by intros ->. Qed.

Lemma open_ready c tr b :
  reached c tr -> stage (state c) = Open -> free_mutex (mutex (state c)) = true ->
  ready_for_calls (with_stage Open b (state c)).
Proof.
  intros H Hst Hf. destruct (th_reached P e1 e2 e3 c tr H) as (x & gs & Hi & _).
  pose proof (th_state Hi) as Hs. pose proof (so_handle Hs (or_intror Hst)) as Hh.
  pose proof (counted_total_base stk _ gs (th_counted Hi)). pose proof (counted_pins stk _ gs (th_counted Hi)).
  destruct (counted_alive stk _ gs (th_counted Hi)) as (Ho & Ha & _); [lia|].
  destruct (known_shared stk view fine _ _ _ (th_known Hi) Ho) as [Hrd _]. simpl in Hrd.
  apply andb_true_iff in Hf as [Hh0%bool_decide_eq_true Hk%negb_true_iff].
  split; simpl; try done.
  - destruct (mutex (state c)) as [rd hd sk]. simpl in *. congruence.
  - intros Ht. pose proof (ac_task (th_account Hi)) as Hta. rewrite Ha, Ht in Hta.
    assert (0 <= tasks gs); [|by destruct (task_object (state c)); simpl in Hta; [|lia]].
    apply msum_nonneg. intros t0 g0 Hg0. destruct (Z.ltb_spec (has g0) 0) as [Hlt|]; [|done].
    destruct (go_neg (th_ok Hi Hg0) Hlt) as [y Hy].
    pose proof (owners_ge stk gs t0 g0 Hg0) as Hge. rewrite Hy in Hge. simpl in Hge. lia.
  - intros He. assert (phase (state c) = Ends \/ phase (state c) = Ended) as Hp.
    { destruct He as [He|He]; [by right|]. by apply (so_finished Hs). }
    unfold running_task. simpl. by destruct Hp as [-> | ->].
Qed.

Definition runs_alone c tr (t : tid) (o : lO thread) (s' : lS thread) (r : lR thread) : Prop :=
  exists n ls, run M (CInvoke t o :: replicate n (CStep t 0 0%nat)) (c, tr) =
    Go (Config s' (frames c), tr ++ ls ++ [LRes t o r]).

(** C35: every branch of join and detach, on a handle whose mutex is free, when no OS
    call fails and no other thread moves meanwhile: a join refuses a thread that is
    not started, failed or joined (-1), detached (-3), being joined or detached (-4)
    or the caller itself (-2; on Windows, one with the same identity while the
    thread has not ended), reports a status set by a test, and otherwise takes
    the result of the ended thread, drops its task and leaves the state JOINED; a
    detach refuses with -1, -2 and -3, and otherwise leaves DETACHED and drops the
    task if the thread has finished; asking whether it has, or its identity,
    changes nothing.  All of them give the handle back as they got it. *)
Theorem thread_calls_alone c tr t :
  reached c tr -> stage (state c) = Open -> free_mutex (mutex (state c)) = true -> frames c !! t = None ->
  (forall r st s', join_alone t (state c) = Some (r, st, s') -> runs_alone c tr t OpJoin s' (RJoin r st)) /\
  (forall st s', detach_alone (state c) = Some (st, s') -> runs_alone c tr t OpDetach s' (RStatus st)) /\
  runs_alone c tr t OpIsFinished (state c) (RFinished (finished (fs (state c))) 0) /\
  runs_alone c tr t OpId (state c) (RId (id (state c))).
Proof.
  intros H Hst Hf Hfr. set (b := borrows (state c) + 1).
  pose proof (open_ready c tr b H Hst Hf) as Hr.
  assert (forall o r (s1 s' : lS thread),
    enter M t o (state c) = Some (with_stage Open b (state c)) ->
    solo t (body M o) (with_stage Open b (state c)) = Some (r, s1) -> leave M t o r s1 = s' ->
    runs_alone c tr t o s' r) as Hrun.
  { intros o r s1 s' He Hs <-. by apply (solo_runs M c t o _ r s1 tr Hfr He Hs). }
  assert (with_stage Open (b - 1) (with_stage Open b (state c)) = state c) as Hback.
  { unfold b. rewrite Z.add_simpl_r. by apply stage_back. }
  split_and!.
  - intros r st s' Hj. destruct (join_alone_same _ _ _ _ _ Hj) as [Hs1 Hs2].
    apply (Hrun OpJoin _ (with_stage Open b s')).
    + simpl. by rewrite bool_decide_true.
    + apply join_solo; [done|]. by rewrite join_alone_stage, Hj.
    + simpl. unfold b. rewrite Z.add_simpl_r, <- Hs2. apply stage_back. congruence.
  - intros st s' Hj. destruct (detach_alone_same _ _ _ Hj) as [Hs1 Hs2].
    apply (Hrun OpDetach _ (with_stage Open b s')).
    + simpl. by rewrite bool_decide_true.
    + apply detach_solo; [done|]. by rewrite detach_alone_stage, Hj.
    + simpl. unfold b. rewrite Z.add_simpl_r, <- Hs2. apply stage_back. congruence.
  - apply (Hrun OpIsFinished _ (with_stage Open b (state c))).
    + simpl. by rewrite bool_decide_true.
    + by apply (is_finished_solo t (with_stage Open b (state c))).
    + done.
  - apply (Hrun OpId _ (with_stage Open b (state c))).
    + simpl. by rewrite bool_decide_true.
    + simpl. rewrite (rc_allocated _ Hr : allocated (th_life (state c)) = true). done.
    + done.
Qed.
End alone.

(** On Windows: a join after the thread has ended, and one by the thread itself. *)
Definition played_win32 (xs : list (choice thread)) : config thread * list (label thread) :=
  after (thread_code (P := win32)) (no_thread 0 0 0) xs.

Lemma thread_calls_alone_witness :
  exists (c c' : config thread) (tr tr' : list (label thread)) (s' : thread_state),
    join_alone (P := win32) 3 (state c) = Some (7, 0, s') /\ state_of (fs s') = SYNC_THREAD_JOINED /\
    runs_alone win32 c tr 3 (OpJoin : lO thread) s' (RJoin 7 0 : lR thread) /\
    runs_alone win32 c' tr' 2 (OpJoin : lO thread) (state c') (RJoin 0 (-2) : lR thread).
Proof.
  exists (played_win32 ended).1, (played_win32 (spawned ++ steps 2 2)).1.
  exists (played_win32 ended).2, (played_win32 (spawned ++ steps 2 2)).2. eexists.
  split; [vm_compute; reflexivity|]. split; [vm_compute; reflexivity|]. split.
  - apply (thread_calls_alone win32 0 0 0 (played_win32 ended).1 (played_win32 ended).2 3%nat);
      [played|vm_compute; reflexivity..].
  - apply (thread_calls_alone win32 0 0 0 (played_win32 (spawned ++ steps 2 2)).1
      (played_win32 (spawned ++ steps 2 2)).2 2%nat); [played|vm_compute; reflexivity..].
Defined.
