(* ===== verification/Join.v ===== *)
(** Join: a spawned thread and another component in one program.

    The program of README.md: a thread is spawned that works on a channel, and is
    joined.  Here the other component is any one built on Machine.  The two run
    side by side; the new thread uses the other component between the start of its
    task and its own end, every other thread at any time, also inside a call on the
    thread's handle (to release what the task has captured, say). *)
From stdpp Require Import base gmap list.
From Stdlib Require Import ZArith Lia.
From S2P Require Import Prelude Interleave Platform Arc OsMutex Thread ThreadInvariant ThreadCalls ThreadSafety.
From S2P Require Machine OwnedBytes.

(** Thread [v] is the new thread. *)
Definition is_worker (v : tid) (s : thread_state) : bool :=
  match os s with NotCreated => false | Joinable w | Gone w => bool_decide (w = v) end.

(** ** Steps and the new thread *)

(** Calls on the handle leave the new thread as it is, but for giving up its OS
    handle. *)
Definition same_thread (s s' : thread_state) : Prop :=
  phase s' = phase s /\ (os s' = os s \/ exists v, os s = Joinable v /\ os s' = Gone v).

Lemma same_worker s s' v : same_thread s s' -> is_worker v s' = is_worker v s.
Proof. unfold is_worker. by intros [_ [-> | (w & -> & ->)]]. Qed.

(** Programs all of whose steps do that, or create the thread. *)
Fixpoint steady (p : prog thread) : Prop :=
  match p with
  | Ret _ | Abort => True
  | Act f k =>
      (forall t a v s x s' es, f t a v s = Go (x, s', es) -> same_thread s s') /\ forall x, steady (k x)
  | Fork o f k =>
      o = OpMain /\ (forall v s s', f v s = Go s' -> os s = NotCreated /\ os s' = Joinable v) /\
      forall st, steady (k st)
  end.

(** One step: what it does to the thread, by cases. *)
Ltac same_thread :=
  intros; simpl in *; repeat case_match; simplify_eq/=; split; simpl; eauto; try congruence.
Ltac steady :=
  repeat match goal with
  | |- steady (if ?b then _ else _) => destruct b
  | |- steady (match ?b with _ => _ end) => destruct b
  | |- steady ?p =>
      let q := eval hnf in p in
      match q with
      | Act _ _ => change (steady q); split; [same_thread|intros]
      | Fork _ _ _ => change (steady q); split; [done|split; [|intros]]
      | Ret _ => exact I
      | Abort => exact I
      | _ => progress change (steady q)
      end
  end.

Section steps.
Context {P : platform}.

Lemma steady_body o : steady (body thread_code o).
Proof.
  destruct o; cbn [body thread_code]; steady. intros v s s' H.
  destruct (allocated _); simpl in H; [|done]. case_bool_decide; by simplify_eq/=.
Qed.

Lemma enter_thread t o s s' :
  enter thread_code t o s = Some s' ->
  os s' = os s /\ o <> OpMain /\
  (phase s' = phase s \/ o = OpMainEnd /\ is_worker t s = true /\ phase s' = Ends).
Proof.
  unfold is_worker. destruct o; simpl; unfold on_life, in_task; intros H;
    repeat case_match; simplify_eq/=; try (by split_and!; auto).
  all: repeat match goal with H : mbind _ _ = Some _ |- _ => apply bind_Some in H as (? & ? & ?) end; simplify_eq/=.
  all: split_and!; auto.
  all: right; split_and!; auto; repeat case_match; simplify_eq/=; by destruct (bool_decide (_ = t)).
Qed.

Lemma leave_thread t o r s :
  let s' := leave thread_code t o r s in
  os s' = os s /\ phase s' = match o : lO thread with OpMain => InTask | OpMainEnd => Ended | _ => phase s end.
Proof. destruct o; simpl; repeat case_match; done. Qed.
End steps.

(** ** The program *)

Section program.
Context {P : platform} {S : Machine.sig} (M : Machine.code S) (ctor : Machine.sO S) (h : Machine.sH S).
Context (e1 e2 e3 : Z).

Record system := System { side : config thread; other : Machine.config S }.

Inductive happening := OnThread (l : label thread) | OnOther (l : Machine.label S).

(** Thread [t] is in a call of the other component. *)
Definition busy (t : tid) (sys : system) : bool := bool_decide (t ∈ dom (Machine.threads (other sys))).

(** A new thread is in no call, and it ends in none. *)
Definition may_thread (sys : system) (l : label thread) : bool :=
  match l with
  | LInv t OpMain | LInv t OpMainEnd | LRes t OpMainEnd _ => negb (busy t sys)
  | _ => true
  end.

(** The new thread calls the other component while it runs. *)
Definition may_other (sys : system) (l : Machine.label S) : bool :=
  match l with
  | Machine.LInv t _ =>
      negb (is_worker t (state (side sys))) || bool_decide (phase (state (side sys)) ∈ [InTask; Ends])
  | _ => true
  end.

Definition step_both (x : choice thread + Machine.choice S) (sys : system)
    : outcome (system * list happening) :=
  match x with
  | inl x =>
      match step thread_code x (side sys) with
      | Go (c, ls) =>
          if forallb (may_thread sys) ls then Go (System c (other sys), OnThread <$> ls) else Blocked
      | Fault => Fault
      | Blocked => Blocked
      end
  | inr x =>
      match Machine.step M x (other sys) with
      | Go (c, ls) =>
          if forallb (may_other sys) ls then Go (System (side sys) c, OnOther <$> ls) else Blocked
      | Fault => Fault
      | Blocked => Blocked
      end
  end.

Fixpoint run_both (xs : list (choice thread + Machine.choice S)) (s : system * list happening)
    : outcome (system * list happening) :=
  match xs with
  | [] => Go s
  | x :: xs =>
      match step_both x s.1 with
      | Go (sys, ls) => run_both xs (sys, s.2 ++ ls)
      | Fault => Fault
      | Blocked => Blocked
      end
  end.

(** No thread yet; the other component is about to be made. *)
Definition start_both : system :=
  System (Config (no_thread e1 e2 e3) ∅) (Machine.start M ctor h).

Definition reachable_both (sys : system) (tr : list happening) : Prop :=
  exists xs, run_both xs (start_both, []) = Go (sys, tr).

Definition on_thread (tr : list happening) : list (label thread) :=
  omap (fun l => match l with OnThread l => Some l | OnOther _ => None end) tr.
Definition on_other (tr : list happening) : list (Machine.label S) :=
  omap (fun l => match l with OnOther l => Some l | OnThread _ => None end) tr.

Implicit Types (sys : system) (tr : list happening).

Lemma on_thread_app tr tr' : on_thread (tr ++ tr') = on_thread tr ++ on_thread tr'.
Proof. apply omap_app. Qed.
Lemma on_other_app tr tr' : on_other (tr ++ tr') = on_other tr ++ on_other tr'.
Proof. apply omap_app. Qed.
Lemma on_thread_fmap ls : on_thread (OnThread <$> ls) = ls /\ on_other (OnThread <$> ls) = [].
Proof. unfold on_thread, on_other. induction ls as [|l ls [IH1 IH2]]; csimpl; [done|]. by rewrite IH1. Qed.
Lemma on_other_fmap ls : on_other (OnOther <$> ls) = ls /\ on_thread (OnOther <$> ls) = [].
Proof. unfold on_thread, on_other. induction ls as [|l ls [IH1 IH2]]; csimpl; [done|]. by rewrite IH1. Qed.

(** Which calls are running, and what is known of the new thread. *)
Record tidy sys tr : Prop := {
  ti_steady t o p : frames (side sys) !! t = Some (o, p) -> steady p;
  ti_end t p : frames (side sys) !! t = Some (OpMainEnd : lO thread, p) -> is_worker t (state (side sys)) = true;
  ti_busy v : is_worker v (state (side sys)) = true -> v ∈ dom (Machine.threads (other sys)) ->
    phase (state (side sys)) ∈ [InTask; Ends];
  ti_main v : LInv v (OpMain : lO thread) ∈ on_thread tr -> is_worker v (state (side sys)) = true;
}.

(** A step of a call on the handle. *)
Lemma tidy_same sys tr (c : config thread) ls t o p :
  tidy sys tr -> same_thread (state (side sys)) (state c) ->
  frames c = <[t := (o, p)]> (frames (side sys)) -> steady p ->
  (o = OpMainEnd -> is_worker t (state (side sys)) = true) ->
  (forall v, LInv v (OpMain : lO thread) ∉ ls) ->
  tidy (System c (other sys)) (tr ++ (OnThread <$> ls)).
Proof.
  intros [Hs He Hb Hm] Hsame Hf Hp Hw Hls. split; simpl.
  - intros t' o' p'. rewrite Hf. intros [[-> [= <- <-]]|[_ ?]]%lookup_insert_Some; eauto.
  - intros t' p'. rewrite Hf, (same_worker _ _ _ Hsame).
    intros [[-> [= -> <-]]|[_ ?]]%lookup_insert_Some; eauto.
  - intros v. rewrite (same_worker _ _ _ Hsame). destruct Hsame as [-> _]. apply Hb.
  - intros v. rewrite on_thread_app. rewrite (proj1 (on_thread_fmap ls)), elem_of_app, (same_worker _ _ _ Hsame).
    intros [?|?]; [auto|by edestruct Hls].
Qed.

Lemma tidy_thread x sys sys' tr ls :
  tidy sys tr -> step_both (inl x) sys = Go (sys', ls) -> tidy sys' (tr ++ ls).
Proof.
  intros Ht Hx. simpl in Hx. destruct (step thread_code x (side sys)) as [[c ls0]| |] eqn:Hs; [|done..].
  destruct (forallb (may_thread sys) ls0) eqn:Hmay; [|done]. injection Hx as <- <-.
  rewrite forallb_forall in Hmay. pose proof Ht as [Hst He Hb Hm].
  destruct x as [t o'|t a u]; cbn [step] in Hs.
  - destruct (frames (side sys) !! t) eqn:Hf; [done|].
    destruct (enter thread_code t o' (state (side sys))) as [s|] eqn:Hen; [|done]. injection Hs as <- <-.
    destruct (enter_thread t o' _ s Hen) as (Hos & Hno & Hph).
    assert (forall v, is_worker v s = is_worker v (state (side sys))) as Hw by (intros v; unfold is_worker; by rewrite Hos).
    specialize (Hmay _ (or_introl eq_refl)). split; cbn [side other state frames].
    + intros t' o1 p. intros [[-> [= <- <-]]|[_ ?]]%lookup_insert_Some; [apply steady_body|eauto].
    + intros t' p. rewrite Hw. intros [[-> [= -> _]]|[_ ?]]%lookup_insert_Some; [|eauto].
      destruct Hph as [Hph|(_ & ? & _)]; [|done]. simpl in Hen.
      destruct (in_task t' (state (side sys))) eqn:Hin; [|done]. unfold in_task in Hin. unfold is_worker.
      destruct (os _); [done|by apply andb_true_iff in Hin as [? _]..].
    + intros v. rewrite Hw. intros Hv Hd. destruct Hph as [->|(_ & _ & ->)]; [by apply Hb with v|set_solver].
    + intros v. rewrite on_thread_app, elem_of_app, Hw. simpl. intros [?|[= <- <-]%list_elem_of_singleton]; [auto|done].
  - destruct (frames (side sys) !! t) as [[o' p]|] eqn:Hf; [|done]. pose proof (Hst _ _ _ Hf) as Hp.
    destruct p as [r| |A f k|o2 f k]; [|done| |].
    + pose proof (leave_thread t o' r (state (side sys))) as [Hos Hph].
      set (s := leave thread_code t o' r (state (side sys))) in *. clearbody s. injection Hs as <- <-.
      assert (forall v, is_worker v s = is_worker v (state (side sys))) as Hw by (intros v; unfold is_worker; by rewrite Hos).
      specialize (Hmay _ (or_introl eq_refl)). split; cbn [side other state frames].
      * intros t' o1 p [_ ?]%lookup_delete_Some. eauto.
      * intros t' p [_ ?]%lookup_delete_Some. rewrite Hw. eauto.
      * intros v. rewrite Hw, Hph. intros Hv Hd. specialize (Hb v Hv Hd).
        destruct o'; try done; [set_solver|]. exfalso.
        pose proof (He _ _ Hf) as Ht'. assert (v = t) as ->.
        { clear -Hv Ht'. unfold is_worker in *. repeat case_match; try done; by repeat case_bool_decide; simplify_eq. }
        simpl in Hmay. unfold busy in Hmay. by rewrite bool_decide_true in Hmay.
      * intros v. rewrite on_thread_app, elem_of_app, Hw. simpl.
        intros [?|[=]%list_elem_of_singleton]. auto.
    + destruct Hp as [Hact Hk]. destruct (f t a u (state (side sys))) as [[[y s] es]| |] eqn:Hy; [|done..].
      injection Hs as <- <-. apply (tidy_same sys tr _ _ t o' (k y)); try done; simpl.
      * by apply (Hact _ _ _ _ _ _ _ Hy).
      * intros ->. by apply (He _ _ Hf).
      * intros w (? & ? & _)%list_elem_of_fmap. done.
    + destruct Hp as (-> & Hfork & Hk). destruct (negb (a =? 0)).
      * injection Hs as <- <-. apply (tidy_same sys tr _ _ t o' (k a)); try done; simpl.
        -- split; auto.
        -- intros ->. by apply (He _ _ Hf).
        -- intros w [=]%list_elem_of_singleton.
      * destruct (frames (side sys) !! u) eqn:Hu; [done|].
        destruct (f u (state (side sys))) as [s| |] eqn:Hy; [|done..]. injection Hs as <- <-.
        destruct (Hfork _ _ _ Hy) as [Hno Hos].
        assert (forall v, is_worker v (state (side sys)) = false) as Hw by (intros v; unfold is_worker; by rewrite Hno).
        specialize (Hmay _ (or_introl eq_refl)). simpl in Hmay. split; cbn [side other state frames].
        -- intros t' o1 p. intros [[-> [= <- <-]]|[_ [[-> [= <- <-]]|[_ ?]]%lookup_insert_Some]]%lookup_insert_Some;
             [exact (steady_body OpMain)|apply Hk|eauto].
        -- intros t' p. intros [[_ [=]]|[_ [[-> [= -> _]]|[_ H']]%lookup_insert_Some]]%lookup_insert_Some.
           ++ apply He in Hf. by rewrite Hw in Hf.
           ++ apply He in H'. by rewrite Hw in H'.
        -- intros v Hv Hd. unfold is_worker in Hv. rewrite Hos in Hv. apply bool_decide_eq_true in Hv as <-.
           unfold busy in Hmay. by rewrite bool_decide_true in Hmay.
        -- intros v. rewrite on_thread_app, elem_of_app. simpl. intros [Hin|[= <-]%list_elem_of_singleton].
           ++ apply Hm in Hin. by rewrite Hw in Hin.
           ++ unfold is_worker. rewrite Hos. by apply bool_decide_true.
Qed.

Lemma tidy_other x sys sys' tr ls :
  tidy sys tr -> step_both (inr x) sys = Go (sys', ls) -> tidy sys' (tr ++ ls).
Proof.
  intros [Hst He Hb Hm] Hx. simpl in Hx. destruct (Machine.step M x (other sys)) as [[c ls0]| |] eqn:Hs; [|done..].
  destruct (forallb (may_other sys) ls0) eqn:Hmay; [|done]. injection Hx as <- <-.
  rewrite forallb_forall in Hmay. split; simpl; eauto.
  - intros v Hv Hd. destruct (Machine.step_threads M _ _ _ _ v Hs Hd) as [?|[q Hq]]; [by apply Hb with v|].
    apply list_elem_of_In, Hmay in Hq. simpl in Hq. rewrite Hv in Hq. by apply bool_decide_eq_true in Hq.
  - intros v. rewrite on_thread_app, (proj2 (on_other_fmap ls0)), app_nil_r. auto.
Qed.

(** The parts of an execution are executions of the parts. *)
Lemma reachable_parts sys tr :
  reachable_both sys tr ->
  tidy sys tr /\ reachable thread_code (no_thread e1 e2 e3) (side sys) (on_thread tr) /\
  Machine.reachable M ctor h (other sys) (on_other tr).
Proof.
  intros [xs H]. revert H.
  assert (tidy start_both [] /\ reachable thread_code (no_thread e1 e2 e3) (side start_both) (on_thread []) /\
    Machine.reachable M ctor h (other start_both) (on_other [])) as H0.
  { split_and!; [|by exists []..]. split; simpl; [by intros ??? ?%lookup_empty_Some|by intros ?? ?%lookup_empty_Some|done|by intros ? ?%not_elem_of_nil]. }
  revert H0. generalize start_both, ([] : list happening). induction xs as [|x xs IH]; intros sys0 tr0 H0; simpl.
  - by intros [= <- <-].
  - destruct (step_both x sys0) as [[sys1 ls]| |] eqn:Hx; [|done..]. apply IH. clear IH.
    destruct H0 as (Ht & Hr & Ho). split; [destruct x; by eauto using tidy_thread, tidy_other|].
    rewrite on_thread_app, on_other_app. destruct x as [x|x]; simpl in Hx.
    + destruct (step thread_code x (side sys0)) as [[c ls0]| |] eqn:Hs; [|done..].
      destruct (forallb _ ls0); [|done]. injection Hx as <- <-. simpl.
      rewrite (proj1 (on_thread_fmap ls0)), (proj2 (on_thread_fmap ls0)), app_nil_r. split; [|done].
      by apply (reachable_step _ _ _ _ _ _ _ Hr Hs).
    + destruct (Machine.step M x (other sys0)) as [[c ls0]| |] eqn:Hs; [|done..].
      destruct (forallb _ ls0); [|done]. injection Hx as <- <-. simpl.
      rewrite (proj1 (on_other_fmap ls0)), (proj2 (on_other_fmap ls0)), app_nil_r. split; [done|].
      by apply (Machine.extend_reachable _ _ _ _ _ _ _ _ Ho Hs).
Qed.

(** After a join that has returned 0 the new thread is in no call. *)
Lemma joined_idle sys tr t r v :
  reachable_both sys tr -> OnThread (joined_with t r) ∈ tr -> OnThread (LInv v (OpMain : lO thread)) ∈ tr ->
  phase (state (side sys)) = Ended /\ busy v sys = false.
Proof.
  intros H Hj Hv. destruct (reachable_parts sys tr H) as ([_ _ Hb Hm] & Hr & _).
  assert (forall l, OnThread l ∈ tr -> l ∈ on_thread tr) as Hin.
  { intros l Hl. apply list_elem_of_omap. by exists (OnThread l). }
  apply Hin in Hj, Hv. apply list_elem_of_split in Hj as (tr1 & tr2 & He).
  destruct (th_reached P e1 e2 e3 _ _ Hr) as (x & gs & Hi & _).
  destruct (ac_delivered (th_account Hi)) as [Hp _].
  { intros Hn. assert (r ∈ delivered (summarize (on_thread tr))) as Hd; [|rewrite Hn in Hd; by apply not_elem_of_nil in Hd].
    apply deliver_in with t. rewrite He, elem_of_app. left.
    apply events_shown. by apply (join_delivers P e1 e2 e3 _ _ tr1 t r tr2 Hr). }
  split; [done|]. apply bool_decide_false. intros Hd. specialize (Hb v (Hm v Hv) Hd). rewrite Hp in Hb. set_solver.
Qed.

Lemma run_both_snoc xs x s s1 :
  run_both (xs ++ [x]) s = Go s1 ->
  exists s0 ls, run_both xs s = Go s0 /\ step_both x s0.1 = Go (s1.1, ls) /\ s1.2 = s0.2 ++ ls.
Proof.
  revert s. induction xs as [|y xs IH]; intros s; simpl.
  - destruct (step_both x s.1) as [[sys ls]| |] eqn:Hx; [|done..]. intros [= <-]. by exists s, ls.
  - destruct (step_both y s.1) as [[sys ls]| |]; [|done..]. apply IH.
Qed.

(** From then on it does nothing in the other component. *)
Lemma joined_quiet sys tr1 t r tr2 v :
  reachable_both sys (tr1 ++ OnThread (joined_with t r) :: tr2) ->
  OnThread (LInv v (OpMain : lO thread)) ∈ tr1 ->
  forall l, l ∈ on_other tr2 -> Machine.actor l <> v.
Proof.
  intros [xs H] Hv. remember (tr1 ++ _ :: tr2) as tr eqn:He. revert sys tr tr2 H He.
  induction xs as [|x xs IH] using rev_ind; intros sys tr tr2 H He.
  { injection H as _ <-. by destruct tr1. }
  assert (reachable_both sys tr) as Hr by by exists (xs ++ [x]).
  apply run_both_snoc in H as ([sys0 tr0] & ls & H0 & Hx & He'). simpl in *. subst tr.
  apply app_eq_mid in He as [(k & -> & ->)|(k & -> & ->)].
  - rewrite on_other_app. intros l [Hl|Hl]%elem_of_app; [by apply (IH _ _ _ H0 eq_refl)|].
    destruct (joined_idle sys0 _ t r v (ex_intro _ xs H0)) as [_ Hb0%bool_decide_eq_false]; [set_solver..|].
    destruct (joined_idle _ _ t r v Hr) as [_ Hb%bool_decide_eq_false]; [set_solver..|].
    destruct x as [x|x]; simpl in Hx.
    + destruct (step thread_code x (side sys0)) as [[c ls0]| |]; [|done..].
      destruct (forallb _ ls0); [|done]. injection Hx as _ <-.
      rewrite (proj2 (on_thread_fmap ls0)) in Hl. by apply not_elem_of_nil in Hl.
    + destruct (Machine.step M x (other sys0)) as [[c ls0]| |] eqn:Hs; [|done..].
      destruct (forallb _ ls0); [|done]. injection Hx as <- <-. rewrite (proj1 (on_other_fmap ls0)) in Hl.
      destruct (Machine.step_actor M _ _ _ _ l Hs Hl) as [?|?]; intros <-; simpl in *; done.
  - intros l Hl. apply list_elem_of_omap in Hl as ([|l1] & Hy & Hl); simplify_eq/=.
    destruct x as [x|x]; simpl in Hx; repeat case_match; simplify_eq.
    + assert (OnOther l ∈ OnThread <$> l0) as (? & ? & _)%list_elem_of_fmap; [|done].
      match goal with H : _ <$> _ = _ |- _ => rewrite H end. set_solver.
    + assert (OnThread (joined_with t r) ∈ OnOther <$> l0) as (? & ? & _)%list_elem_of_fmap; [|done].
      match goal with H : _ <$> _ = _ |- _ => rewrite H end. set_solver.
Qed.
End program.

(** C17: a join is a barrier: in every execution of a thread beside another component,
    the channel of README.md for one, what each of the two does is an execution of
    that component alone, so what is proved of it holds; and once a join of the
    thread has returned 0, the thread has ended, it is in no call of the other
    component, and nothing that happens there any more is its doing. *)
Theorem join_barrier (P : platform) (S : Machine.sig) (M : Machine.code S) ctor h e1 e2 e3
    (sys : system) tr1 t r tr2 v :
  reachable_both M ctor h e1 e2 e3 sys (tr1 ++ OnThread (joined_with t r) :: tr2) ->
  OnThread (LInv v (OpMain : lO thread)) ∈ tr1 ->
  (let tr := tr1 ++ OnThread (joined_with t r) :: tr2 in
   reachable thread_code (no_thread e1 e2 e3) (side sys) (on_thread tr) /\
   Machine.reachable M ctor h (other sys) (on_other tr)) /\
  phase (state (side sys)) = Ended /\ busy v sys = false /\
  forall l, l ∈ on_other tr2 -> Machine.actor l <> v.
Proof.
  intros H Hv. split; [apply (reachable_parts M ctor h e1 e2 e3 sys _ H)|].
  destruct (joined_idle M ctor h e1 e2 e3 sys _ t r v H); [set_solver..|].
  split_and!; [done..|by apply (joined_quiet M ctor h e1 e2 e3 sys tr1 t r tr2 v)].
Qed.

(** ** The program of README.md *)

#[local] Existing Instance posix.

Abbreviation own := OwnedBytes.own.
Abbreviation bytes_call t o := (@Machine.CInvoke own t o).
Abbreviation new_channel := (OwnedBytes.OpNew 3 4 4).

Definition on_channel (xs : list (Machine.choice own)) : list (choice thread + Machine.choice own) := inr <$> xs.
Definition on_handle (xs : list (choice thread)) : list (choice thread + Machine.choice own) := inl <$> xs.

(** Thread 0 makes the channel and another sender, and spawns thread 2, which sends
    three bytes and ends; thread 0 receives them, joins thread 2 and drops the
    receiver. *)
Definition readme : list (choice thread + Machine.choice own) :=
  on_channel (Machine.steps 0 12 ++
    [bytes_call 0 OwnedBytes.OpReceiver] ++ Machine.steps 0 6 ++
    [bytes_call 0 OwnedBytes.OpSenderShare] ++ Machine.steps 0 6) ++
  on_handle ([call_thread 0 OpNew] ++ steps 0 7 ++ [call_thread 0 OpStart] ++ steps 0 4 ++ [CStep 0 0 2%nat] ++
    steps 0 6 ++ steps 2 2) ++
  on_channel ([bytes_call 2 (OwnedBytes.OpSend [1; 2; 3])] ++ Machine.steps 2 20) ++
  on_handle ([call_thread 2 (OpComplete 7)] ++ steps 2 5 ++ [call_thread 2 OpMainEnd] ++ steps 2 6) ++
  on_channel ([bytes_call 0 OwnedBytes.OpRecv] ++ Machine.steps 0 12) ++
  on_handle ([call_thread 0 OpJoin] ++ steps 0 14) ++
  on_channel ([bytes_call 0 (OwnedBytes.OpFinalize OwnedBytes.Receiver)] ++ Machine.steps 0 9).

Definition played_readme : system * list happening :=
  let start := start_both OwnedBytes.own_code new_channel OwnedBytes.own_h0 0 0 0 in
  match run_both OwnedBytes.own_code readme (start, []) with Go s => s | _ => (start, []) end.

Lemma join_barrier_witness :
  exists (sys : system) (tr1 tr2 : list happening),
    reachable_both OwnedBytes.own_code new_channel OwnedBytes.own_h0 0 0 0 sys
      (tr1 ++ OnThread (joined_with 0%nat 7) :: tr2) /\
    OnOther (@Machine.LRes own 2%nat (OwnedBytes.OpSend [1; 2; 3]) (OwnedBytes.RSubmit 0 0)) ∈ tr1 /\
    OnOther (@Machine.LInv own 0%nat (OwnedBytes.OpFinalize OwnedBytes.Receiver)) ∈ tr2 /\
    phase (state (side sys)) = Ended /\ busy 2%nat sys = false /\
    forall l, l ∈ on_other tr2 -> Machine.actor l <> 2%nat.
Proof.
  exists played_readme.1, (list.take 28%nat played_readme.2), (list.drop 29%nat played_readme.2).
  assert (reachable_both OwnedBytes.own_code new_channel OwnedBytes.own_h0 0 0 0 played_readme.1
    (list.take 28%nat played_readme.2 ++ OnThread (joined_with 0%nat 7) :: list.drop 29%nat played_readme.2)) as H.
  { exists readme. vm_compute. reflexivity. }
  split; [exact H|]. split; [vm_compute; do 14 constructor 2; constructor|].
  split; [vm_compute; constructor|].
  refine (proj2 (join_barrier posix _ _ _ _ 0 0 0 _ _ _ 7 _ 2%nat H _)).
  vm_compute. do 8 constructor 2. constructor.
Defined.
